(* ===== verification/_CoqProject ===== *)
-Q . S2P
Prelude.v
Types.v
Effects.v
Rows.v
Objects.v
Sharing.v
ConnectionInfo.v
DdlUtils.v
SqlBuilder.v
Lexer.v
Keywords.v
Quoting.v
Analyzer.v
Completion.v
AnalyzerProps.v
Sources.v
CompletionProps.v
Database.v
Syntax.v
Calendar.v
Doubles.v
FormatDouble.v
Regex.v
Explain.v
ExplainSql.v
ExplainProps.v
SqlitePlan.v
PlanErrors.v
Redis.v
RedisProps.v
Postgres.v
PostgresCatalog.v
PostgresConnection.v
PostgresProps.v
PostgresPath.v
PostgresCatalogProps.v
Mongo.v
MongoProps.v
Mssql.v
MssqlCatalog.v
MssqlConnection.v
MssqlCatalogProps.v
MssqlResults.v
MssqlProps.v
MssqlConnectionProps.v
MySql.v
MySqlCatalog.v
MySqlConnection.v
MySqlProps.v
MySqlText.v
MySqlCatalogProps.v
MySqlConnectionProps.v
Sqlite.v
SqliteProps.v
SqliteScript.v
SqliteCatalog.v
DuckDb.v
DuckDbProps.v
DuckDbText.v
Factory.v
Cassandra.v
CassandraCatalog.v
CassandraProps.v
CassandraColumns.v
OracleInstaller.v
OracleClient.v
Oracle.v
OracleCatalog.v
OracleConnection.v
OracleProps.v
OracleConnectionProps.v
OracleResults.v
OracleInstallProps.v
OracleClientProps.v
OracleSchema.v
Results.v
