(* ===== verification/Prelude.v ===== *)
(** * libdearsql: a verification development

    libdearsql is a C++ library that gives a database client one interface to many engines:
    connections and catalogs, SQL building, completion and name resolution in SQL text,
    syntax checks, and query plans.  This development models the library's own logic as
    executable functions and proves what makes it correct; paths below are under [src/].

    ** The parts and how they interact

    A statement's text is cut into tokens ([Lexer]); the [Analyzer] reads groups, relations,
    CTEs and columns off the tokens; [Completion] combines that with a catalog into the items
    offered at a cursor and the meaning of the name at it.  A catalog is made of the records
    of [Types].  [SqlBuilder] writes the SQL of each dialect; [Database] is the interface's
    default operations, which run the builder's statements on a backend.  A backend is a
    session on a server or a library: [Redis], [Postgres], [MySql],
    [Mssql], [Mongo], [Sqlite], [DuckDb], [Cassandra], [Oracle]; [Factory] chooses among them.
    Oracle's client library is loaded, and where it is missing installed, by [OracleClient] and
    [OracleInstaller].  [Syntax] asks an engine's parser where a text is wrong; [Explain] turns
    an engine's plan into one tree.

    ** Files

    - [Prelude]: strings as byte sequences, the standard functions the source calls
      ([find], [substr], [stoi], [getline], [stable_sort], [unique]), loops with fuel,
      comparators, and their lemmas and tactics.
    - [Effects], [Rows]: operations that may throw or not end, and the rows of a catalog query.
    - [Objects], [Sharing]: objects of a library, made, used and freed by calls, and the shared
      pointers by which a connection and its nodes own them, as the class [Backend].
    - [Types]: [include/dearsql/types.hpp], [query_result.hpp], [src/types.cpp].
    - [ConnectionInfo]: [connection_info.hpp], [src/connection_info.cpp].
    - [DdlUtils]: [ddl_utils.hpp].
    - [SqlBuilder]: [sql_builder.hpp], [src/sql_builder.cpp]; a dialect class is a value of
      the record [ISQLBuilder], each virtual method a field.
    - [Lexer], [Keywords], [Analyzer], [Completion]: [completion.hpp], [src/completion.cpp];
      [Quoting], [AnalyzerProps], [CompletionProps] hold their larger proofs, [Sources] what
      the columns of a relation, a CTE or a select list are.
    - [Database]: [database.hpp], [src/database.cpp]; an operation is a function of the log of
      the statements sent, with thrown errors as values.
    - [Syntax]: [syntax.hpp], [src/syntax.cpp].
    - [Doubles], [Regex], [Explain]: [explain.hpp], [src/explain.cpp], with binary64 numbers
      and the regular expressions' backtracking order; [ExplainSql], [ExplainProps],
      [SqlitePlan], [PlanErrors] hold the proofs.
    - [Redis]: [backends/redis_connection.hpp], [src/redis_connection.cpp]; [World] is the
      state a connection and its handles share, an operation that holds the mutex is one
      transition of it, and replies come through a queue as in hiredis.  [RedisProps] holds
      the proofs.
    - [Postgres]: [backends/postgres_connection.hpp] and, of [src/postgres_connection.cpp],
      results, the streamed answer ([run]), and the shared [search_path] ([executeIn]);
      [PostgresCatalog]: the catalog queries and what their rows become;
      [PostgresConnection]: [ConnectionImpl].  [PostgresProps] (streams), [PostgresPath] (the
      path) and [PostgresCatalogProps] hold the proofs.
    - [MySql]: [backends/mysql_connection.hpp] and, of [src/mysql_connection.cpp], connecting,
      results, batches and the draining of results; [MySqlCatalog]: catalog, data and table
      statements; [MySqlConnection]: [ConnectionImpl].  [MySqlProps] (the protocol, batches),
      [MySqlText] (statements read back), [MySqlCatalogProps] and [MySqlConnectionProps] hold
      the proofs.
    - [Mssql]: [backends/mssql_connection.hpp] and, of [src/mssql_connection.cpp], messages,
      connecting, batches and administration, with a number for each db-lib process;
      [MssqlCatalog]: queries, their rows, the schema handles; [MssqlConnection]:
      [ConnectionImpl].  [MssqlResults] (batches, administration), [MssqlProps] and
      [MssqlConnectionProps] (who owns which process) and [MssqlCatalogProps] hold the proofs.
    - [Mongo]: [src/mongodb_connection.cpp], whole: an operation is a function of the driver's
      calls so far; [Calendar] is the [gmtime] and [strftime] it uses; [MongoProps] holds the
      proofs.
    - [Sqlite]: [src/sqlite_connection.cpp], whole; [SqliteProps] (handles and statements),
      [SqliteScript] and [SqliteCatalog] hold the proofs.
    - [DuckDb]: [backends/duckdb_connection.hpp], [src/duckdb_connection.cpp], whole;
      [DuckDbProps] (objects) and [DuckDbText] (scripts and statements) hold the proofs.
    - [Cassandra], [CassandraCatalog]: [src/cassandra_connection.cpp]; [CassandraProps] (the
      driver's objects) and [CassandraColumns] hold the proofs.
    - [OracleInstaller]: [oracle_installer.hpp], [src/oracle_installer.cpp], whole;
      [OracleClient]: the context, the library path and the re-execution of
      [src/oracle_connection.cpp].  [Oracle]: its values, statements and sessions, with
      [FormatDouble] for the shortest decimals of a number; [OracleCatalog]: the catalog
      queries; [OracleConnection]: [ConnectionImpl] and the sessions of its handles.
      [OracleInstallProps] (what an installation leaves), [OracleClientProps] (the life of the
      context), [OracleProps] and [OracleConnectionProps] (who owns which session),
      [OracleResults] (statements) and [OracleSchema] (the schema of a session) hold the proofs.
    - [Factory]: [src/factory.cpp].
    - [Results]: the contract of an executed statement's results ([Reports]), its instances for
      the SQL backends, and the host of the interface that relies on it.

    ** What the theorems show

    - Text in, text out: tokens cover the text; statements are split where they end;
      quoting an identifier or a literal is read back as that name or value; a connection
      string reads back as its settings; a generated statement lexes to its own keywords and
      the names it was given; an EXPLAIN wraps one statement.
    - Structure: parenthesis groups nest; name lookup is lexical scoping; catalog lookup picks
      the best match; a plan's tree is the nesting of its lines or the forest of its parents;
      a table's columns, keys and indexes are exactly its own catalog rows, a collection's
      columns the fields of its sampled documents.
    - What is offered and returned: completion offers only what matches, in its order, and what
      has its place in the catalog or the statement: behind a qualifier its members only, the
      columns of relations in scope, and all relations that match; replaced ranges stay in the text and on one token; resolution is
      sound.
    - Results: behind every SQL backend each row has a cell for each column and a success keeps
      the row limit.  Scripts and batches of SQLite, DuckDB, MySQL and SQL Server, refusals,
      failures and cancels included, are reported as what the engine answered: a relation
      ([SqliteScript.scripted], [MySqlProps.answered], [MssqlResults.exchanged]) says what the
      answers to a text are, and a relation ([tells]) what a report must say of an answer.
    - Termination and bounds: the analyzer's loops and recursions end; row limits hold; a scan
      of Redis keys ends and returns the first keys; offsets stay in their text.
    - Sessions: the recorded Redis database and PostgreSQL [search_path] are the server's
      after any interleaving of operations, and each handle's commands run on its own, unless a
      text sent by hand has changed the session in a way that the code does not look for; the
      pipelined read of key details equals the one-at-a-time read; reading a streamed answer
      refines reading it whole; MySQL sessions are never spoken to out of order; no process of SQL Server's db-lib is used after it is
      closed, shared or left open; a MongoDB command sends the one call it asks for, and
      a handle has its connection's pool; what SQLite, DuckDB and the Cassandra driver hand out
      is freed once, never used after it, and kept as long as a node that needs it; an Oracle session has one owner and
      works in its handle's schema, a statement is executed once and released; row edits are guarded; statuses and errors are what the
      backend answered.
    - The Oracle client: an installation ends and leaves no download behind, a success has
      seen the library; a process installs it once between resets, replaces itself once at
      most, keeps the context that it creates, and remembers that none could be created.
    - Faults: theorems that state where the code does not do what it means to (a copy that
      never returns, a failed transaction that cannot be left, a [SELECT] typed by hand that
      goes unnoticed, unescaped literals, pages of keys that repeat, errors that MySQL's
      catalog calls swallow, administration statements of SQL Server that cannot fail).

    ** Conventions and bounds

    A [char] is a byte ([ascii]), [std::string] is [string], [size_t] is [nat]; [int] is [Z],
    with conversions from text range-checked at their width and arithmetic that stays far
    from the limits (lengths, counts, indexes) left exact.  Classes, [isspace] and case
    conversions are those of the "C" locale.  A [while] loop is a recursion on fuel: where the
    model fixes the fuel (the length of the text, the number of tokens plus two, the depth
    cap of derived columns) a theorem shows that more changes nothing; where the server
    decides how long a loop runs (SCAN, the results of a query) the fuel is an argument, no
    value is returned without enough of it, and theorems say when some fuel is enough
    ([RedisProps.scan_complete], [PostgresProps.stream_is_whole], [MySqlProps.execute_batch],
    [SqliteScript.sqlite_execute], [OracleResults.oracle_execute])
    or none is ([PostgresProps.copy_never_returns]).  Code outside the library is a parameter: the
    engines' parsers ([Parsers]), the JSON library ([JsonLib]), a backend behind the interface
    ([IDatabase]), hiredis and the Redis server ([Hiredis], with the documented behaviour of
    [SELECT] as the class [Server]), libpq and the PostgreSQL server ([Libpq], with that of
    [search_path] and of chunked rows as the classes [PathServer] and [ChunksAlike]), the MySQL client library and server ([Libmysql],
    with a catalog that stands still as the class [CatalogServer]), db-lib and SQL
    Server ([Dblib]), the MongoDB driver and server ([Mongo]) and its JSON conversion ([BsonLib]),
    SQLite ([Sqlite]), DuckDB ([DuckDb]), the Cassandra driver with its cluster ([Driver]),
    ODPI-C with the Oracle server ([Odpi], with what it documents of the current schema as the
    class [SchemaSwitch]), and the operating system under the Oracle installer ([Os], with
    [setenv] and [getenv] as the class [Environment]).  A parameter answers from everything
    the session sent before.

    ** Not modelled

    Timings; a cancel from another thread, but for the flag that SQL Server's loops look at; the handles that only pass a call on; reference
    counts where no object of a library depends on them.  A connection that is used by two
    threads at once is modelled by the order in which they take its mutex.  Undefined behaviour
    (an iterator past its vector, a null reply string) is outside the definitions, which say so
    where it can arise.  What the operating system's commands do to files ([unzip], [tar],
    [hdiutil]) is their answer only.  Left out are also the facades that forward to an
    implementation, tests, build files and vendored headers: they hold no logic of the library. *)

From Stdlib Require Export Ascii String.
From stdpp Require Export base list strings pretty gmap sorting.
From Stdlib Require Export Lia ZArith.

#[global] Open Scope nat_scope.

(** Strings are [String.string], a [char] is an [ascii] byte, [size_t] is [nat] and
    [int] is [Z].  [+:+] is stdpp's notation for string concatenation. *)

Declare Scope cpp_scope.
Delimit Scope cpp_scope with cpp.

Notation strlen := String.length.

(** ** Bytes *)

(** the value of a byte read as [unsigned char] *)
Definition code (c : ascii) : N := N_of_ascii c.

Definition between (lo hi : ascii) (c : ascii) : bool :=
  (code lo <=? code c)%N && (code c <=? code hi)%N.

(** the [<cctype>] classes in the "C" locale *)
Definition isupper (c : ascii) : bool := between "A" "Z" c.
Definition islower (c : ascii) : bool := between "a" "z" c.
Definition isalpha (c : ascii) : bool := isupper c || islower c.
Definition isdigit (c : ascii) : bool := between "0" "9" c.
Definition isalnum (c : ascii) : bool := isalpha c || isdigit c.
Definition isspace (c : ascii) : bool :=
  (c =? " ")%char || between "009" "013" c.
Definition high_byte (c : ascii) : bool := (128 <=? code c)%N.

Definition tolower (c : ascii) : ascii :=
  if isupper c then ascii_of_N (code c + 32) else c.
Definition toupper (c : ascii) : ascii :=
  if islower c then ascii_of_N (code c - 32) else c.

(** the double quote, the single quote and the line feed *)
Definition dquote : ascii := "034".
Definition squote : ascii := "039".
Definition newline : ascii := "010".

(** ** Strings as byte sequences *)

Definition str1 (c : ascii) : string := String c EmptyString.

Fixpoint smap (f : ascii -> ascii) (s : string) : string :=
  match s with
  | EmptyString => EmptyString
  | String c r => String (f c) (smap f r)
  end.

Fixpoint sall (p : ascii -> bool) (s : string) : bool :=
  match s with
  | EmptyString => true
  | String c r => p c && sall p r
  end.

(** [std::remove_if] of the bytes that do not satisfy [p] *)
Fixpoint sfilter (p : ascii -> bool) (s : string) : string :=
  match s with
  | EmptyString => EmptyString
  | String c r => if p c then String c (sfilter p r) else sfilter p r
  end.

Fixpoint sdrop (n : nat) (s : string) : string :=
  match n, s with
  | 0, _ => s
  | S n', String _ r => sdrop n' r
  | S _, EmptyString => EmptyString
  end.

Fixpoint stake (n : nat) (s : string) : string :=
  match n, s with
  | 0, _ => EmptyString
  | S n', String c r => String c (stake n' r)
  | S _, EmptyString => EmptyString
  end.

(** [s.substr(pos, len)], for [pos <= s.size()] *)
Definition substr (s : string) (pos len : nat) : string := stake len (sdrop pos s).

(** [s[i]]; every use in the sources guards [i < s.size()], or falls back on ['\0'] *)
Definition char_at (s : string) (i : nat) : ascii :=
  match sdrop i s with String c _ => c | EmptyString => "000"%char end.

Definition sempty (s : string) : bool :=
  match s with EmptyString => true | _ => false end.

Definition starts_with (p s : string) : bool := String.prefix p s.

(** first position at or after [k] whose suffix satisfies [p]; [s] is the suffix at [k] *)
Fixpoint index_from (p : string -> bool) (s : string) (k : nat) : option nat :=
  if p s then Some k
  else match s with
       | EmptyString => None
       | String _ r => index_from p r (S k)
       end.

Definition head_is (c : ascii) (s : string) : bool :=
  match s with String c' _ => (c' =? c)%char | EmptyString => false end.

(** [s.find(c, from)] and [s.find(pat, from)] for a non-empty [pat]; [None] is [npos] *)
Definition find_char (c : ascii) (s : string) (from : nat) : option nat :=
  index_from (head_is c) (sdrop from s) from.
Definition find_str (pat s : string) (from : nat) : option nat :=
  index_from (starts_with pat) (sdrop from s) from.

(** number of leading bytes that satisfy [p]: [while (k < n && p(s[k])) ++k] *)
Fixpoint span_len (p : ascii -> bool) (s : string) : nat :=
  match s with
  | EmptyString => 0
  | String c r => if p c then S (span_len p r) else 0
  end.

Definition scan_while (p : ascii -> bool) (s : string) (k : nat) : nat :=
  k + span_len p (sdrop k s).

Fixpoint srev_app (s acc : string) : string :=
  match s with EmptyString => acc | String c r => srev_app r (String c acc) end.
Definition srev (s : string) : string := srev_app s EmptyString.

(** strip from the right the bytes that satisfy [p] *)
Definition rstrip (p : ascii -> bool) (s : string) : string :=
  srev (let r := srev s in sdrop (span_len p r) r).
Definition lstrip (p : ascii -> bool) (s : string) : string := sdrop (span_len p s) s.

Definition ends_with (p s : string) : bool := String.prefix (srev p) (srev s).

(** separator joins *)
Fixpoint sjoin (sep : string) (l : list string) : string :=
  match l with
  | [] => EmptyString
  | [x] => x
  | x :: r => x +:+ sep +:+ sjoin sep r
  end.

Fixpoint sconcat (l : list string) : string :=
  match l with [] => EmptyString | x :: r => x +:+ sconcat r end.

(** doubles every occurrence of [q]: the escaping loop of every quoting routine *)
Fixpoint double_char (q : ascii) (s : string) : string :=
  match s with
  | EmptyString => EmptyString
  | String c r =>
      if (c =? q)%char then String q (String q (double_char q r))
      else String c (double_char q r)
  end.

(** the text that was doubled, up to a single [q] *)
Fixpoint undouble (q : ascii) (s : string) : string :=
  match s with
  | String c r =>
      if (c =? q)%char then
        match r with
        | String c' r' => if (c' =? q)%char then String c (undouble q r') else EmptyString
        | EmptyString => EmptyString
        end
      else String c (undouble q r)
  | EmptyString => EmptyString
  end.

(** ** String lemmas *)

Create HintDb str discriminated.

Lemma sapp_nil_l s : "" +:+ s = s.
Proof. done. Qed.
Lemma sapp_cons c a b : String c a +:+ b = String c (a +:+ b).
Proof. done. Qed.
Lemma sapp_nil_r s : s +:+ "" = s.
Proof. induction s as [|c s IH]; [done|]. by rewrite sapp_cons, IH. Qed.
Lemma sapp_assoc a b c : (a +:+ b) +:+ c = a +:+ b +:+ c.
Proof. induction a as [|x a IH]; [done|]. by rewrite !sapp_cons, IH. Qed.
Lemma slen_app a b : strlen (a +:+ b) = strlen a + strlen b.
Proof. induction a as [|x a IH]; [done|]. rewrite sapp_cons. simpl. by rewrite IH. Qed.
Lemma str1_app c s : str1 c +:+ s = String c s.
Proof. done. Qed.

Lemma sdrop_0 s : sdrop 0 s = s.
Proof. by destruct s. Qed.
Lemma sdrop_nil n : sdrop n "" = "".
Proof. by destruct n. Qed.
Lemma stake_nil n : stake n "" = "".
Proof. by destruct n. Qed.
Lemma slen_srev_app s acc : strlen (srev_app s acc) = strlen s + strlen acc.
Proof. revert acc. induction s as [|c s IH]; intros acc; simpl; [done|]. rewrite IH. simpl. lia. Qed.
Lemma slen_srev s : strlen (srev s) = strlen s.
Proof. unfold srev. rewrite slen_srev_app. simpl. lia. Qed.
Lemma slen_sdrop n s : strlen (sdrop n s) = strlen s - n.
Proof. revert n. induction s as [|c s IH]; intros [|n]; simpl; auto with lia. Qed.
Lemma slen_stake n s : strlen (stake n s) = n `min` strlen s.
Proof. revert n. induction s as [|c s IH]; intros [|n]; simpl; auto with lia. Qed.
Lemma sdrop_sdrop a b s : sdrop a (sdrop b s) = sdrop (b + a) s.
Proof. revert b. induction s as [|c s IH]; intros [|b]; simpl; rewrite ?sdrop_nil; auto. Qed.
Lemma stake_sdrop n s : stake n s +:+ sdrop n s = s.
Proof.
  revert n. induction s as [|c s IH]; intros [|n]; simpl; try done.
  by rewrite sapp_cons, IH.
Qed.
Lemma sdrop_app a b : sdrop (strlen a) (a +:+ b) = b.
Proof. induction a as [|x a IH]; [by destruct b|]. rewrite sapp_cons. apply IH. Qed.
Lemma sdrop_app_plus a b k : sdrop (strlen a + k) (a +:+ b) = sdrop k b.
Proof. by rewrite <-sdrop_sdrop, sdrop_app. Qed.
Lemma stake_app a b : stake (strlen a) (a +:+ b) = a.
Proof. induction a as [|x a IH]; [by destruct b|]. rewrite sapp_cons. simpl. by rewrite IH. Qed.
Lemma sdrop_all s n : strlen s <= n → sdrop n s = "".
Proof. revert n. induction s as [|c s IH]; intros [|n]; simpl; intros; auto with lia. Qed.
Lemma stake_all s n : strlen s <= n → stake n s = s.
Proof.
  revert n. induction s as [|c s IH]; intros [|n]; simpl; intros; try done; [lia|].
  f_equal. apply IH. lia.
Qed.
Lemma sdrop_S_char s i :
  i < strlen s → sdrop i s = String (char_at s i) (sdrop (S i) s).
Proof.
  unfold char_at. revert i. induction s as [|c s IH]; intros [|i]; simpl; intros Hi; try lia.
  - by destruct s.
  - apply IH. lia.
Qed.
Lemma char_at_app a c b : char_at (a +:+ String c b) (strlen a) = c.
Proof. unfold char_at. by rewrite sdrop_app. Qed.

#[export] Hint Rewrite sapp_nil_l sapp_nil_r sapp_cons sapp_assoc str1_app slen_app sdrop_0
  sdrop_nil stake_nil slen_sdrop slen_stake : str.

Ltac str_simpl := autorewrite with str in *.

Lemma char_eqb_refl c : (c =? c)%char = true.
Proof. apply Ascii.eqb_refl. Qed.
Lemma char_eqb_true a b : (a =? b)%char = true ↔ a = b.
Proof. apply Ascii.eqb_eq. Qed.
Lemma char_eqb_false a b : (a =? b)%char = false ↔ a ≠ b.
Proof. apply Ascii.eqb_neq. Qed.
Lemma seqb_true a b : (a =? b)%string = true ↔ a = b.
Proof. apply String.eqb_eq. Qed.

(** a boolean fact about every byte, by evaluation on the 256 of them *)
Fixpoint all_bytes (n : nat) (p : ascii → bool) : bool :=
  match n with 0 => true | S m => p (ascii_of_nat m) && all_bytes m p end.

Lemma all_bytes_spec p : all_bytes 256 p = true → ∀ c, p c = true.
Proof.
  assert (H : ∀ n, all_bytes n p = true → ∀ k, k < n → p (ascii_of_nat k) = true).
  { induction n as [|n IH]; simpl; intros Hall k Hk; [lia|].
    apply andb_true_iff in Hall as [Hp Hn]. destruct (decide (k = n)) as [->|]; [done|]. apply IH; [done|lia]. }
  intros Hall c. rewrite <-(ascii_nat_embedding c). apply (H 256); [done|].
  apply nat_ascii_bounded.
Qed.

(** [by_bytes c]: prove a boolean equation about the byte [c] by trying all of them *)
Ltac by_bytes c :=
  lazymatch goal with
  | |- ?t = true =>
      let f := eval pattern c in t in
      lazymatch f with
      | ?g _ => apply (all_bytes_spec g); vm_compute; reflexivity
      end
  end.

Lemma sall_app p a b : sall p (a +:+ b) = sall p a && sall p b.
Proof. induction a as [|c a IH]; [done|]. rewrite sapp_cons. simpl. by rewrite IH, andb_assoc. Qed.

Lemma sall_impl (p q : ascii → bool) s :
  (∀ c, p c = true → q c = true) → sall p s = true → sall q s = true.
Proof.
  intros Hpq. induction s as [|c s IH]; simpl; [done|].
  rewrite !andb_true_iff. intros [??]. auto.
Qed.

Lemma span_len_app p a b :
  sall p a = true → span_len p (a +:+ b) = strlen a + span_len p b.
Proof.
  induction a as [|c a IH]; [done|]. rewrite sapp_cons. simpl.
  intros [-> ?]%andb_true_iff. simpl. by rewrite IH.
Qed.

Lemma span_len_le p s : span_len p s <= strlen s.
Proof. induction s as [|c s IH]; simpl; [lia|]. destruct (p c); lia. Qed.

Lemma scan_while_bounds p s k :
  k <= strlen s → k <= scan_while p s k <= strlen s.
Proof.
  intros Hk. unfold scan_while. pose proof (span_len_le p (sdrop k s)) as H.
  rewrite slen_sdrop in H. lia.
Qed.

Lemma index_from_bounds p s k i :
  index_from p s k = Some i → k <= i <= k + strlen s ∧ p (sdrop (i - k) s) = true.
Proof.
  revert k. induction s as [|c s IH]; intros k; simpl.
  - destruct (p "") eqn:E; [|done]. intros [= <-]. rewrite Nat.sub_diag. simpl. split; [lia|done].
  - destruct (p (String c s)) eqn:E.
    + intros [= <-]. rewrite Nat.sub_diag. split; [lia|done].
    + intros [Hb Hp]%IH. split; [lia|]. replace (i - k) with (S (i - S k)) by lia. done.
Qed.

Lemma index_from_first p s k i j :
  index_from p s k = Some i → k <= j < i → p (sdrop (j - k) s) = false.
Proof.
  revert k. induction s as [|c s IH]; intros k; simpl.
  - destruct (p ""); [|done]. intros [= <-]. lia.
  - destruct (p (String c s)) eqn:E; [intros [= <-]; lia|].
    intros Hi Hj. destruct (decide (j = k)) as [->|]; [by rewrite Nat.sub_diag|].
    replace (j - k) with (S (j - S k)) by lia. simpl. apply IH; [done|lia].
Qed.

Lemma index_from_none p s k j :
  index_from p s k = None → j <= strlen s → p (sdrop j s) = false.
Proof.
  revert k j. induction s as [|c s IH]; intros k j; simpl.
  - destruct (p "") eqn:E; [done|]. by destruct j.
  - destruct (p (String c s)) eqn:E; [done|]. destruct j as [|j]; [done|].
    intros. simpl. apply (IH (S k)); [done|lia].
Qed.

(** ** Decimal numerals *)

Lemma pretty_N_char_digit n : (n < 10)%N → isdigit (pretty_N_char n) = true.
Proof.
  intros Hn.
  assert (n = 0 ∨ n = 1 ∨ n = 2 ∨ n = 3 ∨ n = 4 ∨ n = 5 ∨ n = 6 ∨ n = 7 ∨ n = 8 ∨ n = 9)%N
    as Hc by lia.
  by repeat destruct Hc as [->|Hc]; [..|subst].
Qed.

Lemma pretty_N_go_digits n s :
  sall isdigit s = true → sall isdigit (pretty_N_go n s) = true.
Proof.
  revert s. induction n as [n IH] using (well_founded_induction N.lt_wf_0). intros s Hs.
  destruct (decide (0 < n)%N).
  - rewrite pretty_N_go_step by done. apply IH; [apply N.div_lt; lia|].
    simpl. rewrite Hs, andb_true_r. apply pretty_N_char_digit. by apply N.mod_lt.
  - replace n with 0%N by lia. by rewrite pretty_N_go_0.
Qed.

Lemma pretty_N_digits (n : N) : sall isdigit (pretty n) = true.
Proof.
  unfold pretty, pretty_N. case_decide; [done|]. by apply pretty_N_go_digits.
Qed.

(** ** Stripping both ends *)

Lemma span_len_split p s : ∃ a, s = a +:+ sdrop (span_len p s) s ∧ sall p a = true.
Proof.
  induction s as [|c s IH]; [by exists ""|]. simpl. destruct (p c) eqn:E; [|by exists ""].
  destruct IH as (a & Hs & Ha). exists (String c a). split; [|by simpl; rewrite E].
  simpl. rewrite sapp_cons. by f_equal.
Qed.

Lemma span_len_stops p s : match sdrop (span_len p s) s with "" => True | String c _ => p c = false end.
Proof. induction s as [|c s IH]; simpl; [done|]. by destruct (p c) eqn:E. Qed.

Lemma srev_app_app a b acc : srev_app (a +:+ b) acc = srev_app b (srev_app a acc).
Proof. revert acc. induction a as [|c a IH]; intros acc; [done|]. apply IH. Qed.
Lemma srev_app_acc s acc : srev_app s acc = srev_app s "" +:+ acc.
Proof.
  revert acc. induction s as [|c s IH]; intros acc; [done|]. simpl.
  rewrite (IH (String c acc)), (IH (String c "")), sapp_assoc. done.
Qed.
Lemma srev_concat a b : srev (a +:+ b) = srev b +:+ srev a.
Proof. unfold srev. rewrite srev_app_app, srev_app_acc. done. Qed.
Lemma srev_involutive s : srev (srev s) = s.
Proof.
  induction s as [|c s IH]; [done|]. change (String c s) with (str1 c +:+ s).
  by rewrite srev_concat, srev_concat, IH.
Qed.
Lemma sall_srev p s : sall p (srev s) = sall p s.
Proof.
  induction s as [|c s IH]; [done|]. change (String c s) with (str1 c +:+ s).
  rewrite srev_concat, !sall_app, IH. apply andb_comm.
Qed.

Lemma rstrip_spec p s :
  ∃ b, s = rstrip p s +:+ b ∧ sall p b = true ∧
       match srev (rstrip p s) with "" => True | String c _ => p c = false end.
Proof.
  unfold rstrip. destruct (span_len_split p (srev s)) as (a & Ha & Hp).
  exists (srev a). rewrite srev_involutive. split_and!.
  - rewrite <-srev_concat, <-Ha. by rewrite srev_involutive.
  - by rewrite sall_srev.
  - apply span_len_stops.
Qed.

(** the bytes of a printed [int]: digits, or a minus sign *)
Definition num_char (c : ascii) : bool := isdigit c || (c =? "-")%char.

Lemma pretty_Z_chars (z : Z) : sall num_char (pretty z) = true.
Proof.
  assert (∀ n : N, sall num_char (pretty n) = true) as H.
  { intros n. eapply sall_impl, pretty_N_digits. intros c. unfold num_char. by intros ->. }
  destruct z as [|p|p]; [done|apply (H (Npos p))|].
  unfold pretty, pretty_Z. simpl. apply (H (Npos p)).
Qed.

(** [if (c) s += k;] appends [k] or nothing *)
Lemma sapp_if (c : bool) x k : (if c then x +:+ k else x) = x +:+ (if c then k else "").
Proof. destruct c; [done|]. by rewrite sapp_nil_r. Qed.

(** ** [std::stoi] and [std::stol]

    [None] is the exception: [invalid_argument] when there is no digit, [out_of_range] when
    the value does not fit. *)

Fixpoint digits_value (s : string) (acc : Z) : Z :=
  match s with
  | String c r => if isdigit c then digits_value r (10 * acc + Z.of_N (code c - 48)) else acc
  | EmptyString => acc
  end.

Definition strtol_digits (s : string) : option Z :=
  match s with
  | String c _ => if isdigit c then Some (digits_value s 0) else None
  | EmptyString => None
  end.

Definition strtol (s : string) : option Z :=
  match lstrip isspace s with
  | String "-" r => Z.opp <$> strtol_digits r
  | String "+" r => strtol_digits r
  | r => strtol_digits r
  end.

(** [std::atoi] and [std::atoll] of a value that fits *)
Definition atoi (s : string) : Z := default 0%Z (strtol s).

Definition in_width (w : Z) (z : Z) : bool := ((- 2 ^ (w - 1) <=? z) && (z <? 2 ^ (w - 1)))%Z.

Definition sto (w : Z) (s : string) : option Z :=
  match strtol s with
  | Some z => if in_width w z then Some z else None
  | None => None
  end.

Definition stoi (s : string) : option Z := sto 32 s.
Definition stol (s : string) : option Z := sto 64 s.

(** [std::stoull]: a sign is allowed, and a negative number wraps around *)
Definition stoull (s : string) : option Z :=
  match strtol s with
  | Some z => if (Z.abs z <? 2 ^ 64)%Z then Some (z mod 2 ^ 64)%Z else None
  | None => None
  end.

(** [static_cast<int>] *)
Definition to_int (z : Z) : Z := ((z + 2 ^ 31) `mod` 2 ^ 32 - 2 ^ 31)%Z.

(** the text up to the first NUL: what a [const char*] carries *)
Fixpoint c_str (s : string) : string :=
  match s with
  | EmptyString => EmptyString
  | String c r => if (c =? "000")%char then EmptyString else String c (c_str r)
  end.

(** [s.find(pat) != npos] *)
Definition contains (pat s : string) : bool := bool_decide (is_Some (find_str pat s 0)).

(** ** [std::getline]

    The pieces read up to a delimiter: nothing after a final one. *)

Fixpoint getlines_from (delim : ascii) (s acc : string) : list string :=
  match s with
  | EmptyString => if sempty acc then [] else [srev acc]
  | String c s =>
      if (c =? delim)%char then srev acc :: getlines_from delim s EmptyString
      else getlines_from delim s (String c acc)
  end.
Definition getlines (delim : ascii) (s : string) : list string := getlines_from delim s EmptyString.

(** a line is no longer than the text *)
Lemma getlines_short delim s acc l :
  l ∈ getlines_from delim s acc → strlen l <= strlen acc + strlen s.
Proof.
  revert acc. induction s as [|c s IH]; intros acc; simpl.
  - destruct (sempty acc); [by intros ?%elem_of_nil|]. intros ->%list_elem_of_singleton.
    rewrite slen_srev. lia.
  - destruct (c =? delim)%char.
    + intros [->|H]%elem_of_cons; [rewrite slen_srev; lia|]. apply IH in H. simpl in H. lia.
    + intros H. apply IH in H. simpl in H. lia.
Qed.

(** [for (x : l) out += (out.empty() ? "" : sep) + x;] *)
Definition join_acc (sep : string) (l : list string) : string :=
  foldl (λ out x, out +:+ ((if sempty out then "" else sep) +:+ x)) "" l.

(** [for (i ...) { if (i > 0) out += sep; out += x; }] *)
Fixpoint join_loop (sep : string) (i : nat) (l : list string) (out : string) : string :=
  match l with
  | [] => out
  | x :: r =>
      let out := if decide (0 < i) then out +:+ sep else out in
      join_loop sep (S i) r (out +:+ x)
  end.

Lemma join_loop_pos sep i l out :
  0 < i → join_loop sep i l out = out +:+ sconcat (map (λ x, sep +:+ x) l).
Proof.
  revert i out. induction l as [|x l IH]; intros i out Hi; simpl; [by rewrite sapp_nil_r|].
  rewrite decide_True by done. rewrite IH by lia. by rewrite !sapp_assoc.
Qed.

Lemma sjoin_cons sep x l : sjoin sep (x :: l) = x +:+ sconcat (map (λ x, sep +:+ x) l).
Proof.
  revert x. induction l as [|y l IH]; intros x; [simpl; by rewrite sapp_nil_r|].
  change (sjoin sep (x :: y :: l)) with (x +:+ sep +:+ sjoin sep (y :: l)).
  rewrite IH. simpl. by rewrite !sapp_assoc.
Qed.

Lemma join_loop_sjoin sep l : join_loop sep 0 l "" = sjoin sep l.
Proof.
  destruct l as [|x l]; [done|]. simpl join_loop.
  rewrite join_loop_pos by lia. by rewrite sjoin_cons.
Qed.

Lemma join_acc_sjoin sep l :
  Forall (λ x, sempty x = false) l → join_acc sep l = sjoin sep l.
Proof.
  intros Hl. unfold join_acc. destruct Hl as [|x l Hx Hl]; [done|]. rewrite sjoin_cons. simpl foldl.
  assert (∀ out, sempty out = false →
    foldl (λ out x, out +:+ ((if sempty out then "" else sep) +:+ x)) out l =
    out +:+ sconcat (map (λ x, sep +:+ x) l)) as H.
  { clear Hx x. induction Hl as [|y l Hy Hl IH]; intros out Ho; simpl; [by rewrite sapp_nil_r|].
    rewrite Ho, IH; [by rewrite !sapp_assoc|]. by destruct out. }
  rewrite H; [done|]. by destruct x.
Qed.

Lemma filter_none {A} (P : A → Prop) `{∀ x, Decision (P x)} (l : list A) :
  (∀ x, x ∈ l → ¬ P x) → filter P l = [].
Proof.
  induction l as [|x l IH]; intros Hl; [done|].
  rewrite filter_cons_False by (apply Hl; set_solver). apply IH. set_solver.
Qed.

Lemma filter_all {A} (P : A → Prop) `{∀ x, Decision (P x)} (l : list A) :
  (∀ x, x ∈ l → P x) → filter P l = l.
Proof.
  induction l as [|x l IH]; intros Hl; [done|].
  rewrite filter_cons_True by (apply Hl; set_solver). f_equal. apply IH. set_solver.
Qed.

Lemma undouble_double q s : undouble q (double_char q s +:+ str1 q) = s.
Proof.
  induction s as [|c s IH]; simpl; [by rewrite char_eqb_refl|].
  destruct (c =? q)%char eqn:E.
  - apply char_eqb_true in E as ->. simpl. by rewrite char_eqb_refl, IH.
  - simpl. by rewrite E, IH.
Qed.

Lemma starts_with_split p s : starts_with p s = true → s = p +:+ sdrop (strlen p) s.
Proof.
  unfold starts_with. revert s. induction p as [|c p IH]; intros s; simpl.
  - done.
  - destruct s as [|c' s]; [done|]. simpl. destruct (ascii_dec c c') as [->|]; [|done].
    intros H.
    rewrite sapp_cons. f_equal. by apply IH.
Qed.

Lemma starts_with_app p s : starts_with p (p +:+ s) = true.
Proof.
  unfold starts_with. induction p as [|c p IH]; [by destruct s|]. rewrite sapp_cons. simpl.
  by destruct (ascii_dec c c).
Qed.

Lemma starts_with_len p s : starts_with p s = true → strlen p <= strlen s.
Proof. intros H%starts_with_split. rewrite H, slen_app. lia. Qed.

Lemma find_str_bounds pat s from e :
  find_str pat s from = Some e → from <= strlen s →
  from <= e ∧ e + strlen pat <= strlen s.
Proof.
  unfold find_str. intros [Hb Hp]%index_from_bounds Hf.
  rewrite sdrop_sdrop in Hp. replace (from + (e - from)) with e in Hp by lia.
  apply starts_with_len in Hp. rewrite slen_sdrop in *. lia.
Qed.

Lemma find_char_bounds c s from e :
  find_char c s from = Some e → from <= strlen s →
  from <= e ∧ e < strlen s ∧ char_at s e = c.
Proof.
  unfold find_char. intros [Hb Hp]%index_from_bounds Hf.
  rewrite sdrop_sdrop in Hp. replace (from + (e - from)) with e in Hp by lia.
  unfold char_at. destruct (sdrop e s) as [|c' r] eqn:E; [done|]. simpl in Hp.
  apply char_eqb_true in Hp as ->. repeat split; [lia|].
  pose proof (slen_sdrop e s) as H. rewrite E in H. simpl in H. lia.
Qed.

Lemma substr_step s p k :
  p < strlen s → substr s p (S k) = String (char_at s p) (substr s (S p) k).
Proof. intros Hp. unfold substr. by rewrite (sdrop_S_char s p Hp). Qed.

Lemma sall_substr f s p len :
  (∀ k, p <= k < p + len → k < strlen s → f (char_at s k) = true) →
  sall f (substr s p len) = true.
Proof.
  revert p. induction len as [|len IH]; intros p H; [done|].
  destruct (decide (p < strlen s)) as [Hp|Hp].
  - rewrite substr_step by done. simpl. rewrite H by lia. apply IH. intros. apply H; lia.
  - unfold substr. by rewrite sdrop_all by lia.
Qed.

(** ** [std::stable_sort] and [std::unique] *)

Section stable_sort.
Context {A : Type} (lt : A → A → bool).

Fixpoint sinsert (x : A) (l : list A) : list A :=
  match l with
  | [] => [x]
  | y :: r => if lt y x then y :: sinsert x r else x :: l
  end.

(** the sorted permutation that keeps equivalent elements in their order: the result
    [std::stable_sort] specifies, and one that [std::sort] may give *)
Definition stable_sort (l : list A) : list A := foldr sinsert [] l.

Lemma sinsert_perm x l : sinsert x l ≡ₚ x :: l.
Proof.
  induction l as [|y l IH]; simpl; [done|]. destruct (lt y x); [|done].
  rewrite IH. apply Permutation_swap.
Qed.

Lemma stable_sort_perm l : stable_sort l ≡ₚ l.
Proof. induction l as [|x l IH]; simpl; [done|]. by rewrite sinsert_perm, IH. Qed.

Lemma elem_of_stable_sort x l : x ∈ stable_sort l ↔ x ∈ l.
Proof. by rewrite stable_sort_perm. Qed.

Lemma sinsert_filter (P : A → Prop) `{∀ x, Decision (P x)} x l :
  (∀ a c, P a → P c → lt a c = false) →
  filter P (sinsert x l) = filter P (x :: l).
Proof.
  intros HP. induction l as [|y l IH]; simpl; [done|]. destruct (lt y x) eqn:E; [|done].
  rewrite filter_cons, IH, !filter_cons.
  destruct (decide (P y)) as [Hy|], (decide (P x)) as [Hx|]; try done.
  by rewrite (HP y x Hy Hx) in E.
Qed.

(** equivalent elements keep their order *)
Lemma stable_sort_filter (P : A → Prop) `{∀ x, Decision (P x)} l :
  (∀ a c, P a → P c → lt a c = false) → filter P (stable_sort l) = filter P l.
Proof.
  intros HP. induction l as [|x l IH]; simpl; [done|].
  rewrite sinsert_filter by done. rewrite !filter_cons, IH. done.
Qed.

(** [lt] is a strict weak order: what the standard requires of a comparator *)
Class StrictWeakOrder : Prop := {
  swo_asym : ∀ a c, lt a c = true → lt c a = false;
  swo_ntrans : ∀ a c e, lt c a = false → lt e c = false → lt e a = false
}.

Definition not_after (a c : A) : Prop := lt c a = false.

Lemma sinsert_sorted `{!StrictWeakOrder} x l :
  StronglySorted not_after l → StronglySorted not_after (sinsert x l).
Proof.
  induction 1 as [|y l Hl IH Hy]; simpl; [repeat constructor|].
  destruct (lt y x) eqn:E.
  - constructor; [done|]. rewrite sinsert_perm. constructor; [|done].
    by apply swo_asym.
  - constructor; [by constructor|]. constructor; [done|].
    eapply Forall_impl; [done|]. intros z Hz. by eapply swo_ntrans.
Qed.

Lemma stable_sort_sorted `{!StrictWeakOrder} l : StronglySorted not_after (stable_sort l).
Proof. induction l as [|x l IH]; simpl; [constructor|]. by apply sinsert_sorted. Qed.
End stable_sort.

Section unique.
Context {A : Type} (eq : A → A → bool).

(** [std::unique]: drops an element equal to the last one kept *)
Fixpoint unique_from (last : A) (l : list A) : list A :=
  match l with
  | [] => []
  | x :: r => if eq last x then unique_from last r else x :: unique_from x r
  end.
Definition unique (l : list A) : list A :=
  match l with [] => [] | x :: r => x :: unique_from x r end.

Lemma unique_from_sublist last l : unique_from last l `sublist_of` l.
Proof.
  revert last. induction l as [|x l IH]; intros last; simpl; [done|].
  destruct (eq last x); [by constructor|]. by constructor.
Qed.
Lemma unique_sublist l : unique l `sublist_of` l.
Proof. destruct l; simpl; [done|]. constructor. apply unique_from_sublist. Qed.
End unique.

(** membership in a word table *)
Definition inWords (words : list string) (w : string) : bool := existsb (String.eqb w) words.

Lemma inWords_elem words w : inWords words w = true ↔ w ∈ words.
Proof.
  unfold inWords. rewrite existsb_exists. split.
  - intros (x & Hx & ->%String.eqb_eq). by apply list_elem_of_In.
  - intros H. exists w. split; [by apply list_elem_of_In|apply String.eqb_refl].
Qed.

(** ** Loops

    [while] loops with [break]: a step either leaves the loop or goes on with a new state;
    the fuel bounds the iterations, and [iter_loop_ends] shows when it is never what stops. *)

Inductive loop (S : Type) := Break (s : S) | Continue (s : S).
Arguments Break {S} _.
Arguments Continue {S} _.

Fixpoint iter_loop {S : Type} (fuel : nat) (step : S → loop S) (s : S) : S :=
  match fuel with
  | 0 => s
  | Datatypes.S fuel =>
      match step s with Break s' => s' | Continue s' => iter_loop fuel step s' end
  end.

(** an invariant with a measure: the loop ends by [Break], from a state where [I] holds *)
Lemma iter_loop_ends {S} (I : S → Prop) (m : S → nat) (step : S → loop S) fuel s :
  I s → m s < fuel →
  (∀ s s', I s → step s = Continue s' → I s' ∧ m s' < m s) →
  ∃ s0, I s0 ∧ step s0 = Break (iter_loop fuel step s).
Proof.
  intros HI Hm Hstep. revert s HI Hm. induction fuel as [|fuel IH]; intros s HI Hm; [lia|].
  simpl. destruct (step s) as [s'|s'] eqn:E; [by exists s|].
  destruct (Hstep s s' HI E) as [HI' Hm']. apply IH; [done|lia].
Qed.

(** under the same measure, more fuel changes nothing *)
Lemma iter_loop_more {S} (I : S → Prop) (m : S → nat) (step : S → loop S) fuel fuel' s :
  I s → m s < fuel → m s < fuel' →
  (∀ s s', I s → step s = Continue s' → I s' ∧ m s' < m s) →
  iter_loop fuel' step s = iter_loop fuel step s.
Proof.
  intros HI Hm Hm' Hstep. revert fuel' s HI Hm Hm'.
  induction fuel as [|fuel IH]; intros [|fuel'] s HI Hm Hm'; [lia..|].
  simpl. destruct (step s) as [s'|s'] eqn:E; [done|].
  destruct (Hstep s s' HI E) as [HI' ?]. apply IH; [done|lia..].
Qed.

(** what every iteration and the exit preserve holds at the end *)
Lemma iter_loop_inv {S} (I : S → Prop) (step : S → loop S) fuel s :
  I s →
  (∀ s, I s → match step s with Break s' => I s' | Continue s' => I s' end) →
  I (iter_loop fuel step s).
Proof.
  intros HI Hstep. revert s HI. induction fuel as [|fuel IH]; intros s HI; simpl; [done|].
  pose proof (Hstep s HI) as H. destruct (step s); auto.
Qed.

(** [l\[i\]] for an [int] index; [None] outside the vector *)
Definition zget {A} (l : list A) (i : Z) : option A :=
  if (i <? 0)%Z then None else l !! Z.to_nat i.

Lemma zget_Some {A} (l : list A) i x : zget l i = Some x ↔ (0 <= i)%Z ∧ l !! Z.to_nat i = Some x.
Proof. unfold zget. destruct (Z.ltb_spec i 0); naive_solver lia. Qed.

Lemma zget_lt {A} (l : list A) i x : zget l i = Some x → (0 <= i < Z.of_nat (length l))%Z.
Proof. intros [H ?%lookup_lt_Some]%zget_Some. lia. Qed.

Lemma zget_nat {A} (l : list A) (i : nat) : zget l (Z.of_nat i) = l !! i.
Proof. unfold zget. destruct (Z.ltb_spec (Z.of_nat i) 0); [lia|]. by rewrite Nat2Z.id. Qed.

(** ** Picking a best element

    [for (x : l) if (p(x) && rank(x) > bestRank) { best = x; bestRank = rank(x); }]: the
    first element of the highest rank. *)

Section pick.
Context {A : Type} (p : A → bool) (rank : A → Z).

Definition pick_step (st : option A * Z) (x : A) : option A * Z :=
  if p x && (snd st <? rank x)%Z then (Some x, rank x) else st.

(** [x] is the first of the best elements of [l] *)
Definition first_best (l : list A) (x : A) : Prop :=
  p x = true ∧ (∀ y, y ∈ l → p y = true → (rank y <= rank x)%Z) ∧
  ∃ l1 l2, l = l1 ++ x :: l2 ∧ ∀ y, y ∈ l1 → p y = true → (rank y < rank x)%Z.

Lemma pick_spec l :
  (∀ x, (0 <= rank x)%Z) →
  match foldl pick_step (None, (-1)%Z) l with
  | (Some x, k) => k = rank x ∧ first_best l x
  | (None, k) => k = (-1)%Z ∧ ∀ x, x ∈ l → p x = false
  end.
Proof.
  intros Hr. induction l as [|z l IH] using rev_ind; [split; [done|by intros x ?%not_elem_of_nil]|].
  rewrite foldl_app. simpl. destruct (foldl pick_step _ l) as [[x|] k]; unfold pick_step; simpl.
  - destruct IH as (-> & Hp & Hmax & l1 & l2 & -> & Hlt).
    destruct (p z) eqn:Hz, (Z.ltb_spec (rank x) (rank z)); simpl; (split; [done|]).
    { repeat split; [done| |exists (l1 ++ x :: l2), []; split; [done|]].
      - intros y [Hy| ->%list_elem_of_singleton]%elem_of_app Hpy; [|lia]. specialize (Hmax y Hy Hpy). lia.
      - intros y Hy Hpy. specialize (Hmax y Hy Hpy). lia. }
    all: repeat split; [done| |exists l1, (l2 ++ [z]); split; [by rewrite <-app_assoc|done]];
      intros y [Hy| ->%list_elem_of_singleton]%elem_of_app Hpy; [by apply Hmax|congruence || lia].
  - destruct IH as [-> Hno]. destruct (p z) eqn:Hz; simpl.
    + pose proof (Hr z). destruct (Z.ltb_spec (-1) (rank z)); [|lia]. split; [done|].
      repeat split; [done| |exists l, []; split; [done|]].
      * intros y [Hy| ->%list_elem_of_singleton]%elem_of_app Hpy; [|lia]. by rewrite Hno in Hpy.
      * intros y Hy Hpy. by rewrite Hno in Hpy.
    + split; [done|]. intros x [Hx| ->%list_elem_of_singleton]%elem_of_app; [by apply Hno|done].
Qed.
End pick.

(** sorting by a decreasing integer key *)
#[export] Instance key_order {A} (key : A → Z) :
  StrictWeakOrder (λ x y, (key y <? key x)%Z).
Proof. split; intros *; rewrite ?Z.ltb_lt, ?Z.ltb_ge; lia. Qed.

(** ** Three-way comparators

    Lexicographic comparators such as the ones given to [std::sort] are strict weak orders
    when each of their parts is. *)

Class Comparator {A} (compare3 : A → A → comparison) : Prop := {
  three_way_opp : ∀ x y, compare3 y x = CompOpp (compare3 x y);
  three_way_trans : ∀ x y z, compare3 x y = Lt → compare3 y z = Lt → compare3 x z = Lt;
  three_way_subst : ∀ x y z, compare3 x y = Eq → compare3 x z = compare3 y z
}.

Lemma three_way_lt_eq {A} (compare3 : A → A → comparison) `{!Comparator compare3} x y z :
  compare3 x y = Lt → compare3 y z = Eq → compare3 x z = Lt.
Proof. intros H1 H2. by rewrite (three_way_opp z x), <-(three_way_subst y z x H2), (three_way_opp x y), H1. Qed.

Definition is_lt (c : comparison) : bool := match c with Lt => true | _ => false end.

Definition lex {A} (c1 c2 : A → A → comparison) (x y : A) : comparison :=
  match c1 x y with Eq => c2 x y | c => c end.

Section comparators.
Context {A B : Type}.

#[export] Instance comparator_order (compare3 : A → A → comparison) :
  Comparator compare3 → StrictWeakOrder (λ x y, is_lt (compare3 x y)).
Proof.
  intros H. split.
  - intros x y. rewrite (three_way_opp x y). by destruct (compare3 x y).
  - intros x y z Hyx Hzy. destruct (compare3 z x) eqn:E; [done| |done].
    destruct (compare3 z y) eqn:Ezy; [|done|].
    + by rewrite <-(three_way_subst z y x Ezy), E in Hyx.
    + rewrite (three_way_trans y z x) in Hyx; [done| |done]. by rewrite (three_way_opp z y), Ezy.
Qed.

#[export] Instance lex_comparator (c1 c2 : A → A → comparison) :
  Comparator c1 → Comparator c2 → Comparator (lex c1 c2).
Proof.
  intros H1 H2. unfold lex. split.
  - intros x y. rewrite (three_way_opp x y). destruct (c1 x y); [apply three_way_opp|done..].
  - intros x y z. destruct (c1 x y) eqn:E1; [|intros _|done].
    + rewrite (three_way_subst x y z E1). destruct (c1 y z); [|done..]. apply three_way_trans.
    + destruct (c1 y z) eqn:E2; [|by rewrite (three_way_trans x y z E1 E2)|done].
      by rewrite (three_way_lt_eq _ x y z E1 E2).
  - intros x y z. destruct (c1 x y) eqn:E1; [|done..].
    rewrite (three_way_subst x y z E1). destruct (c1 y z); [|done..]. apply three_way_subst.
Qed.

#[export] Instance on_key_comparator (f : A → B) (compare3 : B → B → comparison) :
  Comparator compare3 → Comparator (λ x y, compare3 (f x) (f y)).
Proof. intros [H1 H2 H3]. split; intros *; [apply H1|apply H2|apply H3]. Qed.
End comparators.

#[export] Instance Z_comparator : Comparator Z.compare.
Proof.
  split; [intros; apply Z.compare_antisym|intros *; rewrite !Z.compare_lt_iff; lia|].
  intros x y z ->%Z.compare_eq_iff. done.
Qed.

#[export] Instance flip_comparator {A} (compare3 : A → A → comparison) :
  Comparator compare3 → Comparator (λ x y, compare3 y x).
Proof.
  intros H. split; [intros; apply three_way_opp|intros x y z ??; by apply (three_way_trans z y x)|].
  intros x y z E. rewrite !(three_way_opp _ z). f_equal. apply three_way_subst.
  by rewrite (three_way_opp y x), E.
Qed.

Fixpoint list_cmp {A} (compare3 : A → A → comparison) (xs ys : list A) : comparison :=
  match xs with
  | [] => if ys is [] then Eq else Lt
  | a :: xs' =>
      match ys with
      | b :: ys' => match compare3 a b with Eq => list_cmp compare3 xs' ys' | c => c end
      | [] => Gt
      end
  end.

#[export] Instance list_comparator {A} (compare3 : A → A → comparison) :
  Comparator compare3 → Comparator (list_cmp compare3).
Proof.
  intros H. split.
  - induction x as [|x xs IH]; intros [|y ys]; simpl; try done.
    rewrite (three_way_opp x y). destruct (compare3 x y); [apply IH|done..].
  - induction x as [|x xs IH]; intros [|y ys] [|z zs]; simpl; try done.
    destruct (compare3 x y) eqn:E1; [|intros _|done].
    + rewrite (three_way_subst x y z E1). destruct (compare3 y z); [|done..]. apply IH.
    + destruct (compare3 y z) eqn:E2; [|by rewrite (three_way_trans x y z E1 E2)|done].
      by rewrite (three_way_lt_eq _ x y z E1 E2).
  - induction x as [|x xs IH]; intros [|y ys] [|z zs]; simpl; try done; case_match eqn:E1; try done.
    rewrite (three_way_subst x y z E1). destruct (compare3 y z); [|done..]. apply IH.
Qed.

(** ** [std::map<std::string, A>]

    An association list in the order of its keys, which is that of their bytes. *)

#[export] Instance N_comparator : Comparator N.compare.
Proof.
  split; [intros; apply N.compare_antisym|intros *; rewrite !N.compare_lt_iff; lia|].
  intros x y z ->%N.compare_eq_iff. done.
Qed.

Lemma string_compare_codes a b :
  String.compare a b =
  list_cmp N.compare (map code (list_ascii_of_string a)) (map code (list_ascii_of_string b)).
Proof.
  revert b. induction a as [|x a IH]; intros [|y b]; simpl; try done.
  unfold Ascii.compare, code. by rewrite IH.
Qed.

#[export] Instance string_comparator : Comparator String.compare.
Proof.
  destruct (on_key_comparator (λ s, map code (list_ascii_of_string s)) (list_cmp N.compare) _)
    as [H1 H2 H3].
  split; intros *; rewrite !string_compare_codes; [apply H1|apply H2|apply H3].
Qed.

Lemma ltb_compare a b : String.ltb a b = true ↔ String.compare a b = Lt.
Proof. unfold String.ltb. by destruct (String.compare a b). Qed.

Lemma ltb_irrefl a : String.ltb a a = false.
Proof.
  unfold String.ltb. pose proof (three_way_opp a a) as H. by destruct (String.compare a a).
Qed.

Lemma ltb_trans a b c : String.ltb a b = true → String.ltb b c = true → String.ltb a c = true.
Proof. rewrite !ltb_compare. apply three_way_trans. Qed.

Notation as_map m := (list_to_map m : gmap string _).

Section str_map.
Context {A : Type}.

(** [m[key]] and what is done with it: a new key starts as [d] *)
Fixpoint map_at (key : string) (d : A) (f : A → A) (m : list (string * A)) : list (string * A) :=
  match m with
  | [] => [(key, f d)]
  | (k, v) :: r =>
      if (key =? k)%string then (k, f v) :: r
      else if String.ltb key k then (key, f d) :: (k, v) :: r
      else (k, v) :: map_at key d f r
  end.

Definition key_before (a b : string) : Prop := String.ltb a b = true.
Definition ordered (m : list (string * A)) : Prop := StronglySorted key_before (map fst m).

Lemma map_at_forall (P : string → Prop) key d f m :
  P key → Forall P (map fst m) → Forall P (map fst (map_at key d f m)).
Proof.
  intros Hk. induction m as [|[k v] m IH]; simpl; [by repeat constructor|].
  intros [??]%Forall_cons. destruct (key =? k)%string; [by constructor|].
  destruct (String.ltb key k); repeat constructor; auto.
Qed.

Lemma not_after_before a b : (a =? b)%string = false → String.ltb a b = false → key_before b a.
Proof.
  unfold key_before, String.ltb. rewrite (three_way_opp a b). intros Hne%String.eqb_neq.
  destruct (String.compare a b) eqn:E; [|done..]. by apply String.compare_eq_iff in E.
Qed.

Lemma map_at_ordered key d f m : ordered m → ordered (map_at key d f m).
Proof.
  unfold ordered. induction m as [|[k v] m IH]; simpl; [repeat constructor|].
  intros [Hm Hk]%StronglySorted_inv. destruct (key =? k)%string eqn:E; [by constructor|].
  destruct (String.ltb key k) eqn:L; simpl.
  - constructor; [by constructor|]. constructor; [done|].
    eapply Forall_impl; [done|]. intros x. by apply ltb_trans.
  - constructor; [by apply IH|]. apply map_at_forall; [by apply not_after_before|done].
Qed.

Lemma before_all_notin key (m : list (string * A)) : Forall (key_before key) (map fst m) → key ∉ map fst m.
Proof.
  rewrite Forall_forall. intros H Hin. specialize (H key).
  specialize (H Hin). unfold key_before in H. by rewrite ltb_irrefl in H.
Qed.

Lemma ordered_nodup m : ordered m → NoDup (map fst m).
Proof.
  unfold ordered. induction 1 as [|k ks _ IH Hk]; [by constructor|].
  constructor; [|done]. revert Hk. rewrite Forall_forall. intros H Hin.
  specialize (H k Hin). unfold key_before in H. by rewrite ltb_irrefl in H.
Qed.

Lemma as_map_notin k (m : list (string * A)) : k ∉ map fst m → as_map m !! k = None.
Proof. apply not_elem_of_list_to_map_1. Qed.

Lemma as_map_elem k v (m : list (string * A)) : ordered m → (k, v) ∈ m ↔ as_map m !! k = Some v.
Proof. intros H%ordered_nodup. by apply elem_of_list_to_map. Qed.

Lemma map_at_insert key d f m :
  ordered m → as_map (map_at key d f m) = <[key := f (default d (as_map m !! key))]> (as_map m).
Proof.
  unfold ordered. induction m as [|[k v] m IH]; [done|].
  intros [Hm Hk]%StronglySorted_inv. cbn [map_at map fst] in *.
  destruct (String.eqb_spec key k) as [->|Hne]; cbn [list_to_map foldr uncurry].
  { by rewrite lookup_insert_eq, insert_insert_eq. }
  rewrite lookup_insert_ne by done. destruct (String.ltb key k) eqn:L; simpl.
  - rewrite as_map_notin; [done|]. apply before_all_notin.
    eapply Forall_impl; [done|]. intros x. by apply ltb_trans.
  - rewrite (IH Hm). by apply insert_insert_ne.
Qed.
End str_map.

(** rows collected under their keys: the loop [for (row) f(m[key])] *)
Section group.
Context {R A : Type} (keep : R → bool) (key : R → string) (d : R → A) (f : R → A → A).

Definition collect_step (m : list (string * A)) (r : R) : list (string * A) :=
  if keep r then map_at (key r) (d r) (f r) m else m.

Definition rows_under (k : string) (rows : list R) : list R :=
  filter (λ r, keep r = true ∧ key r = k) rows.

Definition collected (rs : list R) : option A :=
  match rs with
  | [] => None
  | r :: _ => Some (foldl (λ a r, f r a) (d r) rs)
  end.

Lemma collected_snoc rs r : collected (rs ++ [r]) = Some (f r (default (d r) (collected rs))).
Proof. destruct rs as [|r0 rs]; [done|]. simpl. by rewrite foldl_app. Qed.

Lemma rows_under_snoc k rows r :
  rows_under k (rows ++ [r]) =
  rows_under k rows ++ (if keep r && (key r =? k)%string then [r] else []).
Proof.
  unfold rows_under. rewrite filter_app. f_equal. rewrite filter_cons, filter_nil.
  case_decide as H; destruct (keep r), (String.eqb_spec (key r) k); simpl; naive_solver.
Qed.

Lemma collect_ordered rows : ordered (foldl collect_step [] rows).
Proof.
  induction rows as [|r rows IH] using rev_ind; [constructor|].
  rewrite foldl_app. simpl. unfold collect_step at 1. destruct (keep r); [|done].
  by apply map_at_ordered.
Qed.

Lemma collect_lookup rows k : as_map (foldl collect_step [] rows) !! k = collected (rows_under k rows).
Proof.
  induction rows as [|r rows IH] using rev_ind; [done|].
  rewrite foldl_app, rows_under_snoc. simpl. unfold collect_step at 1.
  destruct (keep r); simpl; [|by rewrite app_nil_r].
  rewrite map_at_insert by apply collect_ordered.
  destruct (String.eqb_spec (key r) k) as [<-|Hne].
  - by rewrite lookup_insert_eq, collected_snoc, IH.
  - by rewrite lookup_insert_ne, app_nil_r.
Qed.

Lemma collect_elem rows k a :
  (k, a) ∈ foldl collect_step [] rows ↔ collected (rows_under k rows) = Some a.
Proof. rewrite as_map_elem by apply collect_ordered. by rewrite collect_lookup. Qed.
End group.
