(* ===== verification/Types.v ===== *)
(** * Shared data types and result sentinels

    [include/dearsql/types.hpp], [src/types.cpp] and [include/dearsql/query_result.hpp]:
    columns, indexes, foreign keys, tables, routines, statement and query results, the
    incoming foreign-key index and the byte-size formatter. *)

From S2P Require Import Prelude.

Definition NULL_SENTINEL : string := "dearsql__null".
Definition BOOL_TRUE_SENTINEL : string := "dearsql__bool_true".
Definition BOOL_FALSE_SENTINEL : string := "dearsql__bool_false".

Definition isNullSentinel (v : string) : bool := (v =? NULL_SENTINEL)%string.
Definition isBoolSentinel (v : string) : bool :=
  (v =? BOOL_TRUE_SENTINEL)%string || (v =? BOOL_FALSE_SENTINEL)%string.
Definition boolSentinelValue (v : string) : bool := (v =? BOOL_TRUE_SENTINEL)%string.

Record Column := mkColumn {
  col_name : string;
  col_type : string;
  col_defaultValue : string;
  col_comment : string;
  col_isPrimaryKey : bool;
  col_isNotNull : bool;
  col_isUnique : bool;
  col_isAutoIncrement : bool
}.

Record Index := mkIndex {
  idx_name : string;
  idx_columns : list string;
  idx_isUnique : bool;
  idx_isPrimary : bool;
  idx_type : string
}.

Record ForeignKey := mkForeignKey {
  fk_name : string;
  fk_sourceColumn : string;
  fk_targetTable : string;
  fk_targetColumn : string;
  fk_onDelete : string;
  fk_onUpdate : string
}.

Record Table := mkTable {
  tbl_name : string;
  tbl_schema : string;
  tbl_comment : string;
  tbl_definition : string;
  tbl_fullName : string;
  tbl_columns : list Column;
  tbl_indexes : list Index;
  tbl_foreignKeys : list ForeignKey;
  tbl_incomingForeignKeys : list ForeignKey;
  tbl_sizeBytes : Z
}.

(** a default-constructed [Table] with a name and a schema *)
Definition namedTable (schema name : string) : Table :=
  mkTable name schema "" "" "" [] [] [] [] (-1)%Z.

Inductive RoutineKind := RoutineFunction | RoutineProcedure.

Record Routine := mkRoutine {
  rt_name : string;
  rt_signature : string;
  rt_kind : RoutineKind;
  rt_returnType : string
}.

#[export] Instance Column_eq_dec : EqDecision Column.
Proof. solve_decision. Defined.
#[export] Instance Index_eq_dec : EqDecision Index.
Proof. solve_decision. Defined.
#[export] Instance ForeignKey_eq_dec : EqDecision ForeignKey.
Proof. solve_decision. Defined.
#[export] Instance Table_eq_dec : EqDecision Table.
Proof. solve_decision. Defined.
#[export] Instance RoutineKind_eq_dec : EqDecision RoutineKind.
Proof. solve_decision. Defined.

(** ** Query results *)

Record StatementResult := mkStatementResult {
  sr_success : bool;
  sr_errorMessage : string;
  sr_columnNames : list string;
  sr_tableData : list (list string);
  sr_affectedRows : Z;
  sr_message : string
}.

(** [executionTimeMs] and [phaseTimings] are client-side clock readings: not modelled *)
Record QueryResult := mkQueryResult {
  qr_statements : list StatementResult;
  qr_messages : list string
}.

Fixpoint all_success (l : list StatementResult) : bool :=
  match l with
  | [] => true
  | s :: r => if negb (sr_success s) then false else all_success r
  end.

Definition qr_success (r : QueryResult) : bool :=
  match qr_statements r with
  | [] => false
  | l => all_success l
  end.

Fixpoint first_error (l : list StatementResult) : string :=
  match l with
  | [] => ""
  | s :: r => if negb (sr_success s) then sr_errorMessage s else first_error r
  end.

Definition qr_errorMessage (r : QueryResult) : string := first_error (qr_statements r).
Definition qr_empty (r : QueryResult) : bool :=
  match qr_statements r with [] => true | _ => false end.
Definition qr_size (r : QueryResult) : nat := length (qr_statements r).

(** a [StatementResult] as it is declared *)
Definition no_result : StatementResult := mkStatementResult true "" [] [] 0 "".

(** a failed statement, and a result that is one *)
Definition failure (message : string) : StatementResult :=
  mkStatementResult false message [] [] 0 "".
Definition one_failure (message : string) : QueryResult := mkQueryResult [failure message] [].

(** ** Incoming foreign keys *)

Definition set_incoming (fks : list ForeignKey) (t : Table) : Table :=
  mkTable (tbl_name t) (tbl_schema t) (tbl_comment t) (tbl_definition t) (tbl_fullName t)
    (tbl_columns t) (tbl_indexes t) (tbl_foreignKeys t) fks (tbl_sizeBytes t).

Definition push_incoming (fk : ForeignKey) (t : Table) : Table :=
  set_incoming (tbl_incomingForeignKeys t ++ [fk]) t.

(** [incoming = fk; incoming.targetTable = src.name] *)
Definition incoming_of (src : Table) (fk : ForeignKey) : ForeignKey :=
  mkForeignKey (fk_name fk) (fk_sourceColumn fk) (tbl_name src) (fk_targetColumn fk)
    (fk_onDelete fk) (fk_onUpdate fk).

(** [lookup]: table name to the position of the last table of that name *)
Fixpoint table_lookup (ts : list Table) (i : nat) (m : gmap string nat) : gmap string nat :=
  match ts with
  | [] => m
  | t :: r => table_lookup r (S i) (<[tbl_name t := i]> m)
  end.

Definition link_fk (lookup : gmap string nat) (src : Table) (acc : list Table)
    (fk : ForeignKey) : list Table :=
  match lookup !! fk_targetTable fk with
  | None => acc
  | Some i => alter (push_incoming (incoming_of src fk)) i acc
  end.

Definition link_table (lookup : gmap string nat) (acc : list Table) (src : Table) : list Table :=
  foldl (link_fk lookup src) acc (tbl_foreignKeys src).

Definition populateIncomingForeignKeys (tables : list Table) : list Table :=
  let cleared := map (set_incoming []) tables in
  let lookup := table_lookup cleared 0 ∅ in
  foldl (link_table lookup) cleared cleared.

(** ** Byte sizes *)

(** quotient rounded to nearest, ties to even: the rounding of [double] conversions and of
    the [{:.nf}] formats on an exactly representable value *)
Definition div_rne (a b : Z) : Z :=
  let q := (a / b)%Z in
  let r := (a mod b)%Z in
  if (2 * r <? b)%Z then q
  else if (b <? 2 * r)%Z then (q + 1)%Z
  else if Z.even q then q else (q + 1)%Z.

(** [static_cast<double>] of a non-negative [int64_t]: 53 significant bits *)
Definition to_double (z : Z) : Z :=
  if (z <? 2 ^ 53)%Z then z
  else let e := (Z.log2 z - 52)%Z in (div_rne z (2 ^ e) * 2 ^ e)%Z.

Fixpoint zeros (n : nat) : string :=
  match n with 0 => EmptyString | S m => String "0" (zeros m) end.
Definition pad_left (width : nat) (s : string) : string := zeros (width - strlen s) +:+ s.

(** the value [num / den] printed with [digits] decimals *)
Definition fixed_point (digits : nat) (num den : Z) : string :=
  let scale := (10 ^ Z.of_nat digits)%Z in
  let v := div_rne (num * scale) den in
  pretty (v / scale)%Z +:+ "." +:+ pad_left digits (pretty (v mod scale)%Z).

Definition formatByteSize (bytes : Z) : string :=
  if (bytes <? 0)%Z then ""
  else
    let b := to_double bytes in
    if (b <? 2 ^ 10)%Z then pretty bytes +:+ " B"
    else if (b <? 2 ^ 20)%Z then fixed_point 1 b (2 ^ 10) +:+ " KB"
    else if (b <? 2 ^ 30)%Z then fixed_point 1 b (2 ^ 20) +:+ " MB"
    else if (b <? 2 ^ 40)%Z then fixed_point 2 b (2 ^ 30) +:+ " GB"
    else fixed_point 2 b (2 ^ 40) +:+ " TB".

Example formatByteSize_1536 : formatByteSize 1536 = "1.5 KB".
Proof. reflexivity. Qed.
Example formatByteSize_gb : formatByteSize 5368709120 = "5.00 GB".
Proof. vm_compute. reflexivity. Qed.

(** ** Properties *)

(** what each table ends up with: every foreign key that names it, in catalog order,
    unless a later table of the same name shadows it *)
Definition incoming_to (name : string) (src : Table) : list ForeignKey :=
  incoming_of src <$> filter (λ fk, fk_targetTable fk = name) (tbl_foreignKeys src).

Definition shadowed (ts : list Table) (i : nat) (t : Table) : bool :=
  existsb (λ t', (tbl_name t' =? tbl_name t)%string) (drop (S i) ts).

Lemma table_lookup_spec ts i m name :
  table_lookup ts i m !! name =
  match table_lookup ts i ∅ !! name with Some k => Some k | None => m !! name end.
Proof.
  revert i m. induction ts as [|t ts IH]; intros i m; simpl.
  { by rewrite lookup_empty. }
  rewrite (IH (S i) (<[_:=_]> m)), (IH (S i) (<[_:=_]> ∅)).
  destruct (table_lookup ts (S i) ∅ !! name); [done|].
  rewrite !lookup_insert. case_decide; [done|by rewrite lookup_empty].
Qed.

Lemma table_lookup_none ts i name :
  table_lookup ts i ∅ !! name = None →
  existsb (λ t, (tbl_name t =? name)%string) ts = false.
Proof.
  revert i. induction ts as [|t ts IH]; intros i; simpl; [done|].
  rewrite table_lookup_spec.
  destruct (table_lookup ts (S i) ∅ !! name) eqn:E; [done|].
  rewrite lookup_insert. case_decide as Hn; [done|]. intros _.
  apply String.eqb_neq in Hn. rewrite Hn. by apply (IH (S i)).
Qed.

Lemma named_later ts j t name :
  ts !! j = Some t → tbl_name t = name →
  existsb (λ t', (tbl_name t' =? name)%string) ts = true.
Proof.
  intros Hj Hn. apply existsb_exists. exists t.
  split; [by eapply list_elem_of_In, list_elem_of_lookup_2|by apply String.eqb_eq].
Qed.

Lemma table_lookup_last ts i name k :
  table_lookup ts i ∅ !! name = Some k →
  ∃ j t, k = i + j ∧ ts !! j = Some t ∧ tbl_name t = name ∧
    existsb (λ t', (tbl_name t' =? name)%string) (drop (S j) ts) = false.
Proof.
  revert i. induction ts as [|t ts IH]; intros i; simpl; [by rewrite lookup_empty|].
  rewrite table_lookup_spec.
  destruct (table_lookup ts (S i) ∅ !! name) as [k'|] eqn:E.
  - intros [= ->]. apply IH in E as (j & t' & -> & Hj & Hn & Hl).
    exists (S j), t'. repeat split; [lia|done..].
  - rewrite lookup_insert. case_decide as Hn; [|by rewrite lookup_empty].
    intros [= <-]. exists 0, t. repeat split; [lia|done|].
    simpl. rewrite drop_0. by eapply table_lookup_none.
Qed.

(** the lookup finds a table exactly when no later one shadows it *)
Lemma table_lookup_iff ts j t :
  ts !! j = Some t →
  table_lookup ts 0 ∅ !! tbl_name t = Some j ↔ shadowed ts j t = false.
Proof.
  intros Hj. unfold shadowed. split.
  - intros (j' & t' & -> & Hj' & Hn & Hl)%table_lookup_last. simpl in *. by simplify_eq.
  - intros Hs. destruct (table_lookup ts 0 ∅ !! tbl_name t) as [k|] eqn:E.
    + apply table_lookup_last in E as (j' & t' & -> & Hj' & Hn & Hl). simpl. f_equal.
      destruct (Nat.lt_trichotomy j' j) as [Hlt|[->|Hlt]]; [|done|].
      * rewrite (named_later _ (j - S j') t) in Hl; [done| |done].
        rewrite lookup_drop. by replace (S j' + (j - S j')) with j by lia.
      * rewrite (named_later _ (j' - S j) t') in Hs; [done| |done].
        rewrite lookup_drop. by replace (S j + (j' - S j)) with j' by lia.
    + apply table_lookup_none in E. by rewrite (named_later _ j t) in E.
Qed.

Definition add_incoming (fks : list ForeignKey) (t : Table) : Table :=
  set_incoming (tbl_incomingForeignKeys t ++ fks) t.

Lemma add_incoming_app a b t :
  add_incoming b (add_incoming a t) = add_incoming (a ++ b) t.
Proof. unfold add_incoming. simpl. by rewrite app_assoc. Qed.

Lemma add_incoming_nil t : add_incoming [] t = t.
Proof. unfold add_incoming. rewrite app_nil_r. by destruct t. Qed.

(** foreign keys of [src] the lookup sends to position [i] *)
Definition sent_to (lookup : gmap string nat) (i : nat) (src : Table) : list ForeignKey :=
  incoming_of src <$>
    filter (λ fk, lookup !! fk_targetTable fk = Some i) (tbl_foreignKeys src).

Lemma link_table_lookup lookup src acc i :
  link_table lookup acc src !! i = add_incoming (sent_to lookup i src) <$> acc !! i.
Proof.
  unfold link_table, sent_to. generalize (tbl_foreignKeys src) as fks.
  intros fks. revert acc. induction fks as [|fk fks IH]; intros acc; simpl.
  { destruct (acc !! i); simpl; by rewrite ?add_incoming_nil. }
  rewrite IH. unfold link_fk. rewrite filter_cons.
  destruct (lookup !! fk_targetTable fk) as [k|] eqn:E; [|by rewrite decide_False].
  destruct (decide (k = i)) as [->|Hne].
  - rewrite decide_True by done. rewrite list_lookup_alter_eq.
    destruct (acc !! i); simpl; [|done]. f_equal.
    unfold add_incoming, push_incoming. simpl. by rewrite <-app_assoc.
  - rewrite decide_False by congruence. by rewrite list_lookup_alter_ne.
Qed.

Lemma link_tables_lookup lookup srcs acc i :
  foldl (link_table lookup) acc srcs !! i =
  add_incoming (mjoin (sent_to lookup i <$> srcs)) <$> acc !! i.
Proof.
  revert acc. induction srcs as [|src srcs IH]; intros acc; simpl.
  { destruct (acc !! i); simpl; by rewrite ?add_incoming_nil. }
  rewrite IH, link_table_lookup. destruct (acc !! i); simpl; [|done].
  by rewrite add_incoming_app.
Qed.

Lemma table_lookup_clear ts i m :
  table_lookup (map (set_incoming []) ts) i m = table_lookup ts i m.
Proof. revert i m. induction ts as [|t ts IH]; intros i m; simpl; [done|]. by rewrite IH. Qed.

Lemma sent_to_spec ts i t src :
  ts !! i = Some t →
  sent_to (table_lookup ts 0 ∅) i src =
  if shadowed ts i t then [] else incoming_to (tbl_name t) src.
Proof.
  intros Hi. unfold sent_to, incoming_to.
  assert (Hone : ∀ x, table_lookup ts 0 ∅ !! x = Some i ↔
                 tbl_name t = x ∧ shadowed ts i t = false).
  { intros x. rewrite <-(table_lookup_iff ts i t Hi). split; [|by intros [<- ?]].
    intros H. pose proof H as (j & t' & Hj & Hl & <- & _)%table_lookup_last.
    simpl in Hj. simplify_eq. done. }
  destruct (shadowed ts i t).
  - induction (tbl_foreignKeys src) as [|fk fks IH]; [done|].
    rewrite filter_cons_False; [done|]. rewrite Hone. by intros [_ ?].
  - f_equal. apply list_filter_iff. intros fk. rewrite Hone. naive_solver.
Qed.

Lemma sent_to_all ts i t :
  ts !! i = Some t →
  mjoin (sent_to (table_lookup ts 0 ∅) i <$> ts) =
  if shadowed ts i t then [] else mjoin (incoming_to (tbl_name t) <$> ts).
Proof.
  intros Hi. transitivity
    (mjoin ((λ src, if shadowed ts i t then [] else incoming_to (tbl_name t) src) <$> ts)).
  - f_equal. apply list_fmap_ext. intros j src _. by apply sent_to_spec.
  - destruct (shadowed ts i t); [|done]. clear. by induction ts.
Qed.

Lemma populateIncoming_eq (ts : list Table) :
  populateIncomingForeignKeys ts =
  imap (λ i t, set_incoming
                 (if shadowed ts i t then [] else mjoin (incoming_to (tbl_name t) <$> ts)) t) ts.
Proof.
  apply list_eq. intros i. unfold populateIncomingForeignKeys.
  rewrite link_tables_lookup, list_lookup_imap, table_lookup_clear.
  change (map (set_incoming []) ts) with (set_incoming [] <$> ts).
  rewrite list_lookup_fmap, <-list_fmap_compose.
  destruct (ts !! i) as [t|] eqn:Hi; simpl; [|done].
  by rewrite <-(sent_to_all ts i t Hi).
Qed.

(** [populateIncomingForeignKeys] gives every table exactly the foreign keys of the
    catalog that target its name, in catalog order, each one renamed to the table it comes
    from; a table shadowed by a later one of the same name gets none.  Nothing else of a
    table changes. *)
Lemma populate_incoming_spec (ts : list Table) :
  populateIncomingForeignKeys ts =
  imap (λ i t, set_incoming
                 (if shadowed ts i t then [] else mjoin (incoming_to (tbl_name t) <$> ts)) t) ts.
Proof. apply populateIncoming_eq. Qed.

Lemma existsb_name_false (ts : list Table) i t :
  NoDup (map tbl_name ts) → ts !! i = Some t → shadowed ts i t = false.
Proof.
  intros Hnd Hi. unfold shadowed. apply not_true_is_false. intros (t' & Hin & He)%existsb_exists.
  apply String.eqb_eq in He. apply list_elem_of_In, list_elem_of_lookup in Hin as [j Hj].
  rewrite lookup_drop in Hj.
  assert (H : i = S i + j); [|lia].
  apply (NoDup_lookup (map tbl_name ts) _ _ (tbl_name t)); [done|..].
  - change (map tbl_name ts) with (tbl_name <$> ts). by rewrite list_lookup_fmap, Hi.
  - change (map tbl_name ts) with (tbl_name <$> ts). rewrite list_lookup_fmap, Hj. simpl. by rewrite He.
Qed.


Lemma elem_of_mjoin_map {A B} (f : A → list B) (l : list A) x :
  x ∈ mjoin (f <$> l) ↔ ∃ y, y ∈ l ∧ x ∈ f y.
Proof.
  rewrite list_elem_of_join. setoid_rewrite list_elem_of_fmap. naive_solver.
Qed.


Lemma elem_of_incoming_to name src fk :
  fk ∈ incoming_to name src ↔
  ∃ k, k ∈ tbl_foreignKeys src ∧ fk_targetTable k = name ∧ fk = incoming_of src k.
Proof.
  unfold incoming_to. rewrite list_elem_of_fmap. setoid_rewrite list_elem_of_filter. naive_solver.
Qed.


(** with distinct names nothing is shadowed *)
Lemma populate_nodup (ts : list Table) :
  NoDup (map tbl_name ts) →
  populateIncomingForeignKeys ts =
  map (λ t, set_incoming (mjoin (incoming_to (tbl_name t) <$> ts)) t) ts.
Proof.
  intros Hnd. rewrite populateIncoming_eq.
  change (map ?f ts) with (fmap (M:=list) f ts). apply list_eq. intros i.
  rewrite list_lookup_imap, list_lookup_fmap. destruct (ts !! i) as [t|] eqn:Hi; [|done].
  simpl. by rewrite (existsb_name_false ts i t).
Qed.
