(* ===== verification/Effects.v ===== *)
(** * Operations with effects

    The operations of a backend change a state; some may not end, some throw. *)

From S2P Require Import Prelude.

(** ** Operations that may not end *)

Definition Op (S A : Type) : Type := S → option A * S.
#[export] Instance Op_ret {S} : MRet (Op S) := λ A x s, (Some x, s).
#[export] Instance Op_bind {S} : MBind (Op S) := λ A B f m s,
  match m s with
  | (Some x, s') => f x s'
  | (None, s') => (None, s')
  end.
Definition never_ends {S A} : Op S A := λ s, (None, s).

(** ** Operations that may not end or throw an error with a message *)

Inductive outcome (A : Type) := Done (x : A) | Throws (message : string) | Hangs.
Arguments Done {A}. Arguments Throws {A}. Arguments Hangs {A}.

Definition Eff (S A : Type) : Type := S → outcome A * S.
#[export] Instance Eff_ret {S} : MRet (Eff S) := λ A x s, (Done x, s).
#[export] Instance Eff_bind {S} : MBind (Eff S) := λ A B f m s,
  match m s with
  | (Done x, s') => f x s'
  | (Throws e, s') => (Throws e, s')
  | (Hangs, s') => (Hangs, s')
  end.
#[export] Instance Eff_fmap {S} : FMap (Eff S) := λ A B f m, x ← m; mret (f x).
Definition throws {S A} (message : string) : Eff S A := λ s, (Throws message, s).
Definition hangs {S A} : Eff S A := λ s, (Hangs, s).
(** [try { m } catch (const std::exception& e) { handler(e.what()) }] *)
Definition catch {S A} (m : Eff S A) (handler : string → Eff S A) : Eff S A := λ s,
  match m s with
  | (Throws e, s') => handler e s'
  | r => r
  end.
(** a destructor that runs whether the operation returns or throws *)
Definition finally {S A} (m : Eff S A) (cleanup : Eff S unit) : Eff S A := λ s,
  match m s with
  | (Done x, s') => (cleanup ;; mret x) s'
  | (Throws e, s') => (cleanup ;; throws e) s'
  | (Hangs, s') => (Hangs, s')
  end.

(** ** Triples

    From a state of [P] the operation returns in one of [Q], throws in one of [E], or does not
    end. *)

Section triples.
Context {S : Type}.

Definition triple {A} (P : S → Prop) (m : Eff S A) (Q : A → S → Prop) (E : S → Prop)
    : Prop :=
  ∀ w, P w → match m w with
             | (Done x, w') => Q x w'
             | (Throws _, w') => E w'
             | (Hangs, _) => True
             end.

Lemma triple_ret {A} (x : A) P E : triple P (mret x) (λ y w, y = x ∧ P w) E.
Proof. by intros w Hw. Qed.

Lemma triple_bind {A B} P (m : Eff S A) R (f : A → Eff S B) Q E :
  triple P m R E → (∀ x, triple (R x) (f x) Q E) → triple P (m ≫= f) Q E.
Proof.
  intros Hm Hf w Hw. specialize (Hm w Hw). unfold mbind, Eff_bind.
  destruct (m w) as [[x|e|] w']; [by apply Hf|done..].
Qed.

Lemma triple_weaken {A} (P P' : S → Prop) (m : Eff S A) (Q Q' : A → S → Prop) (E E' : S → Prop) :
  triple P m Q E → (∀ w, P' w → P w) → (∀ x w, Q x w → Q' x w) → (∀ w, E w → E' w) →
  triple P' m Q' E'.
Proof.
  intros Hm HP HQ HE w Hw. specialize (Hm w (HP w Hw)). destruct (m w) as [[x|e|] w']; auto.
Qed.

Lemma triple_exists {A X} (P : X → S → Prop) (m : Eff S A) Q E :
  (∀ x, triple (P x) m Q E) → triple (λ w, ∃ x, P x w) m Q E.
Proof. intros H w [x Hx]. by apply (H x w). Qed.

Lemma triple_catch {A} P (m : Eff S A) Q R E (f : string → Eff S A) :
  triple P m Q R → (∀ e, triple R (f e) Q E) → triple P (catch m f) Q E.
Proof.
  intros Hm Hf w Hw. specialize (Hm w Hw). unfold catch.
  destruct (m w) as [[x|e|] w']; [done|by apply Hf|done].
Qed.

Lemma triple_throws {A} e P (Q : A → S → Prop) : triple P (throws e) Q P.
Proof. by intros w Hw. Qed.

Lemma triple_hangs {A} P (Q : A → S → Prop) E : triple P hangs Q E.
Proof. by intros w Hw. Qed.

Lemma triple_finally {A} P (m : Eff S A) R (X : S → Prop) (cleanup : Eff S unit) Q (E : S → Prop) :
  triple P m R X → (∀ x, triple (R x) cleanup (λ _, Q x) E) → triple X cleanup (λ _, E) E →
  triple P (finally m cleanup) Q E.
Proof.
  intros Hm HR HX w Hw. specialize (Hm w Hw). unfold finally, mbind, Eff_bind.
  destruct (m w) as [[x|e|] w']; [|specialize (HX w' Hm)|done].
  - specialize (HR x w' Hm). by destruct (cleanup w') as [[[]|e|] w2].
  - by destruct (cleanup w') as [[[]|e'|] w2].
Qed.

(** an operation that keeps a property of the state, also when it throws *)
Definition keeps {A} (P : S → Prop) (m : Eff S A) : Prop := triple P m (λ _, P) P.

Lemma keeps_ret {A} (x : A) P : keeps P (mret x).
Proof. by intros w Hw. Qed.
Lemma keeps_throws {A} e P : keeps P (throws e : Eff S A).
Proof. by intros w Hw. Qed.
Lemma keeps_hangs {A} P : keeps P (hangs : Eff S A).
Proof. by intros w Hw. Qed.
Lemma keeps_bind {A B} P (m : Eff S A) (f : A → Eff S B) :
  keeps P m → (∀ x, keeps P (f x)) → keeps P (m ≫= f).
Proof. intros Hm Hf. by eapply triple_bind. Qed.
Lemma keeps_mapM {A B} P (f : A → Eff S B) l : (∀ x, keeps P (f x)) → keeps P (mapM f l).
Proof.
  intros Hf. induction l as [|x l IH]; cbn [mapM]; [apply keeps_ret|].
  apply keeps_bind; [done|]. intros y. apply keeps_bind; [done|]. intros ys. apply keeps_ret.
Qed.

(** the same of one that never throws *)
Definition always {A} (P : S → Prop) (m : Eff S A) : Prop := triple P m (λ _, P) (λ _, False).

Lemma always_keeps {A} P (m : Eff S A) : always P m → keeps P m.
Proof. intros Hm. by eapply triple_weaken. Qed.
Lemma always_ret {A} (x : A) P : always P (mret x).
Proof. by intros w Hw. Qed.
Lemma always_bind {A B} P (m : Eff S A) (f : A → Eff S B) :
  always P m → (∀ x, always P (f x)) → always P (m ≫= f).
Proof. intros Hm Hf. by eapply triple_bind. Qed.
Lemma always_mapM {A B} P (f : A → Eff S B) l : (∀ x, always P (f x)) → always P (mapM f l).
Proof.
  intros Hf. induction l as [|x l IH]; cbn [mapM]; [apply always_ret|].
  apply always_bind; [done|]. intros y. apply always_bind; [done|]. intros ys. apply always_ret.
Qed.

(** an operation that ends: it returns or throws *)
Definition finishes {A} (m : Eff S A) : Prop := ∀ s, fst (m s) ≠ Hangs.

Lemma finishes_ret {A} (x : A) : finishes (mret x).
Proof. by intros s. Qed.
Lemma finishes_throws {A} e : finishes (throws e : Eff S A).
Proof. by intros s. Qed.
Lemma finishes_bind {A B} (m : Eff S A) (f : A → Eff S B) :
  finishes m → (∀ x, finishes (f x)) → finishes (m ≫= f).
Proof.
  intros Hm Hf s. specialize (Hm s). unfold mbind, Eff_bind.
  destruct (m s) as [[x|e|] s']; [apply Hf|done..].
Qed.
Lemma finishes_mapM {A B} (f : A → Eff S B) l : (∀ x, finishes (f x)) → finishes (mapM f l).
Proof.
  intros Hf. induction l as [|x l IH]; cbn [mapM]; [apply finishes_ret|].
  apply finishes_bind; [done|]. intros y. apply finishes_bind; [done|]. intros ys. apply finishes_ret.
Qed.

(** the state when the operation has returned or thrown *)
Definition after {A} (m : Eff S A) (s : S) : option S :=
  match m s with
  | (Hangs, _) => None
  | (_, s') => Some s'
  end.

(** operations one after the other; nothing behind one that does not end *)
Fixpoint run_all {Op} (perform : Op → Eff S unit) (ops : list Op) (s : S) : option S :=
  match ops with
  | [] => Some s
  | op :: ops => match after (perform op) s with Some s' => run_all perform ops s' | None => None end
  end.

Lemma run_all_keeps {Op} (P : S → Prop) (perform : Op → Eff S unit) ops s s' :
  (∀ op, keeps P (perform op)) → P s → run_all perform ops s = Some s' → P s'.
Proof.
  intros Hp. revert s. induction ops as [|op ops IH]; intros s Hs; simpl; [by intros [= <-]|].
  specialize (Hp op s Hs). unfold after.
  destruct (perform op s) as [[x|e|] s1]; [by apply IH|by apply IH|done].
Qed.

(** the same of operations that are all of one kind *)
Lemma run_all_keeps_of {Op} (K : Op → Prop) (P : S → Prop) (perform : Op → Eff S unit) ops s s' :
  (∀ op, K op → keeps P (perform op)) → Forall K ops → P s → run_all perform ops s = Some s' → P s'.
Proof.
  intros Hp Hk. revert s. induction Hk as [|op ops Hop _ IH]; intros s Hs; simpl; [by intros [= <-]|].
  specialize (Hp op Hop s Hs). unfold after.
  destruct (perform op s) as [[x|e|] s1]; [by apply IH|by apply IH|done].
Qed.

(** the same of a property that each operation moves on by its cost *)
Lemma run_all_counts {Op} (P : nat → S → Prop) (cost : Op → nat) (perform : Op → Eff S unit) ops k s s' :
  (∀ op k, triple (P k) (perform op) (λ _, P (cost op + k)) (P (cost op + k))) →
  P k s → run_all perform ops s = Some s' → P (sum_list_with cost ops + k) s'.
Proof.
  intros Hp. revert k s. induction ops as [|op ops IH]; intros k s Hs; simpl; [by intros [= <-]|].
  specialize (Hp op k s Hs). unfold after.
  replace (cost op + sum_list_with cost ops + k) with (sum_list_with cost ops + (cost op + k)) by lia.
  destruct (perform op s) as [[x|e|] s1]; [by apply IH|by apply IH|done].
Qed.

Lemma run_all_finishes {Op} (perform : Op → Eff S unit) ops s :
  (∀ op, finishes (perform op)) → ∃ s', run_all perform ops s = Some s'.
Proof.
  intros Hp. revert s. induction ops as [|op ops IH]; intros s; simpl; [by eexists|].
  specialize (Hp op s). unfold after. destruct (perform op s) as [[x|e|] s1]; [apply IH|apply IH|done].
Qed.
End triples.

Create HintDb keeps.
#[export] Hint Resolve keeps_ret keeps_throws keeps_hangs keeps_mapM always_keeps always_ret always_mapM : keeps.

Create HintDb finishes.
#[export] Hint Constants Opaque : finishes.
#[export] Hint Resolve finishes_ret finishes_throws : finishes.

(** binds and branches of an operation that ends *)
Ltac finishing :=
  repeat first
    [ progress intros
    | assumption
    | solve [auto 3 with finishes]
    | match goal with
      | |- finishes (mbind _ _) => apply finishes_bind
      | |- finishes (mapM _ _) => apply finishes_mapM
      | |- finishes (match ?x with _ => _ end) => destruct x
      end ].

(** a triple of one property is that it is kept *)
Ltac as_keeps := match goal with |- triple ?P ?m _ _ => change (keeps P m) end.

(** binds and branches *)
Ltac keeping :=
  repeat first
    [ progress intros
    | solve [eauto with keeps]
    | apply keeps_bind; [|intros ?]
    | apply keeps_mapM; intros ?
    | apply always_bind; [|intros ?]
    | apply always_mapM; intros ?
    | match goal with
      | |- keeps _ (match ?x with _ => _ end) => destruct x
      | |- always _ (match ?x with _ => _ end) => destruct x
      end ].
