(* ===== verification/Rows.v ===== *)
(** * Rows of text

    What the backends do with the rows of a catalog query: reading cells, grouping rows by
    their first cell, and the body of a view; and the message that goes with rows. *)

From S2P Require Import Prelude Types.

Definition cell (row : list string) (i : nat) : string := default "" (row !! i).

(** [if (!row.empty()) out.push_back(row[0])] *)
Definition first_cells (rows : list (list string)) : list string := omap head rows.

(** [for (row : rows) { if (row.size() < n) continue; m[row[0]].push_back(item); }] *)
Definition group_rows {A} (n : nat) (item : list string → A) (rows : list (list string))
    : gmap string (list A) :=
  foldl (λ m row,
           if length row <? n then m
           else <[cell row 0 := default [] (m !! cell row 0) ++ [item row]]> m) ∅ rows.

Definition returned (n : nat) : string :=
  "Returned " +:+ pretty n +:+ " row" +:+ (if n =? 1 then "" else "s").

(** the rows kept of those that are there *)
Definition limited {A} (rowLimit : Z) (l : list A) : list A :=
  if (0 <? rowLimit)%Z then take (Z.to_nat rowLimit) l else l.

(** whether a loop goes on for another row *)
Definition below_limit (rowLimit : Z) (kept : nat) : bool :=
  ((rowLimit <=? 0) || (Z.of_nat kept <? rowLimit))%Z.

(** the text behind the first [ AS ] *)
Definition view_body (sql : string) : string :=
  match find_str " AS " sql 0 with Some pos => sdrop (pos + 4) sql | None => "" end.

Definition set_definition (definition : string) (t : Table) : Table :=
  mkTable (tbl_name t) (tbl_schema t) (tbl_comment t) definition (tbl_fullName t)
    (tbl_columns t) (tbl_indexes t) (tbl_foreignKeys t) (tbl_incomingForeignKeys t) (tbl_sizeBytes t).

Definition equals (value : string) (s : string) : bool := (s =? value)%string.

(** ** Properties *)

Lemma below_limit_spec rowLimit n :
  below_limit rowLimit n = true ↔ (0 < rowLimit → Z.of_nat n < rowLimit)%Z.
Proof. unfold below_limit. rewrite orb_true_iff, Z.leb_le, Z.ltb_lt. lia. Qed.

(** the rows with at least [n] cells under a name *)
Definition rows_of (n : nat) (name : string) (rows : list (list string)) : list (list string) :=
  filter (λ row, n <= length row ∧ cell row 0 = name) rows.

Lemma rows_of_snoc n name rows row :
  rows_of n name (rows ++ [row]) =
  rows_of n name rows ++
    (if (n <=? length row) && (cell row 0 =? name)%string then [row] else []).
Proof.
  unfold rows_of. rewrite filter_app. f_equal. rewrite filter_cons, filter_nil.
  destruct (Nat.leb_spec n (length row)), (String.eqb_spec (cell row 0) name); simpl;
    case_decide; try done; exfalso; tauto || lia.
Qed.

Lemma group_rows_lookup {A} n (item : list string → A) rows name :
  default [] (group_rows n item rows !! name) = map item (rows_of n name rows).
Proof.
  unfold group_rows. induction rows as [|row rows IH] using rev_ind; [simpl; by rewrite lookup_empty|].
  rewrite foldl_app, rows_of_snoc, map_app. simpl.
  destruct (Nat.ltb_spec (length row) n); [rewrite (proj2 (Nat.leb_gt _ _)) by done; simpl|].
  { by rewrite app_nil_r. }
  rewrite (proj2 (Nat.leb_le _ _)) by done. simpl. rewrite lookup_insert.
  destruct (String.eqb_spec (cell row 0) name) as [->|Hne]; case_decide; simpl; try done.
  - by rewrite IH.
  - by rewrite app_nil_r.
Qed.

Lemma elem_of_rows_of n name rows row :
  row ∈ rows_of n name rows ↔ n <= length row ∧ cell row 0 = name ∧ row ∈ rows.
Proof. unfold rows_of. rewrite list_elem_of_filter. tauto. Qed.

(** ** What a grid shows

    [text] is how a value reads; a column without a value reads as [None] does. *)

(** the texts of a row: one for each column *)
Definition row_shows {C V} (text : option V → string) (columns : list C) (row : list V)
    (texts : list string) : Prop :=
  length texts = length columns ∧ ∀ i, i < length columns → texts !! i = Some (text (row !! i)).

Lemma row_shows_imap {C V} (text : option V → string) (cell : nat → C → string) columns row :
  (∀ i c, cell i c = text (row !! i)) → row_shows text columns row (imap cell columns).
Proof.
  intros Hc. split; [apply length_imap|]. intros i Hi. rewrite list_lookup_imap.
  destruct (columns !! i) as [c|] eqn:E; [simpl; by rewrite Hc|]. apply lookup_ge_None in E. lia.
Qed.

Lemma rows_show_map {C V} (text : option V → string) (columns : list C) (f : list V → list string) rows :
  (∀ row, row_shows text columns row (f row)) → Forall2 (row_shows text columns) rows (map f rows).
Proof. intros Hf. induction rows; constructor; auto. Qed.

(** the rows kept: all, or the first up to a positive limit *)
Definition first_rows {A} (rowLimit : Z) (rows kept : list A) : Prop :=
  ((0 < rowLimit)%Z → kept = take (Z.to_nat rowLimit) rows) ∧ ((rowLimit <= 0)%Z → kept = rows).

Lemma limited_first {A} rowLimit (rows : list A) : first_rows rowLimit rows (limited rowLimit rows).
Proof. unfold first_rows, limited. destruct (Z.ltb_spec 0 rowLimit); split; (done || lia). Qed.
