(* ===== verification/Objects.v ===== *)
(** * Objects of a C library

    A client of a C library makes objects (a database handle, a session, a statement), uses
    them and frees them.  Here an object is a number; what the library's calls do to objects is
    read off the log of the calls, and [alive] is nothing as soon as an object is used or freed
    when it does not exist, or freed before the objects made from it. *)

From S2P Require Import Prelude Effects.

Inductive action :=
  | Make (o : nat) (parent : option nat)
  | Use (o : nat)
  | Free (o : nat).

(** the objects that exist, each with the object it was made from *)
Notation Alive := (gmap nat (option nat)).

Definition has_child (o : nat) (m : Alive) : bool :=
  existsb (λ x, bool_decide (snd x = Some o)) (map_to_list m).

Definition exists_in (m : Alive) (o : nat) : bool := bool_decide (is_Some (m !! o)).

Definition act (m : Alive) (a : action) : option Alive :=
  match a with
  | Make o parent =>
      if exists_in m o then None
      else if match parent with Some p => exists_in m p | None => true end
      then Some (<[o := parent]> m) else None
  | Use o => if exists_in m o then Some m else None
  | Free o => if exists_in m o && negb (has_child o m) then Some (delete o m) else None
  end.

Fixpoint acts (m : Alive) (l : list action) : option Alive :=
  match l with
  | [] => Some m
  | a :: l => match act m a with Some m' => acts m' l | None => None end
  end.

(** ** The state of the client's side

    The calls so far and how many objects were numbered. *)

Record World (event : Type) := mkWorld { w_log : list event; w_made : nat }.
Arguments mkWorld {event}. Arguments w_log {event}. Arguments w_made {event}.

Definition new_world {event} : World event := mkWorld [] 0.

Lemma has_child_true o (m : Alive) : has_child o m = true ↔ ∃ c, m !! c = Some (Some o).
Proof.
  unfold has_child. rewrite existsb_exists. split.
  - intros ([c p] & Hin%list_elem_of_In%elem_of_map_to_list & H%bool_decide_eq_true). simpl in H.
    subst. by exists c.
  - intros [c Hc]. exists (c, Some o). split; [by apply list_elem_of_In, elem_of_map_to_list|].
    by apply bool_decide_eq_true.
Qed.

Lemma has_child_false o (m : Alive) : has_child o m = false ↔ ∀ c, m !! c ≠ Some (Some o).
Proof.
  rewrite <-not_true_iff_false, has_child_true. naive_solver.
Qed.

(** an object just made from another has no child *)
Lemma has_child_fresh o p (m : Alive) :
  m !! o = None → p ≠ Some o → has_child o m = false → has_child o (<[o := p]> m) = false.
Proof.
  rewrite !has_child_false. intros Ho Hp Hc c. rewrite lookup_insert. case_decide; [congruence|auto].
Qed.

Lemma made_there o (p : option nat) (m : Alive) : is_Some (<[o := p]> m !! o).
Proof. rewrite lookup_insert_eq. by eexists. Qed.

Lemma still_there d o (p : option nat) (m : Alive) : is_Some (m !! d) → is_Some (<[o := p]> m !! d).
Proof. intros Hd. rewrite lookup_insert_is_Some. destruct (decide (o = d)); tauto. Qed.

Lemma exists_true (m : Alive) o : is_Some (m !! o) → exists_in m o = true.
Proof. intros H. unfold exists_in. by rewrite bool_decide_eq_true_2. Qed.

(** the objects of a set, none made from another *)
Lemma exists_in_set (X : gset nat) o : exists_in (gset_to_gmap None X) o = bool_decide (o ∈ X).
Proof.
  unfold exists_in. apply bool_decide_ext. rewrite <-elem_of_dom, dom_gset_to_gmap. done.
Qed.

Lemma no_children (X : gset nat) o : has_child o (gset_to_gmap None X) = false.
Proof. apply has_child_false. intros c [_ H]%lookup_gset_to_gmap_Some. done. Qed.

(** what a call does when the objects that it uses exist *)
Ltac acting :=
  simpl;
  repeat match goal with
  | H : is_Some (?m !! ?o) |- context [exists_in ?m ?o] => rewrite (exists_true m o H)
  | |- context [exists_in (<[?o := ?p]> ?m) ?o] => rewrite (exists_true _ o (made_there o p m))
  end;
  repeat match goal with |- context [exists_in ?m ?o] => destruct (exists_in m o) end; try done.

Section calls.
Context {event : Type}.

(** a call, answered from all calls so far, itself included *)
Definition call {A} (e : event) (answer : list event → A) : Eff (World event) A := λ w,
  let log := w_log w ++ [e] in (Done (answer log), mkWorld log (w_made w)).
(** a value of the last call *)
Definition observe {A} (answer : list event → A) : Eff (World event) A := λ w,
  (Done (answer (w_log w)), w).
(** a number for the next object *)
Definition fresh : Eff (World event) nat := λ w,
  (Done (w_made w), mkWorld (w_log w) (S (w_made w))).

Lemma finishes_call {A} e (answer : list event → A) : finishes (call e answer).
Proof. by intros w. Qed.
Lemma finishes_observe {A} (answer : list event → A) : finishes (observe answer).
Proof. by intros w. Qed.
Lemma finishes_fresh : finishes fresh.
Proof. by intros w. Qed.

(** what each call does, given the log it ends *)
Context (actions : list event → event → list action).

Fixpoint alive_from (log events : list event) (m : Alive) : option Alive :=
  match events with
  | [] => Some m
  | e :: events =>
      match acts m (actions (log ++ [e]) e) with
      | Some m' => alive_from (log ++ [e]) events m'
      | None => None
      end
  end.
Definition alive (log : list event) : option Alive := alive_from [] log ∅.

Lemma alive_from_snoc log events e m :
  alive_from log (events ++ [e]) m =
  alive_from log events m ≫= λ m', acts m' (actions (log ++ events ++ [e]) e).
Proof.
  revert log m. induction events as [|x events IH]; intros log m; simpl.
  { by destruct (acts _ _). }
  destruct (acts m _) as [m'|]; [|done]. rewrite IH. by rewrite <-app_assoc.
Qed.

Lemma alive_snoc log e : alive (log ++ [e]) = alive log ≫= λ m, acts m (actions (log ++ [e]) e).
Proof. apply alive_from_snoc. Qed.

(** ** Triples *)

(** these objects exist, and no call so far misused one *)
Record Live (m : Alive) (w : World event) : Prop := mkLive {
  live_log : alive (w_log w) = Some m;
  live_made : ∀ o, is_Some (m !! o) ∨ has_child o m = true → o < w_made w
}.

Lemma live_new : Live ∅ new_world.
Proof.
  split; [done|]. intros o. rewrite has_child_true. setoid_rewrite lookup_empty.
  by intros [[? ?]|[? ?]].
Qed.

Lemma live_call {A} e (answer : list event → A) m m' E :
  (∀ log, acts m (actions (log ++ [e]) e) = Some m') → m' ⊆ m →
  triple (Live m) (call e answer) (λ _, Live m') E.
Proof.
  intros He Hm w [Hl Hn]. split; simpl; [rewrite alive_snoc, Hl; apply He|].
  intros o Ho. apply Hn. revert Ho. rewrite !has_child_true.
  intros [[x Hx]|[c Hc]]; [left; exists x|right; exists c]; by eapply lookup_weaken.
Qed.

(** a call that uses objects that exist *)
Lemma live_use {A} e (answer : list event → A) m :
  (∀ log, acts m (actions log e) = Some m) → keeps (Live m) (call e answer).
Proof. intros He. by apply live_call. Qed.

(** the same, when nothing is thrown *)
Lemma live_uses {A} e (answer : list event → A) m o E :
  (∀ log, actions log e = [Use o]) → is_Some (m !! o) →
  triple (Live m) (call e answer) (λ _, Live m) E.
Proof.
  intros He Ho. apply live_call; [|done]. intros log. rewrite He. simpl. unfold exists_in.
  by rewrite bool_decide_eq_true_2.
Qed.

Lemma live_observe {A} (answer : list event → A) m : keeps (Live m) (observe answer).
Proof. by intros w Hw. Qed.

(** an object numbered and made, or not, by a call *)
Lemma live_make {A B} (e : nat → event) (answer : list event → A) (k : nat → A → Eff _ B)
    (made : A → bool) parent m Q E :
  (∀ o log, acts m (actions log (e o)) =
            if made (answer log) then act m (Make o parent) else Some m) →
  (∀ p, parent = Some p → is_Some (m !! p)) →
  (∀ o x, m !! o = None → has_child o m = false → parent ≠ Some o → made x = true →
          triple (Live (<[o := parent]> m)) (k o x) Q E) →
  (∀ o x, made x = false → triple (Live m) (k o x) Q E) →
  triple (Live m) (o ← fresh; x ← call (e o) answer; k o x) Q E.
Proof.
  intros He Hp Hmade Hnot w [Hl Hn]. unfold mbind, Eff_bind. simpl.
  set (o := w_made w). set (log := w_log w ++ [e o]).
  assert (Hbound : ∀ q, is_Some (m !! q) ∨ has_child q m = true → q ≠ o).
  { intros q H%Hn. unfold o. lia. }
  assert (Ho : m !! o = None) by (apply eq_None_not_Some; intros H; by apply (Hbound o); [left|]).
  assert (Hparent : parent ≠ Some o) by (intros H; by apply (Hbound o); [left; apply Hp|]).
  assert (Hch : has_child o m = false).
  { apply not_true_iff_false. intros H. by apply (Hbound o); [right|]. }
  assert (Hacts : alive log = acts m (actions log (e o))) by (unfold log; by rewrite alive_snoc, Hl).
  rewrite He in Hacts. destruct (made (answer log)) eqn:Em.
  - apply Hmade; [done..|]. split; simpl.
    + rewrite Hacts. simpl. unfold exists_in. rewrite Ho, bool_decide_eq_false_2 by (by intros [? ?]).
      destruct parent as [p|]; [|done]. by rewrite bool_decide_eq_true_2 by auto.
    + intros q. rewrite has_child_true, lookup_insert_is_Some.
      setoid_rewrite lookup_insert_Some. intros [[Hq|[_ H]]|[c [[_ Hq]|[_ H]]]]; [unfold o in Hq; lia|..].
      * assert (q < w_made w) by (apply Hn; by left). lia.
      * assert (q < w_made w) by (apply Hn; left; auto). lia.
      * assert (q < w_made w) by (apply Hn; right; rewrite has_child_true; by eexists). lia.
  - apply Hnot; [done|]. split; simpl; [by rewrite Hacts|]. intros q H%Hn. lia.
Qed.

(** an object freed *)
Lemma live_free e m o E :
  (∀ log, actions log e = [Free o]) → is_Some (m !! o) → has_child o m = false →
  triple (Live m) (call e (λ _, tt)) (λ _, Live (delete o m)) E.
Proof.
  intros He Ho Hc. apply live_call; [|apply delete_subseteq].
  intros log. rewrite He. simpl. unfold exists_in. by rewrite bool_decide_eq_true_2, Hc.
Qed.

(** an object just made and freed *)
Lemma live_unmake e m o parent E :
  (∀ log, actions log e = [Free o]) →
  m !! o = None → has_child o m = false → parent ≠ Some o →
  triple (Live (<[o := parent]> m)) (call e (λ _, tt)) (λ _, Live m) E.
Proof.
  intros He Ho Hc Hp.
  eapply triple_weaken; [apply (live_free e (<[o := parent]> m) o E He)|done| |done].
  - rewrite lookup_insert_eq. by eexists.
  - by apply has_child_fresh.
  - intros [] w. by rewrite delete_insert_id.
Qed.

(** an object made for a while *)
Lemma live_scope {A} e (f : Eff _ A) m o parent :
  (∀ log, actions log e = [Free o]) →
  m !! o = None → has_child o m = false → parent ≠ Some o →
  keeps (Live (<[o := parent]> m)) f →
  triple (Live (<[o := parent]> m)) (finally f (call e (λ _, tt))) (λ _, Live m) (Live m).
Proof.
  intros He Ho Hc Hp Hf.
  eapply triple_finally; [exact Hf|intros x; by apply live_unmake|by apply live_unmake].
Qed.
End calls.

(** ** What a log amounts to

    A state that each call changes, given the log that the call ends. *)

Section replay.
Context {event St : Type} (step : list event → event → St → St).

Fixpoint replay_from (log events : list event) (st : St) : St :=
  match events with
  | [] => st
  | e :: events => replay_from (log ++ [e]) events (step (log ++ [e]) e st)
  end.

Lemma replay_app log events events' st :
  replay_from log (events ++ events') st = replay_from (log ++ events) events' (replay_from log events st).
Proof.
  revert log st. induction events as [|e events IH]; intros log st; simpl; [by rewrite app_nil_r|].
  by rewrite IH, <-app_assoc.
Qed.

Lemma replay_snoc log events e st :
  replay_from log (events ++ [e]) st = step (log ++ events ++ [e]) e (replay_from log events st).
Proof. rewrite replay_app. simpl. by rewrite <-app_assoc. Qed.
End replay.

#[export] Hint Resolve live_observe made_there still_there : keeps.
#[export] Hint Resolve finishes_call finishes_observe finishes_fresh : finishes.
