(* ===== verification/Sharing.v ===== *)
(** * Connections that share an engine's object

    [SQLiteConnection] and [DuckDBConnection] keep an object of the engine (a file that is
    open) behind a [std::shared_ptr], and so does every node that they hand out; a node may
    also have a session of its own, which its destructor ends.  An object goes away with its
    last owner.  The owners of a node are the connection's [defaultDb_] and the callers. *)

From S2P Require Import Prelude Effects Objects.

Section sharing.
Context {event Node : Type}.

(** what a backend says of its nodes, and of the end of an object's last owner *)
Class Backend := mkBackend {
  node_resource : Node → nat;
  node_session : Node → option nat;
  close_resource : nat → Eff (World event) unit;
  close_session : nat → Eff (World event) unit
}.

(** the connection's two members, the nodes that exist, and those that callers own *)
Record Shared := mkShared {
  sh_resource : option nat;
  sh_default : option nat;
  sh_nodes : gmap nat Node;
  sh_held : gset nat;
  sh_made : nat;
  sh_world : World event
}.

Definition new_shared : Shared := mkShared None None ∅ ∅ 0 new_world.

Notation ShM := (Eff Shared).

Definition get_resource : ShM (option nat) := λ s, (Done (sh_resource s), s).
Definition set_resource (r : option nat) : ShM unit := λ s,
  (Done tt, mkShared r (sh_default s) (sh_nodes s) (sh_held s) (sh_made s) (sh_world s)).
Definition get_default : ShM (option nat) := λ s, (Done (sh_default s), s).
Definition set_default (n : option nat) : ShM unit := λ s,
  (Done tt, mkShared (sh_resource s) n (sh_nodes s) (sh_held s) (sh_made s) (sh_world s)).
Definition get_node (n : nat) : ShM (option Node) := λ s, (Done (sh_nodes s !! n), s).
Definition set_node (n : nat) (x : option Node) : ShM unit := λ s,
  (Done tt, mkShared (sh_resource s) (sh_default s) (partial_alter (λ _, x) n (sh_nodes s))
              (sh_held s) (sh_made s) (sh_world s)).
Definition set_held (f : gset nat → gset nat) : ShM unit := λ s,
  (Done tt, mkShared (sh_resource s) (sh_default s) (sh_nodes s) (f (sh_held s)) (sh_made s)
              (sh_world s)).
Definition on_world {A} (m : Eff (World event) A) : ShM A := λ s,
  let '(r, w) := m (sh_world s) in
  (r, mkShared (sh_resource s) (sh_default s) (sh_nodes s) (sh_held s) (sh_made s) w).

(** a new node; it has no owner yet *)
Definition make_node (x : Node) : ShM nat := λ s,
  (Done (sh_made s),
   mkShared (sh_resource s) (sh_default s) (<[sh_made s := x]> (sh_nodes s)) (sh_held s)
     (S (sh_made s)) (sh_world s)).

(** the node is returned to a caller *)
Definition hand_out (n : nat) : ShM nat := set_held (λ held, {[n]} ∪ held) ;; mret n.

Context `{Backend}.

(** a share of the object was given back *)
Definition resource_owned (r : nat) : ShM bool := λ s,
  (Done (bool_decide (sh_resource s = Some r) ||
         existsb (λ x, node_resource (snd x) =? r) (map_to_list (sh_nodes s))), s).
Definition drop_resource (r : nat) : ShM unit :=
  owned ← resource_owned r;
  if owned : bool then mret tt else on_world (close_resource r).

(** a share of the node was given back *)
Definition node_owned (n : nat) : ShM bool := λ s,
  (Done (bool_decide (sh_default s = Some n) || bool_decide (n ∈ sh_held s)), s).
Definition drop_node (n : nat) : ShM unit :=
  owned ← node_owned n;
  if owned : bool then mret tt
  else
    node ← get_node n;
    match node with
    | None => mret tt
    | Some x =>
        match node_session x with Some c => on_world (close_session c) | None => mret tt end ;;
        set_node n None ;;
        drop_resource (node_resource x)
    end.

(** [defaultDb_.reset()] *)
Definition reset_default : ShM unit :=
  default ← get_default;
  set_default None ;;
  match default with Some n => drop_node n | None => mret tt end.

(** [handle_.reset()], [db_.reset()] *)
Definition reset_resource : ShM unit :=
  r ← get_resource;
  set_resource None ;;
  match r with Some r => drop_resource r | None => mret tt end.

(** a caller's last pointer to the node goes away *)
Definition release (n : nat) : ShM unit := set_held (λ held, held ∖ {[n]}) ;; drop_node n.

(** what a caller may do with a node that it owns *)
Definition through {A} (n : nat) (f : Node → Eff (World event) A) : ShM unit := λ s,
  if decide (n ∈ sh_held s) then
    match sh_nodes s !! n with
    | Some x => (on_world (f x) ;; mret tt) s
    | None => (Done tt, s)
    end
  else (Done tt, s).
Definition give_back (n : nat) : ShM unit := λ s,
  if decide (n ∈ sh_held s) then release n s else (Done tt, s).
End sharing.
Arguments Backend : clear implicits.
Arguments Shared : clear implicits.
Notation ShM event Node := (Eff (Shared event Node)).

(** ** Who owns what

    The contract of a backend: the end of a session and of an object with no session free it.
    From it, between the operations of a connection, the objects that exist are those with an
    owner, each with the sessions of the nodes made from it, and none was used or freed out of
    turn. *)

Section ownership.
Context {event Node : Type} `{B : Backend event Node} (actions : list event → event → list action).

Class BackendLaws : Prop := {
  close_resource_frees m r E :
    is_Some (m !! r) → has_child r m = false →
    triple (Live actions m) (close_resource r) (λ _, Live actions (delete r m)) E;
  close_session_frees x m c E :
    node_session x = Some c → is_Some (m !! c) → has_child c m = false →
    triple (Live actions m) (close_session c) (λ _, Live actions (delete c m)) E
}.

Notation St := (Shared event Node).

(** [pend] is a node with a share under way, [spare] an object with one *)
Definition has_owner (pend : option nat) (s : St) (n : nat) : Prop :=
  sh_default s = Some n ∨ n ∈ sh_held s ∨ pend = Some n.

Definition owned (spare : option (nat * option nat)) (s : St) (o : nat) (parent : option nat) : Prop :=
  spare = Some (o, parent) ∨
  (parent = None ∧
   (sh_resource s = Some o ∨ ∃ n x, sh_nodes s !! n = Some x ∧ node_resource x = o)) ∨
  (∃ n x, sh_nodes s !! n = Some x ∧ node_session x = Some o ∧ parent = Some (node_resource x)).

Record Sound (pend : option nat) (spare : option (nat * option nat)) (s : St) : Prop := mkSound {
  so_live : ∃ m, Live actions m (sh_world s) ∧ ∀ o p, m !! o = Some p ↔ owned spare s o p;
  so_nodes : ∀ n, is_Some (sh_nodes s !! n) ↔ has_owner pend s n;
  so_sessions : ∀ n n' x x' c, sh_nodes s !! n = Some x → sh_nodes s !! n' = Some x' →
    node_session x = Some c → node_session x' = Some c → n = n';
  so_spare : ∀ c r n x, spare = Some (c, Some r) → sh_nodes s !! n = Some x → node_session x ≠ Some c;
  so_made : ∀ n, is_Some (sh_nodes s !! n) → n < sh_made s
}.

Lemma sound_new : Sound None None new_shared.
Proof.
  split; simpl.
  - exists ∅. split; [apply live_new|]. intros o p. rewrite lookup_empty. unfold owned. simpl.
    setoid_rewrite lookup_empty. naive_solver.
  - intros n. rewrite lookup_empty. unfold has_owner. simpl. split; [by intros []|set_solver].
  - intros n n' x x' c. by rewrite lookup_empty.
  - done.
  - intros n. rewrite lookup_empty. by intros [].
Qed.

(** an operation on the engine through a node *)
Lemma sound_through {A} n x (m : Eff (World event) A) :
  (∀ L, is_Some (L !! node_resource x) →
        (∀ c, node_session x = Some c → L !! c = Some (Some (node_resource x))) →
        keeps (Live actions L) m) →
  triple (λ s, Sound None None s ∧ sh_nodes s !! n = Some x) (on_world m)
    (λ _, Sound None None) (Sound None None).
Proof.
  intros Hm s [[(L & HL & Ho) Hn Hs Hsp Hmd] Hx]. unfold on_world.
  assert (Hr : L !! node_resource x = Some None).
  { apply Ho. right. left. split; [done|]. right. by exists n, x. }
  assert (Hc : ∀ c, node_session x = Some c → L !! c = Some (Some (node_resource x))).
  { intros c Hc. apply Ho. right. right. by exists n, x. }
  specialize (Hm L ltac:(by eexists) Hc (sh_world s) HL).
  destruct (m (sh_world s)) as [[y|e|] w]; [| |done]; (split; [by exists L|done..]).
Qed.

(** an operation on the engine that may make an object *)
Lemma sound_make {A} (m : Eff (World event) A) (made : A → option (nat * option nat)) s :
  (∀ L, (∀ r, sh_resource s = Some r → L !! r = Some None) →
        triple (Live actions L) m
          (λ x w, match made x with
                  | Some (o, p) => L !! o = None ∧ Live actions (<[o := p]> L) w
                  | None => Live actions L w
                  end) (Live actions L)) →
  Sound None None s →
  match on_world m s with
  | (Done x, s') => Sound None (made x) s' ∧ sh_resource s' = sh_resource s ∧
                    sh_default s' = sh_default s
  | (Throws _, s') => Sound None None s'
  | (Hangs, _) => True
  end.
Proof.
  intros Hm [(L & HL & Ho) Hn Hs Hsp Hmd]. unfold on_world.
  assert (Hr : ∀ r, sh_resource s = Some r → L !! r = Some None).
  { intros r Hr. apply Ho. right. left. split; [done|]. by left. }
  specialize (Hm L Hr (sh_world s) HL). destruct (m (sh_world s)) as [[y|e|] w]; [| |done].
  - split; [|done]. destruct (made y) as [[o p]|]; [|split; [by exists L|done..]].
    destruct Hm as [Hfresh Hlive]. split; [|done|done| |done].
    + exists (<[o := p]> L). split; [done|]. intros o' p'. rewrite lookup_insert.
      case_decide as Heq; [subst o'|].
      * split; [intros [= ->]; by left|]. intros [[= ->]|H]; [done|]. exfalso.
        assert (H' : owned None s o p') by (by right). apply Ho in H'. congruence.
      * rewrite Ho. split; (intros [H|H]; [left; congruence|by right]).
    + intros c r n x [= -> ->] Hx Hc.
      assert (H' : owned None s c (Some (node_resource x))) by (right; right; by exists n, x).
      apply Ho in H'. congruence.
  - split; [by exists L|done..].
Qed.

(** the connection keeps an object just made *)
Lemma sound_keep r s :
  sh_resource s = None → Sound None (Some (r, None)) s →
  Sound None None (snd (set_resource (Some r) s)).
Proof.
  intros Hnone [(L & HL & Ho) Hn Hs Hsp Hmd]. split; simpl; [|done..].
  exists L. split; [done|]. intros o p. rewrite Ho. unfold owned. simpl. rewrite Hnone. naive_solver.
Qed.

(** a node of an object of the connection, or of the objects just made *)
Lemma sound_make_node x spare s :
  Sound None spare s →
  match node_session x with
  | None => spare = Some (node_resource x, None) ∨
            (spare = None ∧ sh_resource s = Some (node_resource x))
  | Some c => spare = Some (c, Some (node_resource x)) ∧ sh_resource s = Some (node_resource x)
  end →
  Sound (Some (sh_made s)) None (snd (make_node x s)).
Proof.
  intros [(L & HL & Ho) Hn Hs Hsp Hmd] Hx.
  assert (Hfresh : sh_nodes s !! sh_made s = None).
  { apply eq_None_not_Some. intros H%Hmd. lia. }
  split; simpl.
  - exists L. split; [done|]. intros o p. rewrite Ho. unfold owned. simpl.
    setoid_rewrite lookup_insert_Some. split.
    + intros [Hp|[[-> [Hp|(n & y & Hy & <-)]]|(n & y & Hy & Hc & ->)]].
      * destruct (node_session x) as [c|] eqn:Ec.
        { destruct Hx as [-> _]. injection Hp as <- <-. right. right. exists (sh_made s), x. tauto. }
        destruct Hx as [->|[-> _]]; [|done]. injection Hp as <- <-. right. left. split; [done|].
        right. exists (sh_made s), x. tauto.
      * right. left. tauto.
      * right. left. split; [done|]. right. exists n, y. split; [|done]. right. split; [congruence|done].
      * right. right. exists n, y. split_and!; [|done..]. right. split; [congruence|done].
    + intros [Hp|[[-> [Hp|(n & y & [[<- <-]|[_ Hy]] & <-)]]|(n & y & [[<- <-]|[_ Hy]] & Hc & ->)]].
      * done.
      * right. left. tauto.
      * destruct (node_session x) as [c|]; [right; left; tauto|].
        destruct Hx as [->|[_ Hx]]; [by left|right; left; tauto].
      * right. left. split; [done|]. right. by exists n, y.
      * rewrite Hc in Hx. destruct Hx as [-> _]. by left.
      * right. right. by exists n, y.
  - intros n. rewrite lookup_insert_is_Some, Hn. unfold has_owner. simpl.
    split; [intros [<-|[_ [?|[?|?]]]]; tauto || done|].
    intros [H|[H|[= <-]]]; [| |tauto]; (destruct (decide (sh_made s = n)); [by left|right]; tauto).
  - intros n n' y y' c. rewrite !lookup_insert_Some.
    assert (Hne : ∀ n y, sh_nodes s !! n = Some y → node_session y = Some c → node_session x ≠ Some c).
    { intros k z Hz Hzc Hxc. rewrite Hxc in Hx. destruct Hx as [-> _].
      by eapply (Hsp c (node_resource x)). }
    intros [[<- <-]|[? Hy]] [[<- <-]|[? Hy']]; naive_solver.
  - done.
  - intros n. rewrite lookup_insert_is_Some. intros [<-|[_ H%Hmd]]; lia.
Qed.

(** the new share of a node reaches a caller *)
Lemma sound_hand_out pend n s :
  Sound pend None s → pend = Some n ∨ pend = None ∧ is_Some (sh_nodes s !! n) →
  Sound None None (snd (hand_out n s)).
Proof.
  intros [Hl Hn Hs Hsp Hmd] Hp. split; simpl; [|intros k|done..].
  - destruct Hl as (L & HL & Ho). by exists L.
  - rewrite Hn. unfold has_owner. simpl. rewrite elem_of_union, elem_of_singleton.
    destruct Hp as [->|[-> H%Hn]]; unfold has_owner in *; naive_solver.
Qed.

(** or becomes the connection's *)
Lemma sound_default n s :
  sh_default s = None → Sound (Some n) None s → Sound None None (snd (set_default (Some n) s)).
Proof.
  intros Hd [Hl Hn Hs Hsp Hmd]. split; simpl; [|intros k|done..].
  - destruct Hl as (L & HL & Ho). by exists L.
  - rewrite Hn. unfold has_owner. simpl. rewrite Hd. naive_solver.
Qed.

Context `{Laws : !BackendLaws}.

Lemma sound_drop_resource r E :
  triple (Sound None (Some (r, None))) (drop_resource r) (λ _, Sound None None) E.
Proof.
  intros s [(L & HL & Ho) Hn Hs Hsp Hmd]. unfold drop_resource, resource_owned, mbind, Eff_bind.
  destruct (bool_decide _ || existsb _ _) eqn:Eown.
  - split; [|done..]. exists L. split; [done|]. intros o p. rewrite Ho.
    assert (Howner : sh_resource s = Some r ∨ ∃ n x, sh_nodes s !! n = Some x ∧ node_resource x = r).
    { apply orb_true_iff in Eown as [H%bool_decide_eq_true|H]; [by left|right].
      apply existsb_exists in H as ([n x] & Hin%list_elem_of_In%elem_of_map_to_list & H%Nat.eqb_eq).
      by exists n, x. }
    unfold owned. split; [|naive_solver]. intros [[= <- <-]|H]; [right; left; tauto|by right].
  - apply orb_false_iff in Eown as [Hr%bool_decide_eq_false Hnone].
    assert (Hnode : ∀ n x, sh_nodes s !! n = Some x → node_resource x ≠ r).
    { intros n x Hx Heq. rewrite <-not_true_iff_false in Hnone. apply Hnone, existsb_exists.
      exists (n, x). split; [by apply list_elem_of_In, elem_of_map_to_list|by apply Nat.eqb_eq]. }
    assert (Hlr : L !! r = Some None) by (apply Ho; by left).
    assert (Hch : has_child r L = false).
    { apply has_child_false. intros c [[=]|[[[=] _]|(n & x & Hx & _ & [= Hxr])]]%Ho.
      by apply (Hnode n x). }
    pose proof (close_resource_frees L r (λ _, False) ltac:(by eexists) Hch (sh_world s) HL) as H.
    unfold on_world. destruct (close_resource r (sh_world s)) as [[[]|e|] w]; [|done..].
    split; [|done..]. simpl. exists (delete r L). split; [done|]. intros o p.
    rewrite lookup_delete_Some, Ho. unfold owned. simpl. split.
    + intros [Hne [[=]|[[-> [Hp|(n & x & Hx & <-)]]|(n & x & Hx & Hc & ->)]]]; [done|..]; right.
      * left. tauto.
      * left. split; [done|]. right. by exists n, x.
      * right. by exists n, x.
    + intros [[=]|[[-> [Hp|(n & x & Hx & <-)]]|(n & x & Hx & Hc & ->)]].
      * split; [congruence|]. right. left. tauto.
      * split; [intros Heq; by apply (Hnode n x)|]. right. left. split; [done|]. right. by exists n, x.
      * split; [|right; right; by exists n, x]. intros ->.
        assert (H' : L !! o = Some (Some (node_resource x))).
        { apply Ho. right. right. by exists n, x. }
        congruence.
Qed.

(** the node and its session are gone; its share of the object is still to be given back *)
Lemma sound_forget n x s L w :
  Sound (Some n) None s → sh_nodes s !! n = Some x → sh_default s ≠ Some n → n ∉ sh_held s →
  (∀ o p, L !! o = Some p ↔ owned None s o p) →
  Live actions (match node_session x with Some c => delete c L | None => L end) w →
  Sound None (Some (node_resource x, None))
    (mkShared (sh_resource s) (sh_default s) (partial_alter (λ _, None) n (sh_nodes s)) (sh_held s)
       (sh_made s) w).
Proof.
  intros [_ Hn Hs Hsp Hmd] Hx Hd Hh Ho Hw. change (partial_alter (λ _, None) n (sh_nodes s))
    with (delete n (sh_nodes s)). split; simpl.
  - eexists. split; [exact Hw|]. intros o p.
    assert (Hr : L !! node_resource x = Some None).
    { apply Ho. right. left. split; [done|]. right. by exists n, x. }
    assert (Hin : match node_session x with Some c => delete c L | None => L end !! o = Some p ↔
                  node_session x ≠ Some o ∧ owned None s o p).
    { rewrite <-Ho. destruct (node_session x) as [c|]; [rewrite lookup_delete_Some|]; naive_solver. }
    rewrite Hin. unfold owned. simpl. setoid_rewrite lookup_delete_Some. split.
    + intros [Hso [[=]|[[-> [Hp|(k & y & Hy & <-)]]|(k & y & Hy & Hc & ->)]]].
      * right. left. tauto.
      * destruct (decide (k = n)) as [->|]; [left; by simplify_eq|].
        right. left. split; [done|]. right. exists k, y. by split.
      * destruct (decide (k = n)) as [->|]; [by simplify_eq|]. right. right. exists k, y. by split.
    + assert (Hkeep : ∀ p, p = None → L !! o = Some p → node_session x ≠ Some o).
      { intros q -> Hq Hc. assert (H' : L !! o = Some (Some (node_resource x))).
        { apply Ho. right. right. by exists n, x. } congruence. }
      intros [[= <- <-]|[[-> [Hp|(k & y & [Hk Hy] & <-)]]|(k & y & [Hk Hy] & Hc & ->)]].
      * split; [by apply (Hkeep None)|]. right. left. split; [done|]. right. by exists n, x.
      * assert (H : owned None s o None) by (right; left; tauto).
        split; [apply (Hkeep None); [done|by apply Ho]|]. right. left. tauto.
      * assert (H : owned None s (node_resource y) None).
        { right. left. split; [done|]. right. by exists k, y. }
        split; [apply (Hkeep None); [done|by apply Ho]|]. right. left. split; [done|]. right. by exists k, y.
      * split; [|right; right; by exists k, y]. intros Hxo. apply Hk. by eapply Hs.
  - intros k. rewrite lookup_delete_is_Some, Hn. unfold has_owner. simpl.
    split; [naive_solver|]. intros [H|[H|[=]]]; (split; [intros ->; tauto|tauto]).
  - intros k k' y y' c [_ Hy]%lookup_delete_Some [_ Hy']%lookup_delete_Some. by eapply Hs.
  - done.
  - intros k [_ H%Hmd]%lookup_delete_is_Some. done.
Qed.

Lemma sound_drop_node n E : triple (Sound (Some n) None) (drop_node n) (λ _, Sound None None) E.
Proof.
  intros s Hs. unfold drop_node, node_owned, mbind, Eff_bind. pose proof (so_nodes _ _ _ Hs) as Hn.
  destruct (_ || _) eqn:Eown.
  - destruct Hs as [[L HL] _ ? ? ?]. split; [by exists L| |done..]. intros k. rewrite Hn.
    apply orb_true_iff in Eown. rewrite !bool_decide_eq_true in Eown. unfold has_owner.
    split; [|naive_solver]. intros [H|[H|[= ->]]]; naive_solver.
  - apply orb_false_iff in Eown as [Hd%bool_decide_eq_false Hh%bool_decide_eq_false].
    unfold get_node. destruct (sh_nodes s !! n) as [x|] eqn:Hx.
    2: { destruct (proj2 (Hn n)) as [? ?]; [by right; right|congruence]. }
    destruct (so_live _ _ _ Hs) as (L & HL & Ho). destruct (node_session x) as [c|] eqn:Hc.
    + assert (Hlc : L !! c = Some (Some (node_resource x))).
      { apply Ho. right. right. by exists n, x. }
      assert (Hch : has_child c L = false).
      { apply has_child_false. intros k [[=]|[[[=] _]|(m & y & Hy & _ & [= Heq])]]%Ho.
        assert (H' : L !! c = Some None).
        { apply Ho. right. left. split; [done|]. right. by exists m, y. }
        congruence. }
      pose proof (close_session_frees x L c (λ _, False) Hc ltac:(by eexists) Hch (sh_world s) HL) as H.
      unfold on_world. destruct (close_session c (sh_world s)) as [[[]|e|] w]; [|done..].
      apply sound_drop_resource. eapply (sound_forget n x s L w); try done. by rewrite Hc.
    + apply sound_drop_resource.
      eapply (sound_forget n x s L (sh_world s)); try done. by rewrite Hc.
Qed.

Lemma sound_reset_default E : triple (Sound None None) reset_default (λ _ s, Sound None None s ∧ sh_default s = None) E.
Proof.
  intros s Hs. unfold reset_default, get_default, set_default, mbind, Eff_bind.
  destruct (sh_default s) as [n|] eqn:Hd.
  - match goal with |- match drop_node n ?s' with _ => _ end => set (s0 := s') end.
    assert (H0 : Sound (Some n) None s0).
    { destruct Hs as [[L HL] Hn ? ? ?]. split; [by exists L| |done..]. intros k. simpl. rewrite Hn.
      unfold has_owner. simpl. rewrite Hd. naive_solver. }
    pose proof (sound_drop_node n E s0 H0) as H. revert H.
    assert (Hdef : ∀ x s', drop_node n s0 = (Done x, s') → sh_default s' = None).
    { intros x s'. unfold drop_node, node_owned, get_node, set_node, drop_resource, resource_owned, mbind, Eff_bind, on_world.
      destruct (_ || _); [by intros [= _ <-]|]. destruct (sh_nodes s0 !! n) as [y|]; [|by intros [= _ <-]].
      destruct (node_session y); simpl.
      - destruct (close_session _ _) as [[[]|?|] ?]; [|done..]. simpl.
        destruct (_ || _); [by intros [= _ <-]|]. destruct (close_resource _ _) as [? ?]. by intros [= _ <-].
      - destruct (_ || _); [by intros [= _ <-]|]. destruct (close_resource _ _) as [? ?]. by intros [= _ <-]. }
    destruct (drop_node n s0) as [[x|e|] s'] eqn:E1; [|done..]. intros H. split; [done|]. by eapply Hdef.
  - simpl. split; [|done]. destruct Hs as [[L HL] Hn ? ? ?]. split; [by exists L| |done..].
    intros k. simpl. rewrite Hn. unfold has_owner. simpl. by rewrite Hd.
Qed.

Lemma sound_reset_resource E : triple (Sound None None) reset_resource (λ _, Sound None None) E.
Proof.
  intros s Hs. unfold reset_resource, get_resource, set_resource, mbind, Eff_bind.
  destruct (sh_resource s) as [r|] eqn:Hr.
  - apply sound_drop_resource. destruct Hs as [(L & HL & Ho) Hn ? ? ?]. split; [|done..].
    exists L. split; [done|]. intros o p. rewrite Ho. unfold owned. simpl. rewrite Hr. naive_solver.
  - destruct Hs as [(L & HL & Ho) Hn ? ? ?]. split; [|done..]. exists L. split; [done|].
    intros o p. rewrite Ho. unfold owned. simpl. by rewrite Hr.
Qed.

Lemma sound_release n E :
  triple (λ s, Sound None None s ∧ n ∈ sh_held s) (release n) (λ _, Sound None None) E.
Proof.
  intros s [[[L HL] Hn ? ? ?] Hh]. unfold release, set_held, mbind, Eff_bind. apply sound_drop_node.
  split; [by exists L| |done..]. intros k. simpl. rewrite Hn. unfold has_owner. simpl.
  rewrite elem_of_difference, not_elem_of_singleton. destruct (decide (k = n)); naive_solver.
Qed.

Lemma keeps_through {A} n (f : Node → Eff (World event) A) :
  (∀ x L, is_Some (L !! node_resource x) →
          (∀ c, node_session x = Some c → L !! c = Some (Some (node_resource x))) →
          keeps (Live actions L) (f x)) →
  keeps (Sound None None) (through n f).
Proof.
  intros Hf s Hs. unfold through. case_decide; [|done].
  destruct (sh_nodes s !! n) as [x|] eqn:Hx; [|done].
  pose proof (sound_through n x (f x) (λ L, Hf x L) s (conj Hs Hx)) as H'.
  unfold mbind, Eff_bind. by destruct (on_world (f x) s) as [[y|e|] s'].
Qed.

Lemma keeps_give_back n : keeps (Sound None None) (give_back n).
Proof.
  intros s Hs. unfold give_back. case_decide as Hh; [|done].
  exact (sound_release n (Sound None None) s (conj Hs Hh)).
Qed.

Lemma keeps_reset_default : keeps (Sound None None) reset_default.
Proof. eapply triple_weaken; [apply sound_reset_default|done|by intros x s []|done]. Qed.

Lemma keeps_reset_resource : keeps (Sound None None) reset_resource.
Proof. apply sound_reset_resource. Qed.
End ownership.

#[export] Hint Resolve keeps_give_back keeps_reset_default keeps_reset_resource : keeps.
