(* ===== verification/ConnectionInfo.v ===== *)
(** * Connection parameters

    [include/dearsql/connection_info.hpp] and [src/connection_info.cpp]: the database and
    TLS enumerations with their string forms, the dialect families, the CSV test, and the
    connection string each driver is given. *)

From S2P Require Import Prelude.

Inductive DatabaseType :=
  | SQLITE | POSTGRESQL | MYSQL | MARIADB | REDIS | MONGODB | MSSQL | ORACLE
  | REDSHIFT | CASSANDRA | DUCKDB | TIDB | COCKROACHDB | S3.

Inductive SslMode :=
  | Disable | Allow | Prefer | Require_ | VerifyCA | VerifyFull | VerifyIdentity.

#[export] Instance DatabaseType_eq_dec : EqDecision DatabaseType.
Proof. solve_decision. Defined.
#[export] Instance SslMode_eq_dec : EqDecision SslMode.
Proof. solve_decision. Defined.

(** [a == b] on the enumeration, as a [bool] *)
Notation "a =t? b" := (bool_decide (a = b)) (at level 70) : cpp_scope.
Open Scope cpp_scope.

Record ConnectionInfo := mkConnectionInfo {
  ci_type : DatabaseType;
  ci_name : string;
  ci_path : string;
  ci_host : string;
  ci_port : Z;
  ci_database : string;
  ci_username : string;
  ci_password : string;
  ci_showAllDatabases : bool;
  ci_sslmode : SslMode;
  ci_sslCACertPath : string;
  ci_readOnly : bool
}.

Definition sslModeToString (mode : SslMode) : string :=
  match mode with
  | Disable => "disable"
  | Allow => "allow"
  | Prefer => "prefer"
  | Require_ => "require"
  | VerifyCA => "verify-ca"
  | VerifyFull => "verify-full"
  | VerifyIdentity => "verify-identity"
  end.

Definition stringToSslMode (str : string) : SslMode :=
  if (str =? "disable")%string then Disable
  else if (str =? "allow")%string then Allow
  else if (str =? "prefer")%string then Prefer
  else if (str =? "require")%string then Require_
  else if (str =? "verify-ca")%string then VerifyCA
  else if (str =? "verify-full")%string then VerifyFull
  else if (str =? "verify-identity")%string then VerifyIdentity
  else Prefer.

Definition databaseTypeToString (type : DatabaseType) : string :=
  match type with
  | SQLITE => "sqlite"
  | POSTGRESQL => "postgresql"
  | MYSQL => "mysql"
  | MARIADB => "mariadb"
  | REDIS => "redis"
  | MONGODB => "mongodb"
  | MSSQL => "mssql"
  | ORACLE => "oracle"
  | REDSHIFT => "redshift"
  | CASSANDRA => "cassandra"
  | DUCKDB => "duckdb"
  | TIDB => "tidb"
  | COCKROACHDB => "cockroachdb"
  | S3 => "s3"
  end.

Definition stringToDatabaseType (s : string) : DatabaseType :=
  if (s =? "sqlite")%string then SQLITE
  else if (s =? "postgresql")%string || (s =? "postgres")%string then POSTGRESQL
  else if (s =? "mysql")%string then MYSQL
  else if (s =? "mariadb")%string then MARIADB
  else if (s =? "redis")%string then REDIS
  else if (s =? "mongodb")%string || (s =? "mongo")%string then MONGODB
  else if (s =? "mssql")%string then MSSQL
  else if (s =? "oracle")%string then ORACLE
  else if (s =? "redshift")%string then REDSHIFT
  else if (s =? "cassandra")%string then CASSANDRA
  else if (s =? "duckdb")%string then DUCKDB
  else if (s =? "tidb")%string then TIDB
  else if (s =? "cockroachdb")%string || (s =? "cockroach")%string || (s =? "crdb")%string
    then COCKROACHDB
  else if (s =? "s3")%string then S3
  else SQLITE.

Definition isPostgresFamily (type : DatabaseType) : bool :=
  (type =t? POSTGRESQL) || (type =t? REDSHIFT) || (type =t? COCKROACHDB).

Definition isMySQLFamily (type : DatabaseType) : bool :=
  (type =t? MYSQL) || (type =t? MARIADB) || (type =t? TIDB).

(** [std::filesystem::path(p).filename()] and [.extension()] on POSIX paths *)
Fixpoint path_filename (p acc : string) : string :=
  match p with
  | EmptyString => acc
  | String c r => if (c =? "/")%char then path_filename r r else path_filename r acc
  end.

Fixpoint last_dot (s : string) (k : nat) (acc : option nat) : option nat :=
  match s with
  | EmptyString => acc
  | String c r => last_dot r (S k) (if (c =? ".")%char then Some k else acc)
  end.

Definition path_extension (p : string) : string :=
  let f := path_filename p p in
  if (f =? ".")%string || (f =? "..")%string then EmptyString
  else match last_dot f 0 None with
       | None | Some 0 => EmptyString
       | Some k => sdrop k f
       end.

Definition isCsvPath (path : string) : bool :=
  (smap tolower (path_extension path) =? ".csv")%string.

(** ** Escaping *)

Fixpoint escape_libpq_chars (value : string) : string :=
  match value with
  | EmptyString => EmptyString
  | String ch r =>
      if (ch =? squote)%char || (ch =? "\")%char
      then String "\" (String ch (escape_libpq_chars r))
      else String ch (escape_libpq_chars r)
  end.

Definition escapeLibpqValue (value : string) : string :=
  str1 squote +:+ escape_libpq_chars value +:+ str1 squote.

Definition appendLibpqKeyword (connStr key value : string) : string :=
  connStr +:+ (" " +:+ key +:+ "=" +:+ escapeLibpqValue value).

Definition hex_digit (n : N) : ascii := char_at "0123456789ABCDEF" (N.to_nat n).

Definition uri_plain (ch : ascii) : bool :=
  isalnum ch || (ch =? "-")%char || (ch =? "_")%char || (ch =? ".")%char || (ch =? "~")%char.

Fixpoint uriEncode (value : string) : string :=
  match value with
  | EmptyString => EmptyString
  | String ch r =>
      if uri_plain ch then String ch (uriEncode r)
      else String "%" (String (hex_digit (N.shiftr (code ch) 4))
                         (String (hex_digit (N.land (code ch) 15)) (uriEncode r)))
  end.

(** ** Connection strings *)

Definition to_string (n : Z) : string := pretty n.

Definition postgres_conn_string (ci : ConnectionInfo) (dbName : string) : string :=
  let connStr := "host=" +:+ escapeLibpqValue (ci_host ci) +:+ " port=" +:+ to_string (ci_port ci) in
  let connStr := connStr +:+ " connect_timeout=10" in
  let connStr :=
    if negb (sempty dbName) then appendLibpqKeyword connStr "dbname" dbName
    else if negb (sempty (ci_database ci)) then appendLibpqKeyword connStr "dbname" (ci_database ci)
    else appendLibpqKeyword connStr "dbname"
           (if ci_type ci =t? REDSHIFT then "dev"
            else if ci_type ci =t? COCKROACHDB then "defaultdb" else "postgres") in
  let connStr :=
    if negb (sempty (ci_username ci)) then appendLibpqKeyword connStr "user" (ci_username ci)
    else connStr in
  let connStr :=
    if negb (sempty (ci_password ci)) then appendLibpqKeyword connStr "password" (ci_password ci)
    else connStr in
  let connStr := connStr +:+ (" sslmode=" +:+ sslModeToString (ci_sslmode ci)) in
  if ((ci_sslmode ci =t? VerifyCA) || (ci_sslmode ci =t? VerifyFull)) &&
     negb (sempty (ci_sslCACertPath ci))
  then appendLibpqKeyword connStr "sslrootcert" (ci_sslCACertPath ci)
  else connStr.

Definition mysql_conn_string (ci : ConnectionInfo) (dbName : string) : string :=
  let targetDb := if negb (sempty dbName) then dbName else ci_database ci in
  let connStr := "host=" +:+ ci_host ci +:+ " port=" +:+ to_string (ci_port ci) +:+
                 " dbname=" +:+ targetDb in
  let connStr := if negb (sempty (ci_username ci)) then connStr +:+ (" user=" +:+ ci_username ci)
                 else connStr in
  if negb (sempty (ci_password ci)) then connStr +:+ (" password=" +:+ ci_password ci)
  else connStr.

Definition mongo_conn_string (ci : ConnectionInfo) (dbName : string) : string :=
  let connStr := "mongodb://" in
  let connStr :=
    if negb (sempty (ci_username ci)) then
      let connStr := connStr +:+ uriEncode (ci_username ci) in
      let connStr :=
        if negb (sempty (ci_password ci)) then connStr +:+ (":" +:+ uriEncode (ci_password ci))
        else connStr in
      connStr +:+ "@"
    else connStr in
  let connStr := connStr +:+ (ci_host ci +:+ ":" +:+ to_string (ci_port ci)) in
  let connStr :=
    if negb (sempty dbName) then connStr +:+ ("/" +:+ uriEncode dbName)
    else if negb (sempty (ci_database ci)) then connStr +:+ ("/" +:+ uriEncode (ci_database ci))
    else connStr in
  if (ci_sslmode ci =t? Require_) || (ci_sslmode ci =t? VerifyCA) || (ci_sslmode ci =t? VerifyFull)
  then
    let connStr := connStr +:+ (if find_char "?" connStr 0 then "&" else "?") in
    let connStr := connStr +:+ "tls=true" in
    if negb (sempty (ci_sslCACertPath ci))
    then connStr +:+ ("&tlsCAFile=" +:+ uriEncode (ci_sslCACertPath ci))
    else if ci_sslmode ci =t? Require_ then connStr +:+ "&tlsAllowInvalidCertificates=true"
    else connStr
  else connStr.

Definition host_port (ci : ConnectionInfo) : string :=
  ci_host ci +:+ ":" +:+ to_string (ci_port ci).

Definition buildConnectionString (ci : ConnectionInfo) (dbName : string) : string :=
  match ci_type ci with
  | SQLITE | DUCKDB => ci_path ci
  | COCKROACHDB | REDSHIFT | POSTGRESQL => postgres_conn_string ci dbName
  | MYSQL | TIDB | MARIADB => mysql_conn_string ci dbName
  | REDIS => "redis://" +:+ ci_host ci +:+ ":" +:+ to_string (ci_port ci)
  | MONGODB => mongo_conn_string ci dbName
  | MSSQL => host_port ci
  | ORACLE => "//" +:+ ci_host ci +:+ ":" +:+ to_string (ci_port ci) +:+ "/" +:+ ci_database ci
  | CASSANDRA => host_port ci
  | S3 => host_port ci
  end.

(** ** Reference readers

    The documented grammars the strings are written for: libpq's keyword/value form (values
    bare up to a space, or single-quoted with backslash escapes) and percent-decoding. *)

Inductive conninfo_mode :=
  | InKey (k : string)
  | AtValue (k : string)
  | InQuoted (k v : string)
  | InEscape (k v : string)
  | InBare (k v : string).

Fixpoint read_conninfo (m : conninfo_mode) (s : string) (acc : list (string * string))
    : option (list (string * string)) :=
  match s with
  | EmptyString =>
      match m with
      | InKey "" => Some acc
      | AtValue k => Some (acc ++ [(k, "")])
      | InBare k v => Some (acc ++ [(k, v)])
      | _ => None
      end
  | String c r =>
      match m with
      | InKey k =>
          if (c =? "=")%char then read_conninfo (AtValue k) r acc
          else if (c =? " ")%char && sempty k then read_conninfo (InKey k) r acc
          else read_conninfo (InKey (k +:+ str1 c)) r acc
      | AtValue k =>
          if (c =? squote)%char then read_conninfo (InQuoted k "") r acc
          else if (c =? " ")%char then read_conninfo (InKey "") r (acc ++ [(k, "")])
          else read_conninfo (InBare k (str1 c)) r acc
      | InQuoted k v =>
          if (c =? squote)%char then read_conninfo (InKey "") r (acc ++ [(k, v)])
          else if (c =? "\")%char then read_conninfo (InEscape k v) r acc
          else read_conninfo (InQuoted k (v +:+ str1 c)) r acc
      | InEscape k v => read_conninfo (InQuoted k (v +:+ str1 c)) r acc
      | InBare k v =>
          if (c =? " ")%char then read_conninfo (InKey "") r (acc ++ [(k, v)])
          else read_conninfo (InBare k (v +:+ str1 c)) r acc
      end
  end.

Definition hex_value (c : ascii) : option N :=
  if isdigit c then Some (code c - 48)%N
  else if between "A" "F" c then Some (code c - 55)%N else None.

Fixpoint uri_decode (s : string) : option string :=
  match s with
  | EmptyString => Some EmptyString
  | String c r =>
      if (c =? "%")%char then
        match r with
        | String h (String l r') =>
            match hex_value h, hex_value l, uri_decode r' with
            | Some a, Some b, Some t => Some (String (ascii_of_N (16 * a + b)) t)
            | _, _, _ => None
            end
        | _ => None
        end
      else String c <$> uri_decode r
  end.

(** the settings a PostgreSQL-family connection string carries *)
Definition conninfo_settings (ci : ConnectionInfo) (dbName : string) : list (string * string) :=
  [("host", ci_host ci); ("port", to_string (ci_port ci)); ("connect_timeout", "10");
   ("dbname", if negb (sempty dbName) then dbName
              else if negb (sempty (ci_database ci)) then ci_database ci
              else match ci_type ci with
                   | REDSHIFT => "dev" | COCKROACHDB => "defaultdb" | _ => "postgres" end)] ++
  (if sempty (ci_username ci) then [] else [("user", ci_username ci)]) ++
  (if sempty (ci_password ci) then [] else [("password", ci_password ci)]) ++
  [("sslmode", sslModeToString (ci_sslmode ci))] ++
  (match ci_sslmode ci with
   | VerifyCA | VerifyFull =>
       if sempty (ci_sslCACertPath ci) then [] else [("sslrootcert", ci_sslCACertPath ci)]
   | _ => []
   end).

(** ** Properties *)

Lemma read_quoted k v x rest acc :
  read_conninfo (InQuoted k v) (escape_libpq_chars x +:+ String squote rest) acc =
  read_conninfo (InKey "") rest (acc ++ [(k, v +:+ x)]).
Proof.
  revert v. induction x as [|c x IH]; intros v; [by str_simpl|]. simpl escape_libpq_chars.
  destruct ((c =? squote)%char || (c =? "\")%char) eqn:E; rewrite !sapp_cons.
  - simpl read_conninfo. rewrite IH. by str_simpl.
  - apply orb_false_iff in E as [E1 E2]. simpl read_conninfo. rewrite E1, E2, IH. by str_simpl.
Qed.

Lemma read_quoted_value k x rest acc :
  read_conninfo (AtValue k) (escapeLibpqValue x +:+ rest) acc =
  read_conninfo (InKey "") rest (acc ++ [(k, x)]).
Proof.
  unfold escapeLibpqValue. str_simpl. simpl read_conninfo. apply read_quoted.
Qed.

Definition bare_char (c : ascii) : bool := negb (c =? " ")%char && negb (c =? squote)%char.

(** what follows a bare value: the end, or a space and more settings *)
Definition after_bare (rest : string) : Prop :=
  match rest with EmptyString => True | String c _ => c = " "%char end.

Lemma read_bare k v x rest acc :
  sall bare_char x = true → after_bare rest →
  read_conninfo (InBare k v) (x +:+ rest) acc =
  read_conninfo (InKey "") rest (acc ++ [(k, v +:+ x)]).
Proof.
  intros Hx Hr. revert v Hx. induction x as [|c x IH]; intros v; simpl sall.
  - intros _. str_simpl. destruct rest as [|c r]; [done|]. simpl in Hr. by subst c.
  - unfold bare_char at 1. rewrite !andb_true_iff, !negb_true_iff. intros [[E _] Hx].
    rewrite sapp_cons. simpl. rewrite E, IH by done. by str_simpl.
Qed.

Lemma read_bare_value k x rest acc :
  sall bare_char x = true → after_bare rest →
  read_conninfo (AtValue k) (x +:+ rest) acc =
  read_conninfo (InKey "") rest (acc ++ [(k, x)]).
Proof.
  intros Hx Hr. destruct x as [|c x].
  - str_simpl. destruct rest as [|c r]; [done|]. simpl in Hr. by subst c.
  - simpl in Hx. apply andb_true_iff in Hx as [Hc Hx]. pose proof Hc as Hc'.
    unfold bare_char in Hc'. rewrite andb_true_iff, !negb_true_iff in Hc'.
    destruct Hc' as [E1 E2]. rewrite sapp_cons. simpl. rewrite E1, E2.
    by rewrite read_bare by done.
Qed.

Lemma pretty_bare (z : Z) : sall bare_char (to_string z) = true.
Proof.
  eapply sall_impl, pretty_Z_chars. intros c Hc.
  assert (H : implb (num_char c) (bare_char c) = true) by by_bytes c.
  by rewrite Hc in H.
Qed.

(** the piece [p] of a string reads as the settings [l] *)
Definition reads (p : string) (l : list (string * string)) : Prop :=
  after_bare p ∧
  ∀ rest acc, after_bare rest →
    read_conninfo (InKey "") (p +:+ rest) acc = read_conninfo (InKey "") rest (acc ++ l).

Lemma reads_nil : reads "" [].
Proof. split; [done|]. intros. by rewrite sapp_nil_l, app_nil_r. Qed.

Lemma reads_app p q l l' : reads p l → reads q l' → reads (p +:+ q) (l ++ l').
Proof.
  intros [Hp Rp] [Hq Rq]. split; [by destruct p|]. intros rest acc Hr.
  rewrite sapp_assoc, Rp, Rq, <-app_assoc; [done..|]. by destruct q.
Qed.

Lemma reads_if (c : bool) p l : reads p l → reads (if c then p else "") (if c then l else []).
Proof. destruct c; [done|]. intros _. apply reads_nil. Qed.

Lemma reads_if_not (c : bool) p l :
  reads p l → reads (if negb c then p else "") (if c then [] else l).
Proof. destruct c; [|done]. intros _. apply reads_nil. Qed.

Lemma sslMode_bare m : sall bare_char (sslModeToString m) = true.
Proof. by destruct m. Qed.

Definition key_char (c : ascii) : bool := negb (c =? " ")%char && negb (c =? "=")%char.

Lemma read_key k key v acc :
  sall key_char key = true →
  read_conninfo (InKey k) (key +:+ "=" +:+ v) acc = read_conninfo (AtValue (k +:+ key)) v acc.
Proof.
  revert k. induction key as [|c key IH]; intros k; simpl sall.
  - intros _. by str_simpl.
  - unfold key_char at 1. rewrite !andb_true_iff, !negb_true_iff. intros [[E1 E2] Hk].
    rewrite sapp_cons. simpl. rewrite E1, E2. simpl. rewrite IH by done. by str_simpl.
Qed.

Lemma read_space r acc : read_conninfo (InKey "") (" " +:+ r) acc = read_conninfo (InKey "") r acc.
Proof. done. Qed.

Lemma reads_quoted key v :
  sall key_char key = true →
  reads (" " +:+ key +:+ "=" +:+ escapeLibpqValue v) [(key, v)].
Proof.
  split; [done|]. intros rest acc Hr. rewrite !sapp_assoc, read_space, read_key by done.
  by rewrite read_quoted_value, sapp_nil_l.
Qed.

Lemma reads_bare key v :
  sall key_char key = true → sall bare_char v = true →
  reads (" " +:+ key +:+ "=" +:+ v) [(key, v)].
Proof.
  split; [done|]. intros rest acc Hr. rewrite !sapp_assoc, read_space, read_key by done.
  by rewrite read_bare_value, sapp_nil_l.
Qed.

(** the string as a sequence of settings, the first one without its leading space *)
Lemma postgres_conn_pieces ci dbName :
  " " +:+ postgres_conn_string ci dbName =
  (" " +:+ "host" +:+ "=" +:+ escapeLibpqValue (ci_host ci)) +:+
  (" " +:+ "port" +:+ "=" +:+ to_string (ci_port ci)) +:+
  (" " +:+ "connect_timeout" +:+ "=" +:+ "10") +:+
  (" " +:+ "dbname" +:+ "=" +:+ escapeLibpqValue
     (if negb (sempty dbName) then dbName
      else if negb (sempty (ci_database ci)) then ci_database ci
      else match ci_type ci with
           | REDSHIFT => "dev" | COCKROACHDB => "defaultdb" | _ => "postgres" end)) +:+
  (if negb (sempty (ci_username ci))
   then " " +:+ "user" +:+ "=" +:+ escapeLibpqValue (ci_username ci) else "") +:+
  (if negb (sempty (ci_password ci))
   then " " +:+ "password" +:+ "=" +:+ escapeLibpqValue (ci_password ci) else "") +:+
  (" " +:+ "sslmode" +:+ "=" +:+ sslModeToString (ci_sslmode ci)) +:+
  (if match ci_sslmode ci with VerifyCA | VerifyFull => true | _ => false end &&
      negb (sempty (ci_sslCACertPath ci))
   then " " +:+ "sslrootcert" +:+ "=" +:+ escapeLibpqValue (ci_sslCACertPath ci) else "").
Proof.
  unfold postgres_conn_string, appendLibpqKeyword. rewrite !sapp_if.
  replace ((ci_sslmode ci =t? VerifyCA) || (ci_sslmode ci =t? VerifyFull))
    with match ci_sslmode ci with VerifyCA | VerifyFull => true | _ => false end
    by (by destruct (ci_sslmode ci)).
  destruct (sempty dbName), (sempty (ci_database ci)); simpl negb; cbv iota;
    rewrite !sapp_assoc; try done. by destruct (ci_type ci).
Qed.

(** C35: the PostgreSQL-family connection string, read back with libpq's documented grammar,
    yields exactly the intended settings: no host, database, user, password or path, whatever
    bytes it holds, can end its value early or add a setting of its own. *)
Theorem conninfo_roundtrip (ci : ConnectionInfo) (dbName : string) :
  isPostgresFamily (ci_type ci) = true →
  read_conninfo (InKey "") (buildConnectionString ci dbName) [] =
  Some (conninfo_settings ci dbName).
Proof.
  intros Hpg.
  transitivity (read_conninfo (InKey "") (" " +:+ postgres_conn_string ci dbName) []).
  { rewrite read_space. unfold buildConnectionString. by destruct (ci_type ci). }
  enough (reads (" " +:+ postgres_conn_string ci dbName) (conninfo_settings ci dbName)) as [_ R].
  { specialize (R "" []). rewrite sapp_nil_r in R. by apply R. }
  rewrite postgres_conn_pieces. unfold conninfo_settings.
  apply (reads_app _ _ [_]); [by apply reads_quoted|].
  apply (reads_app _ _ [_]); [by apply reads_bare, pretty_bare|].
  apply (reads_app _ _ [_]); [by apply reads_bare|].
  apply (reads_app _ _ [_]); [by apply reads_quoted|].
  apply reads_app; [by apply reads_if_not, reads_quoted|].
  apply reads_app; [by apply reads_if_not, reads_quoted|].
  apply (reads_app _ _ [_]); [by apply reads_bare, sslMode_bare|].
  destruct (ci_sslmode ci); try apply reads_nil; by apply reads_if_not, reads_quoted.
Qed.

Definition sample_connection (type : DatabaseType) : ConnectionInfo :=
  mkConnectionInfo type "prod" "" "db.example" 5432 "" "o'brien" "p\w' dbname=x" false
    VerifyFull "/etc/ca.pem" false.

Lemma conninfo_roundtrip_witness :
  read_conninfo (InKey "") (buildConnectionString (sample_connection COCKROACHDB) "") [] =
  Some (conninfo_settings (sample_connection COCKROACHDB) "").
Proof. apply (conninfo_roundtrip (sample_connection COCKROACHDB) ""). reflexivity. Defined.

(** percent-encoding loses nothing: decoding an encoded user, password, database or
    path gives it back, and the encoded form holds only unreserved bytes and [%XX] escapes,
    so it cannot introduce a URI delimiter. *)
Lemma uriEncode_roundtrip (value : string) :
  uri_decode (uriEncode value) = Some value ∧
  sall (λ c, uri_plain c || (c =? "%")%char) (uriEncode value) = true.
Proof.
  induction value as [|c v [IH1 IH2]]; [done|]. simpl. destruct (uri_plain c) eqn:E; simpl.
  - assert (H : implb (uri_plain c) (negb (c =? "%")%char) = true) by by_bytes c.
    rewrite E in H. apply negb_true_iff in H. by rewrite H, IH1, E.
  - set (h := hex_digit (N.shiftr (code c) 4)). set (l := hex_digit (N.land (code c) 15)).
    assert (H : match hex_value h, hex_value l with
                | Some a, Some b => (ascii_of_N (16 * a + b) =? c)%char
                | _, _ => false end && uri_plain h && uri_plain l = true)
      by (subst h l; by_bytes c).
    apply andb_true_iff in H as [[H Hh]%andb_true_iff Hl]. rewrite Hh, Hl.
    destruct (hex_value h), (hex_value l); try done.
    apply char_eqb_true in H. rewrite IH1, H. done.
Qed.

(** the type and TLS-mode names round-trip, so a saved connection reopens with the same
    backend and the same TLS mode. *)
Lemma enum_names_roundtrip (type : DatabaseType) (mode : SslMode) :
  stringToDatabaseType (databaseTypeToString type) = type ∧
  stringToSslMode (sslModeToString mode) = mode.
Proof. split; [by destruct type|by destruct mode]. Qed.

(** a MongoDB connection in the strictest mode is opened like one with TLS disabled *)
Lemma mongo_verify_identity_plain ci dbName :
  ci_type ci = MONGODB → ci_sslmode ci = VerifyIdentity →
  buildConnectionString ci dbName =
  buildConnectionString (mkConnectionInfo (ci_type ci) (ci_name ci) (ci_path ci) (ci_host ci)
    (ci_port ci) (ci_database ci) (ci_username ci) (ci_password ci) (ci_showAllDatabases ci)
    Disable (ci_sslCACertPath ci) (ci_readOnly ci)) dbName.
Proof.
  intros Ht Hm. unfold buildConnectionString, mongo_conn_string. cbn. by rewrite Ht, Hm.
Qed.
