(* ===== verification/DdlUtils.v ===== *)
(** * DDL helpers

    [include/dearsql/ddl_utils.hpp]: trimming, column-type inference, quote escaping, token
    and constraint names. *)

From S2P Require Import Prelude.

Record ColumnType := mkColumnType { ct_type : string; ct_precision : Z; ct_scale : Z }.

Definition trim (value : string) : string := rstrip isspace (lstrip isspace value).

Definition toUpper (value : string) : string := smap toupper value.

Definition parsePrecisionScale (type : string) : Z * Z :=
  match find_char "(" type 0 with
  | None => (0, 0)%Z
  | Some open =>
      match find_char ")" type (open + 1) with
      | None => (0, 0)%Z
      | Some close =>
          if decide (close <= open + 1) then (0, 0)%Z
          else
            let inside := substr type (open + 1) (close - open - 1) in
            let inside := sfilter (λ ch, negb (isspace ch)) inside in
            match find_char "," inside 0 with
            | None =>
                match stoi inside with Some p => (p, 0)%Z | None => (0, 0)%Z end
            | Some comma =>
                match stoi (substr inside 0 comma), stoi (sdrop (comma + 1) inside) with
                | Some p, Some s => (p, s)
                | _, _ => (0, 0)%Z
                end
            end
      end
  end.

Definition has_token (normalized token : string) : bool :=
  if find_str token normalized 0 then true else false.

Definition inferColumnType (rawType : string) : ColumnType :=
  let normalized := toUpper (trim rawType) in
  let '(precision, scale) := parsePrecisionScale normalized in
  let has := has_token normalized in
  let type :=
    if has "TINYINT" || has "SMALLINT" then "INTEGER"
    else if has "BIGINT" then "BIGINT"
    else if has "INT" || has "INTEGER" then "INTEGER"
    else if has "BOOL" || has "BOOLEAN" then "INTEGER"
    else if has "DOUBLE" || has "FLOAT" || has "REAL" then "REAL"
    else if has "DECIMAL" || has "NUMERIC" then "REAL"
    else if has "DATE" || has "TIME" then "TEXT"
    else if has "BLOB" || has "BYTEA" || has "BINARY" then "BLOB"
    else if has "CHAR" || has "TEXT" || has "CLOB" || has "UUID" || has "JSON" then "TEXT"
    else "TEXT" in
  mkColumnType type precision scale.

Fixpoint joinColumnNames_from (i : nat) (size : nat) (names : list string) (joined : string)
    : string :=
  match names with
  | [] => joined
  | n :: r =>
      let joined := joined +:+ n in
      let joined := if decide (i + 1 < size) then joined +:+ ", " else joined in
      joinColumnNames_from (S i) size r joined
  end.
Definition joinColumnNames (names : list string) : string :=
  joinColumnNames_from 0 (length names) names "".

Definition escapeSingleQuotes (value : string) : string := double_char squote value.

Definition isSafeSqlToken (input : string) : bool :=
  if sempty input then false
  else sall (λ ch, isalnum ch || (ch =? "_")%char) input.

Definition makeConstraintName (prefix tableName : string) : string :=
  smap (λ c, if (c =? ".")%char then "_"%char else c) (prefix +:+ tableName).

Example inferColumnType_decimal :
  inferColumnType " decimal ( 10 , 2 ) " = mkColumnType "REAL" 10 2.
Proof. reflexivity. Qed.
Example inferColumnType_overflow :
  inferColumnType "varchar(99999999999)" = mkColumnType "TEXT" 0 0.
Proof. reflexivity. Qed.

(** ** Properties *)

Lemma joinColumnNames_from_spec i size names joined :
  size = i + length names →
  joinColumnNames_from i size names joined = joined +:+ sjoin ", " names.
Proof.
  revert i joined. induction names as [|n [|m r] IH]; intros i joined Hs; simpl in Hs.
  - simpl. by rewrite sapp_nil_r.
  - simpl. by rewrite decide_False by lia.
  - change (joinColumnNames_from (S i) size (m :: r)
      (if decide (i + 1 < size) then (joined +:+ n) +:+ ", " else joined +:+ n) =
      joined +:+ n +:+ ", " +:+ sjoin ", " (m :: r)).
    rewrite decide_True by lia. rewrite IH by (simpl; lia). by rewrite !sapp_assoc.
Qed.

(** the comma-separated list the loop builds is the plain join *)
Lemma joinColumnNames_join names : joinColumnNames names = sjoin ", " names.
Proof. unfold joinColumnNames. by rewrite joinColumnNames_from_spec. Qed.
