(* ===== verification/SqlBuilder.v ===== *)
(** * Dialect SQL builders

    [include/dearsql/sql_builder.hpp] and [src/sql_builder.cpp].  The abstract class is the
    record [ISQLBuilder] of its virtual methods; [base_*] are the default bodies, over the
    virtual [quoteIdentifier] they call; each subclass is a value of the record that keeps or
    overrides them, and [createTable] / [tableDdl] / [countRows] / ... are the non-virtual
    methods, over any builder. *)

From S2P Require Import Prelude Types ConnectionInfo DdlUtils.

Definition autoIncrementClause (type : DatabaseType) : string :=
  match type with
  | MYSQL | MARIADB | TIDB => " AUTO_INCREMENT"
  | SQLITE => " AUTOINCREMENT"
  | MSSQL => " IDENTITY(1,1)"
  | ORACLE => " GENERATED ALWAYS AS IDENTITY"
  | _ => ""
  end.

Definition blank (c : ascii) : bool := (c =? " ")%char || (c =? "009")%char.

Definition normalizeTypeName (type : string) : string :=
  let lower := smap tolower type in
  let lower := match find_char "(" lower 0 with Some p => substr lower 0 p | None => lower end in
  let lower := match find_char " " lower 0 with Some p => substr lower 0 p | None => lower end in
  if sall blank lower then "" else rstrip blank (lstrip blank lower).

Definition isIntegerType (type : string) : bool :=
  let lower := normalizeTypeName type in
  (lower =? "integer")%string || (lower =? "int")%string || (lower =? "bigint")%string ||
  (lower =? "smallint")%string || (lower =? "tinyint")%string || (lower =? "mediumint")%string.

Definition serialTypeForColumn (type : string) : string :=
  let lower := normalizeTypeName type in
  if (lower =? "bigint")%string then "BIGSERIAL"
  else if (lower =? "smallint")%string then "SMALLSERIAL"
  else "SERIAL".

Definition supportsAutoIncrement (dbType : DatabaseType) (columnType : string) : bool :=
  if dbType =t? DUCKDB then false
  else if dbType =t? SQLITE then
    (normalizeTypeName columnType =? "integer")%string
  else if dbType =t? ORACLE then
    let lower := normalizeTypeName columnType in
    (lower =? "number")%string || isIntegerType lower
  else isIntegerType columnType.

(** ** The abstract builder *)

Record ISQLBuilder := mkBuilder {
  databaseType : DatabaseType;
  quoteIdentifier : string → string;
  addColumn : string → Column → string;
  dropColumn : string → string → string;
  selectAll : Table → string → string → Z → Z → string;
  columnNames : Table → string;
  renameTable : string → string → string → string;
  dropTable : string → string → string;
  truncateTable : string → string → string;
  renameColumn : string → string → string → string;
  alterColumn : string → string → Column → string
}.

(** [quoteIdentifier] of the base class, MySQL and MSSQL *)
Definition quote_double (identifier : string) : string :=
  str1 dquote +:+ double_char dquote identifier +:+ str1 dquote.
Definition quote_backtick (identifier : string) : string :=
  "`" +:+ double_char "`" identifier +:+ "`".
Definition quote_bracket (identifier : string) : string :=
  "[" +:+ double_char "]" identifier +:+ "]".

Section base.
Context (q : string → string).

Definition qualifiedRef (schema tableName : string) : string :=
  if sempty schema then q tableName else q schema +:+ "." +:+ q tableName.

Definition qualifiedName_of (table : Table) : string :=
  if sempty (tbl_schema table) then q (tbl_name table)
  else q (tbl_schema table) +:+ "." +:+ q (tbl_name table).

Definition base_selectAll (table : Table) (whereClause orderByClause : string)
    (limit offset : Z) : string :=
  let sql := "SELECT * FROM " +:+ qualifiedName_of table in
  let sql := if negb (sempty whereClause) then sql +:+ (" WHERE " +:+ whereClause) else sql in
  let sql := if negb (sempty orderByClause) then sql +:+ (" ORDER BY " +:+ orderByClause)
             else sql in
  sql +:+ (" LIMIT " +:+ to_string limit +:+ " OFFSET " +:+ to_string offset).

Definition base_renameTable (schema oldName newName : string) : string :=
  "ALTER TABLE " +:+ qualifiedRef schema oldName +:+ " RENAME TO " +:+ q newName.

Definition base_dropTable (schema tableName : string) : string :=
  "DROP TABLE " +:+ qualifiedRef schema tableName.

Definition base_truncateTable (schema tableName : string) : string :=
  "TRUNCATE TABLE " +:+ qualifiedRef schema tableName.

Definition base_renameColumn (qualifiedTable oldColumnName newColumnName : string) : string :=
  "ALTER TABLE " +:+ qualifiedTable +:+ " RENAME COLUMN " +:+ q oldColumnName +:+
  " TO " +:+ q newColumnName.

Definition base_alterColumn (qualifiedTable oldColumnName : string) (newColumn : Column)
    : string :=
  let col := q (col_name newColumn) in
  let statements :=
    ["ALTER TABLE " +:+ qualifiedTable +:+ " ALTER COLUMN " +:+ col +:+ " TYPE " +:+
       col_type newColumn;
     "ALTER TABLE " +:+ qualifiedTable +:+ " ALTER COLUMN " +:+ col +:+ " " +:+
       (if col_isNotNull newColumn then "SET NOT NULL" else "DROP NOT NULL")] in
  let statements := statements ++
    [if negb (sempty (col_defaultValue newColumn))
     then "ALTER TABLE " +:+ qualifiedTable +:+ " ALTER COLUMN " +:+ col +:+ " SET DEFAULT " +:+
            col_defaultValue newColumn
     else "ALTER TABLE " +:+ qualifiedTable +:+ " ALTER COLUMN " +:+ col +:+ " DROP DEFAULT"] in
  let statements :=
    if negb (sempty (col_comment newColumn)) then
      statements ++ ["COMMENT ON COLUMN " +:+ qualifiedTable +:+ "." +:+ col +:+ " IS '" +:+
                     escapeSingleQuotes (col_comment newColumn) +:+ "'"]
    else statements in
  join_loop "; " 0 statements "".

(** [ALTER TABLE t DROP COLUMN c], the same text in six subclasses *)
Definition plain_dropColumn (qualifiedTable columnName : string) : string :=
  "ALTER TABLE " +:+ qualifiedTable +:+ " DROP COLUMN " +:+ q columnName.

End base.

(** [if (cond) sql += text;] *)
Definition append_if (cond : bool) (text sql : string) : string :=
  if cond then sql +:+ text else sql.

(** ** PostgreSQL *)

Definition pg_addColumn (qualifiedTable : string) (column : Column) : string :=
  let colType := if col_isAutoIncrement column then serialTypeForColumn (col_type column)
                 else col_type column in
  let sql := "ALTER TABLE " +:+ qualifiedTable +:+ " ADD COLUMN " +:+
             quote_double (col_name column) +:+ " " +:+ colType in
  let sql := append_if (col_isNotNull column) " NOT NULL" sql in
  let sql := append_if (col_isUnique column) " UNIQUE" sql in
  let sql := append_if (negb (sempty (col_defaultValue column)))
               (" DEFAULT " +:+ col_defaultValue column) sql in
  append_if (negb (sempty (col_comment column)))
    ("; COMMENT ON COLUMN " +:+ qualifiedTable +:+ "." +:+ quote_double (col_name column) +:+
     " IS '" +:+ escapeSingleQuotes (col_comment column) +:+ "'") sql.

Definition pg_columnNames (table : Table) : string :=
  let schema := if sempty (tbl_schema table) then "public" else tbl_schema table in
  "SELECT a.attname FROM pg_catalog.pg_attribute a " +:+
  "JOIN pg_catalog.pg_class c ON a.attrelid = c.oid " +:+
  "JOIN pg_catalog.pg_namespace n ON c.relnamespace = n.oid " +:+
  "WHERE n.nspname = '" +:+ escapeSingleQuotes schema +:+ "' AND c.relname = '" +:+
  escapeSingleQuotes (tbl_name table) +:+ "' " +:+
  "AND a.attnum > 0 AND NOT a.attisdropped " +:+
  "ORDER BY a.attnum".

Definition pg_truncateTable (schema tableName : string) : string :=
  "TRUNCATE TABLE ONLY " +:+ qualifiedRef quote_double schema tableName.

Definition PostgreSQLBuilder : ISQLBuilder := {|
  databaseType := POSTGRESQL;
  quoteIdentifier := quote_double;
  addColumn := pg_addColumn;
  dropColumn := plain_dropColumn quote_double;
  selectAll := base_selectAll quote_double;
  columnNames := pg_columnNames;
  renameTable := base_renameTable quote_double;
  dropTable := base_dropTable quote_double;
  truncateTable := pg_truncateTable;
  renameColumn := base_renameColumn quote_double;
  alterColumn := base_alterColumn quote_double
|}.

(** ** MySQL *)

Definition mysql_renameTable (schema oldName newName : string) : string :=
  "RENAME TABLE " +:+ qualifiedRef quote_backtick schema oldName +:+ " TO " +:+
  quote_backtick newName.

Definition mysql_alterColumn (qualifiedTable oldColumnName : string) (newColumn : Column)
    : string :=
  let sql := "ALTER TABLE " +:+ qualifiedTable +:+ " MODIFY COLUMN " +:+
             quote_backtick (col_name newColumn) +:+ " " +:+ col_type newColumn in
  let sql := append_if (col_isNotNull newColumn) " NOT NULL" sql in
  let sql := append_if (col_isAutoIncrement newColumn) (autoIncrementClause MYSQL) sql in
  let sql := append_if (negb (sempty (col_defaultValue newColumn)))
               (" DEFAULT " +:+ col_defaultValue newColumn) sql in
  append_if (negb (sempty (col_comment newColumn)))
    (" COMMENT '" +:+ escapeSingleQuotes (col_comment newColumn) +:+ "'") sql.

Definition mysql_addColumn (qualifiedTable : string) (column : Column) : string :=
  let sql := "ALTER TABLE " +:+ qualifiedTable +:+ " ADD COLUMN " +:+
             quote_backtick (col_name column) +:+ " " +:+ col_type column in
  let sql := append_if (col_isNotNull column) " NOT NULL" sql in
  let sql := append_if (col_isAutoIncrement column) (autoIncrementClause MYSQL) sql in
  let sql := append_if (col_isUnique column) " UNIQUE" sql in
  let sql := append_if (negb (sempty (col_defaultValue column)))
               (" DEFAULT " +:+ col_defaultValue column) sql in
  append_if (negb (sempty (col_comment column)))
    (" COMMENT '" +:+ escapeSingleQuotes (col_comment column) +:+ "'") sql.

Definition mysql_columnNames (table : Table) : string :=
  "DESCRIBE " +:+ quote_backtick (tbl_name table).

Definition MySQLBuilder : ISQLBuilder := {|
  databaseType := MYSQL;
  quoteIdentifier := quote_backtick;
  addColumn := mysql_addColumn;
  dropColumn := plain_dropColumn quote_backtick;
  selectAll := base_selectAll quote_backtick;
  columnNames := mysql_columnNames;
  renameTable := mysql_renameTable;
  dropTable := base_dropTable quote_backtick;
  truncateTable := base_truncateTable quote_backtick;
  renameColumn := base_renameColumn quote_backtick;
  alterColumn := mysql_alterColumn
|}.

(** ** MSSQL *)

Definition mssql_renameTable (schema oldName newName : string) : string :=
  let oldArg := if sempty schema then oldName else schema +:+ "." +:+ oldName in
  "EXEC sp_rename '" +:+ oldArg +:+ "', '" +:+ newName +:+ "'".

Definition mssql_renameColumn (qualifiedTable oldColumnName newColumnName : string) : string :=
  "EXEC sp_rename '" +:+ qualifiedTable +:+ "." +:+ oldColumnName +:+ "', '" +:+
  newColumnName +:+ "', 'COLUMN'".

Definition mssql_alterColumn (qualifiedTable oldColumnName : string) (newColumn : Column)
    : string :=
  let sql := "ALTER TABLE " +:+ qualifiedTable +:+ " ALTER COLUMN " +:+
             quote_bracket (col_name newColumn) +:+ " " +:+ col_type newColumn in
  append_if (col_isNotNull newColumn) " NOT NULL" sql.

(** [ORDER BY ... OFFSET ... ROWS FETCH NEXT ... ROWS ONLY], with the default order key *)
Definition offset_fetch_select (q : string → string) (defaultOrder : string) (table : Table)
    (whereClause orderByClause : string) (limit offset : Z) : string :=
  let sql := "SELECT * FROM " +:+ qualifiedName_of q table in
  let sql := append_if (negb (sempty whereClause)) (" WHERE " +:+ whereClause) sql in
  let sql := sql +:+ (" ORDER BY " +:+
               (if sempty orderByClause then defaultOrder else orderByClause)) in
  sql +:+ (" OFFSET " +:+ to_string offset +:+ " ROWS FETCH NEXT " +:+ to_string limit +:+
           " ROWS ONLY").

Definition mssql_selectAll := offset_fetch_select quote_bracket "(SELECT NULL)".

Definition mssql_columnNames (table : Table) : string :=
  "SELECT COLUMN_NAME FROM INFORMATION_SCHEMA.COLUMNS " +:+
  "WHERE TABLE_CATALOG = DB_NAME() AND TABLE_SCHEMA = '" +:+
  escapeSingleQuotes (tbl_schema table) +:+ "' " +:+
  "AND TABLE_NAME = '" +:+ escapeSingleQuotes (tbl_name table) +:+
  "' ORDER BY ORDINAL_POSITION".

(** MSSQL and Oracle: [ADD name type identity NOT NULL UNIQUE DEFAULT] *)
Definition mssql_addColumn (qualifiedTable : string) (column : Column) : string :=
  let sql := "ALTER TABLE " +:+ qualifiedTable +:+ " ADD " +:+
             quote_bracket (col_name column) +:+ " " +:+ col_type column in
  let sql := append_if (col_isAutoIncrement column) (autoIncrementClause MSSQL) sql in
  let sql := append_if (col_isNotNull column) " NOT NULL" sql in
  let sql := append_if (col_isUnique column) " UNIQUE" sql in
  append_if (negb (sempty (col_defaultValue column)))
    (" DEFAULT " +:+ col_defaultValue column) sql.

Definition MSSQLBuilder : ISQLBuilder := {|
  databaseType := MSSQL;
  quoteIdentifier := quote_bracket;
  addColumn := mssql_addColumn;
  dropColumn := plain_dropColumn quote_bracket;
  selectAll := mssql_selectAll;
  columnNames := mssql_columnNames;
  renameTable := mssql_renameTable;
  dropTable := base_dropTable quote_bracket;
  truncateTable := base_truncateTable quote_bracket;
  renameColumn := mssql_renameColumn;
  alterColumn := mssql_alterColumn
|}.

(** ** Oracle *)

Definition oracle_dropTable (schema tableName : string) : string :=
  "DROP TABLE " +:+ qualifiedRef quote_double schema tableName +:+ " CASCADE CONSTRAINTS".

Definition oracle_alterColumn (qualifiedTable oldColumnName : string) (newColumn : Column)
    : string :=
  let sql := "ALTER TABLE " +:+ qualifiedTable +:+ " MODIFY " +:+
             quote_double (col_name newColumn) +:+ " " +:+ col_type newColumn in
  append_if (col_isNotNull newColumn) " NOT NULL" sql.

Definition oracle_selectAll := offset_fetch_select quote_double "1".

Definition oracle_columnNames (table : Table) : string :=
  "SELECT COLUMN_NAME FROM ALL_TAB_COLUMNS " +:+
  "WHERE OWNER = '" +:+ escapeSingleQuotes (tbl_schema table) +:+ "' AND TABLE_NAME = '" +:+
  escapeSingleQuotes (tbl_name table) +:+ "' ORDER BY COLUMN_ID".

Definition oracle_addColumn (qualifiedTable : string) (column : Column) : string :=
  let sql := "ALTER TABLE " +:+ qualifiedTable +:+ " ADD " +:+
             quote_double (col_name column) +:+ " " +:+ col_type column in
  let sql := append_if (col_isAutoIncrement column) (autoIncrementClause ORACLE) sql in
  let sql := append_if (col_isNotNull column) " NOT NULL" sql in
  let sql := append_if (col_isUnique column) " UNIQUE" sql in
  append_if (negb (sempty (col_defaultValue column)))
    (" DEFAULT " +:+ col_defaultValue column) sql.

Definition OracleBuilder : ISQLBuilder := {|
  databaseType := ORACLE;
  quoteIdentifier := quote_double;
  addColumn := oracle_addColumn;
  dropColumn := plain_dropColumn quote_double;
  selectAll := oracle_selectAll;
  columnNames := oracle_columnNames;
  renameTable := base_renameTable quote_double;
  dropTable := oracle_dropTable;
  truncateTable := base_truncateTable quote_double;
  renameColumn := base_renameColumn quote_double;
  alterColumn := oracle_alterColumn
|}.

(** ** SQLite *)

Definition sqlite_alterColumn (qualifiedTable oldColumnName : string) (newColumn : Column)
    : string := "-- SQLite doesn't support column modification directly".

Definition sqlite_columnNames (table : Table) : string :=
  "SELECT name FROM pragma_table_info('" +:+ escapeSingleQuotes (tbl_name table) +:+ "')".

Definition sqlite_addColumn (qualifiedTable : string) (column : Column) : string :=
  let sql := "ALTER TABLE " +:+ qualifiedTable +:+ " ADD COLUMN " +:+
             quote_double (col_name column) +:+ " " +:+ col_type column in
  let sql := append_if (col_isNotNull column) " NOT NULL" sql in
  let sql := append_if (col_isUnique column) " UNIQUE" sql in
  append_if (negb (sempty (col_defaultValue column)))
    (" DEFAULT " +:+ col_defaultValue column) sql.

Definition SQLiteBuilder : ISQLBuilder := {|
  databaseType := SQLITE;
  quoteIdentifier := quote_double;
  addColumn := sqlite_addColumn;
  dropColumn := plain_dropColumn quote_double;
  selectAll := base_selectAll quote_double;
  columnNames := sqlite_columnNames;
  renameTable := base_renameTable quote_double;
  dropTable := base_dropTable quote_double;
  truncateTable := base_truncateTable quote_double;
  renameColumn := base_renameColumn quote_double;
  alterColumn := sqlite_alterColumn
|}.

(** ** DuckDB *)

Definition duckdb_addColumn (qualifiedTable : string) (column : Column) : string :=
  let sql := "ALTER TABLE " +:+ qualifiedTable +:+ " ADD COLUMN " +:+
             quote_double (col_name column) +:+ " " +:+ col_type column in
  let sql := append_if (negb (sempty (col_defaultValue column)))
               (" DEFAULT " +:+ col_defaultValue column) sql in
  append_if (col_isNotNull column) " NOT NULL" sql.

Definition duckdb_columnNames (table : Table) : string :=
  "SELECT column_name FROM information_schema.columns " +:+
  "WHERE table_name = '" +:+ escapeSingleQuotes (tbl_name table) +:+
  "' AND table_schema = '" +:+
  (if sempty (tbl_schema table) then "main" else escapeSingleQuotes (tbl_schema table)) +:+
  "' " +:+ "ORDER BY ordinal_position".

Definition DuckDBBuilder : ISQLBuilder := {|
  databaseType := DUCKDB;
  quoteIdentifier := quote_double;
  addColumn := duckdb_addColumn;
  dropColumn := plain_dropColumn quote_double;
  selectAll := base_selectAll quote_double;
  columnNames := duckdb_columnNames;
  renameTable := base_renameTable quote_double;
  dropTable := base_dropTable quote_double;
  truncateTable := base_truncateTable quote_double;
  renameColumn := base_renameColumn quote_double;
  alterColumn := base_alterColumn quote_double
|}.

(** ** Cassandra *)

Definition cassandra_addColumn (qualifiedTable : string) (column : Column) : string :=
  "ALTER TABLE " +:+ qualifiedTable +:+ " ADD " +:+ quote_double (col_name column) +:+ " " +:+
  col_type column.

Definition cassandra_dropColumn (qualifiedTable columnName : string) : string :=
  "ALTER TABLE " +:+ qualifiedTable +:+ " DROP " +:+ quote_double columnName.

Definition cassandra_columnNames (table : Table) : string :=
  "SELECT column_name FROM system_schema.columns " +:+
  "WHERE keyspace_name = '" +:+ escapeSingleQuotes (tbl_schema table) +:+
  "' AND table_name = '" +:+ escapeSingleQuotes (tbl_name table) +:+ "'".

Definition cassandra_selectAll (table : Table) (whereClause orderByClause : string)
    (limit offset : Z) : string :=
  let sql := "SELECT * FROM " +:+ qualifiedName_of quote_double table in
  let sql := append_if (negb (sempty whereClause))
               (" WHERE " +:+ whereClause +:+ " ALLOW FILTERING") sql in
  let sql := append_if (negb (sempty orderByClause)) (" ORDER BY " +:+ orderByClause) sql in
  sql +:+ (" LIMIT " +:+ to_string limit).

Definition cassandra_dropTable (schema tableName : string) : string :=
  "DROP TABLE IF EXISTS " +:+ qualifiedRef quote_double schema tableName.

Definition CassandraBuilder : ISQLBuilder := {|
  databaseType := CASSANDRA;
  quoteIdentifier := quote_double;
  addColumn := cassandra_addColumn;
  dropColumn := cassandra_dropColumn;
  selectAll := cassandra_selectAll;
  columnNames := cassandra_columnNames;
  renameTable := base_renameTable quote_double;
  dropTable := cassandra_dropTable;
  truncateTable := base_truncateTable quote_double;
  renameColumn := base_renameColumn quote_double;
  alterColumn := base_alterColumn quote_double
|}.

Definition createSQLBuilder (type : DatabaseType) : ISQLBuilder :=
  match type with
  | REDSHIFT | COCKROACHDB | POSTGRESQL => PostgreSQLBuilder
  | MYSQL | MARIADB | TIDB => MySQLBuilder
  | MSSQL => MSSQLBuilder
  | ORACLE => OracleBuilder
  | CASSANDRA => CassandraBuilder
  | DUCKDB => DuckDBBuilder
  | SQLITE | _ => SQLiteBuilder
  end.

(** ** Methods shared by every builder *)

Section methods.
Context (b : ISQLBuilder).

Definition qualifiedName (table : Table) : string := qualifiedName_of (quoteIdentifier b) table.

(** the state of [createTable]'s column loop *)
Record CreateState := mkCreateState {
  cs_sql : string;
  cs_trailingPkColumns : list string;
  cs_hasInlineSQLitePrimaryKey : bool
}.

Definition createTable_column (i : nat) (st : CreateState) (col : Column) : CreateState :=
  let dbType := databaseType b in
  let isMySQL := isMySQLFamily dbType in
  let sql := append_if (bool_decide (0 < i)) ", " (cs_sql st) in
  let colType := if col_isAutoIncrement col && (dbType =t? POSTGRESQL)
                 then serialTypeForColumn (col_type col) else col_type col in
  let sql := sql +:+ (quoteIdentifier b (col_name col) +:+ " " +:+ colType) in
  let inlinePk := col_isPrimaryKey col && col_isAutoIncrement col && (dbType =t? SQLITE) in
  let sql := append_if inlinePk " PRIMARY KEY AUTOINCREMENT" sql in
  let hasInline := cs_hasInlineSQLitePrimaryKey st || inlinePk in
  let pks := if inlinePk then [] else cs_trailingPkColumns st in
  let sql := append_if (col_isNotNull col && negb (col_isPrimaryKey col) &&
                        negb (dbType =t? CASSANDRA)) " NOT NULL" sql in
  let sql := append_if (col_isAutoIncrement col && negb (dbType =t? SQLITE) &&
                        negb (dbType =t? POSTGRESQL)) (autoIncrementClause dbType) sql in
  let sql := append_if (isMySQL && negb (sempty (col_comment col)))
               (" COMMENT '" +:+ escapeSingleQuotes (col_comment col) +:+ "'") sql in
  let pks := if col_isPrimaryKey col && negb inlinePk &&
                negb ((dbType =t? SQLITE) && hasInline)
             then pks ++ [col_name col] else pks in
  mkCreateState sql pks hasInline.

Fixpoint createTable_columns (i : nat) (st : CreateState) (cols : list Column) : CreateState :=
  match cols with
  | [] => st
  | col :: r => createTable_columns (S i) (createTable_column i st col) r
  end.

Definition createTable_name (table : Table) (schemaPrefix : string) : string :=
  if negb (sempty schemaPrefix)
  then quoteIdentifier b schemaPrefix +:+ "." +:+ quoteIdentifier b (tbl_name table)
  else quoteIdentifier b (tbl_name table).

Definition createTable (table : Table) (schemaPrefix : string) : string :=
  let qualifiedName := createTable_name table schemaPrefix in
  let dbType := databaseType b in
  let isMySQL := isMySQLFamily dbType in
  let st := createTable_columns 0 (mkCreateState ("CREATE TABLE " +:+ qualifiedName +:+ " (") []
                                     false) (tbl_columns table) in
  let sql :=
    append_if (match cs_trailingPkColumns st with [] => false | _ => true end)
      (", PRIMARY KEY (" +:+
       join_loop ", " 0 (map (quoteIdentifier b) (cs_trailingPkColumns st)) "" +:+ ")")
      (cs_sql st) in
  let sql := sql +:+ ")" in
  let sql :=
    if isMySQL then
      append_if (negb (sempty (tbl_comment table)))
        (" COMMENT='" +:+ escapeSingleQuotes (tbl_comment table) +:+ "'")
        (sql +:+ " ENGINE=InnoDB DEFAULT CHARSET=utf8mb4")
    else sql in
  if dbType =t? POSTGRESQL then
    foldl (λ sql col,
      append_if (negb (sempty (col_comment col)))
        (";" +:+ str1 newline +:+ "COMMENT ON COLUMN " +:+ qualifiedName +:+ "." +:+
         quoteIdentifier b (col_name col) +:+ " IS '" +:+
         escapeSingleQuotes (col_comment col) +:+ "'") sql) sql (tbl_columns table)
  else sql.

(** *** [tableDdl] *)

Definition quoteList (names : list string) : string :=
  join_acc ", " (map (quoteIdentifier b) names).

Definition ddl_column_line (col : Column) : string :=
  let dbType := databaseType b in
  let line := quoteIdentifier b (col_name col) +:+ " " +:+ col_type col in
  let sequenceDefault := starts_with "nextval(" (col_defaultValue col) in
  let line := append_if (negb (sempty (col_defaultValue col)) && negb sequenceDefault)
                (" DEFAULT " +:+ col_defaultValue col) line in
  let line := append_if (col_isAutoIncrement col && negb (isPostgresFamily dbType))
                (autoIncrementClause dbType) line in
  append_if (col_isNotNull col && negb (col_isPrimaryKey col) && negb (dbType =t? CASSANDRA))
    " NOT NULL" line.

Definition ddl_pk (cols : list Column) : list string :=
  col_name <$> filter (λ c, col_isPrimaryKey c = true) cols.

Definition idx_skipped (idx : Index) : bool :=
  idx_isPrimary idx || match idx_columns idx with [] => true | _ => false end.

(** an index either adds a [UNIQUE] line or a [CREATE INDEX] after the table *)
Definition ddl_index (qualified : string) (acc : list string * list string) (idx : Index)
    : list string * list string :=
  let '(lines, after) := acc in
  if idx_skipped idx then (lines, after)
  else if idx_isUnique idx && negb (databaseType b =t? CASSANDRA) then
    (lines ++ ["CONSTRAINT " +:+ quoteIdentifier b (idx_name idx) +:+ " UNIQUE (" +:+
               quoteList (idx_columns idx) +:+ ")"], after)
  else
    (lines, after ++ ["CREATE INDEX " +:+ quoteIdentifier b (idx_name idx) +:+ " ON " +:+
                      qualified +:+ " (" +:+ quoteList (idx_columns idx) +:+ ");"]).

(** foreign keys, one row per column, grouped by a non-empty name *)
Fixpoint add_to_group (fk : ForeignKey) (fks : list (string * list ForeignKey))
    : list (string * list ForeignKey) :=
  match fks with
  | [] => [(fk_name fk, [fk])]
  | g :: r =>
      if negb (sempty (fk_name fk)) && (fst g =? fk_name fk)%string
      then (fst g, snd g ++ [fk]) :: r
      else g :: add_to_group fk r
  end.

Definition group_fks (fks : list ForeignKey) : list (string * list ForeignKey) :=
  foldl (λ acc fk, add_to_group fk acc) [] fks.

Definition ddl_fk_line (g : string * list ForeignKey) : string :=
  let '(name, parts) := g in
  let from := fk_sourceColumn <$> parts in
  let to := fk_targetColumn <$> parts in
  match parts with
  | [] => "" (* not reached: a group holds the foreign key that opened it *)
  | front :: _ =>
      let line := if sempty name then ""
                  else "CONSTRAINT " +:+ quoteIdentifier b name +:+ " " in
      let line := line +:+ ("FOREIGN KEY (" +:+ quoteList from +:+ ") REFERENCES " +:+
                    quoteIdentifier b (fk_targetTable front) +:+ " (" +:+ quoteList to +:+ ")") in
      let line := append_if (negb (sempty (fk_onDelete front)) &&
                             negb (fk_onDelete front =? "NO ACTION")%string)
                    (" ON DELETE " +:+ fk_onDelete front) line in
      append_if (negb (sempty (fk_onUpdate front)) &&
                 negb (fk_onUpdate front =? "NO ACTION")%string)
        (" ON UPDATE " +:+ fk_onUpdate front) line
  end.

(** [for (i ...) sql += "    " + lines[i] + (i + 1 < lines.size() ? ",\n" : "\n")] *)
Fixpoint ddl_lines (lines : list string) (sql : string) : string :=
  match lines with
  | [] => sql
  | l :: r =>
      ddl_lines r (sql +:+ ("    " +:+ l +:+
        match r with [] => str1 newline | _ => "," +:+ str1 newline end))
  end.

Definition tableDdl (table : Table) (schemaPrefix : string) : string :=
  let qualified :=
    if sempty schemaPrefix then quoteIdentifier b (tbl_name table)
    else quoteIdentifier b schemaPrefix +:+ "." +:+ quoteIdentifier b (tbl_name table) in
  let lines := map ddl_column_line (tbl_columns table) in
  let pk := ddl_pk (tbl_columns table) in
  let lines := match pk with [] => lines
               | _ => lines ++ ["PRIMARY KEY (" +:+ quoteList pk +:+ ")"] end in
  let '(lines, after) := foldl (ddl_index qualified) (lines, []) (tbl_indexes table) in
  let lines := lines ++ map ddl_fk_line (group_fks (tbl_foreignKeys table)) in
  let sql := "CREATE TABLE " +:+ qualified +:+ " (" +:+ str1 newline in
  let sql := ddl_lines lines sql in
  let sql := sql +:+ ");" in
  foldl (λ sql a, sql +:+ (str1 newline +:+ a)) sql after.

(** *** Rows *)

Definition countRows (table : Table) (whereClause : string) : string :=
  append_if (negb (sempty whereClause)) (" WHERE " +:+ whereClause)
    ("SELECT COUNT(*) FROM " +:+ qualifiedName table).

Definition insertRow (qualifiedTable : string) (columnNames valueLiterals : list string)
    : string :=
  let n := length columnNames `min` length valueLiterals in
  let cols := join_loop ", " 0 (map (quoteIdentifier b) (take n columnNames)) "" in
  let vals := join_loop ", " 0 (take n valueLiterals) "" in
  "INSERT INTO " +:+ qualifiedTable +:+ " (" +:+ cols +:+ ") VALUES (" +:+ vals +:+ ")".

Definition updateRow (qualifiedTable : string) (assignments : list (string * string))
    (whereExpr : string) : string :=
  let setClause := join_loop ", " 0
    (map (λ a, quoteIdentifier b (fst a) +:+ " = " +:+ snd a) assignments) "" in
  "UPDATE " +:+ qualifiedTable +:+ " SET " +:+ setClause +:+ " WHERE " +:+ whereExpr.

Definition deleteRow (qualifiedTable whereExpr : string) : string :=
  "DELETE FROM " +:+ qualifiedTable +:+ " WHERE " +:+ whereExpr.

End methods.

Definition col (name type : string) (pk autoinc notnull : bool) : Column :=
  mkColumn name type "" "" pk notnull false autoinc.

Example createTable_sqlite :
  createTable SQLiteBuilder
    (mkTable "t" "" "" "" "" [col "id" "INTEGER" true true true; col "v" "TEXT" false false true]
       [] [] [] (-1)) "" =
  "CREATE TABLE " +:+ quote_double "t" +:+ " (" +:+ quote_double "id" +:+
  " INTEGER PRIMARY KEY AUTOINCREMENT, " +:+ quote_double "v" +:+ " TEXT NOT NULL)".
Proof. reflexivity. Qed.

(** ** Properties: primary keys *)

Definition inline_pk_column (c : Column) : bool := col_isPrimaryKey c && col_isAutoIncrement c.

Definition pk_names (cols : list Column) : list string :=
  col_name <$> filter (λ c, col_isPrimaryKey c = true) cols.

Lemma createTable_columns_pk b i st cols :
  (cs_hasInlineSQLitePrimaryKey st = true → databaseType b = SQLITE ∧ cs_trailingPkColumns st = []) →
  let st' := createTable_columns b i st cols in
  cs_hasInlineSQLitePrimaryKey st' =
    cs_hasInlineSQLitePrimaryKey st ||
      ((databaseType b =t? SQLITE) && existsb inline_pk_column cols) ∧
  cs_trailingPkColumns st' =
    if cs_hasInlineSQLitePrimaryKey st' then []
    else cs_trailingPkColumns st ++ pk_names cols.
Proof.
  revert i st. induction cols as [|c cols IH]; intros i st Hst; cbn zeta.
  { simpl. rewrite andb_false_r, orb_false_r. split; [done|].
    destruct (cs_hasInlineSQLitePrimaryKey st); [by apply Hst|by rewrite app_nil_r]. }
  change (createTable_columns b i st (c :: cols)) with
    (createTable_columns b (S i) (createTable_column b i st c) cols).
  destruct (IH (S i) (createTable_column b i st c)) as [H1 H2].
  { simpl. destruct (databaseType b =t? SQLITE) eqn:Hs.
    - apply bool_decide_eq_true in Hs. intros H. split; [done|]. revert H Hst.
      destruct (col_isPrimaryKey c), (col_isAutoIncrement c), (cs_hasInlineSQLitePrimaryKey st);
        simpl; naive_solver.
    - rewrite andb_false_r, orb_false_r. simpl. intros [? _]%Hst.
      by apply bool_decide_eq_false in Hs. }
  rewrite H2, H1. clear IH H1 H2. unfold pk_names, inline_pk_column. rewrite filter_cons. simpl.
  destruct (databaseType b =t? SQLITE) eqn:Hs, (col_isPrimaryKey c), (col_isAutoIncrement c),
    (cs_hasInlineSQLitePrimaryKey st); simpl; rewrite <-?app_assoc; simpl; try done.
  all: try (by destruct (existsb _ cols)).
Qed.

(** [CREATE TABLE] declares the primary key once.  With an auto-increment key column on
    SQLite it is inline and there is no trailing clause; in every other case no column is
    marked inline and the trailing clause lists exactly the key columns, in order. *)
Lemma createTable_primary_key (type : DatabaseType) (name : string) (cols : list Column) :
  let b := createSQLBuilder type in
  let st := createTable_columns b 0 (mkCreateState name [] false) cols in
  let inline := (databaseType b =t? SQLITE) && existsb inline_pk_column cols in
  cs_hasInlineSQLitePrimaryKey st = inline ∧
  cs_trailingPkColumns st = if inline then [] else pk_names cols.
Proof.
  intros b st inline. destruct (createTable_columns_pk b 0 (mkCreateState name [] false) cols)
    as [H1 H2]; [done|]. unfold st. by rewrite H2, H1.
Qed.

(** ** Properties: foreign-key groups *)

Definition named (n : string) (fks : list ForeignKey) : list ForeignKey :=
  filter (λ fk, fk_name fk = n) fks.

(** a group holds one anonymous key, or every key of its name *)
Definition group_ok (fks : list ForeignKey) (g : string * list ForeignKey) : Prop :=
  if sempty (fst g) then ∃ fk, snd g = [fk] ∧ fk_name fk = fst g
  else snd g = named (fst g) fks ∧ snd g ≠ [].

Definition group_names (gs : list (string * list ForeignKey)) : list string :=
  filter (λ n, sempty n = false) (fst <$> gs).

Lemma add_to_group_cases fk gs :
  (sempty (fk_name fk) = true ∨ fk_name fk ∉ group_names gs) ∧
    add_to_group fk gs = gs ++ [(fk_name fk, [fk])] ∨
  sempty (fk_name fk) = false ∧ ∃ pre parts post,
    gs = pre ++ (fk_name fk, parts) :: post ∧ fk_name fk ∉ (fst <$> pre) ∧
    add_to_group fk gs = pre ++ (fk_name fk, parts ++ [fk]) :: post.
Proof.
  induction gs as [|[n parts] gs IH]; simpl.
  { left. split; [right; apply not_elem_of_nil|done]. }
  destruct (sempty (fk_name fk)) eqn:E; simpl.
  - left. split; [by left|]. destruct IH as [[_ ->]|[? _]]; done.
  - destruct (n =? fk_name fk)%string eqn:En.
    + apply seqb_true in En as ->. right. split; [done|]. exists [], parts, gs.
      repeat split. apply not_elem_of_nil.
    + apply String.eqb_neq in En. destruct IH as [[[?|Hn] ->]|(_ & pre & ps & post & -> & Hp & ->)].
      * done.
      * left. split; [right|done]. unfold group_names in *. simpl. rewrite filter_cons.
        case_decide; [|done]. rewrite not_elem_of_cons. naive_solver.
      * right. split; [done|]. exists ((n, parts) :: pre), ps, post. repeat split.
        simpl. rewrite not_elem_of_cons. naive_solver.
Qed.

Lemma group_fks_snoc fks fk : group_fks (fks ++ [fk]) = add_to_group fk (group_fks fks).
Proof. unfold group_fks. by rewrite foldl_app. Qed.

Lemma named_snoc n fks fk :
  named n (fks ++ [fk]) = named n fks ++ (if decide (fk_name fk = n) then [fk] else []).
Proof. unfold named. rewrite filter_app, filter_cons. by case_decide. Qed.

Lemma group_ok_snoc fks fk g :
  group_ok fks g → (sempty (fk_name fk) = true ∨ fst g ≠ fk_name fk) →
  group_ok (fks ++ [fk]) g.
Proof.
  unfold group_ok. destruct (sempty (fst g)) eqn:E; [done|].
  intros [-> Hne] Hfk. rewrite named_snoc, decide_False, app_nil_r; [done|].
  intros Heq. destruct Hfk as [H|H]; [|done]. congruence.
Qed.

Lemma group_names_app a c : group_names (a ++ c) = group_names a ++ group_names c.
Proof. unfold group_names. by rewrite fmap_app, filter_app. Qed.

Lemma elem_of_group_names n gs :
  n ∈ group_names gs ↔ sempty n = false ∧ n ∈ (fst <$> gs).
Proof. unfold group_names. by rewrite list_elem_of_filter. Qed.

Lemma group_fks_wf fks :
  Forall (group_ok fks) (group_fks fks) ∧ NoDup (group_names (group_fks fks)) ∧
  (∀ fk, fk ∈ fks → fk_name fk ∈ (fst <$> group_fks fks)) ∧
  mjoin (snd <$> group_fks fks) ≡ₚ fks.
Proof.
  induction fks as [|fk fks (Hok & Hnd & Hin & Hp)] using rev_ind.
  { repeat split; try constructor. intros ? []%not_elem_of_nil. }
  rewrite group_fks_snoc.
  destruct (add_to_group_cases fk (group_fks fks))
    as [[Hnew ->]|(Hne & pre & parts & post & Hgs & Hpre & ->)].
  - assert (Hnone : sempty (fk_name fk) = false → named (fk_name fk) fks = []).
    { intros E. destruct Hnew as [?|Hnew]; [congruence|].
      apply filter_none. intros x Hx Heq.
      apply Hnew, elem_of_group_names. split; [done|]. rewrite <-Heq. by apply Hin. }
    repeat split.
    + apply Forall_app. split.
      * rewrite Forall_forall in Hok |- *. intros g Hg. apply group_ok_snoc; [by apply Hok|].
        destruct Hnew as [?|Hnew]; [by left|].
        destruct (sempty (fk_name fk)) eqn:E; [by left|]. right. intros Heq.
        apply Hnew, elem_of_group_names. split; [done|]. rewrite <-Heq.
        by apply list_elem_of_fmap_2.
      * apply Forall_singleton. unfold group_ok. simpl.
        destruct (sempty (fk_name fk)) eqn:E; [by eauto|].
        rewrite named_snoc, decide_True, Hnone by done. done.
    + rewrite group_names_app. apply NoDup_app. repeat split; [done| |].
      * intros x Hx Hx'. unfold group_names in Hx'. simpl in Hx'. rewrite filter_cons in Hx'.
        case_decide as E; [|by apply not_elem_of_nil in Hx'].
        apply list_elem_of_singleton in Hx' as ->. destruct Hnew; [congruence|done].
      * unfold group_names. simpl. rewrite filter_cons. case_decide; [|constructor].
        apply NoDup_singleton.
    + intros x. rewrite elem_of_app, list_elem_of_singleton, fmap_app, elem_of_app. simpl.
      rewrite list_elem_of_singleton. intros [?%Hin| ->]; auto.
    + rewrite fmap_app, join_app. simpl. rewrite Hp. done.
  - rewrite Hgs in Hok, Hnd, Hin, Hp. apply Forall_app in Hok as [Hok1 Hok2].
    apply Forall_cons in Hok2 as [Hg Hok2].
    assert (Hpost : fk_name fk ∉ (fst <$> post)).
    { rewrite group_names_app in Hnd. apply NoDup_app in Hnd as (_ & _ & Hnd).
      unfold group_names in Hnd. simpl in Hnd. rewrite filter_cons, decide_True in Hnd by done.
      apply NoDup_cons in Hnd as [Hnd _]. intros H. apply Hnd. by apply list_elem_of_filter. }
    assert (Hother : ∀ gs, fk_name fk ∉ (fst <$> gs) → Forall (group_ok fks) gs →
              Forall (group_ok (fks ++ [fk])) gs).
    { intros gs Hgs'. rewrite !Forall_forall. intros H g Hgin. apply group_ok_snoc; [by apply H|].
      right. intros Heq. apply Hgs'. rewrite <-Heq. by apply list_elem_of_fmap_2. }
    repeat split.
    + apply Forall_app. split; [by apply Hother|]. apply Forall_cons.
      split; [|by apply Hother]. unfold group_ok in Hg |- *. simpl in *. rewrite Hne in Hg |- *.
      destruct Hg as [-> Hnil]. rewrite named_snoc, decide_True by done. split; [done|].
      by destruct (named _ _).
    + revert Hnd. rewrite !group_names_app. done.
    + intros x. rewrite elem_of_app, list_elem_of_singleton.
      replace (fst <$> pre ++ (fk_name fk, parts ++ [fk]) :: post) with
        (fst <$> pre ++ (fk_name fk, parts) :: post) by (by rewrite !fmap_app).
      intros [?%Hin| ->]; [done|]. rewrite fmap_app. set_solver.
    + rewrite <-Hp. rewrite !fmap_app, !join_app. simpl. solve_Permutation.
Qed.

(** [tableDdl] groups the one-row-per-column foreign keys correctly: no key is lost or
    repeated, each named constraint appears once and holds exactly the rows of that name in
    catalog order (so composite keys pair their columns up), and anonymous keys are never
    merged with each other. *)
Lemma group_fks_correct (fks : list ForeignKey) :
  mjoin (snd <$> group_fks fks) ≡ₚ fks ∧
  NoDup (group_names (group_fks fks)) ∧
  ∀ name parts, (name, parts) ∈ group_fks fks →
    if sempty name then ∃ fk, parts = [fk] ∧ fk_name fk = ""
    else parts = named name fks ∧ parts ≠ [].
Proof.
  destruct (group_fks_wf fks) as (Hok & Hnd & _ & Hp). repeat split; [done..|].
  intros name parts Hin. rewrite Forall_forall in Hok. specialize (Hok _ Hin).
  unfold group_ok in Hok. simpl in Hok. destruct (sempty name) eqn:E; [|done].
  destruct Hok as (fk & -> & Hn). exists fk. split; [done|]. rewrite Hn. by destruct name.
Qed.

(** No builder returns an empty [alterColumn] statement. *)
Lemma alterColumn_never_empty (type : DatabaseType) (t old : string) (c : Column) :
  sempty (alterColumn (createSQLBuilder type) t old c) = false.
Proof.
  destruct type; simpl; unfold mysql_alterColumn, mssql_alterColumn, oracle_alterColumn,
    append_if; repeat case_match; try done.
  all: unfold base_alterColumn; repeat case_match; try done.
Qed.
