(* ===== verification/Lexer.v ===== *)
(** * The SQL tokenizer

    [src/completion.cpp], lines 15-323 and 2013-2073: case-insensitive string helpers, the
    dialects' lexical options, [tokenize], statement bounds, and the statement-range and
    identifier-quoting entry points.

    The C++ scans with absolute positions into one buffer.  Here a token is read from the
    text that starts at it, [r] (the buffer from position [i] on), with [prev] the byte before
    it; [s\[i + k\]] is then the byte [k] of [r], and every position stored in a token is
    [i + k], the absolute one. *)

From S2P Require Import Prelude ConnectionInfo SqlBuilder.

(** ** String helpers *)

Definition lowerc (c : ascii) : ascii :=
  if between "A" "Z" c then ascii_of_N (code c - code "A" + code "a") else c.
Definition upperc (c : ascii) : ascii :=
  if between "a" "z" c then ascii_of_N (code c - code "a" + code "A") else c.
Definition lower (s : string) : string := smap lowerc s.
Definition upper (s : string) : string := smap upperc s.

Fixpoint ieq (a b : string) : bool :=
  match a, b with
  | EmptyString, EmptyString => true
  | String x a', String y b' => (lowerc x =? lowerc y)%char && ieq a' b'
  | _, _ => false
  end.

(** [s.size() >= p.size() && ieq(s.substr(0, p.size()), p)] *)
Definition istartsWith (s p : string) : bool :=
  (strlen p <=? strlen s) && ieq (substr s 0 (strlen p)) p.

(** [ieq(s.substr(i, p.size()), p)] at the successive positions [i + p.size() <= s.size()] *)
Definition ifind (s p : string) (from : nat) : option nat :=
  if sempty p then Some from
  else index_from (λ r, istartsWith r p) (sdrop from s) from.

Fixpoint isSubsequence (s p : string) : bool :=
  match p with
  | EmptyString => true
  | String y p' =>
      match s with
      | EmptyString => false
      | String x s' => if (lowerc x =? lowerc y)%char then isSubsequence s' p'
                       else isSubsequence s' p
      end
  end.

(** [char] is signed on the supported targets (x86-64 and Apple ARM) *)
Definition schar (c : ascii) : Z :=
  let n := Z.of_N (code c) in if (n <? 128)%Z then n else (n - 256)%Z.

(** [std::lexicographical_compare] with [lowerc(x) < lowerc(y)] *)
Fixpoint iless (a b : string) : bool :=
  match a, b with
  | _, EmptyString => false
  | EmptyString, String _ _ => true
  | String x a', String y b' =>
      if (schar (lowerc x) <? schar (lowerc y))%Z then true
      else if (schar (lowerc y) <? schar (lowerc x))%Z then false
      else iless a' b'
  end.

(** [splitPath]: the segments between dots; [cur] is the segment being read *)
Fixpoint split_dots (s cur : string) : list string :=
  match s with
  | EmptyString => [cur]
  | String c r => if (c =? ".")%char then cur :: split_dots r "" else split_dots r (cur +:+ str1 c)
  end.
Definition splitPath (path : string) : list string :=
  if sempty path then [] else split_dots path "".

Definition isIdentStartByte (c : ascii) : bool := isalpha c || (c =? "_")%char || high_byte c.
Definition isIdentByte (c : ascii) : bool :=
  isalnum c || (c =? "_")%char || (c =? "$")%char || high_byte c.

(** ** Dialects *)

Record Dialect := mkDialect {
  d_backtickIdent : bool;
  d_bracketIdent : bool;
  d_doubleQuoteIdent : bool;
  d_dollarQuote : bool;
  d_hashComment : bool;
  d_backslashEscape : bool;
  d_hashIdent : bool
}.

Definition dialectFor (type : DatabaseType) : Dialect :=
  match type with
  | MYSQL | MARIADB | TIDB => mkDialect true false false false true true false
  | SQLITE => mkDialect true true true false false false false
  | MSSQL => mkDialect false true true false false false true
  | POSTGRESQL | REDSHIFT | COCKROACHDB | DUCKDB | CASSANDRA =>
      mkDialect false false true true false false false
  | _ => mkDialect false false true false false false false
  end.

Definition isSqlDialect (type : DatabaseType) : bool :=
  negb (type =t? REDIS) && negb (type =t? MONGODB).

(** ** Tokens *)

Inductive Tok := TWord | TQuotedIdent | TString | TNumber | TComment | TParam | TPunct | TOp.

#[export] Instance Tok_eq_dec : EqDecision Tok.
Proof. solve_decision. Defined.

Record Token := mkToken {
  tk_kind : Tok;
  tk_begin : nat;
  tk_end : nat;
  tk_closed : bool;
  tk_lineComment : bool;
  tk_text : string
}.

(** the body of [scanQuoted], on the text after the opening quote: the unquoted text, the
    number of bytes consumed, and whether the closing quote was found *)
Fixpoint scan_quoted (close : ascii) (backslash : bool) (r : string) : string * nat * bool :=
  match r with
  | EmptyString => (EmptyString, 0, false)
  | String ch r1 =>
      let plain :=
        let '(t, k, c) := scan_quoted close backslash r1 in (String ch t, S k, c) in
      if backslash && (ch =? "\")%char then
        match r1 with
        | String nx r2 =>
            let '(t, k, c) := scan_quoted close backslash r2 in (String nx t, S (S k), c)
        | EmptyString => if (ch =? close)%char then (EmptyString, 1, true) else plain
        end
      else if (ch =? close)%char then
        match r1 with
        | String nx r2 =>
            if (nx =? close)%char then
              let '(t, k, c) := scan_quoted close backslash r2 in (String close t, S (S k), c)
            else (EmptyString, 1, true)
        | EmptyString => (EmptyString, 1, true)
        end
      else plain
  end.

(** [scanQuoted] on the token that starts at [i] with the quote [r\[0\]] *)
Definition quoted_token (kind : Tok) (i : nat) (r : string) (close : ascii) (backslash : bool)
    : Token :=
  let '(text, k, closed) := scan_quoted close backslash (sdrop 1 r) in
  mkToken kind i (i + (1 + k)) closed false text.

(** the loop of a number, from its second byte; [p] is the byte before *)
Fixpoint number_len (p : ascii) (r : string) : nat :=
  match r with
  | EmptyString => 0
  | String ch r1 =>
      if isalnum ch || (ch =? "_")%char || (ch =? ".")%char then S (number_len ch r1)
      else if ((ch =? "+")%char || (ch =? "-")%char) && ((p =? "e")%char || (p =? "E")%char) &&
              match r1 with String d _ => isdigit d | EmptyString => false end
           then S (number_len ch r1)
      else 0
  end.

(** bytes after which a [.] continues a name rather than starting a number *)
Definition name_end (p : ascii) : bool :=
  isIdentByte p || (p =? dquote)%char || (p =? "`")%char || (p =? "]")%char || (p =? ")")%char.

Definition punct_char (c : ascii) : bool :=
  (c =? "(")%char || (c =? ")")%char || (c =? ",")%char || (c =? ";")%char || (c =? ".")%char.

(** one token, at a non-space byte [c = r\[0\]]: lines 202-291 *)
Definition lex_token (d : Dialect) (prev : option ascii) (i : nat) (r : string) : Token :=
  let c := char_at r 0 in
  let next := char_at r 1 in
  let n := strlen r in
  if ((c =? "-")%char && (next =? "-")%char) || ((c =? "#")%char && d_hashComment d) then
    let e := match find_char newline r 0 with Some e => e | None => n end in
    mkToken TComment i (i + e) true true ""
  else if (c =? "/")%char && (next =? "*")%char then
    match find_str "*/" r 2 with
    | Some e => mkToken TComment i (i + (e + 2)) true false ""
    | None => mkToken TComment i (i + n) false false ""
    end
  else if (c =? squote)%char then quoted_token TString i r squote (d_backslashEscape d)
  else if (c =? dquote)%char then
    quoted_token (if d_doubleQuoteIdent d then TQuotedIdent else TString) i r dquote
      (negb (d_doubleQuoteIdent d) && d_backslashEscape d)
  else if (c =? "`")%char && d_backtickIdent d then quoted_token TQuotedIdent i r "`" false
  else if (c =? "[")%char && d_bracketIdent d then quoted_token TQuotedIdent i r "]" false
  else if (c =? "$")%char && d_dollarQuote d && ((next =? "$")%char || isIdentStartByte next) then
    let k := scan_while (λ ch, negb (ch =? "$")%char && isIdentByte ch) r 1 in
    if (k <? n) && (char_at r k =? "$")%char then
      let tag := substr r 0 (k + 1) in
      match find_str tag r (k + 1) with
      | Some e => mkToken TString i (i + (e + strlen tag)) true false ""
      | None => mkToken TString i (i + n) false false ""
      end
    else mkToken TOp i (i + 1) true false "$"
  else if isdigit c ||
          ((c =? ".")%char && isdigit next &&
           match prev with None => true | Some p => negb (name_end p) end) then
    mkToken TNumber i (i + (1 + number_len c (sdrop 1 r))) true false ""
  else if isIdentStartByte c || ((c =? "#")%char && d_hashIdent d) then
    let k := scan_while (λ ch, isIdentByte ch || (d_hashIdent d && (ch =? "#")%char)) r 1 in
    mkToken TWord i (i + k) true false (substr r 0 k)
  else if (c =? "@")%char || (c =? "?")%char ||
          ((c =? ":")%char && isIdentStartByte next &&
           match prev with None => true | Some p => negb (p =? ":")%char end) ||
          ((c =? "$")%char && isdigit next) then
    let k := scan_while (λ ch, (ch =? "@")%char || isIdentByte ch) r 1 in
    mkToken TParam i (i + k) true false ""
  else if punct_char c then mkToken TPunct i (i + 1) true false (str1 c)
  else mkToken TOp i (i + 1) true false (str1 c).

(** the main loop; [fuel] bounds the iterations, each of which consumes a byte *)
Fixpoint tokenize_from (fuel : nat) (d : Dialect) (prev : option ascii) (i : nat) (r : string)
    : list Token :=
  match fuel with
  | 0 => []
  | S fuel =>
      match r with
      | EmptyString => []
      | String c r1 =>
          if isspace c then tokenize_from fuel d (Some c) (i + 1) r1
          else
            let t := lex_token d prev i r in
            let len := (tk_end t `max` (i + 1)) - i in
            t :: tokenize_from fuel d (Some (char_at r (len - 1))) (i + len) (sdrop len r)
      end
  end.

Definition tokenize (s : string) (d : Dialect) : list Token :=
  tokenize_from (strlen s) d None 0 s.

(** ** Statements *)

Record StatementSpan := mkSpan {
  sp_begin : nat;
  sp_end : nat;
  sp_firstTok : nat;
  sp_lastTok : nat
}.

Definition is_semicolon (t : Token) : bool :=
  bool_decide (tk_kind t = TPunct) && (tk_text t =? ";")%string.

(** the loop of [statementAt]: [i] is the index of the first token of [all] *)
Fixpoint statementAt_from (all : list Token) (i offset : nat) (span : StatementSpan)
    : StatementSpan :=
  match all with
  | [] => span
  | t :: r =>
      if negb (is_semicolon t) then statementAt_from r (S i) offset span
      else if tk_end t <=? offset
      then statementAt_from r (S i) offset
             (mkSpan (tk_end t) (sp_end span) (S i) (sp_lastTok span))
      else mkSpan (sp_begin span) (tk_begin t) (sp_firstTok span) i
  end.

Definition statementAt (all : list Token) (offset len : nat) : StatementSpan :=
  statementAt_from all 0 offset (mkSpan 0 len 0 (length all)).

(** the two trimming loops of [statementRangeAt] *)
Fixpoint trim_begin (fuel : nat) (sql : string) (b e : nat) : nat :=
  match fuel with
  | 0 => b
  | S fuel => if (b <? e) && isspace (char_at sql b) then trim_begin fuel sql (b + 1) e else b
  end.
Fixpoint trim_end (sql : string) (b e : nat) : nat :=
  match e with
  | 0 => e
  | S e' => if (b <? e) && isspace (char_at sql e') then trim_end sql b e' else e
  end.

Definition statementRangeAt (sql : string) (offset : nat) (type : DatabaseType) : nat * nat :=
  let offset := offset `min` strlen sql in
  let tokens := tokenize sql (dialectFor type) in
  let span := statementAt tokens offset (strlen sql) in
  let b := trim_begin (sp_end span - sp_begin span) sql (sp_begin span) (sp_end span) in
  let e := trim_end sql b (sp_end span) in
  (b, e).

(** the loop of [statementRanges]: [first] is [None] for [npos] *)
Definition flush_range (first : option nat) (last : nat) : list (nat * nat) :=
  match first with Some f => [(f, last)] | None => [] end.

Fixpoint statementRanges_from (tokens : list Token) (first : option nat) (last : nat)
    : list (nat * nat) :=
  match tokens with
  | [] => flush_range first last
  | t :: r =>
      if is_semicolon t then flush_range first last ++ statementRanges_from r None last
      else if negb (bool_decide (tk_kind t = TComment)) then
        statementRanges_from r (match first with None => Some (tk_begin t) | _ => first end)
          (tk_end t)
      else statementRanges_from r first last
  end.

Definition statementRanges (sql : string) (type : DatabaseType) : list (nat * nat) :=
  statementRanges_from (tokenize sql (dialectFor type)) None 0.

Example ranges_two :
  statementRanges "select ';' ; -- c; c
  ; update t" POSTGRESQL = [(0, 10); (25, 33)].
Proof. reflexivity. Qed.

(** ** Properties: the shape of one token *)

Lemma scan_quoted_len close bs r :
  let '(_, k, _) := scan_quoted close bs r in k <= strlen r.
Proof.
  assert (∀ n r, strlen r <= n → let '(_, k, _) := scan_quoted close bs r in k <= strlen r) as H;
    [|by apply (H (strlen r))].
  clear r. induction n as [|n IH]; intros r Hn.
  { destruct r; simpl in *; lia. }
  destruct r as [|ch r1]; [simpl; lia|]. simpl in Hn |- *.
  pose proof (IH r1 ltac:(lia)) as H1.
  assert (H2 : ∀ nx r2, r1 = String nx r2 →
            let '(_, k, _) := scan_quoted close bs r2 in S (S k) <= S (strlen r1)).
  { intros nx r2 ->. pose proof (IH r2 ltac:(simpl in Hn; lia)) as H2.
    destruct (scan_quoted close bs r2) as [[t k] c]. simpl. lia. }
  destruct (scan_quoted close bs r1) as [[t k] c].
  repeat case_match; simplify_eq; try lia; specialize (H2 _ _ eq_refl); case_match; simplify_eq; lia.
Qed.

Lemma number_len_le p r : number_len p r <= strlen r.
Proof.
  revert p. induction r as [|c r IH]; intros p; simpl; [lia|].
  pose proof (IH c). repeat case_match; lia.
Qed.

Lemma quoted_token_bounds kind i c r close bs :
  let t := quoted_token kind i (String c r) close bs in
  tk_begin t = i ∧ i < tk_end t ≤ i + strlen (String c r).
Proof.
  unfold quoted_token. simpl sdrop. pose proof (scan_quoted_len close bs r).
  destruct (scan_quoted close bs r) as [[t k] cl]. simpl. lia.
Qed.

(** every branch of the tokenizer consumes at least the byte it starts at, and stays in the
    buffer *)
Lemma lex_token_bounds d prev i c r :
  let t := lex_token d prev i (String c r) in
  tk_begin t = i ∧ i < tk_end t ≤ i + strlen (String c r).
Proof.
  cbn zeta. unfold lex_token. set (s := String c r).
  assert (Hs : 1 <= strlen s) by (simpl; lia).
  assert (Hscan : ∀ p, 1 <= scan_while p s 1 <= strlen s) by (intros p; by apply scan_while_bounds).
  repeat (match goal with
          | |- context [if ?b then _ else _] =>
              lazymatch b with
              | context [if _ then _ else _] => fail
              | d_doubleQuoteIdent _ => fail
              | _ => destruct b eqn:?
              end
          end);
  try apply quoted_token_bounds; cbn [tk_begin tk_end].
  - destruct (find_char newline s 0) as [e|] eqn:E; [|cbn [tk_begin tk_end]; lia].
    apply find_char_bounds in E as (_ & He & Hc); [|lia]. split; [done|].
    assert (e ≠ 0); [|cbn [tk_end tk_begin]; lia]. intros ->.
    simpl char_at in *. unfold char_at in *. simpl in *. subst c. done.
  - destruct (find_str "*/" s 2) as [e|] eqn:E; [|cbn [tk_begin tk_end]; lia].
    assert (2 <= strlen s).
    { destruct r; [|simpl; lia]. unfold char_at in *. simpl in *. by rewrite andb_false_r in *. }
    apply find_str_bounds in E; [|done]. change (strlen "*/") with 2 in E. cbn [tk_begin tk_end]. lia.
  - destruct (find_str _ s _) as [e|] eqn:E; [|cbn [tk_begin tk_end]; lia].
    match goal with H : (_ <? _) && _ = true |- _ => apply andb_true_iff in H as [H%Nat.ltb_lt _] end.
    apply find_str_bounds in E; cbn [tk_begin tk_end]; lia.
  - cbn [tk_begin tk_end]; lia.
  - simpl sdrop. pose proof (number_len_le c r).
    unfold char_at. simpl. lia.
  - split; [done|]. specialize (Hscan (λ ch, isIdentByte ch || (d_hashIdent d && (ch =? "#")%char))).
    lia.
  - split; [done|]. specialize (Hscan (λ ch, (ch =? "@")%char || isIdentByte ch)). lia.
  - cbn [tk_begin tk_end]; lia.
  - cbn [tk_begin tk_end]; lia.
Qed.

(** words, punctuation and operators carry the source text they span *)
Definition verbatim (k : Tok) : bool :=
  match k with TWord | TPunct | TOp => true | _ => false end.

Definition kind_punct_or_word (k : Tok) : bool :=
  match k with TWord | TPunct => true | _ => false end.

Lemma stake_1_char c r : stake 1 (String c r) = str1 c.
Proof. by destruct r. Qed.

Lemma lex_token_text d prev i c r :
  let t := lex_token d prev i (String c r) in
  verbatim (tk_kind t) = true → tk_text t = stake (tk_end t - i) (String c r).
Proof.
  cbn zeta. unfold lex_token. set (s := String c r).
  assert (Hq : ∀ kind close bs, verbatim kind = false →
    verbatim (tk_kind (quoted_token kind i s close bs)) = false).
  { intros kind close bs Hk. unfold quoted_token.
    by destruct (scan_quoted close bs (sdrop 1 s)) as [[t k] cl]. }
  repeat (match goal with
          | |- context [if ?b then _ else _] =>
              lazymatch b with
              | context [if _ then _ else _] => fail
              | d_doubleQuoteIdent _ => fail
              | _ => destruct b eqn:?
              end
          end);
  try (rewrite Hq; [done|by first [done|destruct (d_doubleQuoteIdent d)]]);
  repeat match goal with |- context [match ?x with Some _ => _ | None => _ end] => destruct x end;
  cbn [tk_kind verbatim tk_text tk_end]; try done; intros _.
  - replace (i + 1 - i) with 1 by lia. unfold s. rewrite stake_1_char.
    match goal with H : (char_at s 0 =? "$")%char && _ && _ = true |- _ =>
      apply andb_true_iff in H as [[H _]%andb_true_iff _]; apply char_eqb_true in H end.
    unfold char_at, s in *. simpl in *. by subst c.
  - unfold substr. f_equal. lia.
  - replace (i + 1 - i) with 1 by lia. unfold s. by rewrite stake_1_char.
  - replace (i + 1 - i) with 1 by lia. unfold s. by rewrite stake_1_char.
Qed.

(** a token left open runs to the end of the text *)
Lemma scan_quoted_unclosed close bs r :
  let '(_, k, closed) := scan_quoted close bs r in closed = false → k = strlen r.
Proof.
  assert (∀ n r, strlen r <= n →
    let '(_, k, closed) := scan_quoted close bs r in closed = false → k = strlen r) as H;
    [|by apply (H (strlen r))].
  clear r. induction n as [|n IH]; intros r Hn; [by destruct r; simpl in *; [|lia]|].
  destruct r as [|ch r1]; [done|]. simpl in Hn |- *.
  pose proof (IH r1 ltac:(lia)) as H1.
  assert (H2 : ∀ nx r2, r1 = String nx r2 →
    let '(_, k, closed) := scan_quoted close bs r2 in closed = false → S (S k) = S (strlen r1)).
  { intros nx r2 ->. pose proof (IH r2 ltac:(simpl in Hn; lia)) as H2.
    destruct (scan_quoted close bs r2) as [[t k] c]. simpl. intros Hc. by rewrite H2. }
  destruct (scan_quoted close bs r1) as [[t k] c].
  repeat case_match; simplify_eq; intros; try done; try (by rewrite H1);
    specialize (H2 _ _ eq_refl); case_match; simplify_eq; auto.
Qed.

Lemma lex_token_unclosed d prev i c r :
  let t := lex_token d prev i (String c r) in
  tk_closed t = false → tk_end t = i + strlen (String c r).
Proof.
  cbn zeta. unfold lex_token.
  assert (Hq : ∀ kind close bs, let t := quoted_token kind i (String c r) close bs in
    tk_closed t = false → tk_end t = i + strlen (String c r)).
  { intros kind close bs. unfold quoted_token. simpl sdrop.
    pose proof (scan_quoted_unclosed close bs r) as H.
    destruct (scan_quoted close bs r) as [[t k] cl]. simpl. intros Hc. by rewrite (H Hc). }
  set (s := String c r) in *.
  repeat (match goal with
          | |- context [if ?b then _ else _] =>
              lazymatch b with
              | context [if _ then _ else _] => fail
              | d_doubleQuoteIdent _ => fail
              | _ => destruct b
              end
          end);
  try apply Hq; try done;
  repeat match goal with |- context [match ?x with Some _ => _ | None => _ end] => destruct x end;
  done.
Qed.

(** ** Properties: the token stream covers the text *)

Fixpoint tokens_cover (s : string) (pos : nat) (ts : list Token) : Prop :=
  match ts with
  | [] => pos <= strlen s ∧ sall isspace (sdrop pos s) = true
  | t :: r =>
      pos <= tk_begin t ∧ sall isspace (substr s pos (tk_begin t - pos)) = true ∧
      tk_begin t < tk_end t ∧ tk_end t <= strlen s ∧
      isspace (char_at s (tk_begin t)) = false ∧
      ((verbatim (tk_kind t) = true →
          tk_text t = substr s (tk_begin t) (tk_end t - tk_begin t)) ∧
       (tk_closed t = false → tk_end t = strlen s)) ∧
      tokens_cover s (tk_end t) r
  end.

Lemma tokens_cover_space s pos ts :
  pos < strlen s → isspace (char_at s pos) = true →
  tokens_cover s (S pos) ts → tokens_cover s pos ts.
Proof.
  intros Hp Hs. destruct ts as [|t ts]; simpl.
  - intros [? H]. split; [lia|]. rewrite (sdrop_S_char s pos Hp). simpl. by rewrite Hs, H.
  - intros (Hb & Hw & H). split; [lia|]. split; [|done].
    replace (tk_begin t - pos) with (S (tk_begin t - S pos)) by lia.
    rewrite substr_step by done. simpl. by rewrite Hs, Hw.
Qed.

Lemma tokenize_from_cover fuel d prev i r s :
  r = sdrop i s → i <= strlen s → strlen r <= fuel →
  tokens_cover s i (tokenize_from fuel d prev i r).
Proof.
  revert prev i r. induction fuel as [|fuel IH]; intros prev i r Hr Hi Hf.
  - simpl. split; [done|]. rewrite <-Hr. destruct r; [done|simpl in Hf; lia].
  - destruct r as [|c r1].
    { simpl. split; [done|]. by rewrite <-Hr. }
    assert (Hlt : i < strlen s).
    { pose proof (slen_sdrop i s) as H. rewrite <-Hr in H. simpl in H. lia. }
    assert (Hc : char_at s i = c) by (unfold char_at; by rewrite <-Hr).
    assert (Hr1 : r1 = sdrop (S i) s).
    { replace (S i) with (i + 1) by lia. by rewrite <-sdrop_sdrop, <-Hr. }
    simpl in Hf. cbn [tokenize_from]. destruct (isspace c) eqn:Hsp.
    + apply tokens_cover_space; [done|by rewrite Hc|].
      replace (i + 1) with (S i) by lia. apply IH; [done|lia|lia].
    + pose proof (lex_token_bounds d prev i c r1) as [Hb [He1 He2]].
      pose proof (lex_token_text d prev i c r1) as Ht.
      pose proof (lex_token_unclosed d prev i c r1) as Hopen.
      set (t := lex_token d prev i (String c r1)) in *.
      assert (Hlen : strlen (String c r1) = strlen s - i) by (by rewrite Hr, slen_sdrop).
      replace (tk_end t `max` (i + 1) - i) with (tk_end t - i) by lia.
      cbn [tokens_cover]. rewrite Hb, Nat.sub_diag. repeat split; try lia.
      * by rewrite Hc.
      * intros Hv. rewrite (Ht Hv). unfold substr. by rewrite <-Hr.
      * intros Hcl. rewrite (Hopen Hcl). lia.
      * replace (i + (tk_end t - i)) with (tk_end t) by lia. apply IH; [|lia|].
        -- rewrite Hr, sdrop_sdrop. f_equal. lia.
        -- rewrite slen_sdrop. simpl in *. lia.
Qed.

Lemma tokenize_cover (s : string) (d : Dialect) : tokens_cover s 0 (tokenize s d).
Proof. apply tokenize_from_cover; [done|lia|done]. Qed.

(** C1: for every text and dialect the tokens come in order, do not overlap, are not empty,
    lie inside the text, and everything between two tokens, before the first and after the
    last is white space: no byte is lost and none is read twice.  Words, punctuation and
    operators carry exactly the bytes they span, and a token left open is the last of the
    text. *)
Theorem tokenize_covers (s : string) (d : Dialect) : tokens_cover s 0 (tokenize s d).
Proof. apply tokenize_cover. Qed.

(** more fuel than bytes changes nothing: the loop ends on its own *)
Lemma tokenize_from_fuel fuel fuel' d prev i r :
  strlen r <= fuel → strlen r <= fuel' →
  tokenize_from fuel d prev i r = tokenize_from fuel' d prev i r.
Proof.
  revert fuel' prev i r. induction fuel as [|fuel IH]; intros fuel' prev i r Hf Hf'.
  - destruct r; [|simpl in *; lia]. by destruct fuel'.
  - destruct r as [|c r]; [by destruct fuel'|]. simpl in Hf, Hf'.
    destruct fuel' as [|fuel']; [lia|]. cbn [tokenize_from].
    destruct (isspace c); [apply IH; lia|]. f_equal.
    pose proof (lex_token_bounds d prev i c r) as [_ [? ?]].
    apply IH; rewrite slen_sdrop; simpl strlen in *; lia.
Qed.

(** ** Properties: statements *)

(** the tokens between semicolons *)
Definition strictly_before (ts : list Token) : Prop :=
  ∀ i j t u, ts !! i = Some t → ts !! j = Some u → i < j → tk_end t <= tk_begin u.

Lemma tokens_cover_bounds s pos ts t :
  tokens_cover s pos ts → t ∈ ts → pos <= tk_begin t ∧ tk_begin t < tk_end t ∧ tk_end t <= strlen s.
Proof.
  revert pos. induction ts as [|u ts IH]; intros pos; [by intros _ ?%not_elem_of_nil|].
  simpl. intros (H1 & _ & H2 & H3 & _ & _ & Hr) [->|Hin]%elem_of_cons; [lia|].
  apply (IH _ Hr) in Hin. lia.
Qed.

(** [statementRanges_from] over tokens that start at [pos], with a range open from [first] *)
Fixpoint ranges_ordered (lo : nat) (rs : list (nat * nat)) (hi : nat) : Prop :=
  match rs with
  | [] => lo <= hi
  | (b, e) :: r => lo <= b ∧ b < e ∧ ranges_ordered e r hi
  end.

Lemma ranges_ordered_weaken lo lo' rs hi :
  lo' <= lo → ranges_ordered lo rs hi → ranges_ordered lo' rs hi.
Proof. destruct rs as [|[b e] rs]; simpl; [lia|]. intros ? (? & ? & ?). repeat split; [lia..|done]. Qed.

Lemma statementRanges_from_ordered s pos ts first last :
  tokens_cover s pos ts → last <= pos →
  match first with Some f => f < last | None => True end →
  ranges_ordered (match first with Some f => f | None => pos end)
    (statementRanges_from ts first last) (strlen s).
Proof.
  revert pos first last. induction ts as [|t ts IH]; intros pos first last.
  - intros [Hp _] Hl Hf. destruct first as [f|]; simpl; lia.
  - intros (H1 & _ & H2 & H3 & _ & _ & Hr) Hl Hf. cbn [statementRanges_from].
    destruct (is_semicolon t).
    + specialize (IH _ None last Hr ltac:(lia) I). simpl in IH.
      destruct first as [f|]; simpl; repeat split; try lia; apply (ranges_ordered_weaken (tk_end t)); (lia || done).
    + destruct (negb _).
      * destruct first as [f|].
        -- apply (IH _ (Some f) (tk_end t) Hr); lia.
        -- eapply ranges_ordered_weaken; [|apply (IH _ (Some (tk_begin t)) (tk_end t) Hr); lia]. done.
      * specialize (IH _ first last Hr ltac:(lia) Hf).
        destruct first as [f|]; [done|]. eapply ranges_ordered_weaken; [|done]. lia.
Qed.

(** a token that belongs to a statement: neither a comment nor a semicolon *)
Definition significant (t : Token) : bool :=
  negb (is_semicolon t) && negb (bool_decide (tk_kind t = TComment)).

Definition inside (r : nat * nat) (t : Token) : Prop := fst r <= tk_begin t ∧ tk_end t <= snd r.

Lemma ranges_from_first ts f last :
  ∃ e rs, statementRanges_from ts (Some f) last = (f, e) :: rs ∧
    (e = last ∨ ∃ t, t ∈ ts ∧ tk_end t = e).
Proof.
  revert last. induction ts as [|t ts IH]; intros last; cbn [statementRanges_from].
  - exists last, []. auto.
  - destruct (is_semicolon t); [exists last; simpl; eauto|]. destruct (negb _).
    + destruct (IH (tk_end t)) as (e & rs & -> & H). exists e, rs. split; [done|]. right.
      destruct H as [->|(u & Hu & <-)]; [exists t; set_solver|exists u; set_solver].
    + destruct (IH last) as (e & rs & -> & H). exists e, rs. split; [done|].
      destruct H as [->|(u & Hu & <-)]; [by left|right; exists u; set_solver].
Qed.

Lemma ranges_from_last s pos ts f last e rs :
  tokens_cover s pos ts → last <= pos →
  statementRanges_from ts (Some f) last = (f, e) :: rs → last <= e.
Proof.
  intros Hc Hl H. destruct (ranges_from_first ts f last) as (e' & rs' & H' & He).
  rewrite H in H'. simplify_eq. destruct He as [->|(t & Ht & <-)]; [done|].
  apply (tokens_cover_bounds _ _ _ _ Hc) in Ht. lia.
Qed.

(** every significant token lies in one of the ranges; a semicolon in none *)
Lemma statementRanges_from_complete s pos ts first last :
  tokens_cover s pos ts → last <= pos →
  match first with Some f => f < last | None => True end →
  ∀ t, t ∈ ts →
    (significant t = true → ∃ r, r ∈ statementRanges_from ts first last ∧ inside r t) ∧
    (is_semicolon t = true → ∀ r, r ∈ statementRanges_from ts first last →
       tk_end t <= fst r ∨ snd r <= tk_begin t).
Proof.
  revert pos first last. induction ts as [|u ts IH]; intros pos first last;
    [by intros _ _ _ t ?%not_elem_of_nil|].
  intros (H1 & _ & H2 & H3 & _ & _ & Hr) Hl Hf t Ht. cbn [statementRanges_from].
  apply elem_of_cons in Ht as [->|Ht].
  - destruct (is_semicolon u) eqn:Hsc; unfold significant; rewrite Hsc; simpl; (split; [|try done]).
    + done.
    + intros _ r [Hin|Hin]%elem_of_app.
      * right. destruct first as [f|]; simpl in Hin; [|by apply not_elem_of_nil in Hin].
        apply list_elem_of_singleton in Hin as ->. simpl. lia.
      * left. pose proof (statementRanges_from_ordered s _ ts None last Hr ltac:(lia) I) as Ho.
        simpl in Ho. clear -Hin Ho. revert Ho. generalize (tk_end u) as lo.
        induction (statementRanges_from ts None last) as [|[b e] rs IHrs]; intros lo;
          [by apply not_elem_of_nil in Hin|].
        simpl. intros (? & ? & ?). apply elem_of_cons in Hin as [->|Hin]; [done|].
        apply (IHrs Hin) in H1. lia.
    + intros ->. destruct first as [f|]; simpl.
      * destruct (ranges_from_first ts f (tk_end u)) as (e & rs & E & _). rewrite E.
        exists (f, e). split; [set_solver|]. pose proof (ranges_from_last _ _ _ _ _ _ _ Hr (le_n _) E).
        unfold inside. simpl. lia.
      * destruct (ranges_from_first ts (tk_begin u) (tk_end u)) as (e & rs & E & _). rewrite E.
        exists (tk_begin u, e). split; [set_solver|].
        pose proof (ranges_from_last _ _ _ _ _ _ _ Hr (le_n _) E). unfold inside. simpl. lia.
  - destruct (is_semicolon u).
    + destruct (IH _ None last Hr ltac:(lia) I t Ht) as [Ha Hb]. split.
      * intros (r & Hin & Hi)%Ha. exists r. split; [|done]. apply elem_of_app. by right.
      * intros Hsc r [Hin|Hin]%elem_of_app; [|by apply Hb]. right.
        apply (tokens_cover_bounds _ _ _ _ Hr) in Ht.
        destruct first as [f|]; simpl in Hin; [|by apply not_elem_of_nil in Hin].
        apply list_elem_of_singleton in Hin as ->. simpl. lia.
    + destruct (negb _).
      * apply (IH _ _ (tk_end u) Hr); [done| |done]. destruct first; lia.
      * apply (IH _ first last Hr); [lia|done|done].
Qed.

(** C8: the statement ranges come in order, are not empty, do not overlap and stay in the
    text; every token that is neither a comment nor a semicolon lies in one of them, and no
    statement separator lies in any. *)
Theorem statementRanges_correct (sql : string) (type : DatabaseType) :
  let ts := tokenize sql (dialectFor type) in
  let rs := statementRanges sql type in
  ranges_ordered 0 rs (strlen sql) ∧
  ∀ t, t ∈ ts →
    (significant t = true → ∃ r, r ∈ rs ∧ inside r t) ∧
    (is_semicolon t = true → ∀ r, r ∈ rs → tk_end t <= fst r ∨ snd r <= tk_begin t).
Proof.
  pose proof (tokenize_cover sql (dialectFor type)) as Hc. split.
  - apply (statementRanges_from_ordered sql 0 _ None 0 Hc (le_n _) I).
  - apply (statementRanges_from_complete sql 0 _ None 0 Hc (le_n _) I).
Qed.

(** *** [statementRangeAt] *)

Lemma trim_begin_spec fuel sql b e :
  b <= e → e - b <= fuel →
  let b' := trim_begin fuel sql b e in
  b <= b' <= e ∧ (∀ k, b <= k < b' → isspace (char_at sql k) = true) ∧
  (b' < e → isspace (char_at sql b') = false).
Proof.
  revert b. induction fuel as [|fuel IH]; intros b Hbe Hf; cbn [trim_begin].
  { split; [lia|]. split; [intros; lia|lia]. }
  destruct ((b <? e) && isspace (char_at sql b)) eqn:E.
  - apply andb_true_iff in E as [Hlt%Nat.ltb_lt Hs].
    destruct (IH (b + 1) ltac:(lia) ltac:(lia)) as (H1 & H2 & H3). split; [lia|]. split; [|done].
    intros k Hk. destruct (decide (k = b)) as [->|]; [done|]. apply H2. lia.
  - split; [lia|]. split; [intros; lia|]. intros Hlt. apply Nat.ltb_lt in Hlt.
    by rewrite Hlt in E.
Qed.

Lemma trim_end_spec sql b e :
  b <= e →
  let e' := trim_end sql b e in
  b <= e' <= e ∧ (∀ k, e' <= k < e → isspace (char_at sql k) = true).
Proof.
  induction e as [|e IH]; intros Hbe; cbn [trim_end]; [split; [lia|intros; lia]|].
  destruct ((b <? S e) && isspace (char_at sql e)) eqn:E.
  - apply andb_true_iff in E as [Hlt%Nat.ltb_lt Hs]. destruct (IH ltac:(lia)) as [H1 H2].
    split; [lia|]. intros k Hk. destruct (decide (k = e)) as [->|]; [done|]. apply H2. lia.
  - split; [lia|]. intros; lia.
Qed.

Lemma statementAt_from_spec s pos ts i offset span :
  tokens_cover s pos ts → sp_begin span <= pos → sp_begin span <= sp_end span →
  sp_end span = strlen s →
  let sp := statementAt_from ts i offset span in
  (sp_begin sp = sp_begin span ∨
   ∃ t, t ∈ ts ∧ is_semicolon t = true ∧ sp_begin sp = tk_end t ∧ tk_end t <= offset) ∧
  (sp_end sp = strlen s ∨
   ∃ t, t ∈ ts ∧ is_semicolon t = true ∧ sp_end sp = tk_begin t ∧ offset < tk_end t) ∧
  sp_begin sp <= sp_end sp ∧
  (∀ t, t ∈ ts → is_semicolon t = true → tk_end t <= sp_begin sp ∨ sp_end sp <= tk_begin t).
Proof.
  revert pos i span. induction ts as [|t ts IH]; intros pos i span Hc Hb Hbe He; cbn zeta.
  { simpl. repeat split; [by left..|done|]. by intros t ?%not_elem_of_nil. }
  destruct Hc as (H1 & _ & H2 & H3 & _ & _ & Hr). cbn [statementAt_from].
  destruct (is_semicolon t) eqn:Hs; cbn [negb].
  - destruct (tk_end t <=? offset) eqn:Ho.
    + apply Nat.leb_le in Ho.
      destruct (IH (tk_end t) (S i) (mkSpan (tk_end t) (sp_end span) (S i) (sp_lastTok span)) Hr)
        as (A & B & C & D); simpl; [lia..|done|]. simpl in A, B, C, D.
      split; [|split; [|split; [done|]]].
      * right. destruct A as [->|(u & Hu & ? & ? & ?)]; [exists t|exists u]; set_solver.
      * destruct B as [->|(u & Hu & ? & ? & ?)]; [by left|right; exists u]. set_solver.
      * intros u [->|Hu]%elem_of_cons; [|by apply D]. intros _. left.
        destruct A as [->|(v & Hv & _ & -> & _)]; [done|].
        apply (tokens_cover_bounds _ _ _ _ Hr) in Hv. lia.
    + apply Nat.leb_gt in Ho. simpl. split; [by left|]. split; [right; exists t; set_solver|].
      split; [lia|]. intros u [->|Hu]%elem_of_cons _; [by right|]. right.
      apply (tokens_cover_bounds _ _ _ _ Hr) in Hu. lia.
  - destruct (IH (tk_end t) (S i) span Hr ltac:(lia) Hbe He) as (A & B & C & D).
    split; [|split; [|split; [done|]]].
    + destruct A as [->|(u & Hu & ? & ? & ?)]; [by left|right; exists u]. set_solver.
    + destruct B as [->|(u & Hu & ? & ? & ?)]; [by left|right; exists u]. set_solver.
    + intros u [->|Hu]%elem_of_cons Hsu; [congruence|]. by apply D.
Qed.

Lemma ranges_nonspace sql type r :
  r ∈ statementRanges sql type →
  fst r < snd r ≤ strlen sql ∧ isspace (char_at sql (fst r)) = false.
Proof.
  pose proof (tokenize_cover sql (dialectFor type)) as Hc. unfold statementRanges.
  assert (∀ ts pos first last, tokens_cover sql pos ts → last <= pos → pos <= strlen sql →
    match first with
    | Some f => f < last ∧ isspace (char_at sql f) = false | None => True end →
    ∀ r, r ∈ statementRanges_from ts first last →
      fst r < snd r ≤ strlen sql ∧ isspace (char_at sql (fst r)) = false) as H.
  { clear. induction ts as [|t ts IH]; intros pos first last Hc Hl Hp Hf r; cbn [statementRanges_from].
    - destruct first as [f|]; simpl; [|by intros ?%not_elem_of_nil].
      intros ->%list_elem_of_singleton. simpl. destruct Hf. repeat split; [lia..|done].
    - destruct Hc as (H1 & _ & H2 & H3 & Hsp & _ & Hr). destruct (is_semicolon t).
      + intros [Hin|Hin]%elem_of_app; [|apply (IH _ None last Hr); (lia || done)].
        destruct first as [f|]; simpl in Hin; [|by apply not_elem_of_nil in Hin].
        apply list_elem_of_singleton in Hin as ->. simpl. destruct Hf. repeat split; [lia..|done].
      + destruct (negb _).
        * apply (IH _ _ (tk_end t) Hr); [done|done|]. destruct first as [f|]; [|done].
          destruct Hf. split; [lia|done].
        * apply (IH _ first last Hr); [lia|done|done]. }
  apply (H _ 0 None 0 Hc); [done|lia|done].
Qed.

(** the statement around a cursor.  The range lies in the text and crosses no
    statement separator; when the cursor touches one of the statements of
    [statementRanges], it is that statement that is returned: it starts there or earlier
    (a leading comment is kept) and cuts nothing but trailing white space. *)
Lemma statementRangeAt_correct (sql : string) (offset : nat) (type : DatabaseType) :
  let '(b, e) := statementRangeAt sql offset type in
  b <= e ∧ e <= strlen sql ∧
  (∀ t, t ∈ tokenize sql (dialectFor type) → is_semicolon t = true →
     tk_end t <= b ∨ e <= tk_begin t) ∧
  (∀ r, r ∈ statementRanges sql type → fst r <= offset `min` strlen sql <= snd r →
     b <= fst r ∧ fst r < e ∧ sall isspace (substr sql e (snd r - e)) = true).
Proof.
  unfold statementRangeAt. set (ts := tokenize sql (dialectFor type)).
  set (off := offset `min` strlen sql).
  pose proof (tokenize_cover sql (dialectFor type)) as Hc. fold ts in Hc.
  destruct (statementAt_from_spec sql 0 ts 0 off (mkSpan 0 (strlen sql) 0 (length ts)) Hc)
    as (A & B & C & D); [simpl; lia..|done|]. fold (statementAt ts off (strlen sql)) in A, B, C, D.
  set (sp := statementAt ts off (strlen sql)) in *. simpl in A.
  assert (He : sp_end sp <= strlen sql).
  { destruct B as [->|(t & Ht & _ & -> & _)]; [done|].
    apply (tokens_cover_bounds _ _ _ _ Hc) in Ht. lia. }
  destruct (trim_begin_spec (sp_end sp - sp_begin sp) sql (sp_begin sp) (sp_end sp) C (le_n _))
    as (B1 & B2 & B3).
  set (b := trim_begin _ _ _ _) in *.
  destruct (trim_end_spec sql b (sp_end sp) ltac:(lia)) as (E1 & E2).
  set (e := trim_end _ _ _) in *.
  split; [lia|]. split; [lia|]. split.
  { intros t Ht Hs. destruct (D t Ht Hs); [left; lia|right; lia]. }
  intros r Hr Ho. destruct (ranges_nonspace _ _ _ Hr) as [Hlt Hns].
  pose proof (statementRanges_from_complete sql 0 ts None 0 Hc (le_n _) I) as Hsep.
  assert (Hin : sp_begin sp <= fst r ∧ snd r <= sp_end sp).
  { split.
    - destruct A as [->|(t & Ht & Hs & -> & Hto)]; [lia|].
      destruct (proj2 (Hsep t Ht) Hs r Hr) as [?|?]; [done|].
      apply (tokens_cover_bounds _ _ _ _ Hc) in Ht. lia.
    - destruct B as [->|(t & Ht & Hs & -> & Hto)]; [lia|].
      destruct (proj2 (Hsep t Ht) Hs r Hr) as [?|?]; [lia|done]. }
  assert (Hfe : fst r < e).
  { destruct (decide (fst r < e)); [done|]. exfalso.
    rewrite E2 in Hns by lia. done. }
  split; [|split; [done|]].
  - destruct (decide (b <= fst r)); [done|]. exfalso. rewrite B2 in Hns by lia. done.
  - apply sall_substr. intros k Hk _. apply E2. lia.
Qed.
