(* ===== verification/Keywords.v ===== *)
(** * Keyword, function and reserved-word tables

    [src/completion.cpp], lines 325-988, 1842-1858 and 1993-2036: the words completion offers
    per dialect, the words that need quoting as identifiers, and the quoting decision. *)

From S2P Require Import Prelude ConnectionInfo SqlBuilder Lexer.

Definition cassandra_keywords : list string :=
  ["SELECT"; "FROM"; "WHERE"; "AND"; "IN"; "INSERT"; "INTO"; "VALUES"; "UPDATE"; "SET";
   "DELETE"; "CREATE"; "DROP"; "ALTER"; "TRUNCATE"; "USE"; "KEYSPACE"; "KEYSPACES"; "TABLE";
   "TABLES"; "INDEX"; "TYPE"; "MATERIALIZED"; "VIEW"; "PRIMARY"; "KEY"; "CLUSTERING"; "ORDER";
   "BY"; "ASC"; "DESC"; "LIMIT"; "PER"; "PARTITION"; "ALLOW"; "FILTERING"; "IF"; "EXISTS";
   "NOT"; "USING"; "TTL"; "TIMESTAMP"; "BATCH"; "APPLY"; "BEGIN"; "UNLOGGED"; "COUNTER";
   "WITH"; "REPLICATION"; "CONTAINS"; "DISTINCT"; "JSON"; "AS"; "NULL"; "TRUE"; "FALSE"; "ADD";
   "RENAME"; "TO"; "GRANT"; "REVOKE"; "ROLE"; "DESCRIBE"; "TEXT"; "INT"; "BIGINT"; "SMALLINT";
   "TINYINT"; "UUID"; "TIMEUUID"; "BOOLEAN"; "FLOAT"; "DOUBLE"; "DECIMAL"; "VARINT"; "LIST";
   "MAP"; "FROZEN"; "TUPLE"; "BLOB"; "DATE"; "TIME"; "INET"; "ASCII"; "VARCHAR"; "DURATION";
   "STATIC"].

Definition common_keywords : list string :=
  ["SELECT"; "FROM"; "WHERE"; "AND"; "OR"; "NOT"; "IN"; "IS"; "NULL"; "AS"; "ON"; "JOIN";
   "LEFT"; "RIGHT"; "INNER"; "OUTER"; "CROSS"; "FULL"; "NATURAL"; "GROUP"; "BY"; "ORDER";
   "ASC"; "DESC"; "HAVING"; "UNION"; "ALL"; "DISTINCT"; "BETWEEN"; "LIKE"; "EXISTS"; "CASE";
   "WHEN"; "THEN"; "ELSE"; "END"; "BEGIN"; "COMMIT"; "ROLLBACK"; "WITH"; "RECURSIVE";
   "CASCADE"; "RESTRICT"; "REFERENCES"; "PRIMARY"; "KEY"; "FOREIGN"; "UNIQUE"; "CHECK";
   "DEFAULT"; "CONSTRAINT"; "IF"; "TEMPORARY"; "INTO"; "VALUES"; "SET"; "INSERT"; "UPDATE";
   "DELETE"; "CREATE"; "DROP"; "ALTER"; "TABLE"; "INDEX"; "VIEW"; "TRIGGER"; "ADD"; "COLUMN";
   "RENAME"; "TO"; "OVER"; "PARTITION"; "EXCEPT"; "INTERSECT"; "TRUE"; "FALSE"; "USING";
   "TRANSACTION"; "GRANT"; "REVOKE"; "ANY"; "SOME"; "DATE"; "TIME"; "TIMESTAMP"; "INTEGER";
   "INT"; "BIGINT"; "SMALLINT"; "DECIMAL"; "NUMERIC"; "REAL"; "FLOAT"; "CHAR"; "VARCHAR";
   "TEXT"; "REPLACE"].

Definition postgres_keywords : list string :=
  ["LIMIT"; "OFFSET"; "RETURNING"; "ILIKE"; "SIMILAR"; "LATERAL"; "MATERIALIZED";
   "CONCURRENTLY"; "VACUUM"; "ANALYZE"; "COPY"; "ONLY"; "SCHEMA"; "DATABASE"; "SEQUENCE";
   "FUNCTION"; "PROCEDURE"; "RETURNS"; "LANGUAGE"; "DECLARE"; "CONFLICT"; "DO"; "NOTHING";
   "FILTER"; "WINDOW"; "FETCH"; "FIRST"; "NEXT"; "ROWS"; "ROW"; "GENERATED"; "ALWAYS";
   "IDENTITY"; "STORED"; "SERIAL"; "BIGSERIAL"; "SMALLSERIAL"; "BOOLEAN"; "JSON"; "JSONB";
   "UUID"; "BYTEA"; "ARRAY"; "DOUBLE"; "PRECISION"; "TIMESTAMPTZ"; "EXTENSION"; "TRUNCATE";
   "CALL"; "NULLS"; "INTERVAL"; "EXPLAIN"; "TABLESAMPLE"; "UNLOGGED"; "EXECUTE"; "RETURN";
   "OWNER"; "TYPE"; "ENUM"; "DOMAIN"].

Definition redshift_keywords : list string :=
  ["DISTKEY"; "SORTKEY"; "DISTSTYLE"; "ENCODE"; "UNLOAD"].

Definition mysql_keywords : list string :=
  ["LIMIT"; "OFFSET"; "AUTO_INCREMENT"; "ENGINE"; "CHARSET"; "COLLATE"; "SHOW"; "DESCRIBE";
   "DATABASES"; "TABLES"; "COLUMNS"; "USE"; "IGNORE"; "DUPLICATE"; "STRAIGHT_JOIN"; "REGEXP";
   "RLIKE"; "UNSIGNED"; "SIGNED"; "ZEROFILL"; "TINYINT"; "MEDIUMINT"; "LONGTEXT"; "MEDIUMTEXT";
   "TINYTEXT"; "BLOB"; "LONGBLOB"; "DATETIME"; "ENUM"; "JSON"; "BOOLEAN"; "DOUBLE";
   "PROCEDURE"; "FUNCTION"; "DATABASE"; "SCHEMA"; "TRUNCATE"; "CALL"; "EXPLAIN"; "DELIMITER";
   "LOCK"; "UNLOCK"; "INTERVAL"; "WINDOW"; "ROWS"; "DIV"; "XOR"; "SEPARATOR"; "MODIFY";
   "CHANGE"; "AFTER"; "FIRST"; "PROCESSLIST"; "VARIABLES"; "STATUS"; "GENERATED"; "ALWAYS";
   "STORED"; "VIRTUAL"; "DECLARE"].

Definition mariadb_keywords : list string :=
  ["RETURNING"; "SEQUENCE"].

Definition sqlite_keywords : list string :=
  ["LIMIT"; "OFFSET"; "AUTOINCREMENT"; "PRAGMA"; "GLOB"; "REGEXP"; "VACUUM"; "ANALYZE";
   "ATTACH"; "DETACH"; "WITHOUT"; "ROWID"; "CONFLICT"; "ABORT"; "FAIL"; "IGNORE"; "RETURNING";
   "STRICT"; "VIRTUAL"; "EXPLAIN"; "QUERY"; "PLAN"; "INDEXED"; "BLOB"; "BOOLEAN"; "DATETIME";
   "FILTER"; "WINDOW"; "ROWS"; "NULLS"; "GENERATED"; "ALWAYS"; "STORED"; "DO"; "NOTHING";
   "DATABASE"; "IMMEDIATE"; "EXCLUSIVE"; "DEFERRED"; "REINDEX"].

Definition mssql_keywords : list string :=
  ["TOP"; "OFFSET"; "FETCH"; "NEXT"; "ROWS"; "ONLY"; "IDENTITY"; "NOLOCK"; "OUTPUT"; "GO";
   "EXEC"; "EXECUTE"; "DECLARE"; "MERGE"; "MATCHED"; "PIVOT"; "UNPIVOT"; "APPLY"; "PROCEDURE";
   "PROC"; "FUNCTION"; "DATABASE"; "SCHEMA"; "TRUNCATE"; "NVARCHAR"; "NCHAR"; "NTEXT"; "BIT";
   "DATETIME"; "DATETIME2"; "DATETIMEOFFSET"; "UNIQUEIDENTIFIER"; "MONEY"; "VARBINARY";
   "IMAGE"; "PRINT"; "RAISERROR"; "TRY"; "CATCH"; "THROW"; "WHILE"; "RETURN"; "USE";
   "CLUSTERED"; "NONCLUSTERED"; "INCLUDE"; "PERCENT"; "TIES"; "ROWS"; "RETURNS"; "TRAN";
   "SEQUENCE"].

Definition oracle_keywords : list string :=
  ["ROWNUM"; "ROWID"; "CONNECT"; "PRIOR"; "START"; "MINUS"; "DUAL"; "MERGE"; "MATCHED";
   "NOCYCLE"; "FETCH"; "FIRST"; "NEXT"; "ROWS"; "ONLY"; "OFFSET"; "NUMBER"; "VARCHAR2";
   "NVARCHAR2"; "CLOB"; "BLOB"; "RAW"; "SEQUENCE"; "PROCEDURE"; "FUNCTION"; "PACKAGE"; "BODY";
   "SYNONYM"; "DECLARE"; "EXCEPTION"; "LOOP"; "RETURNING"; "TRUNCATE"; "PURGE"; "EXPLAIN";
   "PLAN"; "NULLS"; "LEVEL"; "SIBLINGS"; "SCHEMA"; "IDENTITY"; "GENERATED"; "ALWAYS"; "RETURN";
   "NOCOPY"].

Definition duckdb_keywords : list string :=
  ["LIMIT"; "OFFSET"; "RETURNING"; "ILIKE"; "SIMILAR"; "LATERAL"; "QUALIFY"; "PIVOT";
   "UNPIVOT"; "DESCRIBE"; "SUMMARIZE"; "SHOW"; "EXCLUDE"; "COPY"; "ATTACH"; "DETACH"; "ASOF";
   "POSITIONAL"; "ANTI"; "SEMI"; "SAMPLE"; "INSTALL"; "LOAD"; "PRAGMA"; "EXPLAIN"; "ANALYZE";
   "SEQUENCE"; "SCHEMA"; "MACRO"; "STRUCT"; "LIST"; "MAP"; "BOOLEAN"; "DOUBLE"; "HUGEINT";
   "UBIGINT"; "BLOB"; "UUID"; "JSON"; "TIMESTAMPTZ"; "FILTER"; "WINDOW"; "NULLS"; "CONFLICT";
   "DO"; "NOTHING"; "GENERATED"; "ALWAYS"; "VIRTUAL"; "DATABASE"; "INTERVAL"; "FUNCTION";
   "TYPE"; "ENUM"; "USE"].

Definition cassandra_functions : list string :=
  ["COUNT"; "MIN"; "MAX"; "SUM"; "AVG"; "CAST"; "NOW"; "UUID"; "TOKEN"; "TTL"; "WRITETIME";
   "TOTIMESTAMP"; "TODATE"; "TOUNIXTIMESTAMP"; "MINTIMEUUID"; "MAXTIMEUUID";
   "CURRENTTIMESTAMP"; "CURRENTDATE"; "TOJSON"; "FROMJSON"].

Definition common_functions : list string :=
  ["COUNT"; "SUM"; "AVG"; "MIN"; "MAX"; "COALESCE"; "NULLIF"; "CAST"; "UPPER"; "LOWER"; "TRIM";
   "LTRIM"; "RTRIM"; "REPLACE"; "ABS"; "ROUND"; "FLOOR"; "ROW_NUMBER"; "RANK"; "DENSE_RANK";
   "NTILE"; "LAG"; "LEAD"; "FIRST_VALUE"; "LAST_VALUE"; "CURRENT_TIMESTAMP"; "CURRENT_DATE"].

Definition postgres_functions : list string :=
  ["STRING_AGG"; "ARRAY_AGG"; "BOOL_AND"; "BOOL_OR"; "JSON_AGG"; "JSONB_AGG";
   "JSON_BUILD_OBJECT"; "JSONB_BUILD_OBJECT"; "JSON_BUILD_ARRAY"; "JSON_OBJECT_AGG";
   "JSONB_SET"; "JSONB_EXTRACT_PATH"; "JSON_EXTRACT_PATH"; "TO_JSON"; "TO_JSONB";
   "ROW_TO_JSON"; "LENGTH"; "CHAR_LENGTH"; "SUBSTRING"; "SUBSTR"; "POSITION"; "STRPOS";
   "SPLIT_PART"; "INITCAP"; "LPAD"; "RPAD"; "LEFT"; "RIGHT"; "REVERSE"; "REPEAT"; "TRANSLATE";
   "FORMAT"; "CONCAT"; "CONCAT_WS"; "REGEXP_REPLACE"; "REGEXP_MATCHES";
   "REGEXP_SPLIT_TO_TABLE"; "NOW"; "CURRENT_TIME"; "CLOCK_TIMESTAMP"; "DATE_TRUNC";
   "DATE_PART"; "EXTRACT"; "AGE"; "TO_CHAR"; "TO_DATE"; "TO_TIMESTAMP"; "TO_NUMBER";
   "MAKE_DATE"; "MAKE_INTERVAL"; "GENERATE_SERIES"; "UNNEST"; "ARRAY_LENGTH";
   "ARRAY_TO_STRING"; "STRING_TO_ARRAY"; "CARDINALITY"; "RANDOM"; "PI"; "CEIL"; "CEILING";
   "MOD"; "POWER"; "SQRT"; "SIGN"; "EXP"; "LN"; "LOG"; "GREATEST"; "LEAST"; "GEN_RANDOM_UUID";
   "NEXTVAL"; "CURRVAL"; "SETVAL"; "PG_SIZE_PRETTY"; "PG_TOTAL_RELATION_SIZE"; "PERCENT_RANK";
   "CUME_DIST"; "NTH_VALUE"; "PERCENTILE_CONT"; "MODE"].

Definition redshift_functions : list string :=
  ["LISTAGG"; "GETDATE"; "DATEADD"; "DATEDIFF"; "NVL"; "NVL2"; "DECODE"].

Definition mysql_functions : list string :=
  ["GROUP_CONCAT"; "JSON_ARRAYAGG"; "JSON_OBJECTAGG"; "LENGTH"; "CHAR_LENGTH"; "SUBSTRING";
   "SUBSTR"; "SUBSTRING_INDEX"; "LOCATE"; "INSTR"; "POSITION"; "CONCAT"; "CONCAT_WS"; "LEFT";
   "RIGHT"; "REVERSE"; "REPEAT"; "LPAD"; "RPAD"; "FORMAT"; "REGEXP_REPLACE"; "REGEXP_LIKE";
   "NOW"; "CURDATE"; "CURTIME"; "SYSDATE"; "DATE"; "DATE_ADD"; "DATE_SUB"; "DATEDIFF";
   "TIMESTAMPDIFF"; "DATE_FORMAT"; "STR_TO_DATE"; "UNIX_TIMESTAMP"; "FROM_UNIXTIME"; "YEAR";
   "MONTH"; "DAY"; "HOUR"; "MINUTE"; "SECOND"; "EXTRACT"; "IFNULL"; "IF"; "ISNULL"; "CONVERT";
   "JSON_EXTRACT"; "JSON_UNQUOTE"; "JSON_OBJECT"; "JSON_ARRAY"; "JSON_CONTAINS"; "JSON_SET";
   "RAND"; "UUID"; "LAST_INSERT_ID"; "CEIL"; "CEILING"; "MOD"; "POWER"; "POW"; "SQRT"; "SIGN";
   "EXP"; "LN"; "LOG"; "GREATEST"; "LEAST"; "PERCENT_RANK"; "CUME_DIST"; "NTH_VALUE"].

Definition sqlite_functions : list string :=
  ["GROUP_CONCAT"; "TOTAL"; "LENGTH"; "SUBSTR"; "SUBSTRING"; "INSTR"; "CONCAT"; "PRINTF";
   "FORMAT"; "HEX"; "QUOTE"; "TYPEOF"; "UNICODE"; "CHAR"; "ZEROBLOB"; "RANDOM"; "RANDOMBLOB";
   "IFNULL"; "IIF"; "DATE"; "TIME"; "DATETIME"; "JULIANDAY"; "UNIXEPOCH"; "STRFTIME"; "JSON";
   "JSON_EXTRACT"; "JSON_OBJECT"; "JSON_ARRAY"; "JSON_GROUP_ARRAY"; "JSON_GROUP_OBJECT";
   "JSON_EACH"; "JSON_TREE"; "LAST_INSERT_ROWID"; "CHANGES"; "TOTAL_CHANGES"; "LIKELIHOOD";
   "PERCENT_RANK"; "CUME_DIST"; "NTH_VALUE"; "CEIL"; "CEILING"; "MOD"; "POWER"; "SQRT"; "SIGN";
   "EXP"; "LN"; "LOG"].

Definition mssql_functions : list string :=
  ["LEN"; "DATALENGTH"; "SUBSTRING"; "CHARINDEX"; "PATINDEX"; "CONCAT"; "CONCAT_WS"; "LEFT";
   "RIGHT"; "REVERSE"; "REPLICATE"; "STUFF"; "STRING_AGG"; "STRING_SPLIT"; "FORMAT"; "CONVERT";
   "TRY_CAST"; "TRY_CONVERT"; "PARSE"; "ISNULL"; "IIF"; "CHOOSE"; "GETDATE"; "GETUTCDATE";
   "SYSDATETIME"; "SYSUTCDATETIME"; "DATEADD"; "DATEDIFF"; "DATEPART"; "DATENAME"; "EOMONTH";
   "YEAR"; "MONTH"; "DAY"; "NEWID"; "SCOPE_IDENTITY"; "OBJECT_ID"; "OBJECT_NAME"; "DB_NAME";
   "JSON_VALUE"; "JSON_QUERY"; "JSON_MODIFY"; "OPENJSON"; "ISJSON"; "CEILING"; "POWER"; "SQRT";
   "SIGN"; "EXP"; "LOG"; "RAND"; "PERCENT_RANK"; "CUME_DIST"; "GREATEST"; "LEAST"].

Definition oracle_functions : list string :=
  ["NVL"; "NVL2"; "DECODE"; "LENGTH"; "SUBSTR"; "INSTR"; "CONCAT"; "LPAD"; "RPAD"; "INITCAP";
   "TRANSLATE"; "REGEXP_LIKE"; "REGEXP_REPLACE"; "REGEXP_SUBSTR"; "REGEXP_INSTR"; "LISTAGG";
   "SYSDATE"; "SYSTIMESTAMP"; "TO_CHAR"; "TO_DATE"; "TO_NUMBER"; "TO_TIMESTAMP"; "ADD_MONTHS";
   "MONTHS_BETWEEN"; "LAST_DAY"; "NEXT_DAY"; "TRUNC"; "EXTRACT"; "CEIL"; "MOD"; "POWER";
   "SQRT"; "SIGN"; "EXP"; "LN"; "LOG"; "GREATEST"; "LEAST"; "SYS_GUID"; "JSON_VALUE";
   "JSON_QUERY"; "JSON_OBJECT"; "JSON_ARRAYAGG"; "PERCENT_RANK"; "CUME_DIST"; "NTH_VALUE"].

Definition duckdb_functions : list string :=
  ["STRING_AGG"; "LIST"; "ARRAY_AGG"; "ANY_VALUE"; "ARG_MAX"; "ARG_MIN"; "MEDIAN";
   "QUANTILE_CONT"; "MODE"; "APPROX_COUNT_DISTINCT"; "LENGTH"; "SUBSTRING"; "SUBSTR"; "STRPOS";
   "INSTR"; "CONCAT"; "CONCAT_WS"; "LEFT"; "RIGHT"; "REVERSE"; "REPEAT"; "LPAD"; "RPAD";
   "SPLIT_PART"; "STRING_SPLIT"; "REGEXP_MATCHES"; "REGEXP_REPLACE"; "REGEXP_EXTRACT"; "NOW";
   "TODAY"; "DATE_TRUNC"; "DATE_PART"; "DATEDIFF"; "DATE_DIFF"; "EXTRACT"; "STRFTIME";
   "STRPTIME"; "EPOCH"; "AGE"; "MAKE_DATE"; "GENERATE_SERIES"; "RANGE"; "UNNEST"; "LIST_VALUE";
   "STRUCT_PACK"; "READ_CSV"; "READ_CSV_AUTO"; "READ_PARQUET"; "READ_JSON"; "READ_JSON_AUTO";
   "IFNULL"; "CEIL"; "CEILING"; "MOD"; "POWER"; "SQRT"; "SIGN"; "EXP"; "LN"; "LOG"; "GREATEST";
   "LEAST"; "RANDOM"; "UUID"; "GEN_RANDOM_UUID"].

(** sort and drop repetitions *)
Definition sortUnique (v : list string) : list string :=
  unique String.eqb (stable_sort String.ltb v).

Definition buildKeywords (type : DatabaseType) : list string :=
  if negb (isSqlDialect type) then []
  else if type =t? CASSANDRA then sortUnique cassandra_keywords
  else
    let kw := common_keywords ++
      match type with
      | POSTGRESQL | REDSHIFT | COCKROACHDB =>
          postgres_keywords ++ (if type =t? REDSHIFT then redshift_keywords else [])
      | MYSQL | MARIADB | TIDB =>
          mysql_keywords ++ (if type =t? MARIADB then mariadb_keywords else [])
      | SQLITE => sqlite_keywords
      | MSSQL => mssql_keywords
      | ORACLE => oracle_keywords
      | DUCKDB => duckdb_keywords
      | _ => []
      end in
    sortUnique kw.

Definition buildFunctions (type : DatabaseType) : list string :=
  if negb (isSqlDialect type) then []
  else if type =t? CASSANDRA then sortUnique cassandra_functions
  else
    let fn := common_functions ++
      match type with
      | POSTGRESQL | REDSHIFT | COCKROACHDB =>
          postgres_functions ++ (if type =t? REDSHIFT then redshift_functions else [])
      | MYSQL | MARIADB | TIDB => mysql_functions
      | SQLITE => sqlite_functions
      | MSSQL => mssql_functions
      | ORACLE => oracle_functions
      | DUCKDB => duckdb_functions
      | _ => []
      end in
    sortUnique fn.

(** [std::min(type, kTypeCount - 1)], where [kTypeCount] counts the types up to
    [COCKROACHDB]: only [S3] is clamped *)
Definition clampType (type : DatabaseType) : DatabaseType :=
  match type with S3 => COCKROACHDB | t => t end.

Definition sqlKeywords (type : DatabaseType) : list string := buildKeywords (clampType type).
Definition sqlFunctions (type : DatabaseType) : list string := buildFunctions (clampType type).
Definition builderFor (type : DatabaseType) : ISQLBuilder := createSQLBuilder (clampType type).

Definition reservedWords : list string :=
  ["ALL"; "AND"; "ANY"; "AS"; "ASC"; "BETWEEN"; "BY"; "CASE"; "CHECK"; "COLUMN"; "CONSTRAINT";
   "CREATE"; "CROSS"; "CURRENT_DATE"; "CURRENT_TIME"; "CURRENT_TIMESTAMP"; "CURRENT_USER";
   "DEFAULT"; "DELETE"; "DESC"; "DISTINCT"; "DROP"; "ELSE"; "END"; "EXCEPT"; "EXISTS"; "FALSE";
   "FETCH"; "FOR"; "FOREIGN"; "FROM"; "FULL"; "GRANT"; "GROUP"; "HAVING"; "IN"; "INDEX";
   "INNER"; "INSERT"; "INTERSECT"; "INTO"; "IS"; "JOIN"; "KEY"; "LEFT"; "LIKE"; "LIMIT";
   "NATURAL"; "NOT"; "NULL"; "OFFSET"; "ON"; "OR"; "ORDER"; "OUTER"; "PRIMARY"; "REFERENCES";
   "RIGHT"; "SELECT"; "SET"; "SOME"; "TABLE"; "THEN"; "TO"; "TRUE"; "UNION"; "UNIQUE";
   "UPDATE"; "USER"; "USING"; "VALUES"; "WHEN"; "WHERE"; "WINDOW"; "WITH"].

Definition notAliasWords : list string :=
  ["WHERE"; "ON"; "USING"; "JOIN"; "INNER"; "LEFT"; "RIGHT"; "FULL"; "OUTER"; "CROSS";
   "NATURAL"; "SET"; "VALUES"; "GROUP"; "ORDER"; "HAVING"; "LIMIT"; "OFFSET"; "UNION";
   "INTERSECT"; "EXCEPT"; "MINUS"; "WINDOW"; "FETCH"; "FOR"; "RETURNING"; "SELECT"; "FROM";
   "AS"; "WITH"; "LATERAL"; "APPLY"; "STRAIGHT_JOIN"; "QUALIFY"; "PIVOT"; "UNPIVOT"; "SAMPLE";
   "TABLESAMPLE"; "START"; "CONNECT"; "DEFAULT"; "OUTPUT"; "ASOF"; "POSITIONAL"; "ANTI";
   "SEMI"; "PARTITION"; "INTO"; "WHEN"; "THEN"; "ELSE"; "END"; "AND"; "OR"; "NOT"; "IS"; "IN";
   "LIKE"; "ILIKE"; "BETWEEN"; "IF"; "ALLOW"; "USE"; "IGNORE"; "FORCE"; "NULL"; "TRUE";
   "FALSE"; "LOCK"; "ONLY"; "DO"; "TOP"].

Definition clauseKeywords : list string :=
  ["WHERE"; "JOIN"; "INNER"; "LEFT"; "RIGHT"; "FULL"; "CROSS"; "OUTER"; "ON"; "USING"; "AS";
   "GROUP"; "ORDER"; "HAVING"; "LIMIT"; "UNION"; "SET"; "VALUES"; "SELECT"; "NATURAL";
   "OFFSET"; "RETURNING"; "WINDOW"; "EXCEPT"; "INTERSECT"; "FETCH"; "QUALIFY"; "DEFAULT"].

Definition statementKeywords : list string :=
  ["SELECT"; "INSERT"; "UPDATE"; "DELETE"; "WITH"; "CREATE"; "ALTER"; "DROP"; "TRUNCATE";
   "EXPLAIN"; "BEGIN"; "COMMIT"; "ROLLBACK"; "GRANT"; "REVOKE"; "SHOW"; "DESCRIBE"; "USE";
   "PRAGMA"; "VACUUM"; "ANALYZE"; "CALL"; "EXEC"; "EXECUTE"; "DECLARE"; "MERGE"; "SET"; "COPY"].

Definition relationKeywords : list string :=
  ["LATERAL"; "ONLY"; "SELECT"; "IF"; "NOT"; "EXISTS"; "UNNEST"].

Definition inSet (set : list string) (word : string) : bool := inWords set (upper word).

(** the per-byte loop of [identifierNeedsQuoting] *)
Fixpoint needs_quoting_bytes (foldsLower foldsUpper : bool) (name : string) : bool :=
  match name with
  | EmptyString => false
  | String c r =>
      if negb (isalnum c || (c =? "_")%char || high_byte c) then true
      else if foldsLower && isupper c then true
      else if foldsUpper && islower c then true
      else needs_quoting_bytes foldsLower foldsUpper r
  end.

Definition identifierNeedsQuoting (name : string) (type : DatabaseType) : bool :=
  match name with
  | EmptyString => true
  | String c _ =>
      if negb (isIdentStartByte c) then true
      else
        let foldsLower := isPostgresFamily type || (type =t? CASSANDRA) in
        let foldsUpper := type =t? ORACLE in
        if needs_quoting_bytes foldsLower foldsUpper name then true
        else inSet reservedWords name
  end.

Definition quoteIdentifierIfNeeded (name : string) (type : DatabaseType) : string :=
  if negb (identifierNeedsQuoting name type) then name
  else quoteIdentifier (builderFor type) name.

