(* ===== verification/Quoting.v ===== *)
(** * Generated SQL, read back by the tokenizer

    The quoting routines of [src/sql_builder.cpp], [include/dearsql/ddl_utils.hpp] and
    [src/completion.cpp] against the tokenizer of [src/completion.cpp]: identifiers and string
    literals survive as single tokens, so object names cannot break out of a statement. *)

From S2P Require Import Prelude Types ConnectionInfo DdlUtils SqlBuilder Lexer Keywords.

(** what a token means, without its position *)
Definition lexeme (t : Token) : Tok * string := (tk_kind t, tk_text t).

Definition lexemes (d : Dialect) (prev : option ascii) (r : string) : list (Tok * string) :=
  map lexeme (tokenize_from (strlen r) d prev 0 r).

(** ** The stream does not depend on where the text starts *)

Definition shift_token (k : nat) (t : Token) : Token :=
  mkToken (tk_kind t) (k + tk_begin t) (k + tk_end t) (tk_closed t) (tk_lineComment t) (tk_text t).

Lemma lex_token_shift d prev i r : lex_token d prev i r = shift_token i (lex_token d prev 0 r).
Proof.
  unfold lex_token, quoted_token, shift_token.
  repeat match goal with
         | |- context [if ?b then _ else _] =>
             lazymatch b with
             | context [if _ then _ else _] => fail
             | d_doubleQuoteIdent _ => fail
             | _ => destruct b
             end
         | |- context [match ?x with Some _ => _ | None => _ end] =>
             lazymatch x with context [match _ with Some _ => _ | None => _ end] => fail
             | _ => destruct x end
         | |- context [let '(_, _) := ?x in _] => destruct x as [[? ?] ?]
         end; simpl; f_equal; lia.
Qed.

Lemma tokenize_from_shift fuel d prev i r :
  map lexeme (tokenize_from fuel d prev i r) = map lexeme (tokenize_from fuel d prev 0 r).
Proof.
  revert prev i r. induction fuel as [|fuel IH]; intros prev i r; [done|].
  destruct r as [|c r]; [done|]. cbn [tokenize_from]. destruct (isspace c).
  - by rewrite IH, (IH _ (0 + 1)).
  - pose proof (lex_token_bounds d prev 0 c r) as [_ [? _]].
    rewrite (lex_token_shift d prev i). unfold shift_token. cbn [map tk_end].
    replace ((i + tk_end (lex_token d prev 0 (String c r))) `max` (i + 1) - i) with
      (tk_end (lex_token d prev 0 (String c r))) by lia.
    replace (tk_end (lex_token d prev 0 (String c r)) `max` (0 + 1) - 0) with
      (tk_end (lex_token d prev 0 (String c r))) by lia.
    f_equal. by rewrite IH, (IH _ (0 + _)).
Qed.

Lemma lexemes_nil d prev : lexemes d prev "" = [].
Proof. done. Qed.

Lemma lexemes_space d prev r : lexemes d prev (" " +:+ r) = lexemes d (Some " "%char) r.
Proof.
  unfold lexemes. rewrite slen_app. cbn [Nat.add String.length].
  change (" " +:+ r) with (String " " r). cbn [tokenize_from isspace].
  apply tokenize_from_shift.
Qed.

(** one token, then the rest of the text *)
Lemma lexemes_cons d prev c w rest t :
  isspace c = false →
  lex_token d prev 0 (String c w +:+ rest) = t →
  tk_end t = strlen (String c w) →
  lexemes d prev (String c w +:+ rest) =
  lexeme t :: lexemes d (Some (char_at (String c w +:+ rest) (strlen w))) rest.
Proof.
  intros Hs Ht He. unfold lexemes. rewrite slen_app. cbn [Nat.add String.length] in *.
  rewrite sapp_cons in *. cbn [tokenize_from]. rewrite Hs, Ht. cbn [map]. f_equal.
  replace (tk_end t `max` (0 + 1) - 0) with (S (strlen w)) by lia.
  rewrite tokenize_from_shift. replace (S (strlen w) - 1) with (strlen w) by lia.
  replace (sdrop (S (strlen w)) (String c (w +:+ rest))) with rest
    by (simpl; by rewrite sdrop_app).
  f_equal. apply tokenize_from_fuel; lia.
Qed.

(** ** Quoted text *)

Lemma scan_quoted_escaped q bs name rest :
  head_is q rest = false → (q =? "\")%char = false →
  bs = false ∨ sall (λ c, negb (c =? "\")%char) name = true →
  scan_quoted q bs (double_char q name +:+ String q rest) =
  (name, strlen (double_char q name) + 1, true).
Proof.
  intros Hr Hq. induction name as [|c name IH]; intros Hb.
  - cbn [double_char]. rewrite sapp_nil_l. cbn [scan_quoted]. rewrite Hq, andb_false_r, char_eqb_refl.
    destruct rest as [|c' r']; [done|]. simpl in Hr. by rewrite Hr.
  - assert (Hc : bs && (c =? "\")%char = false).
    { destruct Hb as [->|Hb]; [done|]. simpl in Hb. apply andb_true_iff in Hb as [Hb _].
      apply negb_true_iff in Hb. by rewrite Hb, andb_false_r. }
    assert (Hb' : bs = false ∨ sall (λ c, negb (c =? "\")%char) name = true).
    { destruct Hb as [->|Hb]; [by left|]. simpl in Hb. apply andb_true_iff in Hb as [_ Hb]. auto. }
    specialize (IH Hb'). cbn [double_char]. destruct (c =? q)%char eqn:E.
    + apply char_eqb_true in E as ->. rewrite !sapp_cons. cbn [scan_quoted].
      rewrite Hc, char_eqb_refl, IH. done.
    + rewrite sapp_cons. cbn [scan_quoted]. rewrite Hc, E, IH. done.
Qed.

Definition close_quote (type : DatabaseType) : ascii :=
  match type with
  | MYSQL | MARIADB | TIDB => "`" | MSSQL => "]" | _ => dquote
  end.

Lemma quoteIdentifier_lexeme type prev name rest :
  head_is (close_quote type) rest = false →
  let q := quoteIdentifier (createSQLBuilder type) name in
  lex_token (dialectFor type) prev 0 (q +:+ rest) =
  mkToken TQuotedIdent 0 (strlen q) true false name.
Proof.
  intros Hr. destruct type; cbn zeta;
    cbn [createSQLBuilder quoteIdentifier PostgreSQLBuilder MySQLBuilder MSSQLBuilder OracleBuilder
         SQLiteBuilder DuckDBBuilder CassandraBuilder];
    unfold quote_double, quote_backtick, quote_bracket; str_simpl;
    unfold lex_token, char_at; cbn -[scan_quoted String.append double_char];
    unfold quoted_token; cbn [sdrop]; simpl in Hr;
    rewrite scan_quoted_escaped by (done || by left); f_equal; lia.
Qed.

Lemma quoteIdentifier_shape type name :
  ∃ c w, quoteIdentifier (createSQLBuilder type) name = String c w ∧ isspace c = false.
Proof. destruct type; simpl; unfold quote_double, quote_backtick, quote_bracket; eauto. Qed.

Lemma lexemes_quoted type prev name rest :
  head_is (close_quote type) rest = false →
  ∃ p, lexemes (dialectFor type) prev (quoteIdentifier (createSQLBuilder type) name +:+ rest) =
       (TQuotedIdent, name) :: lexemes (dialectFor type) (Some p) rest.
Proof.
  intros Hr. pose proof (quoteIdentifier_lexeme type prev name rest Hr) as Ht.
  destruct (quoteIdentifier_shape type name) as (c & w & E & Hs). cbn zeta in Ht. rewrite E in *.
  rewrite (lexemes_cons _ _ _ _ _ _ Hs Ht); [|done]. eauto.
Qed.

Lemma ident_start_facts c :
  isIdentStartByte c = true →
  isspace c = false ∧ (c =? "-")%char = false ∧ (c =? "#")%char = false ∧ (c =? "/")%char = false ∧
  (c =? squote)%char = false ∧ (c =? dquote)%char = false ∧ (c =? "`")%char = false ∧
  (c =? "[")%char = false ∧ (c =? "$")%char = false ∧ isdigit c = false ∧ (c =? ".")%char = false.
Proof.
  intros Hc.
  assert (H : implb (isIdentStartByte c)
    (negb (isspace c || (c =? "-")%char || (c =? "#")%char || (c =? "/")%char ||
           (c =? squote)%char || (c =? dquote)%char || (c =? "`")%char || (c =? "[")%char ||
           (c =? "$")%char || isdigit c || (c =? ".")%char)) = true) by by_bytes c.
  rewrite Hc in H. simpl in H. apply negb_true_iff in H. rewrite !orb_false_iff in H. tauto.
Qed.

(** what may follow a word: the end of the text, or a byte that is no part of a name *)
Definition ends_word (d : Dialect) (rest : string) : bool :=
  match rest with
  | EmptyString => true
  | String c _ => negb (isIdentByte c || (d_hashIdent d && (c =? "#")%char))
  end.

Lemma word_lexeme d prev c w rest :
  isIdentStartByte c = true → sall isIdentByte w = true → ends_word d rest = true →
  lex_token d prev 0 (String c w +:+ rest) =
  mkToken TWord 0 (strlen (String c w)) true false (String c w).
Proof.
  intros Hc Hw Hr. destruct (ident_start_facts c Hc) as (_ & E1 & E2 & E3 & E4 & E5 & E6 & E7 & E8 & E9 & E10).
  rewrite sapp_cons. unfold lex_token.
  change (char_at (String c (w +:+ rest)) 0) with c.
  rewrite E1, E2, E3, E4, E5, E6, E7, E8, E9, E10, Hc. cbn [andb orb].
  assert (scan_while (λ ch, isIdentByte ch || (d_hashIdent d && (ch =? "#")%char))
            (String c (w +:+ rest)) 1 = strlen (String c w)) as ->.
  { unfold scan_while. simpl. f_equal. rewrite span_len_app.
    - destruct rest as [|c' r]; [simpl; lia|]. simpl in Hr |- *. apply negb_true_iff in Hr.
      rewrite Hr. lia.
    - eapply sall_impl; [|done]. intros x ->. done. }
  f_equal. unfold substr. simpl. f_equal. by rewrite stake_app.
Qed.

Lemma lexemes_word d prev c w rest :
  isIdentStartByte c = true → sall isIdentByte w = true → ends_word d rest = true →
  ∃ p, lexemes d prev (String c w +:+ rest) = (TWord, String c w) :: lexemes d (Some p) rest.
Proof.
  intros Hc Hw Hr. destruct (ident_start_facts c Hc) as [Hs _].
  rewrite (lexemes_cons _ _ _ _ _ _ Hs (word_lexeme d prev c w rest Hc Hw Hr)); [|done]. eauto.
Qed.

Lemma needs_quoting_bytes_ident fl fu name :
  needs_quoting_bytes fl fu name = false → sall isIdentByte name = true.
Proof.
  induction name as [|c r IH]; simpl; [done|].
  destruct (isalnum c || (c =? "_")%char || high_byte c) eqn:E; [|done]. simpl.
  repeat case_match; try done. intros Hr. rewrite IH by done. rewrite andb_true_r.
  unfold isIdentByte. rewrite !orb_true_iff in *. tauto.
Qed.

Lemma tokenize_one c w d t :
  isspace c = false → lex_token d None 0 (String c w) = t → tk_end t = strlen (String c w) →
  tokenize (String c w) d = [t].
Proof.
  intros Hs <- He. unfold tokenize. cbn [String.length tokenize_from]. rewrite Hs.
  f_equal. rewrite sdrop_all by lia. by destruct (strlen w).
Qed.

(** C9: an identifier inserted by completion is read back as written.  Whatever bytes the
    name holds, [quoteIdentifierIfNeeded] produces exactly one token of its dialect, an
    identifier spanning the whole text, closed, whose unquoted text is the name; and it is
    left unquoted only when it is no reserved word. *)
Theorem quoteIdentifierIfNeeded_roundtrip (name : string) (type : DatabaseType) :
  let q := quoteIdentifierIfNeeded name type in
  ∃ k, tokenize q (dialectFor type) = [mkToken k 0 (strlen q) true false name] ∧
       (k = TQuotedIdent ∨ k = TWord ∧ q = name ∧ inSet reservedWords name = false).
Proof.
  cbn zeta. unfold quoteIdentifierIfNeeded. destruct (identifierNeedsQuoting name type) eqn:E; simpl.
  - exists TQuotedIdent. split; [|by left].
    assert (quoteIdentifier (builderFor type) name = quoteIdentifier (createSQLBuilder type) name)
      as -> by by destruct type.
    pose proof (quoteIdentifier_lexeme type None name "" eq_refl) as Ht.
    destruct (quoteIdentifier_shape type name) as (c & w & Eq & Hs).
    cbn zeta in Ht. rewrite sapp_nil_r in Ht. rewrite Eq in *. by apply tokenize_one.
  - exists TWord. unfold identifierNeedsQuoting in E. destruct name as [|c w]; [done|].
    destruct (isIdentStartByte c) eqn:Hc; [|done]. cbn [negb] in E.
    destruct (needs_quoting_bytes _ _ _) eqn:Hn; [done|].
    apply needs_quoting_bytes_ident in Hn. simpl in Hn. apply andb_true_iff in Hn as [_ Hw].
    destruct (ident_start_facts c Hc) as [Hs _]. split; [|by right].
    apply tokenize_one; [done| |done].
    pose proof (word_lexeme (dialectFor type) None c w "" Hc Hw eq_refl) as Ht.
    by rewrite sapp_nil_r in Ht.
Qed.

(** a value written as a string literal is read back as written, for every dialect
    without backslash escapes, and on the MySQL family for values without a backslash: one
    closed string token that spans the literal and whose text is the value. *)
Lemma string_literal_roundtrip (v : string) (type : DatabaseType) :
  isMySQLFamily type = false ∨ sall (λ c, negb (c =? "\")%char) v = true →
  let q := str1 squote +:+ escapeSingleQuotes v +:+ str1 squote in
  tokenize q (dialectFor type) = [mkToken TString 0 (strlen q) true false v].
Proof.
  intros H. cbn zeta. unfold escapeSingleQuotes. rewrite str1_app.
  assert (Hlen : strlen (String squote (double_char squote v +:+ str1 squote)) =
                 1 + (strlen (double_char squote v) + 1)).
  { simpl. by rewrite slen_app. }
  rewrite Hlen. apply tokenize_one; [done| |by rewrite Hlen].
  assert (Hh : d_hashComment (dialectFor type) && false = false) by (by destruct (d_hashComment _)).
  unfold lex_token, char_at. cbn -[scan_quoted String.append double_char dialectFor str1 Nat.add].
  unfold quoted_token. cbn [sdrop]. change (str1 squote) with (String squote "").
  rewrite scan_quoted_escaped; [done|done|done|].
  destruct H as [H|H]; [left|by right]. by destruct type.
Qed.

Lemma string_literal_roundtrip_witness :
  tokenize (str1 squote +:+ escapeSingleQuotes "it's" +:+ str1 squote) (dialectFor MYSQL) =
  [mkToken TString 0 7 true false "it's"].
Proof. apply (string_literal_roundtrip "it's" MYSQL). right. reflexivity. Defined.

(** on the MySQL family the same escaping is not enough: a column comment that ends in
    a backslash leaves the string of the [ALTER TABLE] statement open. *)
Lemma mysql_comment_backslash_unclosed :
  let c := mkColumn "c" "INT" "" "note\" false false false false in
  ∃ t, t ∈ tokenize (alterColumn MySQLBuilder "t" "c" c) (dialectFor MYSQL) ∧
       tk_kind t = TString ∧ tk_closed t = false.
Proof.
  exists (mkToken TString 44 51 false false "note'"). split; [|done].
  apply (list_elem_of_lookup_2 _ 8). vm_compute. reflexivity.
Qed.

(** ** Object names cannot leave their statement *)

(** the lexemes of a qualified reference *)
Definition ref_lexemes (schema name : string) : list (Tok * string) :=
  if sempty schema then [(TQuotedIdent, name)]
  else [(TQuotedIdent, schema); (TPunct, "."); (TQuotedIdent, name)].

(** the streams [l] that [text] produces, whatever precedes it, before any text that starts
    with a space or ends *)
Definition after_ref (rest : string) : bool :=
  match rest with EmptyString => true | String c _ => (c =? " ")%char end.

Definition lexes (d : Dialect) (text : string) (l : list (Tok * string)) : Prop :=
  ∀ prev rest, after_ref rest = true →
    ∃ p, lexemes d prev (text +:+ rest) = l ++ lexemes d p rest.

Lemma after_ref_close type rest : after_ref rest = true → head_is (close_quote type) rest = false.
Proof.
  destruct rest as [|c r]; simpl; [done|]. intros ->%char_eqb_true. by destruct type.
Qed.

Lemma lexes_quoted type name :
  lexes (dialectFor type) (quoteIdentifier (createSQLBuilder type) name) [(TQuotedIdent, name)].
Proof.
  intros prev rest Hr. destruct (lexemes_quoted type prev name rest) as [p ->];
    [by apply after_ref_close|]. by exists (Some p).
Qed.

(** a dot before a quoted identifier is punctuation *)
Lemma lexemes_dot type prev name rest :
  let q := quoteIdentifier (createSQLBuilder type) name in
  lexemes (dialectFor type) prev ("." +:+ q +:+ rest) =
  (TPunct, ".") :: lexemes (dialectFor type) (Some "."%char) (q +:+ rest).
Proof.
  cbn zeta. destruct (quoteIdentifier_shape type name) as (c & w & E & Hs).
  assert (Hd : isdigit c = false).
  { destruct type; simpl in E; unfold quote_double, quote_backtick, quote_bracket in E;
      rewrite ?str1_app in E; injection E as <- _; done. }
  rewrite E. rewrite (lexemes_cons _ _ "." "" _ (mkToken TPunct 0 1 true false ".")); [done|done| |done].
  rewrite !sapp_cons, sapp_nil_l. unfold lex_token.
  change (char_at (String "." (String c (w +:+ rest))) 0) with "."%char.
  change (char_at (String "." (String c (w +:+ rest))) 1) with c.
  rewrite Hd. by destruct type.
Qed.

Lemma lexes_ref type schema name :
  lexes (dialectFor type) (qualifiedRef (quoteIdentifier (createSQLBuilder type)) schema name)
    (ref_lexemes schema name).
Proof.
  unfold qualifiedRef, ref_lexemes. destruct (sempty schema); [apply lexes_quoted|].
  intros prev rest Hr. rewrite !sapp_assoc.
  destruct (lexemes_quoted type prev schema ("." +:+ quoteIdentifier (createSQLBuilder type) name +:+ rest))
    as [p ->]; [by destruct type|].
  rewrite lexemes_dot.
  destruct (lexes_quoted type name (Some "."%char) rest Hr) as [p' ->]. by exists p'.
Qed.

(** a plain word followed by a space *)
Definition plain_word (w : string) : bool :=
  match w with EmptyString => false | String c r => isIdentStartByte c && sall isIdentByte r end.

Lemma lexes_word d w : plain_word w = true → lexes d w [(TWord, w)].
Proof.
  destruct w as [|c w]; [done|]. intros [Hc Hw]%andb_true_iff prev rest Hr.
  destruct (lexemes_word d prev c w rest Hc Hw) as [p ->]; [|by exists (Some p)].
  destruct rest as [|c' r]; [done|]. simpl in Hr. apply char_eqb_true in Hr as ->.
  simpl. by rewrite andb_false_r.
Qed.

(** a word before a byte of punctuation *)
Lemma lexemes_word_punct type prev w c rest :
  plain_word w = true → c ∈ [","; "."; ";"]%char →
  match rest with String c' _ => isdigit c' = false | EmptyString => True end →
  ∃ p, lexemes (dialectFor type) prev (w +:+ String c rest) =
       (TWord, w) :: (TPunct, str1 c) :: lexemes (dialectFor type) (Some p) rest.
Proof.
  destruct w as [|c0 w]; [done|]. intros [Hc Hw]%andb_true_iff Hin Hrest.
  assert (Hcs : c = ","%char ∨ c = "."%char ∨ c = ";"%char) by set_solver.
  destruct (lexemes_word (dialectFor type) prev c0 w (String c rest) Hc Hw) as [p ->].
  { destruct Hcs as [-> |[-> | ->]]; by destruct type. }
  change (String c rest) with (String c "" +:+ rest).
  rewrite (lexemes_cons (dialectFor type) (Some p) c "" rest (mkToken TPunct 0 1 true false (str1 c)));
    [by eexists| | |done].
  - by destruct Hcs as [-> |[-> | ->]].
  - rewrite sapp_cons, sapp_nil_l. unfold lex_token. change (char_at (String c rest) 0) with c.
    assert (Hn : isdigit (char_at (String c rest) 1) = false) by (by destruct rest).
    rewrite Hn. destruct Hcs as [-> |[-> | ->]]; by destruct type.
Qed.

Lemma lexes_equal type : lexes (dialectFor type) "=" [(TOp, "=")].
Proof.
  intros prev rest Hr. change ("=" +:+ rest) with (String "=" "" +:+ rest).
  rewrite (lexemes_cons (dialectFor type) prev "=" "" rest (mkToken TOp 0 1 true false "="));
    [by eexists|done| |done].
  rewrite sapp_cons, sapp_nil_l. by destruct type.
Qed.

(** two pieces with a space between them *)
Lemma lexes_space d a b la lb :
  lexes d a la → lexes d b lb → lexes d (a +:+ " " +:+ b) (la ++ lb).
Proof.
  intros Ha Hb prev rest Hr. rewrite !sapp_assoc.
  destruct (Ha prev (" " +:+ b +:+ rest) eq_refl) as [p ->]. rewrite lexemes_space.
  destruct (Hb (Some " "%char) rest Hr) as [p' ->]. exists p'. by rewrite app_assoc.
Qed.

Lemma lexes_whole d text l : lexes d text l → lexemes d None text = l.
Proof.
  intros H. destruct (H None "" eq_refl) as [p Hp]. rewrite sapp_nil_r in Hp.
  by rewrite Hp, lexemes_nil, app_nil_r.
Qed.

Definition words (ws : list string) : list (Tok * string) := (λ w, (TWord, w)) <$> ws.

(** [IF EXISTS] on Cassandra and [CASCADE CONSTRAINTS] on Oracle, [ONLY] on PostgreSQL *)
Definition drop_prefix (type : DatabaseType) : list string :=
  match type with CASSANDRA => ["DROP"; "TABLE"; "IF"; "EXISTS"] | _ => ["DROP"; "TABLE"] end.
Definition drop_suffix (type : DatabaseType) : list string :=
  match type with ORACLE => ["CASCADE"; "CONSTRAINTS"] | _ => [] end.
Definition truncate_prefix (type : DatabaseType) : list string :=
  if isPostgresFamily type then ["TRUNCATE"; "TABLE"; "ONLY"] else ["TRUNCATE"; "TABLE"].

(** words, each followed by a space, before [x] *)
Fixpoint spaced (ws : list string) (x : string) : string :=
  match ws with [] => x | w :: r => w +:+ " " +:+ spaced r x end.

Lemma lexes_spaced d ws x l :
  forallb plain_word ws = true → lexes d x l → lexes d (spaced ws x) (words ws ++ l).
Proof.
  induction ws as [|w ws IH]; [done|]. simpl. intros [Hw Hws]%andb_true_iff Hx.
  apply (lexes_space d w (spaced ws x) [_]); [by apply lexes_word|by apply IH].
Qed.

(** pieces with a space between them *)
Lemma lexes_pieces d p ps l ls :
  lexes d p l → Forall2 (lexes d) ps ls → lexes d (sjoin " " (p :: ps)) (l ++ mjoin ls).
Proof.
  intros Hp Hps. revert p l Hp. induction Hps as [|q m qs ms Hq _ IH]; intros p l Hp.
  - cbn [sjoin mjoin list_join]. by rewrite app_nil_r.
  - change (sjoin " " (p :: q :: qs)) with (p +:+ " " +:+ sjoin " " (q :: qs)).
    apply lexes_space; [done|]. by apply IH.
Qed.

(** C36: table statements cannot be broken out of.  For every SQL dialect and every schema
    and table name, [dropTable], [truncateTable], [dropColumn] on a quoted reference and (but
    on MSSQL) [renameTable] lex to their fixed keywords and the names as identifier tokens,
    nothing else: a name never adds a keyword, an operator or a second statement. *)
Theorem table_statements_lex (type : DatabaseType) (schema name name' : string) :
  let b := createSQLBuilder type in
  let lex s := lexemes (dialectFor type) None s in
  lex (dropTable b schema name) =
    words (drop_prefix type) ++ ref_lexemes schema name ++ words (drop_suffix type) ∧
  lex (truncateTable b schema name) = words (truncate_prefix type) ++ ref_lexemes schema name ∧
  lex (dropColumn b (qualifiedRef (quoteIdentifier b) schema name) name') =
    words ["ALTER"; "TABLE"] ++ ref_lexemes schema name ++
    words (if type =t? CASSANDRA then ["DROP"] else ["DROP"; "COLUMN"]) ++
    [(TQuotedIdent, name')] ∧
  (type = MSSQL ∨
   lex (renameTable b schema name name') =
     words (if isMySQLFamily type then ["RENAME"; "TABLE"] else ["ALTER"; "TABLE"]) ++
     ref_lexemes schema name ++
     words (if isMySQLFamily type then ["TO"] else ["RENAME"; "TO"]) ++ [(TQuotedIdent, name')]).
Proof.
  cbn zeta. repeat split; [| | |destruct (decide (type = MSSQL)) as [->|Hn]; [by left|right]];
    apply lexes_whole.
  - assert (Hs : lexes (dialectFor type)
      (spaced (drop_prefix type) (qualifiedRef (quoteIdentifier (createSQLBuilder type)) schema name))
      (words (drop_prefix type) ++ ref_lexemes schema name)).
    { apply lexes_spaced; [by destruct type|apply lexes_ref]. }
    destruct (decide (type = ORACLE)) as [->|Hn].
    + rewrite app_assoc.
      refine (lexes_space _ _ (spaced ["CASCADE"] "CONSTRAINTS") _ (words ["CASCADE"] ++ [(TWord, "CONSTRAINTS")]) Hs _).
      apply lexes_spaced; [done|by apply lexes_word].
    + destruct type; try done; rewrite app_nil_r; exact Hs.
  - assert (Hs : lexes (dialectFor type)
      (spaced (truncate_prefix type) (qualifiedRef (quoteIdentifier (createSQLBuilder type)) schema name))
      (words (truncate_prefix type) ++ ref_lexemes schema name)).
    { apply lexes_spaced; [by destruct type|apply lexes_ref]. }
    destruct type; exact Hs.
  - set (ws := if type =t? CASSANDRA then ["DROP"] else ["DROP"; "COLUMN"]).
    assert (Hs : lexes (dialectFor type)
      (spaced ["ALTER"; "TABLE"] (qualifiedRef (quoteIdentifier (createSQLBuilder type)) schema name +:+
         " " +:+ spaced ws (quoteIdentifier (createSQLBuilder type) name')))
      (words ["ALTER"; "TABLE"] ++ ref_lexemes schema name ++ words ws ++ [(TQuotedIdent, name')])).
    { apply lexes_spaced; [done|]. apply lexes_space; [apply lexes_ref|].
      apply lexes_spaced; [by destruct type|apply lexes_quoted]. }
    destruct type; exact Hs.
  - set (ws := if isMySQLFamily type then ["RENAME"; "TABLE"] else ["ALTER"; "TABLE"]).
    set (ws' := if isMySQLFamily type then ["TO"] else ["RENAME"; "TO"]).
    assert (Hs : lexes (dialectFor type)
      (spaced ws (qualifiedRef (quoteIdentifier (createSQLBuilder type)) schema name +:+
         " " +:+ spaced ws' (quoteIdentifier (createSQLBuilder type) name')))
      (words ws ++ ref_lexemes schema name ++ words ws' ++ [(TQuotedIdent, name')])).
    { apply lexes_spaced; [by destruct type|]. apply lexes_space; [apply lexes_ref|].
      apply lexes_spaced; [by destruct type|apply lexes_quoted]. }
    destruct type; try done; exact Hs.
Qed.

(** on MSSQL [renameTable] writes its arguments into string literals unescaped: a table
    name that holds a quote ends the literal and runs a statement of its own. *)
Lemma mssql_rename_unescaped :
  let sql := renameTable (createSQLBuilder MSSQL) "dbo" "t'; DROP TABLE users; --" "x" in
  ∃ r, r ∈ statementRanges sql MSSQL ∧
       substr sql (fst r) (snd r - fst r) = "DROP TABLE users".
Proof.
  exists (24, 40). split; [|reflexivity].
  apply (list_elem_of_lookup_2 _ 1). vm_compute. reflexivity.
Qed.

(** where escaping falls short.  On the MySQL family quotes are doubled but backslashes
    are not: a column comment that ends in one leaves the string of [ALTER TABLE] open, so
    the statement runs on.  On MSSQL [renameTable] does not escape at all: a table name that
    holds a quote ends the literal, and what follows it is a statement of its own. *)
Lemma unescaped_literals :
  (let c := mkColumn "c" "INT" "" "note\" false false false false in
   ∃ t, t ∈ tokenize (alterColumn MySQLBuilder "t" "c" c) (dialectFor MYSQL) ∧
        tk_kind t = TString ∧ tk_closed t = false) ∧
  (let sql := renameTable (createSQLBuilder MSSQL) "dbo" "t'; DROP TABLE users; --" "x" in
   ∃ r, r ∈ statementRanges sql MSSQL ∧
        substr sql (fst r) (snd r - fst r) = "DROP TABLE users").
Proof. split; [apply mysql_comment_backslash_unclosed|apply mssql_rename_unescaped]. Qed.
