(* ===== verification/Analyzer.v ===== *)
(** * The statement analyzer

    [src/completion.cpp], lines 1024-1741, and the catalog types of
    [include/dearsql/completion.hpp]: parenthesis groups, relation references, CTEs, derived
    column lists and the clause context of a cursor.  Vectors are lists, [int] indices into
    them are [Z] (negative ones are used as [-1] markers and by the guards), and a pointer
    into the catalog is the object it points to, as the catalog does not change. *)

From S2P Require Import Prelude Types ConnectionInfo Lexer Keywords.

Record CatalogObject := mkCatalogObject { obj_schema : string; obj_name : string }.

Record CompletionCatalog := mkCatalog {
  cat_tables : list Table;
  cat_views : list Table;
  cat_sequences : list CatalogObject;
  cat_routines : list Routine;
  cat_schemas : list string;
  cat_defaultSchema : string
}.

Record ColInfo := mkColInfo {
  inf_name : string;
  inf_type : string;
  inf_column : option Column
}.

Record RelationRef := mkRef {
  ref_name : string;
  ref_alias : string;
  ref_path : list string;
  ref_group : Z;
  ref_derived : Z;
  ref_function : bool;
  ref_columnAliases : list string
}.

Record Cte := mkCte { cte_name : string; cte_columns : list string; cte_body : Z }.

Record Group := mkGroup { grp_parent : Z; grp_open : Z; grp_close : Z }.

Record Relation := mkRelation { rel_table : option Table; rel_isView : bool }.

Inductive Ctx :=
  | CtxNone | CtxStatementStart | CtxKeyword | CtxRelation | CtxAfterRelation | CtxColumn
  | CtxTargetColumns.

#[export] Instance Ctx_eq_dec : EqDecision Ctx.
Proof. solve_decision. Defined.

Record Context := mkContext { ctx_kind : Ctx; ctx_target : list string }.

Record Analyzer := mkAnalyzer {
  an_catalog : CompletionCatalog;
  an_type : DatabaseType;
  an_all : list Token;
  an_toks : list Token;
  an_span : StatementSpan;
  an_groups : list Group;
  an_groupOf : list Z;
  an_opens : list Z;
  an_ctes : list Cte;
  an_refs : list RelationRef
}.

(** ** Token predicates *)

Section predicates.
Context (a : Analyzer).

Definition size : Z := Z.of_nat (length (an_toks a)).

Definition tok (i : Z) : option Token := zget (an_toks a) i.

Definition isPunct (i : Z) (c : ascii) : bool :=
  match tok i with
  | Some t => bool_decide (tk_kind t = TPunct) && (char_at (tk_text t) 0 =? c)%char
  | None => false
  end.

Definition isKw (i : Z) (kw : string) : bool :=
  match tok i with
  | Some t => bool_decide (tk_kind t = TWord) && ieq (tk_text t) kw
  | None => false
  end.

Definition isKwIn (i : Z) (kws : list string) : bool := existsb (isKw i) kws.

Definition isIdent (i : Z) : bool :=
  match tok i with
  | Some t => bool_decide (tk_kind t = TWord) || bool_decide (tk_kind t = TQuotedIdent)
  | None => false
  end.

Definition isNameIdent (i : Z) : bool :=
  isIdent i &&
  match tok i with
  | Some t => bool_decide (tk_kind t = TQuotedIdent) || negb (inSet notAliasWords (tk_text t))
  | None => false
  end.

(** [toks_\[i\].text] and [.kind], at an index the callers have checked *)
Definition tok_text (i : Z) : string := match tok i with Some t => tk_text t | None => "" end.
Definition tok_is (i : Z) (k : Tok) : bool :=
  match tok i with Some t => bool_decide (tk_kind t = k) | None => false end.

Definition groupOf (i : Z) : Z := default 0%Z (zget (an_groupOf a) i).
Definition opens (i : Z) : Z := default (-1)%Z (zget (an_opens a) i).
Definition group (g : Z) : Group := default (mkGroup (-1) (-1) (-1)) (zget (an_groups a) g).

Definition closeOf (openIdx : Z) : Z :=
  let g := opens openIdx in
  if (g <? 0)%Z then openIdx else grp_close (group g).

(** fuel for the walks over parents and for the loops over tokens *)
Definition parents_fuel : nat := S (length (an_groups a)).
Definition toks_fuel : nat := S (S (length (an_toks a))).

Fixpoint isAncestorOrSelf_from (fuel : nat) (ancestor g : Z) : bool :=
  match fuel with
  | 0 => false
  | S fuel =>
      if (g <? 0)%Z then false
      else if (g =? ancestor)%Z then true
      else isAncestorOrSelf_from fuel ancestor (grp_parent (group g))
  end.
Definition isAncestorOrSelf (ancestor g : Z) : bool :=
  isAncestorOrSelf_from parents_fuel ancestor g.

Fixpoint depthOf_from (fuel : nat) (g d : Z) : Z :=
  match fuel with
  | 0 => d
  | S fuel => if (0 <? g)%Z then depthOf_from fuel (grp_parent (group g)) (d + 1) else d
  end.
Definition depthOf (g : Z) : Z := depthOf_from parents_fuel g 0.

(** one token of the [groupAt] loop; the top of the stack comes first *)
Definition groupAt_step (stack : list Z) (i : nat) : list Z :=
  if isPunct (Z.of_nat i) "(" then opens (Z.of_nat i) :: stack
  else if isPunct (Z.of_nat i) ")" then
    match stack with _ :: (_ :: _) as r => r | _ => stack end
  else stack.

Definition groupAt (index : Z) : Z :=
  let n := Z.to_nat (Z.min index size) in
  hd 0%Z (foldl groupAt_step [0%Z] (seq 0 n)).

Definition statementStartsWith (kw : string) : bool := isKw 0 kw.

End predicates.

(** ** Relation lookup *)

Fixpoint ieq_all (xs ys : list string) : bool :=
  match xs, ys with
  | x :: xs, y :: ys => ieq x y && ieq_all xs ys
  | _, [] => true
  | [], _ :: _ => false
  end.

Definition qualifierMatches (schemaPath : string) (qualifier : list string) : bool :=
  match qualifier with
  | [] => true
  | _ =>
      let segs := splitPath schemaPath in
      if decide (length segs < length qualifier) then false
      else ieq_all (drop (length segs - length qualifier) segs) qualifier
  end.

Section lookup.
Context (a : Analyzer).

Definition relation_rank (t : Table) (name : string) : Z :=
  ((if (tbl_name t =? name)%string then 1 else 0) +
   (if ieq (tbl_schema t) (cat_defaultSchema (an_catalog a)) then 4
    else if sempty (tbl_schema t) then 2 else 0))%Z.

(** one table of the [consider] lambda; the state is [(best, bestRank)] *)
Definition consider (name : string) (qual : list string) (isView : bool)
    (st : Relation * Z) (t : Table) : Relation * Z :=
  let '(best, bestRank) := st in
  if negb (ieq (tbl_name t) name) || negb (qualifierMatches (tbl_schema t) qual) then st
  else
    let rank := relation_rank t name in
    if (bestRank <? rank)%Z then (mkRelation (Some t) isView, rank) else st.

Definition findRelation (path : list string) : Relation :=
  match last path with
  | None => mkRelation None false
  | Some name =>
      let qual := removelast path in
      let st := foldl (consider name qual false) (mkRelation None false, (-1)%Z)
                  (cat_tables (an_catalog a)) in
      fst (foldl (consider name qual true) st (cat_views (an_catalog a)))
  end.

Definition findCte (name : string) : option Cte :=
  List.find (λ c, ieq (cte_name c) name) (an_ctes a).

(** one reference of the [findRef] loop *)
Definition findRef_step (name : string) (g : Z) (st : option RelationRef * Z) (r : RelationRef)
    : option RelationRef * Z :=
  if negb (ieq (ref_name r) name) || negb (isAncestorOrSelf a (ref_group r) g) then st
  else
    let d := depthOf a (ref_group r) in
    if (snd st <? d)%Z then (Some r, d) else st.

Definition findRef (name : string) (g : Z) : option RelationRef :=
  fst (foldl (findRef_step name g) (None, (-1)%Z) (an_refs a)).

Definition visibleRefs (g : Z) : list RelationRef :=
  stable_sort (λ x y, (depthOf a (ref_group y) <? depthOf a (ref_group x))%Z)
    (filter (λ r, isAncestorOrSelf a (ref_group r) g = true) (an_refs a)).

Definition visibleRefsIn (g : Z) : list RelationRef :=
  filter (λ r, ref_group r = g) (an_refs a).

Definition findRefIn (name : string) (g : Z) : option RelationRef :=
  match List.find (λ r, (ref_group r =? g)%Z && ieq (ref_name r) name) (an_refs a) with
  | Some r => Some r
  | None => findRef name g
  end.

End lookup.

Definition tableColumns (t : Table) : list ColInfo :=
  map (λ c, mkColInfo (col_name c) (col_type c) (Some c)) (tbl_columns t).

Fixpoint applyAliases (cols : list ColInfo) (aliases : list string) : list ColInfo :=
  match aliases, cols with
  | [], _ => cols
  | al :: als, c :: cs => mkColInfo al (inf_type c) None :: applyAliases cs als
  | al :: als, [] => mkColInfo al "" None :: applyAliases [] als
  end.

(** ** Select lists *)

Section select.
Context (a : Analyzer).

(** the columns of the last candidate reached that names the wanted column *)
Fixpoint resolve_candidates (rc : RelationRef → list ColInfo) (name : string)
    (candidates : list RelationRef) (info : ColInfo) : ColInfo :=
  match candidates with
  | [] => info
  | r :: rest =>
      let info :=
        match List.find (λ c, ieq (inf_name c) name) (rc r) with
        | Some c => mkColInfo (inf_name info) (inf_type c) (inf_column c)
        | None => info
        end in
      if negb (sempty (inf_type info)) ||
         match inf_column info with Some _ => true | None => false end
      then info else resolve_candidates rc name rest info
  end.

(** idents and dots in alternation: [a], [t.a], [s.t.a] *)
Fixpoint dotted (wantIdent : bool) (item : list Z) : bool :=
  match item with
  | [] => true
  | i :: r => (if wantIdent then isIdent a i else isPunct a i ".") && dotted (negb wantIdent) r
  end.

(** the columns one select item adds; [rc] is [refColumns] one level deeper *)
Definition deriveItem (rc : RelationRef → list ColInfo) (item : list Z) (g : Z) : list ColInfo :=
  match last item with
  | None => []
  | Some l =>
      let n := length item in
      let at_back k := default (-1)%Z (item !! (n - k)) in
      if tok_is a l TOp && (tok_text a l =? "*")%string then
        if decide (n = 1) then mjoin (rc <$> visibleRefsIn a g)
        else if bool_decide (3 <= n) && isPunct a (at_back 2) "." && isIdent a (at_back 3) then
          match findRefIn a (tok_text a (at_back 3)) g with Some r => rc r | None => [] end
        else []
      else if negb (isIdent a l) then []
      else
        let name := tok_text a l in
        if bool_decide (2 <= n) && isKw a (at_back 2) "AS" then [mkColInfo name "" None]
        else if dotted true item && Nat.odd n then
          let owner := if decide (3 <= n) then findRefIn a (tok_text a (at_back 3)) g else None in
          let candidates :=
            match owner with
            | Some o => [o]
            | None => if decide (n = 1) then visibleRefsIn a g else []
            end in
          [resolve_candidates rc name candidates (mkColInfo name "" None)]
        else if bool_decide (2 <= n) && tok_is a l TWord && inSet notAliasWords name then []
        else if bool_decide (2 <= n) && negb (isPunct a (at_back 2) ".") &&
                negb (tok_is a (at_back 2) TOp)
        then [mkColInfo name "" None]
        else []
  end.

Definition select_end_words : list string :=
  ["FROM"; "INTO"; "WHERE"; "GROUP"; "ORDER"; "HAVING"; "LIMIT"; "UNION"; "EXCEPT"; "INTERSECT";
   "WINDOW"; "FETCH"; "OFFSET"].

(** [while (k < end && !(groupOf(k) == g && isKw(k, "SELECT"))) ++k] *)
Definition find_select_step (g e k : Z) : loop Z :=
  if (k <? e)%Z && negb ((groupOf a k =? g)%Z && isKw a k "SELECT")
  then Continue (k + 1)%Z else Break k.
Definition find_select (g e : Z) : Z → Z := iter_loop (toks_fuel a) (find_select_step g e).

(** skips DISTINCT [ON (...)], ALL, TOP n [PERCENT] *)
Definition skip_modifiers_step (e k : Z) : loop Z :=
  if (k <? e)%Z then
    if isKwIn a k ["DISTINCT"; "ALL"] then
      let k := (k + 1)%Z in
      Continue (if isKw a k "ON" && isPunct a (k + 1) "(" then closeOf a (k + 1) + 1 else k)%Z
    else if isKw a k "TOP" then
      let k := (k + 1)%Z in
      let k := if isPunct a k "(" then (closeOf a k + 1)%Z else (k + 1)%Z in
      Continue (if isKw a k "PERCENT" then k + 1 else k)%Z
    else Break k
  else Break k.
Definition skip_modifiers (e : Z) : Z → Z := iter_loop (toks_fuel a) (skip_modifiers_step e).

(** the loop over the select items; the state is [(k, item, out)] *)
Definition select_items_step (rc : RelationRef → list ColInfo) (g e : Z)
    (st : Z * list Z * list ColInfo) : loop (Z * list Z * list ColInfo) :=
  let '(k, item, out) := st in
  if (k <? e)%Z then
    if isKwIn a k select_end_words then Break st
    else if isPunct a k "," then Continue ((k + 1)%Z, [], out ++ deriveItem rc item g)
    else Continue ((if isPunct a k "(" then closeOf a k + 1 else k + 1)%Z, item ++ [k], out)
  else Break st.

Definition select_items (rc : RelationRef → list ColInfo) (g k e : Z) : list ColInfo :=
  let '(_, item, out) := iter_loop (toks_fuel a) (select_items_step rc g e) (k, [], []) in
  out ++ deriveItem rc item g.

(** [selectColumns] and [refColumns] call each other with a growing [depth] and give up
    beyond 6, so 8 levels of fuel always reach that bound first *)
Fixpoint refColumns_from (fuel : nat) (r : RelationRef) (depth : nat) : list ColInfo :=
  match fuel with
  | 0 => []
  | S fuel =>
      if 6 <? depth then []
      else
        let cols :=
          if (0 <=? ref_derived r)%Z then selectColumns_from fuel (ref_derived r) (depth + 1)
          else if ref_function r then []
          else
            match match ref_path r with [p] => findCte a p | _ => None end with
            | Some c =>
                applyAliases
                  (if (0 <=? cte_body c)%Z then selectColumns_from fuel (cte_body c) (depth + 1)
                   else []) (cte_columns c)
            | None =>
                match rel_table (findRelation a (ref_path r)) with
                | Some t => tableColumns t
                | None => []
                end
            end in
        applyAliases cols (ref_columnAliases r)
  end
with selectColumns_from (fuel : nat) (g : Z) (depth : nat) : list ColInfo :=
  match fuel with
  | 0 => []
  | S fuel =>
      if 6 <? depth then []
      else
        let grp := group a g in
        let b := (grp_open grp + 1)%Z in
        let e := Z.min (grp_close grp) (size a) in
        let k := find_select g e b in
        if (e <=? k)%Z then []
        else
          let k := skip_modifiers e (k + 1)%Z in
          select_items (λ r, refColumns_from fuel r (depth + 1)) g k e
  end.

Definition depth_fuel : nat := 8.

Definition selectColumns (g : Z) (depth : nat) : list ColInfo :=
  selectColumns_from depth_fuel g depth.

Definition cteColumns (c : Cte) (depth : nat) : list ColInfo :=
  applyAliases (if (0 <=? cte_body c)%Z then selectColumns (cte_body c) (depth + 1) else [])
    (cte_columns c).

Definition refColumns (r : RelationRef) (depth : nat) : list ColInfo :=
  refColumns_from depth_fuel r depth.

End select.

(** ** Clause context *)

Section context.
Context (a : Analyzer).

(** the identifiers that end right before token [i], [a.b.], and where the chain starts *)
Definition qualifierBefore_step (st : list string * Z * Z) : loop (list string * Z * Z) :=
  let '(parts, chainStart, j) := st in
  if isPunct a j "." && isIdent a (j - 1)
  then Continue (tok_text a (j - 1) :: parts, (j - 1)%Z, (j - 2)%Z)
  else Break st.
Definition qualifierBefore (i : Z) : list string * Z :=
  fst (iter_loop (toks_fuel a) qualifierBefore_step ([], i, (i - 1)%Z)).

Definition isTableFrom (i : Z) : bool :=
  if isKw a (i - 1) "DISTINCT" then false
  else
    let g := groupOf a i in
    if (0 <? g)%Z then
      negb (isKwIn a (grp_open (group a g) - 1)
              ["EXTRACT"; "SUBSTRING"; "SUBSTR"; "TRIM"; "OVERLAY"; "POSITION"])
    else true.

Definition isRelationKeyword (i : Z) : bool :=
  if isKw a i "FROM" then isTableFrom i
  else if isKw a i "USING" then negb (isPunct a (i + 1) "(")
  else isKwIn a i ["JOIN"; "UPDATE"; "INTO"; "TABLE"; "STRAIGHT_JOIN"].

Definition create_words : list string :=
  ["TEMP"; "TEMPORARY"; "UNLOGGED"; "GLOBAL"; "LOCAL"; "VIRTUAL"; "EXTERNAL"; "REPLACE"; "OR"].
Definition isCreateTable_step (j : Z) : loop Z :=
  if isKwIn a j create_words then Continue (j - 1)%Z else Break j.
Definition isCreateTable (i : Z) : bool :=
  isKw a (iter_loop (toks_fuel a) isCreateTable_step (i - 1)%Z) "CREATE".

(** the state of [relationSlotEmpty]'s loop is [(k, count)] *)
Definition relationSlotEmpty_step (isList : bool) (start : Z) (st : Z * Z) : loop (Z * Z) :=
  let '(k, count) := st in
  if (k <? start)%Z then
    if isPunct a k "(" then Continue (closeOf a k + 1, count + 1)%Z
    else if isList && isPunct a k "," then Continue (k + 1, 0)%Z
    else if isKwIn a k ["LATERAL"; "ONLY"; "IF"; "NOT"; "EXISTS"] then Continue (k + 1, count)%Z
    else Continue (k + 1, count + 1)%Z
  else Break st.
Definition relationSlotEmpty (kw start : Z) : bool :=
  let isList := isKwIn a kw ["FROM"; "USING"] in
  (snd (iter_loop (toks_fuel a) (relationSlotEmpty_step isList start) (kw + 1, 0)%Z) =? 0)%Z.

Definition column_words : list string :=
  ["SELECT"; "WHERE"; "ON"; "HAVING"; "BY"; "SET"; "RETURNING"; "VALUES"; "OUTPUT"; "QUALIFY";
   "WHEN"; "THEN"; "ELSE"].

(** what an unmatched [(] at [k] decides, the first time one is crossed *)
Definition crossing_context (k : Z) : option Context :=
  let '(path, chainStart) :=
    if isIdent a (k - 1) then
      let '(path, chainStart) := qualifierBefore (k - 1) in
      (path ++ [tok_text a (k - 1)], if (chainStart =? k)%Z then (k - 1)%Z else chainStart)
    else ([], k) in
  let named := match path with [] => false | _ => true end in
  if named && isKw a (chainStart - 1) "INTO" then Some (mkContext CtxTargetColumns path)
  else if named && isKw a (chainStart - 1) "ON" && statementStartsWith a "CREATE"
  then Some (mkContext CtxTargetColumns path)
  else if isKw a (k - 1) "USING" then Some (mkContext CtxColumn [])
  else None.

(** the backward loop, at [k = n - 1] *)
Fixpoint detectContext_from (start : Z) (n : nat) (depth : nat) (crossed : bool) : Context :=
  match n with
  | 0 =>
      if crossed then mkContext CtxKeyword []
      else mkContext (if (start =? 0)%Z then CtxStatementStart else CtxKeyword) []
  | S n' =>
      let k := Z.of_nat n' in
      if isPunct a k ")" then detectContext_from start n' (S depth) crossed
      else if isPunct a k "(" then
        match depth with
        | S d => detectContext_from start n' d crossed
        | 0 =>
            if crossed then detectContext_from start n' 0 true
            else match crossing_context k with
                 | Some ctx => ctx
                 | None => detectContext_from start n' 0 true
                 end
        end
      else if bool_decide (0 < depth) || negb (tok_is a k TWord) then
        detectContext_from start n' depth crossed
      else if isRelationKeyword k then
        if isKw a k "TABLE" && isCreateTable k then mkContext CtxNone []
        else if crossed then mkContext CtxKeyword []
        else mkContext (if relationSlotEmpty k start then CtxRelation else CtxAfterRelation) []
      else if isKwIn a k column_words then mkContext CtxColumn []
      else if isKwIn a k ["LIMIT"; "OFFSET"; "FETCH"; "TOP"] then mkContext CtxKeyword []
      else detectContext_from start n' depth crossed
  end.

Definition detectContext (start : Z) : Context :=
  if isKw a (start - 1) "AS" then
    let g := groupOf a (start - 1) in
    if (0 <? g)%Z && isKwIn a (grp_open (group a g) - 1) ["CAST"; "TRY_CAST"]
    then mkContext CtxKeyword []
    else if statementStartsWith a "CREATE" || statementStartsWith a "ALTER"
    then mkContext CtxKeyword []
    else mkContext CtxNone []
  else detectContext_from start (Z.to_nat start) 0 false.

(** ** CTEs and references *)

Definition identsInGroup (openIdx : Z) : list string :=
  let g := opens a openIdx in
  if (g <? 0)%Z then []
  else
    let ks := map (λ n, openIdx + 1 + Z.of_nat n)%Z
                (seq 0 (Z.to_nat (closeOf a openIdx - (openIdx + 1)))) in
    map (tok_text a) (filter (λ k, (groupOf a k =? g)%Z && isIdent a k = true) ks).

(** one CTE of a WITH list; the state is [(j, ctes)] *)
Definition collectCtes_step (st : Z * list Cte) : loop (Z * list Cte) :=
  let '(j, ctes) := st in
  if isIdent a j then
    let name := tok_text a j in
    let j := (j + 1)%Z in
    let '(columns, j) :=
      if isPunct a j "(" then (identsInGroup j, closeOf a j + 1)%Z else ([], j) in
    if negb (isKw a j "AS") then Break (j, ctes)
    else
      let j := (j + 1)%Z in
      let j := if isKw a j "NOT" then (j + 1)%Z else j in
      let j := if isKw a j "MATERIALIZED" then (j + 1)%Z else j in
      if negb (isPunct a j "(") then Break (j, ctes)
      else
        let c := mkCte name columns (opens a j) in
        let j := (closeOf a j + 1)%Z in
        if negb (isPunct a j ",") then Break (j, ctes ++ [c])
        else Continue ((j + 1)%Z, ctes ++ [c])
  else Break st.

Definition collectCtes_at (ctes : list Cte) (i : nat) : list Cte :=
  let i := Z.of_nat i in
  if negb (isKw a i "WITH") then ctes
  else
    let j := (i + 1)%Z in
    let j := if isKw a j "RECURSIVE" then (j + 1)%Z else j in
    snd (iter_loop (toks_fuel a) collectCtes_step (j, ctes)).

Definition collectCtes : list Cte := foldl collectCtes_at [] (seq 0 (length (an_toks a))).

(** [while (isKwIn(j, {...})) ++j] *)
Definition skip_relation_words_step (j : Z) : loop Z :=
  if isKwIn a j ["LATERAL"; "ONLY"; "IF"; "NOT"; "EXISTS"] then Continue (j + 1)%Z else Break j.
Definition skip_relation_words : Z → Z := iter_loop (toks_fuel a) skip_relation_words_step.

(** [while (isPunct(j, '.') && isIdent(j + 1))] *)
Definition path_tail_step (st : list string * Z) : loop (list string * Z) :=
  let '(path, j) := st in
  if isPunct a j "." && isIdent a (j + 1)
  then Continue (path ++ [tok_text a (j + 1)], (j + 2)%Z) else Break st.
Definition path_tail (j : Z) : list string * Z :=
  iter_loop (toks_fuel a) path_tail_step ([], j).

(** the item itself: [(derived, path, function, j)], or [None] when there is none *)
Definition relation_item (into : bool) (j : Z) : option (Z * list string * bool * Z) :=
  if isPunct a j "(" then Some (opens a j, [], false, (closeOf a j + 1)%Z)
  else if isNameIdent a j then
    let '(tail, j') := path_tail (j + 1) in
    let path := tok_text a j :: tail in
    if negb into && isPunct a j' "(" then Some ((-1)%Z, path, true, (closeOf a j' + 1)%Z)
    else Some ((-1)%Z, path, false, j')
  else None.

(** one item of a relation list; the state is [(j, refs)] *)
Definition parseRelation_step (isList into : bool) (g : Z) (st : Z * list RelationRef)
    : loop (Z * list RelationRef) :=
  let '(j, refs) := st in
  if (j <? size a)%Z && (groupOf a j =? g)%Z then
    let j := skip_relation_words j in
    match relation_item into j with
    | None => Break (j, refs)
    | Some (derived, path, function, j) =>
        let '(alias, j) :=
          if isKw a j "AS" then
            if isIdent a (j + 1) then (tok_text a (j + 1), (j + 2)%Z) else ("", (j + 1)%Z)
          else if negb into && isNameIdent a j then (tok_text a j, (j + 1)%Z)
          else ("", j) in
        let '(columnAliases, j) :=
          if negb (sempty alias) && isPunct a j "(" && ((0 <=? derived)%Z || function)
          then (identsInGroup j, (closeOf a j + 1)%Z) else ([], j) in
        let name := if negb (sempty alias) then alias
                    else match last path with None => "" | Some p => p end in
        let refs := if negb (sempty name)
                    then refs ++ [mkRef name alias path g derived function columnAliases]
                    else refs in
        if isList && isPunct a j "," then Continue ((j + 1)%Z, refs) else Break (j, refs)
    end
  else Break st.

Definition parseRelationList (kw : Z) (refs : list RelationRef) : list RelationRef :=
  let isList := isKwIn a kw ["FROM"; "USING"] in
  let into := isKw a kw "INTO" in
  let g := groupOf a kw in
  snd (iter_loop (toks_fuel a) (parseRelation_step isList into g) ((kw + 1)%Z, refs)).

Definition collectRefs_at (refs : list RelationRef) (i : nat) : list RelationRef :=
  let i := Z.of_nat i in
  if negb (tok_is a i TWord) || negb (isRelationKeyword i) then refs
  else if isKw a i "TABLE" && isCreateTable i then refs
  else parseRelationList i refs.

Definition collectRefs : list RelationRef := foldl collectRefs_at [] (seq 0 (length (an_toks a))).

End context.

(** ** Groups *)

Record GroupState := mkGroupState {
  gs_groups : list Group;
  gs_groupOf : list Z;
  gs_opens : list Z;
  gs_stack : list Z (* the top first *)
}.

Definition set_close (close : Z) (g : Group) : Group :=
  mkGroup (grp_parent g) (grp_open g) close.

Definition is_punct_token (t : Token) (c : ascii) : bool :=
  bool_decide (tk_kind t = TPunct) && (char_at (tk_text t) 0 =? c)%char.

(** token [i] of [buildGroups]; [total] is [size()] *)
Definition buildGroups_step (total : Z) (st : GroupState) (it : nat * Token) : GroupState :=
  let '(i, t) := it in
  let top := hd 0%Z (gs_stack st) in
  if is_punct_token t "(" then
    let g := Z.of_nat (length (gs_groups st)) in
    mkGroupState (gs_groups st ++ [mkGroup top (Z.of_nat i) total])
      (gs_groupOf st ++ [top]) (gs_opens st ++ [g]) (g :: gs_stack st)
  else if is_punct_token t ")" then
    match gs_stack st with
    | _ :: (top' :: _) as r =>
        mkGroupState (alter (set_close (Z.of_nat i)) (Z.to_nat top) (gs_groups st))
          (gs_groupOf st ++ [top']) (gs_opens st ++ [(-1)%Z]) r
    | _ =>
        mkGroupState (gs_groups st) (gs_groupOf st ++ [top]) (gs_opens st ++ [(-1)%Z])
          (gs_stack st)
    end
  else
    mkGroupState (gs_groups st) (gs_groupOf st ++ [top]) (gs_opens st ++ [(-1)%Z]) (gs_stack st).

Definition indexed (toks : list Token) : list (nat * Token) := zip (seq 0 (length toks)) toks.

Definition buildGroups (toks : list Token) : GroupState :=
  let total := Z.of_nat (length toks) in
  foldl (buildGroups_step total) (mkGroupState [mkGroup (-1) (-1) total] [] [] [0%Z])
    (indexed toks).

(** ** Construction *)

Definition set_ctes (a : Analyzer) (ctes : list Cte) : Analyzer :=
  mkAnalyzer (an_catalog a) (an_type a) (an_all a) (an_toks a) (an_span a) (an_groups a)
    (an_groupOf a) (an_opens a) ctes (an_refs a).

Definition set_refs (a : Analyzer) (refs : list RelationRef) : Analyzer :=
  mkAnalyzer (an_catalog a) (an_type a) (an_all a) (an_toks a) (an_span a) (an_groups a)
    (an_groupOf a) (an_opens a) (an_ctes a) refs.

Definition statement_toks (all : list Token) (span : StatementSpan) : list Token :=
  filter (λ t, tk_kind t ≠ TComment)
    (take (sp_lastTok span - sp_firstTok span) (drop (sp_firstTok span) all)).

Definition analyzer (sql : string) (offset : nat) (catalog : CompletionCatalog)
    (type : DatabaseType) : Analyzer :=
  let all := tokenize sql (dialectFor type) in
  let span := statementAt all offset (strlen sql) in
  let toks := statement_toks all span in
  let gs := buildGroups toks in
  let a := mkAnalyzer catalog type all toks span (gs_groups gs) (gs_groupOf gs) (gs_opens gs)
             [] [] in
  let a := set_ctes a (collectCtes a) in
  set_refs a (collectRefs a).
