(* ===== verification/Completion.v ===== *)
(** * Completion and identifier resolution

    [src/completion.cpp], lines 990-1022 and 1743-2433: matching and scoring, the item
    emitter, what each clause context offers, [complete] and [resolveIdentifierAt]. *)

From S2P Require Import Prelude Types ConnectionInfo SqlBuilder Lexer Keywords Analyzer.

Inductive CompletionKind :=
  | KKeyword | KFunction | KTable | KView | KColumn | KSchema | KSequence | KAlias.

#[export] Instance CompletionKind_eq_dec : EqDecision CompletionKind.
Proof. solve_decision. Defined.

Definition kind_index (k : CompletionKind) : Z :=
  match k with
  | KKeyword => 0 | KFunction => 1 | KTable => 2 | KView => 3
  | KColumn => 4 | KSchema => 5 | KSequence => 6 | KAlias => 7
  end.

Record CompletionItem := mkItem {
  it_label : string;
  it_kind : CompletionKind;
  it_detail : string;
  it_owner : string;
  it_insertText : string;
  it_score : Z
}.

Record CompletionResult := mkResult {
  res_items : list CompletionItem;
  res_replaceStart : nat;
  res_replaceEnd : nat
}.

(** ** Matching *)

Definition kTierPrefix : Z := 4000.
Definition kExactCaseBonus : Z := 150.
Definition kTierBoundary : Z := 3000.
Definition kTierSubstring : Z := 2000.
Definition kTierFuzzy : Z := 1000.
Definition kTierEmpty : Z := 4000.

(** a match at [pos > 0] that starts a word: after a separator, or at a case change *)
Definition word_boundary (label : string) (pos : nat) : bool :=
  let before := char_at label (pos - 1) in
  (before =? "_")%char || (before =? ".")%char || (before =? " ")%char ||
  (isupper (char_at label pos) && islower before).

(** [for (pos = ifind(label, prefix); pos != npos; pos = ifind(label, prefix, pos + 1))] *)
Fixpoint boundary_match (fuel : nat) (label prefix : string) (pos : option nat) : bool :=
  match fuel, pos with
  | S fuel, Some p =>
      if word_boundary label p then true
      else boundary_match fuel label prefix (ifind label prefix (p + 1))
  | _, _ => false
  end.

Definition found (o : option nat) : bool := match o with Some _ => true | None => false end.

Definition matchTier (label prefix : string) (fuzzy : bool) : Z :=
  if sempty prefix then kTierEmpty
  else if starts_with prefix label then kTierPrefix + kExactCaseBonus
  else if istartsWith label prefix then kTierPrefix
  else if boundary_match (S (strlen label)) label prefix (ifind label prefix 0) then kTierBoundary
  else if negb fuzzy then -1
  else if (2 <=? strlen prefix) && found (ifind label prefix 0) then kTierSubstring
  else if (2 <=? strlen prefix) && isSubsequence label prefix then kTierFuzzy
  else -1.

(** ** The emitter *)

(** [for (x : l) { if (!out.empty()) out += '.'; out += x; }] *)
Definition dot_join (l : list string) : string :=
  foldl (λ out x, (if sempty out then out else out +:+ ".") +:+ x) "" l.

(** leading segments shared by [segs] and [defSegs], never the last of [segs] *)
Fixpoint drop_common (segs defSegs : list string) : list string :=
  match segs, defSegs with
  | s :: ((_ :: _) as rest), d :: ds => if ieq s d then drop_common rest ds else segs
  | _, _ => segs
  end.

Definition relativeSchema (schema def : string) : string :=
  dot_join (drop_common (splitPath schema) (splitPath def)).

Record Emitter := mkEmitter {
  em_prefix : string;
  em_quoted : bool;
  em_type : DatabaseType;
  em_items : list CompletionItem
}.

(** scans the typed prefix: an upper-case letter decides; otherwise lower-case when it has
    any letter *)
Fixpoint keyword_case (prefix : string) (alpha : bool) (kw : string) : string :=
  match prefix with
  | EmptyString => if alpha then lower kw else kw
  | String c r => if isupper c then kw else keyword_case r (alpha || isalpha c) kw
  end.

Definition em_keyword (em : Emitter) (kw : string) : string := keyword_case (em_prefix em) false kw.

Definition em_name (em : Emitter) (n : string) : string :=
  if em_quoted em then quoteIdentifier (builderFor (em_type em)) n
  else quoteIdentifierIfNeeded n (em_type em).

Definition em_path (em : Emitter) (schema n : string) : string :=
  if sempty schema then em_name em n
  else foldl (λ out seg, out +:+ em_name em seg +:+ ".") "" (splitPath schema) +:+ em_name em n.

Definition em_add (em : Emitter) (label : string) (kind : CompletionKind)
    (detail owner insert : string) (bonus : Z) (fuzzy : bool) : Emitter :=
  if em_quoted em && (bool_decide (kind = KKeyword) || bool_decide (kind = KFunction)) then em
  else
    let tier := matchTier label (em_prefix em) fuzzy in
    if (tier <? 0)%Z then em
    else if negb (sempty (em_prefix em)) && ieq label (em_prefix em) && negb (em_quoted em) then em
    else mkEmitter (em_prefix em) (em_quoted em) (em_type em)
           (em_items em ++ [mkItem label kind detail owner insert (tier + bonus)]).

(** the comparator of [take]: [a] comes before [b] *)
Definition item_before (a b : CompletionItem) : bool :=
  if negb (it_score a =? it_score b)%Z then (it_score b <? it_score a)%Z
  else if negb (ieq (it_label a) (it_label b)) then iless (it_label a) (it_label b)
  else if negb (bool_decide (it_kind a = it_kind b)) then
    (kind_index (it_kind a) <? kind_index (it_kind b))%Z
  else iless (it_owner a) (it_owner b).

Definition unit_sep : string := str1 "031".

Definition item_key (it : CompletionItem) : string :=
  to_string (kind_index (it_kind it)) +:+ unit_sep +:+ it_label it +:+ unit_sep +:+
  it_insertText it +:+ unit_sep +:+ it_owner it.

Fixpoint take_unseen (seen : gset string) (items : list CompletionItem) : list CompletionItem :=
  match items with
  | [] => []
  | it :: r =>
      if decide (item_key it ∈ seen) then take_unseen seen r
      else it :: take_unseen ({[item_key it]} ∪ seen) r
  end.

Definition em_take (em : Emitter) : list CompletionItem :=
  take_unseen ∅ (stable_sort item_before (em_items em)).

(** ** What is offered *)

Definition addKeywords (em : Emitter) (type : DatabaseType) (boosted : option (list string))
    (base boost : Z) : Emitter :=
  foldl (λ em kw,
    let hit := match boosted with Some ws => inWords ws kw | None => false end in
    em_add em kw KKeyword "" "" (em_keyword em kw) (if hit then base + boost else base) false)
    em (sqlKeywords type).

Definition addRoutine (base : Z) (em : Emitter) (r : Routine) : Emitter :=
  match rt_kind r with
  | RoutineProcedure => em
  | RoutineFunction =>
      let detail := if sempty (rt_signature r) then rt_name r else rt_signature r in
      let detail := if negb (sempty (rt_returnType r)) then detail +:+ (" -> " +:+ rt_returnType r)
                    else detail in
      em_add em (rt_name r) KFunction detail "" (em_name em (rt_name r)) (base + 20) true
  end.

Definition addFunctions (em : Emitter) (type : DatabaseType) (catalog : CompletionCatalog)
    (base : Z) : Emitter :=
  let em := foldl (λ em fn, em_add em fn KFunction "function" "" (em_keyword em fn) base false)
              em (sqlFunctions type) in
  foldl (addRoutine base) em (cat_routines catalog).

Definition addRelation (catalog : CompletionCatalog) (kind : CompletionKind) (bonus : Z)
    (em : Emitter) (t : Table) : Emitter :=
  let local := sempty (tbl_schema t) || ieq (tbl_schema t) (cat_defaultSchema catalog) in
  let rel := if local then "" else relativeSchema (tbl_schema t) (cat_defaultSchema catalog) in
  em_add em (tbl_name t) kind (if bool_decide (kind = KView) then "view" else "table")
    (tbl_schema t) (em_path em rel (tbl_name t)) (if local then bonus else bonus - 40) true.

Definition addRelations (em : Emitter) (catalog : CompletionCatalog) (tableBonus viewBonus : Z)
    : Emitter :=
  foldl (addRelation catalog KView viewBonus)
    (foldl (addRelation catalog KTable tableBonus) em (cat_tables catalog)) (cat_views catalog).

Definition allSchemas (catalog : CompletionCatalog) : list string :=
  let out := cat_schemas catalog ++ map tbl_schema (cat_tables catalog) ++
             map tbl_schema (cat_views catalog) ++ map obj_schema (cat_sequences catalog) in
  let out := filter (λ s, sempty s = false) out in
  unique ieq (stable_sort iless out).

(** one schema of [addSchemas]; the state carries the segments already offered *)
Definition addSchema_step (catalog : CompletionCatalog) (bonus : Z) (st : Emitter * gset string)
    (s : string) : Emitter * gset string :=
  let '(em, seen) := st in
  match splitPath (relativeSchema s (cat_defaultSchema catalog)) with
  | [] => st
  | seg :: _ =>
      if decide (lower seg ∈ seen) then st
      else (em_add em seg KSchema "schema" "" (em_name em seg) bonus true, {[lower seg]} ∪ seen)
  end.

Definition addSchemas (em : Emitter) (catalog : CompletionCatalog) (bonus : Z) : Emitter :=
  fst (foldl (addSchema_step catalog bonus) (em, ∅) (allSchemas catalog)).

(** the next segment below [qualifier] *)
Definition addMemberSchema_step (qualifier : list string) (bonus : Z)
    (st : Emitter * gset string) (s : string) : Emitter * gset string :=
  let '(em, seen) := st in
  let segs := splitPath s in
  match segs !! length qualifier with
  | None => st
  | Some next =>
      if ieq_all segs qualifier then
        if decide (lower next ∈ seen) then st
        else (em_add em next KSchema "schema" s (em_name em next) (bonus - 20) true,
              {[lower next]} ∪ seen)
      else st
  end.

Definition add_if_in (qualifier : list string) (kind : CompletionKind) (detail : string)
    (bonus : Z) (em : Emitter) (on : string * string) : Emitter :=
  let '(schema, name) := on in
  if qualifierMatches schema qualifier
  then em_add em name kind detail schema (em_name em name) bonus true else em.

Definition addSchemaMembers (em : Emitter) (catalog : CompletionCatalog)
    (qualifier : list string) (bonus : Z) (withSequences : bool) : Emitter :=
  let em := foldl (add_if_in qualifier KTable "table" bonus) em
              (map (λ t, (tbl_schema t, tbl_name t)) (cat_tables catalog)) in
  let em := foldl (add_if_in qualifier KView "view" (bonus - 10)) em
              (map (λ t, (tbl_schema t, tbl_name t)) (cat_views catalog)) in
  let em := if withSequences then
              foldl (add_if_in qualifier KSequence "sequence" (bonus - 30)) em
                (map (λ s, (obj_schema s, obj_name s)) (cat_sequences catalog))
            else em in
  fst (foldl (addMemberSchema_step qualifier bonus) (em, ∅) (allSchemas catalog)).

Definition addColumns (em : Emitter) (cols : list ColInfo) (owner : string) (bonus : Z)
    : Emitter :=
  foldl (λ em c, em_add em (inf_name c) KColumn (inf_type c) owner (em_name em (inf_name c))
                   bonus true) em cols.

(** [r.path.size() == 1 && a.findCte(r.path\[0\])] *)
Definition path_cte (a : Analyzer) (path : list string) : option Cte :=
  match path with [p] => findCte a p | _ => None end.

Definition refDetail (a : Analyzer) (r : RelationRef) : string :=
  if (0 <=? ref_derived r)%Z then "subquery"
  else match path_cte a (ref_path r) with
       | Some _ => "cte"
       | None => dot_join (ref_path r)
       end.

(** ** [complete] *)

(** the cursor sits inside a string, comment, number or parameter *)
Definition in_literal (t : Token) (cursor : nat) : bool :=
  match tk_kind t with
  | TComment => if tk_lineComment t then cursor <=? tk_end t
                else (cursor <? tk_end t) || negb (tk_closed t)
  | TString => (cursor <? tk_end t) || negb (tk_closed t)
  | TNumber | TParam => cursor <=? tk_end t
  | _ => false
  end.

Fixpoint inside_literal (tokens : list Token) (cursor : nat) : bool :=
  match tokens with
  | [] => false
  | t :: r =>
      if cursor <=? tk_begin t then false
      else if in_literal t cursor then true
      else inside_literal r cursor
  end.

(** the identifier under the cursor: its index, the typed prefix, the replaced range *)
Record Typed := mkTyped {
  ty_cur : nat;
  ty_quoted : bool;
  ty_prefix : string;
  ty_start : nat;
  ty_end : nat
}.

Fixpoint typed_at (sql : string) (cursor : nat) (toks : list Token) (i : nat) : Typed :=
  match toks with
  | [] => mkTyped i false "" cursor cursor
  | t :: r =>
      if cursor <=? tk_begin t then mkTyped i false "" cursor cursor
      else if bool_decide (tk_kind t = TWord) && (cursor <=? tk_end t) then
        mkTyped i false (substr sql (tk_begin t) (cursor - tk_begin t)) (tk_begin t) (tk_end t)
      else if bool_decide (tk_kind t = TQuotedIdent) &&
              ((cursor <? tk_end t) || negb (tk_closed t)) then
        mkTyped i true (substr sql (tk_begin t + 1) (cursor - tk_begin t - 1)) (tk_begin t)
          (tk_end t)
      else typed_at sql cursor r (S i)
  end.

(** after [qualifier.]: members only *)
Definition complete_members (a : Analyzer) (catalog : CompletionCatalog) (em : Emitter)
    (qualifier : list string) (group : Z) (ctx : Context) : Emitter :=
  let em :=
    if negb (bool_decide (ctx_kind ctx = CtxRelation)) &&
       negb (bool_decide (ctx_kind ctx = CtxAfterRelation)) then
      let owner := default "" (last qualifier) in
      let via :=
        match qualifier with
        | [q] =>
            match findRef a q group with
            | Some r => Some (refColumns a r 0)
            | None => match findCte a q with
                      | Some c => Some (cteColumns a c 0)
                      | None => None
                      end
            end
        | _ => None
        end in
      let cols :=
        match via with
        | Some cols => cols
        | None => match rel_table (findRelation a qualifier) with
                  | Some t => tableColumns t
                  | None => []
                  end
        end in
      addColumns em cols owner 900
    else em in
  addSchemaMembers em catalog qualifier 700 (negb (bool_decide (ctx_kind ctx = CtxRelation))).

Definition complete_relation (a : Analyzer) (type : DatabaseType) (catalog : CompletionCatalog)
    (em : Emitter) : Emitter :=
  let em := foldl (λ em c, em_add em (cte_name c) KTable "cte" "" (em_name em (cte_name c)) 950 true)
              em (an_ctes a) in
  let em := addRelations em catalog 900 880 in
  let em := addSchemas em catalog 700 in
  if negb (sempty (em_prefix em)) then
    foldl (λ em kw, if inWords relationKeywords kw
                    then em_add em kw KKeyword "" "" (em_keyword em kw) 300 false else em)
      em (sqlKeywords type)
  else em.

Definition complete_target (a : Analyzer) (em : Emitter) (target : list string) : Emitter :=
  let cols := match path_cte a target with Some c => cteColumns a c 0 | None => [] end in
  let cols :=
    match cols with
    | [] => match rel_table (findRelation a target) with
            | Some t => tableColumns t
            | None => []
            end
    | _ => cols
    end in
  addColumns em cols (default "" (last target)) 900.

(** one visible reference; the state carries the names already offered *)
Definition complete_ref_step (a : Analyzer) (st : Emitter * gset string) (r : RelationRef)
    : Emitter * gset string :=
  let '(em, named) := st in
  if decide (lower (ref_name r) ∈ named) then st
  else
    let em := addColumns em (refColumns a r 0) (ref_name r) 900 in
    let em := em_add em (ref_name r) KAlias (refDetail a r) "" (em_name em (ref_name r)) 750 true in
    (em, {[lower (ref_name r)]} ∪ named).

Definition complete_column (a : Analyzer) (type : DatabaseType) (catalog : CompletionCatalog)
    (group : Z) (em : Emitter) : Emitter :=
  let refs := visibleRefs a group in
  let em := fst (foldl (complete_ref_step a) (em, ∅) refs) in
  let em := addFunctions em type catalog 600 in
  let em := addKeywords em type None 450 0 in
  let em := match refs with [] => addRelations em catalog 300 280 | _ => em end in
  if type =t? ORACLE then
    foldl (λ em s, em_add em (obj_name s) KSequence "sequence" (obj_schema s)
                     (em_name em (obj_name s)) 200 true) em (cat_sequences catalog)
  else em.

Definition complete_context (a : Analyzer) (type : DatabaseType) (catalog : CompletionCatalog)
    (group : Z) (ctx : Context) (em : Emitter) : Emitter :=
  match ctx_kind ctx with
  | CtxNone => em
  | CtxStatementStart => addKeywords em type (Some statementKeywords) 500 300
  | CtxKeyword => addKeywords em type None 500 0
  | CtxAfterRelation => addKeywords em type (Some clauseKeywords) 400 400
  | CtxRelation => complete_relation a type catalog em
  | CtxTargetColumns => complete_target a em (ctx_target ctx)
  | CtxColumn => complete_column a type catalog group em
  end.

Definition complete (sql : string) (cursor : nat) (catalog : CompletionCatalog)
    (type : DatabaseType) : CompletionResult :=
  let cursor := cursor `min` strlen sql in
  let nothing := mkResult [] cursor cursor in
  if negb (isSqlDialect type) then nothing
  else
    let a := analyzer sql cursor catalog type in
    if inside_literal (an_all a) cursor then nothing
    else
      let ty := typed_at sql cursor (an_toks a) 0 in
      let cur := Z.of_nat (ty_cur ty) in
      let '(qualifier, chainStart) := qualifierBefore a cur in
      let group := groupAt a cur in
      let ctx := detectContext a chainStart in
      let em := mkEmitter (ty_prefix ty) (ty_quoted ty) type [] in
      let em :=
        match qualifier with
        | _ :: _ => complete_members a catalog em qualifier group ctx
        | [] => complete_context a type catalog group ctx em
        end in
      mkResult (em_take em) (ty_start ty) (ty_end ty).

(** ** [resolveIdentifierAt] *)

Record ResolvedIdentifier := mkResolved {
  rs_kind : CompletionKind;
  rs_schema : string;
  rs_relation : string;
  rs_column : string;
  rs_alias : string;
  rs_table : option Table;
  rs_columnInfo : option Column;
  rs_start : nat;
  rs_end : nat
}.

(** the identifier token at [offset], or the last one that ends right before it *)
Fixpoint ident_at (toks : list Token) (i : nat) (offset : nat) (best : option nat) : option nat :=
  match toks with
  | [] => best
  | t :: r =>
      if negb (bool_decide (tk_kind t = TWord) || bool_decide (tk_kind t = TQuotedIdent))
      then ident_at r (S i) offset best
      else if (tk_begin t <=? offset) && (offset <? tk_end t) then Some i
      else ident_at r (S i) offset (if offset =? tk_end t then Some i else best)
  end.

(** [out.kind = Column; out.column = ...; out.columnInfo = ...] *)
Definition set_column (name : string) (info : option Column) (out : ResolvedIdentifier)
    : ResolvedIdentifier :=
  mkResolved KColumn (rs_schema out) (rs_relation out) name (rs_alias out) (rs_table out) info
    (rs_start out) (rs_end out).

Definition set_relation (t : Table) (isView : bool) (out : ResolvedIdentifier)
    : ResolvedIdentifier :=
  mkResolved (if isView then KView else KTable) (tbl_schema t) (tbl_name t) (rs_column out)
    (rs_alias out) (Some t) (rs_columnInfo out) (rs_start out) (rs_end out).

Definition set_alias_kind (relation : string) (out : ResolvedIdentifier) : ResolvedIdentifier :=
  mkResolved KAlias (rs_schema out) relation (rs_column out) (rs_alias out) (rs_table out)
    (rs_columnInfo out) (rs_start out) (rs_end out).

Definition set_alias (alias : string) (out : ResolvedIdentifier) : ResolvedIdentifier :=
  mkResolved (rs_kind out) (rs_schema out) (rs_relation out) (rs_column out) alias (rs_table out)
    (rs_columnInfo out) (rs_start out) (rs_end out).

Definition set_schema (kind : CompletionKind) (schema relation : string)
    (out : ResolvedIdentifier) : ResolvedIdentifier :=
  mkResolved kind schema relation (rs_column out) (rs_alias out) (rs_table out)
    (rs_columnInfo out) (rs_start out) (rs_end out).

Definition columnIn (cols : list ColInfo) (col : string) : option ColInfo :=
  List.find (λ c, ieq (inf_name c) col) cols.

Section resolve.
Context (a : Analyzer) (catalog : CompletionCatalog).

Definition describeRef (r : RelationRef) (out : ResolvedIdentifier) : ResolvedIdentifier :=
  let out := set_alias (ref_alias r) out in
  let fallback := set_alias_kind
    (match last (ref_path r) with None => ref_name r | Some p => p end) out in
  if (ref_derived r <? 0)%Z && negb (ref_function r) &&
     negb (match path_cte a (ref_path r) with Some _ => true | None => false end)
  then
    let rel := findRelation a (ref_path r) in
    match rel_table rel with
    | Some t => set_relation t (rel_isView rel) out
    | None => fallback
    end
  else fallback.

(** [qualifier.name] *)
Definition resolve_qualified (qualifier : list string) (name : string) (group : Z)
    (out : ResolvedIdentifier) : option ResolvedIdentifier :=
  let single := match qualifier with [q] => Some q | _ => None end in
  let as_ref_column :=
    q ← single; r ← findRef a q group;
    c ← columnIn (refColumns a r 0) name;
    Some (set_column (inf_name c) (inf_column c) (describeRef r out)) in
  let as_cte_column :=
    q ← single; cte ← findCte a q;
    c ← columnIn (cteColumns a cte 0) name;
    Some (set_column (inf_name c) (inf_column c) (set_alias_kind (cte_name cte) out)) in
  let rel := findRelation a qualifier in
  let as_table_column :=
    t ← rel_table rel;
    c ← List.find (λ c, ieq (col_name c) name) (tbl_columns t);
    Some (set_column (col_name c) (Some c) (set_relation t (rel_isView rel) out)) in
  let rel' := findRelation a (qualifier ++ [name]) in
  let as_relation := t ← rel_table rel'; Some (set_relation t (rel_isView rel') out) in
  let as_sequence :=
    s ← List.find (λ s, ieq (obj_name s) name && qualifierMatches (obj_schema s) qualifier)
          (cat_sequences catalog);
    Some (set_schema KSequence (obj_schema s) (obj_name s) out) in
  match as_ref_column with
  | Some o => Some o
  | None =>
      match as_cte_column with
      | Some o => Some o
      | None =>
          match as_table_column with
          | Some o => Some o
          | None => match as_relation with Some o => Some o | None => as_sequence end
          end
      end
  end.

(** the five readings of a bare name *)
Definition asRef (name : string) (group : Z) (out : ResolvedIdentifier)
    : option ResolvedIdentifier :=
  r ← findRef a name group; Some (describeRef r out).

Definition asCte (name : string) (out : ResolvedIdentifier) : option ResolvedIdentifier :=
  c ← findCte a name; Some (set_alias_kind (cte_name c) out).

Definition asRelation (name : string) (out : ResolvedIdentifier) : option ResolvedIdentifier :=
  let rel := findRelation a [name] in
  t ← rel_table rel; Some (set_relation t (rel_isView rel) out).

Definition asSchema (name : string) (out : ResolvedIdentifier) : option ResolvedIdentifier :=
  s ← List.find (λ s, existsb (λ seg, ieq seg name) (splitPath s)) (allSchemas catalog);
  Some (set_schema KSchema s (rs_relation out) out).

Fixpoint ref_column (refs : list RelationRef) (name : string) (out : ResolvedIdentifier)
    : option ResolvedIdentifier :=
  match refs with
  | [] => None
  | r :: rest =>
      match columnIn (refColumns a r 0) name with
      | Some c => Some (set_column (inf_name c) (inf_column c) (describeRef r out))
      | None => ref_column rest name out
      end
  end.

Definition asColumn (ctx : Context) (name : string) (group : Z) (out : ResolvedIdentifier)
    : option ResolvedIdentifier :=
  if bool_decide (ctx_kind ctx = CtxTargetColumns) then
    let rel := findRelation a (ctx_target ctx) in
    t ← rel_table rel;
    c ← List.find (λ c, ieq (col_name c) name) (tbl_columns t);
    Some (set_column (col_name c) (Some c) (set_relation t (rel_isView rel) out))
  else ref_column (visibleRefs a group) name out.

(** [x() || y()] *)
Definition or_else {A} (x y : option A) : option A :=
  match x with Some _ => x | None => y end.

Definition resolve_bare (at_ : Z) (name : string) (group : Z) (out : ResolvedIdentifier)
    : option ResolvedIdentifier :=
  let isQualifier := isPunct a (at_ + 1) "." in
  let ctx := detectContext a at_ in
  let in_relation := bool_decide (ctx_kind ctx = CtxRelation) in
  if isQualifier && in_relation then
    or_else (asCte name out) (or_else (asSchema name out) (asRelation name out))
  else if isQualifier then
    or_else (asRef name group out)
      (or_else (asCte name out) (or_else (asRelation name out) (asSchema name out)))
  else if in_relation then
    or_else (asCte name out) (or_else (asRelation name out) (asSchema name out))
  else if bool_decide (ctx_kind ctx = CtxAfterRelation) then
    or_else (asRef name group out) (or_else (asRelation name out) (asCte name out))
  else
    or_else (asColumn ctx name group out)
      (or_else (asRef name group out)
         (or_else (asCte name out) (or_else (asRelation name out) (asSchema name out)))).

End resolve.

Definition resolveIdentifierAt (sql : string) (offset : nat) (catalog : CompletionCatalog)
    (type : DatabaseType) : option ResolvedIdentifier :=
  let offset := offset `min` strlen sql in
  if negb (isSqlDialect type) then None
  else
    let a := analyzer sql offset catalog type in
    i ← ident_at (an_toks a) 0 offset None;
    t ← an_toks a !! i;
    let out := mkResolved KTable "" "" "" "" None None (tk_begin t) (tk_end t) in
    let name := tk_text t in
    let '(qualifier, _) := qualifierBefore a (Z.of_nat i) in
    let group := groupOf a (Z.of_nat i) in
    match qualifier with
    | _ :: _ => resolve_qualified a catalog qualifier name group out
    | [] => resolve_bare a catalog (Z.of_nat i) name group out
    end.
