(* ===== verification/AnalyzerProps.v ===== *)
(** * Properties of the statement analyzer

    Groups nest properly and the cursor's group agrees with the tokens' groups; scope walks
    follow the parent chain; lookups pick the best candidate; recursion over derived columns
    is bounded by its depth cap and the token loops end by themselves. *)

From S2P Require Import Prelude Types ConnectionInfo Lexer Keywords Analyzer.

#[local] Open Scope Z_scope.

(** ** Groups *)

Definition is_open (toks : list Token) (i : nat) : Prop :=
  ∃ t, toks !! i = Some t ∧ is_punct_token t "(" = true.
Definition is_close (toks : list Token) (i : nat) : Prop :=
  ∃ t, toks !! i = Some t ∧ is_punct_token t ")" = true.

(** group [g > 0] after [n] tokens *)
Record group_wf (toks : list Token) (total : Z) (n : nat) (st : GroupState) (g : nat)
    (grp : Group) : Prop := {
  gw_parent : 0 <= grp_parent grp < Z.of_nat g;
  gw_open : 0 <= grp_open grp < Z.of_nat n;
  gw_open_tok : is_open toks (Z.to_nat (grp_open grp));
  gw_opens : gs_opens st !! Z.to_nat (grp_open grp) = Some (Z.of_nat g);
  gw_groupOf : gs_groupOf st !! Z.to_nat (grp_open grp) = Some (grp_parent grp);
  gw_close : grp_close grp = total ∧ Z.of_nat g ∈ gs_stack st ∨
             grp_open grp < grp_close grp < Z.of_nat n ∧
             is_close toks (Z.to_nat (grp_close grp)) ∧ Z.of_nat g ∉ gs_stack st;
  gw_nested : ∀ pg, 0 < grp_parent grp → gs_groups st !! Z.to_nat (grp_parent grp) = Some pg →
      grp_open pg < grp_open grp ∧ (grp_close pg = total ∨ grp_close grp < grp_close pg)
}.

(** the stack: the root below, then open groups, each the child of the one under it *)
Inductive stack_wf (groups : list Group) : list Z → Prop :=
  | stack_root : stack_wf groups [0]
  | stack_push g grp p r :
      0 < g → groups !! Z.to_nat g = Some grp → grp_parent grp = p → p < g →
      stack_wf groups (p :: r) → stack_wf groups (g :: p :: r).

Record groups_inv (toks : list Token) (total : Z) (n : nat) (st : GroupState) : Prop := {
  gi_len1 : length (gs_groupOf st) = n;
  gi_len2 : length (gs_opens st) = n;
  gi_root : gs_groups st !! 0%nat = Some (mkGroup (-1) (-1) total);
  gi_stack : stack_wf (gs_groups st) (gs_stack st);
  gi_groups : ∀ g grp, (0 < g)%nat → gs_groups st !! g = Some grp → group_wf toks total n st g grp;
  gi_range : ∀ i x, gs_groupOf st !! i = Some x → 0 <= x < Z.of_nat (length (gs_groups st));
  gi_opens : ∀ i x, gs_opens st !! i = Some x →
      x = -1 ∧ ¬ is_open toks i ∨
      0 < x ∧ ∃ grp, gs_groups st !! Z.to_nat x = Some grp ∧ grp_open grp = Z.of_nat i;
  gi_within : ∀ i x grp, gs_groupOf st !! i = Some x → 0 < x →
      gs_groups st !! Z.to_nat x = Some grp → grp_open grp < Z.of_nat i < grp_close grp;
  gi_innermost : ∀ i x h grp, gs_groupOf st !! i = Some x → (0 < h)%nat →
      gs_groups st !! h = Some grp → grp_open grp < Z.of_nat i < grp_close grp → Z.of_nat h <= x
}.

Lemma stack_wf_range groups stack x :
  stack_wf groups stack → x ∈ stack → (0 < length groups)%nat → 0 <= x < Z.of_nat (length groups).
Proof.
  induction 1 as [|g grp p r Hg Hl Hp Hlt Hs IH]; intros Hin Hn.
  - apply list_elem_of_singleton in Hin. subst. lia.
  - apply elem_of_cons in Hin as [->|Hin]; [|by apply IH]. apply lookup_lt_Some in Hl. lia.
Qed.

(** the stack decreases strictly, so its top is the largest open group *)
Lemma stack_wf_top groups g r x : stack_wf groups (g :: r) → x ∈ r → x < g.
Proof.
  remember (g :: r) as s eqn:E. intros H. revert g r E x.
  induction H as [|g' grp p r' Hg Hl Hp Hlt Hs IH]; intros g r [= <- <-] x Hin.
  - by apply not_elem_of_nil in Hin.
  - apply elem_of_cons in Hin as [->|Hin]; [done|]. specialize (IH p r' eq_refl x Hin). lia.
Qed.

Lemma stack_wf_mono groups groups' stack :
  stack_wf groups stack →
  (∀ x grp, x ∈ stack → 0 < x → groups !! Z.to_nat x = Some grp →
     ∃ grp', groups' !! Z.to_nat x = Some grp' ∧ grp_parent grp' = grp_parent grp) →
  stack_wf groups' stack.
Proof.
  induction 1 as [|g grp p r Hg Hl Hp Hlt Hs IH]; intros Hm; [constructor|].
  destruct (Hm g grp) as (grp' & Hl' & Hp'); [set_solver|done..|].
  econstructor; [done|done|congruence|done|]. apply IH. intros. apply Hm; [set_solver|done..].
Qed.

Lemma stack_wf_pop groups g p r :
  stack_wf groups (g :: p :: r) →
  0 < g ∧ p < g ∧ stack_wf groups (p :: r) ∧
  ∀ grp, groups !! Z.to_nat g = Some grp → grp_parent grp = p.
Proof.
  intros H. inversion H as [|g' grp' p' r' ? Hl Hp]; subst.
  split; [done|]. split; [done|]. split; [done|]. intros grp Hg. congruence.
Qed.

Lemma stack_wf_nonempty groups stack : stack_wf groups stack → ∃ g r, stack = g :: r.
Proof. destruct 1; eauto. Qed.

(** the top of the stack is the innermost group a token read next is in *)
Lemma stack_top_innermost groups g r x : stack_wf groups (g :: r) → x ∈ g :: r → x <= g.
Proof. intros H [->|Hin]%elem_of_cons; [done|]. apply (stack_wf_top _ _ _ _ H) in Hin. lia. Qed.

Section build.
Context (toks : list Token).
Notation total := (Z.of_nat (length toks)).

Lemma groups_inv_init :
  groups_inv toks total 0 (mkGroupState [mkGroup (-1) (-1) total] [] [] [0]).
Proof.
  split; simpl; try done; [constructor|].
  intros [|g] grp Hg; [lia|]. by destruct g.
Qed.

(** an open group reaches over the token read next, and only an open group does *)
Lemma open_group_spans n st g grp :
  groups_inv toks total n st → (n < length toks)%nat → g ∈ gs_stack st → 0 < g →
  gs_groups st !! Z.to_nat g = Some grp → grp_open grp < Z.of_nat n < grp_close grp.
Proof.
  intros [] Hn Hin Hg Hl. destruct (gi_groups0 (Z.to_nat g) grp) as [_ ? _ _ _ Hc _]; [lia|done|].
  destruct Hc as [[-> _]|(_ & _ & Hni)]; [lia|]. destruct Hni. by rewrite Z2Nat.id by lia.
Qed.

Lemma spanning_group_open n st h grp :
  groups_inv toks total n st → (0 < h)%nat → gs_groups st !! h = Some grp →
  Z.of_nat n < grp_close grp → Z.of_nat h ∈ gs_stack st.
Proof.
  intros [] Hh Hl Hn. destruct (gi_groups0 h grp Hh Hl) as [_ _ _ _ _ Hc _].
  destruct Hc as [[_ ?]|(? & _)]; [done|lia].
Qed.

(** a token that opens and closes nothing *)
Lemma groups_inv_plain n st t top r :
  groups_inv toks total n st → toks !! n = Some t → gs_stack st = top :: r →
  is_punct_token t "(" = false →
  groups_inv toks total (S n)
    (mkGroupState (gs_groups st) (gs_groupOf st ++ [top]) (gs_opens st ++ [-1]) (gs_stack st)).
Proof.
  intros Inv Ht Hs Hp. pose proof Inv as [L1 L2 R S G X O W I].
  pose proof (lookup_lt_Some _ _ _ Ht) as Hn. split; simpl.
  - rewrite length_app. simpl. lia.
  - rewrite length_app. simpl. lia.
  - done.
  - done.
  - intros g grp Hg Hl. destruct (G g grp Hg Hl) as [A1 A2 A3 A4 A5 A6 A7].
    split; simpl; try done; [lia|by apply lookup_app_l_Some..|].
    destruct A6 as [?|(? & ? & ?)]; [by left|right]. split; [lia|done].
  - intros i x [Hi|[_ Hi]]%lookup_app_Some; [by eapply X|].
    apply list_lookup_singleton_Some in Hi as [_ <-].
    apply (stack_wf_range _ _ _ S); [rewrite Hs; set_solver|]. by apply lookup_lt_Some in R.
  - intros i x [Hi|[Hge Hi]]%lookup_app_Some; [by apply O|].
    apply list_lookup_singleton_Some in Hi as [Hi <-]. left. split; [done|].
    intros (t' & Ht' & Hp'). assert (i = n) as -> by lia. congruence.
  - intros i x grp [Hi|[Hge Hi]]%lookup_app_Some Hx Hg; [by eapply W|].
    apply list_lookup_singleton_Some in Hi as [Hi <-]. assert (i = n) as -> by lia.
    eapply open_group_spans; [done..| |done|done]. rewrite Hs. left.
  - intros i x h grp [Hi|[Hge Hi]]%lookup_app_Some Hh Hg Hsp; [by eapply I|].
    apply list_lookup_singleton_Some in Hi as [Hi <-]. assert (i = n) as -> by lia.
    rewrite Hs in S. apply (stack_top_innermost _ _ _ _ S). rewrite <-Hs.
    eapply spanning_group_open; [done..|lia].
Qed.

Lemma groups_inv_open n st t top r :
  groups_inv toks total n st → toks !! n = Some t → gs_stack st = top :: r →
  is_punct_token t "(" = true →
  let g := Z.of_nat (length (gs_groups st)) in
  groups_inv toks total (S n)
    (mkGroupState (gs_groups st ++ [mkGroup top (Z.of_nat n) total])
       (gs_groupOf st ++ [top]) (gs_opens st ++ [g]) (g :: gs_stack st)).
Proof.
  intros Inv Ht Hs Hp g. pose proof Inv as [L1 L2 R S G X O W I].
  pose proof (lookup_lt_Some _ _ _ Ht) as Hn.
  assert (Hlen : (0 < length (gs_groups st))%nat) by (by apply lookup_lt_Some in R).
  assert (Htop : 0 <= top < g).
  { apply (stack_wf_range _ _ _ S); [rewrite Hs; set_solver|done]. }
  assert (Hnew : ∀ x, x ∈ gs_stack st → x < g).
  { intros x Hx. by apply (stack_wf_range _ _ _ S). }
  split; simpl.
  - rewrite length_app. simpl. lia.
  - rewrite length_app. simpl. lia.
  - by apply lookup_app_l_Some.
  - rewrite Hs. apply (stack_push _ _ (mkGroup top (Z.of_nat n) total)); [lia| |done|lia|].
    + unfold g. rewrite Nat2Z.id. by apply list_lookup_middle.
    + rewrite <-Hs. eapply stack_wf_mono; [done|]. intros x grp _ _ Hx. exists grp.
      split; [by apply lookup_app_l_Some|done].
  - intros k grp Hk [Hl|[Hge Hl]]%lookup_app_Some.
    + pose proof (lookup_lt_Some _ _ _ Hl) as Hkl.
      destruct (G k grp Hk Hl) as [A1 A2 A3 A4 A5 A6 A7].
      split; simpl; try done; [lia|by apply lookup_app_l_Some..| |].
      * destruct A6 as [[? ?]|(? & ? & Hni)]; [left; set_solver|right].
        split; [lia|]. split; [done|]. rewrite not_elem_of_cons. split; [lia|done].
      * intros pg Hpp [Hpl|[Hpge _]]%lookup_app_Some; [by apply A7|lia].
    + apply list_lookup_singleton_Some in Hl as [Hkeq <-].
      assert (k = length (gs_groups st)) as -> by lia.
      split; simpl.
      * lia.
      * lia.
      * rewrite Nat2Z.id. by exists t.
      * rewrite Nat2Z.id, <-L2. by apply list_lookup_middle.
      * rewrite Nat2Z.id, <-L1. by apply list_lookup_middle.
      * left. split; [done|set_solver].
      * intros pg Hpos [Hpl|[Hpge _]]%lookup_app_Some; [|lia].
        destruct (G (Z.to_nat top) pg) as [B1 B2 B3 B4 B5 B6 B7]; [lia|done|].
        split; [lia|]. left. destruct B6 as [[? _]|(_ & _ & Hni)]; [done|].
        destruct Hni. rewrite Z2Nat.id by lia. rewrite Hs. set_solver.
  - intros i x [Hi|[_ Hi]]%lookup_app_Some.
    + apply X in Hi. rewrite length_app. simpl. lia.
    + apply list_lookup_singleton_Some in Hi as [_ <-]. rewrite length_app. simpl. lia.
  - intros i x [Hi|[Hge Hi]]%lookup_app_Some.
    + destruct (O i x Hi) as [?|(? & grp & Hl & ?)]; [by left|right]. split; [done|].
      exists grp. split; [by apply lookup_app_l_Some|done].
    + apply list_lookup_singleton_Some in Hi as [Hi <-]. right. split; [lia|].
      exists (mkGroup top (Z.of_nat n) total). split.
      * unfold g. rewrite Nat2Z.id. by apply list_lookup_middle.
      * simpl. f_equal. lia.
  - intros i x grp [Hi|[Hge Hi]]%lookup_app_Some Hx [Hg|[Hgg Hg]]%lookup_app_Some.
    + by eapply W.
    + apply X in Hi. lia.
    + apply list_lookup_singleton_Some in Hi as [Hi <-]. assert (i = n) as -> by lia.
      eapply open_group_spans; [done..| |done|done]. rewrite Hs. left.
    + apply list_lookup_singleton_Some in Hi as [Hi <-]. lia.
  - intros i x h grp Hi Hh [Hg|[Hgg Hg]]%lookup_app_Some Hsp.
    + apply lookup_app_Some in Hi as [Hi|[Hge Hi]]; [by eapply I|].
      apply list_lookup_singleton_Some in Hi as [Hi <-]. assert (i = n) as -> by lia.
      rewrite Hs in S. apply (stack_top_innermost _ _ _ _ S). rewrite <-Hs.
      eapply spanning_group_open; [done..|lia].
    + apply list_lookup_singleton_Some in Hg as [_ <-]. simpl in Hsp.
      apply lookup_lt_Some in Hi. rewrite length_app in Hi. simpl in Hi. lia.
Qed.

Lemma groups_inv_close n st t top top' r :
  groups_inv toks total n st → toks !! n = Some t → gs_stack st = top :: top' :: r →
  is_punct_token t "(" = false → is_punct_token t ")" = true →
  groups_inv toks total (S n)
    (mkGroupState (alter (set_close (Z.of_nat n)) (Z.to_nat top) (gs_groups st))
       (gs_groupOf st ++ [top']) (gs_opens st ++ [-1]) (top' :: r)).
Proof.
  intros Inv Ht Hs Hp Hc. pose proof Inv as [L1 L2 R S G X O W I]. rewrite Hs in S.
  pose proof (lookup_lt_Some _ _ _ Ht) as Hn.
  assert (Hlen : (0 < length (gs_groups st))%nat) by (by apply lookup_lt_Some in R).
  destruct (stack_wf_pop _ _ _ _ S) as (Htop & _ & S' & Hpop).
  assert (Hmax : ∀ x, x ∈ top' :: r → x < top) by (intros x; by apply (stack_wf_top _ _ _ _ S)).
  set (G' := alter _ _ _).
  assert (HG' : ∀ k grp', G' !! k = Some grp' → ∃ grp, gs_groups st !! k = Some grp ∧
            grp' = if decide (k = Z.to_nat top) then set_close (Z.of_nat n) grp else grp).
  { intros k grp' Hk. unfold G' in Hk. destruct (decide (k = Z.to_nat top)) as [->|Hne].
    - rewrite list_lookup_alter_eq in Hk. apply fmap_Some in Hk as (grp & ? & ->). eauto.
    - rewrite list_lookup_alter_ne in Hk by done. eauto. }
  assert (HlenG : length G' = length (gs_groups st)) by apply length_alter.
  split; simpl.
  - rewrite length_app. simpl. lia.
  - rewrite length_app. simpl. lia.
  - unfold G'. rewrite list_lookup_alter_ne by lia. done.
  - eapply stack_wf_mono; [done|]. intros x grp Hx Hx0 Hl. exists grp. split; [|done].
    unfold G'. rewrite list_lookup_alter_ne; [done|]. apply Hmax in Hx. lia.
  - intros k grp' Hk Hl'. destruct (HG' k grp' Hl') as (grp & Hl & ->).
    destruct (G k grp Hk Hl) as [A1 A2 A3 A4 A5 A6 A7]. rewrite Hs in A6.
    assert (Hpar : ∀ g0 : Group, grp_parent (if decide (k = Z.to_nat top) then set_close (Z.of_nat n) g0 else g0) = grp_parent g0 ∧
              grp_open (if decide (k = Z.to_nat top) then set_close (Z.of_nat n) g0 else g0) = grp_open g0)
      by (intros; by case_decide).
    destruct (Hpar grp) as [Ep Eo].
    split; simpl; rewrite ?Ep, ?Eo; try done; [lia|by apply lookup_app_l_Some..| |].
    + case_decide as Hkt; simpl.
      * right. split; [lia|]. split; [rewrite Nat2Z.id; by exists t|].
        intros Hin%Hmax. lia.
      * destruct A6 as [[? Hin]|(? & ? & Hni)].
        -- left. split; [done|]. apply elem_of_cons in Hin as [?|?]; [lia|done].
        -- right. split; [lia|]. split; [done|]. intros Hin. apply Hni. by right.
    + intros pg Hpos Hpg. destruct (HG' _ _ Hpg) as (pg0 & Hpg0 & ->).
      destruct (A7 pg0 Hpos Hpg0) as [Ho Hcl].
      assert (grp_open (if decide (Z.to_nat (grp_parent grp) = Z.to_nat top)
                        then set_close (Z.of_nat n) pg0 else pg0) = grp_open pg0) as ->
        by (by case_decide).
      split; [done|]. case_decide as Hpt; simpl.
      * (* the parent closes now: this child is above it, hence closed already *)
        right. rewrite decide_False by lia. destruct A6 as [[_ Hin]|(? & _)]; [|lia].
        exfalso. apply elem_of_cons in Hin as [?|?%Hmax]; lia.
      * destruct Hcl as [?|Hcl]; [by left|]. case_decide as Hkt; [|by right]. subst k.
        simpl. destruct A6 as [[Htot _]|(_ & _ & Hni)];
          [|destruct Hni; rewrite Z2Nat.id by lia; left].
        (* the closing group's parent is still open *)
        left. apply Hpop in Hl as Hpar0.
        destruct (G (Z.to_nat (grp_parent grp)) pg0) as [_ _ _ _ _ B6 _]; [lia|done|].
        destruct B6 as [[? _]|(_ & _ & Hni)]; [done|]. destruct Hni.
        rewrite Z2Nat.id by lia. rewrite Hs, Hpar0. right. left.
  - intros i x [Hi|[_ Hi]]%lookup_app_Some; [rewrite HlenG; by eapply X|].
    apply list_lookup_singleton_Some in Hi as [_ <-]. rewrite HlenG.
    apply (stack_wf_range _ _ _ S'); [set_solver|done].
  - intros i x [Hi|[Hge Hi]]%lookup_app_Some.
    + destruct (O i x Hi) as [?|(? & grp & Hl & ?)]; [by left|right]. split; [done|].
      unfold G'. destruct (decide (Z.to_nat x = Z.to_nat top)) as [E|Hne].
      * rewrite E in Hl |- *. rewrite list_lookup_alter_eq, Hl. simpl. eauto.
      * rewrite list_lookup_alter_ne by done. eauto.
    + apply list_lookup_singleton_Some in Hi as [Hi <-]. left. split; [done|].
      intros (t' & Ht' & Hp'). assert (i = n) as -> by lia. congruence.
  - intros i x grp' [Hi|[Hge Hi]]%lookup_app_Some Hx Hg'; destruct (HG' _ _ Hg') as (grp & Hg & ->).
    + pose proof (W _ _ _ Hi Hx Hg). apply lookup_lt_Some in Hi. case_decide; simpl; lia.
    + apply list_lookup_singleton_Some in Hi as [Hi <-]. assert (i = n) as -> by lia.
      rewrite decide_False; [|specialize (Hmax top' ltac:(left)); lia].
      eapply open_group_spans; [done..| |done|done]. rewrite Hs. right. left.
  - intros i x h grp' Hi Hh Hg' Hsp. destruct (HG' _ _ Hg') as (grp & Hg & ->).
    apply lookup_app_Some in Hi as [Hi|[Hge Hi]].
    + eapply I; [done..|]. case_decide as Hht; [|done]. simpl in Hsp. split; [lia|].
      subst h. edestruct open_group_spans as [_ ?]; [exact Inv|done| |exact Htop|done|lia].
      rewrite Hs. left.
    + apply list_lookup_singleton_Some in Hi as [Hi <-]. assert (i = n) as -> by lia.
      case_decide as Hht; simpl in Hsp; [lia|].
      apply (stack_top_innermost _ _ _ _ S').
      pose proof (spanning_group_open _ _ _ _ Inv Hh Hg ltac:(lia)) as Hin. rewrite Hs in Hin.
      apply elem_of_cons in Hin as [Hin|Hin]; [lia|done].
Qed.

Lemma buildGroups_step_inv n st t :
  groups_inv toks total n st → toks !! n = Some t →
  groups_inv toks total (S n) (buildGroups_step total st (n, t)).
Proof.
  intros Inv Ht. destruct (stack_wf_nonempty _ _ (gi_stack _ _ _ _ Inv)) as (top & r & Hs).
  unfold buildGroups_step. rewrite Hs. simpl hd.
  destruct (is_punct_token t "(") eqn:Ho.
  { pose proof (groups_inv_open _ _ _ _ _ Inv Ht Hs Ho) as H. by rewrite Hs in H. }
  pose proof (groups_inv_plain _ _ _ _ _ Inv Ht Hs Ho) as H. rewrite Hs in H.
  destruct (is_punct_token t ")") eqn:Hc; [|done].
  destruct r as [|top' r]; [done|]. by eapply groups_inv_close.
Qed.

(** the state after the first [n] tokens *)
Definition groups_after (n : nat) : GroupState :=
  foldl (buildGroups_step total) (mkGroupState [mkGroup (-1) (-1) total] [] [] [0])
    (take n (indexed toks)).

Lemma groups_after_S n t :
  toks !! n = Some t → groups_after (S n) = buildGroups_step total (groups_after n) (n, t).
Proof.
  intros Ht. unfold groups_after. rewrite (take_S_r _ _ (n, t)), foldl_app; [done|].
  unfold indexed. apply lookup_zip_Some. split; [|done].
  apply lookup_seq. split; [lia|]. by apply lookup_lt_Some in Ht.
Qed.

Lemma groups_after_inv n : (n <= length toks)%nat → groups_inv toks total n (groups_after n).
Proof.
  induction n as [|n IH]; intros Hn; [apply groups_inv_init|].
  destruct (lookup_lt_is_Some_2 toks n ltac:(lia)) as [t Ht].
  rewrite (groups_after_S _ _ Ht). apply buildGroups_step_inv; [apply IH; lia|done].
Qed.

Lemma groups_after_all : groups_after (length toks) = buildGroups toks.
Proof.
  unfold groups_after, buildGroups. f_equal. apply take_ge. unfold indexed.
  rewrite length_zip, length_seq. lia.
Qed.

Lemma buildGroups_inv : groups_inv toks total (length toks) (buildGroups toks).
Proof. rewrite <-groups_after_all. by apply groups_after_inv. Qed.

Lemma groups_after_length n m :
  (n <= m <= length toks)%nat →
  (length (gs_groups (groups_after n)) <= length (gs_groups (groups_after m)))%nat.
Proof.
  intros [Hnm Hm]. induction Hnm as [|m Hnm IH]; [done|]. etrans; [apply IH; lia|].
  destruct (lookup_lt_is_Some_2 toks m ltac:(lia)) as [t Ht].
  rewrite (groups_after_S _ _ Ht). unfold buildGroups_step.
  repeat case_match; simpl; rewrite ?length_app, ?length_alter; simpl; lia.
Qed.

(** the indices only grow *)
Lemma groups_after_prefix n m :
  (n <= m <= length toks)%nat →
  gs_groupOf (groups_after n) `prefix_of` gs_groupOf (groups_after m) ∧
  gs_opens (groups_after n) `prefix_of` gs_opens (groups_after m).
Proof.
  intros [Hnm Hm]. induction Hnm as [|m Hnm IH]; [done|].
  destruct (lookup_lt_is_Some_2 toks m ltac:(lia)) as [t Ht].
  rewrite (groups_after_S _ _ Ht). destruct (IH ltac:(lia)) as [H1 H2].
  assert (∀ st, gs_groupOf st `prefix_of` gs_groupOf (buildGroups_step total st (m, t)) ∧
            gs_opens st `prefix_of` gs_opens (buildGroups_step total st (m, t))) as Hst.
  { intros st. unfold buildGroups_step. repeat case_match; simpl; split; by apply prefix_app_r. }
  destruct (Hst (groups_after m)). split; by etrans.
Qed.
End build.


(** ** The groups of an analyzer *)

Record built (a : Analyzer) : Prop := {
  built_groups : an_groups a = gs_groups (buildGroups (an_toks a));
  built_groupOf : an_groupOf a = gs_groupOf (buildGroups (an_toks a));
  built_opens : an_opens a = gs_opens (buildGroups (an_toks a))
}.

Lemma analyzer_built sql offset catalog type : built (analyzer sql offset catalog type).
Proof. done. Qed.

Section built.
Context (a : Analyzer) (Hb : built a).
Notation toks := (an_toks a).

Lemma isPunct_token i c :
  isPunct a i c = true ↔ ∃ t, zget toks i = Some t ∧ is_punct_token t c = true.
Proof.
  unfold isPunct, tok. destruct (zget (an_toks a) i) as [t|]; [naive_solver|].
  split; [done|]. by intros (? & ? & ?).
Qed.

Lemma is_open_isPunct i : is_open toks i ↔ isPunct a (Z.of_nat i) "(" = true.
Proof. rewrite isPunct_token, zget_nat. done. Qed.
Lemma is_close_isPunct i : is_close toks i ↔ isPunct a (Z.of_nat i) ")" = true.
Proof. rewrite isPunct_token, zget_nat. done. Qed.

Lemma group_lookup g grp :
  gs_groups (buildGroups toks) !! g = Some grp → group a (Z.of_nat g) = grp.
Proof. intros H. unfold group. by rewrite (built_groups a Hb), zget_nat, H. Qed.

Lemma groupOf_lookup (i : nat) : (i < length toks)%nat →
  gs_groupOf (buildGroups toks) !! i = Some (groupOf a (Z.of_nat i)).
Proof.
  intros Hi. pose proof (buildGroups_inv toks) as [L1 _ _ _ _ _ _ _ _].
  destruct (lookup_lt_is_Some_2 (gs_groupOf (buildGroups toks)) i) as [x Hx]; [lia|].
  unfold groupOf. by rewrite (built_groupOf a Hb), zget_nat, Hx.
Qed.

Lemma opens_lookup (i : nat) : (i < length toks)%nat →
  gs_opens (buildGroups toks) !! i = Some (opens a (Z.of_nat i)).
Proof.
  intros Hi. pose proof (buildGroups_inv toks) as [_ L2 _ _ _ _ _ _ _].
  destruct (lookup_lt_is_Some_2 (gs_opens (buildGroups toks)) i) as [x Hx]; [lia|].
  unfold opens. by rewrite (built_opens a Hb), zget_nat, Hx.
Qed.

(** [groupAt] keeps the stack that [buildGroups] keeps *)
Lemma groupAt_stack n : (n <= length toks)%nat →
  foldl (groupAt_step a) [0] (seq 0 n) = gs_stack (groups_after toks n).
Proof.
  induction n as [|n IH]; intros Hn; [done|].
  rewrite seq_S, foldl_app, IH by lia. simpl.
  destruct (lookup_lt_is_Some_2 toks n ltac:(lia)) as [t Ht].
  pose proof (groups_after_inv toks n ltac:(lia)) as Inv.
  rewrite (groups_after_S _ _ _ Ht).
  assert (Hc : ∀ c, isPunct a (Z.of_nat n) c = is_punct_token t c).
  { intros c. unfold isPunct, tok.  by rewrite zget_nat, Ht. }
  unfold groupAt_step. rewrite !Hc. unfold buildGroups_step.
  destruct (is_punct_token t "(") eqn:Ho.
  - simpl. f_equal.
    pose proof (groups_after_prefix toks (S n) (length toks) ltac:(lia)) as [_ Hp].
    rewrite (groups_after_S _ _ _ Ht), groups_after_all in Hp.
    unfold buildGroups_step in Hp. rewrite Ho in Hp. simpl in Hp.
    eapply prefix_lookup_Some in Hp; [|apply list_lookup_middle; symmetry; apply (gi_len2 _ _ _ _ Inv)].
    rewrite opens_lookup in Hp by lia. by simplify_eq.
  - destruct (is_punct_token t ")"); [|done].
    destruct (gs_stack (groups_after toks n)) as [|? [|? ?]] eqn:E; simpl; rewrite ?E; done.
Qed.

Lemma groupAt_groupOf i :
  0 <= i < size a → isPunct a i ")" = false → groupAt a i = groupOf a i.
Proof.
  intros Hi Hp. unfold size in Hi.  unfold groupAt, size. 
  rewrite Z.min_l by lia. rewrite groupAt_stack by lia.
  replace i with (Z.of_nat (Z.to_nat i)) in Hp |- * by lia. set (n := Z.to_nat i) in *.
  rewrite Nat2Z.id.
  destruct (lookup_lt_is_Some_2 toks n ltac:(lia)) as [t Ht].
  pose proof (groups_after_inv toks n ltac:(lia)) as Inv.
  pose proof (groups_after_prefix toks (S n) (length toks) ltac:(lia)) as [Hpre _].
  rewrite (groups_after_S _ _ _ Ht), groups_after_all in Hpre.
  assert (is_punct_token t ")" = false) as Hp'.
  { unfold isPunct, tok in Hp.  by rewrite zget_nat, Ht in Hp. }
  assert (gs_groupOf (buildGroups_step (Z.of_nat (length toks)) (groups_after toks n) (n, t)) =
          gs_groupOf (groups_after toks n) ++ [hd 0 (gs_stack (groups_after toks n))]) as E.
  { unfold buildGroups_step. rewrite Hp'. by destruct (is_punct_token t "("). }
  rewrite E in Hpre.
  eapply prefix_lookup_Some in Hpre; [|apply list_lookup_middle; symmetry; apply (gi_len1 _ _ _ _ Inv)].
  rewrite groupOf_lookup in Hpre by lia. by simplify_eq.
Qed.

Definition ngroups : Z := Z.of_nat (length (an_groups a)).
Definition encloses (g i : Z) : Prop := grp_open (group a g) < i < grp_close (group a g).

Lemma group_is_wf g : 0 < g < ngroups →
  gs_groups (buildGroups toks) !! Z.to_nat g = Some (group a g) ∧
  group_wf toks (size a) (length toks) (buildGroups toks) (Z.to_nat g) (group a g).
Proof.
  unfold ngroups. rewrite (built_groups a Hb). intros Hg.
  destruct (lookup_lt_is_Some_2 (gs_groups (buildGroups toks)) (Z.to_nat g)) as [grp Hl]; [lia|].
  pose proof (group_lookup _ _ Hl) as E. rewrite Z2Nat.id in E by lia. subst grp. split; [done|].
  apply (gi_groups _ _ _ _ (buildGroups_inv toks)); [lia|done].
Qed.

Lemma ngroups_pos : 0 < ngroups.
Proof.
  unfold ngroups. rewrite (built_groups a Hb).
  pose proof (lookup_lt_Some _ _ _ (gi_root _ _ _ _ (buildGroups_inv toks))). lia.
Qed.

Lemma root_group : group a 0 = mkGroup (-1) (-1) (size a).
Proof. exact (group_lookup 0 _ (gi_root _ _ _ _ (buildGroups_inv toks))). Qed.

(** the parenthesis at [i] opens a group, closed later or never *)
Lemma opens_group i : isPunct a i "(" = true →
  0 < opens a i < ngroups ∧ grp_open (group a (opens a i)) = i ∧
  i < closeOf a i <= size a ∧
  (closeOf a i = size a ∨ isPunct a (closeOf a i) ")" = true).
Proof.
  intros Hp. pose proof Hp as (t & Ht & Hpt)%isPunct_token.
  pose proof (zget_lt _ _ _ Ht) as Hi. apply zget_Some in Ht as [_ Ht].
  pose proof (gi_opens _ _ _ _ (buildGroups_inv toks) (Z.to_nat i) (opens a i)) as Ho.
  rewrite opens_lookup, Z2Nat.id in Ho by lia.
  destruct (Ho eq_refl) as [[_ Hn]|(Hpos & grp & Hl & Hopen)].
  { destruct Hn. by exists t. }
  pose proof (group_lookup _ _ Hl) as E. rewrite Z2Nat.id in E by lia. subst grp.
  assert (Hr : 0 < opens a i < ngroups).
  { unfold ngroups. rewrite (built_groups a Hb). apply lookup_lt_Some in Hl. lia. }
  destruct (group_is_wf _ Hr) as [_ [_ W2 _ _ _ W6 _]].
  split; [done|]. split; [done|]. unfold closeOf.
  destruct (Z.ltb_spec (opens a i) 0); [lia|]. rewrite Hopen in W6. unfold size in *.
  destruct W6 as [[-> _]|(Hc & Hcl & _)]; [split; [lia|by left]|]. split; [lia|]. right.
  apply is_close_isPunct in Hcl. by rewrite Z2Nat.id in Hcl by lia.
Qed.

(** a token that opens nothing closes where it stands, so [closeOf] never goes back *)
Lemma closeOf_ge i : i <= closeOf a i.
Proof.
  destruct (isPunct a i "(") eqn:Hp; [apply opens_group in Hp; lia|].
  unfold closeOf. destruct (Z.ltb_spec (opens a i) 0) as [|Hge]; [done|].
  destruct (zget (an_opens a) i) as [x|] eqn:Hx.
  - unfold opens in *. rewrite Hx in *. simpl in *. apply zget_Some in Hx as [Hi Hx].
    rewrite (built_opens a Hb) in Hx.
    destruct (gi_opens _ _ _ _ (buildGroups_inv toks) _ _ Hx) as [[-> _]|(Hpos & grp & Hl & Hopen)];
      [lia|].
    pose proof (group_lookup _ _ Hl) as E. rewrite Z2Nat.id in E by lia. subst grp.
    assert (Hr : 0 < x < ngroups).
    { unfold ngroups. rewrite (built_groups a Hb). apply lookup_lt_Some in Hl. lia. }
    destruct (group_is_wf _ Hr) as [_ [_ W2 _ _ _ W6 _]]. unfold size in *.
    destruct W6 as [[-> _]|(Hc & Hcl & _)]; lia.
  - unfold opens in Hge. rewrite Hx in Hge. simpl in Hge. lia.
Qed.

Lemma groupOf_range i : 0 <= groupOf a i < ngroups.
Proof.
  unfold groupOf. destruct (zget (an_groupOf a) i) as [x|] eqn:E; simpl.
  - apply zget_Some in E as [_ E]. rewrite (built_groupOf a Hb) in E.
    apply (gi_range _ _ _ _ (buildGroups_inv toks)) in E. unfold ngroups.
    by rewrite (built_groups a Hb).
  - pose proof ngroups_pos. lia.
Qed.

Lemma parent_range g : 0 < g < ngroups → 0 <= grp_parent (group a g) < g.
Proof. intros Hg. destruct (group_is_wf g Hg) as [_ [W1 _ _ _ _ _ _]]. lia. Qed.

Lemma groupOf_innermost i : 0 <= i < size a →
  (groupOf a i = 0 ∨ encloses (groupOf a i) i) ∧
  ∀ g, 0 < g < ngroups → encloses g i → g <= groupOf a i.
Proof.
  unfold size. intros Hi. pose proof (groupOf_range i) as Hr.
  pose proof (buildGroups_inv toks) as [_ _ _ _ _ _ _ W I].
  pose proof (groupOf_lookup (Z.to_nat i) ltac:(lia)) as Hl. rewrite Z2Nat.id in Hl by lia. split.
  - destruct (decide (groupOf a i = 0)); [by left|right].
    destruct (group_is_wf (groupOf a i) ltac:(lia)) as [Hg _].
    pose proof (W _ _ _ Hl ltac:(lia) Hg) as Hw. unfold encloses. lia.
  - intros g Hg He. destruct (group_is_wf g Hg) as [Hgl _].
    pose proof (λ H, I _ _ (Z.to_nat g) _ Hl H Hgl) as Hw. specialize (Hw ltac:(lia)). rewrite !Z2Nat.id in Hw by lia. by apply Hw.
Qed.
End built.

(** C6: the parenthesis groups of a statement.  Every [(] opens a group of its own, closed
    by a later [)] or never; a group starts and ends inside its parent; a token's group is the
    innermost one whose parentheses are around it; and the cursor's group, which replays the
    tokens before it, is the group of the token there. *)
Theorem analyzer_groups (sql : string) (offset : nat) (catalog : CompletionCatalog)
    (type : DatabaseType) :
  let a := analyzer sql offset catalog type in
  (∀ i, isPunct a i "(" = true →
     0 < opens a i < ngroups a ∧ grp_open (group a (opens a i)) = i ∧
     i < closeOf a i <= size a ∧
     (closeOf a i = size a ∨ isPunct a (closeOf a i) ")" = true)) ∧
  (∀ g, 0 < g < ngroups a →
     let p := grp_parent (group a g) in
     0 <= p < g ∧ groupOf a (grp_open (group a g)) = p ∧
     grp_open (group a p) < grp_open (group a g) ∧
     (grp_close (group a g) < grp_close (group a p) ∨ grp_close (group a p) = size a)) ∧
  (∀ i, 0 <= i < size a →
     0 <= groupOf a i < ngroups a ∧ (groupOf a i = 0 ∨ encloses a (groupOf a i) i) ∧
     (∀ g, 0 < g < ngroups a → encloses a g i → g <= groupOf a i)) ∧
  (∀ i, 0 <= i < size a → isPunct a i ")" = false → groupAt a i = groupOf a i).
Proof.
  intros a. pose proof (analyzer_built sql offset catalog type) as Hb. fold a in Hb.
  split; [by apply opens_group|]. split; [|split].
  - intros g Hg p. destruct (group_is_wf a Hb g Hg) as [_ [W1 W2 W3 W4 W5 W6 W7]].
    rewrite Z2Nat.id in W1 by lia. fold p in W1, W5, W7. split; [done|].
    split; [by unfold groupOf; rewrite (built_groupOf a Hb), (proj2 (zget_Some _ _ _) (conj (proj1 W2) W5))|].
    destruct (decide (p = 0)) as [->|Hp0].
    + rewrite (root_group a Hb). simpl. split; [lia|by right].
    + destruct (group_is_wf a Hb p ltac:(lia)) as [Hp _]. destruct (W7 _ ltac:(lia) Hp) as [? [?|?]];
        [split; [done|by right]|split; [done|by left]].
  - intros i Hi. split; [by apply groupOf_range|by apply groupOf_innermost].
  - intros i. by apply groupAt_groupOf.
Qed.

(** ** Scopes *)

(** [r] is [g] or one of the groups around it *)
Inductive scope_of (a : Analyzer) (r : Z) : Z → Prop :=
  | scope_self : 0 <= r → scope_of a r r
  | scope_up g : 0 < g → scope_of a r (grp_parent (group a g)) → scope_of a r g.

Section scopes.
Context (a : Analyzer) (Hb : built a).

Lemma isAncestorOrSelf_from_spec fuel r g :
  -1 <= g < ngroups a → g + 2 <= Z.of_nat fuel →
  isAncestorOrSelf_from a fuel r g = true ↔ scope_of a r g.
Proof.
  revert g. induction fuel as [|fuel IH]; intros g Hg Hf; [lia|]. cbn [isAncestorOrSelf_from].
  destruct (Z.ltb_spec g 0).
  { split; [done|]. intros H'. inversion H'; subst; lia. }
  destruct (Z.eqb_spec g r) as [->|Hne]; [by split; [constructor|]|].
  destruct (decide (g = 0)) as [->|].
  - rewrite (root_group a Hb). simpl. rewrite IH by lia. split; intros H'; inversion H'; subst; lia.
  - pose proof (parent_range a Hb g ltac:(lia)). rewrite IH by lia. split.
    + apply scope_up. lia.
    + intros H'. inversion H'; subst; [done|]. done.
Qed.

Lemma isAncestorOrSelf_spec r g : 0 <= g < ngroups a →
  isAncestorOrSelf a r g = true ↔ scope_of a r g.
Proof.
  intros Hg. apply isAncestorOrSelf_from_spec; [lia|]. unfold parents_fuel, ngroups in *. lia.
Qed.

(** the counter only adds up *)
Lemma depthOf_from_add fuel g d : depthOf_from a fuel g d = d + depthOf_from a fuel g 0.
Proof.
  revert g d. induction fuel as [|fuel IH]; intros g d; cbn [depthOf_from]; [lia|].
  destruct (0 <? g); [|lia]. rewrite IH, (IH _ (0 + 1)). lia.
Qed.

Lemma depthOf_from_fuel fuel fuel' g :
  0 <= g < ngroups a → g <= Z.of_nat fuel → g <= Z.of_nat fuel' →
  depthOf_from a fuel g 0 = depthOf_from a fuel' g 0.
Proof.
  revert fuel' g. induction fuel as [|fuel IH]; intros fuel' g Hg Hf Hf'.
  - assert (g = 0) as -> by lia. by destruct fuel'.
  - destruct fuel' as [|fuel']; [by assert (g = 0) as -> by lia|]. cbn [depthOf_from].
    destruct (Z.ltb_spec 0 g) as [Hpos|]; [|done].
    pose proof (parent_range a Hb g ltac:(lia)).
    rewrite (depthOf_from_add fuel), (depthOf_from_add fuel'). f_equal. apply IH; lia.
Qed.

Lemma depthOf_root : depthOf a 0 = 0.
Proof. done. Qed.

Lemma depthOf_parent g : 0 < g < ngroups a → depthOf a g = depthOf a (grp_parent (group a g)) + 1.
Proof.
  intros Hg. unfold depthOf, parents_fuel. cbn [depthOf_from].
  destruct (Z.ltb_spec 0 g); [|lia]. rewrite depthOf_from_add, Z.add_comm. f_equal.
  pose proof (parent_range a Hb g Hg). apply (depthOf_from_fuel _ (S _)); unfold ngroups in *; lia.
Qed.

Lemma depthOf_nonneg g : 0 <= depthOf a g.
Proof.
  unfold depthOf. generalize (parents_fuel a) as fuel. intros fuel. revert g.
  induction fuel as [|fuel IH]; intros g; cbn [depthOf_from]; [lia|].
  destruct (0 <? g); [|lia]. rewrite depthOf_from_add. specialize (IH (grp_parent (group a g))). lia.
Qed.

Lemma scope_of_range r g : 0 <= g < ngroups a → scope_of a r g → 0 <= r <= g.
Proof.
  intros Hg H. induction H as [|g Hpos H IH]; [lia|].
  pose proof (parent_range a Hb g ltac:(lia)). specialize (IH ltac:(lia)). lia.
Qed.

(** scopes around one group form a chain, deeper ones inside *)
Lemma scope_of_chain r r' g :
  0 <= g < ngroups a → scope_of a r g → scope_of a r' g → depthOf a r <= depthOf a r' →
  scope_of a r r'.
Proof.
  intros Hg H. revert r'. induction H as [Hr|g Hpos H IH]; intros r' H' Hd.
  - destruct H' as [|g Hpos H']; [by constructor|].
    exfalso. assert (∀ x y, scope_of a x y → 0 <= y < ngroups a → depthOf a x <= depthOf a y) as Hle.
    { clear -Hb. induction 1 as [|y Hy H IH]; intros Hr; [lia|].
      pose proof (parent_range a Hb y ltac:(lia)). rewrite (depthOf_parent y) by lia.
      specialize (IH ltac:(lia)). lia. }
    rewrite (depthOf_parent g) in Hd by lia. pose proof (parent_range a Hb g ltac:(lia)).
    specialize (Hle _ _ H' ltac:(lia)). lia.
  - pose proof (parent_range a Hb g ltac:(lia)).
    inversion H' as [|g' Hpos' H'']; subst; [by apply scope_up|]. apply IH; [lia|done|done].
Qed.

Lemma groupAt_range i : 0 <= groupAt a i < ngroups a.
Proof.
  unfold groupAt, size. set (n := Z.to_nat _).
  assert (Hn : (n <= length (an_toks a))%nat) by lia.
  rewrite (groupAt_stack a Hb) by done.
  pose proof (groups_after_inv (an_toks a) n Hn) as Inv.
  assert (Hlen : (length (gs_groups (groups_after (an_toks a) n)) <= length (an_groups a))%nat).
  { rewrite (built_groups a Hb), <-groups_after_all.
    by apply groups_after_length. }
  destruct (stack_wf_nonempty _ _ (gi_stack _ _ _ _ Inv)) as (top & r & Hs). rewrite Hs. simpl.
  pose proof (stack_wf_range _ _ top (gi_stack _ _ _ _ Inv)) as Hr. rewrite Hs in Hr.
  pose proof (lookup_lt_Some _ _ _ (gi_root _ _ _ _ Inv)).
  specialize (Hr ltac:(left) ltac:(lia)). unfold ngroups. lia.
Qed.
End scopes.

Section lookups.
Context (a : Analyzer) (Hb : built a).

Definition ref_visible (name : string) (g : Z) (r : RelationRef) : bool :=
  ieq (ref_name r) name && isAncestorOrSelf a (ref_group r) g.

Lemma findRef_pick name g :
  findRef a name g =
  fst (foldl (pick_step (ref_visible name g) (λ r, depthOf a (ref_group r))) (None, -1)
         (an_refs a)).
Proof.
  unfold findRef. f_equal. generalize (@None RelationRef, -1). induction (an_refs a) as [|r l IH];
    intros st; simpl; [done|]. rewrite IH. f_equal. unfold findRef_step, pick_step, ref_visible.
  destruct (ieq _ _), (isAncestorOrSelf _ _ _); done.
Qed.

(** the candidates of [findRelation], in the order it looks at them *)
Definition relations : list Relation :=
  map (λ t, mkRelation (Some t) false) (cat_tables (an_catalog a)) ++
  map (λ t, mkRelation (Some t) true) (cat_views (an_catalog a)).

Definition rel_is (P : Table → bool) (r : Relation) : bool :=
  match rel_table r with Some t => P t | None => false end.
Definition names_relation (name : string) (qual : list string) (t : Table) : bool :=
  ieq (tbl_name t) name && qualifierMatches (tbl_schema t) qual.
Definition rel_rank (name : string) (r : Relation) : Z :=
  match rel_table r with Some t => relation_rank a t name | None => 0 end.

Lemma consider_pick name qual isView l st :
  foldl (consider a name qual isView) (default (mkRelation None false) (fst st), snd st) l =
  let st' := foldl (pick_step (rel_is (names_relation name qual)) (rel_rank name)) st
               (map (λ t, mkRelation (Some t) isView) l) in
  (default (mkRelation None false) (fst st'), snd st').
Proof.
  revert st. induction l as [|t l IH]; intros st; simpl; [done|]. simpl in IH. rewrite <-IH. f_equal.
  unfold consider, pick_step, rel_is, names_relation, rel_rank. simpl.
  destruct (ieq _ _), (qualifierMatches _ _); simpl; try done. by destruct (_ <? _).
Qed.

Lemma findRelation_pick name qual :
  findRelation a (qual ++ [name]) =
  default (mkRelation None false)
    (fst (foldl (pick_step (rel_is (names_relation name qual)) (rel_rank name)) (None, -1) relations)).
Proof.
  unfold findRelation. rewrite last_snoc, removelast_last. unfold relations. rewrite foldl_app.
  pose proof (consider_pick name qual false (cat_tables (an_catalog a)) (None, -1)) as H1.
  simpl in H1. rewrite H1. by rewrite consider_pick.
Qed.

Lemma relation_rank_range t name : 0 <= relation_rank a t name <= 5.
Proof. unfold relation_rank. repeat case_match; lia. Qed.
End lookups.

(** C7: a name in a scope denotes the nearest reference of that name: one visible from
    the cursor's group such that every other visible one of the name belongs to the same
    scope or to one around it, and the first written of its own scope; there is none only
    when no reference of the name is visible. *)
Theorem findRef_nearest (sql : string) (offset : nat) (catalog : CompletionCatalog)
    (type : DatabaseType) (name : string) (i : Z) :
  let a := analyzer sql offset catalog type in
  let g := groupAt a i in
  let candidate r := r ∈ an_refs a ∧ ieq (ref_name r) name = true ∧ scope_of a (ref_group r) g in
  match findRef a name g with
  | None => ∀ r, ¬ candidate r
  | Some r =>
      candidate r ∧ (∀ r', candidate r' → scope_of a (ref_group r') (ref_group r)) ∧
      ∃ l1 l2, an_refs a = l1 ++ r :: l2 ∧
        ∀ r', r' ∈ l1 → candidate r' → ref_group r' ≠ ref_group r
  end.
Proof.
  intros a g candidate. pose proof (analyzer_built sql offset catalog type) as Hb. fold a in Hb.
  pose proof (groupAt_range a Hb i) as Hg. fold g in Hg. rewrite findRef_pick.
  assert (Hcand : ∀ r, candidate r ↔ r ∈ an_refs a ∧ ref_visible a name g r = true).
  { intros r. unfold candidate, ref_visible. rewrite andb_true_iff.
    by rewrite (isAncestorOrSelf_spec a Hb) by done. }
  pose proof (pick_spec (ref_visible a name g) (λ r, depthOf a (ref_group r)) (an_refs a)
    (λ r, depthOf_nonneg a _)) as H.
  destruct (foldl _ _ _) as [[r|] k]; simpl.
  - destruct H as (_ & Hv & Hmax & l1 & l2 & E & Hl1).
    assert (Hc : candidate r) by (apply Hcand; split; [rewrite E; set_solver|done]).
    split; [done|]. split.
    + intros r' Hc'. pose proof Hc' as [Hin' Hv']%Hcand.
      apply (scope_of_chain a Hb _ _ g); [done|apply Hc'|apply Hc|by apply Hmax].
    + exists l1, l2. split; [done|]. intros r' Hin' [_ Hv']%Hcand Heq.
      specialize (Hl1 r' Hin' Hv'). rewrite Heq in Hl1. lia.
  - intros r [Hin Hv]%Hcand. destruct H as [_ H]. by rewrite H in Hv.
Qed.

(** what a path denotes in the catalog.  The relation found has the path's last
    segment as its name and the rest as a suffix of its schema path, both without regard to
    case; there is none only when no table or view matches; a match in the default schema
    wins over a schemaless one, that one over any other, and among equals the exact
    spelling. *)
Lemma findRelation_best (a : Analyzer) (qual : list string) (name : string) :
  let matches t := ieq (tbl_name t) name = true ∧ qualifierMatches (tbl_schema t) qual = true in
  let known t := t ∈ cat_tables (an_catalog a) ∨ t ∈ cat_views (an_catalog a) in
  let default_schema t := ieq (tbl_schema t) (cat_defaultSchema (an_catalog a)) = true in
  match findRelation a (qual ++ [name]) with
  | mkRelation None _ => ∀ t, known t → ¬ matches t
  | mkRelation (Some t) isView =>
      t ∈ (if isView then cat_views (an_catalog a) else cat_tables (an_catalog a)) ∧ matches t ∧
      ∀ t', known t' → matches t' →
        (default_schema t' → default_schema t) ∧
        (tbl_schema t' = "" → tbl_schema t = "" ∨ default_schema t) ∧
        (tbl_schema t' = tbl_schema t → tbl_name t' = name → tbl_name t = name)
  end.
Proof.
  intros matches known default_schema. rewrite findRelation_pick.
  assert (Hin : ∀ t v, mkRelation (Some t) v ∈ relations a ↔
            t ∈ (if v then cat_views (an_catalog a) else cat_tables (an_catalog a))).
  { intros t v. unfold relations. rewrite elem_of_app, !list_elem_of_fmap.
    destruct v; split; naive_solver. }
  assert (Hknown : ∀ t, known t → ∃ v, mkRelation (Some t) v ∈ relations a).
  { intros t [?|?]; [exists false|exists true]; by apply Hin. }
  pose proof (pick_spec (rel_is (names_relation name qual)) (rel_rank a name) (relations a)) as H.
  destruct (foldl _ _ _) as [[[[t|] v]|] k]; simpl.
  - destruct H as (_ & Hp & Hmax & l1 & l2 & E & _).
    { intros [[t'|] ?]; [apply relation_rank_range|done]. }
    split; [apply Hin; rewrite E; set_solver|].
    split; [by apply andb_true_iff in Hp|]. intros t' (v' & Hk)%Hknown Hm.
    specialize (Hmax _ Hk ltac:(by apply andb_true_iff)). unfold rel_rank, relation_rank in Hmax.
    simpl in Hmax. unfold default_schema. split; [|split].
    + intros Hd. rewrite Hd in Hmax. destruct (ieq (tbl_schema t) _); [done|].
      repeat case_match; lia.
    + intros Hd. rewrite Hd in Hmax. destruct (ieq (tbl_schema t) _); [by right|].
      destruct (tbl_schema t); [by left|]. repeat case_match; simpl in *; (lia || done).
    + intros E1 E2. rewrite E1, E2, String.eqb_refl in Hmax.
      destruct (tbl_name t =? name)%string eqn:En; [by apply String.eqb_eq|]. repeat case_match; lia.
  - destruct H as (_ & ? & _); [|done]. intros [[t'|] ?]; [apply relation_rank_range|done].
  - intros t (v & Hk)%Hknown Hm. destruct H as [_ H].
    { intros [[t'|] ?]; [apply relation_rank_range|done]. }
    specialize (H _ Hk). apply andb_true_iff in Hm. unfold rel_is, names_relation in H.
    simpl in H. congruence.
Qed.

(** the references a cursor sees come innermost scope first, those of one scope in
    the order they were written, and are exactly those of the scopes around it. *)
Lemma visibleRefs_order (sql : string) (offset : nat) (catalog : CompletionCatalog)
    (type : DatabaseType) (i : Z) :
  let a := analyzer sql offset catalog type in
  let g := groupAt a i in
  let refs := visibleRefs a g in
  (∀ r, r ∈ refs ↔ r ∈ an_refs a ∧ scope_of a (ref_group r) g) ∧
  StronglySorted (λ x y, scope_of a (ref_group y) (ref_group x)) refs ∧
  (∀ h, scope_of a h g → visibleRefsIn a h = filter (λ r, ref_group r = h) refs).
Proof.
  intros a g refs. pose proof (analyzer_built sql offset catalog type) as Hb. fold a in Hb.
  pose proof (groupAt_range a Hb i) as Hg. fold g in Hg.
  assert (Hel : ∀ r, r ∈ refs ↔ r ∈ an_refs a ∧ scope_of a (ref_group r) g).
  { intros r. unfold refs, visibleRefs. rewrite elem_of_stable_sort, list_elem_of_filter.
    rewrite (isAncestorOrSelf_spec a Hb) by done. naive_solver. }
  split; [done|]. split.
  - pose proof (stable_sort_sorted (λ x y : RelationRef, depthOf a (ref_group y) <? depthOf a (ref_group x))
      (filter (λ r, isAncestorOrSelf a (ref_group r) g = true) (an_refs a))) as Hs.
    change (stable_sort _ _) with refs in Hs. revert Hel Hs. generalize refs. clear refs.
    intros l Hel. assert (Hsub : ∀ r, r ∈ l → scope_of a (ref_group r) g) by (intros r ?%Hel; naive_solver).
    clear Hel. induction 1 as [|x l Hl IH Hx]; constructor; [apply IH; set_solver|].
    apply Forall_forall. intros y Hy. rewrite Forall_forall in Hx. specialize (Hx y Hy).
    unfold not_after in Hx. apply Z.ltb_ge in Hx.
    apply (scope_of_chain a Hb _ _ g); [done|apply Hsub; set_solver..|lia].
  - intros h Hh. unfold refs, visibleRefs. rewrite stable_sort_filter.
    + rewrite list_filter_filter. unfold visibleRefsIn. apply list_filter_iff. intros r. split; [|tauto].
      intros ->. split; [done|]. by apply (isAncestorOrSelf_spec a Hb).
    + intros x y -> ->. lia.
Qed.

(** ** Termination

    Every loop over the tokens makes progress: upward ones because [closeOf] never goes
    back, downward ones because they stop in front of the first token. *)

Section loops.
Context (a : Analyzer) (Hb : built a).

Lemma isPunct_range i c : isPunct a i c = true → 0 <= i < size a.
Proof. intros (t & Ht & _)%isPunct_token. by apply zget_lt in Ht. Qed.
Lemma isKw_range i kw : isKw a i kw = true → 0 <= i < size a.
Proof.
  unfold isKw, tok. destruct (zget (an_toks a) i) as [t|] eqn:E; [|done]. by apply zget_lt in E.
Qed.
Lemma isKwIn_range i kws : isKwIn a i kws = true → 0 <= i < size a.
Proof. unfold isKwIn. intros (kw & _ & H)%existsb_exists. by apply isKw_range in H. Qed.
Lemma isIdent_range i : isIdent a i = true → 0 <= i < size a.
Proof.
  unfold isIdent, tok. destruct (zget (an_toks a) i) as [t|] eqn:E; [|done]. by apply zget_lt in E.
Qed.
Lemma isNameIdent_range i : isNameIdent a i = true → 0 <= i < size a.
Proof. unfold isNameIdent. intros [H _]%andb_true_iff. by apply isIdent_range. Qed.

(** an upward loop: [pos] reads the index off the state *)
Lemma up_loop {S} (pos : S → Z) (step : S → loop S) n (s : S) :
  0 <= pos s →
  (∀ s s', 0 <= pos s → step s = Continue s' → pos s < pos s' ∧ pos s < size a) →
  iter_loop (toks_fuel a + n) step s = iter_loop (toks_fuel a) step s.
Proof.
  intros Hs Hstep. unfold size in Hstep.
  apply (iter_loop_more (λ s, 0 <= pos s) (λ s, Z.to_nat (Z.of_nat (length (an_toks a)) - pos s)));
    unfold toks_fuel; [done|lia..|].
  intros s1 s2 H1 H2. specialize (Hstep s1 s2 H1 H2). lia.
Qed.

(** a downward loop from at most the end of the tokens *)
Lemma down_loop {S} (pos : S → Z) (step : S → loop S) n (s : S) :
  pos s <= size a →
  (∀ s s', step s = Continue s' → 0 <= pos s ∧ pos s' < pos s) →
  iter_loop (toks_fuel a + n) step s = iter_loop (toks_fuel a) step s.
Proof.
  intros Hs Hstep. unfold size in Hs.
  apply (iter_loop_more (λ s, pos s <= Z.of_nat (length (an_toks a))) (λ s, Z.to_nat (pos s + 1)));
    unfold toks_fuel; [done|lia..|].
  intros s1 s2 H1 H2. specialize (Hstep s1 s2 H2). lia.
Qed.

Lemma skip_relation_words_ge j : j <= skip_relation_words a j.
Proof.
  unfold skip_relation_words. apply (iter_loop_inv (λ x, j <= x)); [done|].
  intros s Hs. unfold skip_relation_words_step. destruct (isKwIn _ _ _); lia.
Qed.

Lemma path_tail_ge j : j <= snd (path_tail a j).
Proof.
  unfold path_tail. apply (iter_loop_inv (λ x, j <= snd x)); [done|].
  intros [p x] Hs. unfold path_tail_step. simpl in Hs. destruct (_ && _); simpl; lia.
Qed.

Lemma relation_item_gt into j d p f j' : relation_item a into j = Some (d, p, f, j') → j < j'.
Proof.
  unfold relation_item. pose proof (path_tail_ge (j + 1)) as Hp.
  destruct (path_tail a (j + 1)) as [tl j1]. simpl in Hp. pose proof (closeOf_ge a Hb j1).
  pose proof (closeOf_ge a Hb j). repeat case_match; intros; simplify_eq; lia.
Qed.

Lemma parseRelation_progress isList into g s s' :
  parseRelation_step a isList into g s = Continue s' → fst s < fst s' ∧ fst s < size a.
Proof.
  destruct s as [j refs]. unfold parseRelation_step. pose proof (skip_relation_words_ge j) as H1.
  destruct ((j <? size a) && (groupOf a j =? g)) eqn:Hj; [|done].
  apply andb_true_iff in Hj as [Hj%Z.ltb_lt _].
  destruct (relation_item a into (skip_relation_words a j)) as [[[[d p] f] j1]|] eqn:E; [|done].
  apply relation_item_gt in E. set (alias := if isKw a j1 "AS" then _ else _).
  assert (Ha : j1 <= snd alias) by (unfold alias; repeat case_match; simpl; lia).
  destruct alias as [al j2]. simpl in Ha.
  set (als := if negb (sempty al) && isPunct a j2 "(" && _ then _ else _).
  assert (Hal : j2 <= snd als).
  { unfold als. pose proof (closeOf_ge a Hb j2). case_match; simpl; lia. }
  destruct als as [cl j3]. simpl in Hal. case_match; intros; simplify_eq. simpl. lia.
Qed.

Lemma collectCtes_progress s s' :
  collectCtes_step a s = Continue s' → fst s < fst s' ∧ fst s < size a.
Proof.
  destruct s as [j ctes]. unfold collectCtes_step.
  destruct (isIdent a j) eqn:Hj; [|done]. apply isIdent_range in Hj.
  set (cols := if isPunct a (j + 1) "(" then _ else _).
  assert (Hc : j < snd cols).
  { unfold cols. pose proof (closeOf_ge a Hb (j + 1)). case_match; simpl; lia. }
  destruct cols as [cols j1]. simpl in Hc.
  destruct (negb _); [done|]. set (j2 := if isKw a (j1 + 1) "NOT" then _ else _).
  assert (j1 < j2) by (unfold j2; case_match; lia).
  set (j3 := if isKw a j2 "MATERIALIZED" then _ else _).
  assert (j2 <= j3) by (unfold j3; case_match; lia).
  destruct (negb _); [done|]. pose proof (closeOf_ge a Hb j3).
  destruct (negb _); [done|]. intros; simplify_eq. simpl. lia.
Qed.
End loops.

(** case analysis on a loop body; every token test that succeeded bounds its index *)
Ltac body_cases a Hb :=
  repeat case_match; simplify_eq;
  repeat match goal with
    | H : (_ && _)%bool = true |- _ => apply andb_true_iff in H as [? ?]
    | H : (_ <? _) = true |- _ => apply Z.ltb_lt in H
    | H : isPunct a _ _ = true |- _ => apply isPunct_range in H
    | H : isKw a _ _ = true |- _ => apply isKw_range in H
    | H : isKwIn a _ _ = true |- _ => apply isKwIn_range in H
    | H : isIdent a _ = true |- _ => apply isIdent_range in H
    | H : isNameIdent a _ = true |- _ => apply isNameIdent_range in H
    end;
  repeat match goal with
    | |- context [closeOf a ?i] => pose proof (closeOf_ge a Hb i); generalize dependent (closeOf a i); intros
    | H : context [closeOf a ?i] |- _ => pose proof (closeOf_ge a Hb i); generalize dependent (closeOf a i); intros
    end.

(** the token loops of the analyzer end by themselves.  The model gives each of them
    two more iterations than the statement has tokens; any further fuel [n] leaves the
    results unchanged, from every state the analyzer starts them in. *)
Lemma analyzer_loops_end (sql : string) (offset : nat) (catalog : CompletionCatalog)
    (type : DatabaseType) (n : nat) :
  let a := analyzer sql offset catalog type in
  let fuel := toks_fuel a in
  (∀ g e k, 0 <= k → e <= size a →
     iter_loop (fuel + n) (find_select_step a g e) k = find_select a g e k ∧
     iter_loop (fuel + n) (skip_modifiers_step a e) k = skip_modifiers a e k ∧
     ∀ rc item out, iter_loop (fuel + n) (select_items_step a rc g e) (k, item, out) =
       iter_loop fuel (select_items_step a rc g e) (k, item, out)) ∧
  (∀ i, i <= size a →
     fst (iter_loop (fuel + n) (qualifierBefore_step a) ([], i, i - 1)) = qualifierBefore a i ∧
     isKw a (iter_loop (fuel + n) (isCreateTable_step a) (i - 1)) "CREATE" = isCreateTable a i) ∧
  (∀ isList start k c, 0 <= k → start <= size a →
     iter_loop (fuel + n) (relationSlotEmpty_step a isList start) (k, c) =
     iter_loop fuel (relationSlotEmpty_step a isList start) (k, c)) ∧
  (∀ j ctes, 0 <= j → iter_loop (fuel + n) (collectCtes_step a) (j, ctes) =
     iter_loop fuel (collectCtes_step a) (j, ctes)) ∧
  (∀ j, 0 <= j → iter_loop (fuel + n) (skip_relation_words_step a) j = skip_relation_words a j ∧
     iter_loop (fuel + n) (path_tail_step a) ([], j) = path_tail a j) ∧
  (∀ isList into g j refs, 0 <= j →
     iter_loop (fuel + n) (parseRelation_step a isList into g) (j, refs) =
     iter_loop fuel (parseRelation_step a isList into g) (j, refs)).
Proof.
  intros a fuel. pose proof (analyzer_built sql offset catalog type) as Hb. fold a in Hb.
  unfold fuel, find_select, skip_modifiers, qualifierBefore, isCreateTable, skip_relation_words,
    path_tail. repeat split; intros.
  - apply (up_loop a id); [done|]. unfold find_select_step. intros s s' ? ?.
    body_cases a Hb. unfold id. lia.
  - apply (up_loop a id); [done|]. unfold skip_modifiers_step. intros s s' ? ?.
    unfold id. body_cases a Hb; lia.
  - apply (up_loop a (λ s, fst (fst s))); [done|]. unfold select_items_step. intros [[? ?] ?] s' ? ?.
    simpl in *. body_cases a Hb; simpl; lia.
  - f_equal. apply (down_loop a snd); [simpl; lia|]. unfold qualifierBefore_step.
    intros [[? ?] ?] s' ?. simpl in *. body_cases a Hb; simpl; lia.
  - f_equal. apply (down_loop a id); [unfold id; lia|]. unfold isCreateTable_step, id.
    intros s s' ?. body_cases a Hb; lia.
  - apply (up_loop a fst); [done|]. unfold relationSlotEmpty_step. intros [? ?] s' ? ?.
    simpl in *. body_cases a Hb; simpl; lia.
  - apply (up_loop a fst); [done|]. intros s s' _. by apply collectCtes_progress.
  - apply (up_loop a id); [done|]. unfold skip_relation_words_step, id. intros s s' ? ?.
    body_cases a Hb; lia.
  - apply (up_loop a snd); [done|]. unfold path_tail_step. intros [? ?] s' ? ?. simpl in *.
    body_cases a Hb; simpl; lia.
  - apply (up_loop a fst); [done|]. intros s s' _. by apply parseRelation_progress.
Qed.

(** ** Derived columns *)

Section derived.
Context (a : Analyzer).

Lemma resolve_candidates_ext rc rc' name l info :
  (∀ r, rc r = rc' r) → resolve_candidates rc name l info = resolve_candidates rc' name l info.
Proof.
  intros E. revert info. induction l as [|r l IH]; intros info; simpl; [done|].
  rewrite E. by case_match.
Qed.

Lemma deriveItem_ext rc rc' item g :
  (∀ r, rc r = rc' r) → deriveItem a rc item g = deriveItem a rc' item g.
Proof.
  intros E. unfold deriveItem. destruct (last item) as [l|]; [|done]. cbv zeta.
  rewrite (list_fmap_ext rc rc' (visibleRefsIn a g)) by (intros; apply E).
  repeat (match goal with |- context [resolve_candidates rc ?n ?c ?i] =>
            rewrite (resolve_candidates_ext rc rc' n c i E) end).
  repeat case_match; try done; by rewrite ?E.
Qed.

Lemma select_items_ext rc rc' g k e :
  (∀ r, rc r = rc' r) → select_items a rc g k e = select_items a rc' g k e.
Proof.
  intros E. unfold select_items.
  assert (∀ fuel st, iter_loop fuel (select_items_step a rc g e) st =
                     iter_loop fuel (select_items_step a rc' g e) st) as ->.
  { induction fuel as [|fuel IH]; intros st; simpl; [done|].
    assert (select_items_step a rc g e st = select_items_step a rc' g e st) as ->.
    { unfold select_items_step. destruct st as [[? ?] ?].
      by rewrite (deriveItem_ext rc rc'). }
    by destruct (select_items_step a rc' g e st). }
  destruct (iter_loop _ _ _) as [[? item] ?]. by rewrite (deriveItem_ext rc rc').
Qed.

(** the fuel is spent only above the depth cap *)
Lemma columns_fuel fuel : ∀ fuel' depth,
  (7 < fuel + depth)%nat → (7 < fuel' + depth)%nat →
  (∀ r, refColumns_from a fuel r depth = refColumns_from a fuel' r depth) ∧
  (∀ g, selectColumns_from a fuel g depth = selectColumns_from a fuel' g depth).
Proof.
  induction fuel as [|fuel IH]; intros fuel' depth Hf Hf'.
  - assert (Hd : (6 <? depth)%nat = true) by (apply Nat.ltb_lt; lia).
    by split; intros; destruct fuel'; simpl; rewrite ?Hd.
  - destruct fuel' as [|fuel'].
    { assert (Hd : (6 <? depth)%nat = true) by (apply Nat.ltb_lt; lia).
      by split; intros; cbn [refColumns_from selectColumns_from]; rewrite Hd. }
    destruct (IH fuel' (depth + 1)%nat ltac:(lia) ltac:(lia)) as [IHr IHs].
    split; intros; cbn [refColumns_from selectColumns_from]; destruct (6 <? depth)%nat; try done.
    + rewrite IHs. destruct (0 <=? ref_derived r); [done|]. destruct (ref_function r); [done|].
      repeat case_match; rewrite ?IHs; done.
    + cbv zeta. case_match; [done|]. by apply select_items_ext.
Qed.
End derived.

(** the mutual recursion of [selectColumns], [cteColumns] and [refColumns] stops at
    its depth cap.  A subquery or CTE that refers to itself, directly or through others, is
    cut at level 6, so the eight levels the model unrolls are all there are: more change
    nothing, and beyond the cap the column list is empty. *)
Lemma columns_depth_cap (a : Analyzer) (depth n : nat) (r : RelationRef) (g : Z) :
  refColumns_from a (depth_fuel + n) r depth = refColumns a r depth ∧
  selectColumns_from a (depth_fuel + n) g depth = selectColumns a g depth ∧
  refColumns a r (7 + n) = [] ∧ selectColumns a g (7 + n) = [].
Proof.
  unfold refColumns, selectColumns, depth_fuel.
  destruct (columns_fuel a (8 + n) 8 depth) as [H1 H2]; [lia..|].
  split; [apply H1|]. split; [apply H2|]. done.
Qed.

(** ** Everything found is in the catalog *)

Definition known_table (a : Analyzer) (t : Table) : Prop :=
  t ∈ cat_tables (an_catalog a) ∨ t ∈ cat_views (an_catalog a).

Lemma findRelation_known a path t :
  rel_table (findRelation a path) = Some t →
  t ∈ (if rel_isView (findRelation a path) then cat_views (an_catalog a)
       else cat_tables (an_catalog a)).
Proof.
  destruct path as [|name qual _] using rev_ind; [done|]. rewrite findRelation_pick.
  pose proof (pick_spec (rel_is (names_relation name qual)) (rel_rank a name) (relations a)) as H.
  destruct (foldl _ _ _) as [[r|] k]; [|done]. simpl. intros Ht. destruct H as (_ & _ & _ & l1 & l2 & E & _).
  { intros [[t'|] ?]; [apply relation_rank_range|done]. }
  assert (Hin : r ∈ relations a) by (rewrite E; set_solver). destruct r as [t' v]. simpl in *. subst t'.
  unfold relations in Hin. rewrite elem_of_app, !list_elem_of_fmap in Hin. destruct v; naive_solver.
Qed.

Lemma findRelation_known_table a path t :
  rel_table (findRelation a path) = Some t → known_table a t.
Proof. intros H%findRelation_known. unfold known_table. destruct (rel_isView _); auto. Qed.

(** a column's source, when the analyzer gives one, is a column of a known table *)
Definition sourced (a : Analyzer) (info : ColInfo) : Prop :=
  ∀ c, inf_column info = Some c → ∃ t, known_table a t ∧ c ∈ tbl_columns t.

Section sources.
Context (a : Analyzer).

Lemma sourced_none name type : sourced a (mkColInfo name type None).
Proof. by intros c. Qed.

Lemma applyAliases_sourced cols aliases :
  Forall (sourced a) cols → Forall (sourced a) (applyAliases cols aliases).
Proof.
  revert cols. induction aliases as [|al als IH]; intros cols Hc; destruct Hc as [|c cols Hc Hcs];
    simpl; constructor; try done; try apply sourced_none; by apply IH; auto.
Qed.

Lemma resolve_candidates_sourced rc name l info :
  (∀ r, Forall (sourced a) (rc r)) → sourced a info →
  sourced a (resolve_candidates rc name l info).
Proof.
  intros Hrc. revert info. induction l as [|r l IH]; intros info Hi; simpl; [done|].
  destruct (List.find _ (rc r)) as [c|] eqn:E; [|case_match; auto].
  assert (sourced a (mkColInfo (inf_name info) (inf_type c) (inf_column c))) as Hc.
  { apply List.find_some in E as [Hin%list_elem_of_In _]. specialize (Hrc r).
    rewrite Forall_forall in Hrc. exact (Hrc c Hin). }
  case_match; auto.
Qed.

Lemma deriveItem_sourced rc item g :
  (∀ r, Forall (sourced a) (rc r)) → Forall (sourced a) (deriveItem a rc item g).
Proof.
  intros Hrc. unfold deriveItem. destruct (last item) as [l|]; [|constructor]. cbv zeta.
  assert (Hjoin : ∀ refs, Forall (sourced a) (mjoin (rc <$> refs))).
  { induction refs as [|r refs IH]; simpl; [constructor|]. apply Forall_app. by split. }
  repeat case_match; auto; repeat constructor; try apply sourced_none;
    apply resolve_candidates_sourced, sourced_none; done.
Qed.

Lemma select_items_sourced rc g k e :
  (∀ r, Forall (sourced a) (rc r)) → Forall (sourced a) (select_items a rc g k e).
Proof.
  intros Hrc. unfold select_items.
  pose proof (iter_loop_inv (λ st, Forall (sourced a) (snd st)) (select_items_step a rc g e)
    (toks_fuel a) (k, [], [])) as H.
  destruct (iter_loop _ _ _) as [[k' item] out]. apply Forall_app. split; [|by apply deriveItem_sourced].
  apply H; [constructor|]. intros [[k1 it1] o1] Ho. unfold select_items_step. simpl in Ho.
  repeat case_match; simplify_eq; simpl; try done. apply Forall_app. split; [done|].
  by apply deriveItem_sourced.
Qed.

Lemma tableColumns_sourced t : known_table a t → Forall (sourced a) (tableColumns t).
Proof.
  intros Ht. apply Forall_forall. intros info (c & -> & Hc)%list_elem_of_fmap c' [= <-]. eauto.
Qed.

Lemma columns_sourced fuel : ∀ depth,
  (∀ r, Forall (sourced a) (refColumns_from a fuel r depth)) ∧
  (∀ g, Forall (sourced a) (selectColumns_from a fuel g depth)).
Proof.
  induction fuel as [|fuel IH]; intros depth; [by split; constructor|].
  destruct (IH (depth + 1)%nat) as [IHr IHs].
  split; intros; cbn [refColumns_from selectColumns_from]; case_match; try constructor.
  - apply applyAliases_sourced. case_match; [done|]. case_match; [constructor|].
    destruct (match ref_path r with [p] => findCte a p | _ => None end) as [c|].
    { apply applyAliases_sourced. case_match; [done|constructor]. }
    destruct (rel_table _) as [t|] eqn:E; [|constructor].
    by eapply tableColumns_sourced, findRelation_known_table.
  - cbv zeta. case_match; [constructor|]. by apply select_items_sourced.
Qed.

Lemma refColumns_sourced r d : Forall (sourced a) (refColumns a r d).
Proof. apply columns_sourced. Qed.

Lemma cteColumns_sourced c d : Forall (sourced a) (cteColumns a c d).
Proof. apply applyAliases_sourced. case_match; [apply columns_sourced|constructor]. Qed.
End sources.
