(* ===== verification/Sources.v ===== *)
(** * Where the columns of a relation come from

    A declarative account of the columns of a relation of the statement: those of the table it
    names, of the CTE, or of the select list it stands for, behind its aliases; and that the
    analyzer's columns have no other names. *)

From S2P Require Import Prelude Types Lexer Analyzer AnalyzerProps.
#[local] Open Scope Z_scope.

(** ** Schemas and names *)

Definition same_names : list string → list string → Prop := Forall2 (λ x y, ieq x y = true).

(** the qualifier is the end of the schema's path *)
Definition in_schema (path : string) (q : list string) : Prop :=
  ∃ before named, splitPath path = before ++ named ∧ same_names named q.

Lemma ieq_all_spec xs ys :
  ieq_all xs ys = true ↔ ∃ start rest, xs = start ++ rest ∧ same_names start ys.
Proof.
  revert xs. induction ys as [|y ys IH]; intros xs.
  { split; [|by destruct xs]. intros _. exists [], xs. split; [done|constructor]. }
  destruct xs as [|x xs]; simpl.
  { split; [done|]. intros (start & rest & E & H). destruct start; [inversion H|done]. }
  rewrite andb_true_iff, IH. split.
  - intros [Hx (start & rest & -> & H)]. exists (x :: start), rest. by repeat constructor.
  - intros (start & rest & E & H). inversion H; subst. injection E as <- ->. eauto.
Qed.

Lemma qualifierMatches_spec path q : qualifierMatches path q = true → in_schema path q.
Proof.
  unfold qualifierMatches, in_schema. destruct q as [|y q].
  { intros _. exists (splitPath path), []. split; [by rewrite app_nil_r|constructor]. }
  set (segs := splitPath path). case_decide as Hl; [done|]. intros (start & rest & E & H)%ieq_all_spec.
  set (k := (length segs - length (y :: q))%nat) in *.
  assert (rest = []) as ->.
  { apply nil_length_inv. apply (f_equal length) in E. apply Forall2_length in H.
    rewrite length_drop, length_app in E. lia. }
  exists (take k segs), start. split; [|done]. by rewrite <-(take_drop k segs) at 1; rewrite E, app_nil_r.
Qed.

Section sources.
Context (a : Analyzer).

(** the path names this table or view of the catalog *)
Definition names_table (path : list string) (t : Table) : Prop :=
  ∃ q name, path = q ++ [name] ∧ known_table a t ∧ ieq (tbl_name t) name = true ∧
    in_schema (tbl_schema t) q.

(** the name of a relation that is in scope in group [g] *)
Definition in_scope (name : string) (g : Z) (r : RelationRef) : Prop :=
  r ∈ an_refs a ∧ ieq (ref_name r) name = true ∧ scope_of a (ref_group r) g.

Definition names_cte (path : list string) (c : Cte) : Prop :=
  ∃ name, path = [name] ∧ c ∈ an_ctes a ∧ ieq (cte_name c) name = true.

(** the names of the columns of a relation, and of the select list in a group *)
Inductive column_of : RelationRef → string → Prop :=
  | column_alias r n : n ∈ ref_columnAliases r → column_of r n
  | column_subquery r n : 0 <= ref_derived r → selects (ref_derived r) n → column_of r n
  | column_cte r c n : names_cte (ref_path r) c → cte_column c n → column_of r n
  | column_table r t n :
      (∀ c, ¬ names_cte (ref_path r) c) → names_table (ref_path r) t →
      n ∈ map col_name (tbl_columns t) → column_of r n
with selects : Z → string → Prop :=
  | selects_name g i :
      isIdent a i = true → grp_open (group a g) < i < grp_close (group a g) → selects g (tok_text a i)
  | selects_all g r n : r ∈ an_refs a → ref_group r = g → column_of r n → selects g n
  | selects_all_of g i r n :
      isIdent a i = true → grp_open (group a g) < i < grp_close (group a g) →
      in_scope (tok_text a i) g r → column_of r n → selects g n
with cte_column : Cte → string → Prop :=
  | cte_alias c n : n ∈ cte_columns c → cte_column c n
  | cte_body_column c n : 0 <= cte_body c → selects (cte_body c) n → cte_column c n.

(** ** The analyzer's lookups *)

Lemma findRelation_names path t : rel_table (findRelation a path) = Some t → names_table path t.
Proof.
  destruct path as [|name q _] using rev_ind; [done|]. intros Ht.
  pose proof (findRelation_known_table _ _ _ Ht) as Hk. pose proof (findRelation_best a q name) as H.
  cbv zeta in H. destruct (findRelation a (q ++ [name])) as [[t'|] v]; simpl in Ht; simplify_eq.
  destruct H as (_ & [Hn Hq] & _). exists q, name. by split_and!; [| | |apply qualifierMatches_spec].
Qed.

Lemma findCte_names name c : findCte a name = Some c → names_cte [name] c.
Proof. intros [Hin%list_elem_of_In Hn]%List.find_some. by exists name. Qed.

Lemma findCte_none name : findCte a name = None → ∀ c, ¬ names_cte [name] c.
Proof.
  intros H c (n & [= <-] & Hin%list_elem_of_In & Hn). by rewrite (List.find_none _ _ H c Hin) in Hn.
Qed.

(** the CTE of a path: only a single name can be one *)
Lemma path_cte_names path :
  match match path with [p] => findCte a p | _ => None end with
  | Some c => names_cte path c
  | None => ∀ c, ¬ names_cte path c
  end.
Proof.
  destruct path as [|p [|p' path]].
  - by intros c (n & ? & _).
  - destruct (findCte a p) eqn:E; [by apply findCte_names|by apply findCte_none].
  - by intros c (n & ? & _).
Qed.

Lemma applyAliases_names cols aliases info :
  info ∈ applyAliases cols aliases → inf_name info ∈ aliases ∨ info ∈ cols.
Proof.
  revert cols. induction aliases as [|al als IH]; intros cols; [by destruct cols; right|].
  destruct cols as [|c cols]; simpl; intros [-> | H]%elem_of_cons; try (left; by left).
  - destruct (IH [] H) as [?|?]; [left; by right|by right].
  - destruct (IH cols H) as [?|?]; [left; by right|right; by right].
Qed.

Lemma resolve_candidates_name rc name l info : inf_name (resolve_candidates rc name l info) = inf_name info.
Proof.
  revert info. induction l as [|r l IH]; intros info; simpl; [done|].
  destruct (List.find _ (rc r)); case_match; rewrite ?IH; done.
Qed.

Context (Hb : built a).

Lemma isAncestorOrSelf_from_scope fuel r g : isAncestorOrSelf_from a fuel r g = true → scope_of a r g.
Proof.
  revert g. induction fuel as [|fuel IH]; intros g; cbn [isAncestorOrSelf_from]; [done|].
  destruct (Z.ltb_spec g 0); [done|]. destruct (Z.eqb_spec g r) as [->|]; [by intros _; constructor|].
  intros Hg%IH. destruct (decide (g = 0)) as [->|]; [|apply scope_up; [lia|done]].
  rewrite (root_group a Hb) in Hg. simpl in Hg. inversion Hg; subst; lia.
Qed.

Lemma findRef_scope name g r : findRef a name g = Some r → in_scope name g r.
Proof.
  rewrite findRef_pick. intros E.
  pose proof (pick_spec (ref_visible a name g) (λ r, depthOf a (ref_group r)) (an_refs a)
    (λ r, depthOf_nonneg a _)) as H.
  destruct (foldl _ _ _) as [o k]. simpl in E. subst o.
  destruct H as (_ & [Hn Hs]%andb_true_iff & _ & l1 & l2 & E & _).
  split; [rewrite E; set_solver|]. split; [done|]. by eapply isAncestorOrSelf_from_scope.
Qed.

(** the nearest relation of the name *)
Lemma findRef_spec name g :
  0 <= g < ngroups a →
  match findRef a name g with
  | None => ∀ r, ¬ in_scope name g r
  | Some r => in_scope name g r ∧ ∀ r', in_scope name g r' → scope_of a (ref_group r') (ref_group r)
  end.
Proof.
  intros Hg. destruct (findRef a name g) as [r|] eqn:Er.
  - pose proof (findRef_scope _ _ _ Er) as Hr. split; [done|]. intros r' (Hin & Hn & Hs).
    rewrite findRef_pick in Er.
    pose proof (pick_spec (ref_visible a name g) (λ r, depthOf a (ref_group r)) (an_refs a)
      (λ r, depthOf_nonneg a _)) as H.
    destruct (foldl _ _ _) as [o k]. simpl in Er. subst o. destruct H as (_ & _ & Hmax & _).
    apply (scope_of_chain a Hb _ _ g); [done..|apply Hr|]. apply Hmax; [done|].
    apply andb_true_iff. split; [done|]. by apply (isAncestorOrSelf_spec a Hb).
  - intros r (Hin & Hn & Hs). rewrite findRef_pick in Er.
    pose proof (pick_spec (ref_visible a name g) (λ r, depthOf a (ref_group r)) (an_refs a)
      (λ r, depthOf_nonneg a _)) as H.
    destruct (foldl _ _ _) as [o k]. simpl in Er. subst o. destruct H as [_ H].
    specialize (H r Hin). unfold ref_visible in H. rewrite Hn in H. simpl in H.
    apply (isAncestorOrSelf_spec a Hb) in Hs; [|done]. congruence.
Qed.

Lemma findRefIn_scope name g r : 0 <= g → findRefIn a name g = Some r → in_scope name g r.
Proof.
  intros Hg. unfold findRefIn. destruct (List.find _ _) as [r'|] eqn:E; [|apply findRef_scope].
  intros [= ->]. apply List.find_some in E as [Hin%list_elem_of_In [<-%Z.eqb_eq Hn]%andb_true_iff].
  split_and!; [done..|by constructor].
Qed.

(** ** The names of derived columns *)

(** tokens between the parentheses of a group *)
Definition within (g : Z) (i : Z) : Prop := grp_open (group a g) < i < grp_close (group a g).

Definition named_columns (rc : RelationRef → list ColInfo) : Prop :=
  ∀ r info, info ∈ rc r → column_of r (inf_name info).

Lemma item_lookup (item : list Z) k g :
  Forall (within g) item → isIdent a (default (-1) (item !! k)) = true → within g (default (-1) (item !! k)).
Proof.
  intros Hi Hid. destruct (item !! k) as [i|] eqn:E; simpl in *.
  - rewrite Forall_forall in Hi. by eapply Hi, list_elem_of_lookup_2.
  - apply isIdent_range in Hid. lia.
Qed.

Lemma deriveItem_names rc item g info :
  0 <= g → named_columns rc → Forall (within g) item →
  info ∈ deriveItem a rc item g → selects g (inf_name info).
Proof.
  intros Hg Hrc Hi. unfold deriveItem. destruct (last item) as [l|] eqn:El; [|by intros ?%elem_of_nil].
  cbv zeta.
  assert (Hl : isIdent a l = true → selects g (tok_text a l)).
  { intros Hid. apply selects_name; [done|]. rewrite Forall_forall in Hi. apply Hi.
    apply last_Some in El as [l' ->]. set_solver. }
  destruct (_ && _) eqn:Estar.
  - case_decide.
    + intros (cols & Hin & (r & -> & Hr)%list_elem_of_fmap)%list_elem_of_join.
      unfold visibleRefsIn in Hr. apply list_elem_of_filter in Hr as [Hgr Hr].
      eapply selects_all; [exact Hr|done|]. by apply Hrc.
    + destruct (_ && _ && _) eqn:Eq; [|by intros ?%elem_of_nil].
      apply andb_true_iff in Eq as [_ Hid].
      destruct (findRefIn _ _ _) as [r|] eqn:Er; [|by intros ?%elem_of_nil].
      intros Hin. eapply (selects_all_of g); [exact Hid|by apply item_lookup|by apply findRefIn_scope|].
      by apply Hrc.
  - destruct (isIdent a l) eqn:Hid; cbn [negb]; [|by intros ?%elem_of_nil].
    specialize (Hl eq_refl).
    repeat case_match; try (by intros ?%elem_of_nil); intros ->%list_elem_of_singleton; try done;
      by rewrite resolve_candidates_name.
Qed.

Lemma find_select_ge g e k : k <= find_select a g e k.
Proof.
  unfold find_select. apply (iter_loop_inv (λ x, k <= x)); [done|].
  intros s Hs. unfold find_select_step. destruct (_ && _); lia.
Qed.

Lemma skip_modifiers_ge e k : k <= skip_modifiers a e k.
Proof.
  unfold skip_modifiers. apply (iter_loop_inv (λ x, k <= x)); [done|].
  intros s Hs. unfold skip_modifiers_step. pose proof (closeOf_ge a Hb (s + 1)).
  pose proof (closeOf_ge a Hb (s + 1 + 1)). destruct (s <? e); [|done].
  destruct (isKwIn _ _ _); [destruct (_ && _); lia|]. destruct (isKw a s "TOP"); [|done].
  destruct (isPunct _ _ _); destruct (isKw _ _ _); lia.
Qed.

Lemma select_items_names rc g k e info :
  0 <= g → named_columns rc → grp_open (group a g) < k → e <= grp_close (group a g) →
  info ∈ select_items a rc g k e → selects g (inf_name info).
Proof.
  intros Hg Hrc Hk He. unfold select_items.
  pose proof (iter_loop_inv
    (λ st, let '(k, item, out) := st in grp_open (group a g) < k ∧ Forall (within g) item ∧
             Forall (λ info, selects g (inf_name info)) out)
    (select_items_step a rc g e) (toks_fuel a) (k, [], [])) as H.
  destruct (iter_loop _ _ _) as [[k' item] out]. destruct H as (_ & Hi & Ho).
  - split_and!; [done|constructor..].
  - intros [[k1 it1] o1] (Hk1 & Hi1 & Ho1). unfold select_items_step.
    destruct (Z.ltb_spec k1 e); [|done]. destruct (isKwIn _ _ _); [done|].
    destruct (isPunct a k1 ","); split_and!; try done; try lia.
    + apply Forall_app. split; [done|]. apply Forall_forall. intros x. by apply deriveItem_names.
    + pose proof (closeOf_ge a Hb k1). destruct (isPunct _ _ _); lia.
    + apply Forall_app. split; [done|]. apply Forall_singleton. unfold within. lia.
  - intros [Hin|Hin]%elem_of_app; [|by eapply deriveItem_names].
    rewrite Forall_forall in Ho. by apply Ho.
Qed.

Lemma tableColumns_names t info : info ∈ tableColumns t → inf_name info ∈ map col_name (tbl_columns t).
Proof. intros (c & -> & Hc)%list_elem_of_fmap. apply list_elem_of_fmap. by exists c. Qed.

Lemma columns_names fuel : ∀ depth,
  named_columns (λ r, refColumns_from a fuel r depth) ∧
  ∀ g info, 0 <= g → info ∈ selectColumns_from a fuel g depth → selects g (inf_name info).
Proof.
  induction fuel as [|fuel IH]; intros depth; [by split; [intros r info ?%elem_of_nil|intros g info _ ?%elem_of_nil]|].
  destruct (IH (depth + 1)%nat) as [IHr IHs].
  split; [intros r info|intros g info Hg]; cbn [refColumns_from selectColumns_from];
    (case_match; [by intros ?%elem_of_nil|]).
  - intros [Hal|Hin]%applyAliases_names; [by apply column_alias|]. revert Hin.
    destruct (Z.leb_spec 0 (ref_derived r)).
    { intros Hin. apply column_subquery; [done|]. by apply IHs. }
    destruct (ref_function r); [by intros ?%elem_of_nil|].
    pose proof (path_cte_names (ref_path r)) as Hc.
    destruct (match ref_path r with [p] => findCte a p | _ => None end) as [c|].
    + intros [Hal|Hin]%applyAliases_names; eapply column_cte; try exact Hc; [by apply cte_alias|].
      destruct (Z.leb_spec 0 (cte_body c)); [|by apply elem_of_nil in Hin].
      apply cte_body_column; [done|]. by apply IHs.
    + destruct (rel_table _) as [t|] eqn:E; [|by intros ?%elem_of_nil].
      intros Hin%tableColumns_names. eapply column_table; [done|by apply findRelation_names|done].
  - cbv zeta. case_match; [by intros ?%elem_of_nil|]. apply select_items_names; [done|done| |lia].
    set (e := Z.min _ _). pose proof (find_select_ge g e (grp_open (group a g) + 1)).
    pose proof (skip_modifiers_ge e (find_select a g e (grp_open (group a g) + 1) + 1)). lia.
Qed.

Lemma refColumns_names r info d : info ∈ refColumns a r d → column_of r (inf_name info).
Proof. apply columns_names. Qed.

Lemma cteColumns_names c info d : info ∈ cteColumns a c d → cte_column c (inf_name info).
Proof.
  intros [Hal|Hin]%applyAliases_names; [by apply cte_alias|]. revert Hin.
  destruct (Z.leb_spec 0 (cte_body c)); [|by intros ?%elem_of_nil].
  intros Hin. apply cte_body_column; [done|]. by eapply columns_names.
Qed.
End sources.
