(* ===== verification/CompletionProps.v ===== *)
(** * Properties of completion

    The order of the items, matching and scoring, what [complete] may offer and replace, and
    what [resolveIdentifierAt] answers. *)

From S2P Require Import Prelude Types ConnectionInfo SqlBuilder Lexer Keywords Analyzer AnalyzerProps Sources Completion.

(** ** The order of the items *)

Lemma schar_inj x y : schar x = schar y → x = y.
Proof.
  assert (∀ c, (code c < 256)%N) as Hlt.
  { intros c. unfold code. pose proof (nat_ascii_bounded c) as H.
    unfold nat_of_ascii in H. lia. }
  unfold schar. intros H. rewrite <-(ascii_N_embedding x), <-(ascii_N_embedding y).
  fold (code x) (code y). f_equal. pose proof (Hlt x). pose proof (Hlt y).
  destruct (Z.ltb_spec (Z.of_N (code x)) 128), (Z.ltb_spec (Z.of_N (code y)) 128); lia.
Qed.

Definition codes (s : string) : list Z := map (λ c, schar (lowerc c)) (list_ascii_of_string s).
Definition cmp_str (a b : string) : comparison := list_cmp Z.compare (codes a) (codes b).

#[export] Instance cmp_str_comparator : Comparator cmp_str.
Proof. apply (on_key_comparator codes). apply _. Qed.

Lemma iless_cmp a b : iless a b = is_lt (cmp_str a b).
Proof.
  revert b. induction a as [|x a IH]; intros [|y b]; try done. unfold cmp_str. simpl.
  destruct (Z.compare_spec (schar (lowerc x)) (schar (lowerc y))) as [E|L|G].
  - rewrite E, Z.ltb_irrefl. apply IH.
  - by apply Z.ltb_lt in L as ->.
  - rewrite (proj2 (Z.ltb_ge _ _)) by lia. by apply Z.ltb_lt in G as ->.
Qed.

Lemma ieq_cmp a b : ieq a b = true ↔ cmp_str a b = Eq.
Proof.
  revert b. induction a as [|x a IH]; intros [|y b]; try done. unfold cmp_str. simpl.
  rewrite andb_true_iff, char_eqb_true, IH. fold (cmp_str a b).
  destruct (Z.compare_spec (schar (lowerc x)) (schar (lowerc y))) as [E|L|G].
  - apply schar_inj in E. tauto.
  - split; [intros [E _]; rewrite E in L; lia|done].
  - split; [intros [E _]; rewrite E in G; lia|done].
Qed.

Lemma kind_index_inj k k' : kind_index k = kind_index k' → k = k'.
Proof. by destruct k, k'. Qed.

Definition item_cmp : CompletionItem → CompletionItem → comparison :=
  lex (λ x y, (it_score y ?= it_score x)%Z)
    (lex (λ x y, cmp_str (it_label x) (it_label y))
       (lex (λ x y, (kind_index (it_kind x) ?= kind_index (it_kind y))%Z)
          (λ x y, cmp_str (it_owner x) (it_owner y)))).

Lemma item_before_cmp x y : item_before x y = is_lt (item_cmp x y).
Proof.
  unfold item_before, item_cmp, lex. rewrite !iless_cmp.
  destruct (Z.compare_spec (it_score y) (it_score x)) as [E|L|G].
  - rewrite E, Z.eqb_refl. simpl. destruct (ieq (it_label x) (it_label y)) eqn:El; simpl.
    + apply ieq_cmp in El as ->. case_bool_decide as Ek; simpl.
      * by rewrite Ek, Z.compare_refl.
      * destruct (Z.compare_spec (kind_index (it_kind x)) (kind_index (it_kind y))) as [E'|L|G].
        -- by apply kind_index_inj in E'.
        -- by apply Z.ltb_lt in L as ->.
        -- by apply Z.ltb_ge; lia.
    + destruct (cmp_str _ _) eqn:Ec; [by apply ieq_cmp in Ec; congruence|done..].
  - rewrite (proj2 (Z.eqb_neq _ _)) by lia. by apply Z.ltb_lt in L as ->.
  - rewrite (proj2 (Z.eqb_neq _ _)) by lia. simpl. apply Z.ltb_ge. lia.
Qed.

#[export] Instance item_cmp_comparator : Comparator item_cmp.
Proof.
  unfold item_cmp. apply lex_comparator; [apply (on_key_comparator it_score (λ x y, y ?= x)%Z), _|].
  apply lex_comparator; [apply (on_key_comparator it_label), _|].
  apply lex_comparator; [apply (on_key_comparator (λ x, kind_index (it_kind x))), _|].
  apply (on_key_comparator it_owner), _.
Qed.

#[export] Instance item_before_order : StrictWeakOrder item_before.
Proof.
  pose proof (comparator_order item_cmp _) as [H1 H2].
  split; intros *; rewrite !item_before_cmp; [apply H1|apply H2].
Qed.

(** ** [take] *)

Lemma take_unseen_sublist seen l : take_unseen seen l `sublist_of` l.
Proof.
  revert seen. induction l as [|x l IH]; intros seen; simpl; [done|].
  case_decide; [by constructor|]. by constructor.
Qed.

Lemma take_unseen_keys seen l :
  NoDup (map item_key (take_unseen seen l)) ∧
  (∀ it, it ∈ take_unseen seen l → item_key it ∉ seen) ∧
  (∀ it, it ∈ l → item_key it ∈ seen ∨
     ∃ l1 it' l2, take_unseen seen l = l1 ++ it' :: l2 ∧ item_key it' = item_key it).
Proof.
  revert seen. induction l as [|x l IH]; intros seen; simpl.
  { split; [constructor|]. split; intros ? ?%not_elem_of_nil; done. }
  case_decide as Hx.
  - destruct (IH seen) as (H1 & H2 & H3). split; [done|]. split; [done|].
    intros it [->|Hin]%elem_of_cons; [by left|by apply H3].
  - destruct (IH ({[item_key x]} ∪ seen)) as (H1 & H2 & H3). simpl. split; [|split].
    + constructor; [|done]. intros (y & Ey & Hy)%list_elem_of_fmap.
      apply H2 in Hy. set_solver.
    + intros it [->|Hin]%elem_of_cons; [done|]. apply H2 in Hin. set_solver.
    + intros it [->|Hin]%elem_of_cons; [right; by exists [], x, (take_unseen ({[item_key x]} ∪ seen) l)|].
      destruct (H3 it Hin) as [[E%elem_of_singleton|?]%elem_of_union|(l1 & it' & l2 & E & ?)].
      * right. by exists [], x, (take_unseen ({[item_key x]} ∪ seen) l).
      * by left.
      * right. exists (x :: l1), it', l2. rewrite E. by split.
Qed.

Lemma StronglySorted_sublist {A} (R : A → A → Prop) l l' :
  l `sublist_of` l' → StronglySorted R l' → StronglySorted R l.
Proof.
  induction 1 as [|x l l' Hl IH|x l l' Hl IH]; intros Hs; [constructor|..];
    inversion Hs as [|? ? Hs' Hx]; subst; [|by apply IH].
  constructor; [by apply IH|]. eapply Forall_forall. intros y Hy.
  rewrite Forall_forall in Hx. apply Hx. by eapply elem_of_sublist.
Qed.

(** ** Matching *)

Definition lchars (s : string) : list ascii := map lowerc (list_ascii_of_string s).

Lemma ieq_lchars a b : ieq a b = true ↔ lchars a = lchars b.
Proof.
  revert b. induction a as [|x a IH]; intros [|y b]; try done.
  unfold lchars. simpl. rewrite andb_true_iff, char_eqb_true, IH. unfold lchars.
  split; [intros [-> ->]; done|by intros [= -> ->]].
Qed.

Lemma lchars_app a b : lchars (a +:+ b) = lchars a ++ lchars b.
Proof. induction a as [|x a IH]; [done|]. unfold lchars in *. simpl. by f_equal. Qed.

Lemma isSubsequence_spec s p : isSubsequence s p = true ↔ lchars p `sublist_of` lchars s.
Proof.
  revert p. induction s as [|x s IH]; intros [|y p]; simpl.
  - done.
  - split; [done|]. unfold lchars. simpl. intros H%sublist_nil_r. done.
  - split; [intros _; apply sublist_nil_l|done].
  - unfold lchars in *. simpl. rewrite sublist_cons_r.
    destruct (lowerc x =? lowerc y)%char eqn:E.
    + apply char_eqb_true in E. rewrite IH. split.
      * intros H. right. exists (map lowerc (list_ascii_of_string p)). by rewrite E.
      * intros [H|(k & [= _ <-] & H)]; [|done]. etrans; [|done]. by constructor.
    + apply char_eqb_false in E. rewrite (IH (String y p)). split; [by left|].
      intros [H|(k & [= E' _] & _)]; [done|by rewrite E' in E].
Qed.

Lemma istartsWith_spec s p :
  istartsWith s p = true ↔ strlen p <= strlen s ∧ lchars (stake (strlen p) s) = lchars p.
Proof.
  unfold istartsWith. rewrite andb_true_iff, Nat.leb_le, ieq_lchars. unfold substr.
  by rewrite sdrop_0.
Qed.

(** [prefix] occurs in [label] at [p], without regard to case *)
Definition occurs_at (label prefix : string) (p : nat) : Prop :=
  p <= strlen label ∧ istartsWith (sdrop p label) prefix = true.

Lemma starts_with_istartsWith p s : starts_with p s = true → istartsWith s p = true.
Proof.
  intros H. apply istartsWith_spec. split; [by apply starts_with_len|].
  apply starts_with_split in H. rewrite H at 1. by rewrite stake_app.
Qed.

Lemma occurs_at_subsequence label prefix p :
  occurs_at label prefix p → isSubsequence label prefix = true.
Proof.
  intros [_ [_ H]%istartsWith_spec]. apply isSubsequence_spec. rewrite <-H.
  assert (Hdrop : ∀ n x, lchars (sdrop n x) `sublist_of` lchars x ∧
                         lchars (stake n x) `sublist_of` lchars x).
  { intros n x. rewrite <-(stake_sdrop n x) at 2 4. rewrite lchars_app.
    split; [by apply sublist_inserts_l|by apply sublist_inserts_r]. }
  etrans; [apply Hdrop|apply Hdrop].
Qed.

Lemma ifind_Some label prefix k p :
  sempty prefix = false → k <= strlen label → ifind label prefix k = Some p →
  k <= p < strlen label ∧ occurs_at label prefix p ∧ ∀ q, k <= q < p → ¬ occurs_at label prefix q.
Proof.
  intros He Hk. unfold ifind. rewrite He. intros H.
  pose proof (index_from_bounds _ _ _ _ H) as [Hb Hp]. rewrite sdrop_sdrop in Hp.
  replace (k + (p - k)) with p in Hp by lia. rewrite slen_sdrop in Hb.
  assert (p < strlen label).
  { apply istartsWith_spec in Hp as [Hl _]. rewrite slen_sdrop in Hl. destruct prefix; [done|].
    simpl in Hl. lia. }
  split; [lia|]. split; [split; [lia|done]|]. intros q Hq [_ Hoc].
  pose proof (index_from_first _ _ _ _ q H ltac:(lia)) as Hf. rewrite sdrop_sdrop in Hf.
  replace (k + (q - k)) with q in Hf by lia. congruence.
Qed.

Lemma ifind_None label prefix k q :
  sempty prefix = false → ifind label prefix k = None → k <= q → ¬ occurs_at label prefix q.
Proof.
  intros He. unfold ifind. rewrite He. intros H Hq [Hl Hoc].
  pose proof (index_from_none _ _ _ (q - k) H ltac:(rewrite slen_sdrop; lia)) as Hf.
  rewrite sdrop_sdrop in Hf. replace (k + (q - k)) with q in Hf by lia. congruence.
Qed.

(** the search over the occurrences is exhaustive *)
Lemma boundary_match_spec fuel label prefix k :
  sempty prefix = false → k <= strlen label → strlen label - k < fuel →
  boundary_match fuel label prefix (ifind label prefix k) = true ↔
  ∃ p, k <= p ∧ occurs_at label prefix p ∧ word_boundary label p = true.
Proof.
  intros He. revert k. induction fuel as [|fuel IH]; intros k Hk Hf; [lia|].
  destruct (ifind label prefix k) as [p|] eqn:E; cbn [boundary_match].
  - apply ifind_Some in E as (Hp & Hoc & Hfirst); [|done..].
    destruct (word_boundary label p) eqn:Hw; [split; [intros _; exists p; auto with lia|done]|].
    rewrite IH by lia. split; intros (q & Hq & Hoq & Hwq); exists q; (split; [|done]); [lia|].
    destruct (decide (q < p)); [destruct (Hfirst q); [lia|done]|].
    destruct (decide (q = p)); [congruence|lia].
  - split; [done|]. intros (q & Hq & Hoq & _). by destruct (ifind_None _ _ _ _ He E Hq).
Qed.

Lemma found_Some {A} (o : option A) : (match o with Some _ => true | None => false end) = true →
  ∃ x, o = Some x.
Proof. destruct o; [by eauto|done]. Qed.

(** whatever the tier, the typed characters occur in the label in order *)
Lemma matchTier_subsequence label prefix fuzzy :
  (0 <= matchTier label prefix fuzzy)%Z → lchars prefix `sublist_of` lchars label.
Proof.
  unfold matchTier. destruct (sempty prefix) eqn:He.
  { destruct prefix; [|done]. intros _. apply sublist_nil_l. }
  assert (Hat : ∀ p, occurs_at label prefix p → lchars prefix `sublist_of` lchars label).
  { intros p Hp. apply isSubsequence_spec. by eapply occurs_at_subsequence. }
  assert (H0 : istartsWith label prefix = true → occurs_at label prefix 0).
  { intros H. split; [lia|]. by rewrite sdrop_0. }
  destruct (starts_with prefix label) eqn:E1; [intros _; by eapply Hat, H0, starts_with_istartsWith|].
  destruct (istartsWith label prefix) eqn:E2; [intros _; by eapply Hat, H0|].
  destruct (boundary_match _ _ _ _) eqn:E3.
  { apply boundary_match_spec in E3 as (p & _ & Hp & _); [by eauto|done|lia|lia]. }
  destruct (negb fuzzy); [done|].
  destruct (_ && found _) eqn:E4.
  { apply andb_true_iff in E4 as [_ [p Hp]%found_Some].
    apply ifind_Some in Hp; [naive_solver|done|lia]. }
  destruct (_ && isSubsequence _ _) eqn:E5; [|done].
  apply andb_true_iff in E5 as [_ H]. by apply isSubsequence_spec in H.
Qed.

(** the arithmetic and logic of one outcome of [matchTier] *)
Ltac tier_cases :=
  unfold kTierPrefix, kExactCaseBonus, kTierBoundary, kTierSubstring, kTierFuzzy in *;
  repeat lazymatch goal with
         | |- _ ∧ _ => split
         | |- _ ↔ _ => split
         | |- _ → _ => intros ?
         end;
  first [done | lia | exfalso; lia | congruence | by eauto | tauto | by left | right; by eauto].

(** what a match is worth.  An empty prefix matches everything.  Otherwise the tiers
    are: 4150 for the prefix as typed, 4000 for it in another case, 3000 when it occurs at the
    start of a word inside the label, and, in fuzzy mode from two characters on, 2000 when it
    occurs anywhere and 1000 when its characters occur in order; -1 is no match.  In
    particular the typed characters always occur in a matched label in order. *)
Lemma matchTier_spec (label prefix : string) (fuzzy : bool) :
  let t := matchTier label prefix fuzzy in
  let word_start := ∃ p, occurs_at label prefix p ∧ word_boundary label p = true in
  let occurs := ∃ p, occurs_at label prefix p in
  let in_order := lchars prefix `sublist_of` lchars label in
  (0 <= t → in_order)%Z ∧
  (prefix = "" → t = 4000%Z) ∧
  (prefix ≠ "" →
     (t = 4150%Z ↔ starts_with prefix label = true) ∧
     (4000 <= t ↔ occurs_at label prefix 0)%Z ∧
     (3000 <= t ↔ occurs_at label prefix 0 ∨ word_start)%Z ∧
     (fuzzy = false → 3000 <= t ∨ t = -1)%Z ∧
     (fuzzy = true → 2 <= strlen prefix →
        (2000 <= t ↔ occurs)%Z ∧ (1000 <= t ↔ in_order)%Z)).
Proof.
  cbn zeta. unfold matchTier. destruct (sempty prefix) eqn:He.
  { destruct prefix; [|done]. split; [intros _; apply sublist_nil_l|]. by split. }
  assert (Hne : prefix ≠ "") by (by intros ->).
  assert (H0 : occurs_at label prefix 0 ↔ istartsWith label prefix = true).
  { unfold occurs_at. rewrite sdrop_0. split; [tauto|]. intros; split; [lia|done]. }
  assert (Hsub : ∀ p, occurs_at label prefix p → lchars prefix `sublist_of` lchars label).
  { intros p Hp. apply isSubsequence_spec. by eapply occurs_at_subsequence. }
  pose proof (boundary_match_spec (S (strlen label)) label prefix 0 He ltac:(lia) ltac:(lia)) as Hbm.
  assert (Hany : found (ifind label prefix 0) = true ↔ ∃ p, occurs_at label prefix p).
  { destruct (ifind label prefix 0) as [p|] eqn:E; simpl.
    - apply ifind_Some in E; [|done|lia]. naive_solver.
    - split; [done|]. intros [p Hp]. by destruct (ifind_None _ _ _ p He E ltac:(lia)). }
  pose proof (isSubsequence_spec label prefix) as Hss.
  destruct (starts_with prefix label) eqn:Hsw.
  { apply starts_with_istartsWith in Hsw as Hi. apply H0 in Hi. by tier_cases. }
  destruct (istartsWith label prefix) eqn:Hi.
  { assert (Ho : occurs_at label prefix 0) by by apply H0. by tier_cases. }
  assert (Hn0 : ¬ occurs_at label prefix 0) by (rewrite H0; done).
  destruct (boundary_match _ _ _ _) eqn:Hb.
  { destruct Hbm as [(p & _ & Ho & Hw) _]; [done|]. by tier_cases. }
  assert (Hnw : ¬ ∃ p, occurs_at label prefix p ∧ word_boundary label p = true).
  { intros (p & Ho & Hw). destruct Hbm as [_ Hbm]. discriminate Hbm. exists p. auto with lia. }
  destruct fuzzy; cbn [negb]; [|by tier_cases].
  destruct (Nat.leb_spec 2 (strlen prefix)) as [Hl|Hl]; cbn [andb]; [|by tier_cases].
  destruct (found _) eqn:Hf.
  { destruct Hany as [(p & Ho) _]; [done|]. by tier_cases. }
  assert (Hno : ¬ ∃ p, occurs_at label prefix p) by (intros H; apply Hany in H; done).
  destruct (isSubsequence label prefix) eqn:Hs.
  - destruct Hss as [Hss _]. specialize (Hss eq_refl). by tier_cases.
  - assert (¬ lchars prefix `sublist_of` lchars label) by (intros H; by apply Hss in H).
    by tier_cases.
Qed.

(** the copy kept of a key is the first one *)
Lemma take_unseen_first (R : CompletionItem → CompletionItem → Prop) seen l :
  (∀ x, R x x) → StronglySorted R l →
  ∀ it, it ∈ l → item_key it ∉ seen →
    ∃ it', it' ∈ take_unseen seen l ∧ item_key it' = item_key it ∧ R it' it.
Proof.
  intros Hrefl Hs. revert seen. induction Hs as [|x l Hs IH Hx]; intros seen it Hin Hk;
    [by apply not_elem_of_nil in Hin|]. simpl. rewrite Forall_forall in Hx.
  case_decide as Hxs.
  - apply elem_of_cons in Hin as [->|Hin]; [done|]. by apply IH.
  - apply elem_of_cons in Hin as [->|Hin]; [exists x; repeat split; [left|done]|].
    destruct (decide (item_key it = item_key x)) as [E|Hne].
    + exists x. repeat split; [left|done|by apply Hx].
    + destruct (IH ({[item_key x]} ∪ seen) it Hin) as (it' & ? & ? & ?); [set_solver|].
      exists it'. repeat split; [by right|done..].
Qed.

Lemma not_after_refl x : not_after item_before x x.
Proof.
  unfold not_after. destruct (item_before x x) eqn:E; [|done].
  by rewrite (swo_asym item_before _ _ E) in E.
Qed.

(** [take] turns the emitted items into the list shown: ordered by score, then label,
    kind and owner; no two with the same kind, label, inserted text and owner; nothing
    invented; and for each item emitted one of its key is kept that does not come after it. *)
Lemma take_correct (em : Emitter) :
  let shown := em_take em in
  StronglySorted (not_after item_before) shown ∧ NoDup (map item_key shown) ∧
  (∀ it, it ∈ shown → it ∈ em_items em) ∧
  (∀ it, it ∈ em_items em → ∃ it', it' ∈ shown ∧ item_key it' = item_key it ∧
     not_after item_before it' it).
Proof.
  unfold em_take. pose proof (stable_sort_sorted item_before (em_items em)) as Hs.
  split; [eapply StronglySorted_sublist, Hs; apply take_unseen_sublist|].
  split; [apply take_unseen_keys|]. split.
  - intros it Hin. rewrite <-(elem_of_stable_sort item_before).
    by eapply elem_of_sublist, take_unseen_sublist.
  - intros it Hin. apply (take_unseen_first _ ∅ _ not_after_refl Hs); [|set_solver].
    by rewrite elem_of_stable_sort.
Qed.

(** ** What is emitted *)

(** what [add] checks of every item *)
Record item_ok (em : Emitter) (it : CompletionItem) : Prop := {
  ok_match : lchars (em_prefix em) `sublist_of` lchars (it_label it);
  ok_quoted : em_quoted em = true → it_kind it ≠ KKeyword ∧ it_kind it ≠ KFunction;
  ok_typed : em_prefix em ≠ "" → em_quoted em = false → ieq (it_label it) (em_prefix em) = false
}.

(** [em'] is [em] with more items, each of them one [add] accepts and with the property [P] *)
Record adds (P : CompletionItem → Prop) (em em' : Emitter) : Prop := {
  adds_prefix : em_prefix em' = em_prefix em;
  adds_quoted : em_quoted em' = em_quoted em;
  adds_type : em_type em' = em_type em;
  adds_items : ∃ l, em_items em' = em_items em ++ l ∧ Forall (λ it, item_ok em it ∧ P it) l
}.

Create HintDb emit discriminated.

Section emitted.
Context (P : CompletionItem → Prop).

#[local] Notation adds := (adds P).

Lemma adds_refl em : adds em em.
Proof. split; [done..|]. exists []. by rewrite app_nil_r. Qed.

Lemma adds_trans em em' em'' : adds em em' → adds em' em'' → adds em em''.
Proof.
  intros [p q t (l & E & Hl)] [p' q' t' (l' & E' & Hl')]. split; [congruence..|].
  exists (l ++ l'). rewrite E', E, app_assoc. split; [done|].
  apply Forall_app. split; [done|]. eapply Forall_impl; [exact Hl'|].
  intros it [[A B C] ?]. split; [|done]. rewrite p, q in *. by split.
Qed.

Lemma adds_add em label kind detail owner insert bonus fuzzy :
  (∀ s, P (mkItem label kind detail owner insert s)) →
  adds em (em_add em label kind detail owner insert bonus fuzzy).
Proof.
  intros HP. unfold em_add. destruct (_ && _) eqn:Hq; [apply adds_refl|].
  destruct (_ <? 0)%Z eqn:Ht; [apply adds_refl|]. apply Z.ltb_ge in Ht.
  destruct (_ && _) eqn:Hi in |- *; [apply adds_refl|].
  split; [done..|]. simpl. eexists. split; [done|]. constructor; [|done]. split; [|apply HP].
  split; simpl.
  - by eapply matchTier_subsequence.
  - intros Hq'. rewrite Hq' in Hq. by destruct kind.
  - intros Hp Hq'. rewrite Hq' in Hi. destruct (em_prefix em); [done|].
    by destruct (ieq _ _).
Qed.

Lemma adds_foldl {A} (f : Emitter → A → Emitter) l em :
  (∀ em x, x ∈ l → adds em (f em x)) → adds em (foldl f em l).
Proof.
  revert em. induction l as [|x l IH]; intros em Hf; simpl; [apply adds_refl|].
  eapply adds_trans; [apply Hf; left|]. apply IH. intros. apply Hf. by right.
Qed.

Lemma adds_foldl_fst {A S} (f : Emitter * S → A → Emitter * S) l em s :
  (∀ em s x, x ∈ l → adds em (fst (f (em, s) x))) → adds em (fst (foldl f (em, s) l)).
Proof.
  revert em s. induction l as [|x l IH]; intros em s Hf; simpl; [apply adds_refl|].
  pose proof (Hf em s x ltac:(left)) as H1. destruct (f (em, s) x) as [em' s'].
  eapply adds_trans; [exact H1|]. apply IH. intros. apply Hf. by right.
Qed.
End emitted.

#[export] Hint Resolve adds_refl adds_add adds_foldl adds_foldl_fst : emit.

(** ** Relative schema paths *)

Definition nodots (s : string) : Prop := sall (λ c, negb (c =? ".")%char) s = true.

Fixpoint strip_empty (l : list string) : list string :=
  match l with
  | "" :: r => strip_empty r
  | _ => l
  end.

Lemma strip_empty_suffix l : strip_empty l `suffix_of` l.
Proof. induction l as [|[|c x] l IH]; simpl; [done|by apply suffix_cons_r|done]. Qed.

Definition dotted_tail (l : list string) : string := sconcat (map (λ x, "." +:+ x) l).

Lemma dotted_tail_cons x l : dotted_tail (x :: l) = String "." (x +:+ dotted_tail l).
Proof. unfold dotted_tail. simpl. by rewrite sapp_cons, sapp_nil_l. Qed.

Lemma dot_join_nonempty out l :
  sempty out = false →
  foldl (λ out x, (if sempty out then out else out +:+ ".") +:+ x) out l = out +:+ dotted_tail l.
Proof.
  revert out. induction l as [|x l IH]; intros out Ho; unfold dotted_tail; simpl; [by rewrite sapp_nil_r|].
  rewrite Ho, IH by (by destruct out). by rewrite !sapp_assoc.
Qed.

Lemma dot_join_strip l :
  dot_join l = match strip_empty l with [] => "" | x :: r => x +:+ dotted_tail r end.
Proof.
  unfold dot_join. induction l as [|[|c x] l IH]; simpl; [done|apply IH|].
  by rewrite dot_join_nonempty.
Qed.

Lemma split_dots_nodots s cur : nodots s → split_dots s cur = [cur +:+ s].
Proof.
  revert cur. induction s as [|c s IH]; intros cur; simpl; [by rewrite sapp_nil_r|].
  unfold nodots. simpl. intros [Hc Hs]%andb_true_iff. apply negb_true_iff in Hc as ->.
  rewrite IH by done. by rewrite sapp_assoc.
Qed.

Lemma split_dots_app s r cur :
  nodots s → split_dots (s +:+ String "." r) cur = (cur +:+ s) :: split_dots r "".
Proof.
  revert cur. induction s as [|c s IH]; intros cur; simpl; [by rewrite sapp_nil_r|].
  unfold nodots. simpl. intros [Hc Hs]%andb_true_iff. apply negb_true_iff in Hc as ->.
  rewrite IH by done. by rewrite sapp_assoc.
Qed.

Lemma split_dots_join x l :
  Forall nodots (x :: l) → split_dots (x +:+ dotted_tail l) "" = x :: l.
Proof.
  revert x. induction l as [|y l IH]; intros x Hl; apply Forall_cons_1 in Hl as [Hx Hl].
  - unfold dotted_tail. simpl. rewrite sapp_nil_r. by apply split_dots_nodots.
  - rewrite dotted_tail_cons, split_dots_app by done. simpl. f_equal. by apply IH.
Qed.

Lemma splitPath_dot_join l : Forall nodots l → splitPath (dot_join l) = strip_empty l.
Proof.
  intros Hl. rewrite dot_join_strip.
  assert (Hs : Forall nodots (strip_empty l)).
  { destruct (strip_empty_suffix l) as [k E]. apply (Forall_app nodots k). by rewrite <-E. }
  destruct (strip_empty l) as [|x r] eqn:E; [done|].
  assert (sempty x = false).
  { clear -E. induction l as [|[|c y] l IH]; simpl in E; [done|by apply IH|by simplify_eq]. }
  unfold splitPath. rewrite split_dots_join by done. by destruct x.
Qed.

Lemma nodots_app a b : nodots a → nodots b → nodots (a +:+ b).
Proof. unfold nodots. rewrite sall_app. by intros -> ->. Qed.

Lemma split_dots_all s cur : nodots cur → Forall nodots (split_dots s cur).
Proof.
  revert cur. induction s as [|c s IH]; intros cur Hc; simpl; [by constructor|].
  destruct (c =? ".")%char eqn:E; [constructor; [done|by apply IH]|].
  apply IH, nodots_app; [done|]. unfold nodots. simpl. by rewrite E.
Qed.

Lemma splitPath_nodots s : Forall nodots (splitPath s).
Proof. unfold splitPath. destruct (sempty s); [constructor|by apply split_dots_all]. Qed.

Lemma drop_common_suffix segs d : drop_common segs d `suffix_of` segs.
Proof.
  revert d. induction segs as [|s [|s' segs] IH]; intros [|e d]; simpl; try done.
  destruct (ieq s e); [|done]. apply suffix_cons_r, IH.
Qed.

Lemma relativeSchema_suffix schema def :
  splitPath (relativeSchema schema def) `suffix_of` splitPath schema.
Proof.
  unfold relativeSchema.
  pose proof (drop_common_suffix (splitPath schema) (splitPath def)) as [k E].
  pose proof (splitPath_nodots schema) as Hn. rewrite E in Hn. apply Forall_app in Hn as [_ Hn].
  rewrite splitPath_dot_join by done. etrans; [apply strip_empty_suffix|]. by exists k.
Qed.

Lemma ieq_refl s : ieq s s = true.
Proof. by apply ieq_lchars. Qed.

Lemma ieq_all_refl l : ieq_all l l = true.
Proof. induction l as [|x l IH]; simpl; [done|]. by rewrite ieq_refl. Qed.

Lemma qualifierMatches_suffix schema q : q `suffix_of` splitPath schema →
  qualifierMatches schema q = true.
Proof.
  intros [k E]. unfold qualifierMatches. destruct q as [|x q]; [done|].
  rewrite E, decide_False by (rewrite length_app; lia).
  rewrite length_app, Nat.add_sub, drop_app_length. apply ieq_all_refl.
Qed.

Lemma drop_common_last segs d : last (drop_common segs d) = last segs.
Proof.
  revert d. induction segs as [|s [|s' segs] IH]; intros [|e d]; try done.
  change (drop_common (s :: s' :: segs) (e :: d)) with
    (if ieq s e then drop_common (s' :: segs) d else s :: s' :: segs).
  destruct (ieq s e); [|done]. by rewrite IH.
Qed.

Lemma strip_empty_nonempty l x : last l = Some x → x ≠ "" → strip_empty l ≠ [].
Proof.
  induction l as [|[|c y] l IH]; intros Hl Hx; [done| |done]. simpl. destruct l as [|z l]; [|by apply IH].
  simpl in Hl. congruence.
Qed.

(** the qualifier put before a relation outside the default schema leads back to it:
    the relative path is a suffix of the schema's path, so the relation's schema matches it
    when the statement is read again; and it is not empty unless the path's last segment is. *)
Lemma relativeSchema_resolves (schema def : string) :
  let q := splitPath (relativeSchema schema def) in
  q `suffix_of` splitPath schema ∧ qualifierMatches schema q = true ∧
  (∀ x, last (splitPath schema) = Some x → x ≠ "" → q ≠ []).
Proof.
  cbn zeta. pose proof (relativeSchema_suffix schema def) as Hs. split; [done|].
  split; [by apply qualifierMatches_suffix|]. intros x Hl Hx. unfold relativeSchema.
  pose proof (drop_common_suffix (splitPath schema) (splitPath def)) as [k E].
  pose proof (splitPath_nodots schema) as Hn. rewrite E in Hn. apply Forall_app in Hn as [_ Hn].
  rewrite splitPath_dot_join by done. apply (strip_empty_nonempty _ x); [|done].
  by rewrite drop_common_last.
Qed.

(** ** What is offered *)

Lemma lchars_lower s : lchars (lower s) = lchars s.
Proof.
  assert (∀ c, (lowerc (lowerc c) =? lowerc c)%char = true) as H by (intros c; by_bytes c).
  induction s as [|c s IH]; [done|]. unfold lchars, lower in *. simpl. f_equal; [|done].
  by apply char_eqb_true.
Qed.

Lemma em_keyword_letters em kw : lchars (em_keyword em kw) = lchars kw.
Proof.
  unfold em_keyword. generalize false. induction (em_prefix em) as [|c r IH]; intros b; simpl.
  - destruct b; [apply lchars_lower|done].
  - by destruct (isupper c).
Qed.

(** the schemas a catalog knows, from its list or from its objects *)
Definition known_schema (catalog : CompletionCatalog) (s : string) : Prop :=
  s ≠ "" ∧
  (s ∈ cat_schemas catalog ∨ (∃ t, t ∈ cat_tables catalog ++ cat_views catalog ∧ tbl_schema t = s) ∨
   ∃ o, o ∈ cat_sequences catalog ∧ obj_schema o = s).

Lemma allSchemas_known catalog s : s ∈ allSchemas catalog → known_schema catalog s.
Proof.
  unfold allSchemas. set (l := filter _ _). intros Hs.
  assert (Hl : s ∈ l).
  { apply (elem_of_stable_sort iless). eapply elem_of_sublist; [exact Hs|]. apply unique_sublist. }
  apply list_elem_of_filter in Hl as [Hne Hin]. split; [by intros ->|].
  rewrite !elem_of_app, !list_elem_of_fmap in Hin. setoid_rewrite elem_of_app.
  destruct Hin as [?|[(t & -> & ?)|[(t & -> & ?)|(o & -> & ?)]]]; eauto 8.
Qed.

Section offers.
Context (a : Analyzer) (type : DatabaseType) (catalog : CompletionCatalog) (g : Z) (ctx : Context).

(** a column of a relation in scope, under its name; in a column list, of the target *)
Definition column_offered (it : CompletionItem) : Prop :=
  match ctx_kind ctx with
  | CtxColumn =>
      ∃ r, r ∈ an_refs a ∧ scope_of a (ref_group r) g ∧ it_owner it = ref_name r ∧
        column_of a r (it_label it)
  | CtxTargetColumns =>
      it_owner it = default "" (last (ctx_target ctx)) ∧
      ((∃ c, names_cte a (ctx_target ctx) c ∧ cte_column a c (it_label it)) ∨
       ∃ t, names_table a (ctx_target ctx) t ∧ it_label it ∈ map col_name (tbl_columns t))
  | _ => False
  end.

(** where each kind of item comes from, where no qualifier was typed *)
Definition offered (it : CompletionItem) : Prop :=
  match it_kind it with
  | KKeyword => it_label it ∈ sqlKeywords type ∧ lchars (it_insertText it) = lchars (it_label it)
  | KFunction =>
      (it_label it ∈ sqlFunctions type ∧ lchars (it_insertText it) = lchars (it_label it)) ∨
      ∃ r, r ∈ cat_routines catalog ∧ rt_kind r = RoutineFunction ∧ it_label it = rt_name r
  | KTable =>
      (∃ t, t ∈ cat_tables catalog ∧ it_label it = tbl_name t ∧ it_owner it = tbl_schema t) ∨
      ∃ c, c ∈ an_ctes a ∧ it_label it = cte_name c
  | KView => ∃ t, t ∈ cat_views catalog ∧ it_label it = tbl_name t ∧ it_owner it = tbl_schema t
  | KSequence =>
      ∃ s, s ∈ cat_sequences catalog ∧ it_label it = obj_name s ∧ it_owner it = obj_schema s
  | KSchema => ∃ s, known_schema catalog s ∧ it_label it ∈ splitPath s
  | KAlias =>
      ctx_kind ctx = CtxColumn ∧
      ∃ r, r ∈ an_refs a ∧ scope_of a (ref_group r) g ∧ it_label it = ref_name r
  | KColumn => column_offered it
  end.

(** the names of the columns that a qualifier leads to: those of the nearest relation in scope of
    this name; without one, of the CTE; without one, of the table or view of the catalog *)
Definition qualified_column (q : list string) (n : string) : Prop :=
  let referred r := ∃ x, q = [x] ∧ in_scope a x g r in
  (∃ r, referred r ∧ (∀ r', referred r' → scope_of a (ref_group r') (ref_group r)) ∧ column_of a r n) ∨
  (∀ r, ¬ referred r) ∧
    ((∃ c, names_cte a q c ∧ cte_column a c n) ∨
     (∀ c, ¬ names_cte a q c) ∧ ∃ t, names_table a q t ∧ n ∈ map col_name (tbl_columns t)).

(** an item offered behind a qualifier *)
Definition member (q : list string) (it : CompletionItem) : Prop :=
  match it_kind it with
  | KColumn =>
      ctx_kind ctx ≠ CtxRelation ∧ ctx_kind ctx ≠ CtxAfterRelation ∧
      it_owner it = default "" (last q) ∧ qualified_column q (it_label it)
  | KTable =>
      in_schema (it_owner it) q ∧
      ∃ t, t ∈ cat_tables catalog ∧ it_label it = tbl_name t ∧ it_owner it = tbl_schema t
  | KView =>
      in_schema (it_owner it) q ∧
      ∃ t, t ∈ cat_views catalog ∧ it_label it = tbl_name t ∧ it_owner it = tbl_schema t
  | KSequence =>
      ctx_kind ctx ≠ CtxRelation ∧ in_schema (it_owner it) q ∧
      ∃ s, s ∈ cat_sequences catalog ∧ it_label it = obj_name s ∧ it_owner it = obj_schema s
  | KSchema =>
      known_schema catalog (it_owner it) ∧
      ∃ above below, splitPath (it_owner it) = above ++ it_label it :: below ∧ same_names above q
  | KKeyword | KFunction | KAlias => False
  end.

Context (Hb : built a) (Hg : (0 <= g < ngroups a)%Z).

#[local] Notation adds := (adds offered).

Lemma addKeywords_adds em boosted base boost : adds em (addKeywords em type boosted base boost).
Proof.
  apply adds_foldl. intros em' kw Hkw. apply adds_add. intros s. simpl.
  split; [done|apply em_keyword_letters].
Qed.

Lemma addFunctions_adds em base : adds em (addFunctions em type catalog base).
Proof.
  eapply adds_trans; apply adds_foldl.
  - intros em' fn Hfn. apply adds_add. intros s. left. split; [done|apply em_keyword_letters].
  - intros em' r Hr. unfold addRoutine. destruct (rt_kind r) eqn:Hk; [|apply adds_refl].
    apply adds_add. intros s. right. eauto.
Qed.

Lemma addRelation_adds em kind bonus t :
  (kind = KTable ∧ t ∈ cat_tables catalog ∨ kind = KView ∧ t ∈ cat_views catalog) →
  adds em (addRelation catalog kind bonus em t).
Proof.
  intros H. apply adds_add. intros s. unfold offered. simpl.
  destruct H as [[-> ?]|[-> ?]]; eauto 6.
Qed.

Lemma addRelations_adds em b1 b2 : adds em (addRelations em catalog b1 b2).
Proof. eapply adds_trans; apply adds_foldl; intros em' t Ht; apply addRelation_adds; auto. Qed.

Lemma addSchemas_adds em b : adds em (addSchemas em catalog b).
Proof.
  clear Hb Hg.
  apply adds_foldl_fst. intros em' seen s Hs. unfold addSchema_step.
  pose proof (relativeSchema_suffix s (cat_defaultSchema catalog)) as [k E].
  destruct (splitPath (relativeSchema _ _)) as [|seg r]; [apply adds_refl|].
  case_decide; [apply adds_refl|]. apply adds_add. intros ?.
  exists s. split; [by apply allSchemas_known|]. simpl. rewrite E. set_solver.
Qed.

Lemma addColumns_adds P em cols owner b :
  (∀ it, it_kind it = KColumn → it_owner it = owner → it_label it ∈ map inf_name cols → P it) →
  CompletionProps.adds P em (addColumns em cols owner b).
Proof.
  intros HP. apply adds_foldl. intros em' c Hc. apply adds_add. intros s. apply HP; [done..|].
  apply list_elem_of_fmap. by exists c.
Qed.

Lemma add_if_in_adds P em q kind detail b l :
  (∀ it s n, (s, n) ∈ l → in_schema s q →
     it_kind it = kind → it_label it = n → it_owner it = s → P it) →
  CompletionProps.adds P em (foldl (add_if_in q kind detail b) em l).
Proof.
  intros HP. apply adds_foldl. intros em' [s n] Hin. unfold add_if_in.
  destruct (qualifierMatches s q) eqn:E; [|apply adds_refl]. apply qualifierMatches_spec in E.
  apply adds_add. intros sc. by eapply HP.
Qed.

Lemma adds_if P (w : bool) em em' :
  (w = true → CompletionProps.adds P em em') → CompletionProps.adds P em (if w then em' else em).
Proof. destruct w; [auto|]. intros _. apply adds_refl. Qed.

Lemma adds_no_refs P (refs : list RelationRef) em em' :
  CompletionProps.adds P em em' →
  CompletionProps.adds P em (match refs with [] => em' | _ :: _ => em end).
Proof. destruct refs; [done|]. intros _. apply adds_refl. Qed.

(** the members of one list of the catalog *)
#[local] Ltac members_of :=
  intros it s n Hin Hq Hk Hl Ho;
  apply list_elem_of_fmap in Hin as (t & E & Ht); simplify_eq/=; unfold member;
  rewrite Hk; eauto 8.

Lemma addSchemaMembers_adds em q b w :
  (w = true → ctx_kind ctx ≠ CtxRelation) →
  CompletionProps.adds (member q) em (addSchemaMembers em catalog q b w).
Proof.
  intros Hw. unfold addSchemaMembers.
  eapply adds_trans; [|apply adds_foldl_fst; intros em' seen s Hs; unfold addMemberSchema_step].
  - eapply adds_trans; [|apply adds_if; intros ?%Hw; apply add_if_in_adds; by members_of].
    eapply adds_trans; apply add_if_in_adds; by members_of.
  - destruct (splitPath s !! length q) as [next|] eqn:E; [|apply adds_refl].
    destruct (ieq_all _ _) eqn:Em; [|apply adds_refl]. case_decide; [apply adds_refl|].
    apply adds_add. intros sc. split; [by apply allSchemas_known|]. simpl.
    apply ieq_all_spec in Em as (start & rest & Es & Hn). pose proof (Forall2_length _ _ _ Hn) as Hl.
    rewrite Es, lookup_app_r, Hl, Nat.sub_diag in E by lia.
    destruct rest as [|x rest]; [done|]. injection E as ->. by exists start, rest.
Qed.

Lemma columns_of_names {A} (f : A → string) (P : string → Prop) cols n :
  (∀ c, c ∈ cols → P (f c)) → n ∈ map f cols → P n.
Proof. intros HP (c & -> & Hc)%list_elem_of_fmap. by apply HP. Qed.

Lemma refColumns_labels r n : n ∈ map inf_name (refColumns a r 0) → column_of a r n.
Proof. apply columns_of_names. intros c. by apply refColumns_names. Qed.
Lemma cteColumns_labels c n : n ∈ map inf_name (cteColumns a c 0) → cte_column a c n.
Proof. apply columns_of_names. intros info. by apply cteColumns_names. Qed.
Lemma findRelation_labels path n :
  n ∈ map inf_name (match rel_table (findRelation a path) with Some t => tableColumns t | None => [] end) →
  ∃ t, names_table a path t ∧ n ∈ map col_name (tbl_columns t).
Proof.
  destruct (rel_table _) as [t|] eqn:E; [|by intros ?%elem_of_nil]. intros Hn.
  exists t. split; [by apply findRelation_names|]. revert Hn.
  apply (columns_of_names inf_name (λ n, n ∈ map col_name (tbl_columns t))).
  intros c. apply tableColumns_names.
Qed.

Lemma complete_members_adds em q :
  CompletionProps.adds (member q) em (complete_members a catalog em q g ctx).
Proof.
  unfold complete_members. eapply adds_trans;
    [|apply addSchemaMembers_adds; by intros ?%negb_true_iff%bool_decide_eq_false].
  apply adds_if. intros [Hr%negb_true_iff%bool_decide_eq_false
                         Hr'%negb_true_iff%bool_decide_eq_false]%andb_true_iff.
  apply addColumns_adds. intros it Hk Ho Hl. unfold member. rewrite Hk. split_and!; [done..|].
  assert (Hother : (∀ r, ¬ ∃ x, q = [x] ∧ in_scope a x g r) → (∀ c, ¬ names_cte a q c) →
    it_label it ∈ map inf_name (match rel_table (findRelation a q) with Some t => tableColumns t | None => [] end) →
    qualified_column q (it_label it)).
  { intros Hno Hc Hin. right. split; [done|]. right. split; [done|]. by apply findRelation_labels. }
  revert Hl. destruct q as [|x [|y q]].
  - apply Hother; [by intros r (x & ? & _)|by intros c (x & ? & _)].
  - pose proof (findRef_spec a Hb x g Hg) as Hf. destruct (findRef a x g) as [r|].
    { destruct Hf as [Hr0 Hn]. intros Hl. left. exists r. split; [by exists x|].
      split; [|by apply refColumns_labels]. intros r' (x' & [= <-] & Hr1). by apply Hn. }
    assert (Hno : ∀ r, ¬ ∃ x', [x] = [x'] ∧ in_scope a x' g r) by (intros r (x' & [= <-] & H); by eapply Hf).
    destruct (findCte a x) as [c|] eqn:Ec; [|apply Hother; [done|by apply findCte_none]].
    intros Hl. right. split; [done|]. left. exists c. split; [by apply findCte_names|].
    by apply cteColumns_labels.
  - apply Hother; [by intros r (x' & ? & _)|by intros c (x' & ? & _)].
Qed.

Lemma path_cte_labels path n :
  n ∈ map inf_name (match path_cte a path with Some c => cteColumns a c 0 | None => [] end) →
  ∃ c, names_cte a path c ∧ cte_column a c n.
Proof.
  pose proof (path_cte_names a path) as H. unfold path_cte. destruct (match path with [p] => _ | _ => _ end) as [c|];
    [|by intros ?%elem_of_nil]. intros Hn. exists c. split; [done|]. by apply cteColumns_labels.
Qed.

Lemma complete_target_adds em :
  ctx_kind ctx = CtxTargetColumns → adds em (complete_target a em (ctx_target ctx)).
Proof.
  intros Hc. unfold complete_target. cbv zeta. pose proof (path_cte_labels (ctx_target ctx)) as Hcte.
  apply addColumns_adds. intros it Hk Ho Hl. unfold offered, column_offered. rewrite Hk, Hc.
  split; [done|]. destruct (match path_cte a _ with Some _ => _ | None => _ end) as [|c cols].
  - right. by apply findRelation_labels.
  - left. by apply Hcte.
Qed.

Lemma visibleRefs_scope r : r ∈ visibleRefs a g → r ∈ an_refs a ∧ scope_of a (ref_group r) g.
Proof.
  unfold visibleRefs. rewrite elem_of_stable_sort, list_elem_of_filter.
  intros [Hs ?]. split; [done|]. by apply (isAncestorOrSelf_spec a Hb).
Qed.

Lemma complete_refs_adds em :
  ctx_kind ctx = CtxColumn →
  adds em (fst (foldl (complete_ref_step a) (em, ∅) (visibleRefs a g))).
Proof.
  intros Hc. apply adds_foldl_fst. intros em' named r [Hin Hs]%visibleRefs_scope.
  unfold complete_ref_step. case_decide; [apply adds_refl|]. eapply adds_trans.
  - apply addColumns_adds. intros it Hk Ho Hl%refColumns_labels.
    unfold offered, column_offered. rewrite Hk, Hc. by exists r.
  - apply adds_add. intros s. split; [done|]. by exists r.
Qed.

Lemma complete_context_adds em : adds em (complete_context a type catalog g ctx em).
Proof.
  unfold complete_context. destruct (ctx_kind ctx) eqn:Hc.
  - apply adds_refl.
  - apply addKeywords_adds.
  - apply addKeywords_adds.
  - unfold complete_relation. eapply adds_trans; [|apply adds_if; intros _; apply adds_foldl].
    + eapply adds_trans; [|apply addSchemas_adds]. eapply adds_trans; [|apply addRelations_adds].
      apply adds_foldl. intros em' c Hin. apply adds_add. intros s. right. eauto.
    + intros em' kw Hkw. apply adds_if. intros _. apply adds_add. intros s.
      split; [done|apply em_keyword_letters].
  - apply addKeywords_adds.
  - unfold complete_column. eapply adds_trans; [|apply adds_if; intros _; apply adds_foldl].
    + eapply adds_trans; [|apply adds_no_refs, addRelations_adds].
      eapply adds_trans; [|apply addKeywords_adds]. eapply adds_trans; [|apply addFunctions_adds].
      by apply complete_refs_adds.
    + intros em' s Hs. apply adds_add. intros sc. exists s. by split.
  - by apply complete_target_adds.
Qed.
End offers.

(** ** [complete] *)

Lemma typed_at_spec sql cursor toks i :
  let ty := typed_at sql cursor toks i in
  (ty_start ty = cursor ∧ ty_end ty = cursor ∧ ty_prefix ty = "" ∧ ty_quoted ty = false) ∨
  ∃ t, t ∈ toks ∧ ty_start ty = tk_begin t ∧ ty_end ty = tk_end t ∧ tk_begin t < cursor ∧
    (tk_kind t = TWord ∧ cursor <= tk_end t ∧ ty_quoted ty = false ∧
       ty_prefix ty = substr sql (tk_begin t) (cursor - tk_begin t) ∨
     tk_kind t = TQuotedIdent ∧ (cursor < tk_end t ∨ tk_closed t = false) ∧ ty_quoted ty = true ∧
       ty_prefix ty = substr sql (tk_begin t + 1) (cursor - tk_begin t - 1)).
Proof.
  revert i. induction toks as [|t toks IH]; intros i; [by left|]. cbn [typed_at].
  destruct (Nat.leb_spec cursor (tk_begin t)); [by left|].
  destruct (bool_decide (tk_kind t = TWord) && _) eqn:E1.
  { apply andb_true_iff in E1 as [Hk%bool_decide_eq_true Hc%Nat.leb_le].
    right. exists t. simpl. repeat split; [left|lia|]. by left. }
  destruct (bool_decide (tk_kind t = TQuotedIdent) && _) eqn:E2.
  { apply andb_true_iff in E2 as [Hk%bool_decide_eq_true Hc%orb_true_iff].
    rewrite Nat.ltb_lt, negb_true_iff in Hc.
    right. exists t. simpl. repeat split; [left|lia|]. by right. }
  destruct (IH (S i)) as [?|(u & Hu & ?)]; [by left|right]. exists u. split; [by right|done].
Qed.

Lemma statement_toks_elem all span t : t ∈ statement_toks all span → t ∈ all ∧ tk_kind t ≠ TComment.
Proof.
  unfold statement_toks. intros [Hk Hin]%list_elem_of_filter. split; [|done].
  eapply elem_of_sublist; [exact Hin|]. etrans; [apply sublist_take|apply sublist_drop].
Qed.

(** the identifier being typed, as [complete] reads it *)
Definition typed_of (sql : string) (cursor : nat) (catalog : CompletionCatalog)
    (type : DatabaseType) : Typed :=
  let c := cursor `min` strlen sql in
  typed_at sql c (an_toks (analyzer sql c catalog type)) 0.

(** the qualifier before it *)
Definition qualifier_of (sql : string) (cursor : nat) (catalog : CompletionCatalog)
    (type : DatabaseType) : list string :=
  let a := analyzer sql (cursor `min` strlen sql) catalog type in
  fst (qualifierBefore a (Z.of_nat (ty_cur (typed_of sql cursor catalog type)))).

Definition silent_at (sql : string) (cursor : nat) (type : DatabaseType) : bool :=
  negb (isSqlDialect type) ||
  inside_literal (tokenize sql (dialectFor type)) (cursor `min` strlen sql).

Definition empty_emitter (ty : Typed) (type : DatabaseType) : Emitter :=
  mkEmitter (ty_prefix ty) (ty_quoted ty) type [].

(** the parentheses around the cursor, and the clause *)
Definition group_of (sql : string) (cursor : nat) (catalog : CompletionCatalog)
    (type : DatabaseType) : Z :=
  groupAt (analyzer sql (cursor `min` strlen sql) catalog type)
    (Z.of_nat (ty_cur (typed_of sql cursor catalog type))).
Definition clause_of (sql : string) (cursor : nat) (catalog : CompletionCatalog)
    (type : DatabaseType) : Context :=
  let a := analyzer sql (cursor `min` strlen sql) catalog type in
  detectContext a (snd (qualifierBefore a (Z.of_nat (ty_cur (typed_of sql cursor catalog type))))).

(** what may be offered at a cursor, behind the qualifier that was typed *)
Definition offered_at (sql : string) (cursor : nat) (catalog : CompletionCatalog)
    (type : DatabaseType) (it : CompletionItem) : Prop :=
  let a := analyzer sql (cursor `min` strlen sql) catalog type in
  let g := group_of sql cursor catalog type in
  let ctx := clause_of sql cursor catalog type in
  match qualifier_of sql cursor catalog type with
  | [] => offered a type catalog g ctx it
  | q => member a catalog g ctx q it
  end.

Lemma complete_cases sql cursor catalog type :
  let c := cursor `min` strlen sql in
  let ty := typed_of sql cursor catalog type in
  if silent_at sql cursor type then complete sql cursor catalog type = mkResult [] c c
  else ∃ em, complete sql cursor catalog type = mkResult (em_take em) (ty_start ty) (ty_end ty) ∧
    adds (offered_at sql cursor catalog type) (empty_emitter ty type) em.
Proof.
  cbn zeta. unfold complete, silent_at, offered_at, qualifier_of, group_of, clause_of, typed_of. cbv zeta.
  set (c := cursor `min` strlen sql). set (a := analyzer sql c catalog type).
  change (tokenize sql (dialectFor type)) with (an_all a).
  destruct (negb (isSqlDialect type)); cbn [orb]; [done|].
  destruct (inside_literal (an_all a) c); [done|].
  set (ty := typed_at sql c (an_toks a) 0).
  assert (Hb : built a) by apply analyzer_built.
  pose proof (groupAt_range a Hb (Z.of_nat (ty_cur ty))) as Hg.
  destruct (qualifierBefore a (Z.of_nat (ty_cur ty))) as [[|q0 q] chain]; eexists; (split; [done|]).
  - by apply complete_context_adds.
  - by apply complete_members_adds.
Qed.

Lemma typed_bounds sql cursor catalog type :
  let c := cursor `min` strlen sql in
  let ty := typed_of sql cursor catalog type in
  ty_start ty <= c <= ty_end ty ∧ ty_end ty <= strlen sql ∧
  (ty_start ty = ty_end ty ∨
   ∃ t, t ∈ tokenize sql (dialectFor type) ∧ (tk_kind t = TWord ∨ tk_kind t = TQuotedIdent) ∧
     tk_begin t = ty_start ty ∧ tk_end t = ty_end ty).
Proof.
  cbn zeta. unfold typed_of. cbv zeta. set (c := cursor `min` strlen sql).
  assert (Hc : c <= strlen sql) by lia.
  destruct (typed_at_spec sql c (an_toks (analyzer sql c catalog type)) 0)
    as [(-> & -> & _)|(t & Ht & -> & -> & Hb & Hk)]; [split; [lia|]; split; [lia|by left]|].
  apply statement_toks_elem in Ht as [Ht _]. simpl in Ht.
  pose proof (tokenize_cover sql (dialectFor type)) as Hcov.
  pose proof (tokens_cover_bounds _ _ _ _ Hcov Ht) as Hbd.
  assert (Hopen : tk_closed t = false → tk_end t = strlen sql).
  { clear -Hcov Ht. revert Hcov. generalize 0. induction (tokenize sql (dialectFor type)) as [|u l IH];
      intros pos; [by apply not_elem_of_nil in Ht|]. simpl. intros (_ & _ & _ & _ & _ & [_ Hu] & Hr).
    apply elem_of_cons in Ht as [->|Ht]; [done|]. by apply (IH Ht (tk_end u)). }
  assert (c <= tk_end t).
  { destruct Hk as [(_ & ? & _)|(_ & [?|Hcl] & _)]; [done|lia|]. rewrite (Hopen Hcl). done. }
  split; [lia|]. split; [lia|]. right. exists t. split; [done|]. split; [|done].
  destruct Hk as [[? _]|[? _]]; auto.
Qed.

(** C3: what completion replaces.  For every text and cursor, also one past the end, the
    replaced range lies in the text and contains the cursor; it is empty, or exactly one
    identifier token. *)
Theorem complete_range (sql : string) (cursor : nat) (catalog : CompletionCatalog)
    (type : DatabaseType) :
  let r := complete sql cursor catalog type in
  res_replaceStart r <= cursor `min` strlen sql <= res_replaceEnd r ∧
  res_replaceEnd r <= strlen sql ∧
  (res_replaceStart r = res_replaceEnd r ∨
   ∃ t, t ∈ tokenize sql (dialectFor type) ∧ (tk_kind t = TWord ∨ tk_kind t = TQuotedIdent) ∧
     tk_begin t = res_replaceStart r ∧ tk_end t = res_replaceEnd r).
Proof.
  cbn zeta. pose proof (complete_cases sql cursor catalog type) as H. cbn zeta in H.
  destruct (silent_at sql cursor type).
  - rewrite H. simpl. split; [lia|]. split; [lia|by left].
  - destruct H as (em & -> & _). simpl. apply typed_bounds.
Qed.


Lemma inside_literal_spec s pos ts t c :
  tokens_cover s pos ts → t ∈ ts → tk_begin t < c → in_literal t c = true →
  inside_literal ts c = true.
Proof.
  revert pos. induction ts as [|u ts IH]; intros pos Hcov Hin Hb Hl;
    [by apply not_elem_of_nil in Hin|].
  pose proof (tokens_cover_bounds _ _ _ u Hcov ltac:(left)) as Hu.
  destruct Hcov as (_ & _ & _ & _ & _ & _ & Hr). cbn [inside_literal].
  apply elem_of_cons in Hin as [->|Hin].
  - destruct (Nat.leb_spec c (tk_begin u)); [lia|]. by rewrite Hl.
  - pose proof (tokens_cover_bounds _ _ _ t Hr Hin).
    destruct (Nat.leb_spec c (tk_begin u)); [lia|]. destruct (in_literal u c); [done|].
    by apply (IH _ Hr Hin).
Qed.

(** when completion is silent.  For Redis and MongoDB, and when the cursor is inside a
    string or a block comment (or after one that is never closed), in or at the end of a line
    comment, a number or a parameter, nothing is offered and nothing would be replaced. *)
Lemma complete_silent (sql : string) (cursor : nat) (catalog : CompletionCatalog)
    (type : DatabaseType) :
  let c := cursor `min` strlen sql in
  let nothing := mkResult [] c c in
  (type = REDIS ∨ type = MONGODB → complete sql cursor catalog type = nothing) ∧
  (∀ t, t ∈ tokenize sql (dialectFor type) → tk_begin t < c →
     match tk_kind t with
     | TString => c < tk_end t ∨ tk_closed t = false
     | TComment => if tk_lineComment t then c <= tk_end t
                   else c < tk_end t ∨ tk_closed t = false
     | TNumber | TParam => c <= tk_end t
     | _ => False
     end → complete sql cursor catalog type = nothing).
Proof.
  cbn zeta. pose proof (complete_cases sql cursor catalog type) as H. cbn zeta in H.
  set (c := cursor `min` strlen sql) in *. split.
  - intros [-> | ->]; exact H.
  - intros t Ht Hb Hk. assert (silent_at sql cursor type = true) as Hs; [|by rewrite Hs in H].
    unfold silent_at. fold c. rewrite orb_true_iff. right.
    eapply inside_literal_spec; [apply tokenize_cover|exact Ht|done|].
    unfold in_literal. destruct (tk_kind t); try done;
      rewrite ?orb_true_iff, ?negb_true_iff, ?Nat.ltb_lt, ?Nat.leb_le; try done.
    destruct (tk_lineComment t); by rewrite ?orb_true_iff, ?negb_true_iff, ?Nat.ltb_lt, ?Nat.leb_le.
Qed.

(** *** Nothing is lost *)

(** [add] accepts [label] *)
Definition accepts (em : Emitter) (label : string) (kind : CompletionKind) (fuzzy : bool) : Prop :=
  (0 <= matchTier label (em_prefix em) fuzzy)%Z ∧
  (em_quoted em = true → kind ≠ KKeyword ∧ kind ≠ KFunction) ∧
  (em_prefix em = "" ∨ em_quoted em = true ∨ ieq label (em_prefix em) = false).

Lemma em_add_offers em label kind detail owner insert bonus fuzzy :
  accepts em label kind fuzzy →
  ∃ s, mkItem label kind detail owner insert s ∈
       em_items (em_add em label kind detail owner insert bonus fuzzy).
Proof.
  intros (Ht & Hq & Hi). unfold em_add. destruct (_ && _) eqn:E.
  { apply andb_true_iff in E as [E1 [E2%bool_decide_eq_true|E2%bool_decide_eq_true]%orb_true_iff];
      destruct (Hq E1); done. }
  destruct (Z.ltb_spec (matchTier label (em_prefix em) fuzzy) 0); [lia|].
  destruct (_ && _) eqn:E' in |- *.
  { rewrite !andb_true_iff, !negb_true_iff in E'. destruct E' as [[E1 E2] E3].
    destruct Hi as [Hi|[?|?]]; [by rewrite Hi in E1|congruence..]. }
  eexists. simpl. rewrite elem_of_app. right. by left.
Qed.

Lemma adds_mono P em em' it : adds P em em' → it ∈ em_items em → it ∈ em_items em'.
Proof. intros [_ _ _ (l & -> & _)] Hin. rewrite elem_of_app. by left. Qed.

(** a loop of additions emits the item of each of its elements *)
Lemma foldl_offers {A} P (f : Emitter → A → Emitter) (Q : CompletionItem → Prop) l em x :
  (∀ em y, y ∈ l → adds P em (f em y)) → x ∈ l →
  (∀ em', em_prefix em' = em_prefix em → em_quoted em' = em_quoted em →
     em_type em' = em_type em → ∃ it, Q it ∧ it ∈ em_items (f em' x)) →
  ∃ it, Q it ∧ it ∈ em_items (foldl f em l).
Proof.
  intros Hadd Hin Hx. revert em Hin Hx. induction l as [|y l IH]; intros em Hin Hx;
    [by apply not_elem_of_nil in Hin|]. apply elem_of_cons in Hin as [->|Hin]; simpl.
  - destruct (Hx em) as (it & HQ & Hit); [done..|]. exists it. split; [done|].
    eapply adds_mono; [|exact Hit]. apply (adds_foldl P). intros. apply Hadd. by right.
  - apply IH; [intros; apply Hadd; by right|done|]. intros em' H1 H2 H3.
    destruct (Hadd em y) as [E1 E2 E3 _]; [left|]. apply Hx; congruence.
Qed.

Definition with_key (label : string) (kind : CompletionKind) (owner : string)
    (it : CompletionItem) : Prop :=
  it_label it = label ∧ it_kind it = kind ∧ it_owner it = owner.

(** where completion stands when no qualifier was typed *)
Definition context_of (sql : string) (cursor : nat) (catalog : CompletionCatalog)
    (type : DatabaseType) : Ctx :=
  let a := analyzer sql (cursor `min` strlen sql) catalog type in
  let cur := Z.of_nat (ty_cur (typed_of sql cursor catalog type)) in
  ctx_kind (detectContext a (snd (qualifierBefore a cur))).

Lemma complete_relation_case sql cursor catalog type :
  let a := analyzer sql (cursor `min` strlen sql) catalog type in
  let ty := typed_of sql cursor catalog type in
  silent_at sql cursor type = false → qualifier_of sql cursor catalog type = [] →
  context_of sql cursor catalog type = CtxRelation →
  complete sql cursor catalog type =
    mkResult (em_take (complete_relation a type catalog (empty_emitter ty type)))
      (ty_start ty) (ty_end ty).
Proof.
  cbn zeta. unfold complete, silent_at, qualifier_of, context_of, typed_of. cbv zeta.
  set (c := cursor `min` strlen sql). set (a := analyzer sql c catalog type).
  change (tokenize sql (dialectFor type)) with (an_all a).
  rewrite orb_false_iff. intros [-> ->]. set (ty := typed_at sql c (an_toks a) 0).
  destruct (qualifierBefore a (Z.of_nat (ty_cur ty))) as [q chain]. simpl. intros -> Hctx.
  unfold complete_context. by rewrite Hctx.
Qed.

Lemma complete_relation_offers a type catalog em kind t :
  (kind = KTable ∧ t ∈ cat_tables catalog ∨ kind = KView ∧ t ∈ cat_views catalog) →
  accepts em (tbl_name t) kind true →
  ∃ it, with_key (tbl_name t) kind (tbl_schema t) it ∧
        it ∈ em_items (complete_relation a type catalog em).
Proof.
  intros Hin Hacc. unfold complete_relation. set (P := offered a type catalog 0 (detectContext a 0)).
  set (em1 := foldl _ em (an_ctes a)).
  assert (H1 : adds P em em1).
  { apply adds_foldl. intros em' c Hc. apply adds_add. intros s. right. eauto. }
  assert (Hrel : ∃ it, with_key (tbl_name t) kind (tbl_schema t) it ∧
                       it ∈ em_items (addRelations em1 catalog 900 880)).
  { assert (Hstep : ∀ em0 k b, em_prefix em0 = em_prefix em1 → em_quoted em0 = em_quoted em1 →
      k = kind → ∃ it, with_key (tbl_name t) kind (tbl_schema t) it ∧
                     it ∈ em_items (addRelation catalog k b em0 t)).
    { intros em0 k b Ep Eq ->. unfold addRelation.
      edestruct (em_add_offers em0 (tbl_name t) kind) as [s Hs].
      - unfold accepts. rewrite Ep, Eq, (adds_prefix _ _ _ H1), (adds_quoted _ _ _ H1). exact Hacc.
      - eexists. split; [|exact Hs]. done. }
    unfold addRelations. destruct Hin as [[-> Hin]|[-> Hin]].
    - edestruct (foldl_offers P (addRelation catalog KTable 900)
        (with_key (tbl_name t) KTable (tbl_schema t)) (cat_tables catalog) em1 t)
        as (it & Hit & Hel); [|done|by intros; apply Hstep|].
      + intros. apply addRelation_adds. by left.
      + exists it. split; [done|]. eapply adds_mono; [|exact Hel].
        apply (adds_foldl P). intros. apply addRelation_adds. by right.
    - apply (foldl_offers P) with (x := t); [|done|].
      + intros. apply addRelation_adds. by right.
      + intros em' Ep Eq _.
        destruct (adds_foldl P (addRelation catalog KTable 900)
          (cat_tables catalog) em1) as [E1 E2 _ _]; [intros; apply addRelation_adds; by left|].
        apply Hstep; congruence. }
  destruct Hrel as (it & Hit & Hel). exists it. split; [done|].
  eapply (adds_mono P), (adds_mono P), Hel;
    [|apply addSchemas_adds].
  apply adds_if. intros _. apply adds_foldl. intros em' kw Hkw. apply adds_if. intros _.
  apply adds_add. intros s.
  split; [done|apply em_keyword_letters].
Qed.

(** C4: in a FROM, JOIN, INTO or UPDATE slot nothing of the catalog is lost.  Every table
    and view whose name matches what was typed, and is not already typed in full, is
    offered: an item with its key is in the list. *)
Theorem complete_lists_relations (sql : string) (cursor : nat) (catalog : CompletionCatalog)
    (type : DatabaseType) (kind : CompletionKind) (t : Table) :
  let ty := typed_of sql cursor catalog type in
  silent_at sql cursor type = false → qualifier_of sql cursor catalog type = [] →
  context_of sql cursor catalog type = CtxRelation →
  (kind = KTable ∧ t ∈ cat_tables catalog ∨ kind = KView ∧ t ∈ cat_views catalog) →
  (0 <= matchTier (tbl_name t) (ty_prefix ty) true)%Z →
  (ty_prefix ty = "" ∨ ty_quoted ty = true ∨ ieq (tbl_name t) (ty_prefix ty) = false) →
  ∃ it it', with_key (tbl_name t) kind (tbl_schema t) it ∧
    it' ∈ res_items (complete sql cursor catalog type) ∧ item_key it' = item_key it ∧
    not_after item_before it' it.
Proof.
  intros ty Hs Hq Hctx Hin Hm Hty.
  rewrite (complete_relation_case sql cursor catalog type Hs Hq Hctx). cbn [res_items].
  set (a := analyzer _ _ _ _). fold ty.
  destruct (complete_relation_offers a type catalog (empty_emitter ty type) kind t Hin)
    as (it & Hk & Hel); [split; [done|]; split; [|done]; by destruct Hin as [[-> _]|[-> _]]|].
  exists it. unfold em_take.
  destruct (take_unseen_first (not_after item_before) ∅
    (stable_sort item_before (em_items (complete_relation a type catalog (empty_emitter ty type))))
    not_after_refl (stable_sort_sorted item_before _) it) as (it' & ? & ? & ?);
    [by rewrite elem_of_stable_sort|set_solver|]. by exists it'.
Qed.

Definition sample_catalog : CompletionCatalog :=
  mkCatalog [namedTable "public" "users"; namedTable "public" "orders"] [] [] [] ["public"]
    "public".

Lemma complete_lists_relations_witness :
  ∃ it it', with_key "users" KTable "public" it ∧
    it' ∈ res_items (complete "SELECT * FROM us" 16 sample_catalog POSTGRESQL) ∧
    item_key it' = item_key it ∧ not_after item_before it' it.
Proof.
  apply (complete_lists_relations "SELECT * FROM us" 16 sample_catalog POSTGRESQL KTable
           (namedTable "public" "users")).
  - vm_compute. reflexivity.
  - vm_compute. reflexivity.
  - vm_compute. reflexivity.
  - left. split; [reflexivity|]. left.
  - apply Z.leb_le. vm_compute. reflexivity.
  - right. right. vm_compute. reflexivity.
Defined.

(** ** [resolveIdentifierAt] *)

#[local] Opaque refColumns cteColumns.

Lemma ident_at_spec toks i offset best n :
  Forall (λ t, tk_begin t <= tk_end t) toks →
  ident_at toks i offset best = Some n →
  best = Some n ∨ ∃ t, toks !! (n - i) = Some t ∧ i <= n ∧
    (tk_kind t = TWord ∨ tk_kind t = TQuotedIdent) ∧ tk_begin t <= offset <= tk_end t.
Proof.
  intros Ht. revert i best. induction Ht as [|t toks Ht Hts IH]; intros i best; cbn [ident_at];
    [by left|].
  assert (Hrec : ∀ b, ident_at toks (S i) offset b = Some n → b = Some n ∨
    ∃ u, (t :: toks) !! (n - i) = Some u ∧ i <= n ∧
      (tk_kind u = TWord ∨ tk_kind u = TQuotedIdent) ∧ tk_begin u <= offset <= tk_end u).
  { intros b [?|(u & Hu & Hn & H)]%IH; [by left|right]. exists u.
    replace (n - i) with (S (n - S i)) by lia. simpl. split; [done|]. split; [lia|done]. }
  destruct (negb _) eqn:Hk; [apply Hrec|].
  apply negb_false_iff, orb_true_iff in Hk. rewrite !bool_decide_eq_true in Hk.
  assert (Hhit : tk_begin t <= offset <= tk_end t → ∃ u, (t :: toks) !! (i - i) = Some u ∧
    i <= i ∧ (tk_kind u = TWord ∨ tk_kind u = TQuotedIdent) ∧ tk_begin u <= offset <= tk_end u).
  { intros Hr. exists t. rewrite Nat.sub_diag. auto with lia. }
  destruct (_ && _) eqn:Hin.
  - apply andb_true_iff in Hin as [H1%Nat.leb_le H2%Nat.ltb_lt]. intros [= <-]. right. apply Hhit. lia.
  - destruct (Nat.eqb_spec offset (tk_end t)) as [->|]; [|apply Hrec].
    intros [[= <-]|?]%Hrec; [right; apply Hhit; lia|by right].
Qed.

(** what an answer promises, by its kind *)
Record resolved_ok (a : Analyzer) (catalog : CompletionCatalog) (name : string)
    (o : ResolvedIdentifier) : Prop := {
  ro_kind : match rs_kind o with
            | KTable | KView =>
                ∃ t, rs_table o = Some t ∧ rs_relation o = tbl_name t ∧
                  rs_schema o = tbl_schema t ∧
                  t ∈ (if bool_decide (rs_kind o = KView) then cat_views (an_catalog a)
                       else cat_tables (an_catalog a))
            | KColumn => ieq (rs_column o) name = true
            | KSequence =>
                ∃ s, s ∈ cat_sequences catalog ∧ rs_relation o = obj_name s ∧
                  rs_schema o = obj_schema s ∧ ieq (obj_name s) name = true
            | KSchema =>
                rs_schema o ∈ allSchemas catalog ∧
                ∃ seg, seg ∈ splitPath (rs_schema o) ∧ ieq seg name = true
            | KAlias => True
            | KKeyword | KFunction => False
            end;
  ro_table : ∀ t, rs_table o = Some t → known_table a t;
  ro_column : ∀ c, rs_columnInfo o = Some c → ∃ t, known_table a t ∧ c ∈ tbl_columns t
}.

(** an answer under construction, over the range of a token *)
Record partial_ok (a : Analyzer) (b e : nat) (o : ResolvedIdentifier) : Prop := {
  po_range : rs_start o = b ∧ rs_end o = e;
  po_table : ∀ t, rs_table o = Some t → known_table a t;
  po_column : ∀ c, rs_columnInfo o = Some c → ∃ t, known_table a t ∧ c ∈ tbl_columns t
}.

Section resolve_ok.
Context (a : Analyzer) (catalog : CompletionCatalog) (b e : nat).

#[local] Notation part := (partial_ok a b e).
Definition full (name : string) (o : ResolvedIdentifier) : Prop :=
  part o ∧ resolved_ok a catalog name o.

Lemma set_relation_full name path t o :
  part o → rel_table (findRelation a path) = Some t →
  full name (set_relation t (rel_isView (findRelation a path)) o).
Proof.
  intros [P1 P2 P3] Ht. pose proof (findRelation_known a path t Ht) as Hk.
  assert (Hkt : ∀ t', Some t = Some t' → known_table a t').
  { intros t' [= <-]. by eapply findRelation_known_table. }
  split; split; simpl; try done. destruct (rel_isView _); exists t; auto.
Qed.

Lemma set_column_full name n c o :
  part o → ieq n name = true →
  (∀ c', c = Some c' → ∃ t, known_table a t ∧ c' ∈ tbl_columns t) →
  full name (set_column n c o).
Proof. intros [P1 P2 P3] Hn Hc. split; split; simpl; auto. Qed.

Lemma set_alias_kind_full name r o : part o → full name (set_alias_kind r o).
Proof. intros [P1 P2 P3]. split; split; simpl; auto. Qed.

Lemma describeRef_full name r o : part o → full name (describeRef a r o).
Proof.
  intros Ho. assert (Ha : part (set_alias (ref_alias r) o)) by (destruct Ho; by split).
  unfold describeRef. cbv zeta. destruct (_ && _); [|by apply set_alias_kind_full].
  destruct (rel_table _) as [t|] eqn:E; [by apply set_relation_full|by apply set_alias_kind_full].
Qed.

Lemma columnIn_ok cols name c :
  Forall (sourced a) cols → columnIn cols name = Some c →
  ieq (inf_name c) name = true ∧
  ∀ c', inf_column c = Some c' → ∃ t, known_table a t ∧ c' ∈ tbl_columns t.
Proof.
  unfold columnIn. intros Hs [Hin%list_elem_of_In Hn]%List.find_some. split; [done|].
  rewrite Forall_forall in Hs. exact (Hs c Hin).
Qed.

(** the column found in a list of derived columns *)
Lemma set_found_column name cols c o :
  part o → Forall (sourced a) cols → columnIn cols name = Some c →
  full name (set_column (inf_name c) (inf_column c) o).
Proof. intros Ho Hs Hc. destruct (columnIn_ok _ _ _ Hs Hc). by apply set_column_full. Qed.

(** the column found in a table of the catalog *)
Lemma set_table_column name path t c o :
  part o → rel_table (findRelation a path) = Some t →
  List.find (λ c, ieq (col_name c) name) (tbl_columns t) = Some c →
  full name (set_column (col_name c) (Some c)
    (set_relation t (rel_isView (findRelation a path)) o)).
Proof.
  intros Ho Ht [Hin%list_elem_of_In Hn]%List.find_some.
  apply set_column_full; [by eapply (set_relation_full name)|done|].
  intros c' [= <-]. exists t. split; [by eapply findRelation_known_table|done].
Qed.

Lemma or_else_ok {A} (P : A → Prop) (x y : option A) o :
  or_else x y = Some o → (x = Some o → P o) → (y = Some o → P o) → P o.
Proof. destruct x; simpl; intros [= ->]; auto. Qed.

Lemma asRef_full name g o o' : part o → asRef a name g o = Some o' → full name o'.
Proof.
  intros Ho (r & _ & [= <-])%bind_Some. by apply describeRef_full.
Qed.
Lemma asCte_full name o o' : part o → asCte a name o = Some o' → full name o'.
Proof. intros Ho (c & _ & [= <-])%bind_Some. by apply set_alias_kind_full. Qed.
Lemma asRelation_full name o o' : part o → asRelation a name o = Some o' → full name o'.
Proof. intros Ho (t & Ht & [= <-])%bind_Some. by apply set_relation_full. Qed.

Lemma asSchema_full name o o' : part o → asSchema catalog name o = Some o' → full name o'.
Proof.
  intros [P1 P2 P3] (s & Hs & [= <-])%bind_Some.
  apply List.find_some in Hs as [Hin%list_elem_of_In Hseg].
  split; split; simpl; auto. split; [done|].
  apply existsb_exists in Hseg as (seg & Hseg%list_elem_of_In & Hn). by exists seg.
Qed.

Lemma ref_column_full refs name o o' : part o → ref_column a refs name o = Some o' → full name o'.
Proof.
  intros Ho. induction refs as [|r refs IH]; simpl; [done|].
  destruct (columnIn _ name) as [c|] eqn:E; [|done]. intros [= <-].
  eapply set_found_column; [|apply refColumns_sourced|exact E]. by apply (describeRef_full name).
Qed.

Lemma asColumn_full ctx name g o o' : part o → asColumn a ctx name g o = Some o' → full name o'.
Proof.
  intros Ho. unfold asColumn. case_bool_decide; [|by apply ref_column_full].
  cbv zeta. intros (t & Ht & (c & Hc & [= <-])%bind_Some)%bind_Some. by eapply set_table_column.
Qed.

Lemma resolve_bare_full at_ name g o o' :
  part o → resolve_bare a catalog at_ name g o = Some o' → full name o'.
Proof.
  intros Ho. unfold resolve_bare. cbv zeta.
  repeat case_match; intros Hr; repeat (apply (or_else_ok _ _ _ _ Hr); clear Hr; intros Hr);
    eauto using asRef_full, asCte_full, asRelation_full, asSchema_full, asColumn_full.
Qed.

Lemma resolve_qualified_full q name g o o' :
  part o → resolve_qualified a catalog q name g o = Some o' → full name o'.
Proof.
  intros Ho. unfold resolve_qualified. cbv zeta.
  set (single := match q with [x] => Some x | _ => None end).
  destruct (mbind _ single) as [o1|] eqn:E1.
  { intros [= <-]. apply bind_Some in E1 as (x & _ & (r & _ & (c & Hc & [= <-])%bind_Some)%bind_Some).
    eapply set_found_column; [|apply refColumns_sourced|exact Hc]. by apply (describeRef_full name). }
  clear E1. destruct (mbind _ single) as [o1|] eqn:E1.
  { intros [= <-]. apply bind_Some in E1 as (x & _ & (r & _ & (c & Hc & [= <-])%bind_Some)%bind_Some).
    eapply set_found_column; [|apply cteColumns_sourced|exact Hc]. by apply (set_alias_kind_full name). }
  clear E1. destruct (mbind _ (rel_table (findRelation a q))) as [o1|] eqn:E1.
  { intros [= <-]. apply bind_Some in E1 as (t & Ht & (c & Hc & [= <-])%bind_Some).
    by eapply set_table_column. }
  clear E1. destruct (mbind _ (rel_table (findRelation a (q ++ [name])))) as [o1|] eqn:E1.
  { intros [= <-]. apply bind_Some in E1 as (t & Ht & [= <-]). by apply set_relation_full. }
  intros (s & [Hin%list_elem_of_In Hs]%List.find_some & [= <-])%bind_Some.
  apply andb_true_iff in Hs as [Hn _]. destruct Ho as [P1 P2 P3]. split; split; simpl; eauto.
Qed.
End resolve_ok.

(** C5: an answer of [resolveIdentifierAt] is right about what it claims.  It spans one
    identifier token that contains or touches the offset; a table or view is one of the
    catalog's, under its own name and schema; a column has the name that was asked, in any
    case; a sequence or schema is one of the catalog's; and the table and column records
    it carries come from the catalog.  It never answers with a keyword or a function. *)
Theorem resolve_sound (sql : string) (offset : nat) (catalog : CompletionCatalog)
    (type : DatabaseType) :
  let off := offset `min` strlen sql in
  let a := analyzer sql off catalog type in
  match resolveIdentifierAt sql offset catalog type with
  | None => True
  | Some o =>
      isSqlDialect type = true ∧
      ∃ t, t ∈ tokenize sql (dialectFor type) ∧ (tk_kind t = TWord ∨ tk_kind t = TQuotedIdent) ∧
        rs_start o = tk_begin t ∧ rs_end o = tk_end t ∧ rs_start o <= off <= rs_end o ∧
        resolved_ok a catalog (tk_text t) o
  end.
Proof.
  cbn zeta. destruct (resolveIdentifierAt sql offset catalog type) as [o|] eqn:E; [|done].
  unfold resolveIdentifierAt in E. cbv zeta in E. set (off := offset `min` strlen sql) in *.
  set (a := analyzer sql off catalog type) in *.
  destruct (isSqlDialect type); [|done]. split; [done|]. cbn [negb] in E.
  apply bind_Some in E as (n & Hn & (t & Ht & E)%bind_Some).
  assert (Hall : ∀ t, t ∈ an_toks a → t ∈ tokenize sql (dialectFor type) ∧ tk_begin t <= tk_end t).
  { intros u [Hu _]%statement_toks_elem. split; [done|].
    apply (tokens_cover_bounds _ _ _ _ (tokenize_cover sql (dialectFor type))) in Hu. lia. }
  apply ident_at_spec in Hn as [?|(u & Hu & _ & Hk & Hr)]; [done| |apply Forall_forall, Hall].
  rewrite Nat.sub_0_r in Hu. assert (u = t) as -> by congruence. exists t.
  split; [eapply Hall, list_elem_of_lookup_2, Ht|]. split; [done|].
  set (out := mkResolved _ _ _ _ _ _ _ _ _) in E.
  assert (Hout : partial_ok a (tk_begin t) (tk_end t) out) by (split; by simpl).
  assert (Hfull : full a catalog (tk_begin t) (tk_end t) (tk_text t) o).
  { destruct (qualifierBefore a (Z.of_nat n)) as [[|q0 q] chain];
      [by eapply resolve_bare_full|by eapply resolve_qualified_full]. }
  destruct Hfull as [[[-> ->] _ _] Hok]. done.
Qed.

(** ** Word tables *)

Lemma upper_lower c : upperc (lowerc c) = upperc c ∧ lowerc (upperc c) = lowerc c.
Proof.
  assert ((upperc (lowerc c) =? upperc c)%char && (lowerc (upperc c) =? lowerc c)%char = true) as H
    by by_bytes c.
  by apply andb_true_iff in H as [?%char_eqb_true ?%char_eqb_true].
Qed.

Lemma ieq_upper a b : ieq a b = true ↔ upper a = upper b.
Proof.
  revert b. induction a as [|x a IH]; intros [|y b]; try done.
  unfold upper in *. simpl. rewrite andb_true_iff, char_eqb_true, IH.
  destruct (upper_lower x) as [<- Hx], (upper_lower y) as [<- Hy]. split.
  - by intros [-> ->].
  - intros [= E ->]. split; [|done]. rewrite <-Hx, <-Hy.
    destruct (upper_lower x) as [<- _], (upper_lower y) as [<- _]. by rewrite E.
Qed.

Lemma unique_from_elem (l : list string) last x :
  x ∈ l → x = last ∨ x ∈ unique_from String.eqb last l.
Proof.
  revert last. induction l as [|y l IH]; intros last Hin; [by apply not_elem_of_nil in Hin|].
  simpl. destruct (String.eqb_spec last y) as [->|Hne].
  - apply elem_of_cons in Hin as [->|Hin]; [by left|by apply IH].
  - right. apply elem_of_cons. apply elem_of_cons in Hin as [->|Hin]; [by left|by apply IH].
Qed.

Lemma elem_of_sortUnique x l : x ∈ sortUnique l ↔ x ∈ l.
Proof.
  unfold sortUnique. rewrite <-(elem_of_stable_sort String.ltb x l).
  destruct (stable_sort String.ltb l) as [|y r]; [done|]. simpl. rewrite !elem_of_cons. split.
  - intros [?|H]; [by left|right]. by eapply elem_of_sublist, unique_from_sublist.
  - intros [?|H]; [by left|]. by apply unique_from_elem.
Qed.

(** strictly increasing, as [std::binary_search] would need it *)
Fixpoint increasing (l : list string) : bool :=
  match l with
  | x :: ((y :: _) as r) => String.ltb x y && increasing r
  | _ => true
  end.

Definition word_char (c : ascii) : bool := isupper c || isdigit c || (c =? "_")%char.
Definition is_word (w : string) : bool := negb (sempty w) && sall word_char w.

Definition all_types : list DatabaseType :=
  [SQLITE; POSTGRESQL; MYSQL; MARIADB; MONGODB; REDIS; REDSHIFT; MSSQL; ORACLE; DUCKDB; CASSANDRA;
   TIDB; COCKROACHDB; S3].

Lemma all_types_complete t : t ∈ all_types.
Proof. destruct t; unfold all_types; set_solver. Qed.

(** a boolean fact about every database type, by evaluation *)
Lemma for_all_types (p : DatabaseType → bool) : forallb p all_types = true → ∀ t, p t = true.
Proof.
  intros H t. rewrite forallb_forall in H. apply H. apply list_elem_of_In, all_types_complete.
Qed.

Lemma upper_word w : is_word w = true → upper w = w.
Proof.
  unfold is_word. intros [_ H]%andb_true_iff. induction w as [|c w IH]; [done|].
  simpl in H. apply andb_true_iff in H as [Hc Hw]. unfold upper in *. simpl. f_equal; [|by apply IH].
  assert (implb (word_char c) (upperc c =? c)%char = true) as Hu by by_bytes c.
  rewrite Hc in Hu. by apply char_eqb_true.
Qed.

(** the word tables.  For every database type the keywords and functions are strictly
    increasing (sorted, none twice) upper-case words; there are some exactly for the SQL
    types, with SELECT among them; and the look-ups into the reserved, not-an-alias, clause,
    statement and relation tables are case-insensitive membership. *)
Lemma word_tables_correct (type : DatabaseType) :
  increasing (sqlKeywords type) = true ∧ increasing (sqlFunctions type) = true ∧
  (∀ w, w ∈ sqlKeywords type ∨ w ∈ sqlFunctions type → is_word w = true) ∧
  ("SELECT" ∈ sqlKeywords type ↔ isSqlDialect type = true) ∧
  (isSqlDialect type = false → sqlKeywords type = [] ∧ sqlFunctions type = []) ∧
  (∀ table word, table ∈ [reservedWords; notAliasWords] →
     inSet table word = true ↔ ∃ w, w ∈ table ∧ ieq w word = true) ∧
  (∀ w, w ∈ statementKeywords ++ clauseKeywords ++ relationKeywords → upper w = w).
Proof.
  assert (Hwords : ∀ w, w ∈ sqlKeywords type ∨ w ∈ sqlFunctions type → is_word w = true).
  { assert (forallb is_word (sqlKeywords type ++ sqlFunctions type) = true) as H.
    { revert type. apply for_all_types. vm_compute. reflexivity. }
    rewrite forallb_forall in H. intros w Hw. apply H, list_elem_of_In, elem_of_app, Hw. }
  split; [revert type Hwords; intros type _; revert type; apply for_all_types; vm_compute; reflexivity|].
  split; [revert type Hwords; intros type _; revert type; apply for_all_types; vm_compute; reflexivity|].
  split; [done|]. split; [|split; [|split]].
  - rewrite <-inWords_elem. assert (eqb (inWords (sqlKeywords type) "SELECT") (isSqlDialect type) = true)
      as H%eqb_prop; [|by rewrite H].
    clear Hwords. revert type. apply for_all_types. vm_compute. reflexivity.
  - destruct type; done.
  - intros table word Ht. assert (Hup : ∀ w, w ∈ table → upper w = w).
    { intros w Hw. apply upper_word.
      assert (forallb is_word (reservedWords ++ notAliasWords) = true) as H by (vm_compute; reflexivity).
      rewrite forallb_forall in H. apply H, list_elem_of_In, elem_of_app.
      apply elem_of_cons in Ht as [->|Ht]; [by left|].
      apply list_elem_of_singleton in Ht as ->. by right. }
    unfold inSet. rewrite inWords_elem. split.
    + intros Hw. exists (upper word). split; [done|]. apply ieq_upper. by apply Hup.
    + intros (w & Hw & Hi%ieq_upper). rewrite <-Hi, Hup; done.
  - intros w Hw. apply upper_word.
    assert (forallb is_word (statementKeywords ++ clauseKeywords ++ relationKeywords) = true) as H
      by (vm_compute; reflexivity).
    rewrite forallb_forall in H. by apply H, list_elem_of_In.
Qed.
