(* ===== verification/Database.v ===== *)
(** * The database interface's default operations

    [include/dearsql/database.hpp] and [src/database.cpp]: data access and DDL over the
    dialect's SQL builder and the backend's [execute].

    A backend is a parameter: its [execute] answers each statement from the statements sent
    before it ([db_answer]), so a session's state is the log of what was sent, and an
    operation is a function from a log to a result, or the message of a thrown [Error], and
    the extended log. *)

From S2P Require Import Prelude Types Rows ConnectionInfo DdlUtils SqlBuilder.

(** ** The session monad *)

Definition Log : Type := list (string * Z).
Definition M (A : Type) : Type := Log → (string + A) * Log.

#[export] Instance M_ret : MRet M := λ A x log, (inr x, log).
#[export] Instance M_bind : MBind M := λ A B f m log,
  match m log with
  | (inr x, log') => f x log'
  | (inl e, log') => (inl e, log')
  end.
Definition throw {A} (msg : string) : M A := λ log, (inl msg, log).

Record IDatabase := mkDatabase {
  db_name : string;
  db_type : DatabaseType;
  db_schemaName : string;
  db_answer : Log → string → Z → QueryResult;
  db_describeTable : string → M Table
}.

Record CreateDatabaseOptions := mkCreateDatabaseOptions {
  cd_name : string;
  cd_comment : string;
  (* PostgreSQL *)
  cd_owner : string;
  cd_templateDb : string;
  cd_encoding : string;
  cd_tablespace : string;
  (* MySQL, MariaDB *)
  cd_charset : string;
  cd_collation : string
}.

(** [Status]: success and the error message *)
Definition Status : Type := bool * string.

Definition toStatus (r : QueryResult) : Status :=
  if qr_success r then (true, "") else (false, qr_errorMessage r).

Definition firstOrThrow (r : QueryResult) : M StatementResult :=
  match qr_statements r with
  | s :: _ =>
      if qr_success r then mret s
      else throw (if sempty (qr_errorMessage r) then "query failed" else qr_errorMessage r)
  | [] => throw (if sempty (qr_errorMessage r) then "query failed" else qr_errorMessage r)
  end.

Definition lit (s : string) : string := "'" +:+ escapeSingleQuotes s +:+ "'".

(** [find_first_not_of] and [find_last_not_of] over these bytes *)
Definition line_blank (c : ascii) : bool :=
  (c =? " ")%char || (c =? "009")%char || (c =? "013")%char || (c =? newline)%char.

(** one row of [joined] *)
Definition joined_step (col : nat) (sep out : string) (r : list string) : string :=
  match r !! col with
  | None => out
  | Some cell =>
      if isNullSentinel cell then out
      else
        let cell := rstrip line_blank (lstrip line_blank cell) in
        if sempty cell then out else out +:+ (if sempty out then "" else sep) +:+ cell
  end.

Definition joined (rows : list (list string)) (col : nat) (sep : string) : string :=
  foldl (joined_step col sep) "" rows.

(** [^nextval\('\[^'\]+'::regclass\)$] matched against the whole text *)
Definition serialDefault (s : string) : bool :=
  let pre := "nextval('" in
  let post := "'::regclass)" in
  let mid := sdrop (strlen pre) s in
  let n := span_len (λ c, negb (c =? squote)%char) mid in
  starts_with pre s && (0 <? n) && (sdrop n mid =? post)%string.

Definition nl : string := str1 newline.

Section operations.
Context (db : IDatabase).

Definition execute (sql : string) (rowLimit : Z) : M QueryResult :=
  λ log, (inr (db_answer db log sql rowLimit), log ++ [(sql, rowLimit)]).

Definition builder : ISQLBuilder := createSQLBuilder (db_type db).

Definition no_sql : bool := (db_type db =t? MONGODB) || (db_type db =t? REDIS).

Definition getTableData (table : Table) (limit offset : Z) (whereClause orderByClause : string)
    : M (list (list string)) :=
  r ← execute (selectAll builder table whereClause orderByClause limit offset) 0;
  s ← firstOrThrow r;
  mret (sr_tableData s).

Fixpoint first_cells (rows : list (list string)) : list string :=
  match rows with
  | [] => []
  | (c :: _) :: r => c :: first_cells r
  | [] :: r => first_cells r
  end.

Definition getColumnNames (table : Table) : M (list string) :=
  r ← execute (columnNames builder table) 0;
  s ← firstOrThrow r;
  mret (first_cells (sr_tableData s)).

Definition getRowCount (table : Table) (whereClause : string) : M Z :=
  r ← execute (SqlBuilder.countRows builder table whereClause) 1;
  s ← firstOrThrow r;
  mret (match sr_tableData s with
        | (cell :: _) :: _ => default 0%Z (stoi cell)
        | _ => 0%Z
        end).

(** ** [tableDdl] *)

(** the [rows] lambda *)
Definition ddl_rows (sql : string) : M (list (list string)) :=
  r ← execute sql 0;
  s ← firstOrThrow r;
  mret (sr_tableData s).


Definition pg_head_sql (rel : string) : string :=
  "SELECT quote_ident(n.nspname) || '.' || quote_ident(c.relname), c.relpersistence, " +:+
  "COALESCE(pg_get_partkeydef(c.oid), ''), COALESCE(obj_description(c.oid, " +:+
  "'pg_class'), '') " +:+
  "FROM pg_class c JOIN pg_namespace n ON n.oid = c.relnamespace WHERE c.oid = " +:+ rel.

Definition pg_columns_sql (rel : string) : string :=
  "SELECT quote_ident(a.attname), format_type(a.atttypid, a.atttypmod), " +:+
  "a.attnotnull::text, COALESCE(pg_get_expr(d.adbin, d.adrelid), ''), " +:+
  "COALESCE(to_jsonb(a)->>'attidentity', ''), " +:+
  "COALESCE(to_jsonb(a)->>'attgenerated', ''), " +:+
  "COALESCE(col_description(a.attrelid, a.attnum), '') " +:+
  "FROM pg_attribute a LEFT JOIN pg_attrdef d " +:+
  "  ON d.adrelid = a.attrelid AND d.adnum = a.attnum " +:+
  "WHERE a.attrelid = " +:+ rel +:+ " AND a.attnum > 0 AND NOT a.attisdropped " +:+
  "ORDER BY a.attnum".

Definition pg_constraints_sql (rel : string) : string :=
  "SELECT quote_ident(conname), pg_get_constraintdef(oid, true) FROM " +:+
  "pg_constraint " +:+
  "WHERE conrelid = " +:+ rel +:+ " AND contype IN ('p', 'u', 'c', 'x', 'f') " +:+
  "ORDER BY CASE contype WHEN 'p' THEN 0 WHEN 'u' THEN 1 WHEN 'c' THEN 2 " +:+
  "WHEN 'x' THEN 3 ELSE 4 END, conname".

Definition pg_indexes_sql (rel : string) : string :=
  "SELECT pg_get_indexdef(i.indexrelid) || ';' FROM pg_index i " +:+
  "WHERE i.indrelid = " +:+ rel +:+ " AND NOT EXISTS (SELECT 1 FROM pg_constraint c " +:+
  "  WHERE c.conindid = i.indexrelid AND c.conrelid = i.indrelid) " +:+
  "ORDER BY 1".

(** one catalog row of a column: its type and what follows it *)
Definition pg_column_type (c : list string) : string * string :=
  let type := cell c 1 in
  if (cell c 5 =? "s")%string || (cell c 5 =? "v")%string then
    (type, " GENERATED ALWAYS AS (" +:+ cell c 3 +:+ ") " +:+
           (if (cell c 5 =? "s")%string then "STORED" else "VIRTUAL"))
  else if (cell c 4 =? "a")%string || (cell c 4 =? "d")%string then
    (type, if (cell c 4 =? "a")%string then " GENERATED ALWAYS AS IDENTITY"
           else " GENERATED BY DEFAULT AS IDENTITY")
  else if serialDefault (cell c 3) &&
          ((type =? "integer")%string || (type =? "bigint")%string || (type =? "smallint")%string)
  then
    (if (type =? "integer")%string then "serial"
     else if (type =? "bigint")%string then "bigserial" else "smallserial", "")
  else if negb (sempty (cell c 3)) then (type, " DEFAULT " +:+ cell c 3)
  else (type, "").

(** the loop over the columns: the lines and the comments *)
Definition pg_column_step (name : string) (acc : list string * list string) (c : list string)
    : list string * list string :=
  let '(lines, comments) := acc in
  if length c <? 7 then acc
  else
    let '(type, extra) := pg_column_type c in
    (lines ++ [cell c 0 +:+ " " +:+ type +:+ extra +:+
               (if (cell c 2 =? "true")%string then " NOT NULL" else "")],
     if negb (sempty (cell c 6))
     then comments ++ ["COMMENT ON COLUMN " +:+ name +:+ "." +:+ cell c 0 +:+ " IS " +:+
                       lit (cell c 6) +:+ ";"]
     else comments).

Definition pg_constraint_step (lines : list string) (c : list string) : list string :=
  if 2 <=? length c then lines ++ ["CONSTRAINT " +:+ cell c 0 +:+ " " +:+ cell c 1] else lines.

Definition postgresTableDdl (qualified : string) (rows : string → M (list (list string)))
    : M string :=
  let rel := lit qualified +:+ "::regclass" in
  heads ← rows (pg_head_sql rel);
  match heads with
  | head :: _ =>
      if length head <? 4 then throw ("table not found: " +:+ qualified)
      else
        let name := cell head 0 in
        columns ← rows (pg_columns_sql rel);
        let '(lines, comments) := foldl (pg_column_step name) ([], []) columns in
        constraints ← rows (pg_constraints_sql rel);
        let lines := foldl pg_constraint_step lines constraints in
        let sql := "CREATE " +:+ (if (cell head 1 =? "u")%string then "UNLOGGED " else "") +:+
                   "TABLE " +:+ name +:+ " (" +:+ nl in
        let sql := ddl_lines lines sql +:+ ")" in
        let sql := if negb (sempty (cell head 2)) then sql +:+ " PARTITION BY " +:+ cell head 2
                   else sql in
        let sql := sql +:+ ";" in
        index_rows ← rows (pg_indexes_sql rel);
        let indexes := joined index_rows 0 nl in
        let sql := if negb (sempty indexes) then sql +:+ nl +:+ indexes else sql in
        let sql := if negb (sempty (cell head 3))
                   then sql +:+ nl +:+ "COMMENT ON TABLE " +:+ name +:+ " IS " +:+
                        lit (cell head 3) +:+ ";"
                   else sql in
        mret (foldl (λ sql c, sql +:+ nl +:+ c) sql comments)
  | [] => throw ("table not found: " +:+ qualified)
  end.

Definition oracle_transform_sql : string :=
  "BEGIN " +:+
  "DBMS_METADATA.SET_TRANSFORM_PARAM(DBMS_METADATA.SESSION_TRANSFORM, " +:+
  "'SEGMENT_ATTRIBUTES', FALSE); " +:+
  "DBMS_METADATA.SET_TRANSFORM_PARAM(DBMS_METADATA.SESSION_TRANSFORM, " +:+
  "'SQLTERMINATOR', TRUE); END;".

Definition tableDdl (tableName : string) : M string :=
  let quote := quoteIdentifier builder in
  let schema := db_schemaName db in
  let qualified := if sempty schema then quote tableName
                   else quote schema +:+ "." +:+ quote tableName in
  let nonEmpty ddl : M string :=
    if sempty ddl then throw ("table not found: " +:+ tableName) else mret ddl in
  let with_indexes ddl indexes := if sempty indexes then ddl else ddl +:+ nl +:+ indexes in
  match db_type db with
  | POSTGRESQL => postgresTableDdl qualified ddl_rows
  | REDSHIFT =>
      rows ← ddl_rows ("SHOW TABLE " +:+ qualified);
      nonEmpty (joined rows 0 nl)
  | MYSQL | MARIADB | TIDB | COCKROACHDB =>
      rows ← ddl_rows ("SHOW CREATE TABLE " +:+ qualified);
      ddl ← nonEmpty (joined rows 1 "");
      mret (if ends_with ";" ddl then ddl else ddl +:+ ";")
  | SQLITE =>
      rows ← ddl_rows ("SELECT sql || ';' FROM sqlite_master " +:+
                       "WHERE tbl_name = " +:+ lit tableName +:+ " AND sql IS NOT NULL " +:+
                       "AND type IN ('table', 'index') " +:+
                       "ORDER BY type = 'index', name");
      nonEmpty (joined rows 0 nl)
  | DUCKDB =>
      let where_ :=
        "database_name = current_database() AND schema_name = " +:+
        (if sempty schema then "current_schema()" else lit schema) +:+ " AND " +:+
        "table_name = " +:+ lit tableName in
      rows ← ddl_rows ("SELECT sql FROM duckdb_tables() WHERE " +:+ where_);
      ddl ← nonEmpty (joined rows 0 "");
      index_rows ← ddl_rows ("SELECT sql FROM duckdb_indexes() WHERE sql IS NOT NULL AND " +:+ where_);
      mret (with_indexes ddl (joined index_rows 0 nl))
  | ORACLE =>
      _ ← execute oracle_transform_sql 0;
      let owner := if sempty schema then "USER" else lit schema in
      rows ← ddl_rows ("SELECT DBMS_METADATA.GET_DDL('TABLE', " +:+ lit tableName +:+ ", " +:+
                       owner +:+ ") FROM dual");
      ddl ← nonEmpty (joined rows 0 "");
      index_rows ← ddl_rows ("SELECT DBMS_METADATA.GET_DDL('INDEX', i.index_name, i.owner) " +:+
                             "FROM all_indexes i WHERE i.table_name = " +:+ lit tableName +:+
                             " AND i.table_owner = " +:+ owner +:+ " " +:+
                             "AND i.index_type <> 'LOB' AND NOT EXISTS (SELECT 1 FROM " +:+
                             "all_constraints c WHERE c.owner = i.table_owner " +:+
                             "AND c.index_name = i.index_name) ORDER BY i.index_name");
      mret (with_indexes ddl (joined index_rows 0 nl))
  | MONGODB | REDIS => throw "no table DDL for this database type"
  | _ =>
      table ← db_describeTable db tableName;
      match tbl_columns table with
      | [] => throw ("table not found: " +:+ tableName)
      | _ => mret (SqlBuilder.tableDdl builder table schema)
      end
  end.

(** ** Statements that change tables and rows *)

(** [toStatus(execute(sql, 0))] *)
Definition run (sql : string) : M Status :=
  r ← execute sql 0; mret (toStatus r).

Definition unsupported (what : string) : M Status :=
  mret (false, what +:+ " not supported for this database").

Definition createTable (table : Table) : M Status :=
  let schema := if sempty (tbl_schema table) then db_schemaName db else tbl_schema table in
  run (SqlBuilder.createTable builder table schema).

Definition renameTable (oldName newName : string) : M Status :=
  run (SqlBuilder.renameTable builder (db_schemaName db) oldName newName).

Definition dropTable (tableName : string) : M Status :=
  run (SqlBuilder.dropTable builder (db_schemaName db) tableName).

Definition truncateTable (tableName : string) : M Status :=
  run (SqlBuilder.truncateTable builder (db_schemaName db) tableName).

Definition dropColumn (tableName columnName : string) : M Status :=
  let t := namedTable (db_schemaName db) tableName in
  run (SqlBuilder.dropColumn builder (qualifiedName builder t) columnName).

Definition dropView (viewName : string) (isMaterialized : bool) : M Status :=
  let t := namedTable (db_schemaName db) viewName in
  run ((if isMaterialized then "DROP MATERIALIZED VIEW " else "DROP VIEW ") +:+
       qualifiedName builder t).

Definition addColumn (table : Table) (column : Column) : M Status :=
  if no_sql then unsupported "addColumn"
  else
    let sql := SqlBuilder.addColumn builder (qualifiedName builder table) column in
    if sempty sql then unsupported "addColumn" else run sql.

Definition renameColumn (table : Table) (oldColumnName newColumnName : string) : M Status :=
  if no_sql then unsupported "renameColumn"
  else
    let sql := SqlBuilder.renameColumn builder (qualifiedName builder table) oldColumnName
                 newColumnName in
    if sempty sql then unsupported "renameColumn" else run sql.

Definition alterColumn (table : Table) (oldColumnName : string) (newColumn : Column) : M Status :=
  if no_sql then unsupported "alterColumn"
  else
    let sql := SqlBuilder.alterColumn builder (qualifiedName builder table) oldColumnName
                 newColumn in
    if sempty sql then unsupported "alterColumn" else run sql.

Definition insertRow (table : Table) (names valueLiterals : list string) : M Status :=
  if no_sql then unsupported "insertRow"
  else run (SqlBuilder.insertRow builder (qualifiedName builder table) names valueLiterals).

Definition updateRow (table : Table) (assignments : list (string * string)) (whereExpr : string)
    : M Status :=
  if no_sql then unsupported "updateRow"
  else if sempty whereExpr then mret (false, "updateRow requires a WHERE expression")
  else run (SqlBuilder.updateRow builder (qualifiedName builder table) assignments whereExpr).

Definition deleteRow (table : Table) (whereExpr : string) : M Status :=
  if no_sql then unsupported "deleteRow"
  else if sempty whereExpr then mret (false, "deleteRow requires a WHERE expression")
  else run (SqlBuilder.deleteRow (qualifiedName builder table) whereExpr).

End operations.

(** [IDatabase::schema]: the first of [schemas()] of that name; [None] is the null pointer *)
Definition schema_named (schemas : list IDatabase) (schemaName : string) : option IDatabase :=
  List.find (λ s, (db_name s =? schemaName)%string) schemas.

(** ** What a connection refuses by default *)

Definition createDatabase_default : Status :=
  (false, "createDatabase not supported for this database type").
Definition dropDatabase_default : Status :=
  (false, "dropDatabase not supported for this database type").
Definition renameDatabase_default : Status :=
  (false, "renameDatabase not supported for this database type").
Definition renameSchema_default : Status := (false, "renameSchema not supported for this database").
Definition dropSchema_default : Status := (false, "dropSchema not supported for this database").

(** ** Properties: statuses and errors *)

Lemma all_success_forall l : all_success l = true ↔ Forall (λ s, sr_success s = true) l.
Proof.
  induction l as [|s l IH]; simpl; [by split; [constructor|]|].
  rewrite Forall_cons, <-IH. destruct (sr_success s); simpl; naive_solver.
Qed.

Lemma first_error_spec l :
  all_success l = false →
  ∃ l1 s l2, l = l1 ++ s :: l2 ∧ Forall (λ s, sr_success s = true) l1 ∧
    sr_success s = false ∧ first_error l = sr_errorMessage s.
Proof.
  induction l as [|s l IH]; simpl; [done|]. destruct (sr_success s) eqn:E; simpl.
  - intros (l1 & s' & l2 & -> & H1 & H2 & H3)%IH. exists (s :: l1), s', l2. auto.
  - intros _. exists [], s, l. auto.
Qed.

Lemma run_spec db sql log :
  run db sql log = (inr (toStatus (db_answer db log sql 0)), log ++ [(sql, 0%Z)]).
Proof. done. Qed.

(** the statement [m] sends, alone, and whose outcome is its result *)
Definition one_statement (db : IDatabase) (m : M Status) (sql : string) : Prop :=
  ∀ log, m log = (inr (toStatus (db_answer db log sql 0)), log ++ [(sql, 0%Z)]).

(** nothing is sent *)
Definition refuses (m : M Status) (msg : string) : Prop := ∀ log, m log = (inr (false, msg), log).

(** the status of an operation.  It is a success exactly when the backend answered
    with at least one statement and none failed; otherwise the message is the one of the
    first statement that failed. *)
Lemma toStatus_spec (r : QueryResult) :
  (fst (toStatus r) = true ↔
   qr_statements r ≠ [] ∧ Forall (λ s, sr_success s = true) (qr_statements r)) ∧
  (fst (toStatus r) = true → snd (toStatus r) = "") ∧
  (fst (toStatus r) = false →
   qr_statements r = [] ∧ snd (toStatus r) = "" ∨
   ∃ l1 s l2, qr_statements r = l1 ++ s :: l2 ∧ Forall (λ s, sr_success s = true) l1 ∧
     sr_success s = false ∧ snd (toStatus r) = sr_errorMessage s).
Proof.
  unfold toStatus, qr_success, qr_errorMessage. destruct (qr_statements r) as [|s l] eqn:E.
  { simpl. split; [naive_solver|]. split; [done|]. by left. }
  pose proof (all_success_forall (s :: l)) as Hf.
  destruct (all_success (s :: l)) eqn:Ha; cbn [fst snd].
  - split; [|by split]. split; [intros _; split; [done|by apply Hf]|done].
  - split; [split; [done|intros [_ H]; by apply Hf in H]|]. split; [done|].
    intros _. right. by apply first_error_spec.
Qed.

(** ** Properties: edits *)

Lemma sempty_app a b : sempty a = false → sempty (a +:+ b) = false.
Proof. by destruct a. Qed.

Lemma append_if_nonempty c t s : sempty s = false → sempty (append_if c t s) = false.
Proof. unfold append_if. destruct c; [apply sempty_app|done]. Qed.

Lemma edits_nonempty type q c o n :
  sempty (SqlBuilder.addColumn (createSQLBuilder type) q c) = false ∧
  sempty (SqlBuilder.renameColumn (createSQLBuilder type) q o n) = false ∧
  sempty (SqlBuilder.alterColumn (createSQLBuilder type) q o c) = false.
Proof.
  split; [|split]; destruct type; simpl;
    unfold base_renameColumn, mssql_renameColumn, base_alterColumn, mysql_alterColumn,
      mssql_alterColumn, oracle_alterColumn, sqlite_alterColumn, pg_addColumn, mysql_addColumn,
      mssql_addColumn, oracle_addColumn, sqlite_addColumn, duckdb_addColumn, cassandra_addColumn;
    repeat (apply append_if_nonempty); repeat case_match; done.
Qed.

(** the DDL operations send one statement each and report its outcome.  The three
    column operations whose code also handles an empty statement never meet one: on every
    SQL type they send it, and refuse only for MongoDB and Redis, where nothing is sent. *)
Lemma ddl_operations_send_one (db : IDatabase) (t : Table) (c : Column) (x y : string)
    (materialized : bool) :
  let b := builder db in
  let q := qualifiedName b t in
  one_statement db (createTable db t)
    (SqlBuilder.createTable b t
       (if sempty (tbl_schema t) then db_schemaName db else tbl_schema t)) ∧
  one_statement db (renameTable db x y) (SqlBuilder.renameTable b (db_schemaName db) x y) ∧
  one_statement db (dropTable db x) (SqlBuilder.dropTable b (db_schemaName db) x) ∧
  one_statement db (truncateTable db x) (SqlBuilder.truncateTable b (db_schemaName db) x) ∧
  one_statement db (dropColumn db x y)
    (SqlBuilder.dropColumn b (qualifiedRef (quoteIdentifier b) (db_schemaName db) x) y) ∧
  one_statement db (dropView db x materialized)
    ((if materialized then "DROP MATERIALIZED VIEW " else "DROP VIEW ") +:+
     qualifiedRef (quoteIdentifier b) (db_schemaName db) x) ∧
  if no_sql db then
    refuses (addColumn db t c) "addColumn not supported for this database" ∧
    refuses (renameColumn db t x y) "renameColumn not supported for this database" ∧
    refuses (alterColumn db t x c) "alterColumn not supported for this database"
  else
    one_statement db (addColumn db t c) (SqlBuilder.addColumn b q c) ∧
    one_statement db (renameColumn db t x y) (SqlBuilder.renameColumn b q x y) ∧
    one_statement db (alterColumn db t x c) (SqlBuilder.alterColumn b q x c).
Proof.
  cbn zeta. do 6 (split; [done|]).
  unfold addColumn, renameColumn, alterColumn. destruct (no_sql db); [done|].
  destruct (edits_nonempty (db_type db) (qualifiedName (builder db) t) c x y) as (E1 & E2 & E3).
  unfold builder in *. rewrite E1, E2, E3. done.
Qed.

(** rows are never edited without a condition.  [updateRow] and [deleteRow] either send
    nothing and say why, or send one statement that ends in WHERE and the condition, which is
    then not empty. *)
Lemma row_edits_guarded (db : IDatabase) (t : Table) (assignments : list (string * string))
    (cond : string) :
  let guarded m what :=
    if no_sql db then refuses m (what +:+ " not supported for this database")
    else if sempty cond then refuses m (what +:+ " requires a WHERE expression")
    else ∃ sql, one_statement db m (sql +:+ " WHERE " +:+ cond) ∧
                ends_with (" WHERE " +:+ cond) (sql +:+ " WHERE " +:+ cond) = true in
  guarded (updateRow db t assignments cond) "updateRow" ∧
  guarded (deleteRow db t cond) "deleteRow".
Proof.
  cbn zeta. unfold updateRow, deleteRow. destruct (no_sql db); [done|].
  destruct (sempty cond); [done|].
  assert (Hend : ∀ a b, ends_with b (a +:+ b) = true).
  { intros a b. unfold ends_with, srev.
    assert (Hrev : ∀ s acc, srev_app s acc = srev_app s "" +:+ acc).
    { induction s as [|ch s IH]; intros acc; simpl; [done|].
      rewrite IH, (IH (String ch "")), sapp_assoc. done. }
    assert (Happ : ∀ s s' acc, srev_app (s +:+ s') acc = srev_app s' (srev_app s acc)).
    { induction s as [|ch s IH]; intros s' acc; simpl; [done|apply IH]. }
    rewrite Happ, (Hrev b (srev_app a "")). generalize (srev_app b "") (srev_app a "").
    intros p r. clear. induction p as [|ch p IH]; simpl; [by destruct r|].
    rewrite IH. by destruct (ascii_dec ch ch). }
  split.
  - set (set_ := join_loop ", " 0
      (map (λ a, quoteIdentifier (builder db) (fst a) +:+ " = " +:+ snd a) assignments) "").
    exists ("UPDATE " +:+ qualifiedName (builder db) t +:+ " SET " +:+ set_). split; [|apply Hend].
    intros log. rewrite run_spec. unfold SqlBuilder.updateRow. fold set_. by rewrite !sapp_assoc.
  - exists ("DELETE FROM " +:+ qualifiedName (builder db) t). split; [|apply Hend].
    intros log. rewrite run_spec. unfold SqlBuilder.deleteRow. by rewrite !sapp_assoc.
Qed.

(** ** Properties: reads *)

Lemma bind_spec {A B} (m : M A) (f : A → M B) log :
  (m ≫= f) log = match m log with
                 | (inr x, log') => f x log'
                 | (inl e, log') => (inl e, log')
                 end.
Proof. done. Qed.

Lemma firstOrThrow_spec r log :
  firstOrThrow r log =
    (if qr_success r then match qr_statements r with s :: _ => inr s | [] => inl "" end
     else inl (if sempty (qr_errorMessage r) then "query failed" else qr_errorMessage r), log).
Proof.
  unfold firstOrThrow, qr_success. destruct (qr_statements r) as [|s l]; [done|].
  by destruct (all_success (s :: l)).
Qed.

Lemma qr_success_front r : qr_success r = true → ∃ s l, qr_statements r = s :: l.
Proof. unfold qr_success. destruct (qr_statements r); [done|by eauto]. Qed.

Lemma stoi_range s z : stoi s = Some z → (- 2 ^ 31 <= z < 2 ^ 31)%Z.
Proof.
  unfold stoi, sto, in_width. destruct (strtol s); [|done].
  destruct (_ && _) eqn:E; [|done]. apply andb_true_iff in E as [?%Z.leb_le ?%Z.ltb_lt].
  intros [= <-]. simpl in *. lia.
Qed.

(** the data accessors send one statement each, throw its error (never an empty
    message) when it failed, and otherwise return what its first result holds; a row count
    that is missing or does not read as an [int] is 0, so the count is always an [int]. *)
Lemma data_access_spec (db : IDatabase) (t : Table) (limit offset : Z) (w o : string) (log : Log) :
  let answer sql n := db_answer db log sql n in
  let failed r := if sempty (qr_errorMessage r) then "query failed" else qr_errorMessage r in
  let outcome {A} (m : M A) sql n (f : StatementResult → A) :=
    snd (m log) = log ++ [(sql, n)] ∧
    if qr_success (answer sql n)
    then ∃ s l, qr_statements (answer sql n) = s :: l ∧ fst (m log) = inr (f s)
    else fst (m log) = inl (failed (answer sql n)) ∧ failed (answer sql n) ≠ "" in
  outcome (getTableData db t limit offset w o) (selectAll (builder db) t w o limit offset) 0%Z
    sr_tableData ∧
  outcome (getColumnNames db t) (columnNames (builder db) t) 0%Z
    (λ s, map (hd "") (filter (λ r, r ≠ []) (sr_tableData s))) ∧
  outcome (getRowCount db t w) (SqlBuilder.countRows (builder db) t w) 1%Z
    (λ s, match sr_tableData s with
          | (cell :: _) :: _ => match stoi cell with Some n => n | None => 0%Z end
          | _ => 0%Z
          end) ∧
  ∀ n, fst (getRowCount db t w log) = inr n → (- 2 ^ 31 <= n < 2 ^ 31)%Z.
Proof.
  cbn zeta.
  assert (Hout : ∀ A sql n (f : StatementResult → A),
    let m : M A := (r ← execute db sql n; s ← firstOrThrow r; mret (f s)) in
    snd (m log) = log ++ [(sql, n)] ∧
    if qr_success (db_answer db log sql n)
    then ∃ s l, qr_statements (db_answer db log sql n) = s :: l ∧ fst (m log) = inr (f s)
    else fst (m log) = inl (if sempty (qr_errorMessage (db_answer db log sql n)) then "query failed"
                            else qr_errorMessage (db_answer db log sql n)) ∧
         (if sempty (qr_errorMessage (db_answer db log sql n)) then "query failed"
          else qr_errorMessage (db_answer db log sql n)) ≠ "").
  { intros A sql n f m. unfold m. rewrite bind_spec. simpl. rewrite bind_spec, firstOrThrow_spec.
    destruct (qr_success _) eqn:E.
    - destruct (qr_success_front _ E) as (s & l & ->). split; [done|]. by exists s, l.
    - simpl. split; [done|]. split; [done|]. by destruct (qr_errorMessage _). }
  split; [apply Hout|]. split; [|split].
  - pose proof (Hout _ (columnNames (builder db) t) 0%Z
      (λ s, map (hd "") (filter (λ r, r ≠ []) (sr_tableData s)))) as H.
    assert (Hc : ∀ rows, first_cells rows = map (hd "") (filter (λ r, r ≠ []) rows)).
    { induction rows as [|[|c r] rows IH]; simpl; [done|done|by rewrite IH]. }
    assert (E : getColumnNames db t log = (r ← execute db (columnNames (builder db) t) 0;
              s ← firstOrThrow r; mret (map (hd "") (filter (λ r, r ≠ []) (sr_tableData s)))) log).
    { unfold getColumnNames. rewrite !bind_spec. simpl. rewrite !bind_spec, firstOrThrow_spec.
      by destruct (qr_success _); [destruct (qr_statements _); [done|simpl; rewrite Hc]|]. }
    rewrite E. apply H.
  - apply Hout.
  - intros n. unfold getRowCount. rewrite bind_spec. simpl. rewrite bind_spec, firstOrThrow_spec.
    destruct (qr_success _); [|done]. destruct (qr_statements _) as [|s l]; [done|]. simpl.
    intros [= <-]. destruct (sr_tableData s) as [|[|c r] rows]; [lia|lia|].
    destruct (stoi c) as [z|] eqn:E; simpl; [by apply stoi_range in E|lia].
Qed.

(** ** Properties: [tableDdl] *)

(** every statement [m] sends satisfies [P], whatever the log it starts from *)
Definition sends {A} (P : string → Prop) (m : M A) : Prop :=
  ∀ log, ∃ l, snd (m log) = log ++ l ∧ Forall (λ q, P (fst q)) l.

(** every value [m] returns satisfies [Q] *)
Definition returns {A} (Q : A → Prop) (m : M A) : Prop :=
  ∀ log x, fst (m log) = inr x → Q x.

Create HintDb session discriminated.

Section session.
Context {A B : Type} (P : string → Prop).

Lemma sends_ret (x : A) : sends P (mret x : M A).
Proof. intros log. exists []. by rewrite app_nil_r. Qed.

Lemma sends_throw e : sends P (throw e : M A).
Proof. intros log. exists []. by rewrite app_nil_r. Qed.

Lemma sends_bind (m : M A) (f : A → M B) : sends P m → (∀ x, sends P (f x)) → sends P (m ≫= f).
Proof.
  intros Hm Hf log. destruct (Hm log) as (l & E & Hl). rewrite bind_spec.
  destruct (m log) as [[e|x] log']; simpl in E; subst log'; [by exists l|].
  destruct (Hf x (log ++ l)) as (l' & -> & Hl'). exists (l ++ l'). rewrite app_assoc.
  split; [done|]. by apply Forall_app.
Qed.

Lemma returns_ret (Q : A → Prop) x : Q x → returns Q (mret x : M A).
Proof. by intros HQ log y [= <-]. Qed.

Lemma returns_throw (Q : A → Prop) e : returns Q (throw e : M A).
Proof. by intros log y. Qed.

Lemma returns_bind (Q : B → Prop) (m : M A) (f : A → M B) :
  (∀ x, returns Q (f x)) → returns Q (m ≫= f).
Proof.
  intros Hf log y. rewrite bind_spec. destruct (m log) as [[e|x] log']; [done|]. apply Hf.
Qed.
End session.

Lemma returns_bind_via {A B} (R : A → Prop) (Q : B → Prop) (m : M A) (f : A → M B) :
  returns R m → (∀ x, R x → returns Q (f x)) → returns Q (m ≫= f).
Proof.
  intros Hm Hf log y. rewrite bind_spec. specialize (Hm log).
  destruct (m log) as [[e|x] log']; [done|]. apply Hf. by apply Hm.
Qed.

Lemma sends_execute P db sql n : P sql → sends P (execute db sql n).
Proof. intros HP log. exists [(sql, n)]. split; [done|]. by repeat constructor. Qed.

Lemma sends_firstOrThrow P r : sends P (firstOrThrow r).
Proof. intros log. rewrite firstOrThrow_spec. exists []. by rewrite app_nil_r. Qed.

Lemma sends_ddl_rows P db sql : P sql → sends P (ddl_rows db sql).
Proof.
  intros HP. apply sends_bind; [by apply sends_execute|]. intros r.
  apply sends_bind; [apply sends_firstOrThrow|]. intros s. apply sends_ret.
Qed.

#[export] Hint Resolve sends_ret sends_throw sends_execute sends_ddl_rows
  returns_ret returns_throw returns_bind : session.

(** statements that change nothing in the database *)
Definition read_only (sql : string) : Prop :=
  starts_with "SELECT " sql = true ∨ starts_with "SHOW " sql = true ∨ sql = oracle_transform_sql.

Lemma sends_postgresTableDdl db qualified : sends read_only (postgresTableDdl qualified (ddl_rows db)).
Proof.
  unfold postgresTableDdl. apply sends_bind; [apply sends_ddl_rows; by left|]. intros [|head heads];
    [apply sends_throw|]. destruct (_ <? _); [apply sends_throw|].
  apply sends_bind; [apply sends_ddl_rows; by left|]. intros columns.
  destruct (foldl _ _ columns) as [lines comments].
  apply sends_bind; [apply sends_ddl_rows; by left|]. intros constraints.
  apply sends_bind; [apply sends_ddl_rows; by left|]. intros index_rows. apply sends_ret.
Qed.

Definition nonempty (s : string) : Prop := sempty s = false.

Lemma foldl_nonempty {A} (f : string → A → string) l s :
  nonempty s → (∀ s x, nonempty s → nonempty (f s x)) → nonempty (foldl f s l).
Proof. intros Hs Hf. revert s Hs. induction l as [|x l IH]; intros s Hs; simpl; auto. Qed.

Lemma ddl_lines_nonempty lines sql : nonempty sql → nonempty (ddl_lines lines sql).
Proof.
  revert sql. induction lines as [|l r IH]; intros sql Hs; simpl; [done|].
  apply IH. by apply sempty_app.
Qed.

Lemma returns_postgresTableDdl qualified rows : returns nonempty (postgresTableDdl qualified rows).
Proof.
  unfold postgresTableDdl. apply returns_bind. intros [|head heads]; [apply returns_throw|].
  destruct (_ <? _); [apply returns_throw|]. apply returns_bind. intros columns.
  destruct (foldl _ _ columns) as [lines comments]. apply returns_bind. intros constraints.
  apply returns_bind. intros index_rows. apply returns_ret.
  apply foldl_nonempty; [|intros; by apply sempty_app].
  repeat case_match; repeat apply sempty_app; by apply ddl_lines_nonempty.
Qed.

Lemma tableDdl_builder_nonempty b t s : nonempty (SqlBuilder.tableDdl b t s).
Proof.
  unfold SqlBuilder.tableDdl. cbv zeta. destruct (foldl _ _ _) as [lines indexes].
  apply foldl_nonempty; [|intros; by apply sempty_app]. by apply sempty_app, ddl_lines_nonempty.
Qed.

Lemma returns_guard {A} (Q : A → Prop) (c : bool) e (x : A) :
  (c = false → Q x) → returns Q (if c then throw e else mret x : M A).
Proof. intros HQ. destruct c; [apply returns_throw|]. apply returns_ret. by apply HQ. Qed.

Lemma sends_guard {A} P (c : bool) e (x : A) : sends P (if c then throw e else mret x : M A).
Proof. destruct c; [apply sends_throw|apply sends_ret]. Qed.

Lemma ends_with_self s c : ends_with (str1 c) (s +:+ str1 c) = true.
Proof.
  unfold ends_with, srev. simpl.
  assert (Happ : ∀ a acc, srev_app (a +:+ str1 c) acc = String c (srev_app a acc)).
  { induction a as [|ch a IH]; intros acc; simpl; [done|apply IH]. }
  rewrite Happ. simpl. destruct (ascii_dec c c); [|done]. by destruct (srev_app s "").
Qed.

(** C37: the DDL of a table.  [tableDdl] sends nothing but queries (and, on Oracle, the
    session's output settings) as long as the backend's [describeTable] does; what it returns
    is never empty, and on MySQL, MariaDB, TiDB and CockroachDB ends with a semicolon; for
    MongoDB and Redis it sends nothing and throws. *)
Theorem tableDdl_correct (db : IDatabase) (name : string) :
  (∀ t, sends read_only (db_describeTable db t)) →
  sends read_only (tableDdl db name) ∧ returns nonempty (tableDdl db name) ∧
  (db_type db ∈ [MYSQL; MARIADB; TIDB; COCKROACHDB] →
   returns (λ ddl, ends_with ";" ddl = true) (tableDdl db name)) ∧
  (no_sql db = true → ∀ log, tableDdl db name log = (inl "no table DDL for this database type", log)).
Proof.
  intros Hdesc. split; [|split; [|split]].
  - unfold tableDdl, read_only. cbv zeta. destruct (db_type db); try apply sends_throw;
      try apply sends_postgresTableDdl;
      repeat (apply sends_bind; [first [apply Hdesc | apply sends_guard | apply sends_execute; by auto
                                       | apply sends_ddl_rows; by auto]|intros ?]);
      try apply sends_guard; try apply sends_ret; case_match; auto with session.
  - unfold tableDdl. cbv zeta. destruct (db_type db); try apply returns_throw;
      try apply returns_postgresTableDdl;
      repeat first [ apply returns_guard; done
                   | apply (returns_bind_via nonempty); [apply returns_guard; done|intros ? ?]
                   | apply returns_bind; intros ? ];
      apply returns_ret || (case_match; [apply returns_throw|apply returns_ret]);
      try apply tableDdl_builder_nonempty; case_match; try done; by apply sempty_app.
  - intros Hin. unfold tableDdl. cbv zeta.
    assert (∀ rows : list (list string), returns (λ ddl, ends_with ";" ddl = true)
      (ddl ← (if sempty (joined rows 1 "") then throw ("table not found: " +:+ name)
              else mret (joined rows 1 "") : M string);
       mret (if ends_with ";" ddl then ddl else ddl +:+ ";"))) as Hret.
    { intros rows. apply returns_bind. intros ddl. apply returns_ret.
      destruct (ends_with ";" ddl) eqn:E; [done|]. apply (ends_with_self ddl ";"). }
    destruct (db_type db); try (exfalso; clear -Hin; set_solver); apply returns_bind; exact Hret.
  - unfold no_sql, tableDdl. by destruct (db_type db).
Qed.

(** a backend that knows no table and answers every query with one row *)
Definition sample_database (type : DatabaseType) : IDatabase :=
  mkDatabase "db" type "" (λ _ _ _, mkQueryResult [mkStatementResult true "" []
    [["t"; "CREATE TABLE t (id int)"]] 0 ""] [])
    (λ name, throw ("table not found: " +:+ name)).

Lemma tableDdl_correct_witness :
  (∀ t, sends read_only (db_describeTable (sample_database MYSQL) t)) ∧
  returns nonempty (tableDdl (sample_database MYSQL) "t") ∧
  fst (tableDdl (sample_database MYSQL) "t" []) = inr "CREATE TABLE t (id int);".
Proof.
  assert (H : ∀ t, sends read_only (db_describeTable (sample_database MYSQL) t)).
  { intros t log. exists []. split; [symmetry; apply app_nil_r|constructor]. }
  split; [exact H|]. split; [apply (tableDdl_correct (sample_database MYSQL) "t" H)|].
  vm_compute. reflexivity.
Defined.
