(* ===== verification/Syntax.v ===== *)
(** * Syntax checking

    [src/syntax.cpp].  The engines' parsers (libpg_query, sqlite3 and DuckDB) are
    parameters: each is what its C or C++ entry points answer for a text. *)

From S2P Require Import Prelude Types ConnectionInfo Lexer.

Record SyntaxError := mkSyntaxError { se_message : string; se_offset : nat }.

(** the bytes of a UTF-8 sequence, read off its first byte *)
Definition utf8_step (c : ascii) : nat :=
  if (code c <? 128)%N then 1 else if (code c <? 224)%N then 2 else if (code c <? 240)%N then 3 else 4.

(** the loop of [byteOffset]; [i] may pass the end by the rest of a cut sequence *)
Fixpoint byteOffset_from (s : string) (chars i : nat) : nat :=
  match chars with
  | 0 => i
  | S chars =>
      if i <? strlen s then byteOffset_from s chars (i + utf8_step (char_at s i)) else i
  end.
Definition byteOffset (s : string) (chars : nat) : nat := byteOffset_from s chars 0 `min` strlen s.

Definition isSqliteSyntaxError (msg : string) : bool :=
  ends_with "syntax error" msg || (msg =? "incomplete input")%string ||
  starts_with "unrecognized token" msg.

(** what the parsers answer *)
Record Parsers := mkParsers {
  (** [pg_query_parse]: the error's message (it may be null) and [cursorpos] *)
  pg_parse : string → option (option string * Z);
  (** [sqlite3_prepare_v2], [sqlite3_errmsg] and [sqlite3_error_offset]: nothing for
      [SQLITE_OK] *)
  sqlite_prepare : string → option (string * Z);
  (** the in-memory database opened *)
  sqlite_open : bool;
  (** [duckdb::Parser::ParseQuery]: the raw message and the "position" entry *)
  duckdb_parse : string → option (string * option N);
  (** [DEARSQL_HAS_DUCKDB] *)
  has_duckdb : bool
}.

Section check.
Context (p : Parsers).

Definition checkPostgres (sql : string) : option SyntaxError :=
  match pg_parse p (c_str sql) with
  | None => None
  | Some (message, pos) =>
      Some (mkSyntaxError (default "syntax error" message)
              (if (0 <? pos)%Z then byteOffset sql (Z.to_nat (pos - 1)) else 0))
  end.

(** one statement of [checkSqlite]'s loop *)
Definition checkSqlite_range (sql : string) (r : nat * nat) : option SyntaxError :=
  match sqlite_prepare p (substr sql (fst r) (snd r - fst r)) with
  | None => None
  | Some (msg, at_) =>
      if isSqliteSyntaxError msg
      then Some (mkSyntaxError msg (fst r + (if (0 <=? at_)%Z then Z.to_nat at_ else 0)))
      else None
  end.

Fixpoint first_range_error (sql : string) (rs : list (nat * nat)) : option SyntaxError :=
  match rs with
  | [] => None
  | r :: rest =>
      match checkSqlite_range sql r with
      | Some e => Some e
      | None => first_range_error sql rest
      end
  end.

Definition checkSqlite (sql : string) : option SyntaxError :=
  if negb (sqlite_open p) then None else first_range_error sql (statementRanges sql SQLITE).

Definition checkDuckdb (sql : string) : option SyntaxError :=
  match duckdb_parse p sql with
  | None => None
  | Some (msg, position) =>
      Some (mkSyntaxError msg
              (match position with Some n => N.to_nat n `min` strlen sql | None => 0 end))
  end.

Definition hasSyntaxCheck (type : DatabaseType) : bool :=
  match type with
  | POSTGRESQL | SQLITE => true
  | DUCKDB => has_duckdb p
  | _ => false
  end.

Definition checkSyntax (sql : string) (type : DatabaseType) : option SyntaxError :=
  match type with
  | POSTGRESQL => checkPostgres sql
  | SQLITE => checkSqlite sql
  | DUCKDB => if has_duckdb p then checkDuckdb sql else None
  | _ => None
  end.

End check.

(** ** Properties *)

(** a UTF-8 sequence as its lead byte announces it *)
Definition utf8_char (u : string) : Prop :=
  match u with EmptyString => False | String c r => utf8_step c = S (strlen r) end.

Lemma byteOffset_from_chars pre us chars :
  Forall utf8_char us →
  byteOffset_from (pre +:+ sconcat us) chars (strlen pre) =
    strlen (pre +:+ sconcat (take chars us)).
Proof.
  intros Hus. revert pre chars. induction Hus as [|u us Hu Hus IH]; intros pre chars.
  { rewrite take_nil. simpl. rewrite sapp_nil_r. destruct chars; simpl; [done|].
    by rewrite Nat.ltb_irrefl. }
  destruct chars as [|chars]; [simpl; by rewrite sapp_nil_r|]. destruct u as [|c r]; [done|].
  simpl in Hu. cbn [byteOffset_from]. simpl sconcat.
  rewrite !slen_app. simpl strlen.
  rewrite (proj2 (Nat.ltb_lt _ _)) by lia.
  specialize (IH (pre +:+ String c r) chars). rewrite !sapp_assoc, !slen_app in IH. simpl strlen in IH.
  rewrite !sapp_cons, char_at_app, Hu in *. rewrite IH. lia.
Qed.

(** a character position becomes the byte where that character starts.  For every text
    the result lies in the text; when the text is a sequence of UTF-8 characters, [n]
    characters take exactly the bytes of the first [n]. *)
Lemma byteOffset_correct (s : string) (us : list string) (n : nat) :
  byteOffset s n <= strlen s ∧
  (Forall utf8_char us → s = sconcat us → byteOffset s n = strlen (sconcat (take n us))).
Proof.
  unfold byteOffset. split; [lia|]. intros Hus ->.
  pose proof (byteOffset_from_chars "" us n Hus) as H. rewrite !sapp_nil_l in H.
  change (strlen "") with 0 in H. rewrite H.
  rewrite <-(take_drop n us) at 2.
  assert (Hc : ∀ a b, sconcat (a ++ b) = sconcat a +:+ sconcat b).
  { induction a as [|x a IH]; intros b; simpl; [done|]. by rewrite IH, sapp_assoc. }
  rewrite Hc, slen_app. lia.
Qed.

Lemma first_range_error_spec p sql rs :
  match first_range_error p sql rs with
  | None => ∀ r, r ∈ rs → checkSqlite_range p sql r = None
  | Some e => ∃ l1 r l2, rs = l1 ++ r :: l2 ∧ checkSqlite_range p sql r = Some e ∧
      ∀ r', r' ∈ l1 → checkSqlite_range p sql r' = None
  end.
Proof.
  induction rs as [|r rs IH]; simpl; [by intros r ?%not_elem_of_nil|].
  destruct (checkSqlite_range p sql r) as [e|] eqn:E.
  { exists [], r, rs. repeat split; [done|]. by intros r' ?%not_elem_of_nil. }
  destruct (first_range_error p sql rs) as [e|].
  - destruct IH as (l1 & r0 & l2 & -> & H0 & Hl). exists (r :: l1), r0, l2. repeat split; [done|].
    intros r' [->|?]%elem_of_cons; [done|by apply Hl].
  - intros r' [->|?]%elem_of_cons; [done|by apply IH].
Qed.

(** the parsers keep to the text they were given *)
Record parsers_in_range (p : Parsers) : Prop := {
  sqlite_in_range : ∀ s msg n, sqlite_prepare p s = Some (msg, n) → (n <= Z.of_nat (strlen s))%Z
}.

Lemma ranges_ordered_bound lo rs hi r : ranges_ordered lo rs hi → r ∈ rs → fst r < snd r <= hi.
Proof.
  revert lo. induction rs as [|[b e] rs IH]; intros lo; [by intros _ ?%not_elem_of_nil|].
  simpl. intros (? & ? & Hr) [->|Hin]%elem_of_cons; [simpl|by eapply IH].
  split; [done|]. clear -Hr. revert e Hr. induction rs as [|[b e'] rs IH]; intros e; simpl; [done|].
  intros (? & ? & Hr). specialize (IH _ Hr). lia.
Qed.

(** what [checkSyntax] reports.  Only the engines with a parser are ever checked; the
    offset reported lies in the text; and for SQLite the error is the first of the text's
    statements that has a syntax error, with the offset inside that statement, while
    errors that depend on the schema are never reported. *)
Lemma checkSyntax_correct (p : Parsers) (sql : string) (type : DatabaseType) :
  parsers_in_range p →
  (hasSyntaxCheck p type = false → checkSyntax p sql type = None) ∧
  (∀ e, checkSyntax p sql type = Some e → se_offset e <= strlen sql) ∧
  (sqlite_open p = true →
   match checkSyntax p sql SQLITE with
   | None => ∀ r msg n, r ∈ statementRanges sql SQLITE →
       sqlite_prepare p (substr sql (fst r) (snd r - fst r)) = Some (msg, n) →
       isSqliteSyntaxError msg = false
   | Some e => ∃ l1 r l2 n, statementRanges sql SQLITE = l1 ++ r :: l2 ∧
       sqlite_prepare p (substr sql (fst r) (snd r - fst r)) = Some (se_message e, n) ∧
       isSqliteSyntaxError (se_message e) = true ∧ fst r <= se_offset e <= snd r ∧
       ∀ r', r' ∈ l1 → checkSqlite_range p sql r' = None
   end).
Proof.
  intros [Hsq].
  pose proof (statementRanges_from_ordered sql 0 _ None 0
    (tokenize_cover sql (dialectFor SQLITE)) (le_n _) I) as Ho.
  fold (statementRanges sql SQLITE) in Ho.
  assert (Hin : ∀ r e, r ∈ statementRanges sql SQLITE → checkSqlite_range p sql r = Some e →
    ∃ n, sqlite_prepare p (substr sql (fst r) (snd r - fst r)) = Some (se_message e, n) ∧
      isSqliteSyntaxError (se_message e) = true ∧ fst r <= se_offset e <= snd r ∧
      snd r <= strlen sql).
  { intros r e Hr. unfold checkSqlite_range. destruct (sqlite_prepare p _) as [[msg n]|] eqn:E; [|done].
    destruct (isSqliteSyntaxError msg) eqn:Em; [|done]. intros [= <-]. exists n. simpl.
    apply Hsq in E. pose proof (ranges_ordered_bound _ _ _ _ Ho Hr) as Hb.
    unfold substr in E. rewrite slen_stake, slen_sdrop in E.
    repeat split; try done; destruct (Z.leb_spec 0 n); lia. }
  pose proof (first_range_error_spec p sql (statementRanges sql SQLITE)) as Hf.
  split; [|split].
  - destruct type; simpl; try done. by intros ->.
  - intros e. destruct type; simpl; try done.
    + unfold checkSqlite. destruct (negb _); [done|]. intros E. rewrite E in Hf.
      destruct Hf as (l1 & r & l2 & El & Hr & _).
      destruct (Hin r e) as (n & _ & _ & ? & ?); [rewrite El; set_solver|done|]. lia.
    + unfold checkPostgres. destruct (pg_parse p _) as [[m pos]|]; [|done]. intros [= <-]. simpl.
      unfold byteOffset. destruct (0 <? pos)%Z; lia.
    + destruct (has_duckdb p); [|done]. unfold checkDuckdb.
      destruct (duckdb_parse p sql) as [[m pos]|]; [|done]. intros [= <-]. simpl.
      destruct pos; lia.
  - intros Hopen. simpl. unfold checkSqlite. rewrite Hopen. simpl.
    destruct (first_range_error p sql _) as [e|].
    + destruct Hf as (l1 & r & l2 & El & Hr & Hl1). 
      destruct (Hin r e) as (n & ? & ? & ? & ?); [rewrite El; set_solver|done|].
      exists l1, r, l2, n. auto.
    + intros r msg n Hr E. specialize (Hf r Hr). unfold checkSqlite_range in Hf. rewrite E in Hf.
      by destruct (isSqliteSyntaxError msg).
Qed.

(** parsers that find one syntax error, at the third byte of every statement *)
Definition sample_parsers : Parsers :=
  mkParsers (λ _, None) (λ s, if strlen s <? 3 then None else Some ("near: syntax error", 2%Z)) true
    (λ _, None) false.

Lemma checkSyntax_correct_witness :
  parsers_in_range sample_parsers ∧
  checkSyntax sample_parsers "; select" SQLITE = Some (mkSyntaxError "near: syntax error" 4) ∧
  ∀ e, checkSyntax sample_parsers "; select" SQLITE = Some e → se_offset e <= strlen "; select".
Proof.
  assert (H : parsers_in_range sample_parsers).
  { split. intros s msg n. simpl. destruct (Nat.ltb_spec (strlen s) 3); [discriminate|].
    intros E. injection E as <- <-. lia. }
  split; [exact H|]. split; [vm_compute; reflexivity|].
  destruct (checkSyntax_correct sample_parsers "; select" SQLITE H) as (_ & Hoff & _).
  exact Hoff.
Defined.
