(* ===== verification/Calendar.v ===== *)
(** * Dates in UTC

    [gmtime_r] and the formats of [strftime] that the backends use: the proleptic Gregorian
    calendar, by cycles of 400, 100, 4 years and one year that start on the first of March. *)

From S2P Require Import Prelude Types.

(** the months from March on with their lengths, January and February as the 13th and 14th;
    the last is February in a leap year *)
Definition month_lengths : list (Z * Z) :=
  [(3, 31); (4, 30); (5, 31); (6, 30); (7, 31); (8, 31); (9, 30); (10, 31); (11, 30); (12, 31);
   (13, 31); (14, 29)]%Z.

(** the month a day of the year falls in, and the days before it in the month *)
Fixpoint month_of (lengths : list (Z * Z)) (day : Z) : Z * Z :=
  match lengths with
  | [] => (0, day)%Z
  | (m, len) :: rest => if (day <? len)%Z then (m, day) else month_of rest (day - len)
  end.

(** year, month and day of a number of days since 1970-01-01 *)
Definition civil_from_days (z : Z) : Z * Z * Z :=
  let days := (z - 11017)%Z in                   (* since 2000-03-01 *)
  let qc := (days / 146097)%Z in
  let r := (days mod 146097)%Z in
  let c := Z.min 3 (r / 36524) in
  let r := (r - c * 36524)%Z in
  let q := Z.min 24 (r / 1461) in
  let r := (r - q * 1461)%Z in
  let y := Z.min 3 (r / 365) in
  let r := (r - y * 365)%Z in
  let years := (2000 + y + 4 * q + 100 * c + 400 * qc)%Z in
  let '(m, d) := month_of month_lengths r in
  if (13 <=? m)%Z then (years + 1, m - 12, d + 1)%Z else (years, m, d + 1)%Z.

Record tm := mkTm {
  tm_year : Z; tm_mon : Z; tm_mday : Z; tm_hour : Z; tm_min : Z; tm_sec : Z
}.

(** [gmtime_r] of a [time_t] *)
Definition gmtime (seconds : Z) : tm :=
  let '(y, m, d) := civil_from_days (seconds / 86400) in
  let s := (seconds mod 86400)%Z in
  mkTm y m d (s / 3600) (s / 60 mod 60) (s mod 60).

Definition two_digits (z : Z) : string := pad_left 2 (pretty z).

(** [strftime] with [%Y-%m-%d %H:%M:%S] *)
Definition date_time_text (t : tm) : string :=
  pretty (tm_year t) +:+ "-" +:+ two_digits (tm_mon t) +:+ "-" +:+ two_digits (tm_mday t) +:+ " " +:+
  two_digits (tm_hour t) +:+ ":" +:+ two_digits (tm_min t) +:+ ":" +:+ two_digits (tm_sec t).

Example date_text_leap : date_time_text (gmtime 951782399) = "2000-02-28 23:59:59".
Proof. vm_compute. reflexivity. Qed.
Example date_text_before : date_time_text (gmtime (-1)) = "1969-12-31 23:59:59".
Proof. vm_compute. reflexivity. Qed.
Example date_text_2038 : date_time_text (gmtime 2147483648) = "2038-01-19 03:14:08".
Proof. vm_compute. reflexivity. Qed.

(** ** The calendar is the calendar *)

Definition leap (y : Z) : bool :=
  ((y mod 4 =? 0) && negb (y mod 100 =? 0) || (y mod 400 =? 0))%Z.

Definition days_in_month (y m : Z) : Z :=
  if (m =? 2)%Z then (if leap y then 29 else 28)%Z
  else if ((m =? 4) || (m =? 6) || (m =? 9) || (m =? 11))%Z then 30%Z else 31%Z.

(** the days before January 1st of a year, from that of the year 0; then the days before a
    month of it *)
Definition days_before_year (y : Z) : Z := (365 * y + (y + 3) / 4 - (y + 99) / 100 + (y + 399) / 400)%Z.
Fixpoint days_before_month (y : Z) (m : nat) : Z :=
  match m with
  | 0 | 1 => 0%Z
  | S m' => (days_before_month y m' + days_in_month y (Z.of_nat m'))%Z
  end.

(** a date as a number of days since 1970-01-01, counting years and months *)
Definition days_from_civil (y m d : Z) : Z :=
  (days_before_year y + days_before_month y (Z.to_nat m) + (d - 1) - 719528)%Z.

Lemma days_before_year_step y :
  days_before_year (y + 1) = (days_before_year y + 365 + (if leap y then 1 else 0))%Z.
Proof.
  unfold days_before_year, leap.
  destruct (Z.eqb_spec (y mod 4) 0), (Z.eqb_spec (y mod 100) 0), (Z.eqb_spec (y mod 400) 0);
    simpl; Z.div_mod_to_equations; lia.
Qed.

(** the place of a day in the cycles *)
Record Cycles := mkCycles { cy_400 : Z; cy_100 : Z; cy_4 : Z; cy_1 : Z; cy_day : Z }.

Definition cycles (days : Z) : Cycles :=
  let qc := (days / 146097)%Z in
  let r := (days mod 146097)%Z in
  let c := Z.min 3 (r / 36524) in
  let r := (r - c * 36524)%Z in
  let q := Z.min 24 (r / 1461) in
  let r := (r - q * 1461)%Z in
  let y := Z.min 3 (r / 365) in
  mkCycles qc c q y (r - y * 365).

Definition cycle_year (k : Cycles) : Z :=
  (2000 + cy_1 k + 4 * cy_4 k + 100 * cy_100 k + 400 * cy_400 k)%Z.

Lemma cycles_spec days :
  let k := cycles days in
  (0 <= cy_100 k <= 3 ∧ 0 <= cy_4 k <= 24 ∧ 0 <= cy_1 k <= 3 ∧ 0 <= cy_day k <= 365 ∧
   days = 146097 * cy_400 k + 36524 * cy_100 k + 1461 * cy_4 k + 365 * cy_1 k + cy_day k ∧
   (cy_day k = 365 → cy_1 k = 3 ∧ (cy_4 k = 24 → cy_100 k = 3)))%Z.
Proof. unfold cycles. simpl. Z.div_mod_to_equations. lia. Qed.

(** the first of March of a cycle's year, and the leap day before it *)
Lemma march_first k :
  (0 <= cy_100 k <= 3 → 0 <= cy_4 k <= 24 → 0 <= cy_1 k <= 3 →
   days_before_year (cycle_year k + 1) =
   719528 + 11017 + 306 + 146097 * cy_400 k + 36524 * cy_100 k + 1461 * cy_4 k + 365 * cy_1 k)%Z.
Proof.
  unfold days_before_year, cycle_year. intros Hc Hq Hy. Z.div_mod_to_equations. lia.
Qed.

Lemma leap_day_year k :
  (cy_1 k = 3 → (cy_4 k = 24 → cy_100 k = 3) →
   0 <= cy_100 k <= 3 → 0 <= cy_4 k <= 24 → leap (cycle_year k + 1) = true)%Z.
Proof.
  unfold leap, cycle_year. intros Hy Hqc Hc Hq. rewrite Hy.
  destruct (Z.eqb_spec ((2000 + 3 + 4 * cy_4 k + 100 * cy_100 k + 400 * cy_400 k + 1) mod 4) 0),
    (Z.eqb_spec ((2000 + 3 + 4 * cy_4 k + 100 * cy_100 k + 400 * cy_400 k + 1) mod 100) 0),
    (Z.eqb_spec ((2000 + 3 + 4 * cy_4 k + 100 * cy_100 k + 400 * cy_400 k + 1) mod 400) 0);
    simpl; try done; exfalso; Z.div_mod_to_equations; lia.
Qed.

Lemma civil_from_cycles z :
  civil_from_days z =
  let k := cycles (z - 11017) in
  let '(m, d) := month_of month_lengths (cy_day k) in
  if (13 <=? m)%Z then (cycle_year k + 1, m - 12, d + 1)%Z else (cycle_year k, m, d + 1)%Z.
Proof. done. Qed.

(** the days before a month: 30.6 days a month from March on *)
Lemma month_start y m :
  1 <= m <= 12 →
  days_before_month y m =
  (nth (pred m) [0; 31; 59; 90; 120; 151; 181; 212; 243; 273; 304; 334] 0 +
   (if (3 <=? m)%nat && leap y then 1 else 0))%Z.
Proof.
  intros Hm. destruct m as [|[|[|[|[|[|[|[|[|[|[|[|[|m]]]]]]]]]]]]]; try lia;
    (cbn -[leap Z.add]; unfold days_in_month; cbn -[leap Z.add]; destruct (leap y); done).
Qed.

(** The calendar is right: a day's date has a month from 1 to 12 and a day of that month, and
    counting the years, months and days up to the date gives the day back. *)
Lemma civil_from_days_spec z :
  let '(y, m, d) := civil_from_days z in
  (1 <= m <= 12 ∧ 1 <= d <= days_in_month y m ∧ days_from_civil y m d = z)%Z.
Proof.
  rewrite civil_from_cycles. cbn zeta.
  destruct (cycles_spec (z - 11017)) as (Hc & Hq & Hy & Hd & Hz & Hleap).
  set (k := cycles (z - 11017)) in *.
  pose proof (march_first k Hc Hq Hy) as Hm. pose proof (days_before_year_step (cycle_year k)) as Hs.
  pose proof (leap_day_year k) as Hl.
  revert Hd Hz Hleap Hm Hs Hl. generalize (cy_day k) as r. intros r Hd Hz Hleap Hm Hs Hl.
  assert (Hmonth : days_before_year (cycle_year k + 1) = (z - r + 719528 + 306)%Z) by lia.
  assert (Hleap' : (r = 365 → leap (cycle_year k + 1) = true)%Z).
  { intros Hr. destruct (Hleap Hr). by apply Hl. }
  clear Hz Hm Hl Hleap. unfold days_from_civil, days_in_month.
  cbn -[days_before_year leap cycle_year Z.add Z.sub Z.ltb].
  repeat match goal with |- context [(?a <? ?b)%Z] => destruct (Z.ltb_spec a b) end.
  all: change (13 - 12)%Z with 1%Z; change (14 - 12)%Z with 2%Z.
  all: cbn -[days_before_year leap cycle_year Z.add Z.sub Z.to_nat].
  all: match goal with |- context [Z.to_nat ?n] =>
         let v := eval compute in (Z.to_nat n) in change (Z.to_nat n) with v end.
  all: rewrite ?month_start by lia; cbn -[days_before_year leap cycle_year Z.add Z.sub Z.le].
  all: revert Hs Hleap'; destruct (leap (cycle_year k)); destruct (leap (cycle_year k + 1));
    intros Hs Hleap'; try lia.
  all: destruct (decide (r = 365)%Z) as [Hr|Hr]; [by specialize (Hleap' Hr)|lia].
Qed.
