(* ===== verification/Doubles.v ===== *)
(** * Double-precision numbers and their text

    The [double]s of [src/explain.cpp], as the Standard Library's specification of binary64:
    the arithmetic the plan parser uses, [std::stod] on decimal text, the value of an integer
    and the default text of an output stream ([%g] with six digits). *)

From Stdlib Require Export SpecFloat.
From S2P Require Import Prelude Types.

Notation double := spec_float.

Definition dadd : double → double → double := SFadd 53 1024.
Definition dsub : double → double → double := SFsub 53 1024.
Definition dmul : double → double → double := SFmul 53 1024.
Definition dzero : double := S754_zero false.

(** [static_cast<double>] of an integer, to nearest *)
Definition double_of_Z (z : Z) : double := binary_normalize 53 1024 z 0 false.
Definition done1 : double := double_of_Z 1.

(** [std::max] returns its first argument unless it is smaller *)
Definition dmax (x y : double) : double := if SFltb x y then y else x.

(** ** [std::stod]

    The double nearest to [(-1)^neg * m * 10^e]. *)
Definition double_of_decimal (neg : bool) (m e : Z) : double :=
  match m with
  | Zpos p =>
      match e with
      | Zneg k =>
          let '(q, e', l) := SFdiv_core_binary 53 1024 (Zpos p) 0 (10 ^ Zpos k) 0 in
          binary_round_aux 53 1024 neg q e' l
      | _ => binary_round 53 1024 neg (Z.to_pos (Zpos p * 10 ^ e)) 0
      end
  | _ => S754_zero neg
  end.

(** [ERANGE]: the value overflows, or is too small for a normal number *)
Definition in_range (m : Z) (x : double) : bool :=
  match x with
  | S754_infinity _ | S754_nan => false
  | S754_zero _ => (m =? 0)%Z
  | S754_finite _ p _ => (Zpos (digits2_pos p) =? 53)%Z
  end.

(** the exponent part: a sign and at least one digit, else it is not part of the number *)
Definition strtod_exponent (s : string) : Z :=
  match s with
  | String c r =>
      if (c =? "e")%char || (c =? "E")%char then
        match r with
        | String "-" r => Z.opp (default 0%Z (strtol_digits r))
        | String "+" r => default 0%Z (strtol_digits r)
        | r => default 0%Z (strtol_digits r)
        end
      else 0%Z
  | EmptyString => 0%Z
  end.

(** the decimal significand: digits, a point and digits, one digit at least *)
Definition strtod_decimal (neg : bool) (s : string) : option (bool * Z * Z) :=
  let whole := span_len isdigit s in
  let rest := sdrop whole s in
  let frac := if head_is "." rest then span_len isdigit (sdrop 1 rest) else 0 in
  let tail := if head_is "." rest then sdrop (S frac) rest else rest in
  if whole + frac =? 0 then None
  else
    let m := digits_value (stake whole s +:+ stake frac (sdrop 1 rest)) 0 in
    Some (neg, m, strtod_exponent tail - Z.of_nat frac)%Z.

Definition strtod (s : string) : option (bool * Z * Z) :=
  match lstrip isspace s with
  | String "-" r => strtod_decimal true r
  | String "+" r => strtod_decimal false r
  | r => strtod_decimal false r
  end.

(** [None] is the exception, [invalid_argument] or [out_of_range].  Hexadecimal, [inf] and
    [nan] spellings are left out: the program only passes digits, points, signs and [e]. *)
Definition stod (s : string) : option double :=
  '(neg, m, e) ← strtod s;
  let x := double_of_decimal neg m e in
  if in_range m x then Some x else None.

(** ** [operator<<] of a double *)

(** the six leading decimal digits of [num / den > 0] and its decimal exponent *)
Definition six_digits (num den : Z) : Z * Z :=
  let x0 := (Z.of_nat (strlen (pretty num)) - Z.of_nat (strlen (pretty den)))%Z in
  let scaled (x : Z) := (* num / den / 10^x as a fraction *)
    if (0 <=? x)%Z then (num, den * 10 ^ x)%Z else (num * 10 ^ (- x), den)%Z in
  let x := let '(a, b) := scaled x0 in if (b <=? a)%Z then x0 else (x0 - 1)%Z in
  let '(a, b) := scaled (x - 5)%Z in
  let d := div_rne a b in
  if (d =? 10 ^ 6)%Z then (10 ^ 5, x + 1)%Z else (d, x).

Definition strip_zeros (s : string) : string := rstrip (λ c, (c =? "0")%char) s.
Definition point_if (frac : string) : string := if sempty frac then "" else "." +:+ frac.

Definition general_text (num den : Z) : string :=
  let '(d, x) := six_digits num den in
  let ds := pretty d in
  if (x <? -4)%Z || (6 <=? x)%Z then
    substr ds 0 1 +:+ point_if (strip_zeros (sdrop 1 ds)) +:+ "e" +:+
    (if (x <? 0)%Z then "-" else "+") +:+ pad_left 2 (pretty (Z.abs x))
  else if (x <? 0)%Z then "0." +:+ zeros (Z.to_nat (- x - 1)) +:+ strip_zeros ds
  else let k := Z.to_nat (x + 1) in stake k ds +:+ point_if (strip_zeros (sdrop k ds)).

Definition double_text (x : double) : string :=
  let sign (s : bool) := if s then "-" else "" in
  match x with
  | S754_zero s => sign s +:+ "0"
  | S754_infinity s => sign s +:+ "inf"
  | S754_nan => "nan"
  | S754_finite s m e =>
      sign s +:+ (if (0 <=? e)%Z then general_text (Zpos m * 2 ^ e) 1
                  else general_text (Zpos m) (2 ^ (- e)))
  end.

(** [std::to_string]: the format [%f], six digits after the point *)
Definition double_to_string (x : double) : string :=
  let sign (s : bool) := if s then "-" else "" in
  match x with
  | S754_zero s => sign s +:+ fixed_point 6 0 1
  | S754_infinity s => sign s +:+ "inf"
  | S754_nan => "nan"
  | S754_finite s m e =>
      sign s +:+ (if (0 <=? e)%Z then fixed_point 6 (Zpos m * 2 ^ e) 1
                  else fixed_point 6 (Zpos m) (2 ^ (- e)))
  end.

Example stod_tenth : stod "0.1" = Some (S754_finite false 7205759403792794 (-56)).
Proof. vm_compute. reflexivity. Qed.
Example stod_exponent : stod "575e-6 rows" = stod "0.000575".
Proof. vm_compute. reflexivity. Qed.
Example stod_prefix : stod "0.35..4.5" = stod "0.35".
Proof. vm_compute. reflexivity. Qed.
Example stod_throws : stod "e+1" = None ∧ stod "1e999" = None ∧ stod "." = None.
Proof. vm_compute. auto. Qed.
Example text_of_doubles :
  double_text <$> (omap stod ["0.1"; "1234567"; "0.00001"; "12.5"; "100"; "999999.7"; "-2.50"]) =
  ["0.1"; "1.23457e+06"; "1e-05"; "12.5"; "100"; "1e+06"; "-2.5"].
Proof. vm_compute. reflexivity. Qed.

Example fixed_of_doubles :
  double_to_string <$> (omap stod ["0.1"; "-2.5"; "1234567"; "0.00000049"]) =
  ["0.100000"; "-2.500000"; "1234567.000000"; "0.000000"].
Proof. vm_compute. reflexivity. Qed.

(** ** Facts about the arithmetic *)

(** the larger of zero and a number is never negative nor a NaN *)
Lemma dmax_zero_nonneg x : SFleb dzero (dmax dzero x) = true.
Proof. unfold dmax, SFltb, SFleb. destruct x as [[]|[]| |[] m e]; reflexivity. Qed.

Lemma dmax_zero_cases x : dmax dzero x = dzero ∨ dmax dzero x = x ∧ SFltb dzero x = true.
Proof. unfold dmax. destruct (SFltb dzero x) eqn:E; auto. Qed.
