(* ===== verification/FormatDouble.v ===== *)
(** * The shortest text of a binary number

    [std::format("{}", x)] of a [double] or a [float]: the fewest decimal digits that are read
    back as the same number, in the shorter of the fixed and the scientific notation. *)

From S2P Require Import Prelude Types Doubles.

Section format.
(** the format's precision and exponent bound *)
Context (prec emax : Z).

(** the positive number nearest to [d * 10^k] *)
Definition nearest (d k : Z) : spec_float :=
  match d with
  | Zpos p =>
      if (0 <=? k)%Z then binary_round prec emax false (Z.to_pos (Zpos p * 10 ^ k)) 0
      else
        let '(q, e, l) := SFdiv_core_binary prec emax (Zpos p) 0 (10 ^ (- k)) 0 in
        binary_round_aux prec emax false q e l
  | _ => S754_zero false
  end.

Definition reads_back (m : positive) (e d k : Z) : bool :=
  match nearest d k with
  | S754_finite false m' e' => (m =? m')%positive && (e =? e')%Z
  | _ => false
  end.

(** of the decimals with exponent [k] next to [num / den], the nearer one that is read back *)
Definition digits_at (m : positive) (e num den k : Z) : option Z :=
  let '(a, b) := if (0 <=? k)%Z then (num, den * 10 ^ k)%Z else (num * 10 ^ (- k), den)%Z in
  let q := (a / b)%Z in
  let r := (a mod b)%Z in
  let up := ((b <? 2 * r) || (b =? 2 * r) && Z.odd q)%Z in
  let near := (if up then q + 1 else q)%Z in
  let far := (if up then q else q + 1)%Z in
  if reads_back m e near k then Some near
  else if reads_back m e far k then Some far
  else None.

(** the first of the exponents [k], [k - 1], ... with such a decimal *)
Fixpoint first_digits (fuel : nat) (m : positive) (e num den k : Z) : Z * Z :=
  match fuel with
  | 0 => (0, 0)%Z
  | S fuel =>
      match digits_at m e num den k with
      | Some d => (d, k)
      | None => first_digits fuel m e num den (k - 1)
      end
  end.

Fixpoint drop_zeros (fuel : nat) (d k : Z) : Z * Z :=
  match fuel with
  | 0 => (d, k)
  | S fuel => if (0 <? d)%Z && (d mod 10 =? 0)%Z then drop_zeros fuel (d / 10) (k + 1) else (d, k)
  end.

(** digits without trailing zeros and their exponent; 17 digits are always enough *)
Definition shortest_digits (m : positive) (e : Z) : Z * Z :=
  let '(num, den) := if (0 <=? e)%Z then (Zpos m * 2 ^ e, 1)%Z else (Zpos m, 2 ^ (- e))%Z in
  let top := (Z.of_nat (strlen (pretty num)) - Z.of_nat (strlen (pretty den)))%Z in
  let '(d, k) := first_digits 20 m e num den top in
  drop_zeros 20 d k.

Definition scientific (ds : string) (k : Z) : string :=
  let x := (k + Z.of_nat (strlen ds) - 1)%Z in
  substr ds 0 1 +:+ point_if (sdrop 1 ds) +:+ "e" +:+ (if (x <? 0)%Z then "-" else "+") +:+
  pad_left 2 (pretty (Z.abs x)).

(** a whole number is written exactly *)
Definition fixed (whole : Z) (ds : string) (k : Z) : string :=
  if (0 <=? k)%Z then pretty whole
  else
    let point := (Z.of_nat (strlen ds) + k)%Z in
    if (0 <? point)%Z then stake (Z.to_nat point) ds +:+ "." +:+ sdrop (Z.to_nat point) ds
    else "0." +:+ zeros (Z.to_nat (- point)) +:+ ds.

Definition shortest_text (m : positive) (e : Z) : string :=
  let '(d, k) := shortest_digits m e in
  let ds := pretty d in
  let f := fixed (if (0 <=? e)%Z then Zpos m * 2 ^ e else Zpos m / 2 ^ (- e)) ds k in
  let s := scientific ds k in
  (* as many digits as the fixed notation has, without writing them *)
  let width := (if (0 <=? k)%Z then Z.of_nat (strlen ds) + k else Z.of_nat (strlen f))%Z in
  if (width <=? Z.of_nat (strlen s))%Z then f else s.

Definition format_binary (x : spec_float) : string :=
  let sign (s : bool) := if s then "-" else "" in
  match x with
  | S754_zero s => sign s +:+ "0"
  | S754_infinity s => sign s +:+ "inf"
  | S754_nan => "nan"
  | S754_finite s m e => sign s +:+ shortest_text m e
  end.

(** the digits that are found are read back as the number, and no shorter ones are *)
Lemma first_digits_read_back fuel m e num den k d k' :
  first_digits fuel m e num den k = (d, k') → d ≠ 0%Z →
  reads_back m e d k' = true ∧ ∀ j, (k' < j <= k)%Z → digits_at m e num den j = None.
Proof.
  revert k. induction fuel as [|fuel IH]; intros k; simpl; [by intros [= <- <-]|].
  destruct (digits_at m e num den k) as [d'|] eqn:E.
  - intros [= <- <-] _. split; [|lia]. revert E. unfold digits_at. destruct (if (0 <=? k)%Z then _ else _) as [a b].
    match goal with |- (if ?x then _ else if ?y then _ else _) = _ → _ => destruct x eqn:Ex; [|destruct y eqn:Ey] end.
    + by intros [= <-].
    + by intros [= <-].
    + done.
  - intros H Hd. destruct (IH _ H Hd) as [Hr Hn]. split; [done|]. intros j Hj.
    destruct (decide (j = k)) as [->|]; [done|]. apply Hn. lia.
Qed.
End format.

Definition format_double : double → string := format_binary 53 1024.
Definition format_float : spec_float → string := format_binary 24 128.

Example formatted_doubles :
  map format_double (omap stod ["0.1"; "100"; "100000"; "1234567"; "0.0001"; "0.00001"; "-2.50"; "1e22";
                                "123456.789"; "5e-300"; "1.7976931348623157e308"; "9007199254740993";
                                "1152921504606846976"; "0.30000000000000004"; "12000000"]) =
  ["0.1"; "100"; "1e+05"; "1234567"; "1e-04"; "1e-05"; "-2.5"; "1e+22";
   "123456.789"; "5e-300"; "1.7976931348623157e+308"; "9007199254740992";
   "1152921504606846976"; "0.30000000000000004"; "1.2e+07"].
Proof. vm_compute. reflexivity. Qed.

(** the smallest double *)
Example formatted_smallest : format_double (S754_finite false 1 (-1074)) = "5e-324".
Proof. vm_compute. reflexivity. Qed.

Example formatted_floats :
  map (λ x, format_float (binary_normalize 24 128 (fst x) (snd x) false))
    [(13421773, -27)%Z; (1, 0)%Z; (5, -1)%Z; (16777217, 0)%Z; (1, 40)%Z] =
  ["0.1"; "1"; "2.5"; "16777216"; "1099511627776"].
Proof. vm_compute. reflexivity. Qed.
