(* ===== verification/Regex.v ===== *)
(** * Regular expressions

    The fragment of [std::regex] (ECMAScript) that [src/explain.cpp] uses: characters,
    greedy [[class]+], sequence, greedy option and numbered groups, with the backtracking
    search order of the standard, [regex_search] and [regex_replace] by nothing. *)

From S2P Require Import Prelude.

Inductive regex :=
  | REmpty
  | RChar (c : ascii)
  | RPlus (p : ascii → bool)
  | RSeq (r1 r2 : regex)
  | ROpt (r : regex)
  | RGroup (n : nat) (r : regex).

Fixpoint rlit (s : string) : regex :=
  match s with
  | EmptyString => REmpty
  | String c s => RSeq (RChar c) (rlit s)
  end.

Declare Scope regex_scope.
Delimit Scope regex_scope with re.
Infix "⋅" := RSeq (at level 40, left associativity) : regex_scope.

(** what the groups matched, the latest first *)
Notation captures := (list (nat * string)).

Definition captured (n : nat) (cs : captures) : option string :=
  match list_find (λ c, fst c = n) cs with Some (_, (_, t)) => Some t | None => None end.

(** the text consumed between a suffix and a later one *)
Definition consumed (s s' : string) : string := stake (strlen s - strlen s') s.

(** [k] at the longest run of [p] first, then at the shorter ones *)
Fixpoint greedy {A} (p : ascii → bool) (s : string) (k : string → option A) : option A :=
  match s with
  | String c s1 =>
      if p c then match greedy p s1 k with Some x => Some x | None => k s end else k s
  | EmptyString => k s
  end.

(** backtracking: the first way of matching a prefix of [s] that [k] accepts *)
Fixpoint rmatch {A} (r : regex) (s : string) (cs : captures) (k : string → captures → option A)
    : option A :=
  match r with
  | REmpty => k s cs
  | RChar c =>
      match s with
      | String c' s' => if (c' =? c)%char then k s' cs else None
      | EmptyString => None
      end
  | RPlus p =>
      match s with
      | String c s' => if p c then greedy p s' (λ s', k s' cs) else None
      | EmptyString => None
      end
  | RSeq r1 r2 => rmatch r1 s cs (λ s' cs', rmatch r2 s' cs' k)
  | ROpt r =>
      match rmatch r s cs k with Some x => Some x | None => k s cs end
  | RGroup n r => rmatch r s cs (λ s' cs', k s' ((n, consumed s s') :: cs'))
  end.

Definition match_here (r : regex) (s : string) : option (nat * captures) :=
  rmatch r s [] (λ s' cs, Some (strlen s - strlen s', cs)).

(** [regex_search]: the leftmost position that matches *)
Fixpoint regex_search (r : regex) (s : string) : option captures :=
  match match_here r s with
  | Some (_, cs) => Some cs
  | None => match s with String _ s' => regex_search r s' | EmptyString => None end
  end.

(** [regex_replace(s, r, "")]; [skip] bytes of the match found last are still to drop *)
Fixpoint remove_matches (r : regex) (skip : nat) (s : string) : string :=
  match s with
  | EmptyString => EmptyString
  | String c s' =>
      match skip with
      | S skip => remove_matches r skip s'
      | 0 =>
          match match_here r s with
          | Some (S n, _) => remove_matches r n s'
          | _ => String c (remove_matches r 0 s')
          end
      end
  end.
Definition regex_remove (r : regex) (s : string) : string := remove_matches r 0 s.

(** ** What matching means *)

Inductive matches : regex → string → captures → string → captures → Prop :=
  | m_empty s cs : matches REmpty s cs s cs
  | m_char c s cs : matches (RChar c) (String c s) cs s cs
  | m_plus p run s cs : run ≠ "" → sall p run = true → matches (RPlus p) (run +:+ s) cs s cs
  | m_seq r1 r2 s cs s1 cs1 s2 cs2 :
      matches r1 s cs s1 cs1 → matches r2 s1 cs1 s2 cs2 → matches (RSeq r1 r2) s cs s2 cs2
  | m_none r s cs : matches (ROpt r) s cs s cs
  | m_some r s cs s' cs' : matches r s cs s' cs' → matches (ROpt r) s cs s' cs'
  | m_group n r s cs s' cs' :
      matches r s cs s' cs' → matches (RGroup n r) s cs s' ((n, consumed s s') :: cs').

Lemma greedy_sound {A} p s (k : string → option A) x :
  greedy p s k = Some x → ∃ run s', s = run +:+ s' ∧ sall p run = true ∧ k s' = Some x.
Proof.
  induction s as [|c s IH]; simpl; intros H; [by exists "", ""|].
  destruct (p c) eqn:Hp; [|by exists "", (String c s)].
  destruct (greedy p s k) as [y|] eqn:E; [|by exists "", (String c s)].
  destruct (IH H) as (run & s' & -> & Hr & Hk).
  exists (String c run), s'. simpl. by rewrite Hp.
Qed.

Lemma greedy_complete {A} p run s' (k : string → option A) :
  sall p run = true → is_Some (k s') → is_Some (greedy p (run +:+ s') k).
Proof.
  intros Hr Hk. induction run as [|c run IH]; simpl in *.
  - destruct s' as [|c s]; [done|]. simpl. destruct (p c); [|done].
    by destruct (greedy p s k).
  - apply andb_prop in Hr as [-> Hr]. by destruct (IH Hr) as [x ->].
Qed.

(** a run taken by [greedy] is as long as the continuation allows *)
Lemma greedy_longest {A} p s (k : string → option A) x :
  greedy p s k = Some x →
  ∃ run s', s = run +:+ s' ∧ sall p run = true ∧ k s' = Some x ∧
    ∀ more s2, s' = more +:+ s2 → more ≠ "" → sall p more = true → k s2 = None.
Proof.
  induction s as [|c s IH]; simpl; intros H.
  { exists "", "". repeat split; [done|]. by intros [|c more] s2. }
  assert (p c = false ∨ greedy p s k = None → k (String c s) = Some x →
    ∃ run s', String c s = run +:+ s' ∧ sall p run = true ∧ k s' = Some x ∧
      ∀ more s2, s' = more +:+ s2 → more ≠ "" → sall p more = true → k s2 = None) as Hhere.
  { intros Hno Hk. exists "", (String c s). repeat split; [done|].
    intros [|d more] s2 Heq Hne Hm; [done|]. simpl in Heq, Hm. injection Heq as <- ->. apply andb_prop in Hm as [Hd Hm].
    destruct Hno as [Hno|Hno]; [congruence|].
    destruct (k s2) eqn:E; [|done].
    destruct (greedy_complete p more s2 k) as [? ?]; [done|by rewrite E|congruence]. }
  destruct (p c) eqn:Hp; [|by apply Hhere; [left|]].
  destruct (greedy p s k) as [y|] eqn:E; [|by apply Hhere; [right|]].
  destruct (IH H) as (run & s' & -> & Hr & Hk & Hl).
  exists (String c run), s'. simpl. by rewrite Hp.
Qed.

Lemma rmatch_sound {A} r s cs (k : string → captures → option A) x :
  rmatch r s cs k = Some x → ∃ s' cs', matches r s cs s' cs' ∧ k s' cs' = Some x.
Proof.
  revert s cs k x. induction r as [|c|p|r1 IH1 r2 IH2|r IH|n r IH]; simpl; intros s cs k x H.
  - eauto using matches.
  - destruct s as [|c' s]; [done|]. destruct (c' =? c)%char eqn:E; [|done].
    apply char_eqb_true in E as ->. eauto using matches.
  - destruct s as [|c s]; [done|]. destruct (p c) eqn:Hp; [|done].
    destruct (greedy_sound _ _ _ _ H) as (run & s' & -> & Hr & Hk).
    exists s', cs. split; [|done]. apply (m_plus p (String c run)); [done|]. simpl. by rewrite Hp.
  - destruct (IH1 _ _ _ _ H) as (s1 & cs1 & Hm1 & H2).
    destruct (IH2 _ _ _ _ H2) as (s2 & cs2 & Hm2 & Hk). eauto using matches.
  - destruct (rmatch r s cs k) eqn:E; [|eauto using matches].
    simplify_eq. destruct (IH _ _ _ _ E) as (? & ? & ? & ?). eauto using matches.
  - destruct (IH _ _ _ _ H) as (? & ? & ? & ?). eauto using matches.
Qed.

Lemma rmatch_complete {A} r s cs s' cs' (k : string → captures → option A) :
  matches r s cs s' cs' → is_Some (k s' cs') → is_Some (rmatch r s cs k).
Proof.
  intros Hm. revert k. induction Hm as [|c s cs|p run s cs Hne Hr|r1 r2 s cs s1 cs1 s2 cs2 _ IH1 _ IH2|
    r s cs|r s cs s' cs' _ IH|n r s cs s' cs' _ IH]; simpl; intros k Hk.
  - done.
  - by rewrite char_eqb_refl.
  - destruct run as [|c run]; [done|]. simpl in *. apply andb_prop in Hr as [-> Hr].
    by apply greedy_complete.
  - apply IH1. by apply IH2.
  - by destruct (rmatch r s cs k).
  - by destruct (IH k Hk) as [x ->].
  - by apply IH.
Qed.

(** whether there is a match does not depend on the groups before it *)
Lemma matches_captures r s cs s' cs' cs2 :
  matches r s cs s' cs' → ∃ cs2', matches r s cs2 s' cs2'.
Proof.
  intros Hm. revert cs2. induction Hm as [| | |r1 r2 s cs s1 cs1 s2 cs2 _ IH1 _ IH2| |r s cs s' cs' _ IH|
    n r s cs s' cs' _ IH]; intros cs0.
  1-3,5: by eexists; eauto using matches.
  - destruct (IH1 cs0) as [c1 H1]. destruct (IH2 c1) as [c2 H2]. eauto using matches.
  - destruct (IH cs0) as [? ?]. eauto using matches.
  - destruct (IH cs0) as [? ?]. eauto using matches.
Qed.

Lemma matches_lit s1 s cs s' cs' :
  matches (rlit s1) s cs s' cs' ↔ s = s1 +:+ s' ∧ cs' = cs.
Proof.
  revert s cs. induction s1 as [|c s1 IH]; simpl; intros s cs; split.
  - inversion 1; by subst.
  - intros [-> ->]. constructor.
  - inversion 1 as [| | |? ? ? ? ? ? ? ? H1 H2| | |]; subst. inversion H1; subst.
    by apply IH in H2 as [-> ->].
  - intros [-> ->]. econstructor; [constructor|]. by apply IH.
Qed.

Lemma matches_seq r1 r2 s cs s2 cs2 :
  matches (RSeq r1 r2) s cs s2 cs2 ↔
  ∃ s1 cs1, matches r1 s cs s1 cs1 ∧ matches r2 s1 cs1 s2 cs2.
Proof. split; [inversion 1; eauto|intros (? & ? & ? & ?); by econstructor]. Qed.

Lemma matches_group_plus n p s cs s' cs' :
  matches (RGroup n (RPlus p)) s cs s' cs' →
  ∃ run, s = run +:+ s' ∧ run ≠ "" ∧ sall p run = true ∧ cs' = (n, consumed s s') :: cs.
Proof. inversion 1 as [| | | | | |? ? ? ? ? ? Hm]; subst. inversion Hm; subst. eauto 6. Qed.

Example search_group :
  captured 1 <$> regex_search (rlit "(n=" ⋅ RGroup 1 (RPlus isdigit) ⋅ rlit ")")%re "x (n=) (n=42)"
  = Some (Some "42").
Proof. reflexivity. Qed.
Example remove_group :
  regex_remove (rlit "(n=" ⋅ RGroup 1 (RPlus isdigit) ⋅ rlit ")")%re "a(n=4)b(n=12)c" = "abc".
Proof. reflexivity. Qed.
