(* ===== verification/Explain.v ===== *)
(** * Query plans

    [src/explain.cpp]: the EXPLAIN statement of a dialect, and its result as one tree for
    PostgreSQL (JSON), MySQL (indented text) and SQLite (rows that name their parent).

    nlohmann's parser and printer are parameters ([JsonLib]); its values and their look-ups
    are modelled.  A C++ exception is a value of [exn]. *)

From S2P Require Import Prelude Types ConnectionInfo Doubles Regex.

(** ** Exceptions *)

Inductive exn :=
  | TypeError        (* nlohmann::json::type_error *)
  | ConversionError  (* std::invalid_argument, std::out_of_range *)
  | Diverges.        (* a recursion that does not end: the stack overflows *)

Definition R (A : Type) : Type := (exn + A)%type.

#[export] Instance R_ret : MRet R := λ A x, inr x.
#[export] Instance R_bind : MBind R := λ A B f m, match m with inl e => inl e | inr x => f x end.

Definition stod_throws (s : string) : R double :=
  match stod s with Some x => inr x | None => inl ConversionError end.

(** ** Plans *)

Inductive PlanNode := mkNode {
  pn_operation : string;
  pn_detail : string;
  pn_estimatedRows : option double;
  pn_cost : option double;
  pn_actualRows : option double;
  pn_loops : option double;
  pn_totalTimeMs : option double;
  pn_selfTimeMs : option double;
  pn_properties : list (string * string);
  pn_children : list PlanNode
}.

Record Plan := mkPlan {
  pl_root : PlanNode;
  pl_analyzed : bool;
  pl_planningTimeMs : option double;
  pl_executionTimeMs : option double;
  pl_raw : string
}.

(** [PlanNode{.operation = op}] *)
Definition named_node (op : string) : PlanNode :=
  mkNode op "" None None None None None None [] [].

Definition set_children (cs : list PlanNode) (n : PlanNode) : PlanNode :=
  mkNode (pn_operation n) (pn_detail n) (pn_estimatedRows n) (pn_cost n) (pn_actualRows n)
    (pn_loops n) (pn_totalTimeMs n) (pn_selfTimeMs n) (pn_properties n) cs.

Definition set_operation (op : string) (n : PlanNode) : PlanNode :=
  mkNode op (pn_detail n) (pn_estimatedRows n) (pn_cost n) (pn_actualRows n)
    (pn_loops n) (pn_totalTimeMs n) (pn_selfTimeMs n) (pn_properties n) (pn_children n).

(** ** Shared helpers *)

Definition ends_statement (c : ascii) : bool := isspace c || (c =? ";")%char.

Definition trimStatement (sql : string) : string := rstrip ends_statement (lstrip isspace sql).

(** the first cell of every row that has one, a line each *)
Definition firstColumn (r : StatementResult) : string :=
  join_acc (str1 newline) (omap head (sr_tableData r)).

(** the time a node took without its children *)
Definition self_time (total : double) (children : list PlanNode) : double :=
  dmax dzero
    (dsub total (foldl (λ acc c, dadd acc (default dzero (pn_totalTimeMs c))) dzero children)).

Fixpoint fillSelfTimes (node : PlanNode) : PlanNode :=
  match node with
  | mkNode op detail erows cost arows loops total self props children =>
      let children := map fillSelfTimes children in
      mkNode op detail erows cost arows loops total
        (match total with Some t => Some (self_time t children) | None => self end)
        props children
  end.

(** ** PostgreSQL *)

(** a parsed JSON document; the members of an object are in key order ([std::map]) *)
Inductive json :=
  | JNull
  | JBool (b : bool)
  | JInt (z : Z)
  | JFloat (x : double)
  | JString (s : string)
  | JArray (l : list json)
  | JObject (l : list (string * json)).

Record JsonLib := mkJsonLib {
  (** [json::parse(text, nullptr, false)]: nothing when the text is discarded *)
  json_parse : string → option json;
  (** [dump()] and [dump(2)] *)
  json_dump : json → string;
  json_dump2 : json → string
}.

Fixpoint json_lookup (key : string) (l : list (string * json)) : option json :=
  match l with
  | [] => None
  | (k, v) :: l => if (k =? key)%string then Some v else json_lookup key l
  end.

(** [find]: the end for a value that is no object *)
Definition json_find (key : string) (j : json) : option json :=
  match j with JObject l => json_lookup key l | _ => None end.

(** [j.value(key, "...")] and [j.value(key, false)]: the default when the key is missing, an
    exception when [j] is no object or the member has another type *)
Definition value_string (j : json) (key dflt : string) : R string :=
  match j with
  | JObject l =>
      match json_lookup key l with
      | None => mret dflt
      | Some (JString s) => mret s
      | Some _ => inl TypeError
      end
  | _ => inl TypeError
  end.

Definition value_bool (j : json) (key : string) (dflt : bool) : R bool :=
  match j with
  | JObject l =>
      match json_lookup key l with
      | None => mret dflt
      | Some (JBool b) => mret b
      | Some _ => inl TypeError
      end
  | _ => inl TypeError
  end.

Definition number (node : json) (key : string) : option double :=
  match json_find key node with
  | Some (JInt z) => Some (double_of_Z z)
  | Some (JFloat x) => Some x
  | _ => None
  end.

Section postgres.
Context (lib : JsonLib).

Fixpoint scalarText (v : json) : string :=
  match v with
  | JString s => s
  | JArray l => join_acc ", " (map scalarText l)
  | JFloat x => double_text x
  | _ => json_dump lib v
  end.

(** the operation as PostgreSQL's text output names it *)
Definition join_name (op joinType : string) : string :=
  if sempty joinType || (joinType =? "Inner")%string then op
  else
    match find_str " Join" op 0 with
    | None => op +:+ " " +:+ joinType +:+ " Join"
    | Some pos => substr op 0 pos +:+ " " +:+ joinType +:+ sdrop pos op
    end.

Definition aggregate_name (op strategy : string) : string :=
  if (strategy =? "Hashed")%string then "HashAggregate"
  else if (strategy =? "Sorted")%string then "GroupAggregate"
  else op.

Definition node_operation (j : json) : R string :=
  op ← value_string j "Node Type" "?";
  joinType ← value_string j "Join Type" "";
  let op := join_name op joinType in
  op ← (if (op =? "Aggregate")%string
        then strategy ← value_string j "Strategy" ""; mret (aggregate_name op strategy)
        else mret op);
  parallelAware ← value_bool j "Parallel Aware" false;
  mret (if (parallelAware : bool) then "Parallel " +:+ op else op).

Definition node_target (j : json) : R string :=
  rel ← value_string j "Relation Name" "";
  if negb (sempty rel) then
    alias ← value_string j "Alias" "";
    mret ("on " +:+ rel +:+
          (if negb (sempty alias) && negb (alias =? rel)%string then " " +:+ alias else ""))
  else
    cte ← value_string j "CTE Name" "";
    if negb (sempty cte) then mret ("on " +:+ cte)
    else
      fn ← value_string j "Function Name" "";
      mret (if negb (sempty fn) then "on " +:+ fn +:+ "()" else "").

Definition node_detail (j : json) : R string :=
  detail ← node_target j;
  index ← value_string j "Index Name" "";
  mret (if negb (sempty index)
        then detail +:+ ((if sempty detail then "using " else " using ") +:+ index)
        else detail).

Definition node_total (j : json) (parallel : bool) : option double :=
  perLoop ← number j "Actual Total Time";
  Some (if parallel then perLoop else dmul perLoop (default done1 (number j "Actual Loops"))).

Definition shown : list string :=
  ["Node Type"; "Join Type"; "Strategy"; "Parallel Aware"; "Relation Name"; "Alias"; "CTE Name";
   "Function Name"; "Index Name"; "Plan Rows"; "Total Cost"; "Actual Rows"; "Actual Total Time";
   "Actual Loops"; "Plans"; "Startup Cost"; "Actual Startup Time"; "Async Capable"].

Definition node_properties (j : json) : list (string * string) :=
  match j with
  | JObject l =>
      map (λ '(key, value), (key, scalarText value)) (filter (λ '(key, _), key ∉ shown) l)
  | _ => []
  end.

(** the flag the children of [j] are parsed with *)
Definition child_parallel (j : json) (parallel : bool) : R bool :=
  if parallel then mret true
  else nodeType ← value_string j "Node Type" ""; mret (starts_with "Gather" nodeType).

Section children.
Context (parse : json → R PlanNode).

(** the loop over the array "Plans", when there is one *)
Fixpoint plans_of (l : list (string * json)) : R (list PlanNode) :=
  match l with
  | [] => mret []
  | (key, v) :: l =>
      if (key =? "Plans")%string
      then match v with JArray plans => mapM parse plans | _ => mret [] end
      else plans_of l
  end.
End children.

Fixpoint postgresNode (j : json) (parallel : bool) : R PlanNode :=
  operation ← node_operation j;
  detail ← node_detail j;
  children ← match j with
             | JObject l =>
                 plans_of (λ child, p ← child_parallel j parallel; postgresNode child p) l
             | _ => mret []
             end;
  mret (mkNode operation detail (number j "Plan Rows") (number j "Total Cost")
          (number j "Actual Rows") (number j "Actual Loops") (node_total j parallel) None
          (node_properties j) children).

Definition top_object (doc : json) : option json :=
  match doc with
  | JArray (JObject l :: _) => Some (JObject l)
  | JObject l => Some (JObject l)
  | _ => None
  end.

Definition parsePostgres (r : StatementResult) (analyzed : bool) : R (option Plan) :=
  match json_parse lib (firstColumn r) with
  | None => mret None
  | Some doc =>
      match top_object doc with
      | None => mret None
      | Some top =>
          match json_find "Plan" top with
          | None => mret None
          | Some plan =>
              root ← postgresNode plan false;
              mret (Some (mkPlan root analyzed (number top "Planning Time")
                            (number top "Execution Time") (json_dump2 lib doc)))
          end
      end
  end.
End postgres.

(** ** MySQL *)

Definition number_char (c : ascii) : bool :=
  isdigit c || (c =? ".")%char || (c =? "e")%char || (c =? "+")%char || (c =? "-")%char.

Local Open Scope regex_scope.
Definition number_group (n : nat) : regex := RGroup n (RPlus number_char).
Definition costRe : regex :=
  rlit "(cost=" ⋅ number_group 1 ⋅ ROpt (rlit ".." ⋅ number_group 2) ⋅
  rlit " rows=" ⋅ number_group 3 ⋅ rlit ")".
Definition actualRe : regex :=
  rlit "(actual time=" ⋅ number_group 1 ⋅ rlit ".." ⋅ number_group 2 ⋅
  rlit " rows=" ⋅ number_group 3 ⋅ rlit " loops=" ⋅ number_group 4 ⋅ rlit ")".
Definition neverRe : regex := rlit "(never executed)".
Local Close Scope regex_scope.

Definition is_blank (c : ascii) : bool := (c =? " ")%char.

Definition group_text (n : nat) (m : captures) : string := default "" (captured n m).

(** the node a line describes, from the text after its arrow *)
Definition mysql_node (text : string) : R PlanNode :=
  '(cost, estimated) ←
    match regex_search costRe text with
    | Some m =>
        cost ← stod_throws (match captured 2 m with Some t => t | None => group_text 1 m end);
        rows ← stod_throws (group_text 3 m);
        mret (Some cost, Some rows)
    | None => mret (None, None)
    end;
  '(actual, loops, total) ←
    match regex_search actualRe text with
    | Some m =>
        rows ← stod_throws (group_text 3 m);
        loops ← stod_throws (group_text 4 m);
        last ← stod_throws (group_text 2 m);
        mret (Some rows, Some loops, Some (dmul last loops))
    | None =>
        match regex_search neverRe text with
        | Some _ => mret (Some dzero, Some dzero, Some dzero)
        | None => mret (None, None, None)
        end
    end;
  let text := regex_remove neverRe (regex_remove actualRe (regex_remove costRe text)) in
  mret (mkNode (rstrip is_blank text) "" estimated cost actual loops total None [] []).

(** [flat.back().second.operation += suffix] *)
Fixpoint append_to_last (suffix : string) (flat : list (Z * PlanNode)) : list (Z * PlanNode) :=
  match flat with
  | [] => []
  | [(d, n)] => [(d, set_operation (pn_operation n +:+ suffix) n)]
  | x :: flat => x :: append_to_last suffix flat
  end.

(** one line of the plan: a node, or the continuation of the node above *)
Definition mysql_line (flat : list (Z * PlanNode)) (line : string) : R (list (Z * PlanNode)) :=
  match find_str "-> " line 0 with
  | None =>
      let text := lstrip is_blank line in
      mret (if sempty text then flat else append_to_last (" " +:+ text) flat)
  | Some arrow =>
      node ← mysql_node (sdrop (arrow + 3) line);
      mret (flat ++ [(to_int (Z.of_nat arrow), node)])
  end.

Fixpoint mysql_lines (flat : list (Z * PlanNode)) (lines : list string)
    : R (list (Z * PlanNode)) :=
  match lines with
  | [] => mret flat
  | line :: lines => flat ← mysql_line flat line; mysql_lines flat lines
  end.

(** a [PlanNode*] is the path of child indices from the root *)
Notation node_ptr := (list nat).

Fixpoint node_at (p : node_ptr) (n : PlanNode) : option PlanNode :=
  match p with
  | [] => Some n
  | i :: p => pn_children n !! i ≫= node_at p
  end.

Fixpoint update_at (p : node_ptr) (f : PlanNode → PlanNode) (n : PlanNode) : PlanNode :=
  match p with
  | [] => f n
  | i :: p => set_children (alter (update_at p f) i (pn_children n)) n
  end.

(** [p->children.push_back(child)] *)
Definition add_child (child n : PlanNode) : PlanNode :=
  set_children (pn_children n ++ [child]) n.
Definition push_child (p : node_ptr) (child : PlanNode) : PlanNode → PlanNode :=
  update_at p (add_child child).

(** [while (stack.back().first >= depth) stack.pop_back();], the stack's back first *)
Fixpoint pop_deeper {A} (depth : Z) (stack : list (Z * A)) : list (Z * A) :=
  match stack with
  | [] => []
  | (d, x) :: below => if (depth <=? d)%Z then pop_deeper depth below else stack
  end.

(** one node of the indentation loop; the stack never runs empty, its bottom is at -1 *)
Definition indent_step (st : PlanNode * list (Z * node_ptr)) (x : Z * PlanNode)
    : PlanNode * list (Z * node_ptr) :=
  let '(root, stack) := st in
  let '(depth, node) := x in
  match pop_deeper depth stack with
  | [] => st
  | (d, parent) :: below =>
      let root' := push_child parent node root in
      let back := pred (length (from_option pn_children [] (node_at parent root'))) in
      (root', (depth, parent ++ [back]) :: (d, parent) :: below)
  end.

Definition indent_tree (flat : list (Z * PlanNode)) : PlanNode :=
  fst (foldl indent_step (named_node "Query", [((-1)%Z, [])]) flat).

(** a root of one child is that child *)
Definition single_root (root : PlanNode) : PlanNode :=
  match pn_children root with [child] => child | _ => root end.

Definition parseMysqlTree (r : StatementResult) (analyzed : bool) : R (option Plan) :=
  let raw := firstColumn r in
  flat ← mysql_lines [] (getlines newline raw);
  mret (match flat with
        | [] => None
        | _ => Some (mkPlan (single_root (indent_tree flat)) analyzed None None raw)
        end).

(** ** SQLite *)

Record Row := mkRow { row_id : Z; row_parent : Z; row_detail : string }.

(** the rows of four cells; [None] when an id is no number *)
Fixpoint sqlite_rows (data : list (list string)) : option (list Row) :=
  match data with
  | [] => Some []
  | (id :: parent :: _ :: detail :: _) :: data =>
      id ← stol id;
      parent ← stol parent;
      rows ← sqlite_rows data;
      Some (mkRow id parent detail :: rows)
  | _ :: data => sqlite_rows data
  end.

Fixpoint spaces (n : nat) : string :=
  match n with 0 => EmptyString | S n => String " " (spaces n) end.

(** one row of the loop over all of them; [descend] is the recursive call *)
Definition build_row (descend : Z → string → R (string * list PlanNode)) (parent : Z)
    (depth : nat) (st : R (string * list PlanNode)) (row : Row) : R (string * list PlanNode) :=
  '(raw, out) ← st;
  if (row_parent row =? parent)%Z && negb (row_id row =? parent)%Z then
    let raw := raw +:+ (spaces (depth * 2) +:+ row_detail row +:+ str1 newline) in
    '(raw, children) ← descend (row_id row) raw;
    mret (raw, out ++ [set_children children (named_node (row_detail row))])
  else mret (raw, out).

Section sqlite.
Context (rows : list Row).

(** the recursion on ids; [fuel] bounds the depth of the calls, the text is [plan.raw] *)
Fixpoint build (fuel : nat) (parent : Z) (depth : nat) (raw : string)
    : R (string * list PlanNode) :=
  match fuel with
  | 0 => inl Diverges
  | S fuel =>
      foldl (build_row (λ id raw, build fuel id (S depth) raw) parent depth) (mret (raw, [])) rows
  end.
End sqlite.

Definition parseSqlite (r : StatementResult) : R (option Plan) :=
  if length (sr_columnNames r) <? 4 then mret None
  else
    match sqlite_rows (sr_tableData r) with
    | None | Some [] => mret None
    | Some rows =>
        '(raw, top) ← build rows (S (length rows)) 0 0 "";
        mret (match top with
              | [] => None
              | [root] => Some (mkPlan root false None None raw)
              | _ => Some (mkPlan (set_children top (named_node "QUERY PLAN")) false None None raw)
              end)
    end.

(** ** The interface *)

Definition explainSql (type : DatabaseType) (statement : string) (analyze : bool)
    : option string :=
  let stmt := trimStatement statement in
  if sempty stmt then None
  else
    match type with
    | POSTGRESQL =>
        Some ((if analyze then "EXPLAIN (ANALYZE, BUFFERS, FORMAT JSON) "
               else "EXPLAIN (FORMAT JSON) ") +:+ stmt)
    | MYSQL => Some ((if analyze then "EXPLAIN ANALYZE " else "EXPLAIN FORMAT=TREE ") +:+ stmt)
    | SQLITE => if analyze then None else Some ("EXPLAIN QUERY PLAN " +:+ stmt)
    | _ => None
    end.

Definition supportsExplainAnalyze (type : DatabaseType) : bool :=
  (type =t? POSTGRESQL) || (type =t? MYSQL).

Definition fill_plan (p : Plan) : Plan :=
  mkPlan (fillSelfTimes (pl_root p)) (pl_analyzed p) (pl_planningTimeMs p)
    (pl_executionTimeMs p) (pl_raw p).

Definition parsePlan (lib : JsonLib) (type : DatabaseType) (result : StatementResult)
    (analyzed : bool) : R (option Plan) :=
  if negb (sr_success result) || bool_decide (sr_tableData result = []) then mret None
  else
    plan ← match type with
           | POSTGRESQL => parsePostgres lib result analyzed
           | MYSQL => parseMysqlTree result analyzed
           | SQLITE => parseSqlite result
           | _ => mret None
           end;
    mret (fill_plan <$> plan).
