(* ===== verification/ExplainSql.v ===== *)
(** * The EXPLAIN statement

    [explainSql] of [src/explain.cpp] puts a prefix before one statement.  Read by the
    engine's dialect the result is the prefix's tokens and the statement's, nothing else. *)

From S2P Require Import Prelude Types ConnectionInfo Lexer Quoting Explain.

(** the lexemes before the statement; none for an engine without plans *)
Definition explain_head (type : DatabaseType) (analyze : bool) : option (list (Tok * string)) :=
  let punct c := (TPunct, c) in
  match type, analyze with
  | POSTGRESQL, false =>
      Some (words ["EXPLAIN"] ++ [punct "("] ++ words ["FORMAT"; "JSON"] ++ [punct ")"])
  | POSTGRESQL, true =>
      Some (words ["EXPLAIN"] ++ [punct "("] ++ words ["ANALYZE"] ++ [punct ","] ++
            words ["BUFFERS"] ++ [punct ","] ++ words ["FORMAT"; "JSON"] ++ [punct ")"])
  | MYSQL, true => Some (words ["EXPLAIN"; "ANALYZE"])
  | MYSQL, false => Some (words ["EXPLAIN"; "FORMAT"] ++ [(TOp, "=")] ++ words ["TREE"])
  | SQLITE, false => Some (words ["EXPLAIN"; "QUERY"; "PLAN"])
  | _, _ => None
  end.

(** a space before a text is as good as nothing *)
Lemma lexemes_after_space d s : lexemes d (Some " "%char) s = lexemes d None s.
Proof.
  unfold lexemes. destruct s as [|c s]; [done|]. cbn [String.length tokenize_from].
  destruct (isspace c); [done|].
  assert (lex_token d (Some " "%char) 0 (String c s) = lex_token d None 0 (String c s)) as ->; [|done].
  unfold lex_token. cbn. by rewrite !andb_true_r.
Qed.

(** a text that cannot go on with the word before it *)
Definition starts_off_word (rest : string) : bool :=
  match rest with
  | EmptyString => true
  | String c _ => negb (isIdentByte c) && negb (c =? "#")%char
  end.

Lemma head_word d w rest l p :
  plain_word w = true → starts_off_word rest = true →
  (∀ p, lexemes d p rest = l) → lexemes d p (w +:+ rest) = (TWord, w) :: l.
Proof.
  intros Hw Hr Hl. destruct w as [|c w]; [done|]. apply andb_true_iff in Hw as [Hc Hw].
  destruct (lexemes_word d p c w rest Hc Hw) as [q ->]; [|by rewrite Hl].
  destruct rest as [|c' r]; [done|]. simpl in Hr. apply andb_prop in Hr as [H1 H2].
  apply negb_true_iff in H1, H2. simpl. by rewrite H1, H2, andb_false_r.
Qed.

Lemma head_space d p rest l : lexemes d (Some " "%char) rest = l → lexemes d p (" " +:+ rest) = l.
Proof. by rewrite lexemes_space. Qed.

Lemma head_char d p c rest l :
  inWords ["("; ")"; ","; "="] (str1 c) = true → (∀ p, lexemes d p rest = l) →
  lexemes d p (str1 c +:+ rest) = ((if (c =? "=")%char then TOp else TPunct), str1 c) :: l.
Proof.
  intros Hc Hl. rewrite (lexemes_cons _ _ c "" _
    (mkToken (if (c =? "=")%char then TOp else TPunct) 0 1 true false (str1 c))); [by rewrite Hl|..];
    apply inWords_elem in Hc; repeat (apply elem_of_cons in Hc as [[= ->]|Hc]);
    try (by apply elem_of_nil in Hc); try done.
  all: unfold lex_token; by destruct d as [[] [] [] [] [] [] []].
Qed.

(** a prefix as words, single characters and spaces *)
Inductive piece := PWord (w : string) | PChar (c : ascii) | PSpace.

Fixpoint pieces_text (ps : list piece) (rest : string) : string :=
  match ps with
  | [] => rest
  | PWord w :: ps => w +:+ pieces_text ps rest
  | PChar c :: ps => str1 c +:+ pieces_text ps rest
  | PSpace :: ps => " " +:+ pieces_text ps rest
  end.

Fixpoint pieces_lexemes (ps : list piece) : list (Tok * string) :=
  match ps with
  | [] => []
  | PWord w :: ps => (TWord, w) :: pieces_lexemes ps
  | PChar c :: ps => ((if (c =? "=")%char then TOp else TPunct), str1 c) :: pieces_lexemes ps
  | PSpace :: ps => pieces_lexemes ps
  end.

(** words apart from each other, and a space at the end *)
Fixpoint pieces_ok (ps : list piece) : bool :=
  match ps with
  | [] => false
  | PWord w :: ps =>
      plain_word w && match ps with (PChar _ | PSpace) :: _ => pieces_ok ps | _ => false end
  | PChar c :: ps => inWords ["("; ")"; ","; "="] (str1 c) && pieces_ok ps
  | [PSpace] => true
  | PSpace :: ps => pieces_ok ps
  end.

Lemma pieces_lex d ps rest p :
  pieces_ok ps = true →
  lexemes d p (pieces_text ps rest) = pieces_lexemes ps ++ lexemes d (Some " "%char) rest.
Proof.
  revert p. induction ps as [|[w|c|] ps IH]; intros p Hok; [done|..].
  - apply andb_prop in Hok as [Hw Hok]. destruct ps as [|[|c|] ps]; try done.
    + apply head_word; [done| |intros q; by apply IH].
      cbn [pieces_ok] in Hok. apply andb_prop in Hok as [Hc _]. apply inWords_elem in Hc.
      repeat (apply elem_of_cons in Hc as [[= ->]|Hc]); [done..|by apply elem_of_nil in Hc].
    + apply head_word; [done|done|intros q; by apply IH].
  - apply andb_prop in Hok as [Hc Hok]. apply head_char; [done|intros q; by apply IH].
  - apply head_space. destruct ps as [|x ps]; [done|]. by apply IH.
Qed.

Definition explain_pieces (type : DatabaseType) (analyze : bool) : option (list piece) :=
  match type, analyze with
  | POSTGRESQL, true =>
      Some [PWord "EXPLAIN"; PSpace; PChar "("; PWord "ANALYZE"; PChar ","; PSpace;
            PWord "BUFFERS"; PChar ","; PSpace; PWord "FORMAT"; PSpace; PWord "JSON"; PChar ")";
            PSpace]
  | POSTGRESQL, false =>
      Some [PWord "EXPLAIN"; PSpace; PChar "("; PWord "FORMAT"; PSpace; PWord "JSON"; PChar ")";
            PSpace]
  | MYSQL, true => Some [PWord "EXPLAIN"; PSpace; PWord "ANALYZE"; PSpace]
  | MYSQL, false =>
      Some [PWord "EXPLAIN"; PSpace; PWord "FORMAT"; PChar "="; PWord "TREE"; PSpace]
  | SQLITE, false =>
      Some [PWord "EXPLAIN"; PSpace; PWord "QUERY"; PSpace; PWord "PLAN"; PSpace]
  | _, _ => None
  end.

Lemma explainSql_pieces type sql analyze :
  explainSql type sql analyze =
  if sempty (trimStatement sql) then None
  else (λ ps, pieces_text ps (trimStatement sql)) <$> explain_pieces type analyze.
Proof.
  unfold explainSql. destruct (sempty _); [done|]. by destruct type, analyze.
Qed.

Lemma explain_pieces_ok type analyze :
  explain_head type analyze = pieces_lexemes <$> explain_pieces type analyze ∧
  ∀ ps, explain_pieces type analyze = Some ps → pieces_ok ps = true.
Proof. by destruct type, analyze; (split; [done|intros ps [= <-]]). Qed.

(** EXPLAIN wraps the statement and nothing else.  The text wrapped is the statement
    without the white space before it and the white space and semicolons after it; there is
    no result when it is empty, for ANALYZE on SQLite and for the engines whose plans are not read;
    otherwise the dialect reads the result as the prefix's tokens and then exactly those of
    the statement. *)
Lemma explainSql_wraps (type : DatabaseType) (sql : string) (analyze : bool) :
  let stmt := trimStatement sql in
  (∃ before after, sql = before +:+ stmt +:+ after ∧ sall isspace before = true ∧
     sall ends_statement after = true) ∧
  match stmt with "" => True | String c _ => isspace c = false end ∧
  match srev stmt with "" => True | String c _ => ends_statement c = false end ∧
  (explainSql type sql analyze = None ↔ stmt = "" ∨ explain_head type analyze = None) ∧
  ∀ text head, explainSql type sql analyze = Some text → explain_head type analyze = Some head →
    lexemes (dialectFor type) None text = head ++ lexemes (dialectFor type) None stmt.
Proof.
  cbn zeta. destruct (explain_pieces_ok type analyze) as [Hhead Hok].
  destruct (span_len_split isspace sql) as (before & Hb & Hbefore).
  fold (lstrip isspace sql) in Hb.
  destruct (rstrip_spec ends_statement (lstrip isspace sql)) as (after & Ha & Hafter & Hlast).
  fold (trimStatement sql) in Ha, Hlast. split_and!; [| |done| |].
  - exists before, after. by rewrite <-Ha.
  - pose proof (span_len_stops isspace sql) as H. fold (lstrip isspace sql) in H. rewrite Ha in H.
    by destruct (trimStatement sql).
  - rewrite explainSql_pieces, Hhead. destruct (trimStatement sql); [by split; auto|].
    cbn [sempty]. destruct (explain_pieces type analyze); simpl; split; auto; intros; naive_solver.
  - intros text head. rewrite explainSql_pieces, Hhead. destruct (sempty _); [done|].
    intros (ps & Hps & ->)%fmap_Some. rewrite Hps. intros [= <-].
    by rewrite pieces_lex, lexemes_after_space by by apply Hok.
Qed.
