(* ===== verification/ExplainProps.v ===== *)
(** * Properties of query plans

    Self times are never negative; a MySQL tree is the nesting its indentation draws; the
    cost pattern of MySQL never captures the total of a range. *)

From S2P Require Import Prelude Types ConnectionInfo Doubles Regex Explain.

(** ** Trees of plan nodes *)

Lemma PlanNode_nested_ind (P : PlanNode → Prop) :
  (∀ n, Forall P (pn_children n) → P n) → ∀ n, P n.
Proof.
  intros H. fix IH 1. intros [op de er co ar lo to se pr cs]. apply H. simpl.
  induction cs as [|c cs IHcs]; constructor; [apply IH|exact IHcs].
Qed.

(** [P] of a node and of all the nodes below it *)
Inductive all_nodes (P : PlanNode → Prop) (n : PlanNode) : Prop :=
  all_nodes_intro : P n → Forall (all_nodes P) (pn_children n) → all_nodes P n.

(** the nodes in the order they are displayed, each without its children *)
Fixpoint preorder (n : PlanNode) : list PlanNode :=
  match n with
  | mkNode op de er co ar lo to se pr cs =>
      mkNode op de er co ar lo to se pr [] :: mjoin (map preorder cs)
  end.

Lemma preorder_unfold n : preorder n = set_children [] n :: mjoin (map preorder (pn_children n)).
Proof. by destruct n. Qed.

(** ** Self times *)

Definition fresh (n : PlanNode) : Prop := pn_selfTimeMs n = None.

Definition self_time_ok (n : PlanNode) : Prop :=
  match pn_totalTimeMs n with
  | None => pn_selfTimeMs n = None
  | Some t => ∃ s, pn_selfTimeMs n = Some s ∧ SFleb dzero s = true ∧
      (s = dzero ∨ s = dsub t (foldl dadd dzero
                           (default dzero ∘ pn_totalTimeMs <$> pn_children n)))
  end.

(** a node with the self times of its tree left out *)
Fixpoint without_self (n : PlanNode) : PlanNode :=
  match n with
  | mkNode op de er co ar lo to _ pr cs =>
      mkNode op de er co ar lo to None pr (map without_self cs)
  end.

Lemma foldl_map {A B C} (f : C → B → C) (g : A → B) c l :
  foldl f c (g <$> l) = foldl (λ acc x, f acc (g x)) c l.
Proof. revert c. induction l as [|x l IH]; intros c; simpl; auto. Qed.

Lemma fillSelfTimes_ok n : all_nodes fresh n → all_nodes self_time_ok (fillSelfTimes n).
Proof.
  induction n as [[op de er co ar lo to se pr cs] IH] using PlanNode_nested_ind. simpl in *.
  intros [Hf Hcs]. simpl in *. constructor; simpl.
  - unfold self_time_ok, fresh in *. simpl in *. destruct to as [t|]; [|done].
    eexists. split; [done|]. unfold self_time.
    split; [apply dmax_zero_nonneg|].
    match goal with |- dmax dzero ?x = _ ∨ _ => destruct (dmax_zero_cases x) as [->|[-> _]] end;
      [by left|right; by rewrite (foldl_map dadd)].
  - apply Forall_map. rewrite Forall_forall in IH, Hcs. apply Forall_forall.
    intros x Hx. simpl. by apply IH, Hcs.
Qed.

Lemma fillSelfTimes_without n : without_self (fillSelfTimes n) = without_self n.
Proof.
  induction n as [[op de er co ar lo to se pr cs] IH] using PlanNode_nested_ind. simpl in *.
  f_equal. rewrite map_map. by apply map_ext_Forall.
Qed.

(** ** The MySQL tree

    The reference: the children of a line are the lines below it that are further in, up to
    the first that is not, each with its own children. *)

Fixpoint split_while {A} (p : A → bool) (l : list A) : list A * list A :=
  match l with
  | x :: l' => if p x then let '(a, b) := split_while p l' in (x :: a, b) else ([], l)
  | [] => ([], [])
  end.

Fixpoint nest (flat : list (Z * PlanNode)) : list (Z * PlanNode) :=
  match flat with
  | [] => []
  | (depth, node) :: rest =>
      let '(inside, others) := split_while (λ x, (depth <? fst x)%Z) (nest rest) in
      (depth, set_children (snd <$> inside) node) :: others
  end.

Lemma split_while_app {A} (p : A → bool) l :
  let '(a, b) := split_while p l in
  l = a ++ b ∧ Forall (λ x, p x = true) a ∧ match b with [] => True | x :: _ => p x = false end.
Proof.
  induction l as [|x l IH]; simpl; [by auto|]. destruct (p x) eqn:E.
  - destruct (split_while p l) as [a b]. destruct IH as (-> & Ha & Hb). auto.
  - simpl. auto.
Qed.

(** the stack of open lines, the innermost first, each with the children it has so far *)
Notation frames := (list (Z * PlanNode)).

Fixpoint plug_onto (n : PlanNode) (below : frames) : PlanNode :=
  match below with
  | [] => n
  | (_, m) :: below => plug_onto (add_child n m) below
  end.

Definition plug (fs : frames) : PlanNode :=
  match fs with [] => named_node "Query" | (_, n) :: below => plug_onto n below end.

Fixpoint path_of (below : frames) : node_ptr :=
  match below with
  | [] => []
  | (_, m) :: below => path_of below ++ [length (pn_children m)]
  end.

Fixpoint stack_of (fs : frames) : list (Z * node_ptr) :=
  match fs with
  | [] => []
  | (d, _) :: below => (d, path_of below) :: stack_of below
  end.

(** closing the lines that are not further out than [d] *)
Fixpoint close_onto (d : Z) (c : PlanNode) (fs : frames) : frames :=
  match fs with
  | [] => []
  | (d', m) :: below =>
      if (d <=? d')%Z then close_onto d (add_child c m) below else (d', add_child c m) :: below
  end.
Definition close (d : Z) (fs : frames) : frames :=
  match fs with
  | [] => []
  | (d', n) :: below => if (d <=? d')%Z then close_onto d n below else fs
  end.

Definition open_line (fs : frames) (x : Z * PlanNode) : frames := x :: close (fst x) fs.

Lemma update_at_app p q f n : update_at (p ++ q) f n = update_at p (update_at q f) n.
Proof.
  revert n. induction p as [|i p IH]; intros n; [done|]. simpl. f_equal.
  apply list_alter_ext; [|done]. intros x _. apply IH.
Qed.

Lemma node_at_app p q n : node_at (p ++ q) n = node_at p n ≫= node_at q.
Proof.
  revert n. induction p as [|i p IH]; intros n; [done|]. simpl.
  destruct (pn_children n !! i); [apply IH|done].
Qed.

Lemma update_at_last f n m :
  update_at [length (pn_children m)] f (add_child n m) = add_child (f n) m.
Proof.
  unfold add_child. simpl. unfold set_children. simpl. f_equal.
  by rewrite alter_app_r_alt, Nat.sub_diag by done.
Qed.

Lemma update_at_plug b f n : update_at (path_of b) f (plug_onto n b) = plug_onto (f n) b.
Proof.
  revert n f. induction b as [|[d m] b IH]; intros n f; [done|].
  cbn [path_of plug_onto]. by rewrite update_at_app, IH, update_at_last.
Qed.

Lemma node_at_plug b n : node_at (path_of b) (plug_onto n b) = Some n.
Proof.
  revert n. induction b as [|[d m] b IH]; intros n; [done|].
  cbn [path_of plug_onto]. rewrite node_at_app, IH. simpl.
  by rewrite lookup_app_r, Nat.sub_diag by done.
Qed.

(** closing lines changes neither the tree nor the pointers that stay on the stack *)
Lemma close_onto_spec d c fs :
  stack_of (close_onto d c fs) = pop_deeper d (stack_of fs) ∧
  (close_onto d c fs ≠ [] → plug (close_onto d c fs) = plug_onto c fs).
Proof.
  revert c. induction fs as [|[d' m] fs IH]; intros c; [done|]. simpl.
  destruct (d <=? d')%Z; [apply IH|done].
Qed.

Lemma close_spec d fs :
  stack_of (close d fs) = pop_deeper d (stack_of fs) ∧
  (close d fs ≠ [] → plug (close d fs) = plug fs).
Proof.
  destruct fs as [|[d' n] fs]; [done|]. simpl.
  destruct (d <=? d')%Z; [apply close_onto_spec|done].
Qed.

Lemma indent_step_frames fs x :
  close (fst x) fs ≠ [] →
  indent_step (plug fs, stack_of fs) x = (plug (open_line fs x), stack_of (open_line fs x)).
Proof.
  destruct x as [d n]. simpl. intros Hne. destruct (close_spec d fs) as [Hs Hp].
  specialize (Hp Hne). unfold open_line. simpl. rewrite <-Hs.
  destruct (close d fs) as [|[d' m] b]; [done|]. simpl in *. rewrite <-Hp. unfold push_child.
  rewrite update_at_plug, node_at_plug. simpl. rewrite length_app. simpl.
  by rewrite Nat.add_1_r.
Qed.

(** a finished line goes under the innermost open line that is further out *)
Definition absorb_step (fs : frames) (x : Z * PlanNode) : frames :=
  match close (fst x) fs with
  | [] => []
  | (d, m) :: below => (d, add_child (snd x) m) :: below
  end.
Definition absorb (fs forest : frames) : frames := foldl absorb_step fs forest.

(** the root at -1 is never closed *)
Definition rooted (fs : frames) : Prop := ∃ up n, fs = up ++ [((-1)%Z, n)].
Definition indented (flat : frames) : Prop := Forall (λ x, 0 <= fst x)%Z flat.

Lemma close_onto_rooted d c fs : (0 <= d)%Z → rooted fs → rooted (close_onto d c fs).
Proof.
  intros Hd (up & n & ->). revert c. induction up as [|[d' m] up IH]; intros c; simpl.
  - destruct (Z.leb_spec d (-1)); [lia|]. by exists [], (add_child c n).
  - destruct (d <=? d')%Z; [apply IH|]. by exists ((d', add_child c m) :: up), n.
Qed.

Lemma close_rooted d fs : (0 <= d)%Z → rooted fs → rooted (close d fs).
Proof.
  intros Hd (up & n & ->). destruct up as [|[d' m] up]; simpl.
  - destruct (Z.leb_spec d (-1)); [lia|]. by exists [], n.
  - destruct (d <=? d')%Z; [apply close_onto_rooted; [done|]|];
      [by exists up, n|by exists ((d', m) :: up), n].
Qed.

Lemma rooted_nonempty fs : rooted fs → fs ≠ [].
Proof. by intros ([|] & n & ->). Qed.

Lemma open_line_rooted fs x : (0 <= fst x)%Z → rooted fs → rooted (open_line fs x).
Proof. intros Hx H. destruct (close_rooted _ _ Hx H) as (up & n & E). exists (x :: up), n. by unfold open_line; rewrite E. Qed.

Lemma indent_frames flat fs :
  indented flat → rooted fs →
  foldl indent_step (plug fs, stack_of fs) flat =
  (plug (foldl open_line fs flat), stack_of (foldl open_line fs flat)).
Proof.
  intros Hflat. revert fs. induction Hflat as [|x flat Hx _ IH]; intros fs Hfs; [done|].
  cbn [foldl]. rewrite indent_step_frames by by apply rooted_nonempty, close_rooted.
  by apply IH, open_line_rooted.
Qed.

Lemma nest_indented flat : indented flat → indented (nest flat).
Proof.
  induction 1 as [|[d n] flat Hd _ IH]; simpl; [constructor|].
  pose proof (split_while_app (λ x, (d <? fst x)%Z) (nest flat)) as Hs.
  destruct (split_while _ _) as [a b]. destruct Hs as (E & _ & _). rewrite E in IH.
  apply Forall_app in IH as [_ IH]. by constructor.
Qed.

(** the lines under an open line become its children *)
Lemma absorb_inside d n below inside :
  Forall (λ x, (d <? fst x)%Z = true) inside →
  absorb ((d, n) :: below) inside =
  (d, set_children (pn_children n ++ (snd <$> inside)) n) :: below.
Proof.
  intros H. revert n. induction H as [|[d' t] inside Hd _ IH]; intros n; simpl.
  - rewrite app_nil_r. by destruct n.
  - unfold absorb_step. simpl in *. apply Z.ltb_lt in Hd.
    destruct (Z.leb_spec d' d); [lia|]. rewrite IH. simpl. by rewrite <-app_assoc.
Qed.

(** what comes after an open line closes it first *)
Lemma absorb_others d n fs others :
  match others with [] => True | x :: _ => (d <? fst x)%Z = false end →
  plug (absorb ((d, n) :: close d fs) others) = plug (absorb fs ((d, n) :: others)) ∨
  close d fs = [].
Proof.
  intros Ho. unfold absorb. cbn [foldl]. unfold absorb_step at 3. cbn [fst snd].
  destruct (close d fs) as [|[d1 m] b] eqn:E; [by right|left].
  destruct others as [|[d2 t] others]; [done|]. simpl in Ho. apply Z.ltb_ge in Ho. cbn [foldl].
  f_equal. f_equal. unfold absorb_step. simpl.
  destruct (Z.leb_spec d2 d); [done|lia].
Qed.

Definition leaves (flat : frames) : Prop := Forall (λ x, pn_children (snd x) = []) flat.

Lemma run_absorb flat fs :
  indented flat → leaves flat → rooted fs →
  plug (foldl open_line fs flat) = plug (absorb fs (nest flat)).
Proof.
  intros Hi Hl. revert fs. induction Hi as [|[d n] flat Hd Hi IH]; intros fs Hfs; [done|].
  apply Forall_cons in Hl as [Hn Hl]. cbn [foldl nest]. simpl in Hn, Hd.
  rewrite IH by (done || by apply open_line_rooted). unfold open_line. cbn [fst].
  pose proof (split_while_app (λ x, (d <? fst x)%Z) (nest flat)) as Hs.
  destruct (split_while _ _) as [inside others]. destruct Hs as (-> & Hin & Hout).
  unfold absorb at 1. rewrite foldl_app. fold (absorb ((d, n) :: close d fs) inside).
  rewrite absorb_inside by done. rewrite Hn. simpl app.
  destruct (absorb_others d (set_children (snd <$> inside) n) fs others Hout) as [<-|E]; [done|].
  by destruct (rooted_nonempty _ (close_rooted d fs Hd Hfs)).
Qed.

Lemma absorb_root q forest :
  indented forest →
  plug (absorb [((-1)%Z, q)] forest) = set_children (pn_children q ++ (snd <$> forest)) q.
Proof.
  intros H. rewrite absorb_inside; [done|]. eapply Forall_impl; [exact H|]. simpl.
  intros x Hx. apply Z.ltb_lt. lia.
Qed.

Lemma indent_tree_nest flat :
  indented flat → leaves flat →
  indent_tree flat = set_children (snd <$> nest flat) (named_node "Query").
Proof.
  intros Hi Hl. set (fs := [((-1)%Z, named_node "Query")]).
  assert (rooted fs) as Hr by by exists [], (named_node "Query").
  transitivity (fst (foldl indent_step (plug fs, stack_of fs) flat)); [done|].
  rewrite indent_frames by done. simpl fst. rewrite run_absorb by done.
  apply (absorb_root (named_node "Query")). by apply nest_indented.
Qed.

(** the nodes of the tree are the lines, in order *)
Lemma nest_preorder flat :
  leaves flat → mjoin (preorder ∘ snd <$> nest flat) = snd <$> flat.
Proof.
  induction 1 as [|[d n] flat Hn _ IH]; [done|]. cbn [nest]. simpl in Hn.
  pose proof (split_while_app (λ x, (d <? fst x)%Z) (nest flat)) as Hs.
  destruct (split_while _ _) as [a b]. destruct Hs as (E & _ & _). rewrite E in IH.
  rewrite fmap_app, join_app in IH. rewrite !fmap_cons, <-IH.
  match goal with |- mjoin (?x :: ?l) = _ => change (mjoin (x :: l)) with (x ++ mjoin l) end.
  cbn [compose snd]. rewrite preorder_unfold. simpl. f_equal; [by destruct n; simpl in *; subst|].
  f_equal. f_equal. by rewrite <-list_fmap_compose.
Qed.

(** ** The lines of a MySQL plan *)

Definition line_node (n : PlanNode) : Prop := pn_children n = [] ∧ fresh n.

Lemma R_bind_inr {A B} (m : R A) (f : A → R B) y :
  m ≫= f = inr y → ∃ x, m = inr x ∧ f x = inr y.
Proof. destruct m as [e|x]; [done|]. by exists x. Qed.

Lemma R_bind_ok {A B} (m : R A) (f : A → R B) x : m = inr x → m ≫= f = f x.
Proof. by intros ->. Qed.

Lemma R_bind_inl {A B} (m : R A) (f : A → R B) e :
  m ≫= f = inl e → m = inl e ∨ ∃ x, m = inr x ∧ f x = inl e.
Proof. destruct m as [e'|x]; intros H; [left; by injection H as ->|right; by exists x]. Qed.

(** split a computation that returned into its parts *)
Ltac returned H :=
  match type of H with
  | _ ≫= _ = inr _ => let x := fresh "x" in let Hx := fresh "H" x in
      apply R_bind_inr in H as (x & Hx & H); returned H
  | _ => idtac
  end.

Lemma mysql_node_line text n : mysql_node text = inr n → line_node n.
Proof.
  unfold mysql_node. intros H. apply R_bind_inr in H as ([cost estimated] & _ & H).
  apply R_bind_inr in H as ([[actual loops] total] & _ & H). by injection H as <-.
Qed.

Lemma append_to_last_fst suffix flat : fst <$> append_to_last suffix flat = fst <$> flat.
Proof. induction flat as [|[d n] [|y flat] IH]; [done..|]. simpl in *. by f_equal. Qed.

Lemma append_to_last_nodes suffix flat :
  Forall (line_node ∘ snd) flat → Forall (line_node ∘ snd) (append_to_last suffix flat).
Proof.
  induction flat as [|[d n] [|y flat] IH]; intros H; [done|..].
  - apply Forall_cons in H as [Hn _]. by repeat constructor; apply Hn.
  - apply Forall_cons in H as [Hn H]. by constructor; [|apply IH].
Qed.

Lemma to_int_small z : (0 <= z < 2 ^ 31)%Z → to_int z = z.
Proof. intros H. unfold to_int. rewrite Z.mod_small; lia. Qed.

Definition flat_ok (flat : frames) : Prop := indented flat ∧ Forall (line_node ∘ snd) flat.

Lemma mysql_line_ok flat line flat' :
  (Z.of_nat (strlen line) < 2 ^ 31)%Z → flat_ok flat →
  mysql_line flat line = inr flat' → flat_ok flat'.
Proof.
  intros Hlen [Hi Hn]. unfold mysql_line. destruct (find_str "-> " line 0) as [p|] eqn:E.
  - intros H. apply R_bind_inr in H as (n & Hnode & H). injection H as <-.
    apply find_str_bounds in E; [|lia]. split; apply Forall_app; (split; [done|]); repeat constructor.
    + simpl. rewrite to_int_small; lia.
    + by eapply mysql_node_line.
    + by eapply mysql_node_line.
  - intros H. injection H as <-. destruct (sempty _); [done|]. split.
    + unfold indented in *. apply (Forall_fmap fst (λ d, 0 <= d)%Z).
      rewrite append_to_last_fst. by apply (Forall_fmap fst (λ d, 0 <= d)%Z).
    + by apply append_to_last_nodes.
Qed.

Lemma mysql_lines_ok lines flat flat' :
  Forall (λ l, Z.of_nat (strlen l) < 2 ^ 31)%Z lines → flat_ok flat →
  mysql_lines flat lines = inr flat' → flat_ok flat'.
Proof.
  intros H. revert flat. induction H as [|l lines Hl _ IH]; intros flat Hf E.
  - by injection E as <-.
  - cbn [mysql_lines] in E. apply R_bind_inr in E as (flat1 & E1 & E2).
    eapply IH; [|exact E2]. by eapply mysql_line_ok.
Qed.

Lemma mysql_flat_ok raw flat :
  (Z.of_nat (strlen raw) < 2 ^ 31)%Z → mysql_lines [] (getlines newline raw) = inr flat → flat_ok flat.
Proof.
  intros Hlen. apply mysql_lines_ok; [|by split; constructor].
  apply Forall_forall. intros l Hl. apply getlines_short in Hl. simpl in Hl. lia.
Qed.

Lemma flat_leaves flat : flat_ok flat → leaves flat.
Proof. intros [_ H]. eapply Forall_impl; [exact H|]. intros x Hx. apply Hx. Qed.

(** C38: the tree of a MySQL plan is the one its indentation draws.  For a text of less than
    two gigabytes, when every number reads, the plan's root is the single outermost line, or
    a node "Query" over the outermost lines; the children of a line are the lines below it
    that are further in, up to the first that is not; and the tree displays the lines in
    their order, none lost. *)
Theorem parseMysqlTree_nest (r : StatementResult) (analyzed : bool) :
  (Z.of_nat (strlen (firstColumn r)) < 2 ^ 31)%Z →
  match mysql_lines [] (getlines newline (firstColumn r)) with
  | inl e => parseMysqlTree r analyzed = inl e
  | inr flat =>
      let trees := snd <$> nest flat in
      let root := match trees with [t] => t | _ => set_children trees (named_node "Query") end in
      mjoin (map preorder trees) = snd <$> flat ∧
      parseMysqlTree r analyzed =
        inr (if decide (flat = []) then None
             else Some (mkPlan root analyzed None None (firstColumn r)))
  end.
Proof.
  intros Hlen. unfold parseMysqlTree.
  destruct (mysql_lines [] (getlines newline (firstColumn r))) as [e|flat] eqn:E; [done|].
  pose proof (mysql_flat_ok _ _ Hlen E) as Hok. simpl.
  split; [by rewrite <-list_fmap_compose; apply nest_preorder, flat_leaves|].
  unfold mbind, R_bind. rewrite indent_tree_nest by (apply Hok || by apply flat_leaves).
  destruct flat as [|x flat]; [done|]. rewrite decide_False by done. by do 2 f_equal.
Qed.

Definition sample_tree : StatementResult :=
  mkStatementResult true "" ["EXPLAIN"]
    [["-> Limit: 3"]; ["    -> Join"]; ["        -> Scan a"]; ["        -> Scan b"]] 0 "".

Lemma parseMysqlTree_nest_witness :
  parseMysqlTree sample_tree false =
  inr (Some (mkPlan
    (set_children [set_children [named_node "Scan a"; named_node "Scan b"] (named_node "Join")]
       (named_node "Limit: 3")) false None None (firstColumn sample_tree))).
Proof.
  assert (Z.of_nat (strlen (firstColumn sample_tree)) < 2 ^ 31)%Z as Hlen by done.
  pose proof (parseMysqlTree_nest sample_tree false Hlen) as H.
  vm_compute in H. destruct H as [_ H]. exact H.
Defined.

(** ** The cost of a MySQL line *)

Lemma number_char_not_space c : number_char c = true → c ≠ " "%char.
Proof. by intros H ->. Qed.

(** two runs of number characters up to a blank are the same run *)
Lemma number_run_unique a b s1 s2 :
  sall number_char a = true → sall number_char b = true →
  a +:+ String " " s1 = b +:+ String " " s2 → a = b ∧ s1 = s2.
Proof.
  revert b. induction a as [|c a IH]; intros [|d b] Ha Hb E; simpl in *.
  - by injection E.
  - apply andb_prop in Hb as [Hd _]. injection E as <- _. done.
  - apply andb_prop in Ha as [Hc _]. injection E as -> _. done.
  - apply andb_prop in Ha as [_ Ha], Hb as [_ Hb]. injection E as -> E.
    by destruct (IH b Ha Hb E) as [-> ->].
Qed.

(** what follows the first number of a cost *)
Definition cost_tail : regex := (rlit " rows=" ⋅ number_group 3 ⋅ rlit ")")%re.

Lemma rmatch_any_captures {A} r s cs cs2 (k : string → captures → option A) :
  (∀ s cs, is_Some (k s cs)) → is_Some (rmatch r s cs k) → is_Some (rmatch r s cs2 k).
Proof.
  intros Hk [x H]. apply rmatch_sound in H as (s' & cs' & Hm & _).
  destruct (matches_captures _ _ _ _ _ cs2 Hm) as [cs2' Hm2]. by eapply rmatch_complete.
Qed.

Lemma cost_tail_captures s cs s' cs' :
  matches cost_tail s cs s' cs' → ∃ t, cs' = (3, t) :: cs.
Proof.
  unfold cost_tail. intros (s2 & cs2 & (s1 & cs1 & H1 & H2)%matches_seq & H3)%matches_seq.
  apply matches_lit in H1 as [_ ->]. apply matches_lit in H3 as [_ ->].
  apply matches_group_plus in H2 as (run & _ & _ & _ & ->). by eexists.
Qed.

Section cost.
Context {A : Type} (k : string → captures → option A).
Context (k_total : ∀ s cs, is_Some (k s cs)).

Let after_first s cs := rmatch (ROpt (rlit ".." ⋅ number_group 2)%re) s cs (λ s cs, rmatch cost_tail s cs k).

Lemma cost_second_unused s cs x :
  after_first s cs = Some x →
  (∀ more s2, s = more +:+ s2 → more ≠ "" → sall number_char more = true →
     ∃ cs2, after_first s2 cs2 = None) →
  ∃ s' t, matches cost_tail s cs s' ((3, t) :: cs) ∧ k s' ((3, t) :: cs) = Some x.
Proof.
  unfold after_first. cbn [rmatch]. intros H Hlong.
  destruct (rmatch (rlit "..") s cs _) as [y|] eqn:E.
  - exfalso. apply rmatch_sound in E as (s1 & cs1 & H1 & E).
    apply matches_lit in H1 as [-> ->].
    change (rmatch (number_group 2) s1 cs (λ s cs, rmatch cost_tail s cs k) = Some y) in E.
    apply rmatch_sound in E as (s2 & cs2 & H2 & E).
    apply matches_group_plus in H2 as (run & -> & Hne & Hrun & ->).
    destruct (Hlong (".." +:+ run) s2) as [cs2 Hnone]; [by rewrite sapp_assoc|done..|].
    destruct (rmatch_any_captures cost_tail s2 ((2, consumed (run +:+ s2) s2) :: cs) cs2 k)
      as [z Hz]; [done|by eexists|].
    rewrite Hz in Hnone. by destruct (rmatch (rlit "..") s2 cs2 _).
  - apply rmatch_sound in H as (s' & cs' & Hm & Hk).
    destruct (cost_tail_captures _ _ _ _ Hm) as [t ->]. eauto.
Qed.
End cost.

Lemma cost_match s n m :
  match_here costRe s = Some (n, m) → ∃ t1 t3, m = [(3, t3); (1, t1)].
Proof.
  unfold match_here, costRe. set (k := λ s' cs, Some _). intros H.
  assert (∀ s cs, is_Some (k s cs)) as Hk by by eexists.
  cbn [rmatch] in H. apply rmatch_sound in H as (s1 & cs1 & H1 & H).
  apply matches_lit in H1 as [-> ->].
  cbn [rmatch number_group] in H. destruct s1 as [|c s1]; [done|].
  destruct (number_char c); [|done].
  apply greedy_longest in H as (run & s2 & -> & _ & H & Hlong).
  apply (cost_second_unused k Hk) in H as (s' & t & _ & H).
  - injection H as _ <-. eauto.
  - intros more s3 E Hne Hm. eexists. by apply (Hlong more s3).
Qed.

(** the total cost of a range is never read.  The source means to take the second
    number of [(cost=A..B rows=C)], but its first pattern is greedy over a class that holds
    the point, so it takes both numbers: whatever the text, the second group of a match is
    empty, and the cost of a node is read from the start of the first, the start-up cost. *)
Lemma mysql_cost_total_unread :
  (∀ text, match regex_search costRe text with
           | Some m => captured 2 m = None ∧ is_Some (captured 1 m)
           | None => True
           end) ∧
  ∃ n, mysql_node "Sort  (cost=0.35..4.5 rows=5)" = inr n ∧
       pn_cost n = stod "0.35" ∧ pn_cost n ≠ stod "4.5".
Proof.
  split; [|eexists; by vm_compute].
  induction text as [|c text IH].
  - by vm_compute.
  - cbn [regex_search]. destruct (match_here costRe (String c text)) as [[n m]|] eqn:E; [|done].
    destruct (cost_match _ _ _ E) as (t1 & t3 & ->). by split; [|eexists].
Qed.
