(* ===== verification/SqlitePlan.v ===== *)
(** * The tree of a SQLite query plan

    [parseSqlite] of [src/explain.cpp] recurses on ids through the whole list of rows.  With
    distinct non-zero ids the recursion ends, and the tree holds every row under its parent. *)

From S2P Require Import Prelude Types ConnectionInfo Doubles Regex Explain ExplainProps.

(** ** Joins *)

Lemma bind_split {A B} (f g : A → list B) l : (l ≫= λ x, f x ++ g x) ≡ₚ (l ≫= f) ++ (l ≫= g).
Proof.
  induction l as [|x l IH]; [done|]. rewrite !bind_cons, IH, <-!app_assoc. apply Permutation_app_head.
  by rewrite (Permutation_app_comm (g x)), <-app_assoc, (Permutation_app_comm (l ≫= g)).
Qed.

Lemma bind_exchange {A B C} (F : A → C → list B) (l : list A) (ks : list C) :
  (l ≫= λ x, ks ≫= λ k, F x k) ≡ₚ (ks ≫= λ k, l ≫= λ x, F x k).
Proof.
  induction l as [|x l IH]; [by induction ks|]. rewrite bind_cons, IH.
  change (ks ≫= λ k, (x :: l) ≫= λ y, F y k) with (ks ≫= λ k, F x k ++ (l ≫= λ y, F y k)).
  by rewrite bind_split.
Qed.

Lemma bind_NoDup {A B} (f : A → list B) l :
  NoDup l → (∀ x, x ∈ l → NoDup (f x)) →
  (∀ x y b, x ∈ l → y ∈ l → b ∈ f x → b ∈ f y → x = y) → NoDup (l ≫= f).
Proof.
  intros Hl Hf Hd. induction Hl as [|x l Hx Hl IH]; [constructor|]. rewrite bind_cons.
  apply NoDup_app. split_and!.
  - apply Hf. set_solver.
  - intros b Hb (y & Hby & Hy)%list_elem_of_bind. apply Hx.
    rewrite (Hd x y b); [done|set_solver..].
  - apply IH; [set_solver|]. intros y z b Hy Hz. apply Hd; set_solver.
Qed.

Lemma join_map_bind {A B} (f : A → list B) l : mjoin (map f l) = l ≫= f.
Proof. induction l as [|x l IH]; [done|]. by rewrite bind_cons, <-IH. Qed.

(** ** The rows below an id *)

Section rows.
Context (rows : list Row).

Definition ids : list Z := row_id <$> rows.

(** the rows that name [p] as their parent, in order *)
Definition kids (p : Z) : list Row :=
  filter (λ r, row_parent r = p ∧ row_id r ≠ p) rows.

(** the rows [k] generations below those *)
Fixpoint level (k : nat) (p : Z) : list Row :=
  match k with
  | 0 => kids p
  | S k => kids p ≫= λ r, level k (row_id r)
  end.

(** the rows below [p], each before its own *)
Fixpoint below (fuel : nat) (p : Z) : list Row :=
  match fuel with
  | 0 => []
  | S fuel => kids p ≫= λ r, r :: below fuel (row_id r)
  end.

Fixpoint forest (fuel : nat) (p : Z) : list PlanNode :=
  match fuel with
  | 0 => []
  | S fuel => (λ r, set_children (forest fuel (row_id r)) (named_node (row_detail r))) <$> kids p
  end.

Lemma elem_of_kids r p : r ∈ kids p ↔ row_parent r = p ∧ row_id r ≠ p ∧ r ∈ rows.
Proof. unfold kids. rewrite list_elem_of_filter. tauto. Qed.

Lemma level_right k p r : r ∈ level (S k) p ↔ ∃ q, q ∈ level k p ∧ r ∈ kids (row_id q).
Proof.
  revert p. induction k as [|k IH]; intros p.
  - simpl. rewrite list_elem_of_bind. naive_solver.
  - split.
    + intros (c & Hr & Hc)%list_elem_of_bind. apply IH in Hr as (q & Hq & Hr).
      exists q. split; [|done]. apply list_elem_of_bind. eauto.
    + intros (q & (c & Hq & Hc)%list_elem_of_bind & Hr). apply list_elem_of_bind.
      exists c. split; [|done]. apply IH. eauto.
Qed.

Lemma level_rows k p r : r ∈ level k p → r ∈ rows.
Proof.
  destruct k as [|k]; [by intros (_ & _ & ?)%elem_of_kids|].
  by intros (q & _ & (_ & _ & ?)%elem_of_kids)%level_right.
Qed.

Lemma level_shrinks k p : level k p = [] → level (S k) p = [].
Proof.
  intros H. destruct (level (S k) p) as [|r l] eqn:E; [done|].
  assert (r ∈ level (S k) p) as (q & Hq & _)%level_right by (rewrite E; set_solver).
  rewrite H in Hq. set_solver.
Qed.

Lemma below_levels fuel p : below fuel p ≡ₚ (seq 0 fuel ≫= λ k, level k p).
Proof.
  revert p. induction fuel as [|fuel IH]; intros p; [done|].
  cbn [below seq]. rewrite bind_cons. change (level 0 p) with (kids p).
  transitivity (kids p ≫= λ r, [r] ++ (seq 0 fuel ≫= λ k, level k (row_id r))).
  { generalize (kids p). intros l. induction l as [|x l IHl]; [done|].
    rewrite !bind_cons, IHl, (IH (row_id x)). done. }
  rewrite bind_split, (bind_exchange (λ x k, level k (row_id x))).
  apply Permutation_app.
  - generalize (kids p). intros l. induction l as [|x l IHl]; [done|]. rewrite bind_cons. simpl. by rewrite IHl.
  - rewrite <-seq_shift. generalize (seq 0 fuel). intros l.
    induction l as [|k l IHl]; [done|]. simpl map. by rewrite !bind_cons, IHl.
Qed.

Lemma forest_preorder fuel p :
  pn_operation <$> (forest fuel p ≫= preorder) = row_detail <$> below fuel p.
Proof.
  revert p. induction fuel as [|fuel IH]; intros p; [done|]. cbn [forest below].
  generalize (kids p). intros l. induction l as [|r l IHl]; [done|].
  rewrite fmap_cons, !bind_cons, !fmap_app, IHl. f_equal.
  rewrite preorder_unfold, join_map_bind, !fmap_cons. f_equal. apply IH.
Qed.

(** ** Distinct ids *)

Context (Hids : NoDup (0%Z :: ids)).

Lemma row_by_id r q : r ∈ rows → q ∈ rows → row_id r = row_id q → r = q.
Proof.
  apply NoDup_cons in Hids as [_ H]. unfold ids in H. intros Hr Hq E.
  apply list_elem_of_lookup in Hr as [i Hi], Hq as [j Hj].
  assert (i = j) as <-; [|congruence].
  eapply (NoDup_lookup _ _ _ (row_id r) H); rewrite list_lookup_fmap; [by rewrite Hi|by rewrite Hj, E].
Qed.

Lemma row_id_nonzero r : r ∈ rows → row_id r ≠ 0%Z.
Proof.
  apply NoDup_cons in Hids as [H _]. intros Hr E. apply H. rewrite <-E.
  by apply list_elem_of_fmap_2.
Qed.

Lemma rows_NoDup : NoDup rows.
Proof. apply NoDup_cons in Hids as [_ H]. by eapply NoDup_fmap_1. Qed.

(** the way up from a row is one: a row is below one id at each distance *)
Lemma level_up k p q r : r ∈ level k p → r ∈ level k q → p = q.
Proof.
  revert r. induction k as [|k IH]; intros r.
  - intros (<- & _)%elem_of_kids (<- & _)%elem_of_kids. done.
  - intros (x & Hx & (Ex & _)%elem_of_kids)%level_right (y & Hy & (Ey & _)%elem_of_kids)%level_right.
    assert (x = y) as <- by (eapply row_by_id; [by eapply level_rows..|congruence]). eauto.
Qed.

(** and below the root at one distance *)
Lemma level_once j k r : r ∈ level j 0 → r ∈ level k 0 → j = k.
Proof.
  revert k r. induction j as [|j IH]; intros [|k] r; [done|..].
  - intros (E & _)%elem_of_kids (x & Hx & (Ex & _)%elem_of_kids)%level_right.
    destruct (row_id_nonzero x); [by eapply level_rows|congruence].
  - intros (x & Hx & (Ex & _)%elem_of_kids)%level_right (E & _)%elem_of_kids.
    destruct (row_id_nonzero x); [by eapply level_rows|congruence].
  - intros (x & Hx & (Ex & _)%elem_of_kids)%level_right (y & Hy & (Ey & _)%elem_of_kids)%level_right.
    assert (x = y) as <- by (eapply row_by_id; [by eapply level_rows..|congruence]).
    f_equal. eauto.
Qed.

Lemma kids_NoDup p : NoDup (kids p).
Proof. apply NoDup_filter, rows_NoDup. Qed.

Lemma level_NoDup k p : NoDup (level k p).
Proof.
  revert p. induction k as [|k IH]; intros p; [apply kids_NoDup|]. simpl.
  apply bind_NoDup; [apply kids_NoDup|intros; apply IH|].
  intros x y r (_ & _ & Hx)%elem_of_kids (_ & _ & Hy)%elem_of_kids H1 H2.
  apply row_by_id; [done..|]. by eapply level_up.
Qed.

Lemma levels_NoDup n : NoDup (seq 0 n ≫= λ k, level k 0).
Proof.
  apply bind_NoDup; [apply NoDup_seq|intros; apply level_NoDup|].
  intros j k r _ _. apply level_once.
Qed.

(** as many generations as rows are enough *)
Lemma levels_length n : level n 0 ≠ [] → n < length (seq 0 (S n) ≫= λ k, level k 0).
Proof.
  induction n as [|n IH]; intros Hn.
  - rewrite seq_S, bind_app, length_app, bind_cons, length_app. simpl (0 + 0).
    destruct (level 0 0); [done|]. simpl. lia.
  - rewrite seq_S, bind_app, length_app, bind_cons, length_app. simpl (0 + S n).
    assert (level n 0 ≠ []) as H%IH by (intros H%level_shrinks; done).
    destruct (level (S n) 0) eqn:E; [done|]. cbn [length]. lia.
Qed.

Lemma last_level : level (length rows) 0 = [].
Proof.
  destruct (level (length rows) 0) as [|r l] eqn:E; [done|]. exfalso.
  assert (level (length rows) 0 ≠ []) as H%levels_length by by rewrite E.
  enough (length (seq 0 (S (length rows)) ≫= λ k, level k 0) <= length rows) by lia.
  apply submseteq_length, NoDup_submseteq; [apply levels_NoDup|].
  intros x (k & Hx & _)%list_elem_of_bind. by eapply level_rows.
Qed.

(** every row's parent is the root or a row listed before it *)
Definition parents_first : Prop :=
  ∀ l1 r l2, rows = l1 ++ r :: l2 → row_parent r = 0%Z ∨ row_parent r ∈ row_id <$> l1.

Lemma parents_first_level : parents_first → ∀ r, r ∈ rows → ∃ k, r ∈ level k 0.
Proof.
  intros Hp r Hr. apply list_elem_of_split in Hr as (l1 & l2 & E).
  remember (length l1) as n eqn:Hn. revert l1 r l2 E Hn.
  induction (lt_wf n) as [n _ IH]. intros l1 r l2 E ->.
  assert (r ∈ rows) as Hr by (rewrite E; set_solver).
  destruct (Hp l1 r l2 E) as [H0|Hin].
  - exists 0. apply elem_of_kids. split_and!; [done| |done]. by apply row_id_nonzero.
  - apply list_elem_of_fmap in Hin as (q & Eq & Hq).
    apply list_elem_of_split in Hq as (l3 & l4 & ->).
    destruct (IH (length l3)) with (l1 := l3) (r := q) (l2 := l4 ++ r :: l2) as [k Hk];
      [rewrite length_app; simpl; lia|by rewrite E, <-app_assoc|done|].
    exists (S k). apply level_right. exists q. split; [done|]. apply elem_of_kids.
    split_and!; [done| |done]. intros Eid.
    assert (r = q) as -> by (apply row_by_id; [done|rewrite E; set_solver|congruence]).
    pose proof rows_NoDup as Hnd. rewrite E in Hnd. apply NoDup_app in Hnd as (_ & Hnd & _).
    apply (Hnd q); set_solver.
Qed.

Lemma below_all : parents_first → below (S (length rows)) 0 ≡ₚ rows.
Proof.
  intros Hp. rewrite below_levels. apply NoDup_Permutation; [apply levels_NoDup|apply rows_NoDup|].
  intros r. rewrite list_elem_of_bind. split; [by intros (k & H & _); eapply level_rows|].
  intros Hr. destruct (parents_first_level Hp r Hr) as [k Hk]. exists k. split; [done|].
  apply elem_of_seq. destruct (decide (k < S (length rows))); [lia|]. exfalso.
  assert (∀ m, level (m + length rows) 0 = []) as Hnil.
  { intros m. induction m as [|m IHm]; [apply last_level|by apply level_shrinks]. }
  replace k with (k - length rows + length rows) in Hk by lia. rewrite Hnil in Hk. set_solver.
Qed.
End rows.

(** ** The recursion of [parseSqlite] *)

(** the text of a node and of those below it, indented by two blanks a level *)
Fixpoint display (depth : nat) (n : PlanNode) : string :=
  match n with
  | mkNode op _ _ _ _ _ _ _ _ cs =>
      (spaces (depth * 2) +:+ op +:+ str1 newline) +:+ sconcat (map (display (S depth)) cs)
  end.

Definition row_node (rows : list Row) (fuel : nat) (r : Row) : PlanNode :=
  set_children (forest rows fuel (row_id r)) (named_node (row_detail r)).

Lemma forest_row_node rows fuel p : forest rows (S fuel) p = row_node rows fuel <$> kids rows p.
Proof. done. Qed.

Lemma sconcat_app l1 l2 : sconcat (l1 ++ l2) = sconcat l1 +:+ sconcat l2.
Proof. induction l1 as [|x l1 IH]; simpl; [done|]. by rewrite IH, sapp_assoc. Qed.

Definition is_kid (p : Z) (r : Row) : Prop := row_parent r = p ∧ row_id r ≠ p.

Lemma kid_test p r :
  ((row_parent r =? p)%Z && negb (row_id r =? p)%Z) = bool_decide (row_parent r = p ∧ row_id r ≠ p).
Proof.
  destruct (Z.eqb_spec (row_parent r) p), (Z.eqb_spec (row_id r) p); simpl; symmetry;
    (apply bool_decide_eq_true_2 || apply bool_decide_eq_false_2); tauto.
Qed.

(** the loop over the rows, when the recursive calls return *)
Lemma build_rows descend (nodes : Row → list PlanNode) p depth l raw out :
  (∀ r raw, r ∈ l → is_kid p r →
     descend (row_id r) raw = inr (raw +:+ sconcat (map (display (S depth)) (nodes r)), nodes r)) →
  foldl (build_row descend p depth) (inr (raw, out)) l =
  let new := (λ r, set_children (nodes r) (named_node (row_detail r))) <$>
             filter (λ r, row_parent r = p ∧ row_id r ≠ p) l in
  inr (raw +:+ sconcat (map (display depth) new), out ++ new).
Proof.
  revert raw out. induction l as [|r l IH]; intros raw out Hd; cbn [foldl].
  { by rewrite sapp_nil_r, app_nil_r. }
  rewrite filter_cons. unfold build_row at 2. unfold mbind, R_bind, mret, R_ret. rewrite kid_test.
  destruct (decide (row_parent r = p ∧ row_id r ≠ p)) as [Hkid|Hno].
  - rewrite bool_decide_eq_true_2, Hd by set_solver. cbn iota beta. rewrite IH by set_solver.
    rewrite fmap_cons. simpl. by rewrite !sapp_assoc, <-app_assoc.
  - rewrite bool_decide_eq_false_2 by done. apply IH. set_solver.
Qed.

Lemma level_kid rows k p r : level rows (S k) p = [] → r ∈ kids rows p → level rows k (row_id r) = [].
Proof.
  intros Hk Hr. destruct (level rows k (row_id r)) as [|x l] eqn:El; [done|].
  assert (x ∈ level rows (S k) p) as Hx; [|rewrite Hk in Hx; set_solver].
  apply list_elem_of_bind. exists r. split; [|done].
  change (x ∈ level rows k (row_id r)). rewrite El. left.
Qed.

(** no rows [k] generations down: calls one deeper are enough *)
Lemma build_forest rows k p depth raw :
  level rows k p = [] →
  build rows (S k) p depth raw =
  inr (raw +:+ sconcat (map (display depth) (forest rows (S k) p)), forest rows (S k) p).
Proof.
  revert p depth raw. induction k as [|k IH]; intros p depth raw Hk.
  - apply (build_rows _ (λ r, forest rows 0 (row_id r))). intros r raw' Hr [E Hne].
    assert (r ∈ kids rows p) as Hin by by apply elem_of_kids.
    change (kids rows p = []) in Hk. rewrite Hk in Hin. set_solver.
  - apply (build_rows _ (λ r, forest rows (S k) (row_id r))). intros r raw' Hr [E Hne].
    by apply IH, (level_kid rows k p), elem_of_kids.
Qed.

Lemma level_nil_more rows k p n : level rows k p = [] → level rows (n + k) p = [].
Proof. intros H. induction n as [|n IH]; [done|]. by apply level_shrinks. Qed.

(** the nodes for the rows below an id: one a row that names it, in order, each with the
    nodes for the rows below its own id *)
Inductive shows (rows : list Row) : Z → list PlanNode → Prop :=
  shows_kids p nodes :
    Forall2 (λ r n, pn_operation n = row_detail r ∧ shows rows (row_id r) (pn_children n))
      (kids rows p) nodes → shows rows p nodes.

Lemma forest_more rows k m p :
  level rows k p = [] → forest rows (S k + m) p = forest rows (S k) p.
Proof.
  revert p. induction k as [|k IH]; intros p Hk.
  - change (kids rows p = []) in Hk. cbn. by rewrite Hk.
  - change (S (S k) + m) with (S (S k + m)). rewrite !forest_row_node. apply list_fmap_ext.
    intros i r Hr%list_elem_of_lookup_2. unfold row_node. f_equal. by apply IH, (level_kid rows k p).
Qed.

Lemma forest_shows rows k p : level rows k p = [] → shows rows p (forest rows (S k) p).
Proof.
  revert p. induction k as [|k IH]; intros p Hk; constructor.
  - change (level rows 0 p) with (kids rows p) in Hk. rewrite Hk. cbn. rewrite Hk. constructor.
  - rewrite forest_row_node. apply Forall2_fmap_r, Forall_Forall2_diag, Forall_forall.
    intros r Hr. split; [done|]. by apply IH, (level_kid rows k p).
Qed.

(** C39: a SQLite plan of distinct non-zero ids is always read, and read right: the recursion
    on ids ends (the calls never nest deeper than there are rows, and more fuel changes
    nothing); the nodes are the rows under the parents they name, in order; the text shows
    that tree, two blanks a level; and when every row follows its parent, each row is there
    exactly once. *)
Theorem parseSqlite_forest (r : StatementResult) (rows : list Row) :
  4 <= length (sr_columnNames r) → sqlite_rows (sr_tableData r) = Some rows → rows ≠ [] →
  NoDup (0%Z :: ids rows) →
  ∃ top,
    parseSqlite r =
      inr (match top with
           | [] => None
           | [root] => Some (mkPlan root false None None (display 0 root))
           | _ => Some (mkPlan (set_children top (named_node "QUERY PLAN")) false None None
                          (sconcat (map (display 0) top)))
           end) ∧
    shows rows 0 top ∧
    (∀ more, build rows (S (length rows) + more) 0 0 "" = inr (sconcat (map (display 0) top), top)) ∧
    (parents_first rows → pn_operation <$> (top ≫= preorder) ≡ₚ row_detail <$> rows).
Proof.
  intros Hcols Hrows Hne Hids. pose proof (last_level rows Hids) as Hlast.
  exists (forest rows (S (length rows)) 0). split_and!.
  - unfold parseSqlite. rewrite (proj2 (Nat.ltb_ge _ _) Hcols), Hrows.
    destruct rows as [|r0 rows']; [done|]. rewrite build_forest by done.
    unfold mbind, R_bind. destruct (forest _ _ 0) as [|t [|t' ts]]; [done| |done].
    simpl. by rewrite sapp_nil_r.
  - by apply forest_shows.
  - intros more. change (S (length rows) + more) with (S (length rows + more)).
    rewrite build_forest by (rewrite Nat.add_comm; by apply level_nil_more).
    by rewrite <-(forest_more rows (length rows) more).
  - intros Hp. rewrite forest_preorder. by rewrite below_all.
Qed.

Definition sample_plan : StatementResult :=
  mkStatementResult true "" ["id"; "parent"; "notused"; "detail"]
    [["2"; "0"; "0"; "SCAN a"]; ["9"; "0"; "0"; "USE TEMP B-TREE"]; ["12"; "9"; "0"; "child"]] 0 "".

Lemma parseSqlite_forest_witness :
  ∃ top, parseSqlite sample_plan =
    inr (Some (mkPlan (set_children top (named_node "QUERY PLAN")) false None None
                 (sconcat (map (display 0) top)))) ∧
    pn_operation <$> (top ≫= preorder) ≡ₚ ["SCAN a"; "USE TEMP B-TREE"; "child"].
Proof.
  destruct (parseSqlite_forest sample_plan
    [mkRow 2 0 "SCAN a"; mkRow 9 0 "USE TEMP B-TREE"; mkRow 12 9 "child"])
    as (top & Hparse & _ & Hbuild & Hall).
  - simpl. lia.
  - by vm_compute.
  - done.
  - apply (bool_decide_unpack _). by vm_compute.
  - exists top. split; [|apply Hall].
    + rewrite Hparse. specialize (Hbuild 0). revert Hbuild.
      match goal with |- ?b = _ → _ => let v := eval vm_compute in b in change b with v end.
      by intros [= _ <-].
    + intros [|r1 [|r2 [|r3 [|]]]] r0 l2 E; try discriminate E; injection E; intros; subst;
        simpl; first [by left|right; by right; left].
Defined.
