(* ===== verification/PlanErrors.v ===== *)
(** * What [parsePlan] returns and throws

    Every plan it returns carries the self times of its tree; it throws only where the
    engine's output is not what the parser takes for granted, and then says which. *)

From S2P Require Import Prelude Types ConnectionInfo Doubles Regex Explain ExplainProps SqlitePlan.

(** ** JSON plans *)

Lemma json_plans_ind (P : json → Prop) :
  (∀ j, (∀ l ps, j = JObject l → json_lookup "Plans" l = Some (JArray ps) → Forall P ps) → P j) →
  ∀ j, P j.
Proof.
  intros H. fix IH 1. intros j. apply H.
  destruct j as [|b|z|x|s|a|m]; intros l ps E; try discriminate E. injection E as <-.
  clear H. revert ps. induction m as [|[k v] m IHm]; simpl; intros ps; [done|].
  destruct (k =? "Plans")%string; [|apply IHm].
  destruct v as [|b|z|x|s|a|m']; intros E; try discriminate E.
  assert (Forall P a) as Ha; [|by injection E as <-].
  clear E IHm. induction a as [|j a IHa]; constructor; [apply IH|exact IHa].
Qed.

Lemma plans_of_lookup parse l :
  plans_of parse l =
  match json_lookup "Plans" l with Some (JArray ps) => mapM parse ps | _ => mret [] end.
Proof. induction l as [|[k v] l IH]; simpl; [done|]. by destruct (k =? "Plans")%string. Qed.

Lemma mapM_returned {A B} (f : A → R B) l ys :
  mapM f l = inr ys → Forall2 (λ x y, f x = inr y) l ys.
Proof.
  revert ys. induction l as [|x l IH]; intros ys H.
  - by injection H as <-.
  - cbn [mapM] in H. apply R_bind_inr in H as (y & Hy & H).
    apply R_bind_inr in H as (ys' & Hys & H). injection H as <-. constructor; [done|by apply IH].
Qed.

Lemma mapM_returns {A B} (f : A → R B) l :
  Forall (λ x, ∃ y, f x = inr y) l → ∃ ys, mapM f l = inr ys.
Proof.
  induction 1 as [|x l [y Hy] _ [ys Hys]]; [by exists []|].
  exists (y :: ys). cbn [mapM].
  by rewrite (R_bind_ok _ _ _ Hy), (R_bind_ok _ _ _ Hys).
Qed.

Lemma mapM_throws {A B} (f : A → R B) l e :
  mapM f l = inl e → ∃ x, x ∈ l ∧ f x = inl e.
Proof.
  induction l as [|x l IH]; intros H; [done|]. cbn [mapM] in H.
  apply R_bind_inl in H as [H|(y & Hy & H)]; [exists x; split; [left|done]|].
  apply R_bind_inl in H as [H|(ys & Hys & H)]; [|done].
  destruct (IH H) as (z & Hz & Ez). exists z. split; [by right|done].
Qed.

(** ** Nothing sets a self time before the end *)

Lemma all_nodes_children P n : all_nodes P n → Forall (all_nodes P) (pn_children n).
Proof. by intros []. Qed.

Lemma fresh_children cs n :
  fresh n → Forall (all_nodes fresh) cs → all_nodes fresh (set_children cs n).
Proof. by constructor. Qed.

Lemma postgresNode_fresh lib j p n : postgresNode lib j p = inr n → all_nodes fresh n.
Proof.
  revert p n. induction j as [j IH] using json_plans_ind. intros p n H.
  assert (∃ op detail children, Forall (all_nodes fresh) children ∧
    n = mkNode op detail (number j "Plan Rows") (number j "Total Cost") (number j "Actual Rows")
          (number j "Actual Loops") (node_total j p) None (node_properties lib j) children)
    as (op & detail & children & Hcs & ->); [|by constructor].
  destruct j; cbn [postgresNode] in H; returned H; injection H as <-;
    (eexists _, _, _; split; [|reflexivity]).
  all: try match goal with H : mret [] = inr _ |- _ => injection H as <-; constructor end.
  match goal with H : plans_of _ _ = inr _ |- _ => rewrite plans_of_lookup in H; rename H into Hp end.
  destruct (json_lookup "Plans" l) as [[]|] eqn:E; try (injection Hp as <-; constructor).
  specialize (IH _ _ eq_refl E). apply mapM_returned in Hp.
  clear E. induction Hp as [|c m cs ms Hc _ IHp]; constructor;
    apply Forall_cons in IH as [IHc IHcs]; [|by apply IHp].
  apply R_bind_inr in Hc as (q & _ & Hc). by eapply IHc.
Qed.

Lemma update_at_fresh p f n :
  (∀ m, all_nodes fresh m → all_nodes fresh (f m)) →
  all_nodes fresh n → all_nodes fresh (update_at p f n).
Proof.
  intros Hf. revert n. induction p as [|i p IH]; intros n Hn; [by apply Hf|].
  destruct Hn as [Hn Hcs]. apply fresh_children; [done|]. apply Forall_forall. intros m Hm.
  apply list_elem_of_lookup in Hm as [k Hk]. rewrite Forall_forall in Hcs.
  rewrite list_lookup_alter in Hk. case_decide.
  - apply fmap_Some in Hk as (c & E & ->). apply IH, Hcs. by apply list_elem_of_lookup_2 in E.
  - apply Hcs. by apply list_elem_of_lookup_2 in Hk.
Qed.

Lemma indent_tree_fresh flat :
  Forall (line_node ∘ snd) flat → all_nodes fresh (indent_tree flat).
Proof.
  intros H. unfold indent_tree.
  assert (all_nodes fresh (fst (named_node "Query", [((-1)%Z, @nil nat)]))) as Hst by by repeat constructor.
  revert Hst. generalize (named_node "Query", [((-1)%Z, @nil nat)]) as st.
  induction H as [|[d n] flat [Hleaf Hfresh] _ IH]; intros [root stack] Hst; [done|].
  apply IH. simpl in *. destruct (pop_deeper d stack) as [|[d' p] below]; [done|]. simpl.
  apply update_at_fresh; [|done]. intros m [Hm Hcs]. apply fresh_children; [done|].
  apply Forall_app. split; [done|]. repeat constructor; [done|]. by rewrite Hleaf.
Qed.

Lemma mysql_lines_nodes lines flat flat' :
  Forall (line_node ∘ snd) flat → mysql_lines flat lines = inr flat' →
  Forall (line_node ∘ snd) flat'.
Proof.
  revert flat. induction lines as [|line lines IH]; intros flat Hf H; [by injection H as <-|].
  cbn [mysql_lines] in H. apply R_bind_inr in H as (flat1 & H1 & H). eapply IH; [|exact H].
  unfold mysql_line in H1. destruct (find_str "-> " line 0) as [p|].
  - apply R_bind_inr in H1 as (n & Hn & H1). injection H1 as <-.
    apply Forall_app. split; [done|]. repeat constructor; by eapply mysql_node_line.
  - injection H1 as <-. destruct (sempty _); [done|]. by apply append_to_last_nodes.
Qed.

Lemma build_fresh rows fuel p depth raw raw' top :
  build rows fuel p depth raw = inr (raw', top) → Forall (all_nodes fresh) top.
Proof.
  revert p depth raw raw' top. induction fuel as [|fuel IH]; intros p depth raw raw' top H; [done|].
  cbn [build] in H. unfold mret, R_ret in H.
  enough (∀ l st raw' top, (∀ x out, st = inr (x, out) → Forall (all_nodes fresh) out) →
    foldl (build_row (λ id raw, build rows fuel id (S depth) raw) p depth) st l = inr (raw', top) →
    Forall (all_nodes fresh) top) as Hloop.
  { eapply Hloop; [|exact H]. intros x out [= _ <-]. constructor. }
  clear H raw raw' top. intros l. induction l as [|r l IHl]; intros st raw' top Hst H.
  - simpl in H. by eapply Hst.
  - eapply IHl; [|exact H]. clear H. intros x out Hx. unfold build_row in Hx.
    apply R_bind_inr in Hx as ([raw1 out1] & -> & Hx). specialize (Hst _ _ eq_refl).
    destruct (_ && _); [|by injection Hx as _ <-].
    apply R_bind_inr in Hx as ([raw2 children] & Hb & Hx). injection Hx as _ <-.
    apply Forall_app. split; [done|]. apply Forall_singleton, fresh_children; [done|by eapply IH].
Qed.

(** ** The plans returned *)

Lemma named_node_fresh op cs :
  Forall (all_nodes fresh) cs → all_nodes fresh (set_children cs (named_node op)).
Proof. by apply fresh_children. Qed.

Lemma parsePostgres_fresh lib r analyzed p :
  parsePostgres lib r analyzed = inr (Some p) → all_nodes fresh (pl_root p).
Proof.
  unfold parsePostgres. destruct (json_parse lib (firstColumn r)) as [doc|] eqn:Edoc; [|done].
  destruct (top_object doc) as [top|]; [|done]. destruct (json_find "Plan" top) as [plan|]; [|done].
  intros H. apply R_bind_inr in H as (root & Hroot & H). injection H as <-.
  by eapply postgresNode_fresh.
Qed.

Lemma single_root_fresh root : all_nodes fresh root → all_nodes fresh (single_root root).
Proof.
  intros H. unfold single_root. destruct (pn_children root) as [|c [|c' cs]] eqn:E; [done| |done].
  apply all_nodes_children in H. rewrite E in H. by apply Forall_inv in H.
Qed.

Lemma parseMysqlTree_fresh r analyzed p :
  parseMysqlTree r analyzed = inr (Some p) → all_nodes fresh (pl_root p).
Proof.
  unfold parseMysqlTree. intros H. apply R_bind_inr in H as (flat & Hflat & H).
  apply mysql_lines_nodes in Hflat; [|constructor].
  destruct flat as [|x flat]; [done|]. injection H as <-.
  by apply single_root_fresh, indent_tree_fresh.
Qed.

Lemma parseSqlite_fresh r p : parseSqlite r = inr (Some p) → all_nodes fresh (pl_root p).
Proof.
  unfold parseSqlite. destruct (_ <? 4); [done|].
  destruct (sqlite_rows _) as [[|row rows]|]; [done| |done].
  intros H. apply R_bind_inr in H as ([raw top] & Hb & H). apply build_fresh in Hb.
  destruct top as [|t [|t' ts]]; [done|..]; injection H as <-.
  - by apply Forall_inv in Hb.
  - by apply named_node_fresh.
Qed.

(** the times of a plan.  In every plan returned, of any engine, a node that has a total
    time has a self time, which is never negative nor a NaN, and is zero or the total less
    the sum of the children's totals; a node without a total has none; and apart from
    the self times the tree is the one the engine's parser built. *)
Lemma parsePlan_self_times (lib : JsonLib) (type : DatabaseType) (r : StatementResult)
    (analyzed : bool) :
  match parsePlan lib type r analyzed with
  | inr (Some p) =>
      all_nodes self_time_ok (pl_root p) ∧
      ∃ q, (parsePostgres lib r analyzed = inr (Some q) ∧ type = POSTGRESQL ∨
            parseMysqlTree r analyzed = inr (Some q) ∧ type = MYSQL ∨
            parseSqlite r = inr (Some q) ∧ type = SQLITE) ∧
        without_self (pl_root p) = without_self (pl_root q) ∧
        pl_raw p = pl_raw q ∧ pl_planningTimeMs p = pl_planningTimeMs q ∧
        pl_executionTimeMs p = pl_executionTimeMs q ∧ pl_analyzed p = pl_analyzed q
  | _ => True
  end.
Proof.
  destruct (parsePlan lib type r analyzed) as [|[p|]] eqn:H; [done| |done].
  unfold parsePlan in H. destruct (_ || _); [done|].
  apply R_bind_inr in H as ([q|] & Hq & H); [|done]. injection H as <-. simpl.
  split.
  - apply fillSelfTimes_ok. destruct type; try discriminate Hq;
      eauto using parsePostgres_fresh, parseMysqlTree_fresh, parseSqlite_fresh.
  - exists q. split; [destruct type; try discriminate Hq; auto|]. by rewrite fillSelfTimes_without.
Qed.

(** ** Which exceptions, and why *)

Definition only_throws {A} (e0 : exn) (m : R A) : Prop := ∀ e, m = inl e → e = e0.

Lemma only_throws_ret {A} e0 (x : A) : only_throws e0 (mret x).
Proof. by intros e. Qed.
Lemma only_throws_bind {A B} e0 (m : R A) (f : A → R B) :
  only_throws e0 m → (∀ x, m = inr x → only_throws e0 (f x)) → only_throws e0 (m ≫= f).
Proof. intros Hm Hf e [H|(x & Hx & H)]%R_bind_inl; [by apply Hm|by eapply Hf]. Qed.
Lemma only_throws_if {A} e0 (b : bool) (m1 m2 : R A) :
  only_throws e0 m1 → only_throws e0 m2 → only_throws e0 (if b then m1 else m2).
Proof. by destruct b. Qed.
Lemma only_throws_mapM {A B} e0 (f : A → R B) l :
  (∀ x, x ∈ l → only_throws e0 (f x)) → only_throws e0 (mapM f l).
Proof. intros H e (x & Hx & E)%mapM_throws. by eapply H. Qed.

Lemma value_string_type j key d : only_throws TypeError (value_string j key d).
Proof.
  intros e H. unfold value_string in H. destruct j; try (by injection H).
  destruct (json_lookup key l) as [[]|]; try (by injection H); discriminate H.
Qed.
Lemma value_bool_type j key d : only_throws TypeError (value_bool j key d).
Proof.
  intros e H. unfold value_bool in H. destruct j; try (by injection H).
  destruct (json_lookup key l) as [[]|]; try (by injection H); discriminate H.
Qed.

Create HintDb throws.
#[export] Hint Resolve only_throws_ret only_throws_bind only_throws_if value_string_type
  value_bool_type : throws.

Lemma node_operation_type j : only_throws TypeError (node_operation j).
Proof. unfold node_operation. eauto 15 with throws. Qed.
Lemma node_detail_type j : only_throws TypeError (node_detail j).
Proof. unfold node_detail, node_target. eauto 20 with throws. Qed.
Lemma child_parallel_type j p : only_throws TypeError (child_parallel j p).
Proof. unfold child_parallel. eauto with throws. Qed.
#[export] Hint Resolve node_operation_type node_detail_type child_parallel_type : throws.

Lemma postgresNode_type lib j p : only_throws TypeError (postgresNode lib j p).
Proof.
  revert p. induction j as [j IH] using json_plans_ind. intros p.
  destruct j; cbn [postgresNode]; apply only_throws_bind; eauto with throws; intros ? _;
    apply only_throws_bind; eauto with throws; intros ? _;
    (apply only_throws_bind; [|eauto with throws]); eauto with throws.
  rewrite plans_of_lookup. destruct (json_lookup "Plans" l) as [[]|] eqn:E; eauto with throws.
  specialize (IH _ _ eq_refl E). rewrite Forall_forall in IH.
  apply only_throws_mapM. intros c Hc. apply only_throws_bind; eauto with throws.
Qed.

(** the members the PostgreSQL parser reads as texts *)
Definition text_keys : list string :=
  ["Node Type"; "Join Type"; "Strategy"; "Relation Name"; "Alias"; "CTE Name"; "Function Name";
   "Index Name"].

Definition text_or_absent (o : option json) : Prop :=
  match o with None | Some (JString _) => True | _ => False end.
Definition bool_or_absent (o : option json) : Prop :=
  match o with None | Some (JBool _) => True | _ => False end.

(** a plan as PostgreSQL prints it: objects all the way down, texts where texts are read *)
Inductive typed_plan (j : json) : Prop :=
  typed_plan_intro l :
    j = JObject l →
    (∀ key, key ∈ text_keys → text_or_absent (json_lookup key l)) →
    bool_or_absent (json_lookup "Parallel Aware" l) →
    (∀ ps, json_lookup "Plans" l = Some (JArray ps) → Forall typed_plan ps) → typed_plan j.

Definition returns_some {A} (m : R A) : Prop := ∃ x, m = inr x.

Lemma returns_some_ret {A} (x : A) : returns_some (mret x).
Proof. by exists x. Qed.
Lemma returns_some_bind {A B} (m : R A) (f : A → R B) :
  returns_some m → (∀ x, returns_some (f x)) → returns_some (m ≫= f).
Proof. intros [x Hx] Hf. destruct (Hf x) as [y Hy]. exists y. by rewrite (R_bind_ok _ _ _ Hx). Qed.
Lemma returns_some_if {A} (b : bool) (m1 m2 : R A) :
  returns_some m1 → returns_some m2 → returns_some (if b then m1 else m2).
Proof. by destruct b. Qed.
#[export] Hint Resolve returns_some_ret returns_some_bind returns_some_if : throws.

Section typed.
Context (l : list (string * json)).
Context (Htext : ∀ key, key ∈ text_keys → text_or_absent (json_lookup key l)).
Context (Hbool : bool_or_absent (json_lookup "Parallel Aware" l)).

Lemma value_string_returns key d : inWords text_keys key = true → returns_some (value_string (JObject l) key d).
Proof.
  intros Hk%inWords_elem. specialize (Htext key Hk). simpl.
  destruct (json_lookup key l) as [[]|]; try done; by eexists.
Qed.
Lemma value_bool_returns d : returns_some (value_bool (JObject l) "Parallel Aware" d).
Proof. simpl. destruct (json_lookup "Parallel Aware" l) as [[]|]; try done; by eexists. Qed.

#[local] Hint Resolve value_bool_returns : throws.
#[local] Hint Extern 1 (returns_some (value_string _ _ _)) =>
  apply value_string_returns; reflexivity : throws.

Lemma node_operation_returns : returns_some (node_operation (JObject l)).
Proof. unfold node_operation. eauto 15 with throws. Qed.
Lemma node_detail_returns : returns_some (node_detail (JObject l)).
Proof. unfold node_detail, node_target. eauto 20 with throws. Qed.
Lemma child_parallel_returns p : returns_some (child_parallel (JObject l) p).
Proof. unfold child_parallel. eauto with throws. Qed.
End typed.

Lemma postgresNode_returns lib j p : typed_plan j → returns_some (postgresNode lib j p).
Proof.
  revert p. induction j as [j IH] using json_plans_ind. intros p [l -> Htext Hbool Hplans].
  cbn [postgresNode].
  apply returns_some_bind; [by apply node_operation_returns|intros ?].
  apply returns_some_bind; [by apply node_detail_returns|intros ?].
  apply returns_some_bind; [|eauto with throws]. rewrite plans_of_lookup.
  destruct (json_lookup "Plans" l) as [[]|] eqn:E; eauto with throws.
  apply mapM_returns. specialize (IH _ _ eq_refl E). specialize (Hplans _ eq_refl).
  rewrite Forall_forall in IH, Hplans. apply Forall_forall. intros c Hc.
  apply returns_some_bind; [by apply child_parallel_returns|]. intros q. by apply IH, Hplans.
Qed.

(** *** MySQL: the numbers of a line *)

Definition number_run (t : string) : Prop := t ≠ "" ∧ sall number_char t = true.

(** [t] is a number that a node's text gives: its estimated cost, the upper one of two, or its
    rows; or its actual rows, loops or the time of the last *)
Inductive mysql_number (text : string) : string → Prop :=
  | number_cost before x upper z after t :
      text = before +:+ "(cost=" +:+ x +:+ upper +:+ " rows=" +:+ z +:+ ")" +:+ after →
      number_run x → number_run z →
      (upper = "" ∧ t = x ∨ ∃ y, number_run y ∧ upper = ".." +:+ y ∧ t = y) ∨ t = z →
      mysql_number text t
  | number_actual before x y z w after t :
      text = before +:+ "(actual time=" +:+ x +:+ ".." +:+ y +:+ " rows=" +:+ z +:+
               " loops=" +:+ w +:+ ")" +:+ after →
      number_run x → number_run y → number_run z → number_run w → t ∈ [y; z; w] →
      mysql_number text t.

Lemma plan_matches_seq r1 r2 s cs s' cs' :
  matches (RSeq r1 r2) s cs s' cs' ↔ ∃ s1 cs1, matches r1 s cs s1 cs1 ∧ matches r2 s1 cs1 s' cs'.
Proof.
  split; [intros H; inversion H; eauto|]. intros (s1 & cs1 & H1 & H2). by eapply m_seq.
Qed.

Lemma consumed_run run s : consumed (run +:+ s) s = run.
Proof. unfold consumed. rewrite slen_app, Nat.add_sub. apply stake_app. Qed.

Lemma matches_number n s cs s' cs' :
  matches (number_group n) s cs s' cs' → ∃ t, number_run t ∧ s = t +:+ s' ∧ cs' = (n, t) :: cs.
Proof.
  unfold number_group. intros H. inversion H as [| | | | | |n' r s1 cs1 s2 cs2 Hm]; subst.
  inversion Hm; subst. rewrite consumed_run. eexists. split; [by split|done].
Qed.

Lemma search_matches r text m :
  regex_search r text = Some m → ∃ before s s', text = before +:+ s ∧ matches r s [] s' m.
Proof.
  induction text as [|c text IH]; cbn [regex_search];
    destruct (match_here r _) as [[n m']|] eqn:E; try done; intros H.
  3: { destruct (IH H) as (before & s & s' & -> & Hm). by exists (String c before), s, s'. }
  all: injection H as <-; unfold match_here in E;
    apply rmatch_sound in E as (s' & cs' & Hm & [= _ <-]); by eexists "", _, s'.
Qed.

Lemma cost_numbers text m :
  regex_search costRe text = Some m →
  mysql_number text (match captured 2 m with Some t => t | None => group_text 1 m end) ∧
  mysql_number text (group_text 3 m).
Proof.
  intros (before & s & s' & -> & H)%search_matches. unfold costRe in H.
  apply plan_matches_seq in H as (s5 & c5 & H & [-> ->]%matches_lit).
  apply plan_matches_seq in H as (s4 & c4 & H & (z & Hz & -> & ->)%matches_number).
  apply plan_matches_seq in H as (s3 & c3 & H & [-> ->]%matches_lit).
  apply plan_matches_seq in H as (s2 & c2 & H & Ho).
  apply plan_matches_seq in H as (s1 & c1 & [-> ->]%matches_lit & (x & Hx & -> & ->)%matches_number).
  inversion Ho as [| | | |r s6 c6|r s6 c6 s7 c7 Hm|]; subst.
  - split; (eapply (number_cost _ before x "" z); [reflexivity|done|done|]); [left; by left|by right].
  - apply plan_matches_seq in Hm as (s8 & c8 & [-> ->]%(matches_lit "..") & (y & Hy & -> & ->)%matches_number).
    split; (eapply (number_cost _ before x (".." +:+ y) z);
      [by rewrite !sapp_assoc|done|done|]); [left; right; by exists y|by right].
Qed.

Lemma actual_numbers text m :
  regex_search actualRe text = Some m →
  ∀ n, n ∈ [2; 3; 4] → mysql_number text (group_text n m).
Proof.
  intros (before & s & s' & -> & H)%search_matches. unfold actualRe in H.
  apply plan_matches_seq in H as (s8 & c8 & H & [-> ->]%matches_lit).
  apply plan_matches_seq in H as (s7 & c7 & H & (w & Hw & -> & ->)%matches_number).
  apply plan_matches_seq in H as (s6 & c6 & H & [-> ->]%matches_lit).
  apply plan_matches_seq in H as (s5 & c5 & H & (z & Hz & -> & ->)%matches_number).
  apply plan_matches_seq in H as (s4 & c4 & H & [-> ->]%matches_lit).
  apply plan_matches_seq in H as (s3 & c3 & H & (y & Hy & -> & ->)%matches_number).
  apply plan_matches_seq in H as (s2 & c2 & H & [-> ->]%matches_lit).
  apply plan_matches_seq in H as (s1 & c1 & [-> ->]%matches_lit & (x & Hx & -> & ->)%matches_number).
  intros n Hn. eapply (number_actual _ before x y z w); [reflexivity|done..|].
  repeat (apply elem_of_cons in Hn as [->|Hn]; [unfold group_text, captured; simpl; set_solver|]).
  by apply elem_of_nil in Hn.
Qed.

(** the numbers of the lines that describe nodes, behind their arrows *)
Definition plan_number (lines : list string) (t : string) : Prop :=
  ∃ line arrow, line ∈ lines ∧ find_str "-> " line 0 = Some arrow ∧
    mysql_number (sdrop (arrow + 3) line) t.

(** [m] throws only a conversion error, at one of the numbers [N] that no double can hold *)
Definition throws_number {A} (N : string → Prop) (m : R A) : Prop :=
  ∀ e, m = inl e → e = ConversionError ∧ ∃ t, N t ∧ stod t = None.

Lemma stod_number (N : string → Prop) t : N t → throws_number N (stod_throws t).
Proof.
  intros Ht e H. unfold stod_throws in H. destruct (stod t) eqn:E; [done|].
  injection H as <-. split; [done|]. by exists t.
Qed.
Lemma throws_number_ret {A} N (x : A) : throws_number N (mret x).
Proof. by intros e. Qed.
Lemma throws_number_bind {A B} N (m : R A) (f : A → R B) :
  throws_number N m → (∀ x, throws_number N (f x)) → throws_number N (m ≫= f).
Proof. intros Hm Hf e [H|(x & _ & H)]%R_bind_inl; [by apply Hm|by eapply Hf]. Qed.
Lemma throws_number_mono {A} (N N' : string → Prop) (m : R A) :
  (∀ t, N t → N' t) → throws_number N m → throws_number N' m.
Proof. intros HN Hm e [-> (t & Ht & E)]%Hm. split; [done|]. exists t. auto. Qed.
#[export] Hint Resolve stod_number throws_number_ret throws_number_bind : throws.

Lemma mysql_node_throws text : throws_number (mysql_number text) (mysql_node text).
Proof.
  unfold mysql_node. apply throws_number_bind.
  - destruct (regex_search costRe text) as [m|] eqn:E; [|auto with throws].
    destruct (cost_numbers _ _ E). eauto 10 with throws.
  - intros [cost estimated]. apply throws_number_bind; [|by intros [[] ?]; auto with throws].
    destruct (regex_search actualRe text) as [m|] eqn:E.
    + pose proof (actual_numbers _ _ E) as Hm.
      repeat (apply throws_number_bind; [apply stod_number, Hm; set_solver|intros ?]).
      apply throws_number_ret.
    + destruct (regex_search neverRe text); auto with throws.
Qed.

Lemma mysql_lines_throws lines flat : throws_number (plan_number lines) (mysql_lines flat lines).
Proof.
  revert flat. induction lines as [|line lines IH]; intros flat; cbn [mysql_lines];
    [auto with throws|]. apply throws_number_bind.
  - unfold mysql_line. destruct (find_str _ _ _) as [arrow|] eqn:E; [|auto with throws].
    apply throws_number_bind; [|auto with throws]. eapply throws_number_mono, mysql_node_throws.
    intros t Ht. exists line, arrow. split; [by left|done].
  - intros flat'. eapply throws_number_mono, IH. intros t (l & arrow & Hl & Ht).
    exists l, arrow. split; [by right|done].
Qed.

(** ** The errors of [parsePlan] *)

Lemma build_throws rows fuel p depth raw : only_throws Diverges (build rows fuel p depth raw).
Proof.
  revert p depth raw. induction fuel as [|fuel IH]; intros p depth raw; cbn [build].
  { intros e H. by injection H. }
  enough (∀ l st, only_throws Diverges st → only_throws Diverges
    (foldl (build_row (λ id raw, build rows fuel id (S depth) raw) p depth) st l)) as Hl
    by (apply Hl, only_throws_ret).
  intros l. induction l as [|r l IHl]; intros st Hst; [done|]. apply IHl.
  apply only_throws_bind; [done|]. intros [raw1 out] _. apply only_throws_if; [|by intros ?].
  apply only_throws_bind; [apply IH|]. intros [raw2 ch] _. apply only_throws_ret.
Qed.

Lemma parseSqlite_diverges r e :
  parseSqlite r = inl e →
  e = Diverges ∧ ∃ rows, sqlite_rows (sr_tableData r) = Some rows ∧ ¬ NoDup (0%Z :: ids rows).
Proof.
  unfold parseSqlite. destruct (_ <? 4); [done|].
  destruct (sqlite_rows (sr_tableData r)) as [[|row rows]|]; [done| |done]. intros H.
  apply R_bind_inl in H as [H|([raw top] & _ & H)]; [|done].
  split; [by eapply build_throws|]. eexists. split; [done|]. intros Hnd.
  rewrite build_forest in H; [done|by apply last_level].
Qed.

(** C40: when and why parsing throws.  A [type_error] comes only from a PostgreSQL plan that is
    not objects with texts where texts are read; a conversion error only from a MySQL plan that
    has, on a line that describes a node, a number of the cost or of the actual figures that
    does not read or fits no double; the recursion on SQLite ids ends unless they repeat or
    one is zero.  The first two do happen on output that is not a plan, where the header
    promises no plan instead. *)
Theorem parsePlan_errors (lib : JsonLib) (type : DatabaseType) (r : StatementResult)
    (analyzed : bool) :
  match parsePlan lib type r analyzed with
  | inl TypeError =>
      type = POSTGRESQL ∧ ∃ doc top plan, json_parse lib (firstColumn r) = Some doc ∧
        top_object doc = Some top ∧ json_find "Plan" top = Some plan ∧ ¬ typed_plan plan
  | inl ConversionError =>
      type = MYSQL ∧ ∃ t, plan_number (getlines newline (firstColumn r)) t ∧ stod t = None
  | inl Diverges =>
      type = SQLITE ∧ ∃ rows, sqlite_rows (sr_tableData r) = Some rows ∧ ¬ NoDup (0%Z :: ids rows)
  | inr _ => True
  end ∧
  (let output text := mkStatementResult true "" ["QUERY PLAN"] [[text]] 0 "" in
   let parse _ := Some (JArray [JObject [("Plan", JInt 5)]]) in
   parsePlan (mkJsonLib parse (λ _, "") (λ _, "")) POSTGRESQL (output "[{'Plan': 5}]") false =
     inl TypeError ∧
   parsePlan lib MYSQL (output "-> Sort  (cost=e rows=1)") false = inl ConversionError).
Proof.
  split.
  - destruct (parsePlan lib type r analyzed) as [e|] eqn:H; [|done]. unfold parsePlan in H.
    destruct (_ || _); [done|]. apply R_bind_inl in H as [H|(? & _ & H)]; [|done].
    destruct type; try discriminate H.
    + by destruct (parseSqlite_diverges _ _ H) as [-> Hd].
    + revert H. unfold parsePostgres, mret, R_ret.
      destruct (json_parse lib (firstColumn r)) as [doc|]; [|by intros ?].
      destruct (top_object doc) as [top|] eqn:Etop; [|by intros ?].
      destruct (json_find "Plan" top) as [plan|] eqn:Eplan; [|by intros ?].
      intros [H|(? & _ & H)]%R_bind_inl; [|discriminate H].
      rewrite (postgresNode_type _ _ _ _ H). split; [done|]. exists doc, top, plan.
      split_and!; [done..|]. intros [n Hn]%(postgresNode_returns lib _ false). congruence.
    + unfold parseMysqlTree in H. apply R_bind_inl in H as [H|(? & _ & H)]; [|discriminate H].
      by destruct (mysql_lines_throws _ _ _ H) as [-> Ht].
  - by vm_compute.
Qed.
