(* ===== verification/Redis.v ===== *)
(** * The Redis backend

    [src/redis_connection.cpp] and [include/dearsql/backends/redis_connection.hpp]: the
    command splitter, the texts of replies, and the connection: one hiredis context shared
    by a connection and the handles of its logical databases, each of which switches the
    server to its own index before it sends anything.

    hiredis and the server behind it are the parameter [Hiredis]: what each command is
    answered, from all that was sent before.  Commands go through a queue, as in hiredis:
    appending adds to it and every reply read takes the oldest.  An operation that holds the
    mutex is one transition of the shared state [World]. *)

From S2P Require Import Prelude Types ConnectionInfo Database.

(** ** Commands typed by hand *)

Record Split := mkSplit {
  sp_parts : list string;
  sp_current : string;
  sp_quote : option ascii   (* the open quote: [inQuotes] and [quoteChar] *)
}.

Definition split_step (st : Split) (c : ascii) : Split :=
  let '(mkSplit parts current quote) := st in
  match quote with
  | None =>
      if (c =? dquote)%char || (c =? squote)%char then mkSplit parts current (Some c)
      else if isspace c then
        if sempty current then st else mkSplit (parts ++ [current]) "" None
      else mkSplit parts (current +:+ str1 c) None
  | Some q =>
      if (c =? q)%char then mkSplit parts current None
      else mkSplit parts (current +:+ str1 c) quote
  end.

Definition split_all (command : string) : Split :=
  foldl split_step (mkSplit [] "" None) (list_ascii_of_string command).

Definition parseRedisCommand (command : string) : list string :=
  let st := split_all command in
  if sempty (sp_current st) then sp_parts st else sp_parts st ++ [sp_current st].

(** ** Replies *)

(** [redisReply]; the types past RESP2 are [ROther], with their text when they have one *)
Inductive Reply :=
  | RString (s : string)
  | RStatus (s : string)
  | RError (s : string)
  | RVerb (s : string)
  | RInteger (z : Z)
  | RNil
  | RArray (l : list Reply)
  | ROther (str : option string).

Definition is_error (r : Reply) : bool := match r with RError _ => true | _ => false end.

(** [reply->str], as a [const char*] *)
Definition reply_str (r : Reply) : option string :=
  match r with
  | RString s | RStatus s | RError s | RVerb s => Some (c_str s)
  | ROther str => c_str <$> str
  | _ => None
  end.

(** [std::string(reply->str, reply->len)] of an error *)
Definition reply_text (r : Reply) : string :=
  match r with
  | RString s | RStatus s | RError s | RVerb s => s
  | ROther (Some s) => s
  | _ => ""
  end.

(** [element] and [elements] *)
Definition elements (r : Reply) : list Reply := match r with RArray l => l | _ => [] end.

Fixpoint formatRedisReply (r : Reply) : string :=
  match r with
  | RString s | RStatus s => s
  | RArray l => "[" +:+ sjoin ", " (map formatRedisReply l) +:+ "]"
  | RInteger z => to_string z
  | RNil => NULL_SENTINEL
  | RError s => "ERROR: " +:+ s
  | RVerb _ | ROther _ => "UNKNOWN"
  end.

Definition quoted_str (r : Reply) : string :=
  str1 dquote +:+ default "" (reply_str r) +:+ str1 dquote.

(** the second of two elements, when it is an array: the members of an SSCAN or HSCAN *)
Definition scanned (r : Reply) : Reply :=
  match r with RArray [_; RArray l] => RArray l | _ => r end.

(** [e0 e1 e2 e3 ...] as pairs; an odd last element is dropped *)
Fixpoint reply_pairs (l : list Reply) : list (Reply * Reply) :=
  match l with x :: y :: l => (x, y) :: reply_pairs l | _ => [] end.

Definition preview_list (open close : string) (n : nat) (items : list string) (total : nat)
    : string :=
  open +:+ sjoin ", " (take n items) +:+ (if n <? total then ", ..." else "") +:+ close.

(** [preview_list] of pairs: up to five of them, an ellipsis past ten elements *)
Definition preview_pairs (open close : string) (item : Reply * Reply → string) (l : list Reply)
    : string :=
  open +:+ sjoin ", " (take 5 (map item (reply_pairs l))) +:+
  (if 10 <? length l then ", ..." else "") +:+ close.

Definition formatRedisPreview (r : Reply) (type : string) : string :=
  if (type =? "string")%string then
    match r with RString s => s | _ => "[nil]" end
  else if (type =? "list")%string then
    match r with
    | RArray l => preview_list "[" "]" 5 (map quoted_str l) (length l)
    | _ => "[nil]"
    end
  else if (type =? "set")%string then
    match scanned r with
    | RArray l => preview_list "{" "}" 5 (map quoted_str l) (length l)
    | _ => "[nil]"
    end
  else if (type =? "hash")%string then
    match scanned r with
    | RArray l =>
        preview_pairs "{" "}" (λ '(k, v), quoted_str k +:+ ": " +:+ quoted_str v) l
    | _ => "[nil]"
    end
  else if (type =? "zset")%string then
    match r with
    | RArray l =>
        preview_pairs "[" "]"
          (λ '(k, v), quoted_str k +:+ ":" +:+ default "" (reply_str v)) l
    | _ => "[nil]"
    end
  else "".

(** ** The shared state *)

(** what the server saw *)
Inductive event := Connected | Sent (args : list string).

Record World := mkWorld {
  w_sent : list event;
  w_pending : list (list string);   (* appended, reply not read yet *)
  w_ctx : bool;                     (* [ctx] is not null *)
  w_selectedDb : Z;                 (* [RedisState::selectedDb] *)
  w_numDatabases : Z;
  w_dbCountKnown : bool;
  w_connSelected : Z                (* [RedisConnection::selectedDb_] *)
}.

Inductive connect_result := ConnectOk | NoContext | ConnectError (errstr : string).

(** [redisCreateSSLContext] and [redisInitiateSSLWithContext] *)
Inductive tls_result := TlsOk | TlsContext (err : string) | TlsHandshake (errstr : string).

Record Hiredis := mkHiredis {
  (** the reply to a command after what was sent; nothing for a null reply *)
  hr_reply : list event → list string → option Reply;
  (** [ctx->errstr] *)
  hr_errstr : list event → string;
  (** [redisConnectWithTimeout] *)
  hr_connect : list event → connect_result;
  (** the TLS set-up, for the certificate path given *)
  hr_tls : list event → option string → tls_result;
  (** [DEARSQL_HAS_HIREDIS_SSL] *)
  hr_has_ssl : bool
}.

Definition Sess (A : Type) : Type := World → A * World.
#[export] Instance Sess_ret : MRet Sess := λ A x w, (x, w).
#[export] Instance Sess_bind : MBind Sess := λ A B f m w, let '(x, w') := m w in f x w'.

Definition get {A} (f : World → A) : Sess A := λ w, (f w, w).
Definition modify (f : World → World) : Sess unit := λ w, (tt, f w).

Definition set_selectedDb (n : Z) (w : World) : World :=
  mkWorld (w_sent w) (w_pending w) (w_ctx w) n (w_numDatabases w) (w_dbCountKnown w)
    (w_connSelected w).
Definition set_connSelected (n : Z) (w : World) : World :=
  mkWorld (w_sent w) (w_pending w) (w_ctx w) (w_selectedDb w) (w_numDatabases w)
    (w_dbCountKnown w) n.
Definition set_count (n : Z) (known : bool) (w : World) : World :=
  mkWorld (w_sent w) (w_pending w) (w_ctx w) (w_selectedDb w) n known (w_connSelected w).
Definition set_ctx (sent : list event) (open : bool) (w : World) : World :=
  mkWorld sent [] open (w_selectedDb w) (w_numDatabases w) (w_dbCountKnown w)
    (w_connSelected w).
Definition set_queue (sent : list event) (pending : list (list string)) (w : World) : World :=
  mkWorld sent pending (w_ctx w) (w_selectedDb w) (w_numDatabases w) (w_dbCountKnown w)
    (w_connSelected w).

(** [cleanup]: the context goes, and with it the replies not read *)
Definition cleanup : Sess unit := modify (λ w, set_ctx (w_sent w) false w).

Section hiredis.
Context (hr : Hiredis).

Definition redisAppendCommand (args : list string) : Sess unit :=
  modify (λ w, set_queue (w_sent w) (w_pending w ++ [args]) w).

(** the reply to the oldest command without one; nothing for an error *)
Definition redisGetReply : Sess (option Reply) := λ w,
  match w_pending w with
  | [] => (None, w)
  | args :: rest => (hr_reply hr (w_sent w) args, set_queue (w_sent w ++ [Sent args]) rest w)
  end.

Definition redisCommand (args : list string) : Sess (option Reply) :=
  redisAppendCommand args ;; redisGetReply.

Definition errstr : Sess string := get (λ w, c_str (hr_errstr hr (w_sent w))).

(** the text of a failure: the server's, or [otherwise] without a reply *)
Definition failure (r : option Reply) (otherwise : string) : string :=
  match r with Some r => reply_text r | None => otherwise end.

Definition failed (r : option Reply) : bool :=
  match r with Some r => is_error r | None => true end.

(** ** What a handle does under the mutex *)

Definition ensureSelectedLocked (index : Z) : Sess bool :=
  ctx ← get w_ctx;
  if negb ctx then mret false
  else
    selected ← get w_selectedDb;
    if (selected =? index)%Z then mret true
    else
      reply ← redisCommand ["SELECT"; to_string index];
      if failed reply then mret false
      else modify (set_selectedDb index) ;; mret true.

(** [std::strtoull] in base 10 *)
Definition strtoull (s : string) : Z :=
  let top := (2 ^ 64 - 1)%Z in
  match strtol s with
  | None => 0%Z
  | Some z => if (top <? Z.abs z)%Z then top else (z `mod` 2 ^ 64)%Z
  end.

(** the string elements of a batch, up to the limit; whether the limit was reached *)
Fixpoint take_keys (batch : list Reply) (limit : Z) (keys : list string) : list string * bool :=
  match batch with
  | [] => (keys, false)
  | RString k :: batch =>
      let keys := keys ++ [k] in
      if (limit <=? Z.of_nat (length keys))%Z then (keys, true) else take_keys batch limit keys
  | _ :: batch => take_keys batch limit keys
  end.

Definition scan_command (cursor : Z) (pattern : string) : list string :=
  ["SCAN"; to_string cursor; "MATCH"; c_str pattern; "COUNT"; "200"].

(** the SCAN loop; [fuel] bounds the batches, and nothing is returned without any left *)
Fixpoint scan_from (fuel : nat) (pattern : string) (limit cursor : Z) (keys : list string)
    : Sess (option (list string)) :=
  match fuel with
  | 0 => mret None
  | S fuel =>
      reply ← redisCommand (scan_command cursor pattern);
      match reply with
      | Some (RArray [next; batch]) =>
          let '(keys, full) := take_keys (elements batch) limit keys in
          let cursor := if full : bool then 0%Z else strtoull (default "" (reply_str next)) in
          if (cursor =? 0)%Z then mret (Some keys) else scan_from fuel pattern limit cursor keys
      | _ => mret (Some keys)
      end
  end.

Definition scanKeysLocked (fuel : nat) (pattern : string) (limit : Z)
    : Sess (option (list string)) :=
  ctx ← get w_ctx;
  if negb ctx then mret (Some []) else scan_from fuel pattern limit 0 [].

Record RedisKey := mkKey {
  key_name : string;
  key_type : string;
  key_value : string;
  key_ttl : Z;
  key_size : Z
}.

Definition details_commands (name : string) : list (list string) :=
  let n := c_str name in [["TYPE"; n]; ["TTL"; n]; ["MEMORY"; "USAGE"; n]].

(** the three replies about a key *)
Definition read_details (name : string) : Sess RedisKey :=
  type ← redisGetReply;
  ttl ← redisGetReply;
  size ← redisGetReply;
  let int r := match r with Some (RInteger z) => z | _ => (-1)%Z end in
  mret (mkKey name (match type with Some (RStatus s) => c_str s | _ => "unknown" end) ""
          (int ttl) (int size)).

Definition preview_command (k : RedisKey) : list string :=
  let n := c_str (key_name k) in
  if (key_type k =? "string")%string then ["GET"; n]
  else if (key_type k =? "list")%string then ["LRANGE"; n; "0"; "4"]
  else if (key_type k =? "set")%string then ["SSCAN"; n; "0"; "COUNT"; "5"]
  else if (key_type k =? "zset")%string then ["ZRANGE"; n; "0"; "4"; "WITHSCORES"]
  else if (key_type k =? "hash")%string then ["HSCAN"; n; "0"; "COUNT"; "5"]
  else ["TYPE"; n].

Definition read_preview (k : RedisKey) : Sess RedisKey :=
  reply ← redisGetReply;
  mret (mkKey (key_name k) (key_type k)
          (match reply with
           | Some r => formatRedisPreview r (key_type k)
           | None => "[error]"
           end) (key_ttl k) (key_size k)).

(** the pipeline: everything is sent before anything is read *)
Definition key_details (names : list string) : Sess (list RedisKey) :=
  mapM redisAppendCommand (names ≫= details_commands) ;;
  keys ← mapM read_details names;
  mapM redisAppendCommand (map preview_command keys) ;;
  mapM read_preview keys.

Definition no_key : RedisKey := mkKey "" "" "" (-1) (-1).

Definition fetchKeyDetails (index : Z) (names : list string) : Sess (list RedisKey) :=
  selected ← ensureSelectedLocked index;
  if (selected : bool) then key_details names
  else mret (replicate (length names) no_key).

(** the scan of [tables], [getTableData] and [getRowCount] *)
Definition select_and_scan (fuel : nat) (index : Z) (pattern : string) (limit : Z)
    : Sess (option (option (list string))) :=
  selected ← ensureSelectedLocked index;
  if (selected : bool) then keys ← scanKeysLocked fuel pattern limit; mret (Some keys)
  else mret None.

(** ** The operations of a handle *)

Record Handle := mkHandle { h_index : Z; h_connName : string }.

Definition key_prefix (k : string) : string :=
  match find_char ":" k 0 with Some pos => substr k 0 pos | None => k end.

(** the count of each prefix is not read: its keys, sorted *)
Definition key_groups (keyNames : list string) : list string :=
  unique String.eqb (stable_sort String.ltb (map key_prefix keyNames)).

Definition redisTable (h : Handle) (name : string) (columns : list Column) : Table :=
  mkTable name "" "" "" (h_connName h +:+ ".db" +:+ to_string (h_index h) +:+ "." +:+ name)
    columns [] [] [] (-1)%Z.

Definition tables (fuel : nat) (h : Handle) : Sess (option (list Table)) :=
  ctx ← get w_ctx;
  if negb ctx then mret (Some [])
  else
    scanned ← select_and_scan fuel (h_index h) "*" 10000;
    mret (match scanned with
          | None => Some []
          | Some None => None
          | Some (Some keyNames) =>
              Some (map (λ name, redisTable h name [])
                      ("*" :: map (λ prefix, prefix +:+ ":*") (key_groups keyNames)))
          end).

Definition views (h : Handle) : list Table := [].

Definition keyColumn : Column := mkColumn "Key" "string" "" "" true true false false.
Definition otherColumn (name : string) : Column :=
  mkColumn name "string" "" "" false false false false.

Definition describeTable (h : Handle) (tableName : string) : Table :=
  redisTable h tableName (keyColumn :: map otherColumn ["Type"; "Value"; "TTL"; "Size"]).

Definition one_result (s : StatementResult) : QueryResult := mkQueryResult [s] [].
Definition failed_result (message : string) : QueryResult :=
  one_result (mkStatementResult false message [] [] 0 "").

Definition execute (h : Handle) (command : string) : Sess QueryResult :=
  match parseRedisCommand command with
  | [] => mret (failed_result "Empty command")
  | parts =>
      ctx ← get w_ctx;
      if negb ctx then mret (failed_result "Not connected to Redis server")
      else
        selected ← ensureSelectedLocked (h_index h);
        if negb selected then
          mret (failed_result ("Failed to switch to Redis database db" +:+ to_string (h_index h)))
        else
          reply ← redisCommand parts;
          match reply with
          | None =>
              err ← errstr;
              mret (failed_result (if sempty err then "Failed to execute command" else err))
          | Some r =>
              mret (if is_error r then failed_result (reply_text r)
                    else one_result
                           (mkStatementResult true "" ["result"] [[formatRedisReply r]] 0 ""))
          end
  end.

Definition size_text (size : Z) : string :=
  if (size <? 0)%Z then "-"
  else if (size <? 2 ^ 10)%Z then to_string size +:+ " B"
  else if (size <? 2 ^ 20)%Z then fixed_point 1 (to_double size) (2 ^ 10) +:+ " KB"
  else fixed_point 1 (to_double size) (2 ^ 20) +:+ " MB".

Definition key_row (k : RedisKey) : list string :=
  [key_name k; key_type k; key_value k; to_string (key_ttl k); size_text (key_size k)].

Definition table_pattern (t : Table) : string := if sempty (tbl_name t) then "*" else tbl_name t.

Definition sort_names (names : list string) : list string := stable_sort String.ltb names.

(** for [0 <= offset] and [0 <= limit]: other arguments take iterators out of the vector.  The
    mutex is released between the scan and the details. *)
Definition getTableData (fuel : nat) (h : Handle) (t : Table) (limit offset : Z)
    : Sess (option (list (list string))) :=
  scanned ← select_and_scan fuel (h_index h) (table_pattern t) (limit + offset);
  match scanned with
  | None => mret (Some [])
  | Some None => mret None
  | Some (Some keyNames) =>
      if (Z.of_nat (length keyNames) <=? offset)%Z then mret (Some [])
      else
        keys ← fetchKeyDetails (h_index h) (sort_names keyNames);
        mret (Some (map key_row (take (Z.to_nat limit) (drop (Z.to_nat offset) keys))))
  end.

Definition getColumnNames (h : Handle) (t : Table) : list string :=
  ["Key"; "Type"; "Value"; "TTL"; "Size"].

Definition getRowCount (fuel : nat) (h : Handle) (t : Table) : Sess (option Z) :=
  scanned ← select_and_scan fuel (h_index h) (table_pattern t) 10000;
  mret (match scanned with
        | None => Some 0%Z
        | Some keyNames => (λ l, Z.of_nat (length l)) <$> keyNames
        end).

(** ** The connection *)

Section connection.
Context (ci : ConnectionInfo).

Definition wants_tls : bool :=
  match ci_sslmode ci with
  | Require_ | VerifyCA | VerifyFull => hr_has_ssl hr
  | _ => false
  end.

Definition ca_path : option string :=
  if sempty (ci_sslCACertPath ci) then None else Some (c_str (ci_sslCACertPath ci)).

(** the error of the connection and the TLS set-up; a connection that is made is [Connected] *)
Definition connect : Sess (option string) := λ w,
  match hr_connect hr (w_sent w) with
  | NoContext => (Some "Failed to allocate redis context", w)
  | ConnectError err => (Some (c_str err), w)
  | ConnectOk =>
      let w := set_ctx (w_sent w ++ [Connected]) true w in
      if wants_tls then
        match hr_tls hr (w_sent w) ca_path with
        | TlsOk => (None, w)
        | TlsContext err => (Some ("Redis SSL context failed: " +:+ err), w)
        | TlsHandshake err =>
            (Some (if sempty (c_str err) then "Redis TLS handshake failed" else c_str err), w)
        end
      else (None, w)
  end.

(** a command whose failure fails [open]: its error *)
Definition required (args : list string) (otherwise : string) : Sess (option string) :=
  reply ← redisCommand args;
  mret (if failed reply then Some (failure reply otherwise) else None).

Definition auth : Sess (option string) :=
  if sempty (ci_password ci) then mret None
  else
    required
      ("AUTH" :: (if sempty (ci_username ci) then [] else [c_str (ci_username ci)])
         ++ [c_str (ci_password ci)]) "Authentication failed".

Definition ping : Sess (option string) := required ["PING"] "Connection test failed".

(** the steps up to the first that fails *)
Fixpoint first_failure (steps : list (Sess (option string))) : Sess (option string) :=
  match steps with
  | [] => mret None
  | step :: steps =>
      error ← step;
      match error with Some err => mret (Some err) | None => first_failure steps end
  end.

Definition discover_count : Sess unit :=
  modify (set_count 16 false) ;;
  reply ← redisCommand ["CONFIG"; "GET"; "databases"];
  match reply with
  | Some (RArray [_; RString n]) =>
      if (0 <? atoi (c_str n))%Z then modify (set_count (atoi (c_str n)) true) else mret tt
  | _ => mret tt
  end.

(** [SELECT] and, when the server accepts, both records of the index *)
Definition select_index (idx : Z) : Sess bool :=
  reply ← redisCommand ["SELECT"; to_string idx];
  if failed reply then mret false
  else modify (set_selectedDb idx) ;; modify (set_connSelected idx) ;; mret true.

Definition select_requested : Sess unit :=
  modify (set_selectedDb 0) ;;
  modify (set_connSelected 0) ;;
  n ← get w_numDatabases;
  match (if sempty (ci_database ci) then None else stoi (ci_database ci)) with
  | Some idx =>
      if (0 <=? idx)%Z && (idx <? n)%Z then select_index idx ;; mret tt else mret tt
  | None => mret tt
  end.

Definition open : Sess Status :=
  ctx ← get w_ctx;
  if (ctx : bool) then mret (true, "")
  else
    error ← first_failure [connect; auth; ping];
    match error with
    | Some err => cleanup ;; mret (false, err)
    | None => discover_count ;; select_requested ;; mret (true, "")
    end.

Definition close : Sess unit := cleanup ;; modify (set_selectedDb 0).

Definition isOpen : Sess bool := get w_ctx.

(** the handles are cached by index in [dbCache], which gives equal requests one object *)
Definition database (name : string) : Sess (option Handle) :=
  selected ← get w_connSelected;
  mret (match (if sempty name then Some selected else stoi name) with
        | Some idx => Some (mkHandle idx (ci_name ci))
        | None => None
        end).

Definition databases : Sess (list (option Handle)) :=
  ctx ← get w_ctx;
  if negb ctx then mret []
  else
    count ← get w_numDatabases;
    mapM (database ∘ to_string) (seqZ 0 count).
End connection.

Definition selectDatabase (dbIndex : Z) : Sess bool :=
  ctx ← get w_ctx;
  n ← get w_numDatabases;
  if negb ctx then mret false
  else if (dbIndex <? 0)%Z || (n <=? dbIndex)%Z then mret false
  else select_index dbIndex.

Definition getKeys (fuel : nat) (pattern : string) (limit : Z) : Sess (option (list RedisKey)) :=
  ctx ← get w_ctx;
  if negb ctx then mret (Some [])
  else
    scanned ← scan_from fuel pattern limit 0 [];
    match scanned with
    | None => mret None
    | Some keyNames => keys ← key_details (sort_names keyNames); mret (Some keys)
    end.

(** a connection's read of one key: nothing without a context *)
Definition key_command (args : list string) : Sess (option Reply) :=
  ctx ← get w_ctx;
  if negb ctx then mret None else redisCommand args.

Definition getKeyType (key : string) : Sess string :=
  reply ← key_command ["TYPE"; c_str key];
  mret (match reply with Some (RStatus s) => c_str s | _ => "unknown" end).

Definition getKeyTTL (key : string) : Sess Z :=
  reply ← key_command ["TTL"; c_str key];
  mret (match reply with Some (RInteger z) => z | _ => (-1)%Z end).

Definition value_command (type key : string) : option (list string) :=
  let n := c_str key in
  if (type =? "string")%string then Some ["GET"; n]
  else if (type =? "list")%string then Some ["LRANGE"; n; "0"; "4"]
  else if (type =? "set")%string then Some ["SMEMBERS"; n]
  else if (type =? "hash")%string then Some ["HGETALL"; n]
  else if (type =? "zset")%string then Some ["ZRANGE"; n; "0"; "4"; "WITHSCORES"]
  else None.

Definition getKeyValue (key knownType : string) : Sess string :=
  type ← (if sempty knownType then getKeyType key else mret knownType);
  reply ← match value_command type key with
          | Some args => key_command args
          | None => mret None
          end;
  let value := match reply with Some r => formatRedisPreview r type | None => "" end in
  mret (if sempty value then "[Unable to retrieve value]" else value).

(** ** Keys per logical database *)

Record RedisDbInfo := mkDbInfo {
  di_index : Z;
  di_keys : Z;
  di_expires : Z;
  di_avgTtl : Z;
  di_hasKeys : bool
}.

Definition no_info (index : Z) : RedisDbInfo := mkDbInfo index 0 0 0 false.

(** one [key=value] of a line *)
Definition read_field (info : RedisDbInfo) (kv : string) : RedisDbInfo :=
  match find_char "=" kv 0 with
  | None => info
  | Some eq =>
      let key := substr kv 0 eq in
      let val := atoi (c_str (sdrop (S eq) kv)) in
      let '(mkDbInfo index keys expires avgTtl has) := info in
      if (key =? "keys")%string then mkDbInfo index val expires avgTtl has
      else if (key =? "expires")%string then mkDbInfo index keys val avgTtl has
      else if (key =? "avg_ttl")%string then mkDbInfo index keys expires val has
      else info
  end.

Definition strip_cr (line : string) : string :=
  if ends_with (str1 "013") line then stake (pred (strlen line)) line else line.

(** [db0:keys=1,expires=0,avg_ttl=0] *)
Definition read_db_line (found : gmap Z RedisDbInfo) (line : string) : gmap Z RedisDbInfo :=
  let line := strip_cr line in
  match starts_with "db" line, find_char ":" line 0 with
  | true, Some colon =>
      match stoi (substr line 2 (colon - 2)) with
      | None => found
      | Some index =>
          <[index := foldl read_field (mkDbInfo index 0 0 0 true)
                       (getlines "," (sdrop (S colon) line))]> found
      end
  | _, _ => found
  end.

Definition read_keyspace (keyspace : string) : gmap Z RedisDbInfo :=
  foldl read_db_line ∅ (getlines newline keyspace).

Definition db_count (known : bool) (numDatabases selected : Z) (found : gmap Z RedisDbInfo) : Z :=
  if known then numDatabases
  else foldl (λ count kv, Z.max count (fst kv + 1)) (selected + 1)%Z (map_to_list found).

(** the query under the mutex: the server's text, or the error thrown *)
Definition keyspace_section : Sess (string + string) :=
  ctx ← get w_ctx;
  if negb ctx then mret (inl "Not connected")
  else
    reply ← redisCommand ["INFO"; "keyspace"];
    err ← errstr;
    mret (if failed reply then inl (failure reply err)
          else inr (match reply with Some (RString s | RVerb s) => s | _ => "" end)).

Definition databaseInfo : Sess (string + list RedisDbInfo) :=
  keyspace ← keyspace_section;
  known ← get w_dbCountKnown;
  n ← get w_numDatabases;
  selected ← get w_connSelected;
  mret (match keyspace with
        | inl err => inl err
        | inr text =>
            let found := read_keyspace text in
            inr (map (λ i, default (no_info i) (found !! i))
                   (seqZ 0 (db_count known n selected found)))
        end).
End hiredis.
