(* ===== verification/RedisProps.v ===== *)
(** * The Redis backend: properties

    The pipeline of key details against the one-command-at-a-time reference, the cached
    database index as an invariant of every interleaving of the operations that share a
    connection, what the SCAN loop returns and when it ends, the command splitter's round
    trip, and the index arithmetic of [databaseInfo]. *)

From S2P Require Import Prelude Types ConnectionInfo Database Redis.

(** ** One command at a time *)

Section run.
Context (hr : Hiredis).

(** a command sent and answered *)
Definition after (args : list string) (w : World) : World :=
  set_queue (w_sent w ++ [Sent args]) [] w.

Lemma redisCommand_eq args w :
  w_pending w = [] → redisCommand hr args w = (hr_reply hr (w_sent w) args, after args w).
Proof. destruct w. simpl. by intros ->. Qed.

(** [w] with commands waiting for their replies *)
Definition queued (cs : list (list string)) (w : World) : World := set_queue (w_sent w) cs w.

Lemma queued_nil w : w_pending w = [] → queued [] w = w.
Proof. destruct w. simpl. by intros ->. Qed.

Lemma pending_after args w : w_pending (after args w) = [].
Proof. done. Qed.

Lemma sess_bind_eq {A B} (m : Sess A) (f : A → Sess B) w :
  (m ≫= f) w = let '(x, w') := m w in f x w'.
Proof. done. Qed.

Lemma append_all {B} (l cs : list (list string)) (k : Sess B) w :
  (mapM redisAppendCommand l ;; k) (queued cs w) = k (queued (cs ++ l) w).
Proof.
  revert cs. induction l as [|x l IH]; intros cs; [by rewrite app_nil_r|].
  specialize (IH (cs ++ [x])). rewrite <-app_assoc in IH. simpl in IH |- *. rewrite <-IH.
  unfold mbind, Sess_bind. simpl.
  change (set_queue (w_sent w) (cs ++ [x]) (queued cs w)) with (queued (cs ++ [x]) w).
  match goal with |- context [mapM ?f l ?w] => by destruct (mapM f l w) end.
Qed.

Lemma get_reply_queued args cs w :
  redisGetReply hr (queued (args :: cs) w) =
  (hr_reply hr (w_sent w) args, queued cs (after args w)).
Proof. done. Qed.

(** the reference: each command sent and its reply read before the next *)
Definition detail_seq (name : string) : Sess RedisKey :=
  type ← redisCommand hr ["TYPE"; c_str name];
  ttl ← redisCommand hr ["TTL"; c_str name];
  size ← redisCommand hr ["MEMORY"; "USAGE"; c_str name];
  let int r := match r with Some (RInteger z) => z | _ => (-1)%Z end in
  mret (mkKey name (match type with Some (RStatus s) => c_str s | _ => "unknown" end) ""
          (int ttl) (int size)).

Definition preview_seq (k : RedisKey) : Sess RedisKey :=
  reply ← redisCommand hr (preview_command k);
  mret (mkKey (key_name k) (key_type k)
          (match reply with
           | Some r => formatRedisPreview r (key_type k)
           | None => "[error]"
           end) (key_ttl k) (key_size k)).

Definition key_details_seq (names : list string) : Sess (list RedisKey) :=
  keys ← mapM detail_seq names; mapM preview_seq keys.

(** what a program of one command at a time leaves in the queue *)
Definition settled {A} (m : Sess A) : Prop := ∀ w, w_pending w = [] → w_pending (snd (m w)) = [].

Lemma settled_ret {A} (x : A) : settled (mret x).
Proof. intros w Hw. exact Hw. Qed.
Lemma settled_bind {A B} (m : Sess A) (f : A → Sess B) :
  settled m → (∀ x, settled (f x)) → settled (m ≫= f).
Proof.
  intros Hm Hf w Hw. unfold mbind, Sess_bind. specialize (Hm w Hw).
  destruct (m w) as [x w']. by apply Hf.
Qed.
Lemma settled_command args : settled (redisCommand hr args).
Proof. intros w Hw. rewrite redisCommand_eq; done. Qed.
Lemma settled_mapM {A B} (f : A → Sess B) l : (∀ x, settled (f x)) → settled (mapM f l).
Proof.
  intros Hf. induction l as [|x l IH]; [apply settled_ret|].
  apply settled_bind; [done|]. intros y. apply settled_bind; [done|]. intros; apply settled_ret.
Qed.

(** reading the replies of queued commands is running them one at a time *)
Lemma read_queued {A B} (cmds : A → list (list string)) (read seq : A → Sess B) l rest w :
  (∀ x, settled (seq x)) →
  (∀ x cs v, w_pending v = [] →
     read x (queued (cmds x ++ cs) v) = (λ r, (fst r, queued cs (snd r))) (seq x v)) →
  w_pending w = [] →
  (mapM read l : Sess (list B)) (queued ((l ≫= cmds) ++ rest) w) =
  (λ r, (fst r, queued rest (snd r))) ((mapM seq l : Sess (list B)) w).
Proof.
  intros Hs Hr. revert w. induction l as [|x l IH]; intros w Hw; [done|].
  simpl. rewrite <-app_assoc. unfold mbind, Sess_bind. rewrite (Hr x _ w Hw).
  specialize (Hs x w Hw). destruct (seq x w) as [y w']. simpl in *. rewrite IH by done.
  by destruct ((mapM seq l : Sess (list B)) w') as [ys w''].
Qed.

Lemma read_details_queued name cs v :
  w_pending v = [] →
  read_details hr name (queued (details_commands name ++ cs) v) =
  (λ r, (fst r, queued cs (snd r))) (detail_seq name v).
Proof. destruct v. simpl. by intros ->. Qed.

Lemma read_preview_queued k cs v :
  w_pending v = [] →
  read_preview hr k (queued ([preview_command k] ++ cs) v) =
  (λ r, (fst r, queued cs (snd r))) (preview_seq k v).
Proof. destruct v. simpl. by intros ->. Qed.

Lemma settled_detail name : settled (detail_seq name).
Proof.
  apply settled_bind; [apply settled_command|intros type].
  apply settled_bind; [apply settled_command|intros ttl].
  apply settled_bind; [apply settled_command|intros size]. apply settled_ret.
Qed.
Lemma settled_preview k : settled (preview_seq k).
Proof. apply settled_bind; [apply settled_command|]. intros; apply settled_ret. Qed.

Lemma singletons {A B} (f : A → B) (l : list A) : l ≫= (λ x, [f x]) = map f l.
Proof. induction l as [|x l IH]; [done|]. csimpl. by rewrite IH. Qed.

Lemma key_details_one_by_one names w :
  w_pending w = [] → key_details hr names w = key_details_seq names w.
Proof.
  intros Hw. unfold key_details, key_details_seq. rewrite <-(queued_nil w) at 1 by done.
  rewrite (append_all (names ≫= details_commands)), sess_bind_eq, app_nil_l.
  rewrite <-(app_nil_r (names ≫= details_commands)).
  rewrite (read_queued details_commands (read_details hr) detail_seq);
    [|apply settled_detail|intros; by apply read_details_queued|done].
  pose proof (settled_mapM _ names settled_detail w Hw) as Hs.
  rewrite (sess_bind_eq (mapM detail_seq names)).
  destruct (mapM detail_seq names w) as [ks w']. cbn [fst snd] in *.
  rewrite (append_all (map preview_command ks)), app_nil_l.
  rewrite <-(app_nil_r (map _ ks)), <-singletons.
  rewrite (read_queued (λ k, [preview_command k]) (read_preview hr) preview_seq);
    [|apply settled_preview|intros; by apply read_preview_queued|done].
  pose proof (settled_mapM _ ks settled_preview w' Hs) as Hs'.
  destruct (mapM preview_seq ks w') as [ps w'']. simpl in *. by rewrite queued_nil.
Qed.

Lemma settled_details names : settled (key_details hr names).
Proof.
  intros w Hw. rewrite key_details_one_by_one by done. revert Hw. apply settled_bind.
  - apply settled_mapM, settled_detail.
  - intros ks. apply settled_mapM, settled_preview.
Qed.

(** C12: The pipeline loses no reply and mixes none up: sending every command of a batch of
    keys and then reading the replies in turn gives each key the type, the TTL, the size and
    the preview that sending its commands one at a time gives, the server sees the same
    commands in the same order, and no reply is left unread. *)
Theorem key_details_pipeline names w :
  w_pending w = [] →
  key_details hr names w = key_details_seq names w ∧ w_pending (snd (key_details hr names w)) = [].
Proof. intros Hw. split; [by apply key_details_one_by_one|by apply settled_details]. Qed.

(** ** The SCAN loop *)

Definition string_keys (batch : list Reply) : list string :=
  omap (λ r, match r with RString k => Some k | _ => None end) batch.

(** every key the server enumerates from a cursor on, with no limit *)
Fixpoint enumerate (fuel : nat) (pattern : string) (cursor : Z) (sent : list event)
    : option (list string) :=
  match fuel with
  | 0 => None
  | S fuel =>
      let args := scan_command cursor pattern in
      match hr_reply hr sent args with
      | Some (RArray [next; batch]) =>
          let keys := string_keys (elements batch) in
          let cursor := strtoull (default "" (reply_str next)) in
          if (cursor =? 0)%Z then Some keys
          else app keys <$> enumerate fuel pattern cursor (sent ++ [Sent args])
      | _ => Some []
      end
  end.

(** a limit below one still lets one key through *)
Definition key_limit (limit : Z) : nat := Z.to_nat (Z.max 1 limit).

Lemma take_keys_spec batch limit keys :
  length keys < key_limit limit →
  take_keys batch limit keys =
  (take (key_limit limit) (keys ++ string_keys batch),
   bool_decide (key_limit limit <= length (keys ++ string_keys batch))).
Proof.
  unfold key_limit. revert keys. induction batch as [|r batch IH]; intros keys Hk; simpl.
  { rewrite app_nil_r, take_ge by lia. by rewrite bool_decide_false by lia. }
  destruct r; simpl; try by apply IH.
  rewrite length_app. simpl.
  destruct (Z.leb_spec limit (Z.of_nat (length keys + 1))) as [Hle|Hgt].
  - replace (keys ++ s :: string_keys batch) with ((keys ++ [s]) ++ string_keys batch)
      by by rewrite <-app_assoc.
    assert (length (keys ++ [s]) = Z.to_nat (Z.max 1 limit)) as E by (rewrite length_app; simpl; lia).
    rewrite <-E, take_app_length, bool_decide_true; [done|]. rewrite !length_app. lia.
  - rewrite IH by (rewrite length_app; simpl; lia). by rewrite <-app_assoc.
Qed.

Lemma scan_enumerates fuel pattern limit cursor keys w all :
  w_pending w = [] → length keys < key_limit limit →
  enumerate fuel pattern cursor (w_sent w) = Some all →
  fst (scan_from hr fuel pattern limit cursor keys w) = Some (take (key_limit limit) (keys ++ all)).
Proof.
  revert cursor keys w all. induction fuel as [|fuel IH]; intros cursor keys w all Hw Hk; [done|].
  cbn [scan_from enumerate]. rewrite sess_bind_eq, redisCommand_eq by done.
  assert (Hstop : ∀ l, Some [] = Some l →
            fst ((mret (Some keys) : Sess _) (after (scan_command cursor pattern) w)) =
            Some (take (key_limit limit) (keys ++ l))).
  { intros l [= <-]. simpl. by rewrite app_nil_r, take_ge by lia. }
  destruct (hr_reply hr (w_sent w) (scan_command cursor pattern))
    as [[| | | | | |[|next [|batch [|? ?]]]|]|]; try apply Hstop.
  rewrite take_keys_spec by done. case_bool_decide as Hfull.
  - simpl. intros H. assert (∃ l, all = string_keys (elements batch) ++ l) as [l ->].
    { destruct (_ =? 0)%Z; [simplify_eq; exists []; by rewrite app_nil_r|].
      apply fmap_Some in H as (l & _ & ->). by exists l. }
    rewrite app_assoc, (take_app_le (keys ++ _)) by done. done.
  - destruct (_ =? 0)%Z; [by intros [= <-]|]. intros (l & Hl & ->)%fmap_Some.
    rewrite take_ge by lia. rewrite app_assoc. apply IH; [done|lia|done].
Qed.

Lemma scan_bounded fuel pattern limit cursor keys w found :
  w_pending w = [] → length keys < key_limit limit →
  fst (scan_from hr fuel pattern limit cursor keys w) = Some found →
  length found <= key_limit limit.
Proof.
  revert cursor keys w. induction fuel as [|fuel IH]; intros cursor keys w Hw Hk; [done|].
  cbn [scan_from]. rewrite sess_bind_eq, redisCommand_eq by done.
  destruct (hr_reply hr (w_sent w) (scan_command cursor pattern))
    as [[| | | | | |[|next [|batch [|? ?]]]|]|]; try (simpl; intros [= <-]; lia).
  rewrite take_keys_spec by done. case_bool_decide as Hfull.
  - simpl. intros [= <-]. rewrite length_take. lia.
  - destruct (_ =? 0)%Z; [simpl; intros [= <-]; rewrite length_take; lia|].
    rewrite take_ge by lia. apply IH; [done|lia].
Qed.

Lemma enumerate_more fuel fuel' pattern cursor sent all :
  enumerate fuel pattern cursor sent = Some all → fuel <= fuel' →
  enumerate fuel' pattern cursor sent = Some all.
Proof.
  revert fuel' cursor sent all. induction fuel as [|fuel IH]; intros fuel' cursor sent all; [done|].
  destruct fuel' as [|fuel']; [lia|]. cbn [enumerate]. intros H Hf.
  destruct (hr_reply hr sent (scan_command cursor pattern))
    as [[| | | | | |[|next [|batch [|? ?]]]|]|]; try done.
  destruct (_ =? 0)%Z; [done|]. apply fmap_Some in H as (l & Hl & ->).
  rewrite (IH fuel' _ _ l Hl) by lia. done.
Qed.

(** The server's promise: an iteration makes progress towards the final cursor. *)
Section scan_ends.
Variable rank : Z → nat.
Hypothesis scan_progress : ∀ sent cursor pattern next batch,
  hr_reply hr sent (scan_command cursor pattern) = Some (RArray [next; batch]) →
  let c := strtoull (default "" (reply_str next)) in
  c ≠ 0%Z → rank c < rank cursor.

Lemma enumerate_total fuel pattern cursor sent :
  rank cursor < fuel → is_Some (enumerate fuel pattern cursor sent).
Proof.
  revert cursor sent. induction fuel as [|fuel IH]; intros cursor sent Hf; [lia|]. simpl.
  pose proof (scan_progress sent cursor pattern) as Hp.
  destruct (hr_reply hr sent (scan_command cursor pattern))
    as [[| | | | | |[|next [|batch [|? ?]]]|]|]; try by eexists.
  specialize (Hp next batch eq_refl). simpl in Hp.
  destruct (Z.eqb_spec (strtoull (default "" (reply_str next))) 0); [by eexists|].
  apply fmap_is_Some, IH. specialize (Hp n). lia.
Qed.

(** C13: The SCAN loop on an open connection ends: when the server's cursor makes progress, as many calls as the
    cursor has steps are enough, and more change nothing.  It returns the first [limit] keys
    (one, for a limit below one) of those the server enumerates, in the server's order, and
    so never more than [limit]. *)
Theorem scan_complete pattern limit w :
  w_pending w = [] → w_ctx w = true →
  ∃ all, ∀ fuel, rank 0 < fuel →
    enumerate fuel pattern 0 (w_sent w) = Some all ∧
    fst (scanKeysLocked hr fuel pattern limit w) = Some (take (key_limit limit) all).
Proof.
  intros Hw Hc. destruct (enumerate_total (S (rank 0)) pattern 0 (w_sent w)) as [all Hall]; [lia|].
  exists all. intros fuel Hf. assert (enumerate fuel pattern 0 (w_sent w) = Some all) as E.
  { by eapply enumerate_more. }
  split; [done|]. unfold scanKeysLocked. rewrite sess_bind_eq. simpl. rewrite Hc. simpl.
  rewrite (scan_enumerates _ _ _ _ _ _ all); [done|done|unfold key_limit; simpl; lia|done].
Qed.
End scan_ends.

(** ** The database index *)

(** commands that change what later ones mean on the same connection *)
Definition session_words : list string :=
  ["SELECT"; "RESET"; "MULTI"; "HELLO"; "CLIENT"; "MONITOR"; "QUIT"; "SUBSCRIBE"; "PSUBSCRIBE";
   "SSUBSCRIBE"].
Definition session_command (args : list string) : bool :=
  match args with [] => false | name :: _ => inWords session_words (smap toupper name) end.

Definition select_of (n : Z) : event := Sent ["SELECT"; to_string n].

Definition plain (e : event) : Prop := ∃ args, e = Sent args ∧ session_command args = false.
Definition tame (e : event) : Prop := e = Connected ∨ plain e ∨ ∃ n, e = select_of n.

(** the connection failed: hiredis answers nothing more *)
Definition broken (sent : list event) : Prop := ∀ args, hr_reply hr sent args = None.

(** what was sent since the last connection was made *)
Definition session_step (sent : list event) (e : event) : list event :=
  match e with Connected => [] | _ => sent ++ [e] end.
Definition session (sent : list event) : list event := foldl session_step [] sent.

Lemma session_snoc sent e : session (sent ++ [e]) = session_step (session sent) e.
Proof. unfold session. by rewrite foldl_app. Qed.

Lemma session_plain sent es : Forall plain es → session (sent ++ es) = session sent ++ es.
Proof.
  induction es as [|e es IH] using rev_ind; [by rewrite !app_nil_r|].
  intros [Hes (args & -> & _)%Forall_singleton]%Forall_app. by rewrite !app_assoc, session_snoc, IH.
Qed.

(** What the server documents of the index a connection is on, [current] of what was sent. *)
Class Server (current : list event → Z) : Prop := {
  server_connected sent : current (sent ++ [Connected]) = 0%Z;
  server_select sent n r :
    Forall tame (session sent) → hr_reply hr sent ["SELECT"; to_string n] = Some r → is_error r = false →
    current (sent ++ [select_of n]) = n;
  server_refused sent args r :
    hr_reply hr sent args = Some r → is_error r = true →
    current (sent ++ [Sent args]) = current sent;
  server_plain sent e : plain e → current (sent ++ [e]) = current sent;
  server_broken sent args : hr_reply hr sent args = None → broken (sent ++ [Sent args])
}.

Section server.
Context (current : list event → Z) `{!Server current}.

(** the server is on index [n], or says nothing any more *)
Definition on_index (n : Z) (sent : list event) : Prop := current sent = n ∨ broken sent.

(** no reply is left; and unless a command that changes the session was [typed] on this
    connection, the index recorded is the server's *)
Record coherent (typed : bool) (w : World) : Prop := mkCoherent {
  coh_settled : w_pending w = [];
  coh_tame : typed = false → w_ctx w = true → Forall tame (session (w_sent w));
  coh_index : typed = false → w_ctx w = true → on_index (w_selectedDb w) (w_sent w)
}.

Lemma on_index_plain n sent es :
  on_index n sent → Forall plain es → on_index n (sent ++ es).
Proof.
  intros Hn Hes. revert sent Hn. induction Hes as [|e es He Hes IH]; intros sent Hn.
  { by rewrite app_nil_r. }
  rewrite (cons_middle e sent es), app_assoc. apply IH.
  destruct Hn as [Hn|Hn]; [left; by rewrite server_plain|right].
  destruct He as (args & -> & _). by apply server_broken.
Qed.

(** nothing but plain commands, the index kept *)
Definition extends (w w' : World) : Prop :=
  w_pending w' = [] ∧ w_ctx w' = w_ctx w ∧ w_selectedDb w' = w_selectedDb w ∧
  ∃ es, w_sent w' = w_sent w ++ es ∧ Forall plain es.
Definition quiet {A} (m : Sess A) : Prop := ∀ w, w_pending w = [] → extends w (snd (m w)).

Lemma extends_refl w : w_pending w = [] → extends w w.
Proof. intros Hw. split_and!; [done..|]. exists []. by rewrite app_nil_r. Qed.
Lemma extends_trans w1 w2 w3 : extends w1 w2 → extends w2 w3 → extends w1 w3.
Proof.
  intros (? & Hc & Hs & es & He & ?) (? & Hc' & Hs' & es' & He' & ?).
  split_and!; [done|by rewrite Hc'|by rewrite Hs'|]. exists (es ++ es').
  rewrite He', He, app_assoc. split; [done|]. by apply Forall_app.
Qed.
Lemma quiet_ret {A} (x : A) : quiet (mret x).
Proof. intros w Hw. by apply extends_refl. Qed.
Lemma quiet_get {A} (f : World → A) : quiet (get f).
Proof. intros w Hw. by apply extends_refl. Qed.
Lemma quiet_bind {A B} (m : Sess A) (f : A → Sess B) :
  quiet m → (∀ x, quiet (f x)) → quiet (m ≫= f).
Proof.
  intros Hm Hf w Hw. rewrite sess_bind_eq. specialize (Hm w Hw).
  destruct (m w) as [x w']. eapply extends_trans; [done|]. apply Hf, Hm.
Qed.
Lemma quiet_mapM {A B} (f : A → Sess B) l : (∀ x, quiet (f x)) → quiet (mapM f l).
Proof.
  intros Hf. induction l as [|x l IH]; [apply quiet_ret|].
  apply quiet_bind; [done|]. intros y. apply quiet_bind; [done|]. intros; apply quiet_ret.
Qed.
Lemma quiet_if {A} (c : bool) (m m' : Sess A) : quiet m → quiet m' → quiet (if c then m else m').
Proof. by destruct c. Qed.
Lemma quiet_command args : session_command args = false → quiet (redisCommand hr args).
Proof.
  intros Ha w Hw. rewrite redisCommand_eq by done. split_and!; [done..|].
  exists [Sent args]. split; [done|]. repeat constructor. by exists args.
Qed.
Lemma quiet_count n b : quiet (modify (set_count n b)).
Proof. intros w Hw. split_and!; [done..|]. exists []. by rewrite app_nil_r. Qed.

Lemma coherent_extends typed w w' : coherent typed w → extends w w' → coherent typed w'.
Proof.
  intros [? Ht Hi] (? & Hc & Hs & es & He & Hp). rewrite <-Hc in Ht, Hi. split; [done|..]; intros Hu Ho.
  - rewrite He, session_plain by done. apply Forall_app. split; [by apply Ht|].
    eapply Forall_impl; [done|]. intros; right; by left.
  - rewrite Hs, He. apply on_index_plain; [|done]. by apply Hi.
Qed.

Ltac quiet :=
  repeat match goal with
    | |- forall _, quiet _ => intros ?
    | |- quiet (mbind _ _) => apply quiet_bind
    | |- quiet (mapM _ _) => apply quiet_mapM
    | |- quiet (if _ then _ else _) => apply quiet_if
    | |- quiet (mret _) => apply quiet_ret
    | |- quiet (get _) => apply quiet_get
    | |- quiet (modify _) => apply quiet_count
    | |- quiet (redisCommand _ _) => by apply quiet_command
    end.

Lemma quiet_scan fuel pattern limit cursor keys :
  quiet (scan_from hr fuel pattern limit cursor keys).
Proof.
  revert cursor keys. induction fuel as [|fuel IH]; intros cursor keys; cbn [scan_from]; [quiet|].
  apply quiet_bind; [by apply quiet_command|].
  intros [[| | | | | |[|next [|batch [|? ?]]]|]|]; try apply quiet_ret.
  destruct (take_keys _ _ _) as [ks full]. apply quiet_if; [apply quiet_ret|apply IH].
Qed.

Lemma quiet_scanKeys fuel pattern limit : quiet (scanKeysLocked hr fuel pattern limit).
Proof. unfold scanKeysLocked. quiet. apply quiet_scan. Qed.

Lemma plain_preview k : session_command (preview_command k) = false.
Proof. unfold preview_command. by repeat case_match. Qed.

Lemma quiet_details names : quiet (key_details hr names).
Proof.
  intros w Hw. rewrite key_details_one_by_one by done. revert w Hw.
  change (quiet (key_details_seq names)).
  unfold key_details_seq, detail_seq, preview_seq. quiet. apply quiet_command, plain_preview.
Qed.

(** after a [SELECT] that was sent, whatever the record becomes on success *)
Lemma coherent_select typed n w :
  coherent typed w → w_ctx w = true →
  let args := ["SELECT"; to_string n] in
  if failed (hr_reply hr (w_sent w) args) then coherent typed (after args w)
  else ∀ w', w_sent w' = w_sent w ++ [select_of n] → w_pending w' = [] → w_selectedDb w' = n →
       coherent typed w'.
Proof.
  intros [Hw Ht Hi] Hc args. specialize (λ Hu, Ht Hu Hc). specialize (λ Hu, Hi Hu Hc).
  assert (Htame : typed = false → Forall tame (session (w_sent w ++ [select_of n]))).
  { intros Hu. rewrite session_snoc. apply Forall_app. split; [by apply Ht|].
    apply Forall_singleton. right; right. by exists n. }
  destruct (hr_reply hr (w_sent w) args) as [rep|] eqn:E; simpl.
  - destruct (is_error rep) eqn:Er.
    + split; [done|by intros Hu _; apply Htame|]. intros Hu _. destruct (Hi Hu) as [Hn|Hn]; [|by rewrite Hn in E].
      left. etransitivity; [by apply (server_refused _ _ rep)|exact Hn].
    + intros w' Hs Hp Hn. split; [done|intros Hu _; rewrite Hs; by apply Htame|]. intros Hu _. rewrite Hs, Hn. left.
      by apply (server_select _ _ rep); [apply Ht|..].
  - split; [done|by intros Hu _; apply Htame|]. intros _ _. right. by apply server_broken.
Qed.

Lemma ensureSelected_spec typed n w :
  coherent typed w →
  let '(ok, w') := ensureSelectedLocked hr n w in
  coherent typed w' ∧ (∃ pre, w_sent w' = w_sent w ++ pre ∧ (pre = [] ∨ pre = [select_of n])) ∧
  if ok then w_ctx w' = true ∧ w_selectedDb w' = n else True.
Proof.
  intros Hcoh. pose proof Hcoh as [Hw Ht Hi]. unfold ensureSelectedLocked.
  rewrite !sess_bind_eq. simpl. destruct (w_ctx w) eqn:Hc; simpl.
  2: { split_and!; [done| |done]. exists []. rewrite app_nil_r. auto. }
  rewrite sess_bind_eq. simpl. destruct (Z.eqb_spec (w_selectedDb w) n) as [<-|Hne].
  { split_and!; [done| |done..]. exists []. rewrite app_nil_r. auto. }
  rewrite sess_bind_eq, redisCommand_eq by done. pose proof (coherent_select typed n w Hcoh Hc) as Hs.
  simpl in Hs |- *. destruct (failed _); simpl.
  - split_and!; [done| |done]. exists [select_of n]. auto.
  - split_and!; [by apply Hs| |done..]. exists [select_of n]. auto.
Qed.

Lemma coherent_quiet {A} typed (m : Sess A) w :
  quiet m → coherent typed w → coherent typed (snd (m w)).
Proof. intros Hm Hw. eapply coherent_extends; [done|]. apply Hm, Hw. Qed.

Lemma coherent_bind {A B} typed (m : Sess A) (f : A → Sess B) w :
  coherent typed (snd (m w)) → (∀ x v, coherent typed v → coherent typed (snd (f x v))) →
  coherent typed (snd ((m ≫= f) w)).
Proof. intros Hm Hf. rewrite sess_bind_eq. destruct (m w) as [x v]. by apply Hf. Qed.

(** what a section of a handle does once its index is selected *)
Lemma coherent_on_handle {A} typed n (m : bool → Sess A) w :
  coherent typed w → (∀ ok, quiet (m ok)) →
  coherent typed (snd ((ensureSelectedLocked hr n ≫= m) w)).
Proof.
  intros Hw Hm. apply coherent_bind; [|intros; by apply coherent_quiet].
  pose proof (ensureSelected_spec typed n w Hw) as H. destruct (ensureSelectedLocked hr n w). apply H.
Qed.

Lemma coherent_select_index typed n w :
  coherent typed w → w_ctx w = true → coherent typed (snd (select_index hr n w)).
Proof.
  intros Hw Hc. unfold select_index. rewrite sess_bind_eq, redisCommand_eq by apply Hw.
  pose proof (coherent_select typed n w Hw Hc) as Hs. simpl in Hs. destruct (failed _); simpl; [done|].
  by apply Hs.
Qed.

(** *** Opening *)

(** a connection just made: the server is on index 0, whatever the record says *)
Definition fresh (w : World) : Prop := coherent false (set_selectedDb 0 w).

Lemma fresh_extends w w' : fresh w → extends w w' → fresh w'.
Proof.
  intros Hf (? & ? & ? & es & ? & ?). eapply coherent_extends; [exact Hf|].
  split_and!; [done..|]. by exists es.
Qed.

Lemma coherent_closed typed w : w_pending w = [] → w_ctx w = false → coherent typed w.
Proof. intros Hp Hc. split; [done|..]; by rewrite Hc. Qed.

Lemma coherent_close typed w : coherent typed (snd (close w)).
Proof. by apply coherent_closed. Qed.

Lemma connect_spec ci w :
  w_pending w = [] →
  let '(e, w') := connect hr ci w in e = None → fresh w' ∧ w_ctx w' = true.
Proof.
  intros Hw. unfold connect.
  assert (Hf : fresh (set_ctx (w_sent w ++ [Connected]) true w)).
  { split; [done| |]; intros _ _.
    - simpl. rewrite session_snoc. constructor.
    - left. simpl. apply server_connected. }
  destruct (hr_connect hr (w_sent w)); [|done..]. by repeat case_match; simplify_eq.
Qed.

Lemma quiet_first_failure steps :
  Forall quiet steps → quiet (first_failure steps).
Proof.
  induction 1 as [|m steps Hm Hs IH]; [apply quiet_ret|].
  apply quiet_bind; [done|]. intros [err|]; [apply quiet_ret|done].
Qed.

Lemma quiet_login ci : quiet (first_failure [auth hr ci; ping hr]).
Proof.
  apply quiet_first_failure. repeat apply Forall_cons_2; [| |apply Forall_nil_2].
  - unfold auth, required. quiet.
  - unfold ping, required. quiet.
Qed.

Lemma quiet_discover : quiet (discover_count hr).
Proof.
  unfold discover_count. quiet. by repeat case_match; first [apply quiet_ret|apply quiet_count].
Qed.

Lemma coherent_requested ci w :
  fresh w → w_ctx w = true → coherent false (snd (select_requested hr ci w)).
Proof.
  intros Hf Hc. unfold select_requested. do 3 (rewrite sess_bind_eq; simpl).
  set (v := set_connSelected 0 (set_selectedDb 0 w)).
  assert (Hv : coherent false v) by (by destruct Hf; split).
  destruct (if sempty _ then None else _) as [idx|]; [|done]. case_match; [|done].
  rewrite sess_bind_eq. pose proof (coherent_select_index false idx v Hv Hc) as H1.
  by destruct (select_index hr idx v).
Qed.

Lemma first_failure_cons m steps w :
  first_failure (m :: steps) w =
  let '(e, w') := m w in
  match e with Some err => (Some err, w') | None => first_failure steps w' end.
Proof. simpl. rewrite sess_bind_eq. by destruct (m w) as [[err|] w']. Qed.

(** a connection that is made anew is coherent, whatever was typed before *)
Lemma coherent_reopen ci w : w_pending w = [] → w_ctx w = false → coherent false (snd (open hr ci w)).
Proof.
  intros Hw Hctx. unfold open. rewrite sess_bind_eq. cbn [get]. rewrite Hctx.
  rewrite sess_bind_eq, first_failure_cons. pose proof (connect_spec ci w Hw) as Hconn.
  destruct (connect hr ci w) as [[err|] w1]; [by apply coherent_closed|].
  destruct (Hconn eq_refl) as [Hf Hc]. clear Hconn.
  pose proof (quiet_login ci w1 (coh_settled _ _ Hf)) as Hl.
  destruct (first_failure _ w1) as [[err|] w2]; simpl in Hl; [by apply coherent_closed|].
  rewrite sess_bind_eq. pose proof (quiet_discover w2 (proj1 Hl)) as Hd.
  destruct (discover_count hr w2) as [u w3]. simpl in Hd.
  assert (Hf3 : fresh w3) by (eapply fresh_extends, Hd; by eapply fresh_extends).
  assert (Hc3 : w_ctx w3 = true) by (destruct Hl as (_ & ? & _), Hd as (_ & ? & _); congruence).
  rewrite sess_bind_eq. pose proof (coherent_requested ci w3 Hf3 Hc3) as H.
  by destruct (select_requested hr ci w3).
Qed.

Lemma coherent_typed typed w : coherent false w → coherent typed w.
Proof. intros [? Ht Hi]. by split; [|intros _; apply Ht|intros _; apply Hi]. Qed.

Lemma coherent_open typed ci w : coherent typed w → coherent typed (snd (open hr ci w)).
Proof.
  intros Hw. destruct (w_ctx w) eqn:Hc; [|apply coherent_typed, coherent_reopen; [apply Hw|done]].
  unfold open. rewrite sess_bind_eq. cbn [get]. by rewrite Hc.
Qed.

(** *** Interleavings

    Every operation is made of sections under the mutex; those of any number of handles and
    of the connection follow one another in any order. *)

Inductive step : World → World → Prop :=
  | step_scan fuel n pattern limit w : step w (snd (select_and_scan hr fuel n pattern limit w))
  | step_details n names w : step w (snd (fetchKeyDetails hr n names w))
  | step_execute h command w :
      session_command (parseRedisCommand command) = false → step w (snd (execute hr h command w))
  | step_open ci w : step w (snd (open hr ci w))
  | step_close w : step w (snd (close w))
  | step_select n w : step w (snd (selectDatabase hr n w))
  | step_keys fuel pattern limit w : step w (snd (getKeys hr fuel pattern limit w))
  | step_key args w : session_command args = false → step w (snd (key_command hr args w))
  | step_info w : step w (snd (keyspace_section hr w)).

Definition start : World := mkWorld [] [] false 0 16 false 0.

Lemma quiet_execute parts : session_command parts = false → quiet (
  reply ← redisCommand hr parts;
  match reply with
  | None =>
      err ← errstr hr;
      mret (failed_result (if sempty err then "Failed to execute command" else err))
  | Some r =>
      mret (if is_error r then failed_result (reply_text r)
            else one_result (mkStatementResult true "" ["result"] [[formatRedisReply r]] 0 ""))
  end).
Proof.
  intros Hp. apply quiet_bind; [by apply quiet_command|].
  intros [rep|]; [apply quiet_ret|]. unfold errstr. quiet.
Qed.

Lemma step_coherent typed w w' : coherent typed w → step w w' → coherent typed w'.
Proof.
  intros Hw Hstep. revert Hw.
  destruct Hstep as [fuel n pattern limit v|n names v|h command v Hc|ci v|v|n v|fuel pattern limit v|args v Ha|v]; intros Hw.
  - apply coherent_on_handle; [done|]. intros []; quiet. apply quiet_scanKeys.
  - apply coherent_on_handle; [done|]. intros []; quiet. apply quiet_details.
  - unfold execute. destruct (parseRedisCommand command) as [|p parts] eqn:E; [done|].
    rewrite sess_bind_eq. cbn [get]. destruct (w_ctx v); [|done]. cbn [negb].
    apply coherent_on_handle; [done|]. intros []; cbn [negb]; [by apply quiet_execute|quiet].
  - by apply coherent_open.
  - by apply coherent_close.
  - unfold selectDatabase. do 2 (rewrite sess_bind_eq; cbn [get]).
    destruct (w_ctx v) eqn:Hc; [|done]. cbn [negb]. case_match; [done|].
    by apply coherent_select_index.
  - apply coherent_quiet; [|done]. unfold getKeys. quiet; [apply quiet_scan|].
    case_match; quiet. apply quiet_details.
  - apply coherent_quiet; [|done]. unfold key_command. quiet.
  - apply coherent_quiet; [|done]. unfold keyspace_section, errstr. quiet.
Qed.

Lemma reachable_coherent w : rtc step start w → coherent false w.
Proof.
  intros Hrun. assert (Hstart : coherent false start) by by apply coherent_closed.
  induction Hrun as [|x y z Hxy _ IH]; [done|]. apply IH. by eapply step_coherent.
Qed.

(** *** Commands typed by hand

    A command typed by hand may change the session itself.  [reached typed w] says how a state
    was reached, and whether such a command was typed on the connection there is; making the
    connection anew forgets it. *)
Inductive reached : bool → World → Prop :=
  | reached_start : reached false start
  | reached_step typed w w' : reached typed w → step w w' → reached typed w'
  | reached_typed typed h command w :
      reached typed w → reached true (snd (execute hr h command w))
  | reached_again typed ci w :
      reached typed w → w_ctx w = false → reached false (snd (open hr ci w)).

Lemma settled_execute h command w : w_pending w = [] → coherent true w → w_pending (snd (execute hr h command w)) = [].
Proof.
  intros Hw Hcoh. unfold execute. destruct (parseRedisCommand command) as [|p parts]; [done|].
  rewrite sess_bind_eq. cbn [get]. destruct (w_ctx w); [|done]. cbn [negb].
  rewrite sess_bind_eq. pose proof (ensureSelected_spec true (h_index h) w Hcoh) as H.
  destruct (ensureSelectedLocked hr (h_index h) w) as [[] v]; destruct H as ([Hv _ _] & _); [|done].
  cbn [negb]. rewrite sess_bind_eq, redisCommand_eq by done. by destruct (hr_reply _ _ _).
Qed.

Lemma reached_coherent typed w : reached typed w → coherent typed w.
Proof.
  induction 1 as [|typed w w' _ IH Hs|typed h command w _ IH|typed ci w _ IH Hc].
  - by apply coherent_closed.
  - by eapply step_coherent.
  - split; [|done..]. apply settled_execute; [apply IH|]. split; [apply IH|done..].
  - apply coherent_reopen; [apply IH|done].
Qed.

(** C11: The cached index is right.  Whatever operations of the connection and of any number of
    its handles have run, in any interleaving of their sections, the mutex is left with no
    reply unread and the index the shared state records is the one the server is on, unless
    the connection is closed or has failed; provided that no command typed by hand changes
    the session itself. *)
Theorem selected_index_invariant w :
  rtc step start w →
  w_pending w = [] ∧ (w_ctx w = true → on_index (w_selectedDb w) (w_sent w)).
Proof. intros [? _ Hi]%reachable_coherent. auto. Qed.

(** the sections of the operations of handle [n] *)
Inductive handle_step (n : Z) : World → World → Prop :=
  | handle_scan fuel pattern limit w :
      handle_step n w (snd (select_and_scan hr fuel n pattern limit w))
  | handle_details names w : handle_step n w (snd (fetchKeyDetails hr n names w))
  | handle_execute connName command w :
      handle_step n w (snd (execute hr (mkHandle n connName) command w)).

(** from [sent] on: perhaps a [SELECT] of [n], then commands each answered on index [n] *)
Definition runs_on (n : Z) (sent sent' : list event) : Prop :=
  ∃ pre es, sent' = sent ++ pre ++ es ∧ (pre = [] ∨ pre = [select_of n]) ∧
    ∀ es1 args es2, es = es1 ++ Sent args :: es2 →
      is_Some (hr_reply hr (sent ++ pre ++ es1) args) → current (sent ++ pre ++ es1) = n.

Lemma runs_on_refl n sent : runs_on n sent sent.
Proof.
  exists [], []. split_and!; [by rewrite app_nil_r|by left|].
  by intros [|? ?] args es2.
Qed.

(** every command but the first comes after plain ones only *)
Definition plain_before (es : list event) : Prop :=
  ∀ es1 e es2, es = es1 ++ e :: es2 → Forall plain es1.

Lemma quiet_plain_before {A} (m : Sess A) w :
  quiet m → w_pending w = [] →
  ∃ es, w_sent (snd (m w)) = w_sent w ++ es ∧ plain_before es.
Proof.
  intros Hm Hw. destruct (Hm w Hw) as (_ & _ & _ & es & Hes & Hp). exists es. split; [done|].
  intros es1 e es2 ->. by apply Forall_app in Hp as [? _].
Qed.

Lemma on_handle_runs_on {A} n (m : bool → Sess A) w :
  coherent false w → (∀ v, snd (m false v) = v) →
  (∀ v, w_pending v = [] → ∃ es, w_sent (snd (m true v)) = w_sent v ++ es ∧ plain_before es) →
  runs_on n (w_sent w) (w_sent (snd ((ensureSelectedLocked hr n ≫= m) w))).
Proof.
  intros Hw Hfalse Htrue. rewrite sess_bind_eq. pose proof (ensureSelected_spec false n w Hw) as H.
  destruct (ensureSelectedLocked hr n w) as [[] v]; destruct H as ([Hp _ Hi] & (pre & Hs & Hpre) & H).
  - destruct H as [Hc Hn], (Htrue v Hp) as (es & Hes & Hplain). rewrite Hc, Hn in Hi.
    exists pre, es. rewrite Hes, Hs, <-app_assoc. split_and!; [done..|].
    intros es1 args es2 He [rep Hrep]. specialize (Hplain _ _ _ He).
    specialize (Hi eq_refl eq_refl). rewrite Hs in Hi. rewrite app_assoc in Hrep |- *.
    destruct (on_index_plain n _ es1 Hi Hplain) as [?|Hb]; [done|]. by rewrite Hb in Hrep.
  - rewrite Hfalse. exists pre, []. rewrite Hs, app_nil_r. split_and!; [done..|].
    by intros [|? ?] args es2.
Qed.

(** C10: Isolation of the logical databases, as far as it goes.  Unless a command that may
    change the session itself ([SELECT], [MULTI], ...) was typed by hand since the connection was
    made, and whatever else ran before, on this connection and on earlier ones, in any
    interleaving, every command a handle sends that is answered is answered while the server is
    on the handle's own index: the handle sends at most its own [SELECT] first, and no other
    handle's selection can come in between.  The command the handle sends may itself be any. *)
Theorem handle_isolated n w w' :
  reached false w → handle_step n w w' → runs_on n (w_sent w) (w_sent w').
Proof.
  intros Hw%reached_coherent Hstep. revert Hw.
  destruct Hstep as [fuel pattern limit v|names v|connName command v]; intros Hw.
  - apply on_handle_runs_on; [done|done|]. intros u Hu. apply quiet_plain_before; [|done].
    quiet. apply quiet_scanKeys.
  - apply on_handle_runs_on; [done..|]. intros u Hu.
    apply (quiet_plain_before (key_details hr names)); [apply quiet_details|done].
  - unfold execute. destruct (parseRedisCommand command) as [|p parts]; [apply runs_on_refl|].
    rewrite sess_bind_eq. cbn [get]. destruct (w_ctx v); [|apply runs_on_refl]. cbn [negb].
    apply on_handle_runs_on; [done|done|]. intros u Hu. cbn [negb].
    exists [Sent (p :: parts)]. rewrite sess_bind_eq, redisCommand_eq by done.
    split; [by destruct (hr_reply _ _ _)|].
    intros [|? [|? ?]] ev evs Hes; by simplify_eq/=.
Qed.
End server.

(** ** Opening *)

Lemma extends_ctx w w' : extends w w' → w_ctx w' = w_ctx w.
Proof. by intros (_ & ? & _). Qed.

Lemma first_failure_ctx steps w :
  Forall quiet steps → w_pending w = [] → w_ctx (snd (first_failure steps w)) = w_ctx w.
Proof. intros Hs Hw. by apply extends_ctx, quiet_first_failure. Qed.

Lemma discover_count_positive w :
  w_pending w = [] → (0 < w_numDatabases (snd (discover_count hr w)))%Z.
Proof.
  intros Hw. unfold discover_count. rewrite sess_bind_eq. cbn [modify].
  rewrite sess_bind_eq, redisCommand_eq by done.
  by repeat case_match; simpl; try lia.
Qed.

Lemma connect_ctx ci w :
  w_pending w = [] →
  let '(e, w') := connect hr ci w in w_pending w' = [] ∧ (e = None → w_ctx w' = true).
Proof. intros Hw. unfold connect. by repeat case_match; simplify_eq. Qed.

Lemma select_requested_spec ci w :
  w_pending w = [] → (0 < w_numDatabases w)%Z →
  let w' := snd (select_requested hr ci w) in
  w_ctx w' = w_ctx w ∧ w_selectedDb w' = w_connSelected w' ∧
  (0 <= w_connSelected w' < w_numDatabases w')%Z.
Proof.
  intros Hw Hn. unfold select_requested. do 3 (rewrite sess_bind_eq; simpl).
  destruct (if sempty _ then None else _) as [idx|]; [|done].
  destruct ((0 <=? idx)%Z && (idx <? w_numDatabases w)%Z) eqn:E; [|done].
  apply andb_prop in E as [?%Z.leb_le ?%Z.ltb_lt].
  unfold select_index. rewrite !sess_bind_eq, redisCommand_eq by done. by destruct (failed _).
Qed.

(** [open] says whether the connection is open: it reports success exactly when a context
    is left, without a message, and after a failure of any step there is none.  A connection
    that is open already is left as it is.  One that it opens has both records of the index
    in agreement, on a database that exists. *)
Lemma open_spec ci w :
  w_pending w = [] →
  let '(ok, message, w') := open hr ci w in
  w_ctx w' = ok ∧ (ok = true → message = "") ∧
  (if w_ctx w then w' = w
   else ok = true →
        w_selectedDb w' = w_connSelected w' ∧ (0 <= w_connSelected w' < w_numDatabases w')%Z).
Proof.
  intros Hw. unfold open. rewrite sess_bind_eq. cbn [get].
  destruct (w_ctx w) eqn:Hc; [done|].
  rewrite sess_bind_eq, first_failure_cons. pose proof (connect_ctx ci w Hw) as Hconn.
  destruct (connect hr ci w) as [[err|] w1]; [done|]. destruct Hconn as [Hw1 Hc1].
  pose proof (quiet_login ci w1 Hw1) as Hl.
  destruct (first_failure _ w1) as [[err|] w2]; [done|]. simpl in Hl.
  rewrite sess_bind_eq. pose proof (quiet_discover w2 (proj1 Hl)) as Hd.
  pose proof (discover_count_positive w2 (proj1 Hl)) as Hn.
  destruct (discover_count hr w2) as [u w3]. simpl in Hd, Hn. rewrite sess_bind_eq.
  destruct (select_requested_spec ci w3 (proj1 Hd) Hn) as (Hc' & Hs & Hr).
  destruct (select_requested hr ci w3) as [u' w4]. simpl in Hc', Hs, Hr |- *.
  rewrite Hc', (extends_ctx _ _ Hd), (extends_ctx _ _ Hl). auto.
Qed.
End run.

(** ** Commands typed by hand *)

Definition plain_char (c : ascii) : bool :=
  negb ((c =? dquote)%char || (c =? squote)%char || isspace c).
Definition without (q : ascii) (s : string) : bool := sall (λ c, negb (c =? q)%char) s.

(** a word that stands for an argument: the argument itself when nothing in it is special, or
    the argument between quotes that it does not contain *)
Definition written (word arg : string) : Prop :=
  (word = arg ∧ sall plain_char arg = true) ∨
  ∃ q, (q = dquote ∨ q = squote) ∧ without q arg = true ∧ word = str1 q +:+ arg +:+ str1 q.

Definition feed (st : Split) (s : string) : Split := foldl split_step st (list_ascii_of_string s).

Lemma feed_app st a b : feed st (a +:+ b) = feed (feed st a) b.
Proof. unfold feed. revert st. induction a as [|c a IH]; intros st; [done|]. apply IH. Qed.

Lemma feed_plain parts current s :
  sall plain_char s = true → feed (mkSplit parts current None) s = mkSplit parts (current +:+ s) None.
Proof.
  revert current. induction s as [|c s IH]; intros current; [by rewrite sapp_nil_r|].
  simpl. intros [Hc Hs]%andb_prop. unfold plain_char in Hc. apply negb_true_iff in Hc.
  apply orb_false_elim in Hc as [Hq Hsp]. unfold feed. simpl. rewrite Hq, Hsp.
  change (foldl _ _ _) with (feed (mkSplit parts (current +:+ str1 c) None) s).
  rewrite IH by done. by rewrite sapp_assoc.
Qed.

Lemma feed_quoted parts current q s :
  without q s = true →
  feed (mkSplit parts current (Some q)) s = mkSplit parts (current +:+ s) (Some q).
Proof.
  revert current. induction s as [|c s IH]; intros current; [by rewrite sapp_nil_r|].
  unfold without. simpl. intros [Hc Hs]%andb_prop. apply negb_true_iff in Hc.
  unfold feed. simpl. rewrite Hc.
  change (foldl _ _ _) with (feed (mkSplit parts (current +:+ str1 c) (Some q)) s).
  rewrite IH by done. by rewrite sapp_assoc.
Qed.

Lemma feed_written parts word arg :
  written word arg → feed (mkSplit parts "" None) word = mkSplit parts arg None.
Proof.
  intros [[-> Hp]|(q & Hq & Hw & ->)]; [by rewrite feed_plain|].
  assert (E : feed (mkSplit parts "" None) (str1 q) = mkSplit parts "" (Some q)).
  { by destruct Hq as [-> | ->]. }
  rewrite feed_app, E, feed_app, feed_quoted by done. unfold feed. simpl. by rewrite char_eqb_refl.
Qed.

Lemma feed_words parts words args :
  Forall2 written words args → Forall (λ a, sempty a = false) args →
  match args with
  | [] => True
  | _ => ∃ parts' last,
      feed (mkSplit parts "" None) (sjoin " " words) = mkSplit parts' last None ∧
      sempty last = false ∧ parts' ++ [last] = parts ++ args
  end.
Proof.
  intros Hw. revert parts. induction Hw as [|word arg words args Hwa Hw IH]; intros parts; [done|].
  intros [Ha Hargs]%Forall_cons. destruct Hw as [|word' arg' words args Hwa' Hw].
  - exists parts, arg. simpl. by rewrite (feed_written _ _ arg).
  - change (sjoin " " (word :: word' :: words)) with (word +:+ " " +:+ sjoin " " (word' :: words)).
    rewrite !feed_app, (feed_written _ _ arg) by done.
    assert (E : feed (mkSplit parts arg None) " " = mkSplit (parts ++ [arg]) "" None).
    { unfold feed. simpl. by rewrite Ha. }
    rewrite E. destruct (IH (parts ++ [arg]) Hargs) as (parts' & last & ? & ? & ?).
    exists parts', last. split_and!; [done..|]. by rewrite <-app_assoc in *.
Qed.

Lemma parse_words words args :
  Forall2 written words args → Forall (λ a, sempty a = false) args →
  parseRedisCommand (sjoin " " words) = args.
Proof.
  intros Hw Ha. pose proof (feed_words [] words args Hw Ha) as H.
  destruct args as [|arg args]; [by apply Forall2_nil_inv_r in Hw as ->|].
  destruct H as (parts & last & E & Hl & Hp). unfold parseRedisCommand, split_all.
  change (foldl _ _ _) with (feed (mkSplit [] "" None) (sjoin " " words)). rewrite E. simpl.
  by rewrite Hl.
Qed.

(** Splitting a command typed by hand inverts writing it: non-empty arguments, each given
    as it is when it holds no white space or quote, or else between quotes of a kind it does
    not contain, and joined with blanks, are read back as they were. *)
Lemma parseRedisCommand_roundtrip words args :
  Forall2 written words args → Forall (λ a, sempty a = false) args →
  parseRedisCommand (sjoin " " words) = args.
Proof. apply parse_words. Qed.

Lemma parseRedisCommand_roundtrip_witness :
  parseRedisCommand (sjoin " " ["SET"; "'it is'"; "x"]) = ["SET"; "it is"; "x"].
Proof.
  apply parseRedisCommand_roundtrip.
  - repeat apply Forall2_cons_2; [by left| |by left|apply Forall2_nil_2].
    right. exists squote. split_and!; [by right|done|done].
  - repeat apply Forall_cons_2; [done|done|done|apply Forall_nil_2].
Defined.

(** ** Keys per logical database *)

Lemma read_field_index info kv : di_index (read_field info kv) = di_index info.
Proof. unfold read_field. destruct info. by repeat case_match. Qed.

Lemma read_fields_index l info : di_index (foldl read_field info l) = di_index info.
Proof.
  revert info. induction l as [|kv l IH]; intros info; [done|]. simpl. by rewrite IH, read_field_index.
Qed.

Definition indexed (found : gmap Z RedisDbInfo) : Prop :=
  map_Forall (λ i info, di_index info = i) found.

Lemma read_keyspace_indexed text : indexed (read_keyspace text).
Proof.
  unfold read_keyspace. assert (H : indexed ∅) by apply map_Forall_empty. revert H.
  generalize (∅ : gmap Z RedisDbInfo). induction (getlines newline text) as [|line l IH]; [done|].
  intros found Hf. simpl. apply IH. unfold read_db_line. repeat case_match; try done.
  apply map_Forall_insert_2; [|done]. by rewrite read_fields_index.
Qed.

Lemma foldl_max {A} (f : A → Z) l z :
  (z <= foldl (λ n x, Z.max n (f x)) z l)%Z ∧
  ∀ x, x ∈ l → (f x <= foldl (λ n x, Z.max n (f x)) z l)%Z.
Proof.
  revert z. induction l as [|y l IH]; intros z; simpl; [split; [lia|by intros ? ?%elem_of_nil]|].
  destruct (IH (Z.max z (f y))) as [H1 H2]. split; [lia|].
  intros x [->|Hx]%elem_of_cons; [lia|]. by apply H2.
Qed.

Lemma db_count_covers n selected found :
  (selected < db_count false n selected found)%Z ∧
  ∀ i info, found !! i = Some info → (i < db_count false n selected found)%Z.
Proof.
  unfold db_count.
  pose proof (foldl_max (λ kv : Z * RedisDbInfo, fst kv + 1)%Z (map_to_list found) (selected + 1))
    as [H1 H2]. split; [lia|]. intros i info Hi%elem_of_map_to_list.
  specialize (H2 (i, info) Hi). simpl in H2. lia.
Qed.

(** [databaseInfo] throws exactly the error of the query it sends; otherwise it has an
    entry for each index from 0 on, in order, each with what the server's text says of that
    index or zeros: as many as the server has databases when that is known, and otherwise
    enough for the selected database and for every one with keys. *)
Lemma databaseInfo_indexed hr w :
  let '(query, w') := keyspace_section hr w in
  match fst (databaseInfo hr w), query with
  | inl err, inl err' => err = err'
  | inr infos, inr text =>
      let found := read_keyspace text in
      let n := Z.of_nat (length infos) in
      (∀ i info, infos !! i = Some info →
         di_index info = Z.of_nat i ∧
         (di_hasKeys info = true → found !! Z.of_nat i = Some info) ∧
         (found !! Z.of_nat i = None → info = no_info (Z.of_nat i))) ∧
      (if w_dbCountKnown w' then n = Z.max 0 (w_numDatabases w')
       else (w_connSelected w' < n)%Z ∧ ∀ i info, found !! i = Some info → (i < n)%Z)
  | _, _ => False
  end.
Proof.
  unfold databaseInfo. rewrite sess_bind_eq. destruct (keyspace_section hr w) as [[err|text] v];
    do 3 (rewrite sess_bind_eq; cbn [get]); simpl; [done|].
  set (found := read_keyspace text). rewrite length_map, length_seqZ. split.
  - intros i info Hi. rewrite list_lookup_fmap in Hi.
    apply fmap_Some in Hi as (z & Hz & ->). apply lookup_seqZ in Hz as [-> Hlt].
    rewrite Z.add_0_l. pose proof (read_keyspace_indexed text (Z.of_nat i)) as Hidx.
    fold found in Hidx. destruct (found !! Z.of_nat i) as [info|]; simpl; [|done].
    split_and!; [by apply Hidx|done..].
  - destruct (w_dbCountKnown v); [unfold db_count; lia|].
    destruct (db_count_covers (w_numDatabases v) (w_connSelected v) found) as [H1 H2].
    split; [lia|]. intros i info Hi. specialize (H2 i info Hi). lia.
Qed.

(** ** A concrete server

    Four databases, and in each the keys c, a and b, which a scan returns in two batches. *)

Definition sample_accepts (args : list string) : option Z :=
  match args with
  | [cmd; n] =>
      if (cmd =? "SELECT")%string
      then List.find (λ z, (to_string z =? n)%string) [0; 1; 2; 3]%Z else None
  | _ => None
  end.

Definition sample_answer (cmd : string) (rest : list string) : Reply :=
  if (cmd =? "SELECT")%string then RError "ERR DB index is out of range"
  else if (cmd =? "SCAN")%string then
    if (default "" (head rest) =? "0")%string then RArray [RString "7"; RArray [RString "c"]]
    else RArray [RString "0"; RArray [RString "a"; RString "b"]]
  else if (cmd =? "TYPE")%string then RStatus "string"
  else if (cmd =? "MEMORY")%string then RInteger 56
  else if (cmd =? "GET")%string then RString "v"
  else if (cmd =? "PING")%string then RStatus "PONG"
  else if (cmd =? "CONFIG")%string then RArray [RString "databases"; RString "4"]
  else RNil.

Definition sample_reply (args : list string) : Reply :=
  match sample_accepts args, args with
  | Some _, _ => RStatus "OK"
  | None, cmd :: rest => sample_answer cmd rest
  | None, [] => RError "ERR"
  end.

Definition sample_redis : Hiredis :=
  mkHiredis (λ _ args, Some (sample_reply args)) (λ _, "") (λ _, ConnectOk) (λ _ _, TlsOk) true.

Definition sample_step (current : Z) (e : event) : Z :=
  match e with Connected => 0%Z | Sent args => default current (sample_accepts args) end.
Definition sample_current (sent : list event) : Z := foldl sample_step 0%Z sent.

Lemma sample_current_snoc sent e :
  sample_current (sent ++ [e]) = sample_step (sample_current sent) e.
Proof. unfold sample_current. by rewrite foldl_app. Qed.

Lemma sample_accepts_select n z :
  sample_accepts ["SELECT"; to_string n] = Some z → z = n.
Proof.
  unfold sample_accepts. rewrite String.eqb_refl. intros [_ H]%List.find_some.
  by apply String.eqb_eq, (inj pretty) in H.
Qed.

Lemma sample_reply_error args :
  is_error (sample_reply args) = true → sample_accepts args = None.
Proof. unfold sample_reply. by destruct (sample_accepts args). Qed.

Lemma sample_reply_select n :
  is_error (sample_reply ["SELECT"; to_string n]) = false →
  is_Some (sample_accepts ["SELECT"; to_string n]).
Proof. unfold sample_reply. by destruct (sample_accepts _). Qed.

#[export] Instance sample_server : Server sample_redis sample_current.
Proof.
  split.
  - intros sent. by rewrite sample_current_snoc.
  - intros sent n r _ [= <-] [z Hz]%sample_reply_select. rewrite sample_current_snoc.
    unfold select_of, sample_step. rewrite Hz. by apply sample_accepts_select.
  - intros sent args r [= <-] H%sample_reply_error. rewrite sample_current_snoc. simpl. by rewrite H.
  - intros sent e (args & -> & Hp). rewrite sample_current_snoc. simpl. unfold sample_accepts.
    destruct args as [|cmd [|n [|? ?]]]; try done.
    destruct (String.eqb_spec cmd "SELECT") as [->|]; [|done]. by vm_compute in Hp.
  - done.
Qed.

Definition sample_info : ConnectionInfo :=
  mkConnectionInfo REDIS "cache" "" "localhost" 6379 "" "" "" false Disable "" false.

(** the connection opened *)
Definition opened : World := snd (open sample_redis sample_info start).

Lemma opened_reachable : rtc (step sample_redis) start opened.
Proof. apply rtc_once, step_open. Qed.

Lemma key_details_pipeline_witness :
  key_details sample_redis ["a"; "b"] opened = key_details_seq sample_redis ["a"; "b"] opened ∧
  w_pending (snd (key_details sample_redis ["a"; "b"] opened)) = [].
Proof. apply key_details_pipeline. reflexivity. Defined.

Lemma selected_index_invariant_witness :
  w_pending opened = [] ∧
  (w_ctx opened = true → on_index sample_redis sample_current (w_selectedDb opened) (w_sent opened)).
Proof. apply selected_index_invariant; [apply sample_server|apply opened_reachable]. Defined.

(** the connection made anew after another index was selected by hand *)
Definition reopened : World :=
  let typed := snd (execute sample_redis (mkHandle 0 "cache") "SELECT 3" opened) in
  snd (open sample_redis sample_info (snd (close typed))).

Lemma reopened_reached : reached sample_redis false reopened.
Proof.
  apply (reached_again _ true); [|reflexivity]. eapply (reached_step _ true); [|apply step_close].
  apply (reached_typed _ false). eapply reached_step; [apply reached_start|apply step_open].
Qed.

Lemma handle_isolated_witness :
  let w' := snd (fetchKeyDetails sample_redis 2 ["a"] reopened) in
  sample_current (w_sent reopened) = 0%Z ∧
  runs_on sample_redis sample_current 2 (w_sent reopened) (w_sent w').
Proof.
  split; [vm_compute; reflexivity|].
  apply handle_isolated; [apply sample_server|apply reopened_reached|apply handle_details].
Defined.

Lemma scan_complete_witness :
  ∃ all, ∀ fuel, 1 < fuel →
    enumerate sample_redis fuel "*" 0 (w_sent opened) = Some all ∧
    fst (scanKeysLocked sample_redis fuel "*" 2 opened) = Some (take (key_limit 2) all).
Proof.
  apply (scan_complete sample_redis (λ c, if (c =? 0)%Z then 1 else 0)); [|reflexivity..].
  intros sent cursor pattern next batch. unfold scan_command. simpl.
  unfold sample_reply. simpl. unfold sample_answer. simpl.
  destruct (String.eqb_spec (to_string cursor) "0") as [E|_].
  - change (pretty cursor = pretty 0%Z) in E. apply (inj pretty cursor 0%Z) in E as ->. intros [= <- <-] _. vm_compute. lia.
  - intros [= <- <-] H. by vm_compute in H.
Defined.

Lemma open_spec_witness :
  let '(ok, message, w') := open sample_redis sample_info start in
  w_ctx w' = ok ∧ (ok = true → message = "") ∧
  (if w_ctx start then w' = start
   else ok = true →
        w_selectedDb w' = w_connSelected w' ∧ (0 <= w_connSelected w' < w_numDatabases w')%Z).
Proof. apply (open_spec sample_redis sample_info start). reflexivity. Defined.

(** ** What goes wrong *)

Definition page (offset : Z) : option (list (list string)) :=
  fst (getTableData sample_redis 2 (mkHandle 0 "cache") (namedTable "" "*") 1 offset opened).

Definition page_of_c : list (list string) := [["c"; "string"; "v"; "-1"; "56 B"]].

(** Paging shows keys out of order: each page scans up to its own end and sorts only what
    it scanned, so three pages of one key each can show one key three times and two keys
    never. *)
Lemma pages_repeat :
  page 0 = page 1 ∧ page 1 = page 2 ∧ is_Some (page 0) ∧
  fst (getRowCount sample_redis 2 (mkHandle 0 "cache") (namedTable "" "*") opened) = Some 3%Z ∧
  ∀ offset row rows, offset ∈ [0; 1; 2]%Z → page offset = Some rows → row ∈ rows →
    head row ≠ Some "a" ∧ head row ≠ Some "b".
Proof.
  assert (H : Forall (λ offset, page offset = Some page_of_c) [0; 1; 2]%Z).
  { repeat constructor; vm_compute; reflexivity. }
  rewrite Forall_forall in H. split_and!.
  - rewrite (H 0%Z), (H 1%Z); [done|set_solver..].
  - rewrite (H 1%Z), (H 2%Z); [done|set_solver..].
  - exists page_of_c. apply H. set_solver.
  - vm_compute. reflexivity.
  - intros offset row rows Ho Hp Hr. rewrite (H _ Ho) in Hp. injection Hp as <-.
    by apply list_elem_of_singleton in Hr as ->.
Qed.

(** A [SELECT] typed by hand goes unnoticed: when the server accepts it, it is on the
    index typed while the shared state still records the handle's, and the next selection of
    the handle's index sends nothing and reports success, so that the handle's commands run on
    the other database. *)
Lemma raw_select_stale hr (current : list event → Z) `{!Server hr current} w h command m r :
  rtc (step hr) start w → w_ctx w = true → w_selectedDb w = h_index h → m ≠ h_index h →
  parseRedisCommand command = ["SELECT"; to_string m] →
  hr_reply hr (w_sent w) ["SELECT"; to_string m] = Some r → is_error r = false →
  let w' := snd (execute hr h command w) in
  qr_success (fst (execute hr h command w)) = true ∧
  current (w_sent w') = m ∧ w_selectedDb w' = h_index h ∧
  ensureSelectedLocked hr (h_index h) w' = (true, w').
Proof.
  intros Hrun Hc Hn Hm Hp Hr Hok. pose proof (reachable_coherent hr current w Hrun) as Hw.
  unfold execute. rewrite Hp.
  rewrite sess_bind_eq. cbn [get]. rewrite Hc. cbn [negb].
  assert (E : ensureSelectedLocked hr (h_index h) w = (true, w)).
  { unfold ensureSelectedLocked. do 2 (rewrite sess_bind_eq; cbn [get]; rewrite ?Hc, ?Hn; cbn [negb]).
    by rewrite Z.eqb_refl. }
  rewrite sess_bind_eq, E. cbn [negb]. rewrite sess_bind_eq, redisCommand_eq by apply Hw.
  rewrite Hr, Hok. simpl. split_and!; [done| |done|].
  - by apply (server_select _ _ _ r); [apply Hw|..].
  - unfold ensureSelectedLocked. do 2 (rewrite sess_bind_eq; cbn [get]; simpl; rewrite ?Hc, ?Hn; cbn [negb]).
    by rewrite Z.eqb_refl.
Qed.

Lemma raw_select_stale_witness :
  let w' := snd (execute sample_redis (mkHandle 0 "cache") "SELECT 3" opened) in
  sample_current (w_sent w') = 3%Z ∧ w_selectedDb w' = 0%Z.
Proof.
  destruct (raw_select_stale sample_redis sample_current opened (mkHandle 0 "cache") "SELECT 3" 3
              (RStatus "OK") opened_reachable) as (_ & ? & ? & _); [by vm_compute..|].
  split; assumption.
Defined.

(** the connection's own reads run on the database the last handle selected, whatever
    [selectedDatabase] says *)
Example connection_reads_handle_db :
  let w := snd (execute sample_redis (mkHandle 2 "cache") "PING" opened) in
  let w' := snd (getKeyType sample_redis "a" w) in
  w_connSelected w = 0%Z ∧ sample_current (w_sent w) = 2%Z ∧
  w_sent w' = w_sent w ++ [Sent ["TYPE"; "a"]].
Proof. by vm_compute. Qed.

(** an empty argument between quotes is dropped: [SET k ''] goes out without its value *)
Example empty_argument_dropped : parseRedisCommand "SET k ''" = ["SET"; "k"].
Proof. reflexivity. Qed.

(** a key without a colon is listed as a group of keys with one: the pattern [c:*] *)
Example plain_key_table :
  (λ ts, map tbl_name <$> ts) (fst (tables sample_redis 2 (mkHandle 0 "cache") opened)) =
  Some ["*"; "a:*"; "b:*"; "c:*"].
Proof. by vm_compute. Qed.
