(* ===== verification/Postgres.v ===== *)
(** * The PostgreSQL backend: sessions and results

    [src/postgres_connection.cpp] and [include/dearsql/backends/postgres_connection.hpp]: the
    conversion of results, the loop that reads a streamed answer under a row limit, and the
    [search_path] that the handles of a database's schemas share.

    libpq and the server behind it are the parameter [Libpq]: what they answer from all that
    the session did before.  A [PostgresDatabase] is the state [Session]; its operations give
    a value, throw, or hang ([Hangs]: the loop over the results did not end within the fuel). *)

From S2P Require Import Prelude Types ConnectionInfo DdlUtils SqlBuilder Lexer Database Effects.

(** ** Literals and names *)

Definition literal (s : string) : string := "'" +:+ double_char squote s +:+ "'".

Definition quoteIdent (s : string) : string :=
  str1 dquote +:+ double_char dquote s +:+ str1 dquote.

Definition literalList (names : list string) : string :=
  foldl (λ out n, (if sempty out then out else out +:+ ", ") +:+ literal n) "" names.

Definition maintenanceDatabase (type : DatabaseType) : string :=
  if type =t? COCKROACHDB then "defaultdb" else if type =t? REDSHIFT then "dev" else "postgres".

(** ** Results *)

Inductive ExecStatus :=
  | PGRES_EMPTY_QUERY | PGRES_COMMAND_OK | PGRES_TUPLES_OK | PGRES_TUPLES_CHUNK
  | PGRES_COPY | PGRES_ERROR.

#[export] Instance ExecStatus_eq_dec : EqDecision ExecStatus.
Proof. solve_decision. Defined.

Record PGresult := mkPGresult {
  pg_status : ExecStatus;
  pg_fields : list (string * Z);               (* name and type *)
  pg_rows : list (list (option string));       (* nothing for a null *)
  pg_affected : string;                        (* [PQcmdTuples] *)
  pg_error : string                            (* [PQresultErrorMessage] *)
}.

Definition pg_cell (type : Z) (value : option string) : string :=
  match value with
  | None => NULL_SENTINEL
  | Some v =>
      if (type =? 16)%Z then if head_is "t" v then BOOL_TRUE_SENTINEL else BOOL_FALSE_SENTINEL
      else v
  end.

Definition pg_row (fields : list (string * Z)) (row : list (option string)) : list string :=
  imap (λ i field, pg_cell (snd field) (mjoin (row !! i))) fields.

Definition set_rows (names : list string) (rows : list (list string)) (message : string)
    (r : StatementResult) : StatementResult :=
  mkStatementResult (sr_success r) (sr_errorMessage r) names rows (sr_affectedRows r) message.

Definition appendPgRows (res : PGresult) (result : StatementResult) (rowLimit : Z)
    : StatementResult :=
  let names := match sr_columnNames result with [] => map fst (pg_fields res) | names => names end in
  let nRows := Z.of_nat (length (pg_rows res)) in
  let have := Z.of_nat (length (sr_tableData result)) in
  let limit := if (0 <? rowLimit)%Z then Z.min nRows (Z.max 0 (rowLimit - have)) else nRows in
  set_rows names
    (sr_tableData result ++ map (pg_row (pg_fields res)) (take (Z.to_nat limit) (pg_rows res)))
    (sr_message result) result.

Definition setRowsMessage (result : StatementResult) (total rowLimit : Z) (stopped : bool)
    : StatementResult :=
  let n := length (sr_tableData result) in
  let message := "Returned " +:+ to_string (Z.of_nat n) +:+ " row" +:+ (if n =? 1 then "" else "s") in
  set_rows (sr_columnNames result) (sr_tableData result)
    (if stopped then
       message +:+ " (limited to " +:+ to_string rowLimit +:+ "; the rest was not fetched)"
     else if (0 <? rowLimit)%Z && (rowLimit <? total)%Z then
       message +:+ " (limited to " +:+ to_string rowLimit +:+ ")"
     else message) result.

Definition only_separators (sql : string) : bool := sall (λ c, (c =? ";")%char || isspace c) sql.

Definition stoppableRead (sql : string) : bool :=
  let '(b, e) := statementRangeAt sql 0 POSTGRESQL in
  let stmt := substr sql b (e - b) in
  let word := smap tolower (stake (span_len isalpha stmt) stmt) in
  only_separators (sdrop e sql) && inWords ["select"; "table"; "values"] word.

Definition extractPgResult (res : PGresult) (rowLimit : Z) : StatementResult :=
  match pg_status res with
  | PGRES_TUPLES_OK =>
      setRowsMessage (appendPgRows res no_result rowLimit) (Z.of_nat (length (pg_rows res)))
        rowLimit false
  | PGRES_COMMAND_OK =>
      if sempty (pg_affected res) then
        mkStatementResult true "" [] [] 0 "Query executed successfully"
      else
        mkStatementResult true "" [] [] (atoi (pg_affected res))
          (pg_affected res +:+ " row(s) affected")
  | _ => failure (pg_error res)
  end.

(** ** Reading an answer *)

(** the variables of the loop in [run]; [st_stopped] is the number of results that had come
    when the query was cancelled *)
Record Stream := mkStream {
  st_got : list PGresult;
  st_rows : StatementResult;
  st_streaming : bool;
  st_seen : Z;
  st_stopped : option nat;
  st_statements : list StatementResult
}.

Definition stream_start : Stream := mkStream [] no_result false 0 None [].

Section stream.
Context (rowLimit : Z) (stoppable : bool).

(** the body of the loop *)
Definition stream_step (st : Stream) (res : PGresult) : Stream :=
  let '(mkStream got rows streaming seen stopped statements) := st in
  let got := got ++ [res] in
  let status := pg_status res in
  if bool_decide (status = PGRES_TUPLES_CHUNK) ||
     (streaming && bool_decide (status = PGRES_TUPLES_OK)) then
    let rows := appendPgRows res rows rowLimit in
    let seen := (seen + Z.of_nat (length (pg_rows res)))%Z in
    let streaming := bool_decide (status = PGRES_TUPLES_CHUNK) in
    let stopped :=
      if streaming && stoppable && negb (bool_decide (is_Some stopped)) && (rowLimit <? seen)%Z
      then Some (length got) else stopped in
    if streaming then mkStream got rows streaming seen stopped statements
    else mkStream got no_result streaming 0 stopped
           (statements ++ [setRowsMessage rows seen rowLimit false])
  else if streaming then
    if bool_decide (is_Some stopped) then
      mkStream got no_result false 0 stopped
        (statements ++ [setRowsMessage rows seen rowLimit true])
    else
      mkStream got no_result false 0 stopped (statements ++ [extractPgResult res rowLimit])
  else
    let r := extractPgResult res rowLimit in
    mkStream got rows streaming seen stopped
      (if sr_success r || negb (sempty (sr_errorMessage r)) then statements ++ [r]
       else statements).

(** [for (;;)] over [PQgetResult]; nothing when it has not ended within the fuel *)
Fixpoint stream_loop (fuel : nat) (next : list PGresult → option nat → option PGresult)
    (st : Stream) : option Stream :=
  match fuel with
  | 0 => None
  | S fuel =>
      match next (st_got st) (st_stopped st) with
      | None => Some st
      | Some res => stream_loop fuel next (stream_step st res)
      end
  end.
End stream.

(** ** A session *)

Inductive pg_event :=
  | PgOpen (conninfo : string) | PgPing | PgQuery (sql : string) | PgCancel.

Record Libpq := mkLibpq {
  (** [PQconnectdb]: its error *)
  pq_connect : list pg_event → string → option string;
  (** [PQtransactionStatus(conn) == PQTRANS_IDLE] *)
  pq_idle : list pg_event → bool;
  (** [PQsendQuery]: its error *)
  pq_send : list pg_event → string → option string;
  (** [PQgetResult]: the next result of a query, from those that have come and when it was
      cancelled; rows come in chunks when they are asked for *)
  pq_next : list pg_event → string → bool → list PGresult → option nat → option PGresult
}.

Record Session := mkSession {
  ss_events : list pg_event;
  ss_conn : bool;            (* [conn_] is not null *)
  ss_searchPath : string
}.

Notation PM := (Eff Session).

Definition add_events (es : list pg_event) (s : Session) : Session :=
  mkSession (ss_events s ++ es) (ss_conn s) (ss_searchPath s).
Definition set_searchPath (path : string) (s : Session) : Session :=
  mkSession (ss_events s) (ss_conn s) path.
Definition log_event (e : pg_event) : PM unit := λ s, (Done tt, add_events [e] s).
Definition put_path (path : string) : PM unit := λ s, (Done tt, set_searchPath path s).

(** no schema has this name *)
Definition UNKNOWN : string := str1 "000".

Section database.
Context (lib : Libpq) (info : ConnectionInfo) (dbName : string) (fuel : nat).

(** the error, when the connection fails *)
Definition ensureConn : PM (option string) := λ s,
  if ss_conn s then (Done None, s)
  else
    let connStr := buildConnectionString info dbName in
    match pq_connect lib (ss_events s) connStr with
    | Some err => (Done (Some ("PostgreSQL connection failed: " +:+ err)), s)
    | None => (Done None, mkSession (ss_events s ++ [PgOpen connStr]) true "")
    end.

Definition openSession : PM Status :=
  error ← ensureConn;
  mret (match error with None => (true, "") | Some e => (false, e) end).

(** what the server answers to a query sent now, and whether it was cancelled *)
Definition answer (events : list pg_event) (sql : string) (rowLimit : Z)
    : option (list StatementResult * bool) :=
  let capped := (0 <? rowLimit)%Z in
  let stoppable := capped && pq_idle lib events && stoppableRead sql in
  match pq_send lib events sql with
  | Some err => Some ([failure err], false)
  | None =>
      (λ st, (st_statements st, bool_decide (is_Some (st_stopped st)))) <$>
        stream_loop rowLimit stoppable fuel (pq_next lib events sql capped) stream_start
  end.

(** the query itself, on an open connection *)
Definition query (sql : string) (rowLimit : Z) : PM QueryResult := λ s,
  match answer (ss_events s) sql rowLimit with
  | None => (Hangs, add_events [PgQuery sql] s)
  | Some (statements, cancelled) =>
      (Done (mkQueryResult statements []),
       add_events (PgQuery sql :: if cancelled : bool then [PgCancel] else []) s)
  end.

Definition run (sql : string) (rowLimit : Z) (timed : bool) : PM QueryResult :=
  error ← ensureConn;
  match error with
  | Some e => mret (one_failure e)
  | None => (if timed then log_event PgPing else mret tt) ;; query sql rowLimit
  end.

Definition path_statement (schema : string) : string :=
  if sempty schema then "RESET search_path" else "SET search_path TO " +:+ quoteIdent schema.

(** the texts after which the path is not known any more *)
Definition may_move_path (sql : string) : bool :=
  let lower := smap tolower sql in
  contains "search_path" lower || contains "rollback" lower || contains "discard" lower ||
  contains "reset" lower.

Definition get_path : PM string := λ s, (Done (ss_searchPath s), s).

(** the switch to a schema, in a round trip of its own: the result that stops, if it fails *)
Definition switch_path (schema : string) : PM (option QueryResult) :=
  path ← get_path;
  if (schema =? path)%string then mret None
  else
    set ← run (path_statement schema) 0 false;
    if qr_success set then put_path schema ;; mret None else mret (Some set).

Definition executeIn (schema sql : string) (rowLimit : Z) : PM QueryResult :=
  set ← switch_path schema;
  match set with
  | Some failed => mret failed
  | None =>
      r ← run sql rowLimit true;
      (if negb (qr_success r) || may_move_path sql then put_path UNKNOWN else mret tt) ;;
      mret r
  end.

Definition execute (sql : string) (rowLimit : Z) : PM QueryResult := executeIn "" sql rowLimit.

Definition rows (sql : string) : PM (list (list string)) :=
  r ← run sql 0 false;
  if negb (qr_success r) then
    throws (if sempty (qr_errorMessage r) then "query failed" else qr_errorMessage r)
  else mret (match qr_statements r with s :: _ => sr_tableData s | [] => [] end).
End database.
