(* ===== verification/PostgresCatalog.v ===== *)
(** * The PostgreSQL backend: the catalog

    [src/postgres_connection.cpp]: the catalog queries of a database, how their rows become
    tables, views, routines and indexes, and the handle of one schema.  The queries are the
    source's texts. *)

From S2P Require Import Prelude Types ConnectionInfo DdlUtils SqlBuilder Lexer Database Effects Rows Postgres.

(** ** The queries *)

Definition COLUMN_TYPE : string :=
  "CASE WHEN c.data_type IN ('USER-DEFINED', 'ARRAY') THEN (" +:+
  "SELECT pg_catalog.format_type(a.atttypid, a.atttypmod) FROM pg_catalog.pg_attribute a " +:+
  "WHERE a.attrelid = (pg_catalog.quote_ident(c.table_schema) || '.' || " +:+
  "pg_catalog.quote_ident(c.table_name))::regclass AND a.attname = c.column_name) " +:+
  "ELSE c.data_type END".

Definition schema_names_sql : string :=
  "SELECT schema_name FROM information_schema.schemata " +:+
  "WHERE schema_name NOT IN ('information_schema', 'pg_catalog', 'pg_toast', " +:+
  "'crdb_internal', 'pg_extension') " +:+
  "AND schema_name NOT LIKE 'pg\_temp\_%' " +:+
  "AND schema_name NOT LIKE 'pg\_toast\_temp\_%' " +:+
  "ORDER BY schema_name".

Definition tables_sql (schema : string) : string :=
  "SELECT tablename FROM pg_tables WHERE schemaname = " +:+ literal schema +:+ " ORDER BY tablename".

Definition columns_sql (schema : string) (names : list string) : string :=
  "SELECT c.table_name, c.column_name, " +:+ COLUMN_TYPE +:+ ", c.is_nullable, " +:+
  "CASE WHEN tc.constraint_type = 'PRIMARY KEY' THEN 'true' ELSE 'false' END, " +:+
  "CASE WHEN c.column_default LIKE 'nextval(%' OR c.column_default = 'unique_rowid()' " +:+
  "OR c.is_identity = 'YES' " +:+
  "  THEN 'true' ELSE 'false' END, " +:+
  "COALESCE(c.column_default, '') " +:+
  "FROM information_schema.columns c " +:+
  "LEFT JOIN information_schema.key_column_usage kcu " +:+
  "  ON c.column_name = kcu.column_name AND c.table_name = kcu.table_name " +:+
  "  AND c.table_schema = kcu.table_schema " +:+
  "LEFT JOIN information_schema.table_constraints tc " +:+
  "  ON kcu.constraint_name = tc.constraint_name " +:+
  "  AND tc.constraint_type = 'PRIMARY KEY' " +:+
  "WHERE c.table_schema = " +:+ literal schema +:+ " AND c.table_name IN (" +:+ literalList names +:+ ") " +:+
  "ORDER BY c.table_name, c.ordinal_position".

Definition foreign_keys_sql (schema : string) (names : list string) : string :=
  "SELECT src.relname, sa.attname, tgt.relname, ta.attname, con.conname " +:+
  "FROM pg_catalog.pg_constraint con " +:+
  "JOIN pg_catalog.pg_class src ON src.oid = con.conrelid " +:+
  "JOIN pg_catalog.pg_namespace n ON n.oid = src.relnamespace " +:+
  "JOIN pg_catalog.pg_class tgt ON tgt.oid = con.confrelid " +:+
  "  AND tgt.relnamespace = src.relnamespace " +:+
  "JOIN generate_series(1, 32) i ON i <= array_length(con.conkey, 1) " +:+
  "JOIN pg_catalog.pg_attribute sa " +:+
  "  ON sa.attrelid = con.conrelid AND sa.attnum = con.conkey[i] " +:+
  "JOIN pg_catalog.pg_attribute ta " +:+
  "  ON ta.attrelid = con.confrelid AND ta.attnum = con.confkey[i] " +:+
  "WHERE con.contype = 'f' AND n.nspname = " +:+ literal schema +:+ " AND src.relname IN (" +:+ literalList names +:+ ") " +:+
  "ORDER BY src.relname, con.conname, i".

Definition foreign_keys_standard_sql (schema : string) (names : list string) : string :=
  "SELECT tc.table_name, kcu.column_name, ccu.table_name, ccu.column_name, " +:+
  "tc.constraint_name " +:+
  "FROM information_schema.table_constraints tc " +:+
  "JOIN information_schema.key_column_usage kcu " +:+
  "  ON tc.constraint_name = kcu.constraint_name " +:+
  "  AND tc.table_schema = kcu.table_schema " +:+
  "JOIN information_schema.constraint_column_usage ccu " +:+
  "  ON ccu.constraint_name = tc.constraint_name " +:+
  "  AND ccu.table_schema = tc.table_schema " +:+
  "WHERE tc.constraint_type = 'FOREIGN KEY' AND tc.table_schema = " +:+ literal schema +:+ " " +:+
  "AND tc.table_name IN (" +:+ literalList names +:+ ") ORDER BY tc.table_name".

Definition sizes_sql (schema : string) (names : list string) : string :=
  "SELECT c.relname, pg_total_relation_size(c.oid) " +:+
  "FROM pg_catalog.pg_class c " +:+
  "JOIN pg_catalog.pg_namespace n ON n.oid = c.relnamespace " +:+
  "WHERE n.nspname = " +:+ literal schema +:+ " AND c.relkind = 'r' " +:+
  "AND c.relname IN (" +:+ literalList names +:+ ")".

Definition views_sql (schema : string) : string :=
  "SELECT viewname, COALESCE(definition, '') FROM pg_views " +:+
  "WHERE schemaname = " +:+ literal schema +:+ " ORDER BY viewname".

Definition view_columns_sql (schema : string) (names : list string) : string :=
  "SELECT c.table_name, c.column_name, " +:+ COLUMN_TYPE +:+ ", c.is_nullable " +:+
  "FROM information_schema.columns c " +:+
  "WHERE c.table_schema = " +:+ literal schema +:+ " AND c.table_name IN (" +:+ literalList names +:+ ") " +:+
  "ORDER BY c.table_name, c.ordinal_position".

Definition matviews_sql (schema : string) : string :=
  "SELECT matviewname, COALESCE(definition, '') " +:+
  "FROM pg_matviews WHERE schemaname = " +:+ literal schema +:+ " " +:+
  "ORDER BY matviewname".

Definition matview_columns_sql (schema : string) (names : list string) : string :=
  "SELECT c.relname, a.attname, " +:+
  "pg_catalog.format_type(a.atttypid, a.atttypmod), a.attnotnull " +:+
  "FROM pg_catalog.pg_attribute a " +:+
  "JOIN pg_catalog.pg_class c ON a.attrelid = c.oid " +:+
  "JOIN pg_catalog.pg_namespace n ON c.relnamespace = n.oid " +:+
  "WHERE n.nspname = " +:+ literal schema +:+ " AND c.relkind = 'm' " +:+
  "AND a.attnum > 0 AND NOT a.attisdropped AND c.relname IN (" +:+ literalList names +:+ ") " +:+
  "ORDER BY c.relname, a.attnum".

Definition sequences_sql (schema : string) : string :=
  "SELECT sequencename FROM pg_sequences " +:+
  "WHERE schemaname = " +:+ literal schema +:+ " ORDER BY sequencename".

Definition routines_sql (schema : string) : string :=
  "SELECT p.proname, " +:+
  "p.proname || '(' || " +:+
  "COALESCE(pg_catalog.pg_get_function_identity_arguments(p.oid), '') || ')', " +:+
  "CASE p.prokind WHEN 'f' THEN 'FUNCTION' ELSE 'PROCEDURE' END, " +:+
  "pg_catalog.pg_get_function_result(p.oid) " +:+
  "FROM pg_catalog.pg_proc p " +:+
  "JOIN pg_catalog.pg_namespace n ON n.oid = p.pronamespace " +:+
  "WHERE n.nspname = " +:+ literal schema +:+ " AND p.prokind IN ('f', 'p') ORDER BY p.prokind, p.proname".

Definition describe_columns_sql (schema tableName : string) : string :=
  "SELECT c.column_name, " +:+ COLUMN_TYPE +:+ ", c.is_nullable, COALESCE(c.column_default, ''), " +:+
  "CASE WHEN c.column_default LIKE 'nextval(%' OR c.column_default = 'unique_rowid()' " +:+
  "OR c.is_identity = 'YES' " +:+
  "  THEN 'true' ELSE 'false' END " +:+
  "FROM information_schema.columns c " +:+
  "WHERE c.table_schema = " +:+ literal schema +:+ " AND c.table_name = " +:+ literal tableName +:+ " ORDER BY c.ordinal_position".

(** the table as text that [::regclass] reads *)
Definition regclass (schema tableName : string) : string :=
  literal (quoteIdent schema +:+ "." +:+ quoteIdent tableName).

Definition primary_key_sql (schema tableName : string) : string :=
  "SELECT a.attname FROM pg_index i " +:+
  "JOIN pg_attribute a ON a.attrelid = i.indrelid AND a.attnum = ANY(i.indkey) " +:+
  "WHERE i.indrelid = " +:+ regclass schema tableName +:+ "::regclass AND i.indisprimary".

Definition indexes_sql (schema tableName : string) : string :=
  "SELECT i.relname, a.attname, ix.indisunique " +:+
  "FROM pg_class t " +:+
  "JOIN pg_namespace n ON n.oid = t.relnamespace " +:+
  "JOIN pg_index ix ON t.oid = ix.indrelid " +:+
  "JOIN pg_class i ON i.oid = ix.indexrelid " +:+
  "JOIN pg_attribute a ON a.attrelid = t.oid AND a.attnum = ANY(ix.indkey) " +:+
  "WHERE t.relkind = 'r' AND n.nspname = " +:+ literal schema +:+ " AND t.relname = " +:+ literal tableName +:+ " " +:+
  "AND NOT ix.indisprimary ORDER BY i.relname, a.attnum".

Definition describe_foreign_keys_sql (schema tableName : string) : string :=
  "SELECT kcu.column_name, ccu.table_name, ccu.column_name, tc.constraint_name " +:+
  "FROM information_schema.table_constraints tc " +:+
  "JOIN information_schema.key_column_usage kcu " +:+
  "  ON tc.constraint_name = kcu.constraint_name " +:+
  "  AND tc.table_schema = kcu.table_schema " +:+
  "JOIN information_schema.constraint_column_usage ccu " +:+
  "  ON ccu.constraint_name = tc.constraint_name " +:+
  "  AND ccu.table_schema = tc.table_schema " +:+
  "WHERE tc.constraint_type = 'FOREIGN KEY' AND tc.table_schema = " +:+ literal schema +:+ " " +:+
  "AND tc.table_name = " +:+ literal tableName.

Definition size_sql (schema tableName : string) : string :=
  "SELECT pg_total_relation_size(" +:+ regclass schema tableName +:+ "::regclass)".

(** ** Rows into tables *)

(** a row of [columns_sql] *)
Definition table_column (row : list string) : Column :=
  mkColumn (cell row 1) (cell row 2) (cell row 6) "" (equals "true" (cell row 4))
    (equals "NO" (cell row 3)) false (equals "true" (cell row 5)).

Definition table_foreign_key (row : list string) : ForeignKey :=
  mkForeignKey (cell row 4) (cell row 1) (cell row 2) (cell row 3) "" "".

(** a row of [view_columns_sql] *)
Definition view_column (row : list string) : Column :=
  mkColumn (cell row 1) (cell row 2) "" "" false (equals "NO" (cell row 3)) false false.

(** a row of [matview_columns_sql] *)
Definition matview_column (row : list string) : Column :=
  mkColumn (cell row 1) (cell row 2) "" "" false (equals BOOL_TRUE_SENTINEL (cell row 3)) false false.

Definition table_size (sizes : gmap string Z) (row : list string) : gmap string Z :=
  if length row <? 2 then sizes else <[cell row 0 := default (-1)%Z (stol (cell row 1))]> sizes.

Definition assemble_table (schema : string) (cols : gmap string (list Column))
    (fks : gmap string (list ForeignKey)) (sizes : gmap string Z) (name : string) : Table :=
  mkTable name schema "" "" (schema +:+ "." +:+ name) (default [] (cols !! name)) []
    (default [] (fks !! name)) [] (default (-1)%Z (sizes !! name)).

(** the names of one schema are distinct: nothing is moved from twice *)
Definition assemble_tables (schema : string) (names : list string)
    (column_rows fk_rows size_rows : list (list string)) : list Table :=
  populateIncomingForeignKeys
    (map (assemble_table schema (group_rows 7 table_column column_rows)
            (group_rows 5 table_foreign_key fk_rows) (foldl table_size ∅ size_rows)) names).

(** a row of [views_sql] or [matviews_sql] *)
Definition view_of_row (schema : string) (row : list string) : option Table :=
  if length row <? 2 then None
  else Some (mkTable (cell row 0) schema "" (cell row 1) (schema +:+ "." +:+ cell row 0)
               [] [] [] [] (-1)%Z).

Definition set_columns (columns : list Column) (t : Table) : Table :=
  mkTable (tbl_name t) (tbl_schema t) (tbl_comment t) (tbl_definition t) (tbl_fullName t)
    columns (tbl_indexes t) (tbl_foreignKeys t) (tbl_incomingForeignKeys t) (tbl_sizeBytes t).

Definition with_columns (cols : gmap string (list Column)) (v : Table) : Table :=
  match cols !! tbl_name v with Some columns => set_columns columns v | None => v end.

(** a row of [routines_sql] *)
Definition routine_of_row (row : list string) : option Routine :=
  if length row <? 4 then None
  else Some (mkRoutine (cell row 0) (cell row 1)
               (if equals "PROCEDURE" (cell row 2) then RoutineProcedure else RoutineFunction)
               (if equals NULL_SENTINEL (cell row 3) then "" else cell row 3)).

(** a row of [describe_columns_sql] *)
Definition described_column (row : list string) : option Column :=
  if length row <? 5 then None
  else Some (mkColumn (cell row 0) (cell row 1) (cell row 3) "" false (equals "NO" (cell row 2)) false
               (equals "true" (cell row 4))).

Definition mark_primary (pkCols : list string) (c : Column) : Column :=
  mkColumn (col_name c) (col_type c) (col_defaultValue c) (col_comment c)
    (inWords pkCols (col_name c)) (col_isNotNull c) (col_isUnique c) (col_isAutoIncrement c).

(** one row per index column: the index is added when its name is new *)
Fixpoint add_index_column (name : string) (unique : bool) (column : string) (indexes : list Index)
    : list Index :=
  match indexes with
  | [] => [mkIndex name [column] unique false ""]
  | i :: rest =>
      if (idx_name i =? name)%string
      then mkIndex (idx_name i) (idx_columns i ++ [column]) (idx_isUnique i) (idx_isPrimary i)
             (idx_type i) :: rest
      else i :: add_index_column name unique column rest
  end.

Definition index_step (indexes : list Index) (row : list string) : list Index :=
  if length row <? 3 then indexes
  else add_index_column (cell row 0) (equals BOOL_TRUE_SENTINEL (cell row 2)) (cell row 1) indexes.

Definition described_foreign_key (row : list string) : option ForeignKey :=
  if length row <? 4 then None
  else Some (mkForeignKey (cell row 3) (cell row 0) (cell row 1) (cell row 2) "" "").

(** the first cell of the size query *)
Definition described_size (r : QueryResult) : Z :=
  match qr_success r, qr_statements r with
  | true, s :: _ =>
      match sr_tableData s with
      | (c :: _) :: _ => if equals NULL_SENTINEL c then (-1)%Z else default (-1)%Z (stol c)
      | _ => (-1)%Z
      end
  | _, _ => (-1)%Z
  end.

(** ** The catalog of a database *)

Section database.
Context (lib : Libpq) (info : ConnectionInfo) (dbName : string) (fuel : nat).
Notation rows := (rows lib info dbName fuel).
Notation run := (run lib info dbName fuel).

Definition schemaNames : PM (list string) := first_cells <$> rows schema_names_sql.

Definition tablesIn (schema : string) : PM (list Table) :=
  name_rows ← rows (tables_sql schema);
  let names := first_cells name_rows in
  match names with
  | [] => mret []
  | _ =>
      column_rows ← rows (columns_sql schema names);
      fkResult ← run (foreign_keys_sql schema names) 0 false;
      fkRows ← (match qr_success fkResult, qr_statements fkResult with
                | true, s :: _ => mret (sr_tableData s)
                | _, _ => rows (foreign_keys_standard_sql schema names)
                end);
      sizeResult ← run (sizes_sql schema names) 0 false;
      mret (assemble_tables schema names column_rows fkRows
              (match qr_success sizeResult, qr_statements sizeResult with
               | true, s :: _ => sr_tableData s
               | _, _ => []
               end))
  end.

(** [viewsIn] and [materializedViewsIn]: the views, then their columns *)
Definition views_with (list_sql : string) (columns_sql : list string → string)
    (column : list string → Column) (schema : string) : PM (list Table) :=
  view_rows ← rows list_sql;
  let result := omap (view_of_row schema) view_rows in
  match result with
  | [] => mret []
  | _ =>
      column_rows ← rows (columns_sql (map tbl_name result));
      mret (map (with_columns (group_rows 4 column column_rows)) result)
  end.

Definition viewsIn (schema : string) : PM (list Table) :=
  views_with (views_sql schema) (view_columns_sql schema) view_column schema.

Definition materializedViewsIn (schema : string) : PM (list Table) :=
  views_with (matviews_sql schema) (matview_columns_sql schema) matview_column schema.

Definition sequencesIn (schema : string) : PM (list string) :=
  first_cells <$> rows (sequences_sql schema).

Definition routinesIn (schema : string) : PM (list Routine) :=
  omap routine_of_row <$> rows (routines_sql schema).

Definition describeIn (schema tableName : string) : PM Table :=
  column_rows ← rows (describe_columns_sql schema tableName);
  let fullName := schema +:+ "." +:+ tableName in
  match omap described_column column_rows with
  | [] => mret (mkTable tableName schema "" "" fullName [] [] [] [] (-1)%Z)
  | columns =>
      pk_rows ← rows (primary_key_sql schema tableName);
      index_rows ← rows (indexes_sql schema tableName);
      fk_rows ← rows (describe_foreign_keys_sql schema tableName);
      size ← run (size_sql schema tableName) 1 false;
      mret (mkTable tableName schema "" "" fullName
              (map (mark_primary (first_cells pk_rows)) columns)
              (foldl index_step [] index_rows) (omap described_foreign_key fk_rows) []
              (described_size size))
  end.

(** the listings across all schemas: one after the other *)
Definition in_schemas {A} (listing : string → PM (list A)) : PM (list A) :=
  names ← schemaNames;
  lists ← mapM listing names;
  mret (mjoin lists).

Definition tables : PM (list Table) := in_schemas tablesIn.
Definition views : PM (list Table) := in_schemas viewsIn.
Definition materializedViews : PM (list Table) := in_schemas materializedViewsIn.
Definition sequences : PM (list string) :=
  in_schemas (λ s, seqs ← sequencesIn s; mret (map (λ seq, s +:+ "." +:+ seq) seqs)).
Definition routines : PM (list Routine) := in_schemas routinesIn.

Definition describeTable (tableName : string) : PM Table :=
  match find_char "." tableName 0 with
  | Some dot => describeIn (substr tableName 0 dot) (sdrop (S dot) tableName)
  | None =>
      current ← rows "SELECT current_schema()";
      describeIn (match current : list (list string) with (c :: _) :: _ => c | _ => "public" end)
        tableName
  end.

(** ** The handle of a schema *)

Definition inSchema (name : string) (table : Table) : Table :=
  if sempty (tbl_schema table)
  then mkTable (tbl_name table) name (tbl_comment table) (tbl_definition table)
         (tbl_fullName table) (tbl_columns table) (tbl_indexes table) (tbl_foreignKeys table)
         (tbl_incomingForeignKeys table) (tbl_sizeBytes table)
  else table.

(** the status of a statement *)
Definition status_of (sql : string) : PM Status :=
  r ← execute lib info dbName fuel sql 0; mret (toStatus r).

(** the status and the handle's new name *)
Definition renameSchema (name newName : string) : PM (Status * string) :=
  st ← status_of ("ALTER SCHEMA " +:+ quoteIdent name +:+ " RENAME TO " +:+ quoteIdent newName);
  let '(ok, message) := st : Status in
  mret (ok, message, if ok then newName else name).

Definition dropSchema (name : string) : PM Status :=
  status_of ("DROP SCHEMA " +:+ quoteIdent name +:+ " CASCADE").
End database.
