(* ===== verification/PostgresConnection.v ===== *)
(** * The PostgreSQL backend: the connection

    [ConnectionImpl] of [src/postgres_connection.cpp]: a cache of one [PostgresDatabase] per
    name, the default database, and the operations on whole databases.  Each database object
    has a session of its own; a fresh object is a session that has not connected. *)

From S2P Require Import Prelude Types ConnectionInfo Database Effects Postgres.

(** a [PostgresDatabase] *)
Record PgDatabase := mkPgDatabase {
  pd_info : ConnectionInfo;
  pd_name : string;
  pd_session : Session
}.

Definition new_database (info : ConnectionInfo) (name : string) : PgDatabase :=
  mkPgDatabase info name (mkSession [] false "").

(** [ConnectionImpl]: its mutable members *)
Record PgConnection := mkPgConnection {
  pc_info : ConnectionInfo;
  pc_open : bool;
  pc_cache : gmap string PgDatabase
}.

Definition set_default (name : string) (ci : ConnectionInfo) : ConnectionInfo :=
  mkConnectionInfo (ci_type ci) (ci_name ci) (ci_path ci) (ci_host ci) (ci_port ci) name
    (ci_username ci) (ci_password ci) (ci_showAllDatabases ci) (ci_sslmode ci)
    (ci_sslCACertPath ci) (ci_readOnly ci).

(** the constructor *)
Definition new_connection (info : ConnectionInfo) : PgConnection :=
  mkPgConnection
    (if sempty (ci_database info) then set_default (maintenanceDatabase (ci_type info)) info
     else info) false ∅.

Notation CM := (Eff PgConnection).

Definition snapshot : CM ConnectionInfo := λ c, (Done (pc_info c), c).
Definition set_cache (f : gmap string PgDatabase → gmap string PgDatabase) (c : PgConnection)
    : PgConnection := mkPgConnection (pc_info c) (pc_open c) (f (pc_cache c)).
Definition cm_modify (f : PgConnection → PgConnection) : CM unit := λ c, (Done tt, f c).

Section connection.
Context (lib : Libpq) (fuel : nat).

(** the cached object of a name, made on first use; the name it is cached under *)
Definition database (name : string) : CM string := λ c,
  let n := if sempty name then ci_database (pc_info c) else name in
  (Done n,
   match pc_cache c !! n with
   | Some _ => c
   | None => set_cache (insert n (new_database (pc_info c) n)) c
   end).

(** an uncached object *)
Definition openDatabase (name : string) : CM PgDatabase :=
  info ← snapshot;
  mret (new_database info (if sempty name then ci_database info else name)).

(** an operation of a database object *)
Definition on_database {A} (m : ConnectionInfo → string → PM A) (d : PgDatabase)
    : outcome A * PgDatabase :=
  let '(r, s) := m (pd_info d) (pd_name d) (pd_session d) in
  (r, mkPgDatabase (pd_info d) (pd_name d) s).

Definition on_cached {A} (m : ConnectionInfo → string → PM A) (n : string) : CM A := λ c,
  match pc_cache c !! n with
  | Some d => let '(r, d') := on_database m d in (r, set_cache (insert n d') c)
  | None => (Hangs, c)   (* not reached: [database] has just made it *)
  end.

(** an operation of the default database's cached object *)
Definition on_default {A} (m : ConnectionInfo → string → PM A) : CM A :=
  n ← database "";
  on_cached m n.

Definition execute_default (sql : string) : CM QueryResult :=
  on_default (λ info name, execute lib info name fuel sql 0).

Definition open : CM Status :=
  st ← on_default (openSession lib);
  cm_modify (λ c, mkPgConnection (pc_info c) (fst (st : Status)) (pc_cache c)) ;;
  mret st.

Definition close : CM unit := cm_modify (λ c, mkPgConnection (pc_info c) false ∅).

Definition isOpen : CM bool := λ c, (Done (pc_open c), c).

(** the name of a row of [pg_database] that is listed *)
Definition listed_database (crdb : bool) (row : list string) : option string :=
  match row with
  | name :: _ => if crdb && (name =? "system")%string then None else Some name
  | [] => None
  end.

Definition databases : CM (list string) :=
  r ← execute_default
        "SELECT datname FROM pg_database WHERE datistemplate = false ORDER BY datname";
  if negb (qr_success r) then throws (qr_errorMessage r)
  else
    info ← snapshot;
    match qr_statements r with
    | [] => mret []
    | s :: _ =>
        mapM database (omap (listed_database (ci_type info =t? COCKROACHDB)) (sr_tableData s))
    end.

Definition create_sql (crdb : bool) (opts : CreateDatabaseOptions) : string :=
  let clause (on : bool) word text := if on then " " +:+ word +:+ " " +:+ text else "" in
  "CREATE DATABASE " +:+ quoteIdent (cd_name opts) +:+
  clause (negb (sempty (cd_owner opts))) "OWNER" (quoteIdent (cd_owner opts)) +:+
  clause (negb (sempty (cd_templateDb opts)) && negb crdb) "TEMPLATE"
    (quoteIdent (cd_templateDb opts)) +:+
  clause (negb (sempty (cd_encoding opts))) "ENCODING" (literal (cd_encoding opts)) +:+
  clause (negb (sempty (cd_tablespace opts)) && negb crdb) "TABLESPACE"
    (quoteIdent (cd_tablespace opts)).

Definition createDatabase (opts : CreateDatabaseOptions) : CM Status :=
  if sempty (cd_name opts) then mret (false, "Database name cannot be empty")
  else
    info ← snapshot;
    r ← execute_default (create_sql (ci_type info =t? COCKROACHDB) opts);
    if negb (qr_success r) then mret (false, qr_errorMessage r)
    else if sempty (cd_comment opts) then mret (true, "")
    else
      c ← execute_default ("COMMENT ON DATABASE " +:+ quoteIdent (cd_name opts) +:+ " IS " +:+
                           literal (cd_comment opts));
      mret (true,
            if qr_success c then ""
            else "Created database, but failed to set comment: " +:+ qr_errorMessage c).

Definition terminate_sql (name : string) : string :=
  "SELECT pg_terminate_backend(pid) FROM pg_stat_activity " +:+
  "WHERE datname = " +:+ literal name +:+ " AND pid <> pg_backend_pid()".

(** the last two statements of [dropDatabase], on the object they go through *)
Definition drop_via (name : string) (info : ConnectionInfo) (via : string) : PM QueryResult :=
  execute lib info via fuel (terminate_sql name) 0 ;;
  execute lib info via fuel ("DROP DATABASE " +:+ quoteIdent name) 0.

(** through a new session of the maintenance database, which becomes the default *)
Definition drop_connected (name : string) (info : ConnectionInfo) : CM Status := λ c,
  let via := new_database info (maintenanceDatabase (ci_type info)) in
  match on_database (openSession lib) via with
  | (Done (false, err), _) =>
      (Done (false, "Failed to connect to maintenance database: " +:+ err), c)
  | (Done (true, _), via) =>
      match on_database (drop_via name) via with
      | (Done r, via) =>
          if negb (qr_success r) then (Done (false, qr_errorMessage r), c)
          else
            (Done (true, ""),
             mkPgConnection (set_default (pd_name via) (pc_info c)) (pc_open c)
               (<[pd_name via := via]> (pc_cache c)))
      | (Throws e, _) => (Throws e, c)
      | (Hangs, _) => (Hangs, c)
      end
  | (Throws e, _) => (Throws e, c)
  | (Hangs, _) => (Hangs, c)
  end.

Definition dropDatabase (name : string) : CM Status :=
  info ← snapshot;
  cm_modify (set_cache (delete name)) ;;
  if (name =? ci_database info)%string then
    database "" ;; drop_connected name info
  else
    r ← on_default (drop_via name);
    mret (toStatus r).

Definition renameDatabase (oldName newName : string) : CM Status :=
  cm_modify (set_cache (delete oldName)) ;;
  r ← execute_default ("ALTER DATABASE " +:+ quoteIdent oldName +:+ " RENAME TO " +:+
                       quoteIdent newName);
  mret (toStatus r).
End connection.
