(* ===== verification/PostgresProps.v ===== *)
(** * The PostgreSQL backend: streamed answers

    What the loop over a streamed answer returns against the answer in one piece, the row
    limit, and the answers it never returns from. *)

From S2P Require Import Prelude Types ConnectionInfo Lexer Database Effects Postgres.

(** ** Streamed answers *)

Notation row := (list (option string)) (only parsing).

(** What the server answers to one statement of a query.  Rows come in chunks, and the row
    set may fail after some of them. *)
Inductive reply :=
  | RowSet (fields : list (string * Z)) (chunks : list (list row)) (fails : option string)
  | Whole (fields : list (string * Z)) (rows : list row)
  | Command (affected : string)
  | Failed (message : string)
  | EmptyQuery.

Definition chunk_result (fields : list (string * Z)) (rows : list row) : PGresult :=
  mkPGresult PGRES_TUPLES_CHUNK fields rows "" "".
Definition whole_result (fields : list (string * Z)) (rows : list row) : PGresult :=
  mkPGresult PGRES_TUPLES_OK fields rows "" "".
Definition error_result (message : string) : PGresult := mkPGresult PGRES_ERROR [] [] "" message.

(** libpq's results for a reply: a row set in chunks ends with an empty one *)
Definition delivered (r : reply) : list PGresult :=
  match r with
  | RowSet fields chunks fails =>
      map (chunk_result fields) chunks ++
      [match fails with None => whole_result fields [] | Some e => error_result e end]
  | Whole fields rows => [whole_result fields rows]
  | Command affected => [mkPGresult PGRES_COMMAND_OK [] [] affected ""]
  | Failed message => [error_result message]
  | EmptyQuery => [mkPGresult PGRES_EMPTY_QUERY [] [] "" ""]
  end.

Definition reported (message : string) : list StatementResult :=
  if sempty message then [] else [failure message].

(** the row set in one piece, under the limit *)
Definition in_one_piece (rowLimit : Z) (fields : list (string * Z)) (rows : list row)
    : StatementResult := extractPgResult (whole_result fields rows) rowLimit.

(** the reference: what each reply is worth; [stoppable] when the query may be cancelled *)
Definition expected (rowLimit : Z) (stoppable : bool) (r : reply) : list StatementResult :=
  match r with
  | RowSet fields chunks None => [in_one_piece rowLimit fields (mjoin chunks)]
  | RowSet fields [] (Some e) => reported e
  | RowSet fields chunks (Some e) =>
      let total := Z.of_nat (length (mjoin chunks)) in
      if stoppable && (rowLimit <? total)%Z
      then [setRowsMessage (in_one_piece rowLimit fields (mjoin chunks)) total rowLimit true]
      else [failure e]
  | Whole fields rows => [in_one_piece rowLimit fields rows]
  | Command affected =>
      [extractPgResult (mkPGresult PGRES_COMMAND_OK [] [] affected "") rowLimit]
  | Failed message => reported message
  | EmptyQuery => []
  end.

Section stream.
Context (rowLimit : Z).

(** how many of [n] rows are kept *)
Definition kept (n : nat) : nat :=
  if (0 <? rowLimit)%Z then Z.to_nat rowLimit `min` n else n.

(** the row set after some rows *)
Definition rows_so_far (fields : list (string * Z)) (rows : list row) : StatementResult :=
  mkStatementResult true "" (map fst fields)
    (map (pg_row fields) (take (kept (length rows)) rows)) 0 "".

Lemma take_eq {A} a b (l : list A) : a `min` length l = b `min` length l → take a l = take b l.
Proof.
  intros H. apply list_eq. intros i. destruct (decide (i < length l)) as [Hi|Hi].
  - destruct (decide (i < a)), (decide (i < b));
      rewrite ?lookup_take_lt, ?lookup_take_ge by lia; done || lia.
  - rewrite !(lookup_ge_None_2 (take _ l)); [done|rewrite length_take; lia..].
Qed.

Lemma append_first fields rows st status :
  appendPgRows (mkPGresult status fields rows "" st) no_result rowLimit = rows_so_far fields rows.
Proof.
  unfold appendPgRows, rows_so_far, set_rows, kept. cbn -[Z.min Z.max Z.sub Z.ltb Z.of_nat Z.to_nat].
  f_equal. f_equal. apply take_eq.
  destruct (Z.ltb_spec 0 rowLimit); lia.
Qed.

Lemma append_more fields before rows status st :
  appendPgRows (mkPGresult status fields rows "" st) (rows_so_far fields before) rowLimit =
  rows_so_far fields (before ++ rows).
Proof.
  unfold appendPgRows, rows_so_far, set_rows. cbn -[Z.min Z.max Z.sub Z.ltb Z.of_nat Z.to_nat]. f_equal.
  { by destruct fields. }
  rewrite <-map_app. f_equal. rewrite length_map, length_take. unfold kept.
  rewrite take_app, length_app. f_equal; apply take_eq; destruct (Z.ltb_spec 0 rowLimit); lia.
Qed.

Lemma in_one_piece_rows fields rows :
  in_one_piece rowLimit fields rows =
  setRowsMessage (rows_so_far fields rows) (Z.of_nat (length rows)) rowLimit false.
Proof.
  unfold in_one_piece, extractPgResult, whole_result. cbn [pg_status pg_rows].
  by rewrite append_first.
Qed.

(** the state inside a row set *)
Definition inside (stoppable : bool) fields (before : list row) (st st' : Stream) : Prop :=
  st_rows st' = rows_so_far fields before ∧ st_streaming st' = true ∧
  st_seen st' = Z.of_nat (length before) ∧ st_statements st' = st_statements st ∧
  (is_Some (st_stopped st') ↔ stoppable = true ∧ (rowLimit < Z.of_nat (length before))%Z).

(** the state between two replies *)
Definition between (st : Stream) : Prop :=
  st_rows st = no_result ∧ st_streaming st = false ∧ st_seen st = 0%Z.

Lemma step_chunk stoppable st fields rows :
  stream_step rowLimit stoppable st (chunk_result fields rows) =
  mkStream (st_got st ++ [chunk_result fields rows])
    (appendPgRows (chunk_result fields rows) (st_rows st) rowLimit) true
    (st_seen st + Z.of_nat (length rows))
    (if stoppable && negb (bool_decide (is_Some (st_stopped st))) &&
        (rowLimit <? st_seen st + Z.of_nat (length rows))%Z
     then Some (length (st_got st ++ [chunk_result fields rows])) else st_stopped st)
    (st_statements st).
Proof. by destruct st. Qed.

Local Ltac fields := cbn [st_rows st_streaming st_seen st_statements st_stopped st_got].

Lemma chunk_first stoppable fields rows st :
  between st → st_stopped st = None →
  inside stoppable fields rows st (stream_step rowLimit stoppable st (chunk_result fields rows)).
Proof.
  intros (Hr & _ & Hseen) Hs. unfold inside. rewrite step_chunk, Hr, Hseen, Hs, Z.add_0_l. fields.
  unfold chunk_result at 1. rewrite append_first. split_and!; [done..|].
  rewrite andb_true_r. destruct stoppable; simpl; [|by split; [intros []|intros [? _]]].
  destruct (Z.ltb_spec rowLimit (Z.of_nat (length rows))).
  - split; [done|by eexists].
  - split; [by intros []|lia].
Qed.

Lemma chunk_more stoppable fields before rows st st' :
  inside stoppable fields before st st' →
  inside stoppable fields (before ++ rows) st
    (stream_step rowLimit stoppable st' (chunk_result fields rows)).
Proof.
  intros (Hr & _ & Hseen & Hst & Hs). unfold inside. rewrite step_chunk, Hr, Hseen. fields.
  unfold chunk_result at 1. rewrite append_more, length_app, Nat2Z.inj_add.
  split_and!; [done..|]. destruct (st_stopped st') as [k|]; simpl.
  - rewrite andb_false_r. simpl. split; [|by eexists].
    intros _. destruct Hs as [Hs _]. destruct Hs as [? ?]; [by eexists|]. split; [done|lia].
  - rewrite andb_true_r. destruct stoppable; simpl; [|by split; [intros []|intros [? _]]].
    destruct (Z.ltb_spec rowLimit (Z.of_nat (length before) + Z.of_nat (length rows))).
    + split; [done|by eexists].
    + split; [by intros []|lia].
Qed.

Lemma chunks_more stoppable fields before chunks st st' :
  inside stoppable fields before st st' →
  inside stoppable fields (before ++ mjoin chunks) st
    (foldl (stream_step rowLimit stoppable) st' (map (chunk_result fields) chunks)).
Proof.
  revert before st'. induction chunks as [|rows chunks IH]; intros before st' H; simpl.
  { by rewrite app_nil_r. }
  rewrite app_assoc. by apply IH, chunk_more.
Qed.

(** the end of a row set *)
Lemma chunks_end stoppable fields before st st' :
  inside stoppable fields before st st' →
  let st'' := stream_step rowLimit stoppable st' (whole_result fields []) in
  between st'' ∧ st_statements st'' = st_statements st ++ [in_one_piece rowLimit fields before] ∧
  st_stopped st'' = st_stopped st'.
Proof.
  destruct st' as [got r streaming seen stopped statements]. unfold inside. fields.
  intros (-> & -> & -> & -> & _). rewrite in_one_piece_rows.
  unfold stream_step, whole_result. cbn [pg_status pg_rows length].
  rewrite append_more, app_nil_r, Z.add_0_r. by cbn -[rows_so_far setRowsMessage].
Qed.

Lemma chunks_fail stoppable fields before st st' e :
  inside stoppable fields before st st' →
  let st'' := stream_step rowLimit stoppable st' (error_result e) in
  between st'' ∧
  st_statements st'' = st_statements st ++
    (if stoppable && (rowLimit <? Z.of_nat (length before))%Z
     then [setRowsMessage (in_one_piece rowLimit fields before) (Z.of_nat (length before))
             rowLimit true]
     else [failure e]) ∧
  st_stopped st'' = st_stopped st'.
Proof.
  destruct st' as [got r streaming seen stopped statements]. unfold inside. fields.
  intros (-> & -> & -> & -> & Hs). rewrite in_one_piece_rows.
  assert (E : bool_decide (is_Some stopped) = stoppable && (rowLimit <? Z.of_nat (length before))%Z).
  { apply eq_bool_prop_intro. rewrite bool_decide_spec, Hs, andb_True, Is_true_true.
    rewrite Is_true_true, Z.ltb_lt. done. }
  unfold stream_step. cbn -[rows_so_far setRowsMessage Z.ltb Z.of_nat]. rewrite E.
  by destruct (stoppable && _).
Qed.

(** what a reply adds to the statements of a stream that is between two replies *)
Lemma reply_step stoppable r st :
  between st → st_stopped st = None →
  let st' := foldl (stream_step rowLimit stoppable) st (delivered r) in
  between st' ∧ st_statements st' = st_statements st ++ expected rowLimit stoppable r ∧
  (stoppable = false → st_stopped st' = None).
Proof.
  intros Hst Hs. destruct r as [f [|rows chunks] fails|f rows|affected|message|].
  2: {
    pose proof (chunks_more stoppable f rows chunks st _ (chunk_first stoppable f rows st Hst Hs)) as Hi.
    cbn [delivered map]. rewrite foldl_app. cbn [foldl app].
    assert (Hno : stoppable = false →
      st_stopped (foldl (stream_step rowLimit stoppable)
                    (stream_step rowLimit stoppable st (chunk_result f rows))
                    (map (chunk_result f) chunks)) = None).
    { intros Hno. destruct Hi as (_ & _ & _ & _ & Hi). apply eq_None_not_Some.
      intros [? _]%Hi. congruence. }
    destruct fails as [e|].
    - destruct (chunks_fail stoppable f _ st _ e Hi) as (? & -> & ->). by split_and!.
    - destruct (chunks_end stoppable f _ st _ Hi) as (? & -> & ->). by split_and!. }
  all: destruct st as [got r streaming seen stopped statements].
  all: destruct Hst as (Hr & Hstr & Hseen); simpl in Hr, Hstr, Hseen, Hs; subst.
  - destruct fails as [e|]; [|done]. cbn. unfold reported. destruct e; cbn; rewrite ?app_nil_r; done.
  - done.
  - cbn. by destruct (sempty affected).
  - cbn. unfold reported. destruct message; cbn; rewrite ?app_nil_r; done.
  - cbn. by rewrite app_nil_r.
Qed.
End stream.

Lemma replies_step rowLimit stoppable replies st :
  (stoppable = false ∨ length replies <= 1) → between st → st_stopped st = None →
  st_statements (foldl (stream_step rowLimit stoppable) st (replies ≫= delivered)) =
  st_statements st ++ (replies ≫= expected rowLimit stoppable).
Proof.
  revert st. induction replies as [|r replies IH]; intros st Hmany Hst Hs; csimpl.
  { by rewrite app_nil_r. }
  destruct (reply_step rowLimit stoppable r st Hst Hs) as (Hst' & E & Hs').
  rewrite foldl_app. destruct Hmany as [->|Hmany].
  - rewrite IH, E, <-app_assoc; [done|by left|done|by apply Hs'].
  - destruct replies as [|? ?]; [|simpl in Hmany; lia]. csimpl. by rewrite E, app_nil_r.
Qed.

(** results that come one after the other whatever is done *)
Definition in_order (results : list PGresult) (got : list PGresult) (_ : option nat)
    : option PGresult := results !! length got.

Lemma step_got rowLimit stoppable st res :
  length (st_got (stream_step rowLimit stoppable st res)) = S (length (st_got st)).
Proof.
  destruct st as [got r streaming seen stopped statements]. unfold stream_step.
  repeat case_match; simpl; by rewrite length_app, Nat.add_1_r.
Qed.

Lemma step_got_last rowLimit stoppable st res :
  last (st_got (stream_step rowLimit stoppable st res)) = Some res.
Proof.
  destruct st as [got r streaming seen stopped statements]. unfold stream_step.
  repeat case_match; simpl; by rewrite last_snoc.
Qed.

Lemma loop_in_order rowLimit stoppable results fuel st :
  length results - length (st_got st) < fuel →
  stream_loop rowLimit stoppable fuel (in_order results) st =
  Some (foldl (stream_step rowLimit stoppable) st (drop (length (st_got st)) results)).
Proof.
  revert st. induction fuel as [|fuel IH]; intros st Hf; [lia|]. cbn [stream_loop].
  unfold in_order at 1. destruct (results !! length (st_got st)) as [res|] eqn:E.
  - rewrite IH, step_got by (rewrite step_got; apply lookup_lt_Some in E; lia).
    by rewrite (drop_S _ _ _ E).
  - by rewrite drop_ge by (by apply lookup_ge_None).
Qed.

(** C32: A streamed answer is the answer in one piece.  However the server cuts its row sets
    into chunks, the loop ends, after as many calls as there are results, and gives each
    statement of the query exactly what the whole result gives: the same columns, the first
    [rowLimit] rows (all, without a limit), the same message; what was received of a row set
    that then fails is dropped and the error reported, unless the loop had itself cancelled
    the query past the limit, when the rows are kept and the message says so. *)
Theorem stream_is_whole rowLimit stoppable replies fuel :
  stoppable = false ∨ length replies <= 1 →
  length (replies ≫= delivered) < fuel →
  st_statements <$>
    stream_loop rowLimit stoppable fuel (in_order (replies ≫= delivered)) stream_start =
  Some (replies ≫= expected rowLimit stoppable).
Proof.
  intros Hmany Hf. rewrite loop_in_order by (simpl; lia). simpl. f_equal. rewrite drop_0.
  by apply (replies_step rowLimit stoppable replies stream_start).
Qed.

Definition sample_fields : list (string * Z) := [("id", 23); ("ok", 16)]%Z.
Definition sample_rows : list row := [[Some "1"; Some "t"]; [Some "2"; None]; [Some "3"; Some "f"]].

Lemma stream_is_whole_witness :
  let replies := [RowSet sample_fields [take 2 sample_rows; drop 2 sample_rows] None; Command "1"] in
  st_statements <$> stream_loop 2 false 9 (in_order (replies ≫= delivered)) stream_start =
  Some [mkStatementResult true "" ["id"; "ok"]
          [["1"; BOOL_TRUE_SENTINEL]; ["2"; NULL_SENTINEL]] 0 "Returned 2 rows (limited to 2)";
        mkStatementResult true "" [] [] 1 "1 row(s) affected"].
Proof.
  etransitivity; [apply stream_is_whole; [by left|simpl; lia]|by vm_compute].
Defined.

(** ** The row limit *)

Definition limited (rowLimit : Z) (s : StatementResult) : Prop :=
  (Z.of_nat (length (sr_tableData s)) <= rowLimit)%Z.

Lemma limited_append rowLimit res s :
  (0 < rowLimit)%Z → limited rowLimit s → limited rowLimit (appendPgRows res s rowLimit).
Proof.
  unfold limited, appendPgRows. cbn [set_rows sr_tableData]. intros Hpos Hs.
  rewrite length_app, length_map, length_take. destruct (Z.ltb_spec 0 rowLimit); lia.
Qed.

Lemma limited_none rowLimit : (0 < rowLimit)%Z → limited rowLimit no_result.
Proof. unfold limited. simpl. lia. Qed.

Lemma limited_extract rowLimit res :
  (0 < rowLimit)%Z → limited rowLimit (extractPgResult res rowLimit).
Proof.
  intros Hpos. unfold extractPgResult.
  destruct (pg_status res); try (unfold limited; simpl; lia).
  - destruct (sempty _); unfold limited; simpl; lia.
  - by apply limited_append, limited_none.
Qed.

Lemma limited_step rowLimit stoppable st res :
  (0 < rowLimit)%Z →
  limited rowLimit (st_rows st) ∧ Forall (limited rowLimit) (st_statements st) →
  let st' := stream_step rowLimit stoppable st res in
  limited rowLimit (st_rows st') ∧ Forall (limited rowLimit) (st_statements st').
Proof.
  intros Hpos. destruct st as [got r streaming seen stopped statements]. simpl. intros [Hr Hs].
  pose proof (limited_append rowLimit res r Hpos Hr) as Ha.
  pose proof (limited_extract rowLimit res Hpos) as He.
  pose proof (limited_none rowLimit Hpos) as Hn.
  unfold stream_step. repeat case_match; cbn [st_rows st_statements];
    (split; [done|rewrite ?Forall_app, ?Forall_singleton; done]).
Qed.

(** The row limit holds: with a positive limit no statement of an answer keeps more than
    [rowLimit] rows, whatever results libpq gives and in whatever order. *)
Lemma answer_limited lib fuel events sql rowLimit statements cancelled :
  (0 < rowLimit)%Z → answer lib fuel events sql rowLimit = Some (statements, cancelled) →
  Forall (limited rowLimit) statements.
Proof.
  intros Hpos. unfold answer. set (stoppable := _ && _ && _).
  destruct (pq_send lib events sql) as [err|].
  { intros [= <- _]. apply Forall_singleton. unfold limited. simpl. lia. }
  set (next := pq_next lib events sql _).
  assert (Hloop : ∀ st st', limited rowLimit (st_rows st) ∧ Forall (limited rowLimit) (st_statements st) →
            stream_loop rowLimit stoppable fuel next st = Some st' →
            Forall (limited rowLimit) (st_statements st')).
  { induction fuel as [|n IH]; intros st st' Hst; [done|]. simpl.
    destruct (next _ _) as [res|]; [|by intros [= <-]; destruct Hst].
    apply IH. by apply limited_step. }
  intros (st & Hst & [= -> _])%fmap_Some. apply (Hloop stream_start); [|done].
  split; [by apply limited_none|apply Forall_nil_2].
Qed.

(** libpq with an answer of its own for every query, whatever happened before *)
Definition fixed_libpq (results : string → list PGresult → option PGresult) : Libpq :=
  mkLibpq (λ _ _, None) (λ _, true) (λ _ _, None) (λ _ sql _ got _, results sql got).

Definition sample_libpq : Libpq :=
  fixed_libpq (λ _ got, in_order (delivered (Whole sample_fields sample_rows)) got None).

Lemma answer_limited_witness :
  ∃ s, answer sample_libpq 3 [] "SELECT 1" 2 = Some ([s], false) ∧ limited 2 s.
Proof.
  destruct (answer sample_libpq 3 [] "SELECT 1" 2) as [[statements cancelled]|] eqn:E;
    [|by vm_compute in E].
  pose proof (answer_limited sample_libpq 3 [] "SELECT 1" 2 statements cancelled eq_refl E) as H.
  vm_compute in E. injection E as <- <-. eexists. split; [done|]. by apply Forall_singleton in H.
Defined.

(** ** COPY *)

(** A query that starts a copy never returns: while a copy is under way libpq gives the
    same copy result every time it is asked, and the loop, which waits for the end of the
    results, asks again for ever; no number of steps is enough. *)
Lemma copy_never_returns lib events sql rowLimit res :
  let next := pq_next lib events sql (0 <? rowLimit)%Z in
  pq_send lib events sql = None →
  next [] None = Some res → pg_status res = PGRES_COPY →
  (∀ got r stopped, last got = Some r → pg_status r = PGRES_COPY → next got stopped = Some r) →
  ∀ fuel, answer lib fuel events sql rowLimit = None.
Proof.
  intros next Hsend Hfirst Hcopy Hnext fuel. unfold answer. rewrite Hsend. apply fmap_None.
  fold next. set (stoppable := _ && _ && _).
  assert (Hloop : ∀ fuel st, last (st_got st) = Some res →
            stream_loop rowLimit stoppable fuel next st = None).
  { clear fuel. induction fuel as [|fuel IH]; intros st Hst; [done|].
    cbn [stream_loop]. rewrite (Hnext _ res) by done. apply IH. by rewrite step_got_last. }
  destruct fuel as [|fuel]; [done|]. cbn [stream_loop].
  change (next (st_got stream_start) (st_stopped stream_start)) with (next [] None).
  rewrite Hfirst. apply Hloop. by rewrite step_got_last.
Qed.

Definition copy_libpq : Libpq :=
  fixed_libpq (λ _ got, Some (default (mkPGresult PGRES_COPY [] [] "" "") (last got))).

Lemma copy_never_returns_witness :
  pq_send copy_libpq [] "COPY t FROM STDIN" = None ∧
  ∀ fuel, answer copy_libpq fuel [] "COPY t FROM STDIN" 1000 = None.
Proof.
  split; [reflexivity|].
  apply (copy_never_returns copy_libpq [] "COPY t FROM STDIN" 1000
           (mkPGresult PGRES_COPY [] [] "" "")); [reflexivity..|].
  intros got r stopped Hr _. simpl. rewrite Hr. reflexivity.
Defined.
