(* ===== verification/PostgresPath.v ===== *)
(** * The PostgreSQL backend: the search path

    The [search_path] that the schema handles of a database share, as an invariant of its
    session under every order of operations; the schema a text runs in; and the failed
    transaction that cannot be left. *)

From S2P Require Import Prelude Types ConnectionInfo Database Effects Postgres PostgresProps.

(** ** The search path *)

Section path.
Context (lib : Libpq) (info : ConnectionInfo) (dbName : string) (fuel : nat).
Notation run := (run lib info dbName fuel).
Notation executeIn := (executeIn lib info dbName fuel).

Definition succeeds (events : list pg_event) (sql : string) : Prop :=
  ∃ statements c, answer lib fuel events sql 0 = Some (statements, c) ∧
    qr_success (mkQueryResult statements []) = true.

(** What the server documents of the path of a session: [path] of what the session did, [""]
    for the default one.  [keeps] are the queries that leave it as it is, whether they succeed
    or not: neither [SET] nor [RESET], nor the end of a transaction that may take one back. *)
Class PathServer (path : list pg_event → string) (keeps : string → Prop) : Prop := {
  path_open events c : path (events ++ [PgOpen c]) = "";
  path_ping events : path (events ++ [PgPing]) = path events;
  path_cancel events : path (events ++ [PgCancel]) = path events;
  path_set events schema :
    succeeds events (path_statement schema) →
    path (events ++ [PgQuery (path_statement schema)]) = schema;
  path_refused events schema :
    ¬ succeeds events (path_statement schema) →
    path (events ++ [PgQuery (path_statement schema)]) = path events;
  path_keeps events sql : keeps sql → path (events ++ [PgQuery sql]) = path events
}.

Context (path : list pg_event → string) (keeps : string → Prop) `{!PathServer path keeps}.

(** the record is the path, unless it says that it is not known *)
Definition tracked (s : Session) : Prop :=
  ss_searchPath s = UNKNOWN ∨
  if ss_conn s then path (ss_events s) = ss_searchPath s else ss_searchPath s = "".

Lemma pm_bind_eq {A B} (m : PM A) (f : A → PM B) s :
  (m ≫= f) s =
  match m s with
  | (Done x, s') => f x s'
  | (Throws e, s') => (Throws e, s')
  | (Hangs, s') => (Hangs, s')
  end.
Proof. done. Qed.

(** an open session *)
Lemma ensureConn_spec s :
  tracked s →
  let '(o, s') := ensureConn lib info dbName s in
  tracked s' ∧
  ((∃ e, o = Done (Some e) ∧ s' = s) ∨
   o = Done None ∧ ss_conn s' = true ∧
   ss_searchPath s' = (if ss_conn s then ss_searchPath s else "") ∧
   ∃ pre, ss_events s' = ss_events s ++ pre ∧ ∀ sql, PgQuery sql ∉ pre).
Proof.
  intros Ht. unfold ensureConn. destruct (ss_conn s) eqn:Hc.
  - split; [done|right]. split_and!; [done..|]. exists []. rewrite app_nil_r.
    split; [done|]. intros sql. apply not_elem_of_nil.
  - destruct (pq_connect lib (ss_events s) _) as [err|]; [split; [done|left; by eexists]|].
    split; [right; simpl; apply path_open|]. right. split_and!; [done..|].
    eexists. split; [done|]. intros sql ?%list_elem_of_singleton. done.
Qed.

(** a query on an open session: [s1] is the session it finds, connected just now or before *)
Definition asks (sql : string) (rowLimit : Z) (s s1 : Session) (o : outcome QueryResult)
    (s' : Session) : Prop :=
  ss_conn s1 = true ∧ ss_searchPath s1 = (if ss_conn s then ss_searchPath s else "") ∧

  (∃ pre, ss_events s1 = ss_events s ++ pre ∧ ∀ q, PgQuery q ∉ pre) ∧
  ss_conn s' = true ∧ ss_searchPath s' = ss_searchPath s1 ∧
  (∃ post, ss_events s' = ss_events s1 ++ PgQuery sql :: post ∧ (post = [] ∨ post = [PgCancel])) ∧
  o = match answer lib fuel (ss_events s1) sql rowLimit with
      | None => Hangs
      | Some (statements, _) => Done (mkQueryResult statements [])
      end.

Definition pinged (timed : bool) (s : Session) : Session :=
  if timed then add_events [PgPing] s else s.

Lemma run_eq sql rowLimit timed s :
  run sql rowLimit timed s =
  match ensureConn lib info dbName s with
  | (Done (Some e), s1) => (Done (one_failure e), s1)
  | (Done None, s1) => query lib fuel sql rowLimit (pinged timed s1)
  | (Throws e, s1) => (Throws e, s1)
  | (Hangs, s1) => (Hangs, s1)
  end.
Proof.
  unfold Postgres.run. rewrite pm_bind_eq.
  destruct (ensureConn lib info dbName s) as [[[e|]|e|] s1]; [done| |done..]. by destruct timed.
Qed.

Lemma pinged_spec timed s :
  ss_conn (pinged timed s) = ss_conn s ∧ ss_searchPath (pinged timed s) = ss_searchPath s ∧
  path (ss_events (pinged timed s)) = path (ss_events s) ∧
  ∃ pre, ss_events (pinged timed s) = ss_events s ++ pre ∧ ∀ q, PgQuery q ∉ pre.
Proof.
  destruct timed; simpl.
  - split_and!; [done|done|apply path_ping|]. eexists. split; [done|].
    by intros q ?%list_elem_of_singleton.
  - split_and!; [done..|]. exists []. rewrite app_nil_r. split; [done|].
    intros q. apply not_elem_of_nil.
Qed.

Lemma query_spec sql rowLimit s :
  let '(o, s') := query lib fuel sql rowLimit s in
  ss_conn s' = ss_conn s ∧ ss_searchPath s' = ss_searchPath s ∧
  (∃ post, ss_events s' = ss_events s ++ PgQuery sql :: post ∧ (post = [] ∨ post = [PgCancel])) ∧
  o = match answer lib fuel (ss_events s) sql rowLimit with
      | None => Hangs
      | Some (statements, _) => Done (mkQueryResult statements [])
      end.
Proof.
  unfold query. destruct (answer lib fuel (ss_events s) sql rowLimit) as [[st []]|]; simpl;
    split_and!; eauto.
Qed.

Lemma pg_run_spec sql rowLimit timed s :
  tracked s →
  let '(o, s') := run sql rowLimit timed s in
  (s' = s ∧ ∃ r, o = Done r ∧ qr_success r = false) ∨
  ∃ s1, tracked s1 ∧ asks sql rowLimit s s1 o s'.
Proof.
  intros Ht. rewrite run_eq. pose proof (ensureConn_spec s Ht) as H.
  destruct (ensureConn lib info dbName s) as [o1 s1].
  destruct H as [Ht1 [(e & -> & ->)|(-> & Hc & Hp & pre & Hpre & Hno)]].
  { left. split; [done|]. by eexists. }
  destruct (pinged_spec timed s1) as (Hc2 & Hp2 & Hpath & pre' & Hpre' & Hno').
  set (s2 := pinged timed s1) in *. pose proof (query_spec sql rowLimit s2) as Hq.
  destruct (query lib fuel sql rowLimit s2) as [o s']. destruct Hq as (Hc3 & Hp3 & Hpost & Ho).
  right. exists s2. split; [unfold tracked; by rewrite Hc2, Hp2, Hpath|].
  unfold asks. rewrite Hc3, Hp3, Hc2, Hp2. split_and!; [done..| |done|done|done|done].
  exists (pre ++ pre'). rewrite Hpre', Hpre, app_assoc. split; [done|].
  intros q [?|?]%elem_of_app; [by eapply Hno|by eapply Hno'].
Qed.

(** the path after a query that was asked *)
Lemma asks_path sql rowLimit s s1 o s' :
  asks sql rowLimit s s1 o s' → path (ss_events s') = path (ss_events s1 ++ [PgQuery sql]).
Proof.
  intros (_ & _ & _ & _ & _ & (post & -> & [-> | ->]) & _); [done|].
  rewrite (cons_middle (PgQuery sql)), app_assoc. apply path_cancel.
Qed.

Lemma path_statement_sets s1 schema statements c :
  answer lib fuel (ss_events s1) (path_statement schema) 0 = Some (statements, c) →
  qr_success (mkQueryResult statements []) = true →
  path (ss_events s1 ++ [PgQuery (path_statement schema)]) = schema.
Proof. intros Ha Hok. apply path_set. by exists statements, c. Qed.

Lemma path_statement_refused s1 schema :
  match answer lib fuel (ss_events s1) (path_statement schema) 0 with
  | Some (statements, _) => qr_success (mkQueryResult statements []) = false
  | None => True
  end →
  path (ss_events s1 ++ [PgQuery (path_statement schema)]) = path (ss_events s1).
Proof.
  intros Hno. apply path_refused. intros (statements & c & Ha & Hok). rewrite Ha in Hno. congruence.
Qed.

Lemma tracked_open s : ss_conn s = true → path (ss_events s) = ss_searchPath s → tracked s.
Proof. intros Hc Hp. right. by rewrite Hc. Qed.

Lemma tracked_conn s :
  tracked s → ss_conn s = true →
  ss_searchPath s = UNKNOWN ∨ path (ss_events s) = ss_searchPath s.
Proof. intros [?|Ht] Hc; [by left|right]. by rewrite Hc in Ht. Qed.

(** a query that leaves the path alone leaves it known *)
Lemma tracked_asks sql rowLimit s s1 o s' :
  tracked s1 → asks sql rowLimit s s1 o s' →
  path (ss_events s1 ++ [PgQuery sql]) = path (ss_events s1) → tracked s'.
Proof.
  intros Ht Hask Hk. pose proof (asks_path _ _ _ _ _ _ Hask) as Hp.
  destruct Hask as (Hc & _ & _ & Hc' & Hs & _).
  destruct (tracked_conn s1 Ht Hc) as [?|?]; [left; congruence|right].
  rewrite Hc', Hp, Hk. congruence.
Qed.

(** the events of a query that was asked *)
Lemma asks_events sql rowLimit s s1 o s' :
  asks sql rowLimit s s1 o s' →
  ∃ es, ss_events s' = ss_events s ++ es ∧ ∀ q, PgQuery q ∈ es → q = sql.
Proof.
  intros (_ & _ & (pre & -> & Hno) & _ & _ & (post & -> & Hpost) & _).
  exists (pre ++ PgQuery sql :: post). rewrite app_assoc. split; [done|].
  intros q [Hq|[[= ->]|Hq]%elem_of_cons]%elem_of_app; [by destruct (Hno q)|done|].
  destruct Hpost as [-> | ->]; [by apply elem_of_nil in Hq|].
  by apply list_elem_of_singleton in Hq.
Qed.

(** the switch: nothing to do, done, or failed without touching the record *)
Lemma switch_spec schema s :
  tracked s → schema ≠ UNKNOWN →
  let '(o, s') := switch_path lib info dbName fuel schema s in
  tracked s' ∧
  (∃ es, ss_events s' = ss_events s ++ es ∧ ∀ q, PgQuery q ∈ es → q = path_statement schema) ∧
  (o = Hangs ∨ (∃ r, o = Done (Some r) ∧ qr_success r = false) ∨
   o = Done None ∧ ss_searchPath s' = schema ∧ (ss_conn s' = true ∨ schema = "")).
Proof.
  intros Ht Hu. unfold switch_path. rewrite pm_bind_eq. simpl.
  destruct (String.eqb_spec schema (ss_searchPath s)) as [->|Hne].
  { split; [done|]. split.
    - exists []. rewrite app_nil_r. split; [done|]. by intros q ?%elem_of_nil.
    - right; right. split_and!; [done..|]. destruct Ht as [?|Ht]; [done|].
      destruct (ss_conn s); [by left|by right]. }
  rewrite pm_bind_eq. pose proof (pg_run_spec (path_statement schema) 0 false s Ht) as H.
  destruct (run (path_statement schema) 0 false s) as [o s'].
  destruct H as [(-> & r & -> & Hr)|(s1 & Ht1 & Hask)].
  { rewrite Hr. split; [done|]. split.
    - exists []. rewrite app_nil_r. split; [done|]. by intros q ?%elem_of_nil.
    - right; left. by eexists. }
  pose proof (asks_events _ _ _ _ _ _ Hask) as Hes.
  pose proof (asks_path _ _ _ _ _ _ Hask) as Hpath.
  pose proof Hask as (_ & _ & _ & Hc' & _ & _ & Ho).
  pose proof (path_statement_refused s1 schema) as Hno.
  pose proof (path_statement_sets s1 schema) as Hyes.
  destruct (answer lib fuel (ss_events s1) (path_statement schema) 0) as [[st c]|] eqn:Ea; subst o.
  2: { split; [by eapply tracked_asks, Hno|]. split; [done|by left]. }
  destruct (qr_success (mkQueryResult st [])) eqn:Hok.
  - split; [|split; [done|right; right; split_and!; [done..|by left]]].
    apply tracked_open; [done|]. simpl. rewrite Hpath. by eapply Hyes.
  - split; [by eapply tracked_asks, Hno|]. split; [done|right; left; by eexists].
Qed.

(** what [executeIn] does to a session whose record is right *)
Lemma executeIn_spec schema sql rowLimit s :
  tracked s → schema ≠ UNKNOWN →
  let '(o, s') := executeIn schema sql rowLimit s in
  (o ≠ Hangs → may_move_path sql = true ∨ keeps sql → tracked s') ∧
  ((∃ pre post, ss_events s' = ss_events s ++ pre ++ PgQuery sql :: post ∧
      path (ss_events s ++ pre) = schema ∧
      (∀ q, PgQuery q ∈ pre → q = path_statement schema) ∧ (post = [] ∨ post = [PgCancel])) ∨
   (∃ es, ss_events s' = ss_events s ++ es ∧ (∀ q, PgQuery q ∈ es → q = path_statement schema) ∧
      ∀ r, o = Done r → qr_success r = false)).
Proof.
  intros Ht Hu. unfold Postgres.executeIn. rewrite pm_bind_eq.
  pose proof (switch_spec schema s Ht Hu) as H.
  destruct (switch_path lib info dbName fuel schema s) as [o1 s1].
  destruct H as (Ht1 & (es & Hes & Hq) & [-> | [(r & -> & Hr)|(-> & Hs1 & Hc1)]]).
  { split; [done|right]. exists es. by split_and!. }
  { split; [done|right]. exists es. split_and!; [done..|]. by intros ? [= <-]. }
  rewrite pm_bind_eq. pose proof (pg_run_spec sql rowLimit true s1 Ht1) as H.
  destruct (run sql rowLimit true s1) as [o2 s2].
  destruct H as [(-> & r & -> & Hr)|(s3 & Ht3 & Hask)].
  { rewrite Hr. simpl. split; [by left|right]. exists es. split_and!; [done..|]. by intros ? [= <-]. }
  assert (Hsent : ∃ pre post, ss_events s2 = ss_events s ++ pre ++ PgQuery sql :: post ∧
            path (ss_events s ++ pre) = schema ∧
            (∀ q, PgQuery q ∈ pre → q = path_statement schema) ∧ (post = [] ∨ post = [PgCancel])).
  { pose proof Hask as (Hc3 & Hp3 & (pre & Hpre & Hno) & _ & _ & (post & Hpost & Hcancel) & _).
    exists (es ++ pre), post. rewrite Hpost, Hpre, Hes, <-!app_assoc. split_and!; [done| | |done].
    - rewrite app_assoc, <-Hes, <-Hpre. destruct (tracked_conn s3 Ht3 Hc3) as [Hn|Hn]; [|rewrite Hn].
      + rewrite Hn in Hp3. destruct (ss_conn s1); [congruence|]. done.
      + rewrite Hp3. destruct Hc1 as [-> | ->]; [done|]. rewrite Hs1. by destruct (ss_conn s1).
    - intros q [?|?]%elem_of_app; [by apply Hq|by destruct (Hno q)]. }
  pose proof (tracked_asks sql rowLimit s1 s3 o2 s2 Ht3 Hask) as Hk.
  destruct Hask as (_ & _ & _ & _ & _ & _ & ->).
  destruct (answer lib fuel (ss_events s3) sql rowLimit) as [[st c]|] eqn:Ea; [|by split; [|left]].
  rewrite pm_bind_eq.
  destruct (negb (qr_success (mkQueryResult st [])) || may_move_path sql) eqn:Em; simpl.
  - split; [by left|by left].
  - split; [|by left]. intros _ [Hm|Hkeep].
    + apply orb_false_elim in Em as [_ ?]. congruence.
    + by apply Hk, path_keeps.
Qed.

(** ** Interleavings

    The operations of a database and of any number of handles of its schemas, in any order;
    the catalog's queries are [run] alone. *)

Inductive pg_step : Session → Session → Prop :=
  | pg_step_open s : pg_step s (snd (openSession lib info dbName s))
  | pg_step_execute schema sql rowLimit s r s' :
      schema ≠ UNKNOWN → may_move_path sql = true ∨ keeps sql →
      executeIn schema sql rowLimit s = (Done r, s') → pg_step s s'
  | pg_step_catalog sql rowLimit s o s' :
      keeps sql → run sql rowLimit false s = (o, s') → pg_step s s'.

Definition fresh_session : Session := mkSession [] false "".

Lemma pg_step_tracked s s' : tracked s → pg_step s s' → tracked s'.
Proof.
  intros Ht Hstep. revert Ht.
  destruct Hstep as [s|schema sql rowLimit s r s' Hu Hm E|sql rowLimit s o s' Hk E]; intros Ht.
  - unfold openSession. rewrite pm_bind_eq. pose proof (ensureConn_spec s Ht) as H.
    destruct (ensureConn lib info dbName s) as [o s'].
    by destruct H as [? [(e & -> & ->)|(-> & _)]].
  - pose proof (executeIn_spec schema sql rowLimit s Ht Hu) as H. rewrite E in H.
    destruct H as [H _]. by apply H.
  - pose proof (pg_run_spec sql rowLimit false s Ht) as H. rewrite E in H.
    destruct H as [(-> & _)|(s1 & Ht1 & Hask)]; [done|].
    eapply tracked_asks; [done..|]. by apply path_keeps.
Qed.

Lemma reachable_tracked s : rtc pg_step fresh_session s → tracked s.
Proof.
  intros Hrun. assert (H : tracked fresh_session) by by right.
  induction Hrun as [|x y z Hxy _ IH]; [done|]. apply IH. by eapply pg_step_tracked.
Qed.

(** A text may also move the path without the code noticing: it succeeds, names none of the
    words the code looks for, and is not one of those that keep the path.  [reached moved s]
    says how a session was reached, and whether such a text ran since the path was last recorded
    as unknown. *)
Inductive reached : bool → Session → Prop :=
  | reached_fresh : reached false fresh_session
  | reached_step moved s s' : reached moved s → pg_step s s' → reached moved s'
  | reached_any moved schema sql rowLimit s r s' :
      reached moved s → executeIn schema sql rowLimit s = (Done r, s') → reached true s'
  | reached_unknown moved s : reached moved s → ss_searchPath s = UNKNOWN → reached false s.

Lemma reached_tracked s : reached false s → tracked s.
Proof.
  intros H. remember false as moved eqn:E. induction H; simplify_eq.
  - by right.
  - eapply pg_step_tracked; eauto.
  - by left.
Qed.

(** The search path of a shared session.  Whatever operations of a database and of its
    schemas' handles have run, in any order, the recorded [search_path] is the server's,
    unless it is recorded as unknown or the session has not connected; provided that a batch
    that moves the path names one of the four words the code looks for. *)
Lemma search_path_invariant s :
  rtc pg_step fresh_session s →
  ss_conn s = true → ss_searchPath s ≠ UNKNOWN → path (ss_events s) = ss_searchPath s.
Proof. intros Ht%reachable_tracked Hc Hn. by destruct (tracked_conn s Ht Hc). Qed.

(** C33: Unqualified names resolve in the handle's schema.  After any operations in any order,
    [executeIn] either sends the text while the server is on the path asked for, with nothing
    but the switch to that path before it, or does not send the text and reports a failure;
    unless an earlier text moved the path unnoticed, that is succeeded without naming one of
    the words the code looks for (an [ABORT], the [COMMIT] of a failed transaction), and the path
    was not recorded as unknown since.  The text sent may itself be any. *)
Theorem executeIn_in_schema schema sql rowLimit s o s' :
  reached false s → schema ≠ UNKNOWN → executeIn schema sql rowLimit s = (o, s') →
  (∃ pre post, ss_events s' = ss_events s ++ pre ++ PgQuery sql :: post ∧
     path (ss_events s ++ pre) = schema ∧
     (∀ q, PgQuery q ∈ pre → q = path_statement schema) ∧ (post = [] ∨ post = [PgCancel])) ∨
  (∃ es, ss_events s' = ss_events s ++ es ∧ (∀ q, PgQuery q ∈ es → q = path_statement schema) ∧
     ∀ r, o = Done r → qr_success r = false).
Proof.
  intros Ht%reached_tracked Hu E. pose proof (executeIn_spec schema sql rowLimit s Ht Hu) as H.
  rewrite E in H. apply H.
Qed.
End path.

(** ** A failed transaction *)

Definition first_word (sql : string) : string :=
  let sql := lstrip isspace sql in smap tolower (stake (span_len isalpha sql) sql).

Definition ends_transaction (sql : string) : bool :=
  inWords ["rollback"; "commit"; "end"; "abort"] (first_word sql).

Section aborted.
Context (lib : Libpq) (info : ConnectionInfo) (dbName : string) (fuel : nat).

(** What the server documents of a transaction that failed, [aborted]: it ignores every
    command until the end of the transaction block. *)
Context (aborted : list pg_event → Prop).
Hypothesis aborted_refuses : ∀ events sql rowLimit,
  aborted events → ends_transaction sql = false →
  ∃ statements c, answer lib fuel events sql rowLimit = Some (statements, c) ∧
    qr_success (mkQueryResult statements []) = false.
Hypothesis aborted_stays : ∀ events sql,
  aborted events → ends_transaction sql = false → ∀ e, e = PgQuery sql ∨ e = PgCancel →
  aborted (events ++ [e]).

(** a failed transaction after which the path is not known *)
Definition lost (s : Session) : Prop :=
  ss_conn s = true ∧ ss_searchPath s = UNKNOWN ∧ aborted (ss_events s).

Lemma path_statement_in_transaction schema : ends_transaction (path_statement schema) = false.
Proof. unfold path_statement. by destruct (sempty schema). Qed.

(** A failed transaction cannot be left.  After a batch that fails inside a transaction
    the path is recorded as unknown, so every [executeIn] first sends a switch of path; the
    server refuses it, the text itself, be it a [ROLLBACK], is never sent, and the session
    stays as it is. *)
Lemma failed_transaction_stays schema sql rowLimit s :
  lost s → schema ≠ UNKNOWN →
  let '(o, s') := executeIn lib info dbName fuel schema sql rowLimit s in
  (∃ r, o = Done r ∧ qr_success r = false) ∧ lost s' ∧
  ∃ post, ss_events s' = ss_events s ++ PgQuery (path_statement schema) :: post ∧
    (post = [] ∨ post = [PgCancel]).
Proof.
  intros (Hc & Hs & Ha) Hu. set (sw := path_statement schema).
  assert (Hsw : ends_transaction sw = false) by apply path_statement_in_transaction.
  destruct (aborted_refuses (ss_events s) sw 0 Ha Hsw) as (st & c & Hst & Hno).
  unfold executeIn, switch_path. rewrite !pm_bind_eq. simpl. rewrite Hs.
  destruct (String.eqb_spec schema UNKNOWN); [done|]. rewrite pm_bind_eq.
  fold sw. rewrite run_eq. unfold ensureConn. rewrite Hc. simpl. unfold query. rewrite Hst.
  pose proof (aborted_stays _ _ Ha Hsw) as Hstay. rewrite Hno.
  split; [by eexists|]. split.
  - split; [done|]. split; [done|]. simpl. destruct c.
    + rewrite (cons_middle (PgQuery sw) _ [PgCancel]), app_assoc.
      apply (aborted_stays _ sw); auto.
    + auto.
  - exists (if c then [PgCancel] else []). split; [done|]. destruct c; auto.
Qed.
End aborted.

(** ** A concrete server

    It knows the path, and that a batch that fails after a [BEGIN] leaves a failed
    transaction. *)

(** the path a statement sets *)
Definition sets_path (sql : string) : option string :=
  if (sql =? "RESET search_path")%string then Some ""
  else if starts_with "SET search_path TO " sql
  then Some (undouble dquote (sdrop (S (strlen "SET search_path TO ")) sql)) else None.

Lemma sets_path_statement schema : sets_path (path_statement schema) = Some schema.
Proof.
  destruct schema as [|c schema]; [done|]. unfold path_statement, sets_path, quoteIdent.
  simpl. f_equal.
  exact (undouble_double dquote (String c schema)).
Qed.

Definition sample_refuses (aborted : bool) (sql : string) : bool :=
  (sql =? "BEGIN; oops")%string || aborted && negb (ends_transaction sql).

Definition sample_state_step (st : bool * string) (e : pg_event) : bool * string :=
  let '(aborted, path) := st in
  match e with
  | PgOpen _ => (false, "")
  | PgQuery sql =>
      if sample_refuses aborted sql then (true, path)
      else (if ends_transaction sql then false else aborted, default path (sets_path sql))
  | _ => st
  end.
Definition sample_state (events : list pg_event) : bool * string :=
  foldl sample_state_step (false, "") events.
Definition sample_path (events : list pg_event) : string := snd (sample_state events).
Definition sample_keeps (sql : string) : Prop := sets_path sql = None.

Lemma sample_state_snoc events e :
  sample_state (events ++ [e]) = sample_state_step (sample_state events) e.
Proof. unfold sample_state. by rewrite foldl_app. Qed.

Definition sample_server_reply (events : list pg_event) (sql : string) : reply :=
  if sample_refuses (fst (sample_state events)) sql then Failed "current transaction is aborted"
  else Command "".

Definition sample_pg : Libpq :=
  mkLibpq (λ _ _, None) (λ _, true) (λ _ _, None)
    (λ events sql _ got _, in_order (delivered (sample_server_reply events sql)) got None).

Lemma sample_answer_eq events sql rowLimit :
  ∃ statements, answer sample_pg 3 events sql rowLimit = Some (statements, false) ∧
    qr_success (mkQueryResult statements []) =
    negb (sample_refuses (fst (sample_state events)) sql).
Proof.
  unfold answer. cbn [sample_pg pq_send pq_next pq_idle]. unfold sample_server_reply.
  destruct (sample_refuses (fst (sample_state events)) sql); by eexists.
Qed.

Lemma sample_succeeds events sql :
  succeeds sample_pg 3 events sql ↔ sample_refuses (fst (sample_state events)) sql = false.
Proof.
  destruct (sample_answer_eq events sql 0) as (statements & Ha & Hs). split.
  - intros (statements' & c & Ha' & Hok). rewrite Ha in Ha'. simplify_eq. rewrite Hok in Hs.
    by destruct (sample_refuses _ _).
  - intros Hr. exists statements, false. rewrite Hs, Hr. done.
Qed.

#[export] Instance sample_path_server : PathServer sample_pg 3 sample_path sample_keeps.
Proof.
  split; intros; unfold sample_path in *; rewrite sample_state_snoc;
    destruct (sample_state events) as [aborted p] eqn:E; simpl; try done.
  - rewrite sample_succeeds, E in H. simpl in H. by rewrite H, sets_path_statement.
  - rewrite sample_succeeds, E in H. simpl in H. by destruct (sample_refuses _ _).
  - unfold sample_keeps in H. rewrite H. by destruct (sample_refuses _ _).
Qed.

Definition sample_info : ConnectionInfo :=
  mkConnectionInfo POSTGRESQL "db" "" "localhost" 5432 "app" "user" "" false Disable "" false.

Notation sample_execute := (executeIn sample_pg sample_info "app" 3).

(** a session after a statement in the schema [s] *)
Definition in_s : Session := snd (sample_execute "s" "SELECT 1" 10 fresh_session).

Lemma in_s_reachable : rtc (pg_step sample_pg sample_info "app" 3 sample_keeps) fresh_session in_s.
Proof.
  apply rtc_once. eapply (pg_step_execute _ _ _ _ _ "s" "SELECT 1" 10); [done|by right|].
  vm_compute. reflexivity.
Qed.

Lemma search_path_invariant_witness :
  ss_conn in_s = true ∧ ss_searchPath in_s = "s" ∧ sample_path (ss_events in_s) = ss_searchPath in_s.
Proof.
  split; [by vm_compute|]. split; [by vm_compute|].
  apply (search_path_invariant sample_pg sample_info "app" 3 sample_path sample_keeps);
    [apply in_s_reachable|by vm_compute|by vm_compute].
Defined.

(** an [ABORT] in between, and a [SET] by which the path is recorded as unknown *)
Definition recovered : Session :=
  snd (sample_execute "s" "SET search_path TO b" 10 (snd (sample_execute "s" "ABORT" 10 in_s))).

Notation sample_reached := (reached sample_pg sample_info "app" 3 sample_keeps).

Lemma sample_any moved schema sql s :
  sample_reached moved s →
  match fst (sample_execute schema sql 10 s) with Done _ => True | _ => False end →
  sample_reached true (snd (sample_execute schema sql 10 s)).
Proof.
  intros Hs Hd. destruct (sample_execute schema sql 10 s) as [[r|e|] s'] eqn:E; try done.
  by eapply reached_any.
Qed.

Lemma recovered_reached : sample_reached false recovered.
Proof.
  apply (reached_unknown _ _ _ _ _ true); [|vm_compute; reflexivity].
  eapply sample_any; [|by vm_compute]. eapply (sample_any false); [|by vm_compute].
  eapply reached_step; [apply reached_fresh|].
  eapply (pg_step_execute _ _ _ _ _ "s" "SELECT 1" 10); [done|by right|]. vm_compute. reflexivity.
Qed.

Lemma executeIn_in_schema_witness :
  let s' := snd (sample_execute "" "SELECT 2" 10 recovered) in
  ∃ pre post, ss_events s' = ss_events recovered ++ pre ++ PgQuery "SELECT 2" :: post ∧
    sample_path (ss_events recovered ++ pre) = "".
Proof.
  destruct (sample_execute "" "SELECT 2" 10 recovered) as [o s'] eqn:E.
  destruct (executeIn_in_schema sample_pg sample_info "app" 3 sample_path sample_keeps
              "" "SELECT 2" 10 recovered o s' recovered_reached ltac:(done) E)
    as [(pre & post & He & Hp & _)|(es & He & Hq & Hr)].
  - exists pre, post. split; assumption.
  - exfalso. vm_compute in E. injection E as <- <-. specialize (Hr _ eq_refl). by vm_compute in Hr.
Defined.

(** a session after a batch that failed in a transaction *)
Definition after_oops : Session := snd (sample_execute "" "BEGIN; oops" 0 in_s).

Definition sample_aborted (events : list pg_event) : Prop := fst (sample_state events) = true.

Lemma sample_aborted_refuses events sql rowLimit :
  sample_aborted events → ends_transaction sql = false →
  ∃ statements c, answer sample_pg 3 events sql rowLimit = Some (statements, c) ∧
    qr_success (mkQueryResult statements []) = false.
Proof.
  intros Ha He. destruct (sample_answer_eq events sql rowLimit) as (statements & Hs & Hok).
  exists statements, false. split; [done|]. rewrite Hok, Ha. unfold sample_refuses.
  by rewrite He, orb_true_r.
Qed.

Lemma sample_aborted_stays events sql :
  sample_aborted events → ends_transaction sql = false →
  ∀ e, e = PgQuery sql ∨ e = PgCancel → sample_aborted (events ++ [e]).
Proof.
  unfold sample_aborted. intros Ha He e Hor. rewrite sample_state_snoc.
  destruct (sample_state events) as [aborted p]. simpl in Ha. subst.
  destruct Hor as [-> | ->]; [|done]. simpl. unfold sample_refuses. by rewrite He, orb_true_r.
Qed.

Lemma failed_transaction_stays_witness :
  let '(o, s') := sample_execute "" "ROLLBACK" 0 after_oops in
  (∃ r, o = Done r ∧ qr_success r = false) ∧
  ∃ post, ss_events s' = ss_events after_oops ++ PgQuery "RESET search_path" :: post.
Proof.
  assert (Hl : lost sample_aborted after_oops) by (split; [|split]; vm_compute; reflexivity).
  pose proof (failed_transaction_stays sample_pg sample_info "app" 3 sample_aborted
                sample_aborted_refuses sample_aborted_stays "" "ROLLBACK" 0 after_oops Hl) as H.
  destruct (sample_execute "" "ROLLBACK" 0 after_oops) as [o s'].
  destruct H as (Hr & _ & post & Hp & _); [discriminate|]. split; [exact Hr|]. exists post. exact Hp.
Defined.
