(* ===== verification/PostgresCatalogProps.v ===== *)
(** * The PostgreSQL backend: properties of the catalog and the connection

    How catalog rows become tables and indexes, and what dropping a database does to the
    connection. *)

From S2P Require Import Prelude Types ConnectionInfo Lexer Database Effects Rows Postgres.
From S2P Require Import PostgresCatalog PostgresConnection PostgresPath.

(** ** Rows into tables *)

Definition incoming_rows (name : string) (names : list string) (fk_rows : list (list string))
    : list (list string) :=
  filter (λ row, 5 <= length row ∧ cell row 0 ∈ names ∧ cell row 2 = name) fk_rows.

Lemma elem_of_raw (mk : string → Table) names src :
  src ∈ map mk names ↔ ∃ n, src = mk n ∧ n ∈ names.
Proof. exact (list_elem_of_fmap mk names src). Qed.

Lemma elem_of_foreign_keys schema cols sizes fk_rows n k :
  k ∈ tbl_foreignKeys (assemble_table schema cols (group_rows 5 table_foreign_key fk_rows) sizes n) ↔
  ∃ row, row ∈ rows_of 5 n fk_rows ∧ k = table_foreign_key row.
Proof.
  simpl. rewrite group_rows_lookup. rewrite (list_elem_of_fmap table_foreign_key). naive_solver.
Qed.

(** C34: A schema's tables are what the catalog's rows say.  With distinct names there is one
    table per name, in order, with exactly its own column rows as columns and its own
    foreign-key rows as foreign keys, both in the order of the rows; its incoming keys are the
    keys of the schema's tables that target it, each renamed to the table it comes from. *)
Theorem assemble_tables_spec schema names column_rows fk_rows size_rows :
  NoDup names →
  let ts := assemble_tables schema names column_rows fk_rows size_rows in
  map tbl_name ts = names ∧
  ∀ t, t ∈ ts →
    tbl_schema t = schema ∧ tbl_fullName t = schema +:+ "." +:+ tbl_name t ∧
    tbl_columns t = map table_column (rows_of 7 (tbl_name t) column_rows) ∧
    tbl_foreignKeys t = map table_foreign_key (rows_of 5 (tbl_name t) fk_rows) ∧
    ∀ fk, fk ∈ tbl_incomingForeignKeys t ↔
      ∃ row, row ∈ incoming_rows (tbl_name t) names fk_rows ∧
        fk = mkForeignKey (cell row 4) (cell row 1) (cell row 0) (cell row 3) "" "".
Proof.
  intros Hnd. unfold assemble_tables.
  set (mk := assemble_table _ _ _ _). set (raw := map mk names).
  assert (Hraw : map tbl_name raw = names) by (unfold raw; rewrite map_map; apply map_id).
  rewrite populate_nodup by (by rewrite Hraw). cbn zeta.
  split; [rewrite map_map; exact Hraw|].
  intros t (t0 & -> & (name & -> & _)%elem_of_raw)%(list_elem_of_fmap _ raw).
  simpl. split_and!; [done|done|apply group_rows_lookup..|].
  intros fk. rewrite elem_of_mjoin_map. split.
  - intros (src & (n & -> & Hn)%elem_of_raw & Hfk).
    apply elem_of_incoming_to in Hfk as (k & Hk & Htarget & ->).
    apply elem_of_foreign_keys in Hk as (row & (Hlen & Hrow & Hin)%elem_of_rows_of & ->).
    exists row. split; [|by rewrite Hrow].
    apply list_elem_of_filter. by rewrite Hrow.
  - intros (row & ((Hlen & Hn & Htarget) & Hin)%list_elem_of_filter & ->).
    exists (mk (cell row 0)). split; [by apply elem_of_raw; eexists|].
    apply elem_of_incoming_to. exists (table_foreign_key row). split_and!; [|done|done].
    apply elem_of_foreign_keys. exists row. split; [|done]. by apply elem_of_rows_of.
Qed.

Definition sample_column_row (table column key : string) : list string :=
  [table; column; "integer"; "NO"; key; "false"; ""].

Lemma assemble_tables_spec_witness :
  let ts := assemble_tables "s" ["a"; "b"]
    [sample_column_row "a" "id" "true"; sample_column_row "b" "id" "true";
     sample_column_row "a" "b_id" "false"] [["a"; "b_id"; "b"; "id"; "fk"]] [["a"; "8192"]] in
  map tbl_name ts = ["a"; "b"] ∧
  ∀ t, t ∈ ts → tbl_columns t =
    map table_column (rows_of 7 (tbl_name t)
      [sample_column_row "a" "id" "true"; sample_column_row "b" "id" "true";
       sample_column_row "a" "b_id" "false"]).
Proof.
  intros ts. destruct (assemble_tables_spec "s" ["a"; "b"]
    [sample_column_row "a" "id" "true"; sample_column_row "b" "id" "true";
     sample_column_row "a" "b_id" "false"] [["a"; "b_id"; "b"; "id"; "fk"]] [["a"; "8192"]])
    as [Hn Ht].
  - apply NoDup_cons. split; [|apply NoDup_singleton]. intros H%list_elem_of_singleton. discriminate.
  - split; [exact Hn|]. intros t Hin. apply (Ht t Hin).
Defined.

(** ** Indexes *)

(** the columns recorded under a name *)
Definition columns_of (name : string) (indexes : list Index) : list string :=
  filter (λ i, idx_name i = name) indexes ≫= idx_columns.

Lemma add_index_column_names name unique column indexes :
  map idx_name (add_index_column name unique column indexes) =
  if inWords (map idx_name indexes) name then map idx_name indexes
  else map idx_name indexes ++ [name].
Proof.
  induction indexes as [|i rest IH]; [done|]. cbn [add_index_column].
  change (inWords (map idx_name (i :: rest)) name)
    with ((name =? idx_name i)%string || inWords (map idx_name rest) name).
  rewrite (String.eqb_sym name). destruct (String.eqb_spec (idx_name i) name) as [<-|]; [done|].
  simpl. rewrite IH. by destruct (inWords _ _).
Qed.

Lemma add_index_column_columns name unique column indexes key :
  NoDup (map idx_name indexes) →
  columns_of key (add_index_column name unique column indexes) =
  columns_of key indexes ++ (if (name =? key)%string then [column] else []).
Proof.
  unfold columns_of. induction indexes as [|i rest IH]; intros Hnd.
  - cbn [add_index_column]. rewrite filter_cons, filter_nil. simpl.
    destruct (String.eqb_spec name key); case_decide; done.
  - cbn [add_index_column map] in *. apply NoDup_cons in Hnd as [Hnotin Hnd].
    destruct (String.eqb_spec (idx_name i) name) as [<-|Hne].
    + rewrite !filter_cons. simpl.
      destruct (String.eqb_spec (idx_name i) key) as [Hk|]; case_decide; try done.
      * subst key. assert (E : filter (λ j, idx_name j = idx_name i) rest = []).
        { apply filter_none. intros j Hj He. apply Hnotin. rewrite <-He.
          by apply (list_elem_of_fmap_2 idx_name). }
        csimpl. rewrite E. simpl. by rewrite !app_nil_r.
      * by rewrite app_nil_r.
    + rewrite !filter_cons. case_decide; csimpl; rewrite IH by done; [by rewrite app_assoc|done].
Qed.

(** A described table's indexes are the groups of the catalog's rows: one per name, none
    twice, in the order in which the names first come; each with the columns of its own rows,
    all of them and in their order. *)
Lemma indexes_grouped rows :
  let indexes := foldl index_step [] rows in
  NoDup (map idx_name indexes) ∧
  (∀ name, name ∈ map idx_name indexes ↔ rows_of 3 name rows ≠ []) ∧
  ∀ i, i ∈ indexes → idx_columns i = map (λ row, cell row 1) (rows_of 3 (idx_name i) rows).
Proof.
  simpl. assert (H : NoDup (map idx_name (foldl index_step [] rows)) ∧
    ∀ name, columns_of name (foldl index_step [] rows) = map (λ row, cell row 1) (rows_of 3 name rows) ∧
      (name ∈ map idx_name (foldl index_step [] rows) ↔ rows_of 3 name rows ≠ [])).
  { induction rows as [|row rows [Hnd IH]] using rev_ind.
    { split; [apply NoDup_nil_2|]. intros name. split; [done|]. split; [by intros ?%elem_of_nil|done]. }
    rewrite foldl_app. simpl. set (indexes := foldl index_step [] rows) in *. unfold index_step.
    destruct (Nat.ltb_spec (length row) 3).
    { split; [done|]. intros name. rewrite rows_of_snoc, (proj2 (Nat.leb_gt _ _)) by done. simpl.
      rewrite app_nil_r. apply IH. }
    split.
    - rewrite add_index_column_names. destruct (inWords _ _) eqn:E; [done|].
      apply NoDup_app. split_and!; [done| |apply NoDup_singleton].
      intros x Hx ->%list_elem_of_singleton. apply inWords_elem in Hx. congruence.
    - intros name. rewrite add_index_column_columns, rows_of_snoc, (proj2 (Nat.leb_le _ _)) by done.
      rewrite add_index_column_names, map_app. simpl. destruct (IH name) as [-> Hn].
      destruct (String.eqb_spec (cell row 0) name) as [<-|Hne].
      + split; [done|]. split; [by destruct (rows_of _ _ _)|]. intros _.
        destruct (inWords _ _) eqn:E; [by apply inWords_elem|]. set_solver.
      + rewrite !app_nil_r. split; [done|]. rewrite <-Hn. destruct (inWords _ _); set_solver. }
  destruct H as [Hnd H]. split_and!; [done|intros name; apply H|].
  intros i Hi. destruct (H (idx_name i)) as [<- _]. revert Hi Hnd.
  generalize (foldl index_step [] rows) as indexes. clear.
  unfold columns_of. induction indexes as [|j indexes IH]; [by intros ?%elem_of_nil|].
  intros [->|Hi]%elem_of_cons Hnd; apply NoDup_cons in Hnd as [Hnotin Hnd]; rewrite filter_cons.
  - rewrite decide_True by done. csimpl. rewrite filter_none; [by rewrite app_nil_r|].
    intros k Hk He. apply Hnotin. rewrite <-He. by apply (list_elem_of_fmap_2 idx_name).
  - rewrite decide_False; [by apply IH|]. intros He. apply Hnotin. rewrite He.
    by apply (list_elem_of_fmap_2 idx_name).
Qed.

(** ** Dropping a database *)

Lemma on_default_state {A} (m : ConnectionInfo → string → PM A) c :
  let '(_, c') := on_default m c in pc_info c' = pc_info c ∧ pc_open c' = pc_open c.
Proof.
  unfold on_default, database, on_cached, mbind, Eff_bind. simpl.
  destruct (pc_cache c !! ci_database (pc_info c)) eqn:E; simpl; [rewrite E|rewrite lookup_insert_eq];
    destruct (on_database m _); done.
Qed.

Lemma drop_connected_spec lib fuel name info c :
  let '(o, c') := drop_connected lib fuel name info c in
  let via := maintenanceDatabase (ci_type info) in
  (c' = c ∧ o ≠ Done (true, "")) ∨
  (o = Done (true, "") ∧ pc_open c' = pc_open c ∧ ci_database (pc_info c') = via ∧
   is_Some (pc_cache c' !! via)).
Proof.
  unfold drop_connected. set (via := new_database _ _).
  destruct (on_database (openSession lib) via) as [[[ok err]|e|] d] eqn:E; [|by left..].
  destruct ok; [|by left].
  assert (Hd : pd_name d = maintenanceDatabase (ci_type info)).
  { unfold on_database in E. destruct (openSession _ _ _ _). by simplify_eq. }
  destruct (on_database (drop_via lib fuel name) d) as [[r|e|] d'] eqn:E'; [|by left..].
  assert (Hd' : pd_name d' = pd_name d).
  { unfold on_database in E'. destruct (drop_via _ _ _ _ _ _). by simplify_eq. }
  destruct (negb (qr_success r)); [by left|]. right. simpl. rewrite Hd', Hd.
  split_and!; [done..|]. by rewrite lookup_insert_eq.
Qed.

(** Dropping a database and the connection's default.  Whatever happens the connection
    stays as open as it was and the default database stays too, except when it was the one
    dropped: then, exactly on success, the maintenance database is the default and has a
    session. *)
Lemma dropDatabase_default lib fuel name c :
  let '(o, c') := dropDatabase lib fuel name c in
  let default c := ci_database (pc_info c) in
  let maintenance := maintenanceDatabase (ci_type (pc_info c)) in
  pc_open c' = pc_open c ∧
  ((default c' = default c ∧ (name = default c → o ≠ Done (true, ""))) ∨
   (name = default c ∧ o = Done (true, "") ∧ default c' = maintenance ∧
    is_Some (pc_cache c' !! maintenance))).
Proof.
  unfold dropDatabase, snapshot, cm_modify, mbind, Eff_bind. cbn [pc_info set_cache].
  destruct (String.eqb_spec name (ci_database (pc_info c))) as [->|Hne].
  - unfold database at 1. cbn [sempty pc_cache set_cache pc_info]. rewrite lookup_delete_eq.
    set (c1 := set_cache _ _). pose proof (drop_connected_spec lib fuel (ci_database (pc_info c))
                                             (pc_info c) c1) as H.
    destruct (drop_connected _ _ _ _ c1) as [o c'].
    destruct H as [[-> Hno]|(-> & Ho & Hd & Hc)].
    + split; [done|]. left. by split.
    + split; [exact Ho|]. right. by split_and!.
  - set (c1 := set_cache (delete name) c). pose proof (on_default_state (drop_via lib fuel name) c1) as H.
    destruct (on_default _ c1) as [[r|e|] c']; destruct H as [Hi Ho]; simpl; rewrite Hi, Ho;
      (split; [done|]; left; by split).
Qed.

(** a table described without a schema is looked for on the path of whichever handle ran
    last: nothing switches back to the default one, as [execute] does *)
Example describe_on_handle_path :
  let s' := snd (describeTable sample_pg sample_info "app" 3 "t" in_s) in
  sample_path (ss_events in_s) = "s" ∧
  ∃ rest, ss_events s' = ss_events in_s ++ PgQuery "SELECT current_schema()" :: rest.
Proof.
  split; [by vm_compute|]. exists [PgQuery (describe_columns_sql "public" "t")].
  vm_compute. reflexivity.
Qed.
