(* ===== verification/Mongo.v ===== *)
(** * The MongoDB backend

    [src/mongodb_connection.cpp] and [include/dearsql/backends/mongodb_connection.hpp]: the
    text of BSON values, the columns inferred from sampled documents, the dispatch of JSON
    commands ([execute]), reading documents, and [ConnectionImpl].

    Documents and the look-up of their fields are modelled; the conversion from and to JSON is
    the parameter [BsonLib], and the driver with the server behind it the parameter [Mongo],
    which answers a call from the calls so far, that call included.  An operation is a function
    of the calls made before to a value or an exception and the calls after it. *)

From S2P Require Import Prelude Types ConnectionInfo Doubles Calendar Database.

(** ** BSON *)

Inductive Bson :=
  | BDouble (x : double) | BString (s : string) | BDocument (fields : list (string * Bson))
  | BArray (items : list Bson) | BBinary (bytes : string) | BOid (hex : string) | BBool (b : bool)
  | BDate (millis : Z) | BNull | BInt32 (z : Z) | BInt64 (z : Z) | BDecimal128 (text : string)
  | BOther (type : Z) (bytes : string).    (* the remaining types *)

Notation Doc := (list (string * Bson)).

(** [doc\[key\]]: the first field of the name *)
Fixpoint field (doc : Doc) (key : string) : option Bson :=
  match doc with
  | [] => None
  | (k, v) :: doc => if (k =? key)%string then Some v else field doc key
  end.

(** what an exception is: the driver's, with its [what()], or the library's own [Error] *)
Inductive mongo_exn := DriverError (what : string) | LibraryError (what : string).

Definition what (e : mongo_exn) : string :=
  match e with DriverError w | LibraryError w => w end.

Record BsonLib := mkBsonLib {
  (** the error of text that is no document *)
  from_json : string → string + Doc;
  to_json : Doc → string;
  array_json : list Bson → string;
  (** the JSON of a value in a document of its own; nothing when that throws *)
  value_json : Bson → option string;
  (** [what()] of [get_document] and the like on an element of another type, or on none *)
  access_error : option Bson → string
}.

(** ** Calls of the driver *)

Inductive mongo_call :=
  | MPool (uri : string)
  | MAcquire
  | MListDatabases
  | MListCollections (db : string)
  | MFind (db coll : string) (filter : Doc) (sort : option Doc) (limit : Z) (skip : option Z)
  | MListIndexes (db coll : string)
  | MAggregate (db coll : string) (stages : list Doc)
  | MInsertOne (db coll : string) (doc : Doc)
  | MInsertMany (db coll : string) (docs : list Doc)
  | MUpdateMany (db coll : string) (filter update : Doc)
  | MDeleteMany (db coll : string) (filter : Doc)
  | MCreateCollection (db coll : string)
  | MDropCollection (db coll : string)
  | MRunCommand (db : string) (command : Doc)
  | MCountDocuments (db coll : string) (filter : Doc)
  | MDropDatabase (db : string).

(** a cursor: its documents, and what it throws after them, if anything *)
Notation Cursor := (list Doc * option string)%type.

Record Mongo := mkMongo {
  (** what a call throws, if anything *)
  mg_throws : list mongo_call → option string;
  mg_names : list mongo_call → list string;
  mg_cursor : list mongo_call → Cursor;
  (** the count of an acknowledged write *)
  mg_count : list mongo_call → option Z;
  mg_reply : list mongo_call → Doc
}.

(** ** Values as text *)

Section values.
Context (bson : BsonLib).

Definition quotient (a b : Z) : Z := Z.quot a b.   (* [/] on integers *)

Definition bsonElementToString (elem : option Bson) : string :=
  match elem with
  | None => ""
  | Some (BString s) => s
  | Some (BInt32 z) | Some (BInt64 z) => to_string z
  | Some (BDouble x) => double_to_string x
  | Some (BBool b) => if b then BOOL_TRUE_SENTINEL else BOOL_FALSE_SENTINEL
  | Some (BOid hex) => hex
  | Some (BDate millis) => date_time_text (gmtime (quotient millis 1000))
  | Some BNull => NULL_SENTINEL
  | Some (BDecimal128 text) => text
  | Some (BDocument fields) => to_json bson fields
  | Some (BArray items) => array_json bson items
  | Some v => match value_json bson v with Some json => json | None => "<unknown>" end
  end.

(** ** Columns from sampled documents *)

Definition bson_type_name (v : Bson) : string :=
  match v with
  | BDouble _ => "double" | BString _ => "string" | BDocument _ => "object" | BArray _ => "array"
  | BBinary _ => "binary" | BOid _ => "objectId" | BBool _ => "bool" | BDate _ => "date"
  | BNull => "null" | BInt32 _ => "int32" | BInt64 _ => "int64" | BDecimal128 _ => "decimal128"
  | BOther _ _ => "unknown"
  end.

Definition field_column (name : string) (v : Bson) : Column :=
  let id := (name =? "_id")%string in
  mkColumn name (bson_type_name v) "" "" id id false false.

(** the fields seen and the columns so far *)
Definition Sample : Type := gset string * list Column.

Definition sample_field (st : Sample) (elem : string * Bson) : Sample :=
  let '(seenFields, columns) := st in
  let '(fieldName, v) := elem in
  if bool_decide (fieldName ∈ seenFields) then st
  else ({[fieldName]} ∪ seenFields, columns ++ [field_column fieldName v]).

Definition sample_document (st : Sample) (doc : Doc) : Sample := foldl sample_field st doc.

(** the comparator given to the sort *)
Definition column_before (a b : Column) : bool :=
  if (col_name a =? "_id")%string then true
  else if (col_name b =? "_id")%string then false
  else String.ltb (col_name a) (col_name b).

(** the columns of a cursor; those of one that throws are not sorted *)
Definition sampled_columns (cursor : Cursor) : list Column :=
  let '(docs, error) := cursor in
  let columns := snd (foldl sample_document (∅, []) docs) in
  match error with
  | None => stable_sort column_before columns
  | Some _ => columns
  end.

(** ** Indexes *)

(** the index a document describes; nothing when its name is no text, which throws *)
Definition index_of_doc (doc : Doc) : option Index :=
  name ← match field doc "name" with
         | None => Some ""
         | Some (BString s) => Some s
         | Some _ => None
         end;
  let columns := match field doc "key" with Some (BDocument key) => map fst key | _ => [] end in
  let isUnique := match field doc "unique" with Some (BBool b) => b | _ => false end in
  let primary := (name =? "_id_")%string in
  Some (mkIndex name columns (primary || isUnique) primary "").

Fixpoint collect_indexes (docs : list Doc) : list Index :=
  match docs with
  | [] => []
  | doc :: docs =>
      match index_of_doc doc with
      | Some index => index :: collect_indexes docs
      | None => []
      end
  end.
End values.

(** ** Operations *)

Definition MgM (A : Type) : Type := list mongo_call → (mongo_exn + A) * list mongo_call.
#[export] Instance MgM_ret : MRet MgM := λ A x h, (inr x, h).
#[export] Instance MgM_bind : MBind MgM := λ A B f m h,
  match m h with
  | (inr x, h') => f x h'
  | (inl e, h') => (inl e, h')
  end.

Definition mg_raise {A} (e : mongo_exn) : MgM A := λ h, (inl e, h).
Definition mg_catch {A} (m : MgM A) (handler : mongo_exn → MgM A) : MgM A := λ h,
  match m h with
  | (inl e, h') => handler e h'
  | r => r
  end.

(** [catch (const std::exception& e) { throw Error(e.what()); }] *)
Definition rethrown {A} (m : MgM A) : MgM A := mg_catch m (λ e, mg_raise (LibraryError (what e))).

Section driver.
Context (mongo : Mongo) (bson : BsonLib).

(** a call and what it returns *)
Definition mg_call {A} (c : mongo_call) (answer : list mongo_call → A) : MgM A := λ h,
  let h := h ++ [c] in
  (match mg_throws mongo h with Some w => inl (DriverError w) | None => inr (answer h) end, h).

Definition mg_unit (c : mongo_call) : MgM unit := mg_call c (λ _, tt).
Definition acquire : MgM unit := mg_unit MAcquire.
Definition mg_open (c : mongo_call) : MgM Cursor := mg_call c (mg_cursor mongo).

(** the documents of a cursor that is read to its end *)
Definition mg_read (c : mongo_call) : MgM (list Doc) :=
  cursor ← mg_open c;
  match snd (cursor : Cursor) with
  | Some w => mg_raise (DriverError w)
  | None => mret (fst (cursor : Cursor))
  end.

Context (connName name : string).

Definition inferSchemaFromSample (collectionName : string) (sampleSize : Z) : MgM (list Column) :=
  mg_catch (cursor ← mg_open (MFind name collectionName [] None sampleSize None);
            mret (sampled_columns cursor)) (λ _, mret []).

Definition getCollectionIndexes (collectionName : string) : MgM (list Index) :=
  mg_catch (cursor ← mg_open (MListIndexes name collectionName);
            mret (collect_indexes (fst (cursor : Cursor)))) (λ _, mret []).

Definition collection_table (collName : string) (columns : list Column) (indexes : list Index) : Table :=
  mkTable collName "" "" "" (connName +:+ "." +:+ name +:+ "." +:+ collName) columns indexes [] []
    (-1)%Z.

Definition read_collection (collName : string) : MgM Table :=
  columns ← inferSchemaFromSample collName 100;
  indexes ← getCollectionIndexes collName;
  mret (collection_table collName columns indexes).

Definition tables : MgM (list Table) :=
  rethrown (
    acquire ;;
    names ← mg_call (MListCollections name) (mg_names mongo);
    mapM read_collection (filter (λ n, starts_with "system." n = false) names)).

Definition views : MgM (list Table) := mret [].

Definition describeTable (tableName : string) : MgM Table :=
  rethrown (acquire ;; read_collection tableName).
(** ** Commands *)

(** an operation that also fills a statement's result *)
Definition StM (A : Type) : Type :=
  StatementResult * list mongo_call → (mongo_exn + A) * (StatementResult * list mongo_call).
#[export] Instance StM_ret : MRet StM := λ A x st, (inr x, st).
#[export] Instance StM_bind : MBind StM := λ A B f m st,
  match m st with
  | (inr x, st') => f x st'
  | (inl e, st') => (inl e, st')
  end.

Definition lift {A} (m : MgM A) : StM A := λ '(s, h), let '(r, h') := m h in (r, (s, h')).
Definition fill (f : StatementResult → StatementResult) : StM unit := λ '(s, h), (inr tt, (f s, h)).
Definition raise {A} (e : mongo_exn) : StM A := λ st, (inl e, st).

Definition set_columns (names : list string) (s : StatementResult) : StatementResult :=
  mkStatementResult (sr_success s) (sr_errorMessage s) names (sr_tableData s) (sr_affectedRows s)
    (sr_message s).
Definition set_rows (rows : list (list string)) (s : StatementResult) : StatementResult :=
  mkStatementResult (sr_success s) (sr_errorMessage s) (sr_columnNames s) rows (sr_affectedRows s)
    (sr_message s).
Definition set_affected (n : Z) (s : StatementResult) : StatementResult :=
  mkStatementResult (sr_success s) (sr_errorMessage s) (sr_columnNames s) (sr_tableData s) n
    (sr_message s).
Definition set_message (m : string) (s : StatementResult) : StatementResult :=
  mkStatementResult (sr_success s) (sr_errorMessage s) (sr_columnNames s) (sr_tableData s)
    (sr_affectedRows s) m.
Definition set_failure (message : string) (s : StatementResult) : StatementResult :=
  mkStatementResult false message (sr_columnNames s) (sr_tableData s) (sr_affectedRows s)
    (sr_message s).

(** [get_document], [get_array]: they throw on anything else *)
Definition get_document (elem : option Bson) : StM Doc :=
  match elem with
  | Some (BDocument doc) => mret doc
  | elem => raise (DriverError (access_error bson elem))
  end.
Definition get_array (elem : option Bson) : StM (list Bson) :=
  match elem with
  | Some (BArray items) => mret items
  | elem => raise (DriverError (access_error bson elem))
  end.

Definition documents (n : Z) : string :=
  to_string n +:+ " document" +:+ (if (n =? 1)%Z then "" else "s").

(** the loop over a cursor: the rows of its documents, then what it throws *)
Definition cursor_rows (row : Doc → list string) (c : mongo_call) (columns : list string) : StM unit :=
  cursor ← lift (mg_open c);
  let '(docs, error) := cursor : Cursor in
  fill (set_columns columns) ;;
  fill (set_rows (map row docs)) ;;
  match error with
  | Some w => raise (DriverError w)
  | None => fill (set_message ("Returned " +:+ documents (Z.of_nat (length docs))))
  end.

Definition find_row (d : Doc) : list string :=
  [match field d "_id" with Some id => to_json bson [("_id", id)] | None => "" end; to_json bson d].

(** the one row of a command's reply *)
Definition reply_row (reply : Doc) : StM unit :=
  fill (set_columns ["result"]) ;;
  fill (set_rows [[to_json bson reply]]) ;;
  fill (set_message "Command executed successfully").

Definition text_or (otherwise : string) (elem : option Bson) : string :=
  match elem with Some (BString s) => s | _ => otherwise end.

(** the wrapper form *)
Definition wrapped_command (view : Doc) (command : string) (rowLimit : Z) : StM unit :=
  let dbName := text_or name (field view "database") in
  let collName := text_or "" (field view "collection") in
  let runs cmd := (command =? cmd)%string && negb (sempty collName) in
  let count c := lift (mg_call c (mg_count mongo)) in
  if runs "find" then
    filter ← (if decide (is_Some (field view "filter")) then get_document (field view "filter")
              else mret []);
    cursor_rows find_row (MFind dbName collName filter None rowLimit None) ["_id"; "document"]
  else if runs "aggregate" then
    items ← (if decide (is_Some (field view "pipeline")) then get_array (field view "pipeline")
             else mret []);
    stages ← mapM (λ stage, get_document (Some stage)) items;
    cursor_rows (λ d, [to_json bson d]) (MAggregate dbName collName stages) ["document"]
  else if runs "insert" then
    (if decide (is_Some (field view "document")) then
       doc ← get_document (field view "document");
       lift (mg_unit (MInsertOne dbName collName doc)) ;;
       fill (set_affected 1)
     else if decide (is_Some (field view "documents")) then
       items ← get_array (field view "documents");
       docs ← mapM (λ d, get_document (Some d)) items;
       n ← count (MInsertMany dbName collName docs);
       fill (set_affected (to_int (default 0%Z n)))
     else mret tt) ;;
    fill (set_message "Insert executed successfully")
  else if runs "update" then
    filter ← get_document (field view "filter");
    update ← get_document (field view "update");
    n ← count (MUpdateMany dbName collName filter update);
    let affected := to_int (default 0%Z n) in
    fill (set_affected affected) ;;
    fill (set_message ("Updated " +:+ documents affected))
  else if runs "delete" then
    filter ← get_document (field view "filter");
    n ← count (MDeleteMany dbName collName filter);
    let affected := to_int (default 0%Z n) in
    fill (set_affected affected) ;;
    fill (set_message ("Deleted " +:+ documents affected))
  else if runs "createCollection" then
    lift (mg_unit (MCreateCollection dbName collName)) ;;
    fill (set_message "Collection created successfully")
  else if runs "dropCollection" then
    lift (mg_unit (MDropCollection dbName collName)) ;;
    fill (set_message "Collection dropped successfully")
  else if (command =? "runCommand")%string then
    if decide (is_Some (field view "commandDoc")) then
      doc ← get_document (field view "commandDoc");
      reply ← lift (mg_call (MRunCommand dbName doc) (mg_reply mongo));
      reply_row reply
    else mret tt
  else fill (set_failure "Unknown command or missing collection name").

Definition run_document (view : Doc) (rowLimit : Z) : StM unit :=
  lift acquire ;;
  match field view "command" with
  | Some (BString command) => wrapped_command view command rowLimit
  | _ =>
      reply ← lift (mg_call (MRunCommand name view) (mg_reply mongo));
      reply_row reply
  end.

Definition execute (sql : string) (rowLimit : Z) : MgM QueryResult :=
  match from_json bson sql with
  | inl e => mret (one_failure ("Invalid JSON command: " +:+ e))
  | inr view => λ h,
      let '(r, (s, h')) := run_document view rowLimit (no_result, h) in
      let s := match r with inl e => set_failure (what e) s | inr _ => s end in
      (inr (mkQueryResult [s] []), h')
  end.

(** ** Documents as rows *)

(** text that is no document is no filter *)
Definition filter_of (whereClause : string) : Doc :=
  if sempty whereClause then []
  else match from_json bson whereClause with inr doc => doc | inl _ => [] end.

Definition sort_of (orderByClause : string) : option Doc :=
  if sempty orderByClause then None
  else match from_json bson orderByClause with inr doc => Some doc | inl _ => None end.

Definition getColumnNames (table : Table) : MgM (list string) :=
  match tbl_columns table with
  | [] =>
      rethrown (
        acquire ;;
        cols ← inferSchemaFromSample (tbl_name table) 100;
        mret (match cols : list Column with
              | [] => ["_id"; "document"]
              | cols => map col_name cols
              end))
  | columns => mret (map col_name columns)
  end.

Definition document_row (columnNames : list string) (doc : Doc) : list string :=
  map (λ colName, bsonElementToString bson (field doc colName)) columnNames.

Definition getTableData (table : Table) (limit offset : Z) (whereClause orderByClause : string)
    : MgM (list (list string)) :=
  rethrown (
    acquire ;;
    columnNames ← getColumnNames table;
    docs ← mg_read (MFind name (tbl_name table) (filter_of whereClause) (sort_of orderByClause)
                      limit (Some offset));
    mret (map (document_row columnNames) docs)).

Definition getRowCount (table : Table) (whereClause : string) : MgM Z :=
  acquire ;;
  n ← mg_call (MCountDocuments name (tbl_name table) (filter_of whereClause)) (mg_count mongo);
  mret (to_int (default 0%Z n)).

(** [catch (const std::exception& e) { return {false, e.what()}; }] *)
Definition reported_status (m : MgM unit) : MgM Status :=
  mg_catch (m ;; mret (true, "")) (λ e, mret (false, what e)).

Definition createTable (table : Table) : MgM Status :=
  reported_status (acquire ;; mg_unit (MCreateCollection name (tbl_name table))).

Definition dropTable (tableName : string) : MgM Status :=
  reported_status (acquire ;; mg_unit (MDropCollection name tableName)).
End driver.

(** ** The connection *)

(** [ConnectionImpl]: a pool is named by a number of its own, and a cached handle is its pool;
    the handle of a database reaches the server through it *)
Record MongoConnection := mkMongoConnection {
  mn_info : ConnectionInfo;
  mn_pool : option nat;
  mn_cache : gmap string nat;
  mn_open : bool;
  mn_pools : nat;                 (* pools made so far *)
  mn_calls : list mongo_call
}.

Definition default_port (ci : ConnectionInfo) : ConnectionInfo :=
  if (ci_port ci =? 0)%Z || (ci_port ci =? 5432)%Z then
    mkConnectionInfo (ci_type ci) (ci_name ci) (ci_path ci) (ci_host ci) 27017 (ci_database ci)
      (ci_username ci) (ci_password ci) (ci_showAllDatabases ci) (ci_sslmode ci)
      (ci_sslCACertPath ci) (ci_readOnly ci)
  else ci.

Definition new_connection (info : ConnectionInfo) : MongoConnection :=
  mkMongoConnection (default_port info) None ∅ false 0 [].

Definition set_pool (pool : option nat) (open : bool) (c : MongoConnection) : MongoConnection :=
  mkMongoConnection (mn_info c) pool (mn_cache c) open (mn_pools c) (mn_calls c).
Definition set_cache (f : gmap string nat → gmap string nat) (c : MongoConnection) : MongoConnection :=
  mkMongoConnection (mn_info c) (mn_pool c) (f (mn_cache c)) (mn_open c) (mn_pools c) (mn_calls c).

Section connection.
Context (mongo : Mongo).

(** calls of the driver, in a connection *)
Definition on_driver {A} (m : MgM A) (c : MongoConnection) : (mongo_exn + A) * MongoConnection :=
  let '(r, h) := m (mn_calls c) in
  (r, mkMongoConnection (mn_info c) (mn_pool c) (mn_cache c) (mn_open c) (mn_pools c) h).

Definition open_failed (e : mongo_exn) (c : MongoConnection) : Status * MongoConnection :=
  ((false, "MongoDB connection failed: " +:+ what e), set_pool None false c).

Definition open (c : MongoConnection) : Status * MongoConnection :=
  let uri := buildConnectionString (mn_info c) "" in
  match on_driver (mg_unit mongo (MPool uri)) c with
  | (inl e, c) => open_failed e c
  | (inr _, c) =>
      let c := mkMongoConnection (mn_info c) (Some (mn_pools c)) (mn_cache c) (mn_open c)
                 (S (mn_pools c)) (mn_calls c) in
      match on_driver (acquire mongo ;; mg_call mongo MListDatabases (mg_names mongo)) c with
      | (inl e, c) => open_failed e c
      | (inr _, c) => ((true, ""), set_pool (mn_pool c) true c)
      end
  end.

Definition close (c : MongoConnection) : MongoConnection := set_pool None false (set_cache (λ _, ∅) c).

Definition isOpen (c : MongoConnection) : bool := mn_open c.

(** the handle of a name, if connected: its database and its pool *)
Definition database (dbName : string) (c : MongoConnection) : option (string * nat) * MongoConnection :=
  let n := if sempty dbName then ci_database (mn_info c) else dbName in
  let n := if sempty n then "test" else n in
  match mn_pool c with
  | None => (None, c)
  | Some pool =>
      match mn_cache c !! n with
      | Some p => (Some (n, p), c)
      | None => (Some (n, pool), set_cache (insert n pool) c)
      end
  end.

(** the handles of the names, one after the other *)
Fixpoint handles (names : list string) (c : MongoConnection)
    : list (option (string * nat)) * MongoConnection :=
  match names with
  | [] => ([], c)
  | n :: names =>
      let '(h, c) := database n c in
      let '(hs, c) := handles names c in
      (h :: hs, c)
  end.

Definition databases (c : MongoConnection)
    : (mongo_exn + list (option (string * nat))) * MongoConnection :=
  match mn_pool c with
  | None => (inr [], c)
  | Some _ =>
      match on_driver (acquire mongo ;; mg_call mongo MListDatabases (mg_names mongo)) c with
      | (inl e, c) => (inl (LibraryError (what e)), c)
      | (inr names, c) => let '(hs, c) := handles names c in (inr hs, c)
      end
  end.

Definition dropDatabase (dbName : string) (c : MongoConnection) : Status * MongoConnection :=
  let c := set_cache (delete dbName) c in
  match mn_pool c with
  | None => ((false, "Not connected"), c)
  | Some _ =>
      match on_driver (acquire mongo ;; mg_unit mongo (MDropDatabase dbName)) c with
      | (inl e, c) => ((false, what e), c)
      | (inr _, c) => ((true, ""), c)
      end
  end.
End connection.
