(* ===== verification/MongoProps.v ===== *)
(** * The MongoDB backend: properties

    The columns inferred from documents, what a command sends, the text of dates, the pools
    that a connection's handles hold, and which exceptions come out. *)

From S2P Require Import Prelude Types ConnectionInfo Doubles Calendar Database Mongo.

(** ** Inferred columns *)

Definition sample_fields (fields : list (string * Bson)) : Sample :=
  foldl sample_field (∅, []) fields.

Lemma sample_documents docs st :
  foldl sample_document st docs = foldl sample_field st (mjoin docs).
Proof.
  revert st. induction docs as [|doc docs IH]; intros st; [done|].
  change (mjoin (doc :: docs)) with (doc ++ mjoin docs). by rewrite foldl_app, <-IH.
Qed.

Lemma field_app a b key :
  field (a ++ b) key = match field a key with Some v => Some v | None => field b key end.
Proof. induction a as [|[k v] a IH]; simpl; [done|]. by destruct (k =? key)%string. Qed.

(** each field seen has the column of its first value *)
Lemma sample_fields_spec fields :
  let '(seen, columns) := sample_fields fields in
  NoDup (map col_name columns) ∧
  (∀ n, n ∈ seen ↔ n ∈ map col_name columns) ∧
  ∀ c, c ∈ columns ↔ ∃ v, field fields (col_name c) = Some v ∧ c = field_column (col_name c) v.
Proof.
  unfold sample_fields. induction fields as [|[n v] fields IH] using rev_ind.
  { simpl. split_and!; [constructor|set_solver|]. intros c. split; [by intros ?%elem_of_nil|].
    by intros (v & ? & _). }
  rewrite foldl_app. simpl. destruct (foldl sample_field (∅, []) fields) as [seen columns].
  destruct IH as (Hnd & Hseen & Hcols). unfold sample_field at 1.
  assert (Hin : n ∈ map col_name columns ↔ ∃ w, field fields n = Some w).
  { change (map col_name columns) with (col_name <$> columns). rewrite list_elem_of_fmap. split.
    - intros (c & -> & (w & Hw & _)%Hcols). by exists w.
    - intros [w Hw]. exists (field_column n w). split; [done|]. apply Hcols. by exists w. }
  case_bool_decide as Hs.
  - split_and!; [done|done|]. intros c. rewrite Hcols, field_app.
    destruct (field fields (col_name c)) eqn:E; [done|]. simpl.
    destruct (String.eqb_spec n (col_name c)) as [->|]; [|done].
    apply Hseen, Hin in Hs as [w Hw]. congruence.
  - assert (Hnone : field fields n = None).
    { destruct (field fields n) as [w|] eqn:E; [|done]. exfalso. apply Hs, Hseen, Hin. by exists w. }
    rewrite map_app. simpl. split_and!.
    + apply NoDup_app. split_and!; [done| |apply NoDup_singleton].
      intros x Hx ->%list_elem_of_singleton. by apply Hs, Hseen.
    + intros x. rewrite elem_of_union, elem_of_singleton, elem_of_app, list_elem_of_singleton, Hseen.
      tauto.
    + intros c. rewrite elem_of_app, list_elem_of_singleton, Hcols, field_app. split.
      * intros [(w & Hw & Hc)| ->]; [by exists w; rewrite Hw|]. simpl. rewrite Hnone, String.eqb_refl.
        by exists v.
      * intros (w & Hw & Hc). destruct (field fields (col_name c)) as [u|] eqn:E.
        { simplify_eq. left. by exists w. }
        simpl in Hw. destruct (String.eqb_spec n (col_name c)) as [->|]; [|done].
        simplify_eq. by right.
Qed.

(** [_id] first, then by name *)
Definition id_last (c : Column) : Z := if (col_name c =? "_id")%string then 0%Z else 1%Z.
Definition column_compare : Column → Column → comparison :=
  lex (λ a b, (id_last a ?= id_last b)%Z) (λ a b, String.compare (col_name a) (col_name b)).

#[export] Instance column_comparator : Comparator column_compare.
Proof.
  apply lex_comparator; [exact (on_key_comparator id_last Z.compare _)|].
  exact (on_key_comparator col_name String.compare _).
Qed.

Lemma column_before_compare a b :
  col_name a ≠ col_name b → column_before a b = is_lt (column_compare a b).
Proof.
  intros Hne. unfold column_before, column_compare, lex, id_last.
  destruct (String.eqb_spec (col_name a) "_id") as [Ha|Ha], (String.eqb_spec (col_name b) "_id") as [Hb|Hb];
    simpl; [congruence|done|done|].
  unfold String.ltb. by destruct (String.compare (col_name a) (col_name b)).
Qed.

Lemma sinsert_ext {A} (lt1 lt2 : A → A → bool) x l :
  (∀ y, y ∈ l → lt1 y x = lt2 y x) → sinsert lt1 x l = sinsert lt2 x l.
Proof.
  induction l as [|y l IH]; intros H; [done|]. cbn [sinsert]. rewrite <-H by set_solver.
  destruct (lt1 y x); [|done]. f_equal. apply IH. set_solver.
Qed.

Notation sort_columns := (stable_sort (λ a b, is_lt (column_compare a b))).

(** the comparator is no order: it puts a column called [_id] before itself; but no two
    columns have one name *)
Lemma sort_distinct columns :
  NoDup (map col_name columns) → stable_sort column_before columns = sort_columns columns.
Proof.
  induction columns as [|c columns IH]; [done|]. intros Hnd. apply NoDup_cons in Hnd as [Hnotin Hnd].
  change (sinsert column_before c (stable_sort column_before columns) =
          sinsert (λ a b, is_lt (column_compare a b)) c (sort_columns columns)).
  rewrite <-IH by done. apply sinsert_ext. intros y Hy%elem_of_stable_sort.
  apply column_before_compare. intros He. apply Hnotin. rewrite <-He.
  by apply (list_elem_of_fmap_2 col_name).
Qed.

Definition shown_before (a b : Column) : Prop :=
  col_name b ≠ "_id" ∧ (col_name a = "_id" ∨ String.ltb (col_name a) (col_name b) = true).

Lemma not_after_shown a b :
  col_name a ≠ col_name b → not_after (λ a b, is_lt (column_compare a b)) a b → shown_before a b.
Proof.
  unfold not_after, shown_before. intros Hne. rewrite (three_way_opp a b).
  unfold column_compare, lex, id_last, String.ltb.
  destruct (String.eqb_spec (col_name a) "_id") as [Ha|Ha], (String.eqb_spec (col_name b) "_id") as [Hb|Hb];
    simpl; [congruence|auto|done|].
  destruct (String.compare (col_name a) (col_name b)) eqn:E; simpl; [|auto|done].
  by apply String.compare_eq_iff in E.
Qed.

Lemma sorted_shown columns :
  NoDup (map col_name columns) →
  StronglySorted (not_after (λ a b, is_lt (column_compare a b))) columns →
  StronglySorted shown_before columns.
Proof.
  intros Hnd Hs. induction Hs as [|c columns _ IH Hc]; [constructor|].
  apply NoDup_cons in Hnd as [Hnotin Hnd]. constructor; [by apply IH|].
  rewrite Forall_forall in Hc |- *. intros d Hd. apply not_after_shown; [|by apply Hc].
  intros He. apply Hnotin. rewrite He. by apply (list_elem_of_fmap_2 col_name).
Qed.

(** The columns shown for a MongoDB collection.  They are the top-level fields of the
    sampled documents, each once, with the type of the field's first value and [_id], and only
    it, as the key; [_id] comes first and the others in the order of their names. *)
Lemma mongo_columns docs :
  let columns := sampled_columns (docs, None) in
  NoDup (map col_name columns) ∧
  (∀ c, c ∈ columns ↔
     ∃ v, field (mjoin docs) (col_name c) = Some v ∧ c = field_column (col_name c) v) ∧
  StronglySorted shown_before columns.
Proof.
  cbn zeta. unfold sampled_columns. rewrite sample_documents.
  pose proof (sample_fields_spec (mjoin docs)) as H. unfold sample_fields in H.
  destruct (foldl sample_field (∅, []) (mjoin docs)) as [seen columns]. destruct H as (Hnd & _ & Hc).
  cbn [snd]. rewrite sort_distinct by done.
  assert (Hnd' : NoDup (map col_name (sort_columns columns))).
  { change (NoDup (col_name <$> sort_columns columns)). by rewrite stable_sort_perm. }
  split_and!; [done| |].
  - intros c. rewrite elem_of_stable_sort. apply Hc.
  - apply sorted_shown; [done|]. by apply stable_sort_sorted, comparator_order, column_comparator.
Qed.

Example mongo_columns_sample :
  map (λ c, (col_name c, col_type c))
    (sampled_columns ([[("_id", BOid "65"); ("b", BInt32 1); ("a", BNull)];
                       [("c", BString "x"); ("a", BInt64 2); ("_id", BInt32 3)]], None)) =
  [("_id", "objectId"); ("a", "null"); ("b", "int32"); ("c", "string")].
Proof. vm_compute. reflexivity. Qed.

(** ** What a command sends *)

Section commands.
Context (mongo : Mongo) (bson : BsonLib) (name : string).

Section view.
Context (view : Doc) (rowLimit : Z).

Definition command_is (command : string) : Prop := field view "command" = Some (BString command).
Definition database_of : string := text_or name (field view "database").
Definition collection_of : string := text_or "" (field view "collection").

(** a field that may be left out *)
Definition document_or_none (key : string) (doc : Doc) : Prop :=
  field view key = Some (BDocument doc) ∨ field view key = None ∧ doc = [].

(** a command on a collection, which has to be named *)
Definition on_collection (command : string) : Prop := command_is command ∧ collection_of ≠ "".

(** the call that a document asks for *)
Inductive carries : mongo_call → Prop :=
  | carries_native :
      (∀ command, ¬ command_is command) → carries (MRunCommand name view)
  | carries_find filter :
      on_collection "find" → document_or_none "filter" filter →
      carries (MFind database_of collection_of filter None rowLimit None)
  | carries_aggregate stages :
      on_collection "aggregate" →
      field view "pipeline" = Some (BArray (map BDocument stages)) ∨
        field view "pipeline" = None ∧ stages = [] →
      carries (MAggregate database_of collection_of stages)
  | carries_insert doc :
      on_collection "insert" → field view "document" = Some (BDocument doc) →
      carries (MInsertOne database_of collection_of doc)
  | carries_inserts docs :
      on_collection "insert" → field view "document" = None →
      field view "documents" = Some (BArray (map BDocument docs)) →
      carries (MInsertMany database_of collection_of docs)
  | carries_update filter update :
      on_collection "update" → field view "filter" = Some (BDocument filter) →
      field view "update" = Some (BDocument update) →
      carries (MUpdateMany database_of collection_of filter update)
  | carries_delete filter :
      on_collection "delete" → field view "filter" = Some (BDocument filter) →
      carries (MDeleteMany database_of collection_of filter)
  | carries_create :
      on_collection "createCollection" → carries (MCreateCollection database_of collection_of)
  | carries_drop :
      on_collection "dropCollection" → carries (MDropCollection database_of collection_of)
  | carries_run doc :
      command_is "runCommand" → field view "commandDoc" = Some (BDocument doc) →
      carries (MRunCommand database_of doc).

(** the commands that succeed without sending anything *)
Definition nothing_to_send : Prop :=
  (on_collection "insert" ∧ field view "document" = None ∧ field view "documents" = None) ∨
  (command_is "runCommand" ∧ field view "commandDoc" = None).

(** what fails of the last call: the call, or the cursor it opened, while it is read *)
Definition call_error (c : mongo_call) (h : list mongo_call) : option string :=
  match mg_throws mongo h, c with
  | Some w, _ => Some w
  | None, (MFind _ _ _ _ _ _ | MAggregate _ _ _) => snd (mg_cursor mongo h)
  | None, _ => None
  end.

(** the answer of the last call, as a result: each document with its id, each document, the
    count of a write, or the one reply *)
Definition shows (c : mongo_call) (h : list mongo_call) (s : StatementResult) : Prop :=
  match c with
  | MFind _ _ _ _ _ _ =>
      sr_columnNames s = ["_id"; "document"] ∧
      sr_tableData s = map (λ d, [match field d "_id" with
                                  | Some id => to_json bson [("_id", id)]
                                  | None => ""
                                  end; to_json bson d]) (fst (mg_cursor mongo h))
  | MAggregate _ _ _ =>
      sr_columnNames s = ["document"] ∧
      sr_tableData s = map (λ d, [to_json bson d]) (fst (mg_cursor mongo h))
  | MRunCommand _ _ =>
      sr_columnNames s = ["result"] ∧ sr_tableData s = [[to_json bson (mg_reply mongo h)]]
  | MInsertOne _ _ _ => sr_affectedRows s = 1%Z
  | MInsertMany _ _ _ | MUpdateMany _ _ _ _ | MDeleteMany _ _ _ =>
      sr_affectedRows s = to_int (default 0%Z (mg_count mongo h))
  | _ => sr_tableData s = []
  end.

(** what running a command did from the calls [h] on *)
Definition ran_from (h : list mongo_call) (out : (mongo_exn + unit) * (StatementResult * list mongo_call))
    : Prop :=
  let '(r, (s, h')) := out in
  (∃ c, carries c ∧ h' = h ++ [c] ∧
     match call_error c h' with
     | Some w => r = inl (DriverError w)
     | None => r = inr tt ∧ sr_success s = true ∧ shows c h' s
     end) ∨
  (∀ c, ¬ carries c) ∧ h' = h ∧ (r = inr tt ∧ sr_success s = true ↔ nothing_to_send).

(** the document asks for nothing, and there was something to ask for *)
Definition refused : Prop := (∀ c, ¬ carries c) ∧ ¬ nothing_to_send.

Lemma stm_bind {A B} (m : StM A) (f : A → StM B) st :
  (m ≫= f) st = match m st with (inr x, st') => f x st' | (inl e, st') => (inl e, st') end.
Proof. done. Qed.

Lemma document_cases elem :
  (∃ doc, elem = Some (BDocument doc) ∧ get_document bson elem = mret doc) ∨
  (∃ e, get_document bson elem = raise e) ∧ ∀ doc, elem ≠ Some (BDocument doc).
Proof. destruct elem as [[]|]; eauto. Qed.

Lemma array_cases elem :
  (∃ items, elem = Some (BArray items) ∧ get_array bson elem = mret items) ∨
  (∃ e, get_array bson elem = raise e) ∧ ∀ items, elem ≠ Some (BArray items).
Proof. destruct elem as [[]|]; eauto. Qed.

Lemma documents_cases items st :
  let docs := mapM (λ d, get_document bson (Some d)) items in
  (∃ ds, items = map BDocument ds ∧ docs st = (inr ds, st)) ∨
  (∃ e, docs st = (inl e, st)) ∧ ∀ ds, items ≠ map BDocument ds.
Proof.
  cbn zeta. induction items as [|item items IH]; [left; by exists []|].
  cbn [mapM]. rewrite stm_bind.
  destruct (document_cases (Some item)) as [(d & [= ->] & ->)|[[e ->] Hno]].
  2: { right. split; [by exists e|]. intros [|d ds] [= -> _]. by destruct (Hno d). }
  cbn [mret StM_ret]. rewrite stm_bind.
  destruct IH as [(ds & -> & IH)|[[e IH] Hno]]; rewrite IH.
  - left. by exists (d :: ds).
  - right. split; [by exists e|]. intros [|d' ds] [= _ E]. by destruct (Hno ds).
Qed.

Lemma ran_failed h s e : refused → ran_from h (inl e, (s, h)).
Proof. intros [Hc Hn]. right. split_and!; [done..|]. split; [by intros []|done]. Qed.

Lemma ran_call {A} h s c (answer : list mongo_call → A) (f : A → StM unit) :
  carries c →
  (let h' := h ++ [c] in
   mg_throws mongo h' = None →
   let '(r, (s', h'')) := f (answer h') (s, h') in
   h'' = h' ∧ match call_error c h' with
              | Some w => r = inl (DriverError w)
              | None => r = inr tt ∧ sr_success s' = true ∧ shows c h' s'
              end) →
  ran_from h ((lift (mg_call mongo c answer) ≫= f) (s, h)).
Proof.
  intros Hc Hf. cbn zeta in Hf. unfold mbind, StM_bind, lift, mg_call. cbn [fst snd].
  destruct (mg_throws mongo (h ++ [c])) as [w|] eqn:E.
  - left. exists c. split_and!; [done..|]. unfold call_error. by rewrite E.
  - specialize (Hf eq_refl). destruct (f (answer (h ++ [c])) (s, h ++ [c])) as [r [s' h'']].
    destruct Hf as [-> Hf]. left. by exists c.
Qed.

(** a call whose answer only fills the result *)
Lemma ran_fill {A} h s c (answer : list mongo_call → A) (f : A → StM unit) :
  carries c → match c with MFind _ _ _ _ _ _ | MAggregate _ _ _ => False | _ => True end →
  (let h' := h ++ [c] in ∃ s', f (answer h') (s, h') = (inr tt, (s', h')) ∧ sr_success s' = true ∧ shows c h' s') →
  ran_from h ((lift (mg_call mongo c answer) ≫= f) (s, h)).
Proof.
  intros Hc Hk (s' & Hf & Hs & Hsh). apply ran_call; [done|]. cbn zeta. intros E. rewrite Hf.
  split; [done|]. unfold call_error. rewrite E. by destruct c.
Qed.

Lemma ran_rows h s row c columns :
  carries c → sr_success s = true →
  match c with MFind _ _ _ _ _ _ | MAggregate _ _ _ => True | _ => False end →
  (∀ s' h, sr_columnNames s' = columns → sr_tableData s' = map row (fst (mg_cursor mongo h)) → shows c h s') →
  ran_from h (cursor_rows mongo row c columns (s, h)).
Proof.
  intros Hc Hs Hk Hsh. unfold cursor_rows, mg_open. apply ran_call; [done|]. cbn zeta. intros E.
  specialize (λ s', Hsh s' (h ++ [c])). unfold call_error. rewrite E.
  destruct (mg_cursor mongo (h ++ [c])) as [docs error] eqn:Ec. simpl in Hsh.
  destruct error as [w|]; simpl; (split; [done|]); destruct c; try done; (split_and!; [done|done|by apply Hsh]).
Qed.

Lemma ran_document h s key (f : Doc → StM unit) :
  (∀ doc, field view key = Some (BDocument doc) → ran_from h (f doc (s, h))) →
  ((∀ doc, field view key ≠ Some (BDocument doc)) → refused) →
  ran_from h ((get_document bson (field view key) ≫= f) (s, h)).
Proof.
  intros H Hno. destruct (document_cases (field view key)) as [(doc & E & ->)|[[e ->] Hn]];
    [by apply H|by apply ran_failed, Hno].
Qed.

Lemma ran_documents h s items (f : list Doc → StM unit) :
  (∀ docs, items = map BDocument docs → ran_from h (f docs (s, h))) →
  ((∀ docs, items ≠ map BDocument docs) → refused) →
  ran_from h ((mapM (λ d, get_document bson (Some d)) items ≫= f) (s, h)).
Proof.
  intros H Hno. rewrite stm_bind. destruct (documents_cases items (s, h)) as [(docs & E & ->)|[[e ->] Hn]];
    [by apply H|by apply ran_failed, Hno].
Qed.

Lemma ran_array h s key (f : list Bson → StM unit) :
  (∀ items, field view key = Some (BArray items) → ran_from h (f items (s, h))) →
  ((∀ items, field view key ≠ Some (BArray items)) → refused) →
  ran_from h ((get_array bson (field view key) ≫= f) (s, h)).
Proof.
  intros H Hno. destruct (array_cases (field view key)) as [(doc & E & ->)|[[e ->] Hn]];
    [by apply H|by apply ran_failed, Hno].
Qed.

(** a part of the command that may be left out *)
Lemma ran_if_given {A B} h s (elem : option B) (m : StM A) d (f : A → StM unit) :
  (elem = None → ran_from h (f d (s, h))) → (is_Some elem → ran_from h ((m ≫= f) (s, h))) →
  ran_from h (((if decide (is_Some elem) then m else mret d) ≫= f) (s, h)).
Proof. intros Hn Hs. destruct (decide (is_Some elem)) as [|E%eq_None_not_Some]; auto. Qed.

(** nothing of a command with this name is asked for *)
#[local] Ltac refuse :=
  split; [intros ? Hcarries; destruct Hcarries|intros Hnothing; unfold nothing_to_send in Hnothing];
  unfold on_collection, command_is, document_or_none in *; naive_solver.

(** a message does not change what was sent *)
Lemma ran_message h (m : StM unit) st message :
  ran_from h (m st) → ran_from h ((m ;; fill (set_message message)) st).
Proof.
  rewrite stm_bind. unfold ran_from. destruct (m st) as [[e|[]] [s h']]; [done|]. simpl.
  intros [(c & Hc & Hh & H)|H]; [left|by right]. exists c. split_and!; [done..|].
  destruct (call_error c h'); [done|]. destruct H as (_ & Hs & Hsh). split_and!; [done..|].
  by destruct c.
Qed.

Lemma ran_insert h s :
  on_collection "insert" → sr_success s = true →
  ran_from h ((if decide (is_Some (field view "document")) then
       doc ← get_document bson (field view "document");
       lift (mg_unit mongo (MInsertOne database_of collection_of doc)) ;;
       fill (set_affected 1)
     else if decide (is_Some (field view "documents")) then
       items ← get_array bson (field view "documents");
       docs ← mapM (λ d, get_document bson (Some d)) items;
       n ← lift (mg_call mongo (MInsertMany database_of collection_of docs) (mg_count mongo));
       fill (set_affected (to_int (default 0%Z n)))
     else mret tt) (s, h)).
Proof.
  intros Hc Hs. destruct (decide (is_Some (field view "document"))) as [[? Hd]|Ed%eq_None_not_Some].
  { apply ran_document; [|intros Hno; refuse]. intros doc E.
    apply ran_fill; [by constructor|done|]. by eexists. }
  destruct (decide (is_Some (field view "documents"))) as [[? Hd]|Em%eq_None_not_Some].
  - apply ran_array; [|intros Hno; refuse]. intros items E.
    apply ran_documents; [|intros Hno; refuse]. intros docs ->.
    apply ran_fill; [by constructor|done|]. by eexists.
  - right. split_and!; [|done|].
    + intros ? Hcarries; destruct Hcarries; unfold on_collection, command_is in *; naive_solver.
    + split; [|done]. intros _. by left.
Qed.

Lemma wrapped_command_ran command h s :
  command_is command → sr_success s = true → sr_tableData s = [] →
  ran_from h (wrapped_command mongo bson name view command rowLimit (s, h)).
Proof.
  intros Hc Hs Hd. unfold wrapped_command. fold database_of collection_of. cbv zeta beta.
  assert (Hruns : ∀ cmd : string, (command =? cmd)%string && negb (sempty collection_of) = true ↔ on_collection cmd).
  { intros cmd. unfold on_collection, command_is in *.
    rewrite andb_true_iff, String.eqb_eq, negb_true_iff, Hc. split.
    - intros [-> He]. split; [done|]. intros E. by rewrite E in He.
    - intros [[= ->] He]. split; [done|]. by destruct collection_of. }
  destruct (_ && _) eqn:E in |- *; [apply Hruns in E|].
  { apply ran_if_given; intros G; [apply ran_rows; [constructor; [done|by right]|done..]|].
    destruct G as [? G]. apply ran_document; [|intros Hno; refuse]. intros doc Ed.
    apply ran_rows; [constructor; [done|by left]|done..]. }
  assert (H1 : ¬ on_collection "find") by (rewrite <-Hruns; congruence). clear E.
  destruct (_ && _) eqn:E in |- *; [apply Hruns in E|].
  { apply ran_if_given; intros G.
    - rewrite stm_bind. apply ran_rows; [constructor; [done|by right]|done..].
    - destruct G as [? G]. apply ran_array; [|intros Hno; refuse]. intros items Ea.
      apply ran_documents; [|intros Hno; refuse]. intros docs ->.
      apply ran_rows; [constructor; [done|by left]|done..]. }
  assert (H2 : ¬ on_collection "aggregate") by (rewrite <-Hruns; congruence). clear E.
  destruct (_ && _) eqn:E in |- *; [apply Hruns in E; by apply ran_message, ran_insert|].
  assert (H3 : ¬ on_collection "insert") by (rewrite <-Hruns; congruence). clear E.
  destruct (_ && _) eqn:E in |- *; [apply Hruns in E|].
  { apply ran_document; [|intros Hno; refuse]. intros filter Ef.
    apply ran_document; [|intros Hno; refuse]. intros update Eu.
    apply ran_fill; [by constructor|done|]. by eexists. }
  assert (H4 : ¬ on_collection "update") by (rewrite <-Hruns; congruence). clear E.
  destruct (_ && _) eqn:E in |- *; [apply Hruns in E|].
  { apply ran_document; [|intros Hno; refuse]. intros filter Ef.
    apply ran_fill; [by constructor|done|]. by eexists. }
  assert (H5 : ¬ on_collection "delete") by (rewrite <-Hruns; congruence). clear E.
  destruct (_ && _) eqn:E in |- *; [apply Hruns in E; apply ran_fill; [by constructor|done|by eexists]|].
  assert (H6 : ¬ on_collection "createCollection") by (rewrite <-Hruns; congruence). clear E.
  destruct (_ && _) eqn:E in |- *; [apply Hruns in E; apply ran_fill; [by constructor|done|by eexists]|].
  assert (H7 : ¬ on_collection "dropCollection") by (rewrite <-Hruns; congruence). clear E.
  destruct (String.eqb_spec command "runCommand") as [->|Hr].
  2: { right. split_and!; [|done|split; [by intros []|]].
       - intros ? Hcarries; destruct Hcarries; unfold command_is in *; naive_solver.
       - intros [[? _]|[? _]]; [done|]. unfold command_is in *. congruence. }
  destruct (decide (is_Some (field view "commandDoc"))) as [[? Hg]|En%eq_None_not_Some].
  - apply ran_document; [|intros Hno; refuse]. intros doc Ed.
    apply ran_fill; [by constructor|done|]. by eexists.
  - right. split_and!; [|done|].
    + intros ? Hcarries; destruct Hcarries; unfold on_collection, command_is in *; naive_solver.
    + split; [|done]. intros _. by right.
Qed.

Lemma run_document_ran h s :
  sr_success s = true → sr_tableData s = [] → mg_throws mongo (h ++ [MAcquire]) = None →
  ran_from (h ++ [MAcquire]) (run_document mongo bson name view rowLimit (s, h)).
Proof.
  intros Hs Hd Ha. unfold run_document. rewrite stm_bind. unfold lift, acquire, mg_unit, mg_call.
  rewrite Ha. destruct (field view "command") as [v|] eqn:E.
  - destruct v; try by apply wrapped_command_ran.
    all: apply ran_fill; [constructor; unfold command_is; congruence|done|by eexists].
  - apply ran_fill; [constructor; unfold command_is; congruence|done|by eexists].
Qed.
End view.

(** a result that says what failed *)
Definition failed_with (w : string) (s : StatementResult) : Prop :=
  sr_success s = false ∧ sr_errorMessage s = w.

(** C31: What a MongoDB command does.  Text that is no JSON sends nothing and reports the
    parser's error.  Otherwise there is one result.  When no client can be acquired nothing is
    sent and the result says why.  A document that asks for a call, on the database and the
    collection it names and with the row limit for [find], has that one call sent: if the
    call fails, or its cursor while it is read, the result is a failure with the driver's
    text, and else a success that shows the answer: the documents found, the count of the
    write, or the reply.  A document that asks for no call sends nothing, and is a success
    exactly when there was nothing to send: an [insert] with no document, a [runCommand] with no
    command. *)
Theorem mongo_execute sql rowLimit h :
  match from_json bson sql with
  | inl e =>
      execute mongo bson name sql rowLimit h = (inr (one_failure ("Invalid JSON command: " +:+ e)), h)
  | inr view =>
      ∃ s h', execute mongo bson name sql rowLimit h = (inr (mkQueryResult [s] []), h') ∧
      match mg_throws mongo (h ++ [MAcquire]) with
      | Some w => h' = h ++ [MAcquire] ∧ failed_with w s
      | None =>
          (∃ c, carries view rowLimit c ∧ h' = h ++ [MAcquire; c] ∧
             match call_error c h' with
             | Some w => failed_with w s
             | None => sr_success s = true ∧ shows c h' s
             end) ∨
          (∀ c, ¬ carries view rowLimit c) ∧ h' = h ++ [MAcquire] ∧
            (sr_success s = true ↔ nothing_to_send view)
      end
  end.
Proof.
  unfold execute. destruct (from_json bson sql) as [e|view]; [done|].
  pose proof (run_document_ran view rowLimit h no_result eq_refl eq_refl) as H.
  destruct (mg_throws mongo (h ++ [MAcquire])) as [w|] eqn:E.
  { unfold run_document. rewrite stm_bind. unfold lift, acquire, mg_unit, mg_call. rewrite E.
    by eexists _, _. }
  specialize (H eq_refl). destruct (run_document mongo bson name view rowLimit (no_result, h)) as [r [s h']].
  exists (match r with inl e => set_failure (what e) s | inr _ => s end), h'. split; [done|].
  destruct H as [(c & Hc & -> & H)|(Hc & -> & H)]; [left; exists c|right].
  - rewrite <-app_assoc in H |- *. split_and!; [done..|].
    destruct (call_error _ _); [by subst r|]. by destruct H as [-> H].
  - split_and!; [done..|]. rewrite <-H. destruct r as [e|[]]; simpl; naive_solver.
Qed.
End commands.

(** a server with one command's documents *)
Definition quiet_mongo : Mongo :=
  mkMongo (λ _, None) (λ _, []) (λ _, ([[("_id", BInt32 7)]], None)) (λ _, Some 1%Z) (λ _, []).
Definition sample_find : Doc := [("command", BString "find"); ("collection", BString "c")].
Definition sample_insert : Doc := [("command", BString "insert"); ("collection", BString "c")].
Definition sample_bson : BsonLib :=
  mkBsonLib (λ text, if (text =? "{find}")%string then inr sample_find
                     else if (text =? "{insert}")%string then inr sample_insert else inl "expected {")
    (λ _, "{}") (λ _, "[]") (λ _, None) (λ _, "no document").

(** a [find] of at most 5 documents; an [insert] with nothing to insert succeeds *)
Example mongo_execute_find :
  execute quiet_mongo sample_bson "db" "{find}" 5 [] =
  (inr (mkQueryResult [mkStatementResult true "" ["_id"; "document"] [["{}"; "{}"]] 0
                         "Returned 1 document"] []),
   [MAcquire; MFind "db" "c" [] None 5 None]).
Proof. vm_compute. reflexivity. Qed.
Example mongo_execute_insert :
  execute quiet_mongo sample_bson "db" "{insert}" 5 [] =
  (inr (mkQueryResult [mkStatementResult true "" [] [] 0 "Insert executed successfully"] []), [MAcquire]).
Proof. vm_compute. reflexivity. Qed.

(** a [find] whose cursor fails after its first document *)
Definition broken_mongo : Mongo :=
  mkMongo (λ _, None) (λ _, []) (λ _, ([[("_id", BInt32 7)]], Some "CursorNotFound")) (λ _, None) (λ _, []).

Lemma mongo_execute_witness :
  ∃ s h', execute broken_mongo sample_bson "db" "{find}" 5 [] = (inr (mkQueryResult [s] []), h') ∧
    h' = [MAcquire; MFind "db" "c" [] None 5 None] ∧ failed_with "CursorNotFound" s.
Proof.
  destruct (mongo_execute broken_mongo sample_bson "db" "{find}" 5 []) as (s & h' & E & [H|(H & _)]).
  - exists s, h'. split; [exact E|]. destruct H as (c & Hc & -> & Hf).
    assert (c = MFind "db" "c" [] None 5 None) as ->; [|by split].
    destruct Hc as [Hn|filter _ Hf'|stages [Hk _]|doc [Hk _]|docs [Hk _]|f u [Hk _]|f [Hk _]|[Hk _]|[Hk _]|doc Hk];
      try discriminate Hk.
    + exfalso. by apply (Hn "find").
    + destruct Hf' as [Hf'|[_ ->]]; [discriminate Hf'|reflexivity].
  - exfalso. apply (H (MFind "db" "c" [] None 5 None)).
    apply (carries_find "db" sample_find 5 []); [split; [reflexivity|discriminate]|right; by split].
Defined.

(** ** Dates *)

Definition tm_valid (t : tm) : Prop :=
  (1 <= tm_mon t <= 12 ∧ 1 <= tm_mday t <= days_in_month (tm_year t) (tm_mon t) ∧
   0 <= tm_hour t < 24 ∧ 0 <= tm_min t < 60 ∧ 0 <= tm_sec t < 60)%Z.
Definition tm_seconds (t : tm) : Z :=
  (86400 * days_from_civil (tm_year t) (tm_mon t) (tm_mday t) +
   3600 * tm_hour t + 60 * tm_min t + tm_sec t)%Z.

Lemma gmtime_spec seconds : tm_valid (gmtime seconds) ∧ tm_seconds (gmtime seconds) = seconds.
Proof.
  unfold gmtime. pose proof (civil_from_days_spec (seconds / 86400)) as H.
  destruct (civil_from_days (seconds / 86400)) as [[y m] d]. destruct H as (Hm & Hd & Hdays).
  unfold tm_valid, tm_seconds. simpl. rewrite Hdays. Z.div_mod_to_equations. lia.
Qed.

(** The text of a BSON date.  It is that of a calendar date and a time of day that exist,
    and counting the days and seconds up to them gives the milliseconds without their fraction
    of a second: from 1970 on the second the date lies in, before 1970 the end of it. *)
Lemma mongo_date bson millis :
  ∃ t, bsonElementToString bson (Some (BDate millis)) = date_time_text t ∧ tm_valid t ∧
    (if (0 <=? millis)%Z then 0 <= millis - 1000 * tm_seconds t < 1000
     else -1000 < millis - 1000 * tm_seconds t <= 0)%Z.
Proof.
  exists (gmtime (quotient millis 1000)). destruct (gmtime_spec (quotient millis 1000)) as [Hv ->].
  split_and!; [done|done|]. unfold quotient. destruct (Z.leb_spec 0 millis); Z.quot_rem_to_equations; lia.
Qed.

(** ** The pools of a connection's handles *)

Section handles.
Context (mongo : Mongo).

(** an operation on a connection; [open] at any time, or only while not connected *)
Inductive mn_step (anytime : bool) : MongoConnection → MongoConnection → Prop :=
  | mn_open_step c : anytime = true ∨ isOpen c = false → mn_step anytime c (snd (open mongo c))
  | mn_close_step c : mn_step anytime c (close c)
  | mn_database_step c n : mn_step anytime c (snd (database n c))
  | mn_databases_step c : mn_step anytime c (snd (databases mongo c))
  | mn_drop_step c n : mn_step anytime c (snd (dropDatabase mongo n c)).

(** connected means a pool *)
Definition mn_sound (c : MongoConnection) : Prop := isOpen c = true ↔ is_Some (mn_pool c).
(** every handle kept has the pool of now *)
Definition mn_current (c : MongoConnection) : Prop := ∀ n p, mn_cache c !! n = Some p → mn_pool c = Some p.

(** the calls of the driver leave the rest alone *)
Lemma on_driver_same {A} (m : MgM A) c :
  ∃ calls, snd (on_driver m c) =
    mkMongoConnection (mn_info c) (mn_pool c) (mn_cache c) (mn_open c) (mn_pools c) calls.
Proof. unfold on_driver. destruct (m (mn_calls c)) as [r h]. by exists h. Qed.

Ltac driver_step :=
  match goal with
  | |- context [on_driver ?m ?c] =>
      let H := fresh in
      pose proof (on_driver_same m c) as H; destruct (on_driver m c) as [[]?]; destruct H as [? H];
      simpl in H; subst
  end.

Lemma database_same n c :
  let '(h, c') := database n c in
  isOpen c' = isOpen c ∧ mn_pool c' = mn_pool c ∧ (mn_current c → mn_current c') ∧
  (is_Some h ↔ is_Some (mn_pool c)) ∧
  (mn_current c → ∀ name p, h = Some (name, p) → mn_pool c = Some p).
Proof.
  unfold database. set (n' := if sempty _ then "test" else _).
  destruct (mn_pool c) as [pool|] eqn:Ep.
  - destruct (mn_cache c !! n') as [p|] eqn:Ec.
    + split_and!; [done|done|done|done|]. intros H name q [= <- <-]. by rewrite <-(H _ _ Ec).
    + split_and!; [done|done| |done|by intros _ name p [= <- <-]].
      intros H m p. simpl. rewrite lookup_insert_Some. intros [[<- <-]|[_ Hm]]; [done|].
      by apply H in Hm.
  - split_and!; [done|done|done|split; by intros []|done].
Qed.

Lemma handles_same names c :
  let c' := snd (handles names c) in
  isOpen c' = isOpen c ∧ mn_pool c' = mn_pool c ∧ (mn_current c → mn_current c').
Proof.
  revert c. induction names as [|n names IH]; intros c; [done|]. cbn [handles].
  pose proof (database_same n c) as H. destruct (database n c) as [h c1].
  destruct H as (Ho & Hp & Hc & _). specialize (IH c1). destruct (handles names c1) as [hs c2].
  destruct IH as (Ho2 & Hp2 & Hc2). simpl in *. split_and!; [congruence|congruence|auto].
Qed.

Definition mn_invariant (anytime : bool) (c : MongoConnection) : Prop :=
  mn_sound c ∧ (anytime = false → mn_current c).

Lemma open_invariant anytime c :
  anytime = true ∨ isOpen c = false → mn_invariant anytime c → mn_invariant anytime (snd (open mongo c)).
Proof.
  intros Hany [Hs Hc].
  assert (Hempty : anytime = false → ∀ n p, mn_cache c !! n ≠ Some p).
  { intros Ha n p Hn. apply (Hc Ha) in Hn. unfold mn_sound in Hs. rewrite Hn in Hs.
    assert (isOpen c = true) by (apply Hs; by eexists). destruct Hany; congruence. }
  unfold open. repeat (driver_step; simpl).
  all: split; [unfold mn_sound; simpl; split; (done || by intros [] || by eexists)|].
  all: intros Ha n p Hn; by destruct (Hempty Ha n p).
Qed.

Lemma mn_step_invariant anytime c c' :
  mn_step anytime c c' → mn_invariant anytime c → mn_invariant anytime c'.
Proof.
  intros [d Hany|d|d n|d|d n] H; [by apply open_invariant|..].
  - split; [unfold mn_sound; simpl; split; [done|by intros []]|]. intros _ n p. simpl.
    by rewrite lookup_empty.
  - destruct H as [Hs Hc]. pose proof (database_same n d) as H. destruct (database n d) as [h d'].
    destruct H as (Ho & Hp & Hcur & _). simpl. unfold mn_invariant, mn_sound. rewrite Ho, Hp. auto.
  - unfold databases. destruct (mn_pool d) eqn:Ep; [|done]. driver_step; [done|].
    match goal with |- context [handles ?l ?c1] =>
      pose proof (handles_same l c1) as Hh; destruct (handles l c1) as [hs d'] end.
    destruct H as [Hs Hc], Hh as (Ho & Hp & Hcur). unfold mn_invariant, mn_sound. simpl in *.
    rewrite Ho, Hp. split; [done|]. intros Ha. by apply Hcur, Hc.
  - assert (Hd : mn_invariant anytime (set_cache (delete n) d)).
    { destruct H as [Hs Hc]. split; [done|]. intros Ha m p. simpl. intros [_ Hm]%lookup_delete_Some.
      by apply (Hc Ha m p). }
    unfold dropDatabase. change (mn_pool (set_cache (delete n) d)) with (mn_pool d).
    destruct (mn_pool d) eqn:Ep; [|done]. by driver_step.
Qed.

(** The handles of a MongoDB connection, after any operations.  It is open exactly if it has
    a pool, and gives a handle exactly then; and where [open] is only called while not connected,
    the handle given has the pool of the connection: no handle outlives its pool in the cache. *)
Lemma mongo_handles info anytime c :
  rtc (mn_step anytime) (new_connection info) c →
  ∀ n, let '(h, c') := database n c in
  (isOpen c = true ↔ is_Some (mn_pool c)) ∧ (is_Some h ↔ isOpen c = true) ∧ isOpen c' = isOpen c ∧
  (anytime = false → ∀ name p, h = Some (name, p) → mn_pool c = Some p).
Proof.
  intros Hsteps n. assert (H : mn_invariant anytime c).
  { revert Hsteps. apply rtc_ind_r.
    - split; [unfold mn_sound; simpl; split; [done|by intros []]|]. intros _ m p. simpl.
      by rewrite lookup_empty.
    - intros x y _ Hxy Hx. by apply (mn_step_invariant _ x). }
  destruct H as [Hs Hc]. pose proof (database_same n c) as H. destruct (database n c) as [h c'].
  destruct H as (Ho & _ & _ & Hh & Hcur). unfold mn_sound in Hs. split_and!; [done|by rewrite Hs|done|].
  intros Ha. by apply Hcur, Hc.
Qed.
End handles.

Definition mongo_info : ConnectionInfo :=
  mkConnectionInfo MONGODB "m" "" "localhost" 0 "" "" "" false Disable "" false.

(** opened once; opened again while connected *)
Definition mongo_opened : MongoConnection :=
  snd (database "a" (snd (open quiet_mongo (new_connection mongo_info)))).
Definition mongo_reopened : MongoConnection := snd (open quiet_mongo mongo_opened).

Lemma mongo_handles_witness :
  (isOpen mongo_opened = true ↔ is_Some (mn_pool mongo_opened)) ∧
  fst (database "a" mongo_opened) = Some ("a", 0) ∧
  fst (database "a" mongo_reopened) = Some ("a", 0) ∧ mn_pool mongo_reopened = Some 1.
Proof.
  split; [|by vm_compute].
  refine (proj1 (mongo_handles quiet_mongo mongo_info false mongo_opened _ "a")).
  eapply rtc_l; [apply mn_open_step; by right|]. eapply rtc_l; [apply mn_database_step|]. constructor.
Defined.

(** ** Errors *)

Section errors.
Context (mongo : Mongo) (bson : BsonLib) (connName name : string).

Definition library_error {A} (r : (mongo_exn + A) * list mongo_call) : Prop :=
  ∀ e h', r = (inl e, h') → ∃ w, e = LibraryError w.

Lemma rethrown_error {A} (m : MgM A) h : library_error (rethrown m h).
Proof.
  intros e h'. unfold rethrown, mg_catch. destruct (m h) as [[e'|x] h'']; intros [= <- _]; by eexists.
Qed.

(** The errors of reading a MongoDB database.  The tables, a table's description, its column
    names and its rows fail with the library's [Error] only, whatever the driver throws; but the
    number of rows fails with the driver's own exception. *)
Lemma mongo_errors table tableName limit offset whereClause orderByClause h :
  library_error (tables mongo connName name h) ∧
  library_error (describeTable mongo connName name tableName h) ∧
  library_error (getColumnNames mongo name table h) ∧
  library_error (getTableData mongo bson name table limit offset whereClause orderByClause h) ∧
  ∀ e h', getRowCount mongo bson name table whereClause h = (inl e, h') →
    ∃ w, e = DriverError w ∧ mg_throws mongo h' = Some w.
Proof.
  split_and!; [apply rethrown_error|apply rethrown_error| |apply rethrown_error|].
  - unfold getColumnNames. destruct (tbl_columns table); [apply rethrown_error|by intros e h'].
  - intros e h'. unfold getRowCount, acquire, mg_unit, mg_call, mbind, MgM_bind.
    repeat case_match; intros; simplify_eq; by eexists.
Qed.
End errors.
