(* ===== verification/Mssql.v ===== *)
(** * The SQL Server backend: processes and results

    [src/mssql_connection.cpp]: the message handlers, connecting, the execution of a batch and
    its results, the administration of databases through [master], and a database handle.

    db-lib and the server behind it are the parameter [Dblib].  Each call of it, and each look
    at a handle's flag of cancellation, is an event; db-lib answers from all events so far, of
    all processes, the call included.  A call also delivers messages to the two handlers.  The
    interrupt hooks are part of what db-lib answers. *)

From S2P Require Import Prelude Types Effects ConnectionInfo Database.

(** ** Names and literals *)

Definition escapeLiteral (s : string) : string := double_char squote s.
Definition quoteIdent (id : string) : string := "[" +:+ double_char "]" id +:+ "]".
Definition objectLiteral (schema name : string) : string :=
  "'" +:+ escapeLiteral (quoteIdent schema +:+ "." +:+ quoteIdent name) +:+ "'".

(** ** db-lib *)

(** what a [LOGINREC] is given *)
Record MsLogin := mkMsLogin {
  ml_user : string;
  ml_password : string;
  ml_encryption : option string;
  ml_options : list (string * string)
}.

(** a [DBPROCESS] and a handle are numbers *)
Inductive ms_event :=
  | MsOpen (p : nat) (login : MsLogin) (server : string)    (* [dbopen] *)
  | MsUse (p : nat) (db : string)                           (* [dbuse] *)
  | MsSend (p : nat) (sql : string)                         (* [dbcmd], [dbsqlexec] *)
  | MsResults (p : nat)                                     (* [dbresults] *)
  | MsRow (p : nat)                                         (* [dbnextrow] *)
  | MsCancel (p : nat)                                      (* [dbcancel] *)
  | MsDead (p : nat)                                        (* [dbdead] *)
  | MsClose (p : nat)                                       (* [dbclose] *)
  | MsPoll (h : nat)                                        (* reading [cancelled_] *)
  | MsReset (h : nat).                                      (* [cancelled_ = false] *)

#[export] Instance MsLogin_eq_dec : EqDecision MsLogin.
Proof. solve_decision. Defined.
#[export] Instance ms_event_eq_dec : EqDecision ms_event.
Proof. solve_decision. Defined.

Inductive ms_message :=
  | DbError (dberrstr oserrstr : option string)
  | ServerMessage (msgno severity : Z) (text : option string).

Inductive ms_results := ResultSet | ResultFails | NoMoreResults.

(** the type and the bytes of a column; nothing for a null *)
Definition ms_value : Type := option (Z * string).
Inductive ms_row := Row (values : list ms_value) | RowFails | NoMoreRows.

Notation MsLog := (list ms_event).

Record Dblib := mkDblib {
  (** [dblogin] gives a record *)
  dl_login : bool;
  dl_option : string → string → bool;
  dl_opens : MsLog → bool;
  dl_uses : MsLog → bool;
  dl_sends : MsLog → bool;
  dl_results : MsLog → ms_results;
  dl_columns : MsLog → list string;
  dl_count : MsLog → Z;
  dl_row : MsLog → ms_row;
  dl_dead : MsLog → bool;
  dl_cancelled : MsLog → bool;
  dl_messages : MsLog → list ms_message;
  (** [dbconvert] to text; nothing when it fails *)
  dl_convert : Z → string → option string
}.

(** ** Messages *)

(** [tls_lastError] and [tls_infoMessages] *)
Definition Heard : Type := string * list string.

Definition dblibErrorHandler (dberrstr oserrstr : option string) : string :=
  let msg := default "" dberrstr in
  match oserrstr with
  | Some os =>
      if sempty os then msg else (if sempty msg then "" else msg +:+ "; ") +:+ os
  | None => msg
  end.

(** session noise: database context, language, charset changed *)
Definition session_noise (msgno : Z) : bool :=
  ((msgno =? 5701) || (msgno =? 5703) || (msgno =? 5704))%Z.

Definition dblibMessageHandler (msgno severity : Z) (text : option string) (heard : Heard) : Heard :=
  let '(lastError, infoMessages) := heard in
  match text with
  | None => heard
  | Some text =>
      if (10 <? severity)%Z then (text, infoMessages)
      else if negb (sempty text) && negb (session_noise msgno) then
        (lastError, infoMessages ++ [text])
      else heard
  end.

Definition handle_message (heard : Heard) (m : ms_message) : Heard :=
  match m with
  | DbError db os => (dblibErrorHandler db os, snd heard)
  | ServerMessage msgno severity text => dblibMessageHandler msgno severity text heard
  end.

(** ** The state *)

(** the events, the processes made so far, the [conn_] of each handle, what the handlers
    heard *)
Record MsWorld := mkMsWorld {
  mw_log : MsLog;
  mw_procs : nat;
  mw_conns : gmap nat nat;
  mw_heard : Heard
}.

Notation MsM := (Eff MsWorld).

Definition set_heard (f : Heard → Heard) : MsM unit := λ w,
  (Done tt, mkMsWorld (mw_log w) (mw_procs w) (mw_conns w) (f (mw_heard w))).
Definition clearLastError : MsM unit := set_heard (λ heard, ("", snd heard)).
Definition clearMessages : MsM unit := set_heard (λ heard, (fst heard, [])).
Definition getLastError : MsM string := λ w,
  (Done (if sempty (fst (mw_heard w)) then "Unknown error" else fst (mw_heard w)), w).
Definition heardMessages : MsM (list string) := λ w, (Done (snd (mw_heard w)), w).

Definition get_conn (h : nat) : MsM (option nat) := λ w, (Done (mw_conns w !! h), w).
Definition set_conn (h : nat) (p : option nat) : MsM unit := λ w,
  (Done tt, mkMsWorld (mw_log w) (mw_procs w) (partial_alter (λ _, p) h (mw_conns w)) (mw_heard w)).
Definition new_process : MsM nat := λ w,
  (Done (mw_procs w), mkMsWorld (mw_log w) (S (mw_procs w)) (mw_conns w) (mw_heard w)).

(** ** Values and results *)

Definition INT_MAX : Z := 2147483647.

Section library.
Context (lib : Dblib).

Definition call {A} (e : ms_event) (answer : MsLog → A) : MsM A := λ w,
  let log := mw_log w ++ [e] in
  (Done (answer log),
   mkMsWorld log (mw_procs w) (mw_conns w) (foldl handle_message (mw_heard w) (dl_messages lib log))).
Definition observe {A} (answer : MsLog → A) : MsM A := λ w, (Done (answer (mw_log w)), w).

Definition dbuse (p : nat) (db : string) : MsM bool := call (MsUse p (c_str db)) (dl_uses lib).
Definition dbsqlexec (p : nat) (sql : string) : MsM bool := call (MsSend p (c_str sql)) (dl_sends lib).
Definition dbresults (p : nat) : MsM ms_results := call (MsResults p) (dl_results lib).
Definition dbnextrow (p : nat) : MsM ms_row := call (MsRow p) (dl_row lib).
Definition dbdead (p : nat) : MsM bool := call (MsDead p) (dl_dead lib).
Definition dbcancel (p : nat) : MsM unit := call (MsCancel p) (λ _, tt).
Definition dbclose (p : nat) : MsM unit := call (MsClose p) (λ _, tt).
Definition cancelled (h : nat) : MsM bool := call (MsPoll h) (dl_cancelled lib).

(** converted text ends at its first null byte *)
Definition colToString (value : ms_value) : string :=
  match value with
  | None => NULL_SENTINEL
  | Some (type, data) => match dl_convert lib type data with Some text => c_str text | None => data end
  end.

Definition row_text (columns : list string) (values : list ms_value) : list string :=
  imap (λ i _, colToString (mjoin (values !! i))) columns.

Definition rows_message (kept : nat) (limited : bool) (rowLimit : Z) : string :=
  "Returned " +:+ pretty kept +:+ " row" +:+ (if kept =? 1 then "" else "s") +:+
  (if limited then " (limited to " +:+ to_string rowLimit +:+ ")" else "").

Definition rows_result (columns : list string) (rowLimit : Z) (rows : list (list string))
    (limited : bool) : StatementResult :=
  mkStatementResult true "" columns rows 0 (rows_message (length rows) limited rowLimit).

Definition count_result (affected : Z) : StatementResult :=
  if (0 <=? affected)%Z then
    mkStatementResult true "" [] [] affected (to_string affected +:+ " row(s) affected")
  else mkStatementResult true "" [] [] 0 "Query executed successfully".

(** the rows of a result set and whether some were left out *)
Fixpoint row_loop (fuel : nat) (h p : nat) (columns : list string) (rowLimit : Z)
    (rows : list (list string)) (limited : bool) : MsM (list (list string) * bool) :=
  match fuel with
  | 0 => hangs
  | S fuel =>
      stop ← cancelled h;
      if stop : bool then mret (rows, limited)
      else
        rowCode ← dbnextrow p;
        match rowCode with
        | NoMoreRows | RowFails => mret (rows, limited)
        | Row values =>
            if (rowLimit <=? Z.of_nat (length rows))%Z
            then row_loop fuel h p columns rowLimit rows true
            else row_loop fuel h p columns rowLimit (rows ++ [row_text columns values]) limited
        end
  end.

Context (fuel : nat).

Definition extractDbLibResult (h p : nat) (rowLimit : Z) : MsM StatementResult :=
  columns ← observe (dl_columns lib);
  match columns with
  | [] => affected ← observe (dl_count lib); mret (count_result affected)
  | _ =>
      r ← row_loop fuel h p columns rowLimit [] false;
      mret (rows_result columns rowLimit (fst r) (snd r))
  end.

Definition errorText (h : nat) : MsM string :=
  stop ← cancelled h;
  if stop : bool then mret "Query cancelled" else getLastError.

Definition cancel_unless_dead (p : nat) : MsM unit :=
  dead ← dbdead p;
  if dead : bool then mret tt else dbcancel p.

Fixpoint results_loop (n : nat) (h p : nat) (rowLimit : Z) (statements : list StatementResult)
    : MsM (list StatementResult) :=
  match n with
  | 0 => hangs
  | S n =>
      rc ← dbresults p;
      match rc with
      | NoMoreResults => mret statements
      | ResultFails => error ← errorText h; mret (statements ++ [failure error])
      | ResultSet =>
          r ← extractDbLibResult h p rowLimit;
          stop ← cancelled h;
          if stop : bool then
            cancel_unless_dead p ;;
            mret (statements ++ [failure "Query cancelled"])
          else results_loop n h p rowLimit (statements ++ [r])
      end
  end.

Definition executeQueryOnProcess (h p : nat) (query : string) (rowLimit : Z) : MsM QueryResult :=
  clearLastError ;;
  clearMessages ;;
  sent ← dbsqlexec p query;
  statements ← (if negb sent then
                  error ← errorText h;
                  cancel_unless_dead p ;;
                  mret [failure error]
                else results_loop fuel h p rowLimit []);
  messages ← heardMessages;
  clearMessages ;;
  mret (mkQueryResult statements messages).

(** ** Connecting *)

Definition ca_file (info : ConnectionInfo) : string :=
  if sempty (ci_sslCACertPath info) then "system" else c_str (ci_sslCACertPath info).

Definition login_of (info : ConnectionInfo) : MsLogin :=
  mkMsLogin (c_str (ci_username info)) (c_str (ci_password info))
    (match ci_sslmode info with
     | Require_ | VerifyCA => Some "require"
     | VerifyFull => Some "strict"
     | _ => None
     end)
    (match ci_sslmode info with
     | VerifyCA | VerifyFull => [("ca file", ca_file info); ("check certificate hostname", "yes")]
     | _ => []
     end).

Definition openDbLibConnection (info : ConnectionInfo) (dbName : string) : MsM nat :=
  let login := login_of info in
  if negb (dl_login lib) then throws "dblogin() failed"
  else if negb (forallb (λ o, dl_option lib (fst o) (snd o)) (ml_options login)) then
    throws "MSSQL: could not set the certificate checks"
  else
    clearLastError ;;
    p ← new_process;
    opened ← call (MsOpen p login (c_str (ci_host info +:+ ":" +:+ to_string (ci_port info))))
               (dl_opens lib);
    if negb opened then error ← getLastError; throws ("MSSQL connection failed: " +:+ error)
    else
      let targetDb := if sempty dbName then ci_database info else dbName in
      (if sempty targetDb then mret tt
       else
         clearLastError ;;
         used ← dbuse p targetDb;
         if used : bool then mret tt
         else
           error ← getLastError;
           dbclose p ;;
           throws ("MSSQL dbuse failed: " +:+ error)) ;;
      clearMessages ;;
      mret p.

(** ** Administration through [master] *)

Fixpoint drain_rows (n : nat) (p : nat) : MsM unit :=
  match n with
  | 0 => hangs
  | S n =>
      rowCode ← dbnextrow p;
      match rowCode with NoMoreRows => mret tt | _ => drain_rows n p end
  end.

Fixpoint drain (n : nat) (p : nat) : MsM unit :=
  match n with
  | 0 => hangs
  | S n =>
      rc ← dbresults p;
      match rc with NoMoreResults => mret tt | _ => drain_rows fuel p ;; drain n p end
  end.
Definition drainResults (p : nat) : MsM unit := drain fuel p.

(** the process is closed at the end of the block *)
Definition execOnMaster (info : ConnectionInfo) (sql : string) : MsM Status :=
  catch
    (p ← openDbLibConnection info "master";
     clearLastError ;;
     sent ← dbsqlexec p sql;
     status ← (if negb sent then error ← getLastError; mret (false, error)
               else drainResults p ;; clearMessages ;; mret (true, ""));
     dbclose p ;;
     mret status)
    (λ e, mret (false, e)).

(** ** A database handle *)

(** [MSSQLDatabase]: its constant members *)
Record MsDatabase := mkMsDatabase {
  mdb_handle : nat;
  mdb_info : ConnectionInfo;
  mdb_name : string
}.

Section database.
Context (db : MsDatabase).
Notation h := (mdb_handle db).

Definition reconnect : MsM nat :=
  p ← openDbLibConnection (mdb_info db) (mdb_name db);
  set_conn h (Some p) ;;
  mret p.

Definition ensureConn : MsM nat :=
  conn ← get_conn h;
  match conn with
  | None => reconnect
  | Some p =>
      dead ← dbdead p;
      if negb dead then mret p else dbclose p ;; set_conn h None ;; reconnect
  end.

Definition openHandle : MsM unit := ensureConn ;; mret tt.

Definition alive : MsM bool :=
  conn ← get_conn h;
  match conn with
  | None => mret true
  | Some p => dead ← dbdead p; mret (negb dead)
  end.

(** the destructor *)
Definition destroy : MsM unit :=
  conn ← get_conn h;
  match conn with
  | None => mret tt
  | Some p => dbclose p ;; set_conn h None
  end.

Definition row_limit (rowLimit : Z) : Z := if (0 <? rowLimit)%Z then rowLimit else INT_MAX.

Definition execute (sql : string) (rowLimit : Z) : MsM QueryResult :=
  result ← catch (p ← ensureConn; executeQueryOnProcess h p sql (row_limit rowLimit))
             (λ e, mret (one_failure e));
  call (MsReset h) (λ _, tt) ;;
  mret result.

(** the first result set of a catalog query *)
Definition rows (sql : string) : MsM (list (list string)) :=
  r ← execute sql 0;
  if negb (qr_success r) then
    throws (if sempty (qr_errorMessage r) then "query failed" else qr_errorMessage r)
  else mret (match qr_statements r with s :: _ => sr_tableData s | [] => [] end).
End database.
End library.
