(* ===== verification/MssqlCatalog.v ===== *)
(** * The SQL Server backend: the catalog

    [src/mssql_connection.cpp]: the catalog queries of a database, how their rows become
    tables, views and routines, and the handle of one schema.  The queries are the source's
    texts; [s] and [n] are escaped names, [obj] an [objectLiteral]. *)

From S2P Require Import Prelude Types Effects ConnectionInfo DdlUtils Database Rows Mssql.

(** ** The queries *)

Definition schema_names_sql : string :=
  "SELECT SCHEMA_NAME FROM INFORMATION_SCHEMA.SCHEMATA " +:+
  "WHERE CATALOG_NAME = DB_NAME() " +:+
  "AND SCHEMA_NAME NOT IN ('INFORMATION_SCHEMA', 'sys', " +:+
  "'db_owner', 'db_accessadmin', 'db_securityadmin', " +:+
  "'db_ddladmin', 'db_backupoperator', 'db_datareader', " +:+
  "'db_datawriter', 'db_denydatareader', 'db_denydatawriter') " +:+
  "ORDER BY SCHEMA_NAME".

Definition tables_sql (s : string) : string :=
  "SELECT TABLE_NAME FROM INFORMATION_SCHEMA.TABLES " +:+
  "WHERE TABLE_TYPE = 'BASE TABLE' " +:+
  "AND TABLE_CATALOG = DB_NAME() " +:+
  "AND TABLE_SCHEMA = '" +:+ s +:+ "' ORDER BY TABLE_NAME".

Definition columns_sql (s inNames : string) : string :=
  "SELECT TABLE_NAME, COLUMN_NAME, DATA_TYPE, IS_NULLABLE, " +:+
  "COLUMNPROPERTY(OBJECT_ID(QUOTENAME(TABLE_SCHEMA) + '.' + " +:+
  "QUOTENAME(TABLE_NAME)), COLUMN_NAME, 'IsIdentity'), " +:+
  "ISNULL(COLUMN_DEFAULT, '') " +:+
  "FROM INFORMATION_SCHEMA.COLUMNS " +:+
  "WHERE TABLE_CATALOG = DB_NAME() AND TABLE_SCHEMA = '" +:+ s +:+ "' " +:+
  "AND TABLE_NAME IN (" +:+ inNames +:+ ") ORDER BY TABLE_NAME, ORDINAL_POSITION".

Definition primary_keys_sql (s inNames : string) : string :=
  "SELECT tc.TABLE_NAME, c.COLUMN_NAME " +:+
  "FROM INFORMATION_SCHEMA.TABLE_CONSTRAINTS tc " +:+
  "JOIN INFORMATION_SCHEMA.KEY_COLUMN_USAGE c " +:+
  "ON c.CONSTRAINT_NAME = tc.CONSTRAINT_NAME " +:+
  "AND c.TABLE_SCHEMA = tc.TABLE_SCHEMA " +:+
  "WHERE tc.TABLE_SCHEMA = '" +:+ s +:+ "' AND tc.CONSTRAINT_TYPE = 'PRIMARY KEY' " +:+
  "AND tc.TABLE_NAME IN (" +:+ inNames +:+ ")".

Definition foreign_keys_sql (s : string) : string :=
  "SELECT OBJECT_NAME(fk.parent_object_id), fk.name, " +:+
  "COL_NAME(fkc.parent_object_id, fkc.parent_column_id), " +:+
  "OBJECT_NAME(fkc.referenced_object_id), " +:+
  "COL_NAME(fkc.referenced_object_id, fkc.referenced_column_id) " +:+
  "FROM sys.foreign_keys fk " +:+
  "JOIN sys.foreign_key_columns fkc " +:+
  "ON fk.object_id = fkc.constraint_object_id " +:+
  "WHERE OBJECT_SCHEMA_NAME(fk.parent_object_id) = '" +:+ s +:+ "'".

Definition indexes_sql (s : string) : string :=
  "SELECT OBJECT_NAME(i.object_id), i.name, i.is_unique, c.name " +:+
  "FROM sys.indexes i " +:+
  "JOIN sys.index_columns ic ON i.object_id = ic.object_id " +:+
  "AND i.index_id = ic.index_id " +:+
  "JOIN sys.columns c ON ic.object_id = c.object_id " +:+
  "AND ic.column_id = c.column_id " +:+
  "WHERE i.is_primary_key = 0 AND i.type > 0 " +:+
  "AND OBJECT_SCHEMA_NAME(i.object_id) = '" +:+ s +:+ "' " +:+
  "ORDER BY OBJECT_NAME(i.object_id), i.name, ic.key_ordinal".

Definition views_sql (s : string) : string :=
  "SELECT TABLE_NAME FROM INFORMATION_SCHEMA.VIEWS " +:+
  "WHERE TABLE_CATALOG = DB_NAME() " +:+
  "AND TABLE_SCHEMA = '" +:+ s +:+ "' ORDER BY TABLE_NAME".

Definition view_columns_sql (s inNames : string) : string :=
  "SELECT TABLE_NAME, COLUMN_NAME, DATA_TYPE, IS_NULLABLE " +:+
  "FROM INFORMATION_SCHEMA.COLUMNS " +:+
  "WHERE TABLE_CATALOG = DB_NAME() AND TABLE_SCHEMA = '" +:+ s +:+ "' " +:+
  "AND TABLE_NAME IN (" +:+ inNames +:+ ") ORDER BY TABLE_NAME, ORDINAL_POSITION".

Definition routines_sql (s : string) : string :=
  "SELECT o.name, " +:+
  "o.name + '(' + ISNULL(STUFF((SELECT ', ' + p.name + ' ' + " +:+
  "TYPE_NAME(p.user_type_id) FROM sys.parameters p " +:+
  "WHERE p.object_id = o.object_id AND p.parameter_id > 0 " +:+
  "ORDER BY p.parameter_id FOR XML PATH('')), 1, 2, ''), '') + ')', " +:+
  "CASE o.type WHEN 'P' THEN 'PROCEDURE' ELSE 'FUNCTION' END, " +:+
  "CASE WHEN o.type IN ('IF', 'TF') THEN 'TABLE' ELSE ISNULL((SELECT " +:+
  "TYPE_NAME(p.user_type_id) FROM sys.parameters p WHERE p.object_id = " +:+
  "o.object_id AND p.parameter_id = 0), '') END " +:+
  "FROM sys.objects o " +:+
  "WHERE o.schema_id = SCHEMA_ID('" +:+ s +:+ "') " +:+
  "AND o.type IN ('P', 'FN', 'IF', 'TF') " +:+
  "ORDER BY o.type, o.name".

Definition describe_columns_sql (s n obj : string) : string :=
  "SELECT COLUMN_NAME, DATA_TYPE + CASE " +:+
  "WHEN DATA_TYPE IN ('varchar', 'char', 'nvarchar', 'nchar', " +:+
  "'varbinary', 'binary') THEN '(' + CASE WHEN " +:+
  "CHARACTER_MAXIMUM_LENGTH = -1 THEN 'max' ELSE " +:+
  "CAST(CHARACTER_MAXIMUM_LENGTH AS varchar(10)) END + ')' " +:+
  "WHEN DATA_TYPE IN ('decimal', 'numeric') THEN '(' + " +:+
  "CAST(NUMERIC_PRECISION AS varchar(5)) + ',' + " +:+
  "CAST(NUMERIC_SCALE AS varchar(5)) + ')' " +:+
  "WHEN DATA_TYPE IN ('datetime2', 'time', 'datetimeoffset') " +:+
  "THEN '(' + CAST(DATETIME_PRECISION AS varchar(5)) + ')' " +:+
  "ELSE '' END, IS_NULLABLE, " +:+
  "ISNULL(COLUMN_DEFAULT, ''), " +:+
  "COLUMNPROPERTY(OBJECT_ID(" +:+ obj +:+ "), COLUMN_NAME, 'IsIdentity') " +:+
  "FROM INFORMATION_SCHEMA.COLUMNS " +:+
  "WHERE TABLE_CATALOG = DB_NAME() AND TABLE_SCHEMA = '" +:+ s +:+ "' " +:+
  "AND TABLE_NAME = '" +:+ n +:+ "' ORDER BY ORDINAL_POSITION".

Definition primary_key_sql (s n : string) : string :=
  "SELECT c.COLUMN_NAME FROM INFORMATION_SCHEMA.TABLE_CONSTRAINTS tc " +:+
  "JOIN INFORMATION_SCHEMA.KEY_COLUMN_USAGE c " +:+
  "ON c.CONSTRAINT_NAME = tc.CONSTRAINT_NAME " +:+
  "AND c.TABLE_SCHEMA = tc.TABLE_SCHEMA " +:+
  "WHERE tc.TABLE_SCHEMA = '" +:+ s +:+ "' AND tc.TABLE_NAME = '" +:+ n +:+ "' " +:+
  "AND tc.CONSTRAINT_TYPE = 'PRIMARY KEY'".

Definition describe_foreign_keys_sql (obj : string) : string :=
  "SELECT fk.name, " +:+
  "COL_NAME(fkc.parent_object_id, fkc.parent_column_id), " +:+
  "OBJECT_NAME(fkc.referenced_object_id), " +:+
  "COL_NAME(fkc.referenced_object_id, fkc.referenced_column_id) " +:+
  "FROM sys.foreign_keys fk " +:+
  "JOIN sys.foreign_key_columns fkc " +:+
  "ON fk.object_id = fkc.constraint_object_id " +:+
  "WHERE fk.parent_object_id = OBJECT_ID(" +:+ obj +:+ ")".

Definition describe_indexes_sql (obj : string) : string :=
  "SELECT i.name, i.is_unique, c.name " +:+
  "FROM sys.indexes i " +:+
  "JOIN sys.index_columns ic " +:+
  "ON i.object_id = ic.object_id " +:+
  "AND i.index_id = ic.index_id " +:+
  "JOIN sys.columns c " +:+
  "ON ic.object_id = c.object_id " +:+
  "AND ic.column_id = c.column_id " +:+
  "WHERE i.object_id = OBJECT_ID(" +:+ obj +:+ ") " +:+
  "AND i.is_primary_key = 0 AND i.type > 0 " +:+
  "ORDER BY i.name, ic.key_ordinal".

Definition inList (names : list string) : string :=
  sjoin ", " (map (λ name, "'" +:+ escapeLiteral name +:+ "'") names).

(** ** Rows into tables *)

(** a row of [columns_sql] *)
Definition table_column (row : list string) : Column :=
  mkColumn (cell row 1) (cell row 2) (cell row 5) "" false (equals "NO" (cell row 3)) false
    (equals "1" (cell row 4)).

Definition set_primary (name : string) (c : Column) : Column :=
  if (col_name c =? name)%string then
    mkColumn (col_name c) (col_type c) (col_defaultValue c) (col_comment c) true (col_isNotNull c)
      (col_isUnique c) (col_isAutoIncrement c)
  else c.

(** a row of [primary_keys_sql] *)
Definition mark_key (cols : gmap string (list Column)) (row : list string) : gmap string (list Column) :=
  if length row <? 2 then cols else alter (map (set_primary (cell row 1))) (cell row 0) cols.

(** a row of [foreign_keys_sql] *)
Definition table_foreign_key (row : list string) : ForeignKey :=
  mkForeignKey (cell row 1) (cell row 2) (cell row 3) (cell row 4) "" "".

(** one row per column of an index: it goes to the last index if that has the name *)
Fixpoint add_index_column (name : string) (unique : bool) (column : string) (indexes : list Index)
    : list Index :=
  match indexes with
  | [] => [mkIndex name [column] unique false ""]
  | [i] =>
      if (idx_name i =? name)%string
      then [mkIndex (idx_name i) (idx_columns i ++ [column]) (idx_isUnique i) (idx_isPrimary i)
              (idx_type i)]
      else [i; mkIndex name [column] unique false ""]
  | i :: rest => i :: add_index_column name unique column rest
  end.

(** a row of [indexes_sql] *)
Definition group_index (m : gmap string (list Index)) (row : list string) : gmap string (list Index) :=
  if length row <? 4 then m
  else <[cell row 0 := add_index_column (cell row 1) (equals "1" (cell row 2)) (cell row 3)
                         (default [] (m !! cell row 0))]> m.

Definition assemble_table (schema : string) (cols : gmap string (list Column))
    (fks : gmap string (list ForeignKey)) (indexes : gmap string (list Index)) (name : string) : Table :=
  mkTable name schema "" "" (schema +:+ "." +:+ name) (default [] (cols !! name))
    (default [] (indexes !! name)) (default [] (fks !! name)) [] (-1)%Z.

(** the names of one schema are distinct: nothing is moved from twice *)
Definition assemble_tables (schema : string) (names : list string)
    (column_rows key_rows fk_rows index_rows : list (list string)) : list Table :=
  let cols := foldl mark_key (group_rows 6 table_column column_rows) key_rows in
  populateIncomingForeignKeys
    (map (assemble_table schema cols (group_rows 5 table_foreign_key fk_rows)
            (foldl group_index ∅ index_rows)) names).

(** a row of [view_columns_sql] *)
Definition view_column (row : list string) : Column :=
  mkColumn (cell row 1) (cell row 2) "" "" false (equals "NO" (cell row 3)) false false.

(** a row of [routines_sql] *)
Definition routine_of_row (row : list string) : option Routine :=
  if length row <? 4 then None
  else Some (mkRoutine (cell row 0) (cell row 1)
               (if equals "PROCEDURE" (cell row 2) then RoutineProcedure else RoutineFunction)
               (cell row 3)).

(** [s.substr(0, s.find_last_not_of(' ') + 1)] *)
Fixpoint drop_padding (s : string) : string :=
  match s with
  | EmptyString => EmptyString
  | String c r =>
      let r := drop_padding r in
      if sempty r && (c =? " ")%char then EmptyString else String c r
  end.

(** a row of [describe_columns_sql] *)
Definition described_column (row : list string) : option Column :=
  if length row <? 5 then None
  else Some (mkColumn (cell row 0) (cell row 1) (drop_padding (cell row 3)) "" false
               (equals "NO" (cell row 2)) false (equals "1" (cell row 4))).

(** a row of [describe_foreign_keys_sql] *)
Definition described_foreign_key (row : list string) : option ForeignKey :=
  if length row <? 4 then None
  else Some (mkForeignKey (cell row 0) (cell row 1) (cell row 2) (cell row 3) "" "").

(** a row of [describe_indexes_sql] *)
Definition index_step (indexes : list Index) (row : list string) : list Index :=
  if length row <? 3 then indexes
  else add_index_column (cell row 0) (equals "1" (cell row 1)) (cell row 2) indexes.

(** ** The catalog of a database *)

Section database.
Context (lib : Dblib) (fuel : nat) (db : MsDatabase).
Notation rows := (rows lib fuel db).

Definition loadSchemaNames : MsM (list string) :=
  schema_rows ← rows schema_names_sql;
  mret (filter (λ n, isNullSentinel n = false) (first_cells schema_rows)).

Definition loadTablesForSchema (schema : string) : MsM (list Table) :=
  let s := escapeLiteral schema in
  name_rows ← rows (tables_sql s);
  match first_cells name_rows with
  | [] => mret []
  | tableNames =>
      let inNames := inList tableNames in
      column_rows ← rows (columns_sql s inNames);
      key_rows ← rows (primary_keys_sql s inNames);
      fk_rows ← rows (foreign_keys_sql s);
      index_rows ← rows (indexes_sql s);
      mret (assemble_tables schema tableNames column_rows key_rows fk_rows index_rows)
  end.

Definition loadViewsForSchema (schema : string) : MsM (list Table) :=
  let s := escapeLiteral schema in
  name_rows ← rows (views_sql s);
  match first_cells name_rows with
  | [] => mret []
  | viewNames =>
      column_rows ← rows (view_columns_sql s (inList viewNames));
      mret (map (assemble_table schema (group_rows 4 view_column column_rows) ∅ ∅) viewNames)
  end.

Definition loadRoutinesForSchema (schema : string) : MsM (list Routine) :=
  routine_rows ← rows (routines_sql (escapeLiteral schema));
  mret (omap routine_of_row routine_rows).

Definition describeTableInSchema (schema tableName : string) : MsM Table :=
  let s := escapeLiteral schema in
  let n := escapeLiteral tableName in
  let obj := objectLiteral schema tableName in
  column_rows ← rows (describe_columns_sql s n obj);
  key_rows ← rows (primary_key_sql s n);
  fk_rows ← rows (describe_foreign_keys_sql obj);
  index_rows ← rows (describe_indexes_sql obj);
  mret (mkTable tableName schema "" "" (schema +:+ "." +:+ tableName)
          (foldl (λ cols key, map (set_primary key) cols) (omap described_column column_rows)
             (first_cells key_rows))
          (foldl index_step [] index_rows) (omap described_foreign_key fk_rows) [] (-1)%Z).

Definition forEachSchema {A} (load : string → MsM (list A)) : MsM (list A) :=
  names ← loadSchemaNames;
  parts ← mapM load names;
  mret (mjoin parts).

Definition tables : MsM (list Table) := forEachSchema loadTablesForSchema.
Definition views : MsM (list Table) := forEachSchema loadViewsForSchema.
Definition routines : MsM (list Routine) := forEachSchema loadRoutinesForSchema.

(** the first cell of [SELECT SCHEMA_NAME()] *)
Definition default_schema (def : list (list string)) : string :=
  match def with (c :: _) :: _ => c | _ => "dbo" end.

Definition describeTable (tableName : string) : MsM Table :=
  match find_char "." tableName 0 with
  | Some dot => describeTableInSchema (substr tableName 0 dot) (sdrop (S dot) tableName)
  | None =>
      def ← rows "SELECT SCHEMA_NAME()";
      describeTableInSchema (default_schema def) tableName
  end.

(** ** The handle of a schema

    [MSSQLSchema]: it runs on its parent, with the loads of its name. *)

(** the handles are their names *)
Definition schemas : MsM (list string) := loadSchemaNames.

Definition drop_schema_sql (name : string) : string := "DROP SCHEMA " +:+ quoteIdent name.

Definition renameSchema (name newName : string) : MsM Status :=
  mret (false, "renameSchema not supported on MSSQL").

Definition dropSchema (name : string) : MsM Status :=
  r ← execute lib fuel db (drop_schema_sql name) 0;
  mret (toStatus r).
End database.
