(* ===== verification/MssqlConnection.v ===== *)
(** * The SQL Server backend: the connection

    [ConnectionImpl] of [src/mssql_connection.cpp]: a cache of one [MSSQLDatabase] per name,
    the default database, and the administration of databases.  A handle dies with its last
    owner ([destroy]): an operation that takes handles out of the cache is given which of them
    the callers hold. *)

From S2P Require Import Prelude Types Effects ConnectionInfo DdlUtils Database Rows Mssql.

(** [ConnectionImpl]: its mutable members, the handles made so far, and the state below *)
Record MsConnection := mkMsConnection {
  mx_info : ConnectionInfo;
  mx_open : bool;
  mx_cache : gmap string MsDatabase;
  mx_handles : nat;
  mx_world : MsWorld
}.

Notation MsC := (Eff MsConnection).

Definition set_database (name : string) (ci : ConnectionInfo) : ConnectionInfo :=
  mkConnectionInfo (ci_type ci) (ci_name ci) (ci_path ci) (ci_host ci) (ci_port ci) name
    (ci_username ci) (ci_password ci) (ci_showAllDatabases ci) (ci_sslmode ci)
    (ci_sslCACertPath ci) (ci_readOnly ci).

Definition new_world : MsWorld := mkMsWorld [] 0 ∅ ("", []).

(** the constructor *)
Definition new_connection (info : ConnectionInfo) : MsConnection :=
  mkMsConnection (if sempty (ci_database info) then set_database "master" info else info)
    false ∅ 0 new_world.

Definition get_info : MsC ConnectionInfo := λ c, (Done (mx_info c), c).
Definition set_info (info : ConnectionInfo) : MsC unit := λ c,
  (Done tt, mkMsConnection info (mx_open c) (mx_cache c) (mx_handles c) (mx_world c)).
Definition set_open (b : bool) : MsC unit := λ c,
  (Done tt, mkMsConnection (mx_info c) b (mx_cache c) (mx_handles c) (mx_world c)).
Definition set_cache (f : gmap string MsDatabase → gmap string MsDatabase) : MsC unit := λ c,
  (Done tt, mkMsConnection (mx_info c) (mx_open c) (f (mx_cache c)) (mx_handles c) (mx_world c)).
Definition get_cached (n : string) : MsC (option MsDatabase) := λ c, (Done (mx_cache c !! n), c).
(** in the order of the map *)
Definition get_all : MsC (list MsDatabase) := λ c, (Done (map snd (map_to_list (mx_cache c))), c).
Definition on_world {A} (m : MsM A) : MsC A := λ c,
  let '(r, w) := m (mx_world c) in
  (r, mkMsConnection (mx_info c) (mx_open c) (mx_cache c) (mx_handles c) w).

(** [std::make_shared<MSSQLDatabase>(info, n)] *)
Definition make_handle (n : string) : MsC MsDatabase := λ c,
  (Done (mkMsDatabase (mx_handles c) (mx_info c) n),
   mkMsConnection (mx_info c) (mx_open c) (mx_cache c) (S (mx_handles c)) (mx_world c)).

Definition or_default (name : string) (info : ConnectionInfo) : string :=
  if sempty name then ci_database info else name.

Section connection.
Context (lib : Dblib) (fuel : nat).

Definition database (name : string) : MsC MsDatabase :=
  info ← get_info;
  let n := or_default name info in
  cached ← get_cached n;
  match cached with
  | Some db => mret db
  | None => db ← make_handle n; set_cache (insert n db) ;; mret db
  end.

Definition openDatabase (name : string) : MsC MsDatabase :=
  info ← get_info;
  make_handle (or_default name info).

Definition open : MsC Status :=
  catch
    (db ← database "";
     on_world (openHandle lib db) ;;
     set_open true ;;
     mret (true, ""))
    (λ e, set_open false ;; mret (false, e)).

(** the cache's share of a handle goes away *)
Definition disown (held : nat → bool) (db : MsDatabase) : MsC unit :=
  if held (mdb_handle db) then mret tt else on_world (destroy lib db).

Definition close (held : nat → bool) : MsC unit :=
  dbs ← get_all;
  set_cache (λ _, ∅) ;;
  mapM (disown held) dbs ;;
  set_open false.

Definition isOpen : MsC bool := λ c, (Done (mx_open c), c).

Definition databases_sql : string :=
  "SELECT name FROM sys.databases WHERE database_id > 4 " +:+ "ORDER BY name".

Definition databases : MsC (list MsDatabase) :=
  db ← database "";
  name_rows ← on_world (rows lib fuel db databases_sql);
  mapM database (first_cells name_rows).

Definition forget (held : nat → bool) (name : string) : MsC unit :=
  cached ← get_cached name;
  set_cache (delete name) ;;
  match cached with
  | Some db => disown held db
  | None => mret tt
  end.

Definition exec_on_master (sql : string) : MsC Status :=
  info ← get_info;
  on_world (execOnMaster lib fuel info sql).

Definition create_sql (name : string) : string := "CREATE DATABASE " +:+ quoteIdent name.

Definition createDatabase (opts : CreateDatabaseOptions) : MsC Status :=
  if sempty (cd_name opts) then mret (false, "Database name cannot be empty")
  else exec_on_master (create_sql (cd_name opts)).

Definition drop_sql (name : string) : string :=
  "ALTER DATABASE " +:+ quoteIdent name +:+ " SET SINGLE_USER WITH ROLLBACK IMMEDIATE; " +:+
  "DROP DATABASE " +:+ quoteIdent name.

Definition dropDatabase (held : nat → bool) (name : string) : MsC Status :=
  if sempty name then mret (false, "Database name cannot be empty")
  else
    forget held name ;;
    status ← exec_on_master (drop_sql name);
    (if fst (status : Status) then
       info ← get_info;
       if (name =? ci_database info)%string then set_info (set_database "master" info) else mret tt
     else mret tt) ;;
    mret status.

Definition rename_sql (oldName newName : string) : string :=
  "ALTER DATABASE " +:+ quoteIdent oldName +:+ " MODIFY NAME = " +:+ quoteIdent newName.

Definition renameDatabase (held : nat → bool) (oldName newName : string) : MsC Status :=
  forget held oldName ;;
  exec_on_master (rename_sql oldName newName).
End connection.
