(* ===== verification/MssqlCatalogProps.v ===== *)
(** * The SQL Server backend: properties of the catalog

    How catalog rows become tables, keys and indexes, and the statements read back. *)

From S2P Require Import Prelude Types Effects ConnectionInfo SqlBuilder Lexer Keywords Quoting.
From S2P Require Import Database Rows Mssql MssqlCatalog MssqlConnection.

(** ** Primary keys *)

Definition keyed (keys : list string) (c : Column) : Column :=
  if inWords keys (col_name c) then
    mkColumn (col_name c) (col_type c) (col_defaultValue c) (col_comment c) true (col_isNotNull c)
      (col_isUnique c) (col_isAutoIncrement c)
  else c.

(** the columns that the key rows of a table name *)
Definition keys_of (name : string) (key_rows : list (list string)) : list string :=
  map (λ row, cell row 1) (rows_of 2 name key_rows).

Lemma set_primary_keyed keys name c : set_primary name (keyed keys c) = keyed (keys ++ [name]) c.
Proof.
  unfold set_primary, keyed, inWords. rewrite existsb_app. simpl. rewrite orb_false_r.
  destruct (existsb _ keys); simpl; by destruct (_ =? name)%string.
Qed.

Lemma mark_keys_lookup cols key_rows name :
  default [] (foldl mark_key cols key_rows !! name) =
  map (keyed (keys_of name key_rows)) (default [] (cols !! name)).
Proof.
  unfold keys_of. induction key_rows as [|row rows IH] using rev_ind; [simpl; by rewrite map_id|].
  rewrite foldl_app, rows_of_snoc, map_app. cbn [foldl]. unfold mark_key at 1.
  destruct (Nat.ltb_spec (length row) 2).
  { rewrite (proj2 (Nat.leb_gt _ _)) by done. simpl. by rewrite app_nil_r. }
  rewrite (proj2 (Nat.leb_le _ _)) by done. cbn [andb].
  destruct (String.eqb_spec (cell row 0) name) as [->|Hne].
  - rewrite lookup_alter_eq. simpl. destruct (foldl mark_key cols rows !! name) as [l|]; simpl in *.
    + rewrite IH, map_map. apply map_ext. intros c. apply set_primary_keyed.
    + destruct (default [] (cols !! name)); [done|]. discriminate.
  - rewrite lookup_alter_ne, app_nil_r by done. exact IH.
Qed.

(** ** Indexes *)

(** the indexes are the runs of equal names among the rows: nothing is lost, added or moved, no
    index is empty, and two in a row differ *)
Definition index_runs (indexes : list Index) (entries : list (string * string)) : Prop :=
  mjoin (map (λ i, map (pair (idx_name i)) (idx_columns i)) indexes) = entries ∧
  Forall (λ i, idx_columns i ≠ []) indexes ∧
  Sorted (λ i j, idx_name i ≠ idx_name j) indexes.

Lemma mjoin_cons {A} (x : list A) (l : list (list A)) : mjoin (x :: l) = x ++ mjoin l.
Proof. done. Qed.

Lemma add_index_column_head name unique column i rest :
  ∃ j rest', add_index_column name unique column (i :: rest) = j :: rest' ∧ idx_name j = idx_name i.
Proof.
  destruct rest as [|j rest]; cbn [add_index_column]; [|by eauto].
  destruct (_ =? _)%string; eauto.
Qed.

Lemma add_index_column_runs name unique column indexes entries :
  index_runs indexes entries →
  index_runs (add_index_column name unique column indexes) (entries ++ [(name, column)]).
Proof.
  intros [<- [Hne Hs]]. induction indexes as [|i rest IH].
  { split; [done|]. split; repeat constructor. done. }
  apply Forall_cons in Hne as [Hi Hne]. apply Sorted_inv in Hs as [Hs Hd].
  destruct rest as [|j rest].
  - cbn [add_index_column]. destruct (String.eqb_spec (idx_name i) name) as [<-|Hn].
    + split; [|split; repeat constructor; simpl; by destruct (idx_columns i)].
      csimpl. by rewrite !app_nil_r, map_app.
    + split; [csimpl; by rewrite !app_nil_r|]. split; repeat constructor; done.
  - destruct (IH Hne Hs) as [Hj [Hne' Hs']].
    change (add_index_column name unique column (i :: j :: rest))
      with (i :: add_index_column name unique column (j :: rest)).
    split; [|split].
    + rewrite (map_cons _ i), (map_cons _ i (j :: rest)), !mjoin_cons, Hj. by rewrite app_assoc.
    + by constructor.
    + constructor; [done|]. destruct (add_index_column_head name unique column j rest) as (k & l & -> & Hk).
      constructor. rewrite Hk. by inversion Hd.
Qed.

Lemma group_index_lookup rows name :
  index_runs (default [] (foldl group_index ∅ rows !! name))
    (map (λ row, (cell row 1, cell row 3)) (rows_of 4 name rows)).
Proof.
  induction rows as [|row rows IH] using rev_ind.
  { simpl. rewrite lookup_empty. split; [done|]. split; constructor. }
  rewrite foldl_app, rows_of_snoc, map_app. cbn [foldl]. unfold group_index at 1.
  destruct (Nat.ltb_spec (length row) 4).
  { rewrite (proj2 (Nat.leb_gt _ _)) by done. simpl. by rewrite app_nil_r. }
  rewrite (proj2 (Nat.leb_le _ _)) by done. cbn [andb].
  destruct (String.eqb_spec (cell row 0) name) as [->|Hne].
  - rewrite lookup_insert_eq. by apply add_index_column_runs.
  - rewrite lookup_insert_ne by done. simpl. by rewrite app_nil_r.
Qed.

(** ** Tables *)

Definition incoming_rows (name : string) (names : list string) (fk_rows : list (list string))
    : list (list string) :=
  filter (λ row, 5 <= length row ∧ cell row 0 ∈ names ∧ cell row 3 = name) fk_rows.

Lemma elem_of_incoming schema cols fk_rows indexes names name fk :
  fk ∈ mjoin (incoming_to name <$>
    map (assemble_table schema cols (group_rows 5 table_foreign_key fk_rows) indexes) names) ↔
  ∃ row, row ∈ incoming_rows name names fk_rows ∧
    fk = mkForeignKey (cell row 1) (cell row 2) (cell row 0) (cell row 4) "" "".
Proof.
  rewrite elem_of_mjoin_map. setoid_rewrite elem_of_incoming_to.
  unfold incoming_rows. setoid_rewrite list_elem_of_filter. split.
  - intros (src & (n & -> & Hn)%(list_elem_of_fmap (assemble_table _ _ _ _) names) & k & Hk & Ht & ->).
    simpl in Hk. rewrite group_rows_lookup in Hk.
    apply (list_elem_of_fmap table_foreign_key) in Hk as (row & -> & (Hl & <- & Hr)%elem_of_rows_of).
    by exists row.
  - intros (row & ((Hl & Hn & Ht) & Hr) & ->).
    exists (assemble_table schema cols (group_rows 5 table_foreign_key fk_rows) indexes (cell row 0)).
    split; [by apply (list_elem_of_fmap_2 (assemble_table _ _ _ _))|].
    exists (table_foreign_key row). split_and!; [|done|done]. simpl. rewrite group_rows_lookup.
    apply (list_elem_of_fmap_2 table_foreign_key). by apply elem_of_rows_of.
Qed.

(** A SQL Server schema's tables are what the catalog's rows say.  With distinct names there
    is one table per name, in order; its columns are its own column rows, in order, with those
    its key rows name as the primary key; its foreign keys are its own rows, its incoming keys
    those of the schema's tables that target its name; and its indexes are the runs of equal
    names among its own index rows, no column lost, added or moved. *)
Lemma mssql_tables_spec schema names column_rows key_rows fk_rows index_rows :
  NoDup names →
  let ts := assemble_tables schema names column_rows key_rows fk_rows index_rows in
  map tbl_name ts = names ∧
  ∀ t, t ∈ ts →
    let own {A} n (item : list string → A) rows := map item (rows_of n (tbl_name t) rows) in
    tbl_schema t = schema ∧ tbl_fullName t = schema +:+ "." +:+ tbl_name t ∧
    tbl_columns t = map (keyed (own 2 (λ row, cell row 1) key_rows)) (own 6 table_column column_rows) ∧
    tbl_foreignKeys t = own 5 table_foreign_key fk_rows ∧
    index_runs (tbl_indexes t) (own 4 (λ row, (cell row 1, cell row 3)) index_rows) ∧
    ∀ fk, fk ∈ tbl_incomingForeignKeys t ↔
      ∃ row, row ∈ incoming_rows (tbl_name t) names fk_rows ∧
        fk = mkForeignKey (cell row 1) (cell row 2) (cell row 0) (cell row 4) "" "".
Proof.
  intros Hnd. unfold assemble_tables.
  set (cols := foldl mark_key _ key_rows). set (idx := foldl group_index ∅ index_rows).
  set (mk := assemble_table schema cols (group_rows 5 table_foreign_key fk_rows) idx).
  assert (Hraw : map tbl_name (map mk names) = names) by (rewrite map_map; apply map_id).
  rewrite populate_nodup by (by rewrite Hraw). cbn zeta.
  split; [rewrite map_map; exact Hraw|].
  intros t (t0 & -> & (name & -> & _)%(list_elem_of_fmap mk names))%(list_elem_of_fmap _ (map mk names)).
  simpl. split_and!; [done|done| |apply group_rows_lookup|apply group_index_lookup|].
  - unfold cols. rewrite mark_keys_lookup. by rewrite group_rows_lookup.
  - intros fk. apply elem_of_incoming.
Qed.

Lemma mssql_tables_spec_witness :
  let ts := assemble_tables "dbo" ["a"; "b"]
    [["a"; "id"; "int"; "NO"; "1"; ""]; ["b"; "id"; "int"; "NO"; "1"; ""]] [["a"; "id"]]
    [["a"; "fk"; "id"; "b"; "id"]] [["a"; "ix"; "1"; "id"]; ["a"; "ix"; "1"; "x"]] in
  map tbl_name ts = ["a"; "b"] ∧ map tbl_indexes ts = [[mkIndex "ix" ["id"; "x"] true false ""]; []].
Proof.
  split; [|vm_compute; reflexivity].
  refine (proj1 (mssql_tables_spec "dbo" ["a"; "b"] _ _ _ _ _)).
  apply NoDup_cons. split; [|apply NoDup_singleton]. intros H%list_elem_of_singleton. discriminate.
Defined.

(** the same column, with the padding that db-lib adds to an empty default *)
Example default_padding :
  col_defaultValue (table_column ["t"; "c"; "int"; "NO"; "0"; " "]) = " " ∧
  col_defaultValue <$> described_column ["c"; "int"; "NO"; " "; "0"] = Some "".
Proof. split; reflexivity. Qed.

(** ** Statements read back *)

Notation mssql := (dialectFor MSSQL).

Lemma lexes_bracket name : lexes mssql (quoteIdent name) [(TQuotedIdent, name)].
Proof. exact (lexes_quoted MSSQL name). Qed.

(** the end of a statement *)
Lemma lexes_semicolon w :
  plain_word w = true → lexes mssql (w +:+ ";") [(TWord, w); (TPunct, ";")].
Proof.
  intros Hw prev rest Hr. rewrite sapp_assoc.
  destruct (lexemes_word_punct MSSQL prev w ";" rest Hw) as [p Hp]; [set_solver| |by exists (Some p)].
  destruct rest as [|c r]; [done|]. simpl in Hr. by apply char_eqb_true in Hr as ->.
Qed.

(** pieces of a statement *)
Local Ltac pieces :=
  repeat first
    [ apply Forall2_nil_2 | apply Forall2_cons_2 | apply lexes_bracket | apply (lexes_equal MSSQL)
    | apply lexes_semicolon; reflexivity | apply lexes_word; reflexivity ].

Lemma lex_pieces ps p l ls :
  lexes mssql p l → Forall2 (lexes mssql) ps ls →
  lexemes mssql None (sjoin " " (p :: ps)) = l ++ mjoin ls.
Proof. intros Hp Hps. by apply lexes_whole, lexes_pieces. Qed.

(** The statements that the SQL Server backend writes about schemas and databases, read by
    SQL Server's tokenizer, are their fixed words and the given names as one identifier each,
    whatever bytes the names hold; dropping a database is two statements, the second of which
    starts after the semicolon. *)
Lemma mssql_statements_lex name newName :
  let lex := lexemes mssql None in
  lex (drop_schema_sql name) = words ["DROP"; "SCHEMA"] ++ [(TQuotedIdent, name)] ∧
  lex (create_sql name) = words ["CREATE"; "DATABASE"] ++ [(TQuotedIdent, name)] ∧
  lex (rename_sql name newName) =
    words ["ALTER"; "DATABASE"] ++ [(TQuotedIdent, name)] ++ words ["MODIFY"; "NAME"] ++
    [(TOp, "="); (TQuotedIdent, newName)] ∧
  lex (drop_sql name) =
    words ["ALTER"; "DATABASE"] ++ [(TQuotedIdent, name)] ++
    words ["SET"; "SINGLE_USER"; "WITH"; "ROLLBACK"; "IMMEDIATE"] ++ [(TPunct, ";")] ++
    words ["DROP"; "DATABASE"] ++ [(TQuotedIdent, name)].
Proof.
  cbn zeta. split_and!.
  - etransitivity; [apply (lex_pieces ["SCHEMA"; quoteIdent name] "DROP"); pieces|done].
  - etransitivity; [apply (lex_pieces ["DATABASE"; quoteIdent name] "CREATE"); pieces|done].
  - etransitivity; [|etransitivity; [apply (lex_pieces ["DATABASE"; quoteIdent name; "MODIFY"; "NAME"; "=";
      quoteIdent newName] "ALTER"); pieces|done]]. f_equal.
  - etransitivity; [|etransitivity; [apply (lex_pieces ["DATABASE"; quoteIdent name; "SET"; "SINGLE_USER";
      "WITH"; "ROLLBACK"; "IMMEDIATE" +:+ ";"; "DROP"; "DATABASE"; quoteIdent name] "ALTER"); pieces|done]]. f_equal.
Qed.
