(* ===== verification/MssqlResults.v ===== *)
(** * The SQL Server backend: properties of execution

    A batch is reported result set by result set, with the messages that came with it; the
    status of an administration statement. *)

From S2P Require Import Prelude Types Effects ConnectionInfo Database Rows Mssql.

(** ** What the server has for a batch *)

Inductive set_answer := RowSet (columns : list string) (rows : list (list ms_value)) | Count (n : Z).

(** how a batch ends: everything is read, an error, or a cancel, which drops the set it finds *)
Inductive ending := AllRead | Fails (error : string) | Stopped (a : set_answer).

(** the message of an error, if it is one: db-lib's own, or the server's above severity 10 *)
Definition error_of (m : ms_message) : option string :=
  match m with
  | DbError db os => Some (dblibErrorHandler db os)
  | ServerMessage _ severity text => if (10 <? severity)%Z then text else None
  end.

(** the text of a notice, if it is one: not empty, and not about the session's settings *)
Definition notice_of (m : ms_message) : option string :=
  match m with
  | ServerMessage msgno severity (Some text) =>
      if decide ((severity <= 10)%Z ∧ text ≠ "" ∧ msgno ∉ [5701; 5703; 5704]%Z) then Some text else None
  | _ => None
  end.

(** what the handlers keep of messages: the last error and all notices *)
Definition heard_of (said : list ms_message) : Heard :=
  (default "" (last (omap error_of said)), omap notice_of said).

Lemma session_noise_spec msgno : session_noise msgno = true ↔ msgno ∈ [5701; 5703; 5704]%Z.
Proof. unfold session_noise. rewrite !orb_true_iff, !Z.eqb_eq. set_solver. Qed.

Lemma handle_heard said m : handle_message (heard_of said) m = heard_of (said ++ [m]).
Proof.
  unfold heard_of. rewrite !omap_app.
  destruct m as [db os|msgno severity [text|]]; simpl; [by rewrite last_snoc, app_nil_r| |].
  - destruct (Z.ltb_spec 10 severity); [rewrite last_snoc; f_equal; case_decide; [lia|by rewrite app_nil_r]|].
    rewrite app_nil_r. pose proof (session_noise_spec msgno) as Hn.
    destruct text as [|c text]; [by case_decide; [naive_solver|simpl; rewrite app_nil_r]|]. simpl.
    destruct (session_noise msgno); simpl; case_decide; try (simpl; rewrite ?app_nil_r; done); exfalso; naive_solver.
  - destruct (10 <? severity)%Z; simpl; by rewrite !app_nil_r.
Qed.

Lemma handle_heard_all said l : foldl handle_message (heard_of said) l = heard_of (said ++ l).
Proof.
  revert said. induction l as [|m l IH]; intros said; simpl; [by rewrite app_nil_r|].
  by rewrite handle_heard, IH, <-app_assoc.
Qed.

Section server.
Context (lib : Dblib) (h p : nat).

(** the messages that come with [events] behind a log; with the events behind the first [n] *)
Fixpoint said_in (log events : MsLog) : list ms_message :=
  match events with
  | [] => []
  | e :: events => dl_messages lib (log ++ [e]) ++ said_in (log ++ [e]) events
  end.
Definition said (n : nat) (log : MsLog) : list ms_message := said_in (take n log) (drop n log).

(** whether the call was cancelled at the last event *)
Definition is_cancelled (log : MsLog) : Prop := dl_cancelled lib log = true.

(** the rows of a result set from [log] on, until they end, fail or are cancelled, and the log
    then *)
Inductive rows_come : MsLog → list (list ms_value) → MsLog → Prop :=
  | rows_cancelled log : is_cancelled (log ++ [MsPoll h]) → rows_come log [] (log ++ [MsPoll h])
  | rows_end log :
      ¬ is_cancelled (log ++ [MsPoll h]) → dl_row lib (log ++ [MsPoll h; MsRow p]) = NoMoreRows →
      rows_come log [] (log ++ [MsPoll h; MsRow p])
  | rows_fail log :
      ¬ is_cancelled (log ++ [MsPoll h]) → dl_row lib (log ++ [MsPoll h; MsRow p]) = RowFails →
      rows_come log [] (log ++ [MsPoll h; MsRow p])
  | rows_next log values rows log' :
      ¬ is_cancelled (log ++ [MsPoll h]) → dl_row lib (log ++ [MsPoll h; MsRow p]) = Row values →
      rows_come (log ++ [MsPoll h; MsRow p]) rows log' → rows_come log (values :: rows) log'.

(** a result set: a count where it has no columns *)
Inductive set_comes : MsLog → set_answer → MsLog → Prop :=
  | set_count log : dl_columns lib log = [] → set_comes log (Count (dl_count lib log)) log
  | set_rows log rows log' :
      dl_columns lib log ≠ [] → rows_come log rows log' →
      set_comes log (RowSet (dl_columns lib log) rows) log'.

(** the error of a failure, which is asked for after the [n] first events and with a last look at
    the cancellation *)
Definition error_text (n : nat) (log : MsLog) : string :=
  if dl_cancelled lib log then "Query cancelled"
  else match last (omap error_of (said n log)) with
       | Some text => if sempty text then "Unknown error" else text
       | None => "Unknown error"
       end.

(** what is left of a batch is cancelled unless its process is dead *)
Definition hung_up (log : MsLog) : MsLog :=
  log ++ if dl_dead lib (log ++ [MsDead p]) then [MsDead p] else [MsDead p; MsCancel p].

Section exchange.
Context (n : nat).

(** the result sets of a batch from [log] on, how it ends, and the log then *)
Inductive batch : MsLog → list set_answer → ending → MsLog → Prop :=
  | batch_end log :
      dl_results lib (log ++ [MsResults p]) = NoMoreResults → batch log [] AllRead (log ++ [MsResults p])
  | batch_fail log :
      dl_results lib (log ++ [MsResults p]) = ResultFails →
      batch log [] (Fails (error_text n (log ++ [MsResults p; MsPoll h]))) (log ++ [MsResults p; MsPoll h])
  | batch_cancelled log a log1 :
      dl_results lib (log ++ [MsResults p]) = ResultSet → set_comes (log ++ [MsResults p]) a log1 →
      is_cancelled (log1 ++ [MsPoll h]) → batch log [] (Stopped a) (hung_up (log1 ++ [MsPoll h]))
  | batch_set log a log1 answers e log' :
      dl_results lib (log ++ [MsResults p]) = ResultSet → set_comes (log ++ [MsResults p]) a log1 →
      ¬ is_cancelled (log1 ++ [MsPoll h]) → batch (log1 ++ [MsPoll h]) answers e log' →
      batch log (a :: answers) e log'.

(** a batch that is sent: refused, or its result sets *)
Inductive exchanged (sql : string) : MsLog → list set_answer → ending → MsLog → Prop :=
  | exchanged_refused log :
      dl_sends lib (log ++ [MsSend p (c_str sql)]) = false →
      exchanged sql log [] (Fails (error_text n (log ++ [MsSend p (c_str sql); MsPoll h])))
        (hung_up (log ++ [MsSend p (c_str sql); MsPoll h]))
  | exchanged_run log answers e log' :
      dl_sends lib (log ++ [MsSend p (c_str sql)]) = true →
      batch (log ++ [MsSend p (c_str sql)]) answers e log' → exchanged sql log answers e log'.
End exchange.

(** enough fuel for the rows of every set, and for the number of sets *)
Definition few_rows (fuel : nat) (a : set_answer) : Prop :=
  match a with RowSet _ rows => length rows < fuel | Count _ => True end.
Definition enough (fuel : nat) (answers : list set_answer) (e : ending) : Prop :=
  length answers < fuel ∧ Forall (few_rows fuel) answers ∧
  match e with Stopped a => few_rows fuel a | _ => True end.

(** ** What a report tells *)

(** how a value reads: as db-lib converts it, up to a NUL, or as it is *)
Definition value_text (v : option ms_value) : string :=
  match mjoin v with
  | None => NULL_SENTINEL
  | Some (type, data) =>
      match dl_convert lib type data with Some text => c_str text | None => data end
  end.

(** a set is reported with its columns and its rows, the first up to the limit and a note where
    some were left out, or with its count *)
Definition tells (limit : Z) (a : set_answer) (r : StatementResult) : Prop :=
  sr_success r = true ∧ sr_errorMessage r = "" ∧
  match a with
  | RowSet columns rows =>
      sr_columnNames r = columns ∧
      Forall2 (row_shows value_text columns) (take (Z.to_nat limit) rows) (sr_tableData r) ∧
      sr_message r = returned (length (sr_tableData r)) +:+
        (if decide (limit < Z.of_nat (length rows))%Z then " (limited to " +:+ to_string limit +:+ ")" else "")
  | Count n => sr_columnNames r = [] ∧ sr_tableData r = [] ∧ sr_affectedRows r = Z.max 0 n
  end.

(** the failure that is reported last *)
Definition last_report (e : ending) : list StatementResult :=
  match e with
  | AllRead => []
  | Fails error => [failure error]
  | Stopped _ => [failure "Query cancelled"]
  end.

(** what the model reports a set as *)
Definition reported (limit : Z) (a : set_answer) : StatementResult :=
  match a with
  | RowSet columns rows =>
      rows_result columns limit (map (row_text lib columns) (take (Z.to_nat limit) rows))
        (limit <? Z.of_nat (length rows))%Z
  | Count n => count_result n
  end.

Lemma set_row_text_shows columns row : row_shows value_text columns row (row_text lib columns row).
Proof. apply row_shows_imap. intros i _. unfold value_text. by destruct (row !! i) as [[[]|]|]. Qed.

Lemma set_reported_tells limit a : tells limit a (reported limit a).
Proof.
  destruct a as [columns rows|n]; (split; [|split]); simpl; try done.
  - split_and!; [done|apply rows_show_map, set_row_text_shows|]. unfold rows_message, returned.
    rewrite !sapp_assoc. do 3 f_equal. case_decide as Hl.
    + by rewrite (proj2 (Z.ltb_lt _ _) Hl).
    + by rewrite (proj2 (Z.ltb_ge _ _)) by lia.
  - unfold count_result. by destruct (0 <=? n)%Z.
  - unfold count_result. by destruct (0 <=? n)%Z.
  - unfold count_result. destruct (Z.leb_spec 0 n); simpl; (split_and!; [done..|lia]).
Qed.

(** ** Runs *)

Lemma said_in_snoc log events e :
  said_in log (events ++ [e]) = said_in log events ++ dl_messages lib (log ++ events ++ [e]).
Proof.
  revert log. induction events as [|e' events IH]; intros log; simpl; [by rewrite app_nil_r|].
  by rewrite IH, <-!app_assoc.
Qed.

Lemma said_nil n log : length log <= n → said n log = [].
Proof. intros H. unfold said. by rewrite drop_ge. Qed.

Lemma said_snoc n log e :
  n <= length log → said n (log ++ [e]) = said n log ++ dl_messages lib (log ++ [e]).
Proof.
  intros Hn. unfold said. rewrite drop_app_le, take_app_le, said_in_snoc by done.
  by rewrite app_assoc, take_drop.
Qed.

Section run.
Context (w : MsWorld) (n : nat).

(** the state when the log is [log] *)
Definition at_log (log : MsLog) : MsWorld :=
  mkMsWorld log (mw_procs w) (mw_conns w) (heard_of (said n log)).

Lemma call_at {A} log e (answer : MsLog → A) :
  n <= length log → call lib e answer (at_log log) = (Done (answer (log ++ [e])), at_log (log ++ [e])).
Proof. intros Hn. unfold call, at_log. simpl. by rewrite handle_heard_all, said_snoc. Qed.

Lemma bind_done {A B} (m : MsM A) (f : A → MsM B) w1 x w2 :
  m w1 = (Done x, w2) → (m ≫= f) w1 = f x w2.
Proof. intros H. unfold mbind, Eff_bind. by rewrite H. Qed.

Lemma length_snoc2 (log : MsLog) a b : n <= length log → n <= length (log ++ [a; b]).
Proof. rewrite length_app. lia. Qed.
Lemma length_snoc1 (log : MsLog) a : n <= length log → n <= length (log ++ [a]).
Proof. rewrite length_app. lia. Qed.

Lemma errorText_at log :
  n <= length log →
  errorText lib h (at_log log) = (Done (error_text n (log ++ [MsPoll h])), at_log (log ++ [MsPoll h])).
Proof.
  intros Hn. unfold errorText, cancelled. erewrite bind_done by by apply call_at.
  unfold error_text. destruct (dl_cancelled _ _); [done|]. unfold getLastError. simpl.
  by destruct (last _).
Qed.

Lemma cancel_at log :
  n <= length log →
  cancel_unless_dead lib p (at_log log) = (Done tt, at_log (hung_up log)) ∧ n <= length (hung_up log).
Proof.
  intros Hn. unfold cancel_unless_dead, dbdead, hung_up. erewrite bind_done by by apply call_at.
  destruct (dl_dead _ _); (split; [|rewrite length_app; lia]); [done|].
  unfold dbcancel. rewrite call_at by by apply length_snoc1. by rewrite <-app_assoc.
Qed.

Lemma row_loop_at fuel columns limit kept limited log rows log' :
  rows_come log rows log' → n <= length log → length rows < fuel →
  (Z.of_nat (length kept) <= limit)%Z →
  n <= length log' ∧
  row_loop lib fuel h p columns limit kept limited (at_log log) =
  (Done (kept ++ map (row_text lib columns) (take (Z.to_nat limit - length kept) rows),
         limited || (limit <? Z.of_nat (length kept + length rows))%Z), at_log log').
Proof.
  unfold is_cancelled. intros Hr. revert fuel kept limited.
  induction Hr as [log Hu|log Hu%not_true_is_false He|log Hu%not_true_is_false He
    |log values rows log' Hu%not_true_is_false He _ IH]; intros fuel kept limited Hn Hf Hk;
    (destruct fuel as [|fuel]; [simpl in Hf; lia|]); cbn [row_loop]; unfold cancelled, dbnextrow;
    erewrite bind_done by (by apply call_at); rewrite Hu.
  { split; [by apply length_snoc1|]. unfold mret, Eff_ret. simpl.
    rewrite take_nil, app_nil_r, Nat.add_0_r, (proj2 (Z.ltb_ge _ _)), orb_false_r by lia; done. }
  all: erewrite bind_done by (apply call_at; by apply length_snoc1);
    rewrite <-(app_assoc log); simpl ([_] ++ [_]); rewrite He.
  1,2: split; [by apply length_snoc2|]; unfold mret, Eff_ret; simpl;
    rewrite take_nil, app_nil_r, Nat.add_0_r, (proj2 (Z.ltb_ge _ _)), orb_false_r by lia; done.
  simpl in Hf |- *. destruct (Z.leb_spec limit (Z.of_nat (length kept))) as [Hfull|Hroom].
  - destruct (IH fuel kept true) as [Hn' ->]; [by apply length_snoc2|lia|done|]. split; [done|].
    replace (Z.to_nat limit - length kept) with 0 by lia. simpl.
    by rewrite (proj2 (Z.ltb_lt _ _)), orb_true_r by lia.
  - destruct (IH fuel (kept ++ [row_text lib columns values]) limited) as [Hn' ->];
      [by apply length_snoc2|lia|rewrite length_app; simpl; lia|]. split; [done|].
    rewrite length_app, <-app_assoc. simpl.
    replace (Z.to_nat limit - length kept) with (S (Z.to_nat limit - (length kept + 1))) by lia.
    simpl. by replace (length kept + 1 + length rows) with (length kept + S (length rows)) by lia.
Qed.

Lemma extract_at fuel limit log a log1 :
  set_comes log a log1 → n <= length log → (0 < limit)%Z → few_rows fuel a →
  n <= length log1 ∧
  extractDbLibResult lib fuel h p limit (at_log log) = (Done (reported limit a), at_log log1).
Proof.
  intros Hs Hn Hl Hf. unfold extractDbLibResult, observe. erewrite bind_done by done.
  change (mw_log (at_log ?l)) with l. destruct Hs as [log Hc|log rows log' Hc Hr].
  - rewrite Hc. by erewrite bind_done by done.
  - destruct (row_loop_at fuel (dl_columns lib log) limit [] false log rows log' Hr)
      as [Hn1 Hloop]; [done|done|simpl; lia|]. split; [done|].
    destruct (dl_columns lib log) as [|c columns]; [done|].
    erewrite bind_done by exact Hloop. simpl. by rewrite Nat.sub_0_r.
Qed.

Lemma results_loop_at fuel limit m log answers e log' statements :
  batch n log answers e log' → n <= length log → (0 < limit)%Z → length answers < m →
  Forall (few_rows fuel) answers → match e with Stopped a => few_rows fuel a | _ => True end →
  results_loop lib fuel m h p limit statements (at_log log) =
  (Done (statements ++ map (reported limit) answers ++ last_report e), at_log log').
Proof.
  intros Hb Hn Hl. revert m statements Hn.
  induction Hb as [log He|log He|log a log1 He Hs Hc|log a log1 answers e log' He Hs Hu _ IH];
    intros m statements Hn Hm Hf Hstop; (destruct m as [|m]; [simpl in Hm; lia|]); cbn [results_loop];
    unfold dbresults; erewrite bind_done by (by apply call_at); rewrite He.
  - by rewrite !app_nil_r.
  - erewrite bind_done by (apply errorText_at; by apply length_snoc1). by rewrite <-app_assoc.
  - destruct (extract_at fuel limit _ a log1 Hs) as [Hn1 Hex]; [by apply length_snoc1|done..|].
    erewrite bind_done by exact Hex. unfold cancelled. erewrite bind_done by by apply call_at.
    rewrite Hc. destruct (cancel_at (log1 ++ [MsPoll h])) as [Hcancel _]; [by apply length_snoc1|].
    by erewrite bind_done by exact Hcancel.
  - apply Forall_cons in Hf as [Ha Hf].
    destruct (extract_at fuel limit _ a log1 Hs) as [Hn1 Hex]; [by apply length_snoc1|done..|].
    erewrite bind_done by exact Hex. unfold cancelled. erewrite bind_done by by apply call_at.
    rewrite (not_true_is_false _ Hu).
    rewrite IH; [|by apply length_snoc1|simpl in Hm; lia|done..]. by rewrite <-app_assoc.
Qed.
End run.

Lemma execute_process_at fuel sql limit w answers e log' :
  exchanged (length (mw_log w)) sql (mw_log w) answers e log' → enough fuel answers e → (0 < limit)%Z →
  ∃ w', executeQueryOnProcess lib fuel h p sql limit w =
    (Done (mkQueryResult (map (reported limit) answers ++ last_report e)
             (omap notice_of (said (length (mw_log w)) log'))), w') ∧ mw_log w' = log'.
Proof.
  intros Hx (Hlen & Hrows & Hstop) Hl. set (n := length (mw_log w)) in *. unfold executeQueryOnProcess.
  assert (Hclear : at_log w n (mw_log w) = mkMsWorld (mw_log w) (mw_procs w) (mw_conns w) ("", [])).
  { unfold at_log. by rewrite said_nil. }
  erewrite bind_done by done. erewrite bind_done by done. cbn [fst snd mw_log mw_heard mw_conns mw_procs].
  rewrite <-Hclear. unfold dbsqlexec. erewrite bind_done by by apply call_at.
  inversion Hx as [log Hs|log answers' e' log1 Hs Hb]; subst; rewrite Hs; cbn [negb].
  - erewrite bind_done.
    2:{ erewrite bind_done by (apply errorText_at; by apply length_snoc1).
        rewrite <-app_assoc. simpl ([_] ++ [_]).
        destruct (cancel_at w n (mw_log w ++ [MsSend p (c_str sql); MsPoll h])) as [Hc _];
          [by apply length_snoc2|].
        by erewrite bind_done by exact Hc. }
    eexists. split; reflexivity.
  - erewrite bind_done.
    2:{ apply (results_loop_at w n fuel limit fuel _ answers e log' []); try done. by apply length_snoc1. }
    eexists. split; reflexivity.
Qed.

Lemma all_success_true l : (∀ s, s ∈ l → sr_success s = true) → all_success l = true.
Proof.
  induction l as [|s l IH]; intros H; [done|]. simpl. rewrite H by set_solver. simpl. apply IH.
  set_solver.
Qed.

Lemma report_success limit answers e messages :
  qr_success (mkQueryResult (map (reported limit) answers ++ last_report e) messages) = true ↔
  e = AllRead ∧ answers ≠ [].
Proof.
  assert (Hf : ∀ l s, sr_success s = false → all_success (l ++ [s]) = false).
  { intros l s Hs. induction l as [|a l IH]; simpl; [by rewrite Hs|]. by destruct (sr_success a). }
  assert (Hfail : ∀ s, sr_success s = false →
    qr_success (mkQueryResult (map (reported limit) answers ++ [s]) messages) = false).
  { intros s Hs. unfold qr_success. simpl. specialize (Hf (map (reported limit) answers) s Hs).
    destruct (map (reported limit) answers) as [|a l]; simpl in *; [done|by rewrite Hf]. }
  destruct e as [|error|a]; simpl; [|rewrite Hfail by done; split; [done|by intros []]..].
  rewrite app_nil_r. unfold qr_success. simpl.
  destruct answers as [|a answers]; [by split; [|intros []]|]. split; [done|]. intros _.
  apply (all_success_true (map (reported limit) (a :: answers))).
  intros s (b & -> & _)%(list_elem_of_fmap (reported limit) (a :: answers)).
  apply (set_reported_tells limit b).
Qed.
End server.

(** a process is there or opened, or an error is thrown *)
Lemma ensureConn_ends lib db : finishes (ensureConn lib db).
Proof.
  assert (Hopen : finishes (reconnect lib db)).
  { unfold reconnect, openDbLibConnection. intros w. unfold mbind, Eff_bind.
    destruct (dl_login lib); [|done]. destruct (forallb _ _); [|done]. simpl.
    destruct (dl_opens lib _); simpl; [|done].
    destruct (sempty (if sempty _ then _ else _)); simpl; [done|]. by destruct (dl_uses lib _). }
  intros w. unfold ensureConn, mbind at 1, Eff_bind at 1, get_conn.
  destruct (mw_conns w !! mdb_handle db) as [p|]; [|apply Hopen].
  unfold dbdead, mbind at 1, Eff_bind at 1, call. destruct (dl_dead lib _); [|done]. cbn [negb].
  unfold dbclose, mbind, Eff_bind, call, set_conn. apply Hopen.
Qed.

(** C18: A SQL Server batch is reported result set by result set.  When the handle's process is
    there or can be opened, and the batch ends and there is fuel for its rows and sets, [execute]
    ends with one report per result set, in order: the columns and a text for each column of the
    rows, at most the limit, with a note where rows were left out, or the count; then, if the
    batch was refused or a later statement failed, the error heard last, or that it was cancelled.
    A cancel while the rows come, or behind a set, drops that set, reports "Query cancelled" last
    and cancels the rest on a process that is not dead.  The messages are the notices heard during
    the batch.  It is a success exactly when something was reported and nothing failed or was
    cancelled: a row set whose rows fail half-way counts as complete.  A process that cannot be
    opened is one failure with that error. *)
Theorem mssql_execute lib fuel db sql rowLimit w c w1 :
  let h := mdb_handle db in
  let limit := if (0 <? rowLimit)%Z then rowLimit else (2 ^ 31 - 1)%Z in
  ensureConn lib db w = (c, w1) →
  match c with
  | Done p => ∀ answers e log',
      exchanged lib h p (length (mw_log w1)) sql (mw_log w1) answers e log' → enough fuel answers e →
      ∃ r w' told, execute lib fuel db sql rowLimit w = (Done r, w') ∧ mw_log w' = log' ++ [MsReset h] ∧
        qr_statements r = told ++ last_report e ∧ Forall2 (tells lib limit) answers told ∧
        qr_messages r = omap notice_of (said lib (length (mw_log w1)) log') ∧
        (qr_success r = true ↔ e = AllRead ∧ answers ≠ [])
  | Throws error => ∃ w', execute lib fuel db sql rowLimit w = (Done (one_failure error), w') ∧
      mw_log w' = mw_log w1 ++ [MsReset h]
  | Hangs => False
  end.
Proof.
  intros h limit He. assert (Hlimit : row_limit rowLimit = limit) by done.
  assert (Hl : (0 < limit)%Z) by (unfold limit; destruct (Z.ltb_spec 0 rowLimit); lia).
  destruct c as [p|error|].
  - intros answers e log' Hx Hf.
    destruct (execute_process_at lib h p fuel sql limit w1 answers e log' Hx Hf Hl) as (w2 & Hrun & Hlog).
    eexists _, _, (map (reported lib limit) answers). split.
    { unfold execute. erewrite (bind_done _ _ w _ w2); [reflexivity|].
      unfold catch. erewrite bind_done by exact He. rewrite Hlimit. fold h. by rewrite Hrun. }
    split_and!; [by rewrite <-Hlog|done| |done|apply report_success].
    clear. induction answers; [constructor|]. constructor; [apply set_reported_tells|done].
  - eexists. split.
    + unfold execute. erewrite (bind_done _ _ w _ w1); [reflexivity|].
      unfold catch, mbind, Eff_bind. by rewrite He.
    + reflexivity.
  - apply (ensureConn_ends lib db w). by rewrite He.
Qed.

(** ** Administration statements *)

(** the status of a statement sent through [master]: a refusal of the batch is reported, but a
    result set that fails is drained as any other; and on a process whose rows never end, a
    dead one for instance, the draining does not end either. *)
Section admin.
Context (lib : Dblib) (p : nat).

Lemma drain_rows_hang n w :
  (∀ k, 0 < k → dl_row lib (mw_log w ++ repeat (MsRow p) k) ≠ NoMoreRows) →
  fst (drain_rows lib n p w) = Hangs.
Proof.
  revert w. induction n as [|n IH]; intros w Hw; [done|]. cbn [drain_rows].
  unfold dbnextrow, mbind at 1, Eff_bind at 1, call. pose proof (Hw 1 ltac:(lia)) as H1. simpl in H1.
  assert (Hnext : ∀ w', mw_log w' = mw_log w ++ [MsRow p] → fst (drain_rows lib n p w') = Hangs).
  { intros w' Hl. apply IH. intros k Hk. rewrite Hl, <-app_assoc. apply (Hw (S k)). lia. }
  destruct (dl_row lib (mw_log w ++ [MsRow p])); [by apply Hnext..|done].
Qed.

Lemma drain_hangs fuel n w :
  dl_results lib (mw_log w ++ [MsResults p]) ≠ NoMoreResults →
  (∀ k, 0 < k → dl_row lib ((mw_log w ++ [MsResults p]) ++ repeat (MsRow p) k) ≠ NoMoreRows) →
  fst (drain lib fuel n p w) = Hangs.
Proof.
  intros Hr Hw. destruct n as [|n]; [done|]. cbn [drain].
  unfold dbresults, mbind at 1, Eff_bind at 1, call. set (w1 := mkMsWorld _ _ _ _).
  pose proof (drain_rows_hang fuel w1 Hw) as H.
  assert (Hb : fst ((drain_rows lib fuel p ;; drain lib fuel n p) w1) = Hangs).
  { unfold mbind, Eff_bind. by destruct (drain_rows lib fuel p w1) as [[x|e|] w2]. }
  by destruct (dl_results lib (mw_log w ++ [MsResults p])).
Qed.

Definition total {A} (m : MsM A) : Prop := ∀ w e, fst (m w) ≠ Throws e.

Lemma total_bind {A B} (m : MsM A) (f : A → MsM B) : total m → (∀ x, total (f x)) → total (m ≫= f).
Proof.
  intros Hm Hf w e. unfold mbind, Eff_bind. specialize (Hm w).
  destruct (m w) as [[x|e'|] w']; [apply Hf|by specialize (Hm e')|done].
Qed.

Lemma total_drain fuel n : total (drain lib fuel n p).
Proof.
  induction n as [|n IH]; [by intros w e|]. cbn [drain]. apply total_bind; [by intros w e|].
  assert (Hrows : ∀ m, total (drain_rows lib m p)).
  { induction m as [|m IHm]; [by intros w e|]. cbn [drain_rows]. apply total_bind; [by intros w e|].
    intros []; [done..|by intros w e]. }
  intros []; [by apply total_bind..|by intros w e].
Qed.
End admin.

(** The status of a SQL Server administration statement.  Once the temporary process is
    there, a batch that is refused is reported with its error; but a batch whose first
    statement is accepted is never reported as failed, whatever becomes of the others: it is a
    success, or does not end; and it does not end when the rows of its results never do, as on
    a process that died. *)
Lemma mssql_admin lib fuel info sql w p w1 :
  openDbLibConnection lib info "master" w = (Done p, w1) →
  let log := mw_log w1 ++ [MsSend p (c_str sql)] in
  let out := fst (execOnMaster lib fuel info sql w) in
  (dl_sends lib log = false → ∃ e, out = Done (false, e)) ∧
  (dl_sends lib log = true → out = Done (true, "") ∨ out = Hangs) ∧
  (dl_sends lib log = true → dl_results lib (log ++ [MsResults p]) ≠ NoMoreResults →
   (∀ k, 0 < k → dl_row lib ((log ++ [MsResults p]) ++ repeat (MsRow p) k) ≠ NoMoreRows) →
   out = Hangs).
Proof.
  intros Ho log out. subst out. unfold execOnMaster, catch.
  erewrite bind_done by exact Ho. erewrite bind_done by done.
  unfold dbsqlexec. erewrite bind_done by done. cbn [mw_log]. fold log.
  set (w2 := mkMsWorld log _ _ _).
  destruct (dl_sends lib log) eqn:Es; cbn [negb].
  - pose proof (total_drain lib p fuel fuel w2) as Ht. pose proof (drain_hangs lib p fuel fuel w2) as Hh.
    unfold mbind, Eff_bind, drainResults.
    destruct (drain lib fuel fuel p w2) as [[[]|e|] w3]; [|by specialize (Ht e)|].
    + split_and!; [done|by left|]. intros _ Hr Hrows. by specialize (Hh Hr Hrows).
    + split_and!; [done|by right|done].
  - split_and!; [|done..]. intros _. by eexists.
Qed.

(** ** A sample server *)

(** a batch has one result set of one row, and prints a greeting *)
Definition sample_dblib : Dblib :=
  mkDblib true (λ _ _, true) (λ _, true) (λ _, true) (λ _, true)
    (λ log, if decide (MsResults 0 ∈ take (pred (length log)) log) then NoMoreResults else ResultSet)
    (λ _, ["n"]) (λ _, 0%Z)
    (λ log, if decide (MsRow 0 ∈ take (pred (length log)) log) then NoMoreRows
            else Row [Some (56%Z, "7")])
    (λ _, false) (λ _, false) (λ log, match last log with
                                      | Some (MsSend _ _) => [ServerMessage 0 0 (Some "hello")]
                                      | _ => []
                                      end) (λ _ data, Some data).

Definition ms_info : ConnectionInfo :=
  mkConnectionInfo MSSQL "m" "" "host" 1433 "db" "sa" "pw" false Require_ "" false.

Definition ms_handle : MsDatabase := mkMsDatabase 0 ms_info "db".

Definition ms_world : MsWorld := mkMsWorld [] 1 {[0 := 0]} ("", []).

(** one row, and the greeting as the batch's message *)
Lemma mssql_execute_witness :
  ∃ r w', execute sample_dblib 3 ms_handle "SELECT 7" 10 ms_world = (Done r, w') ∧
    map sr_tableData (qr_statements r) = [[["7"]]] ∧ qr_messages r = ["hello"] ∧
    (qr_success r = true ↔ AllRead = AllRead ∧ [RowSet ["n"] [[Some (56%Z, "7")]]] ≠ []).
Proof.
  destruct (mssql_execute sample_dblib 3 ms_handle "SELECT 7" 10 ms_world (Done 0)
    (mkMsWorld [MsDead 0] 1 {[0 := 0]} ("", [])) eq_refl [RowSet ["n"] [[Some (56%Z, "7")]]] AllRead
    [MsDead 0; MsSend 0 "SELECT 7"; MsResults 0; MsPoll 0; MsRow 0; MsPoll 0; MsRow 0; MsPoll 0;
     MsResults 0]) as (r & w' & told & Hr & _ & _ & _ & _ & Hok).
  - apply exchanged_run; [reflexivity|].
    eapply (batch_set _ 0 0 _ _ _ [MsDead 0; MsSend 0 "SELECT 7"; MsResults 0; MsPoll 0; MsRow 0;
      MsPoll 0; MsRow 0]); [reflexivity| |discriminate|].
    + refine (set_rows sample_dblib 0 0 [MsDead 0; MsSend 0 "SELECT 7"; MsResults 0] _ _ _ _); [discriminate|].
      eapply rows_next; [discriminate|reflexivity|]. apply rows_end; [discriminate|reflexivity].
    + apply batch_end. reflexivity.
  - split; [simpl; lia|]. split; [repeat constructor|exact I].
  - exists r, w'. split; [exact Hr|]. split; [|split; [|exact Hok]]; vm_compute in Hr; injection Hr as <- _; reflexivity.
Defined.

(** the second statement of a batch fails: dropping a database is reported as done *)
Definition refusing_dblib : Dblib :=
  mkDblib true (λ _ _, true) (λ _, true) (λ _, true) (λ _, true)
    (λ log, match length (filter (λ e, e = MsResults 1) log) with
            | 1 => ResultSet
            | 2 => ResultFails
            | _ => NoMoreResults
            end)
    (λ _, []) (λ _, 0%Z) (λ _, NoMoreRows) (λ _, false) (λ _, false) (λ _, []) (λ _ data, Some data).

Lemma mssql_admin_witness :
  let out := fst (execOnMaster refusing_dblib 4 ms_info "ALTER ...; DROP DATABASE [x]" ms_world) in
  out = Done (true, "") ∧ (out = Done (true, "") ∨ out = Hangs).
Proof.
  split; [vm_compute; reflexivity|].
  refine (proj1 (proj2 (mssql_admin refusing_dblib 4 ms_info "ALTER ...; DROP DATABASE [x]" ms_world 1
    (snd (openDbLibConnection refusing_dblib ms_info "master" ms_world)) _)) _);
    vm_compute; reflexivity.
Defined.
