(* ===== verification/MssqlProps.v ===== *)
(** * The SQL Server backend: properties of processes

    No process of db-lib is used after it is closed, and none stays open without an owner. *)

From S2P Require Import Prelude Types Effects ConnectionInfo Database Rows Mssql MssqlCatalog.
From S2P Require Import MssqlConnection.

(** ** The processes of a log *)

Section processes.
Context (lib : Dblib).

(** the open processes after an event that ends [log]; nothing when a closed one is used *)
Definition process_step (log : MsLog) (e : ms_event) (open : gset nat) : option (gset nat) :=
  let use p := if decide (p ∈ open) then Some open else None in
  match e with
  | MsOpen p _ _ =>
      if decide (p ∈ open) then None else Some (if dl_opens lib log then {[p]} ∪ open else open)
  | MsUse p _ | MsSend p _ | MsResults p | MsRow p | MsCancel p | MsDead p => use p
  | MsClose p => if decide (p ∈ open) then Some (open ∖ {[p]}) else None
  | MsPoll _ | MsReset _ => Some open
  end.

Fixpoint processes_from (log : MsLog) (events : list ms_event) (open : gset nat)
    : option (gset nat) :=
  match events with
  | [] => Some open
  | e :: events =>
      open ← process_step (log ++ [e]) e open;
      processes_from (log ++ [e]) events open
  end.

Definition processes (log : MsLog) : option (gset nat) := processes_from [] log ∅.

Lemma processes_from_app log a b open :
  processes_from log (a ++ b) open = processes_from log a open ≫= processes_from (log ++ a) b.
Proof.
  revert log open. induction a as [|e a IH]; intros log open; simpl; [by rewrite app_nil_r|].
  destruct (process_step _ _ _) as [open'|]; simpl; [|done]. by rewrite IH, <-app_assoc.
Qed.

Lemma processes_snoc log e :
  processes (log ++ [e]) = processes log ≫= process_step (log ++ [e]) e.
Proof.
  unfold processes. rewrite processes_from_app. simpl.
  destruct (processes_from [] log ∅) as [open|]; simpl; [|done].
  by destruct (process_step _ _ _).
Qed.

Notation img C := (map_img C : gset nat).

(** the processes open: those of the handles, and [X] *)
Record Own (C : gmap nat nat) (X : gset nat) (w : MsWorld) : Prop := mkOwn {
  own_conns : mw_conns w = C;
  own_open : processes (mw_log w) = Some (img C ∪ X);
  own_apart : img C ## X;
  own_one : ∀ h h' p, C !! h = Some p → C !! h' = Some p → h = h';
  own_made : ∀ p, p ∈ img C ∪ X → p < mw_procs w
}.

(** ** Triples *)

(** what an operation that only uses the process [p] keeps *)
Definition steady {A} (p : nat) (m : MsM A) : Prop :=
  ∀ C X E, p ∈ img C ∪ X → triple (Own C X) m (λ _, Own C X) E.

Lemma steady_ret {A} p (x : A) : steady p (mret x).
Proof. by intros C X E _ w Hw. Qed.
Lemma steady_bind {A B} p (m : MsM A) (f : A → MsM B) :
  steady p m → (∀ x, steady p (f x)) → steady p (m ≫= f).
Proof. intros Hm Hf C X E Hp. eapply triple_bind; [by apply Hm|]. intros x. by apply Hf. Qed.
Lemma steady_hangs {A} p : steady p (hangs : MsM A).
Proof. by intros C X E _ w Hw. Qed.
Lemma steady_observe {A} p (f : MsLog → A) : steady p (observe f).
Proof. by intros C X E _ w Hw. Qed.
Lemma steady_heard p f : steady p (set_heard f).
Proof. intros C X E _ w []. by constructor. Qed.
Lemma steady_error p : steady p getLastError.
Proof. by intros C X E _ w Hw. Qed.
Lemma steady_messages p : steady p heardMessages.
Proof. by intros C X E _ w Hw. Qed.

(** a call that leaves the open processes as they are *)
Lemma steady_call {A} p e (answer : MsLog → A) :
  (∀ log open, p ∈ open → process_step log e open = Some open) → steady p (call lib e answer).
Proof.
  intros He C X E Hp w [Hc Ho Ha H1 Hm]. constructor; try done. simpl.
  rewrite processes_snoc, Ho. simpl. by apply He.
Qed.

Lemma steady_use {A} p e (answer : MsLog → A) :
  e ∈ [MsResults p; MsRow p; MsCancel p; MsDead p] ∨ (∃ s, e = MsUse p s ∨ e = MsSend p s) →
  steady p (call lib e answer).
Proof.
  intros He. apply steady_call. intros log open Hp.
  repeat match goal with
  | H : _ ∨ _ |- _ => destruct H
  | H : ∃ _, _ |- _ => destruct H
  | H : _ ∈ _ :: _ |- _ => apply elem_of_cons in H
  | H : _ ∈ [] |- _ => by apply elem_of_nil in H
  end; subst; simpl; by rewrite decide_True.
Qed.

Lemma steady_poll {A} p h (answer : MsLog → A) : steady p (call lib (MsPoll h) answer).
Proof. by apply steady_call. Qed.

Create HintDb steady.
Hint Resolve steady_ret steady_hangs steady_observe steady_heard steady_error
  steady_messages steady_poll : steady.
Hint Extern 2 (steady _ (call _ _ _)) => apply steady_use; set_solver : steady.

(** binds and branches *)
Ltac steadily :=
  repeat first
    [ solve [eauto with steady]
    | apply steady_bind; [|intros ?]
    | match goal with |- steady _ (match ?x with _ => _ end) => destruct x end ].

Lemma steady_rows fuel h p columns rowLimit kept limited :
  steady p (row_loop lib fuel h p columns rowLimit kept limited).
Proof.
  revert kept limited. induction fuel as [|fuel IH]; intros kept limited; cbn [row_loop];
    unfold cancelled, dbnextrow; steadily.
Qed.

Lemma steady_drain_rows n p : steady p (drain_rows lib n p).
Proof. induction n as [|n IH]; cbn [drain_rows]; unfold dbnextrow; steadily. Qed.

Hint Resolve steady_rows steady_drain_rows : steady.

Lemma steady_drain fuel n p : steady p (drain lib fuel n p).
Proof. induction n as [|n IH]; cbn [drain]; unfold dbresults; steadily. Qed.

Lemma steady_error_text p h : steady p (errorText lib h).
Proof. unfold errorText, cancelled. steadily. Qed.

Lemma steady_cancel p : steady p (cancel_unless_dead lib p).
Proof. unfold cancel_unless_dead, dbdead, dbcancel. steadily. Qed.

Hint Resolve steady_drain steady_error_text steady_cancel : steady.

Lemma steady_results fuel n h p rowLimit statements :
  steady p (results_loop lib fuel n h p rowLimit statements).
Proof.
  revert statements. induction n as [|n IH]; intros statements; cbn [results_loop];
    unfold dbresults, extractDbLibResult, cancelled; steadily.
Qed.

Hint Resolve steady_results : steady.

Lemma steady_execute fuel h p query rowLimit :
  steady p (executeQueryOnProcess lib fuel h p query rowLimit).
Proof.
  unfold executeQueryOnProcess, clearLastError, clearMessages, dbsqlexec. steadily.
Qed.

(** ** Opening and closing *)

Lemma own_heard C X E f : triple (Own C X) (set_heard f) (λ _, Own C X) E.
Proof. intros w []. by constructor. Qed.

Lemma own_last_error C X E : triple (Own C X) getLastError (λ _, Own C X) E.
Proof. by intros w Hw. Qed.

(** a process made and opened *)
Lemma own_open_call C X login server :
  triple (Own C X)
    (p ← new_process; opened ← call lib (MsOpen p login server) (dl_opens lib); mret (p, opened))
    (λ '(p, opened) w, if opened : bool then p ∉ img C ∪ X ∧ Own C ({[p]} ∪ X) w else Own C X w)
    (Own C X).
Proof.
  intros w [Hc Ho Ha H1 Hm]. simpl. set (p := mw_procs w). set (log := mw_log w ++ [_]).
  assert (Hp : p ∉ img C ∪ X) by (intros Hp; specialize (Hm p Hp); unfold p in *; lia).
  assert (Hstep : processes log =
    Some (if dl_opens lib log then {[p]} ∪ (img C ∪ X) else img C ∪ X)).
  { unfold log. rewrite processes_snoc, Ho. simpl. by rewrite decide_False. }
  destruct (dl_opens lib log).
  - split; [done|]. constructor; simpl.
    + done.
    + rewrite Hstep. f_equal. set_solver.
    + set_solver.
    + done.
    + intros q Hq. change (q < S p). destruct (decide (q = p)) as [Heq|]; [lia|].
      assert (Hq0 : q ∈ img C ∪ X) by set_solver. specialize (Hm q Hq0). unfold p. lia.
  - constructor; simpl; [done|done|done|done|]. intros q Hq. specialize (Hm q Hq). lia.
Qed.

Lemma own_close C X E p :
  p ∉ img C → p ∈ X → triple (Own C X) (dbclose lib p) (λ _, Own C (X ∖ {[p]})) E.
Proof.
  intros HpC HpX w [Hc Ho Ha H1 Hm]. constructor; simpl.
  - done.
  - rewrite processes_snoc, Ho. simpl. rewrite decide_True by set_solver. f_equal. set_solver.
  - set_solver.
  - done.
  - intros q Hq. apply Hm. set_solver.
Qed.

(** the process becomes a handle's *)
Lemma own_give C X E h p :
  C !! h = None → p ∉ img C ∪ X →
  triple (Own C ({[p]} ∪ X)) (set_conn h (Some p)) (λ _, Own (<[h := p]> C) X) E.
Proof.
  intros Hh Hp w [Hc Ho Ha H1 Hm]. constructor; simpl.
  - by rewrite Hc.
  - rewrite Ho, map_img_insert_notin_L by done. f_equal. set_solver.
  - rewrite map_img_insert_notin_L by done. set_solver.
  - intros a b q. rewrite !lookup_insert_Some.
    assert (∀ a, C !! a ≠ Some p) by (intros x Hx; apply Hp; apply elem_of_union_l; by eapply elem_of_map_img_2).
    intros [[<- <-]|[? Hq]] [[<- Heq]|[? Hq']]; naive_solver.
  - intros q Hq. apply Hm. rewrite map_img_insert_notin_L in Hq by done. set_solver.
Qed.

(** a handle's process is closed and forgotten *)
Lemma own_drop C X E h p :
  C !! h = Some p →
  triple (Own C X) (dbclose lib p ;; set_conn h None) (λ _, Own (delete h C) X) E.
Proof.
  intros Hh w [Hc Ho Ha H1 Hm].
  assert (Himg : img (delete h C) = img C ∖ {[p]}).
  { apply set_eq. intros q. rewrite elem_of_difference, not_elem_of_singleton, !elem_of_map_img.
    split.
    - intros [a [Hne Ha']%lookup_delete_Some]. split; [by exists a|]. intros ->.
      apply Hne. by eapply H1.
    - intros [[a Ha'] Hne]. exists a. rewrite lookup_delete_Some. split; [|done].
      intros <-. congruence. }
  assert (Hp : p ∈ img C) by (by eapply elem_of_map_img_2).
  constructor; simpl.
  - by rewrite Hc.
  - rewrite processes_snoc, Ho, Himg. simpl. rewrite decide_True by set_solver. f_equal. set_solver.
  - rewrite Himg. set_solver.
  - intros a b q [_ ?]%lookup_delete_Some [_ ?]%lookup_delete_Some. by eapply H1.
  - intros q. rewrite Himg. intros Hq. apply Hm. set_solver.
Qed.

Lemma triple_open {A} C X login server (k : nat → bool → MsM A) Q E :
  (∀ p, p ∉ img C ∪ X → triple (Own C ({[p]} ∪ X)) (k p true) Q E) →
  (∀ p, triple (Own C X) (k p false) Q E) →
  triple (Own C X)
    (p ← new_process; opened ← call lib (MsOpen p login server) (dl_opens lib); k p opened) Q E.
Proof.
  intros Ht Hf w Hw. pose proof (own_open_call C X login server w Hw) as H.
  unfold mbind, Eff_bind in *. simpl in *.
  match goal with |- context [dl_opens lib ?l] => destruct (dl_opens lib l) end.
  - destruct H as [Hp H]. by apply (Ht _ Hp).
  - by apply Hf.
Qed.

Lemma own_connect C X info dbName :
  triple (Own C X) (openDbLibConnection lib info dbName)
    (λ p w, p ∉ img C ∪ X ∧ Own C ({[p]} ∪ X) w) (Own C X).
Proof.
  unfold openDbLibConnection. destruct (dl_login lib); [|by intros w Hw].
  destruct (forallb _ _); [|by intros w Hw]. cbn [negb].
  eapply triple_bind; [apply own_heard|]. intros []. apply triple_open.
  - intros p Hp. cbn [negb].
    assert (Hclose : ({[p]} ∪ X) ∖ {[p]} = X) by set_solver.
    eapply (triple_bind _ _ (λ _, Own C ({[p]} ∪ X))).
    + case_match; [by intros w Hw|].
      eapply triple_bind; [apply own_heard|]. intros [].
      eapply triple_bind.
      { refine (steady_use p (MsUse p _) _ _ C _ _ _); [right; eexists; by left|set_solver]. }
      intros used.
      destruct used; [by intros w Hw|]. eapply triple_bind; [apply own_last_error|]. intros e.
      eapply triple_bind; [apply own_close; set_solver|]. intros [] w. by rewrite Hclose.
    + intros []. eapply triple_bind; [apply own_heard|]. intros [] w Hw. by split.
  - intros p. cbn [negb]. eapply triple_bind; [apply own_last_error|]. by intros e w Hw.
Qed.

(** ** Handles *)

(** every open process is the process of a handle of [S] *)
Definition Owned (S : gset nat) (w : MsWorld) : Prop := ∃ C, dom C ⊆ S ∧ Own C ∅ w.
Definition Connected (S : gset nat) (h p : nat) (w : MsWorld) : Prop :=
  ∃ C, C !! h = Some p ∧ dom C ⊆ S ∧ Own C ∅ w.

Lemma connected_owned S h p w : Connected S h p w → Owned S w.
Proof. intros (C & _ & HC & Hw). by exists C. Qed.

Lemma triple_get_conn {A} C X h (f : option nat → MsM A) Q E :
  triple (Own C X) (f (C !! h)) Q E → triple (Own C X) (conn ← get_conn h; f conn) Q E.
Proof.
  intros H w Hw. unfold get_conn, mbind, Eff_bind. rewrite (own_conns _ _ _ Hw). by apply H.
Qed.

Lemma steady_connected {A} S h p (m : MsM A) E :
  steady p m → triple (Connected S h p) m (λ _, Connected S h p) E.
Proof.
  intros Hm w (C & Hh & HC & Hw).
  assert (Hp : p ∈ img C ∪ ∅) by (apply elem_of_union_l; by eapply elem_of_map_img_2).
  specialize (Hm C ∅ E Hp w Hw). destruct (m w) as [[x|e|] w']; [|done..]. by exists C.
Qed.

Section handle.
Context (db : MsDatabase) (S : gset nat) (fuel : nat).
Notation h := (mdb_handle db).
Hypothesis Hh : h ∈ S.

Lemma owned_reconnect C :
  C !! h = None → dom C ⊆ S →
  triple (Own C ∅) (reconnect lib db) (Connected S h) (Owned S).
Proof.
  intros HC HS. unfold reconnect. eapply triple_bind.
  { eapply triple_weaken; [apply own_connect|done|intros p w Hw; exact Hw|]. intros w Hw. by exists C. }
  intros p w [Hp Hw]. pose proof (own_give C ∅ (λ _, False) h p HC Hp w Hw) as H.
  exists (<[h := p]> C). split_and!; [by rewrite lookup_insert_eq| |done]. set_solver.
Qed.

Lemma owned_ensureConn : triple (Owned S) (ensureConn lib db) (Connected S h) (Owned S).
Proof.
  apply triple_exists. intros C w [HS Hw]. revert w Hw. change (triple (Own C ∅) (ensureConn lib db) (Connected S h) (Owned S)).
  apply triple_get_conn. destruct (C !! h) as [p|] eqn:HC; [|by apply owned_reconnect].
  assert (Hp : p ∈ img C ∪ ∅) by (apply elem_of_union_l; by eapply elem_of_map_img_2).
  eapply triple_bind.
  { refine (steady_use p (MsDead p) _ _ C ∅ _ Hp). left. set_solver. }
  intros dead. destruct dead; cbn [negb].
  - intros w Hw. pose proof (own_drop C ∅ (λ _, False) h p HC w Hw) as H.
    unfold mbind, Eff_bind in *. simpl in *. refine (owned_reconnect (delete h C) _ _ _ H).
    + by rewrite lookup_delete_eq.
    + set_solver.
  - intros w Hw. by exists C.
Qed.

Lemma owned_poll {A} e (answer : MsLog → A) E :
  (∃ h, e = MsPoll h ∨ e = MsReset h) → triple (Owned S) (call lib e answer) (λ _, Owned S) E.
Proof.
  intros He w (C & HC & [Hc Ho Ha H1 Hm]). exists C. split; [done|]. constructor; try done. simpl.
  rewrite processes_snoc, Ho. by destruct He as [? [-> | ->]].
Qed.

Lemma owned_execute sql rowLimit E :
  triple (Owned S) (execute lib fuel db sql rowLimit) (λ _, Owned S) E.
Proof.
  unfold execute. eapply (triple_bind _ _ (λ _, Owned S)).
  - eapply triple_catch.
    + eapply triple_bind; [apply owned_ensureConn|]. intros p.
      eapply triple_weaken; [apply steady_connected, steady_execute|done| |].
      * intros r w. apply connected_owned.
      * intros w H. exact H.
    + by intros e w Hw.
  - intros r. eapply triple_bind; [apply owned_poll; eexists; by right|]. by intros [] w Hw.
Qed.

Lemma owned_rows sql : triple (Owned S) (rows lib fuel db sql) (λ _, Owned S) (Owned S).
Proof.
  eapply triple_bind; [apply owned_execute|]. intros r. by destruct (negb _); intros w Hw.
Qed.

Lemma owned_ret {A} (x : A) E : triple (Owned S) (mret x) (λ _, Owned S) E.
Proof. by intros w Hw. Qed.

Lemma owned_mapM {A B} (f : A → MsM B) l :
  (∀ x, triple (Owned S) (f x) (λ _, Owned S) (Owned S)) →
  triple (Owned S) (mapM f l) (λ _, Owned S) (Owned S).
Proof.
  intros Hf. induction l as [|x l IH]; [apply owned_ret|]. cbn [mapM].
  eapply triple_bind; [apply Hf|]. intros y. eapply triple_bind; [exact IH|]. intros ys. apply owned_ret.
Qed.

(** the catalog operations are queries *)
Ltac queries :=
  repeat first
    [ apply owned_ret | apply owned_rows | apply owned_mapM; intros ?
    | match goal with |- triple _ (match ?x with _ => _ end) _ _ => destruct x end
    | eapply (triple_bind _ _ (λ _, Owned S)); [|intros ?] ].

Lemma owned_tables : triple (Owned S) (tables lib fuel db) (λ _, Owned S) (Owned S).
Proof. unfold tables, forEachSchema, loadSchemaNames, loadTablesForSchema. queries. Qed.
Lemma owned_views : triple (Owned S) (views lib fuel db) (λ _, Owned S) (Owned S).
Proof. unfold views, forEachSchema, loadSchemaNames, loadViewsForSchema. queries. Qed.
Lemma owned_routines : triple (Owned S) (routines lib fuel db) (λ _, Owned S) (Owned S).
Proof. unfold routines, forEachSchema, loadSchemaNames, loadRoutinesForSchema. queries. Qed.
Lemma owned_describe tableName :
  triple (Owned S) (describeTable lib fuel db tableName) (λ _, Owned S) (Owned S).
Proof. unfold describeTable, describeTableInSchema. cbn zeta. queries. Qed.

Lemma owned_alive E : triple (Owned S) (alive lib db) (λ _, Owned S) E.
Proof.
  apply triple_exists. intros C w [HS Hw]. revert w Hw.
  change (triple (Own C ∅) (alive lib db) (λ _, Owned S) E). apply triple_get_conn.
  destruct (C !! h) as [p|] eqn:HC; [|intros w Hw; by exists C].
  eapply triple_bind.
  { refine (steady_use p (MsDead p) _ _ C ∅ _ _); [left; set_solver|].
    apply elem_of_union_l. by eapply elem_of_map_img_2. }
  intros dead w Hw. by exists C.
Qed.

(** the destructor leaves no process of the handle *)
Lemma owned_destroy E : triple (Owned S) (destroy lib db) (λ _, Owned (S ∖ {[h]})) E.
Proof.
  apply triple_exists. intros C w [HS Hw]. revert w Hw.
  change (triple (Own C ∅) (destroy lib db) (λ _, Owned (S ∖ {[h]})) E). apply triple_get_conn.
  destruct (C !! h) as [p|] eqn:HC.
  - eapply triple_weaken; [apply (own_drop C ∅ E h p HC)|done| |done].
    intros [] w Hw. exists (delete h C). split; [set_solver|done].
  - intros w Hw. exists C. split; [|done]. intros a Ha. apply elem_of_difference. split; [set_solver|].
    intros ->%elem_of_singleton. by apply not_elem_of_dom in HC.
Qed.
End handle.

Lemma owned_master S fuel info sql E :
  triple (Owned S) (execOnMaster lib fuel info sql) (λ _, Owned S) E.
Proof.
  apply triple_exists. intros C w [HS Hw]. revert w Hw.
  change (triple (Own C ∅) (execOnMaster lib fuel info sql) (λ _, Owned S) E).
  unfold execOnMaster. apply (triple_catch _ _ _ (Owned S)); [|by intros e w0 Hw0].
  eapply triple_bind.
  { eapply triple_weaken; [apply own_connect|done|intros p w Hw; exact Hw|].
    intros w Hw. by exists C. }
  intros p w0 [Hp Hw0]. revert w0 Hw0.
  match goal with |- ∀ w, Own C _ w → match ?m w with _ => _ end =>
    change (triple (Own C ({[p]} ∪ ∅)) m (λ _, Owned S) (Owned S)) end.
  eapply triple_bind; [apply own_heard|]. intros [].
  eapply triple_bind.
  { refine (steady_use p (MsSend p _) _ _ C _ _ _); [right; eexists; by right|set_solver]. }
  intros sent. eapply (triple_bind _ _ (λ _, Own C ({[p]} ∪ ∅))).
  - destruct sent; cbn [negb].
    + eapply triple_bind; [apply steady_drain; set_solver|]. intros [].
      eapply triple_bind; [apply own_heard|]. by intros [] w Hw.
    + eapply triple_bind; [apply own_last_error|]. by intros e w Hw.
  - intros status. eapply triple_bind; [apply own_close; set_solver|]. intros [] w Hw.
    exists C. split; [done|]. by replace (({[p]} ∪ ∅) ∖ {[p]}) with (∅ : gset nat) in Hw by set_solver.
Qed.
End processes.
