(* ===== verification/MssqlConnectionProps.v ===== *)
(** * The SQL Server backend: properties of the connection

    Whose the open processes are, whatever is done with a connection and its handles. *)

From S2P Require Import Prelude Types Effects ConnectionInfo DdlUtils Database Rows Mssql.
From S2P Require Import MssqlCatalog MssqlConnection MssqlResults MssqlProps.

(** ** Uses of a connection *)

(** an operation of a handle; of a schema's handle, [dropSchema] *)
Inductive ms_op :=
  | OpOpen | OpAlive | OpTables | OpViews | OpRoutines | OpSchemas
  | OpDescribe (tableName : string)
  | OpExecute (sql : string) (rowLimit : Z)
  | OpDropSchema (name : string).

Definition ignore {S A} (m : Eff S A) : Eff S unit := m ;; mret tt.

Definition run_op (lib : Dblib) (fuel : nat) (db : MsDatabase) (op : ms_op) : MsM unit :=
  match op with
  | OpOpen => openHandle lib db
  | OpAlive => ignore (alive lib db)
  | OpTables => ignore (tables lib fuel db)
  | OpViews => ignore (views lib fuel db)
  | OpRoutines => ignore (routines lib fuel db)
  | OpSchemas => ignore (schemas lib fuel db)
  | OpDescribe tableName => ignore (describeTable lib fuel db tableName)
  | OpExecute sql rowLimit => ignore (execute lib fuel db sql rowLimit)
  | OpDropSchema name => ignore (dropSchema lib fuel db name)
  end.

(** the handles that callers hold *)
Notation Held := (gmap nat MsDatabase).

Definition held_in (L : Held) (h : nat) : bool := bool_decide (is_Some (L !! h)).
Definition hold (db : MsDatabase) (L : Held) : Held := <[mdb_handle db := db]> L.
Definition handles_of (c : MsConnection) : gset nat := map_img (mdb_handle <$> mx_cache c).

(** what ends with an operation that returns or throws *)
Definition ends {A} (out : outcome A * MsConnection) (c' : MsConnection) : Prop :=
  snd out = c' ∧ fst out ≠ Hangs.

Inductive ms_step (lib : Dblib) (fuel : nat) : MsConnection * Held → MsConnection * Held → Prop :=
  | ms_open c c' L : ends (open lib c) c' → ms_step lib fuel (c, L) (c', L)
  | ms_close c c' L : ends (close lib (held_in L) c) c' → ms_step lib fuel (c, L) (c', L)
  | ms_database n c db c' L :
      database n c = (Done db, c') → ms_step lib fuel (c, L) (c', hold db L)
  | ms_openDatabase n c db c' L :
      openDatabase n c = (Done db, c') → ms_step lib fuel (c, L) (c', hold db L)
  | ms_databases c dbs c' L :
      databases lib fuel c = (Done dbs, c') → ms_step lib fuel (c, L) (c', foldr hold L dbs)
  | ms_no_databases c e c' L :
      databases lib fuel c = (Throws e, c') → ms_step lib fuel (c, L) (c', L)
  | ms_create opts c c' L :
      ends (createDatabase lib fuel opts c) c' → ms_step lib fuel (c, L) (c', L)
  | ms_drop n c c' L :
      ends (dropDatabase lib fuel (held_in L) n c) c' → ms_step lib fuel (c, L) (c', L)
  | ms_rename a b c c' L :
      ends (renameDatabase lib fuel (held_in L) a b c) c' → ms_step lib fuel (c, L) (c', L)
  | ms_run db op c c' L :
      L !! mdb_handle db = Some db → ends (on_world (run_op lib fuel db op) c) c' →
      ms_step lib fuel (c, L) (c', L)
  | ms_release db c c' L :      (* a caller drops a handle: the last owner destroys it *)
      L !! mdb_handle db = Some db →
      ends ((if decide (mdb_handle db ∈ handles_of c) then mret tt else on_world (destroy lib db)) c) c' →
      ms_step lib fuel (c, L) (c', delete (mdb_handle db) L).

(** ** Ownership *)

Section ownership.
Context (lib : Dblib) (fuel : nat).

Definition Kept (H : gset nat) (c : MsConnection) : Prop := Owned lib (H ∪ handles_of c) (mx_world c).

Lemma owned_mono S S' w : S ⊆ S' → Owned lib S w → Owned lib S' w.
Proof. intros HS (C & HC & Hw). exists C. split; [set_solver|done]. Qed.

Lemma kept_mono H H' c : H ⊆ H' → Kept H c → Kept H' c.
Proof. intros HH. apply owned_mono. set_solver. Qed.

Lemma elem_of_handles c h : h ∈ handles_of c ↔ ∃ n db, mx_cache c !! n = Some db ∧ mdb_handle db = h.
Proof.
  unfold handles_of. rewrite elem_of_map_img. setoid_rewrite lookup_fmap_Some. naive_solver.
Qed.

Lemma kept_world {A} H S (m : MsM A) (E : MsConnection → Prop) :
  triple (Owned lib S) m (λ _, Owned lib S) (Owned lib S) →
  triple (λ c, S = H ∪ handles_of c ∧ Kept H c) (on_world m) (λ _, Kept H) (Kept H).
Proof.
  intros Hm c [-> Hc]. specialize (Hm _ Hc). unfold on_world. by destruct (m (mx_world c)) as [[x|e|] w].
Qed.

(** an operation that works with whatever handles there are *)
Lemma kept_any {A} H (m : MsM A) :
  (∀ S, triple (Owned lib S) m (λ _, Owned lib S) (Owned lib S)) →
  triple (Kept H) (on_world m) (λ _, Kept H) (Kept H).
Proof. intros Hm c Hc. by apply (kept_world H (H ∪ handles_of c) m (λ _, False)). Qed.

(** an operation of a handle that someone owns *)
Lemma kept_handle {A} H db (m : MsM A) :
  (∀ S, mdb_handle db ∈ S → triple (Owned lib S) m (λ _, Owned lib S) (Owned lib S)) →
  triple (λ c, mdb_handle db ∈ H ∪ handles_of c ∧ Kept H c) (on_world m) (λ _, Kept H) (Kept H).
Proof. intros Hm c [Hdb Hc]. by apply (kept_world H (H ∪ handles_of c) m (λ _, False)); [apply Hm|]. Qed.

Lemma kept_database H n E :
  triple (Kept H) (database n) (λ db c, mdb_handle db ∈ handles_of c ∧ Kept H c) E.
Proof.
  intros c Hc. unfold database, get_info, get_cached, mbind, Eff_bind.
  set (n' := or_default n (mx_info c)). destruct (mx_cache c !! n') as [db|] eqn:E1; simpl.
  - split; [|done]. apply elem_of_handles. eauto.
  - split.
    + apply elem_of_handles. eexists n', _. simpl. by rewrite lookup_insert_eq.
    + revert Hc. apply owned_mono. intros h [Hh|(a & db & Ha & Hh)%elem_of_handles]%elem_of_union.
      * by apply elem_of_union_l.
      * apply elem_of_union_r, elem_of_handles. exists a, db. simpl. rewrite lookup_insert_ne; [done|].
        intros <-. congruence.
Qed.

Lemma kept_same {A} H (m : MsC A) E :
  (∀ c, mx_cache (snd (m c)) = mx_cache c ∧ mx_world (snd (m c)) = mx_world c) →
  (∀ c, ∃ x, fst (m c) = Done x) → triple (Kept H) m (λ _, Kept H) E.
Proof.
  intros Hm Hd c Hc. destruct (Hm c) as [H1 H2], (Hd c) as [x Hx].
  destruct (m c) as [o c']. simpl in *. subst o. unfold Kept, handles_of in *. by rewrite H1, H2.
Qed.

(** the cache gives up its share of a handle *)
Lemma kept_disown H held db E :
  (∀ h, held h = true → h ∈ H) →
  triple (Kept ({[mdb_handle db]} ∪ H)) (disown lib held db) (λ _, Kept H) E.
Proof.
  intros Hheld c Hc. unfold disown. destruct (held (mdb_handle db)) eqn:Eh.
  { revert Hc. apply kept_mono. specialize (Hheld _ Eh). set_solver. }
  unfold on_world, Kept in *.
  assert (Hin : mdb_handle db ∈ {[mdb_handle db]} ∪ H ∪ handles_of c) by set_solver.
  pose proof (owned_destroy lib db _ Hin (λ _, False) _ Hc) as Hd.
  destruct (destroy lib db (mx_world c)) as [[x|e|] w]; [|done..]. simpl in *.
  revert Hd. apply owned_mono. set_solver.
Qed.

Lemma kept_disown_all H held dbs E :
  (∀ h, held h = true → h ∈ H) →
  triple (Kept (list_to_set (map mdb_handle dbs) ∪ H)) (mapM (disown lib held) dbs) (λ _, Kept H) E.
Proof.
  intros Hheld. induction dbs as [|db dbs IH]; cbn [mapM map list_to_set].
  { intros c. apply kept_mono. set_solver. }
  eapply triple_bind; [|intros x; eapply triple_bind; [exact IH|by intros y c Hc]].
  intros c Hc. apply (kept_disown (list_to_set (map mdb_handle dbs) ∪ H)).
  - intros h Hh. specialize (Hheld h Hh). set_solver.
  - revert Hc. apply kept_mono. set_solver.
Qed.

Lemma kept_forget H held n E :
  (∀ h, held h = true → h ∈ H) → triple (Kept H) (forget lib held n) (λ _, Kept H) E.
Proof.
  intros Hheld c Hc. unfold forget, get_cached, set_cache, mbind, Eff_bind.
  set (c1 := mkMsConnection _ _ _ _ _).
  assert (Hone : ∀ h, h ∈ handles_of c → h ∈ handles_of c1 ∨
            ∃ db, mx_cache c !! n = Some db ∧ h = mdb_handle db).
  { intros h (a & db & Ha & Hh)%elem_of_handles. destruct (decide (a = n)) as [->|]; [right; eauto|].
    left. apply elem_of_handles. exists a, db. simpl. by rewrite lookup_delete_ne. }
  unfold Kept in Hc. destruct (mx_cache c !! n) as [db|] eqn:Edb; simpl.
  - apply (kept_disown H held db E Hheld c1). unfold Kept. revert Hc. apply owned_mono.
    intros h [|[?|(? & ? & ->)]%Hone]%elem_of_union; simplify_eq; set_solver.
  - revert Hc. apply owned_mono. intros h [|[?|(? & ? & ->)]%Hone]%elem_of_union; simplify_eq; set_solver.
Qed.

Lemma kept_close H held E :
  (∀ h, held h = true → h ∈ H) → triple (Kept H) (close lib held) (λ _, Kept H) E.
Proof.
  intros Hheld. unfold close. eapply (triple_bind _ _ (λ dbs c, Kept H c ∧ dbs = map snd (map_to_list (mx_cache c)))).
  { by intros c Hc. }
  intros dbs. eapply (triple_bind _ _ (λ _, Kept (list_to_set (map mdb_handle dbs) ∪ H))).
  - intros c [Hc ->]. simpl. revert Hc. apply owned_mono.
    intros h [Hh|(a & db & Ha & Hh)%elem_of_handles]%elem_of_union; [set_solver|].
    apply elem_of_union_l, elem_of_union_l, elem_of_list_to_set. rewrite <-Hh.
    apply (list_elem_of_fmap_2 mdb_handle). apply (list_elem_of_fmap_2 snd _ (a, db)).
    by apply elem_of_map_to_list.
  - intros []. eapply triple_bind; [by apply kept_disown_all|]. intros x. apply kept_same; [done|eauto].
Qed.

Lemma kept_master H sql E : triple (Kept H) (exec_on_master lib fuel sql) (λ _, Kept H) E.
Proof.
  intros c Hc. unfold exec_on_master, get_info, on_world, mbind, Eff_bind.
  pose proof (owned_master lib _ fuel (mx_info c) sql (λ _, False) _ Hc) as Hm.
  by destruct (execOnMaster lib fuel (mx_info c) sql (mx_world c)) as [[x|e|] w].
Qed.

Lemma kept_open H E : triple (Kept H) (open lib) (λ _, Kept H) E.
Proof.
  unfold open. apply (triple_catch _ _ _ (Kept H)).
  - eapply triple_bind; [apply kept_database|]. intros db.
    eapply triple_bind.
    { eapply triple_weaken; [apply (kept_handle H db)| | |]; [|intros c [? ?]; split; [set_solver|done]|done|done].
      intros S HS. eapply triple_bind; [by apply owned_ensureConn|].
      intros p w. apply connected_owned. }
    intros []. eapply triple_bind; [apply kept_same; [done|eauto]|]. by intros [] c Hc.
  - intros e. eapply triple_bind; [apply kept_same; [done|eauto]|]. by intros [] c Hc.
Qed.

Lemma kept_databases H : triple (Kept H) (databases lib fuel) (λ _, Kept H) (Kept H).
Proof.
  unfold databases. eapply triple_bind; [apply kept_database|]. intros db.
  eapply triple_bind.
  { eapply triple_weaken; [apply (kept_handle H db)| | |]; [|intros c [? ?]; split; [set_solver|done]|done|done].
    intros S HS. by apply owned_rows. }
  intros rows. induction (first_cells rows) as [|n names IH]; [by intros c Hc|]. cbn [mapM].
  eapply triple_bind; [apply kept_database|]. intros d.
  eapply (triple_bind _ _ (λ _, Kept H)); [|intros ds; by intros c Hc].
  eapply triple_weaken; [exact IH|by intros c []|done|done].
Qed.

Lemma kept_create H opts E : triple (Kept H) (createDatabase lib fuel opts) (λ _, Kept H) E.
Proof. unfold createDatabase. destruct (sempty _); [by intros c Hc|apply kept_master]. Qed.

Lemma kept_drop H held n E :
  (∀ h, held h = true → h ∈ H) → triple (Kept H) (dropDatabase lib fuel held n) (λ _, Kept H) E.
Proof.
  intros Hheld. unfold dropDatabase. destruct (sempty n); [by intros c Hc|].
  eapply triple_bind; [by apply kept_forget|]. intros [].
  eapply triple_bind; [apply kept_master|]. intros [ok message]. cbn [fst].
  eapply (triple_bind _ _ (λ _, Kept H)); [|by intros [] c Hc].
  destruct ok; [|by intros c Hc]. eapply (triple_bind _ _ (λ _, Kept H)); [by intros c Hc|].
  intros info. destruct (_ =? _)%string; [apply kept_same; [done|eauto]|by intros c Hc].
Qed.

Lemma kept_rename H held a b E :
  (∀ h, held h = true → h ∈ H) → triple (Kept H) (renameDatabase lib fuel held a b) (λ _, Kept H) E.
Proof. intros Hheld. eapply triple_bind; [by apply kept_forget|]. intros []. apply kept_master. Qed.

Lemma owned_op db op S :
  mdb_handle db ∈ S → triple (Owned lib S) (run_op lib fuel db op) (λ _, Owned lib S) (Owned lib S).
Proof.
  intros HS. assert (Hret : ∀ A (m : MsM A), triple (Owned lib S) m (λ _, Owned lib S) (Owned lib S) →
    triple (Owned lib S) (ignore m) (λ _, Owned lib S) (Owned lib S)).
  { intros A m Hm. eapply triple_bind; [exact Hm|]. by intros x w Hw. }
  destruct op; cbn [run_op].
  - eapply triple_bind; [by apply owned_ensureConn|]. intros p w. apply connected_owned.
  - by apply Hret, owned_alive.
  - by apply Hret, owned_tables.
  - by apply Hret, owned_views.
  - by apply Hret, owned_routines.
  - apply Hret. eapply triple_bind; [by apply owned_rows|]. by intros rows w Hw.
  - by apply Hret, owned_describe.
  - by apply Hret, owned_execute.
  - apply Hret. eapply triple_bind; [by apply owned_execute|]. by intros r w Hw.
Qed.

Lemma triple_ends {A} (P Q : MsConnection → Prop) (m : MsC A) c c' :
  triple P m (λ _, Q) Q → P c → ends (m c) c' → Q c'.
Proof. intros Hm Hc [<- Ho]. specialize (Hm c Hc). by destruct (m c) as [[x|e|] d]. Qed.

Lemma dom_hold db L : dom (hold db L) = {[mdb_handle db]} ∪ dom L.
Proof. unfold hold. set_solver. Qed.

Lemma held_in_dom L h : held_in L h = true → h ∈ dom L.
Proof. unfold held_in. intros Hh%bool_decide_eq_true. by apply elem_of_dom. Qed.

Lemma kept_ends {A} H (m : MsC A) c c' :
  triple (Kept H) m (λ _, Kept H) (Kept H) → ends (m c) c' → Kept H c → Kept H c'.
Proof. intros Hm He Hc. by eapply triple_ends. Qed.

Lemma step_kept st st' :
  ms_step lib fuel st st' → Kept (dom (snd st)) (fst st) → Kept (dom (snd st')) (fst st').
Proof.
  intros Hstep. pose proof held_in_dom as Hheld.
  destruct Hstep as [c c' L He|c c' L He|n c db c' L Hn|n c db c' L Hn|c dbs c' L Hn|c e c' L Hn|
    opts c c' L He|n c c' L He|a b c c' L He|db op c c' L HL He|db c c' L HL He]; cbn [fst snd].
  - by eapply kept_ends; [apply kept_open|].
  - by eapply kept_ends; [apply kept_close, Hheld|].
  - intros Hc. pose proof (kept_database (dom L) n (λ _, False) c Hc) as H. rewrite Hn in H.
    rewrite dom_hold. eapply kept_mono; [|apply H]. set_solver.
  - unfold openDatabase, get_info, make_handle, mbind, Eff_bind in Hn. simplify_eq. intros Hc.
    rewrite dom_hold. apply (kept_mono (dom L)); [set_solver|]. exact Hc.
  - intros Hc. pose proof (kept_databases (dom L) c Hc) as H. rewrite Hn in H. revert H.
    apply kept_mono. clear Hn. induction dbs as [|db dbs IH]; [done|]. cbn [foldr].
    rewrite dom_hold. set_solver.
  - intros Hc. pose proof (kept_databases (dom L) c Hc) as H. by rewrite Hn in H.
  - by eapply kept_ends; [apply kept_create|].
  - by eapply kept_ends; [apply kept_drop, Hheld|].
  - by eapply kept_ends; [apply kept_rename, Hheld|].
  - assert (Hdb : mdb_handle db ∈ dom L) by (apply elem_of_dom; by eexists).
    intros Hc. destruct He as [<- Ho]. revert Ho.
    pose proof (kept_handle (dom L) db (run_op lib fuel db op) (owned_op db op) c) as H.
    assert (Hin : mdb_handle db ∈ dom L ∪ handles_of c) by set_solver.
    specialize (H (conj Hin Hc)). by destruct (on_world _ c) as [[x|e|] d].
  - assert (Hdb : mdb_handle db ∈ dom L) by (apply elem_of_dom; by eexists).
    intros Hc. destruct He as [<- Ho]. rewrite dom_delete_L. revert Ho.
    destruct (decide (mdb_handle db ∈ handles_of c)) as [Hin|Hout].
    + intros _. revert Hc. apply owned_mono. intros a Ha.
      destruct (decide (a = mdb_handle db)) as [->|]; [by apply elem_of_union_r|]. set_solver.
    + assert (Hh : mdb_handle db ∈ dom L ∪ handles_of c) by set_solver.
      pose proof (owned_destroy lib db _ Hh (λ _, False) _ Hc) as Hd. unfold on_world.
      destruct (destroy lib db (mx_world c)) as [[x|e|] w]; [|done..]. intros _. revert Hd.
      apply owned_mono. unfold handles_of in *. simpl. set_solver.
Qed.
End ownership.

(** C17: Ownership of db-lib processes.  After any uses of a connection, of the handles it gives
    out and of their destructors, no process was ever used after it was closed nor closed twice;
    and the processes that are open are those of handles that a caller or the cache still owns,
    one each: none is shared, and none is left open, the temporary ones of the administration
    and of failed logins included. *)
Theorem mssql_processes lib fuel info c L :
  rtc (ms_step lib fuel) (new_connection info, ∅) (c, L) →
  let conns := mw_conns (mx_world c) in
  ∃ open, processes lib (mw_log (mx_world c)) = Some open ∧
  (∀ p, p ∈ open ↔ ∃ h, conns !! h = Some p) ∧
  (∀ h h' p, conns !! h = Some p → conns !! h' = Some p → h = h') ∧
  ∀ h p, conns !! h = Some p → is_Some (L !! h) ∨ ∃ n db, mx_cache c !! n = Some db ∧ mdb_handle db = h.
Proof.
  intros Hsteps.
  assert (HK : Kept lib (dom L) c).
  { change (Kept lib (dom (snd (c, L))) (fst (c, L))). revert Hsteps. generalize (c, L).
    apply rtc_ind_r; [|intros st st' _; apply step_kept].
    exists ∅. split; [set_solver|]. constructor; done. }
  destruct HK as (C & HC & [<- Ho _ H1 _]). rewrite union_empty_r_L in Ho.
  exists (map_img (mw_conns (mx_world c))).
  split_and!; [done| |done|].
  - intros p. apply elem_of_map_img.
  - intros h p Hh. apply elem_of_dom_2, HC, elem_of_union in Hh as [Hh|Hh].
    + left. by apply elem_of_dom.
    + right. by apply elem_of_handles.
Qed.

(** ** A sample connection *)

Definition ms_connected : MsConnection :=
  snd (database "" (new_connection ms_info)).
Definition ms_queried : MsConnection :=
  snd (on_world (run_op sample_dblib 3 ms_handle (OpExecute "SELECT 7 AS n" 0)) ms_connected).

Lemma mssql_processes_witness :
  mw_conns (mx_world ms_queried) !! 0 = Some 0 ∧
  ∃ open, processes sample_dblib (mw_log (mx_world ms_queried)) = Some open ∧
    ∀ p, p ∈ open ↔ ∃ h, mw_conns (mx_world ms_queried) !! h = Some p.
Proof.
  split; [vm_compute; reflexivity|].
  destruct (mssql_processes sample_dblib 3 ms_info ms_queried {[0 := ms_handle]}) as (open & Ho & Hp & _).
  - eapply rtc_l; [apply (ms_database _ _ "" _ ms_handle ms_connected); vm_compute; reflexivity|].
    apply rtc_once. eapply (ms_run _ _ ms_handle (OpExecute "SELECT 7 AS n" 0)).
    + vm_compute. reflexivity.
    + split; [reflexivity|]. vm_compute. discriminate.
  - exact (ex_intro _ open (conj Ho Hp)).
Defined.
