(* ===== verification/MySql.v ===== *)
(** * The MySQL backend: sessions and results

    [src/mysql_connection.cpp] and [include/dearsql/backends/mysql_connection.hpp]: the
    options of a connection, the conversion of results, batches of statements ([execute]) and
    the reading of catalog queries.

    The client library and the server behind it are the parameter [Libmysql].  Every call of
    the library that reaches a session is an event, and the library answers from the events so
    far, the call included.  A [MySQLDatabase] is the state [MySession]; its operations give a
    value, or nothing when a loop over the results of a query did not end within the fuel. *)

From S2P Require Import Prelude Types Effects ConnectionInfo Database.

(** ** Names and literals *)

Definition quoteIdent (s : string) : string := "`" +:+ double_char "`" s +:+ "`".

Fixpoint escapeLiteral (s : string) : string :=
  match s with
  | EmptyString => EmptyString
  | String c r =>
      (if (c =? squote)%char then "''"
       else if (c =? "\")%char then "\\"
       else str1 c) +:+ escapeLiteral r
  end.

(** ** The client library *)

(** what [mysql_options] and [mysql_real_connect] are given *)
Record MyOptions := mkMyOptions {
  mo_connectTimeout : Z;
  mo_ioTimeout : option Z;
  mo_tcp : bool;
  mo_sslCA : option string;
  mo_enforce : bool;
  mo_verify : bool;
  mo_host : string;
  mo_user : string;
  mo_password : string;
  mo_db : option string;
  mo_port : Z;
  mo_multiStatements : bool
}.

Inductive my_event :=
  | MyConnect (options : MyOptions)     (* [mysql_real_connect] *)
  | MyCharset (name : string)           (* [mysql_set_character_set] *)
  | MyPing                              (* [mysql_ping] *)
  | MyQuery (sql : string)              (* [mysql_query], [mysql_real_query] *)
  | MyStore                             (* [mysql_store_result] *)
  | MyNext.                             (* [mysql_next_result] *)

Record MyField := mkMyField { mf_name : string; mf_type : Z; mf_length : Z }.

(** a [MYSQL_RES]: nothing for a null *)
Record MyRes := mkMyRes {
  mr_fields : list MyField;
  mr_rows : list (list (option string))
}.

(** [mysql_next_result]: 0, -1 or an error *)
Inductive NextResult := NextOk | NoMore | NextFails.

Record Libmysql := mkLibmysql {
  (** [mysql_init] gives a handle *)
  my_init : bool;
  my_connects : list my_event → bool;
  my_thread_id : list my_event → Z;
  my_pings : list my_event → bool;
  my_query_ok : list my_event → bool;
  my_result : list my_event → option MyRes;
  my_field_count : list my_event → Z;
  my_affected_rows : list my_event → Z;
  my_next : list my_event → NextResult;
  my_error : list my_event → string
}.

(** ** Sessions *)

(** [conn_] is null without events *)
Record MySession := mkMySession {
  my_events : list my_event;
  my_conn : bool;
  my_threadId : Z
}.

Definition new_session : MySession := mkMySession [] false 0.

Notation MyM := (Op MySession).

Definition push_event (e : my_event) (s : MySession) : MySession :=
  mkMySession (my_events s ++ [e]) (my_conn s) (my_threadId s).

(** ** Connecting *)

Definition shouldApplySslCA (info : ConnectionInfo) : bool :=
  if sempty (ci_sslCACertPath info) then false
  else match ci_sslmode info with VerifyCA | VerifyFull | VerifyIdentity => true | _ => false end.

(** [MYSQL_OPT_SSL_ENFORCE] and [MYSQL_OPT_SSL_VERIFY_SERVER_CERT] *)
Definition ssl_options (mode : SslMode) : bool * bool :=
  match mode with
  | Disable => (false, false)
  | Require_ => (true, false)
  | VerifyCA | VerifyFull | VerifyIdentity => (true, true)
  | _ => (false, false)
  end.

Definition connect_options (info : ConnectionInfo) (dbName : string) (ioTimeoutSeconds : Z)
    : MyOptions :=
  let '(enforce, verify) := ssl_options (ci_sslmode info) in
  mkMyOptions 5 (if (0 <? ioTimeoutSeconds)%Z then Some ioTimeoutSeconds else None) true
    (if shouldApplySslCA info then Some (c_str (ci_sslCACertPath info)) else None)
    enforce verify (c_str (ci_host info)) (c_str (ci_username info)) (c_str (ci_password info))
    (if sempty dbName then None else Some (c_str dbName))
    (ci_port info `mod` 2 ^ 32)%Z true.

Section library.
Context (lib : Libmysql).

(** the thrown error, or the events of the new handle *)
Definition openMysql (info : ConnectionInfo) (dbName : string) (ioTimeoutSeconds : Z)
    : string + list my_event :=
  if negb (my_init lib) then inl "mysql_init failed"
  else
    let h := [MyConnect (connect_options info dbName ioTimeoutSeconds)] in
    if negb (my_connects lib h) then inl ("MySQL connection failed: " +:+ my_error lib h)
    else inr (h ++ [MyCharset "utf8mb4"]).

(** ** Calls on a session *)

Definition observe {A} (answer : list my_event → A) : MyM A := λ s, (Some (answer (my_events s)), s).
Definition call {A} (e : my_event) (answer : list my_event → A) : MyM A := λ s,
  (Some (answer (my_events s ++ [e])), push_event e s).

Definition mysql_ping : MyM bool := call MyPing (my_pings lib).
(** a length is given: the whole text *)
Definition mysql_real_query (sql : string) : MyM bool := call (MyQuery sql) (my_query_ok lib).
Definition mysql_query (sql : string) : MyM bool := mysql_real_query (c_str sql).
Definition mysql_store_result : MyM (option MyRes) := call MyStore (my_result lib).
Definition mysql_next_result : MyM NextResult := call MyNext (my_next lib).
Definition mysql_error : MyM string := observe (my_error lib).

(** ** Results *)

Definition MYSQL_TYPE_TINY : Z := 1.

Definition isBoolCol (f : MyField) : bool :=
  (mf_type f =? MYSQL_TYPE_TINY)%Z && (mf_length f =? 1)%Z.

Definition my_cell (f : MyField) (value : option string) : string :=
  match value with
  | None => NULL_SENTINEL
  | Some v =>
      if isBoolCol f then if head_is "1" v then BOOL_TRUE_SENTINEL else BOOL_FALSE_SENTINEL
      else v
  end.

Definition my_row (fields : list MyField) (row : list (option string)) : list string :=
  imap (λ i f, my_cell f (mjoin (row !! i))) fields.

Definition rows_message (kept total rowLimit : Z) : string :=
  "Returned " +:+ to_string kept +:+ " row" +:+ (if (kept =? 1)%Z then "" else "s") +:+
  (if (0 <? rowLimit)%Z && (rowLimit <=? total)%Z && (rowLimit <? to_int total)%Z
   then " (limited to " +:+ to_string rowLimit +:+ ")" else "").

Definition rows_result (res : MyRes) (rowLimit : Z) : StatementResult :=
  let rows := map (my_row (mr_fields res))
                (if (0 <? rowLimit)%Z then take (Z.to_nat rowLimit) (mr_rows res)
                 else mr_rows res) in
  mkStatementResult true "" (map mf_name (mr_fields res)) rows 0
    (rows_message (Z.of_nat (length rows)) (Z.of_nat (length (mr_rows res))) rowLimit).

(** [affected] is a [my_ulonglong]; its largest value stands for no count *)
Definition affected_result (affected : Z) : StatementResult :=
  if negb (affected =? 2 ^ 64 - 1)%Z then
    mkStatementResult true "" [] [] (to_int affected) (to_string affected +:+ " row(s) affected")
  else mkStatementResult true "" [] [] 0 "Query executed successfully".

Definition extractMysqlResult (rowLimit : Z) : MyM StatementResult :=
  res ← mysql_store_result;
  match res with
  | Some res => mret (rows_result res rowLimit)
  | None =>
      count ← observe (my_field_count lib);
      if (count =? 0)%Z then
        affected ← observe (my_affected_rows lib);
        mret (affected_result affected)
      else
        error ← mysql_error;
        mret (failure error)
  end.

(** ** A database handle *)

Context (info : ConnectionInfo) (name : string) (fuel : nat).

(** the error, when it throws *)
Definition ensureConn : MyM (option string) := λ s,
  if my_conn s then (Some None, s)
  else
    match openMysql info name 0 with
    | inl err => (Some (Some err), s)
    | inr events => (Some None, mkMySession events true (my_thread_id lib events))
    end.

Definition openHandle : MyM Status :=
  error ← ensureConn;
  mret (match error with None => (true, "") | Some e => (false, e) end).

Definition isConnected : MyM bool := λ s, (Some (my_conn s), s).

Definition ping : MyM bool :=
  connected ← isConnected;
  if negb connected then mret false else mysql_ping.

Definition alive : MyM bool :=
  connected ← isConnected;
  if negb connected then mret true else ping.

(** the events of the throwaway connection; the handle itself is not read but for [threadId_] *)
Definition cancel (s : MySession) : list my_event :=
  if (my_threadId s =? 0)%Z then []
  else
    match openMysql info "" 5 with
    | inl _ => []
    | inr events => events ++ [MyQuery ("KILL QUERY " +:+ to_string (my_threadId s))]
    end.

(** a result is kept unless it failed without a message *)
Definition keep_result (statements : list StatementResult) (r : StatementResult)
    : list StatementResult :=
  if sr_success r || negb (sempty (sr_errorMessage r)) then statements ++ [r] else statements.

(** [do { ... } while (next == 0)] and what follows *)
Fixpoint batch_loop (fuel : nat) (rowLimit : Z) (statements : list StatementResult)
    : MyM (list StatementResult) :=
  match fuel with
  | 0 => never_ends
  | S fuel =>
      r ← extractMysqlResult rowLimit;
      let statements := keep_result statements r in
      next ← mysql_next_result;
      match next with
      | NextOk => batch_loop fuel rowLimit statements
      | NoMore => mret statements
      | NextFails =>
          error ← mysql_error;
          mret (statements ++ [failure error])
      end
  end.

Definition execute (sql : string) (rowLimit : Z) : MyM QueryResult :=
  error ← ensureConn;
  match error with
  | Some e => mret (one_failure e)
  | None =>
      mysql_ping ;;
      ok ← mysql_real_query sql;
      if negb ok then
        error ← mysql_error;
        mret (one_failure error)
      else
        statements ← batch_loop fuel rowLimit [];
        mret (mkQueryResult statements [])
  end.

Definition status_of (sql : string) : MyM Status :=
  r ← execute sql 0;
  mret (toStatus r).

(** ** Reading one result *)

(** [while (mysql_next_result(conn) == 0)] *)
Fixpoint drain (fuel : nat) : MyM unit :=
  match fuel with
  | 0 => never_ends
  | S fuel =>
      next ← mysql_next_result;
      match next with
      | NextOk => mysql_store_result ;; drain fuel
      | _ => mret tt
      end
  end.
Definition drainExtraResults : MyM unit := drain fuel.

(** the rows of the first result, if any; the other results are dropped *)
Definition select (sql : string) : MyM (list (list (option string))) :=
  ok ← mysql_query sql;
  rows ← (if ok : bool then
            res ← mysql_store_result;
            mret (match res with Some res => mr_rows res | None => [] end)
          else mret []);
  drainExtraResults ;;
  mret rows.

(** nothing is asked without a connection: [otherwise] is returned *)
Definition when_connected {A} (otherwise : A) (m : MyM A) : MyM A :=
  error ← ensureConn;
  match error with Some _ => mret otherwise | None => m end.
End library.
