(* ===== verification/MySqlCatalog.v ===== *)
(** * The MySQL backend: the catalog and the operations on tables

    [src/mysql_connection.cpp]: the catalog queries of a [MySQLDatabase] and what their rows
    become, the reading of rows, and the statements that change tables.  The queries are the
    source's texts; their errors are not reported: a query that fails gives no rows. *)

From S2P Require Import Prelude Types Effects ConnectionInfo Database MySql.

(** a row of a [MYSQL_RES] *)
Notation row := (list (option string)) (only parsing).

(** [row[i] ? row[i] : ""] *)
Definition text (row : row) (i : nat) : string :=
  match mjoin (row !! i) with Some v => c_str v | None => "" end.

(** ** The queries *)

Definition names_sql (kind : string) : string :=
  "SHOW FULL TABLES WHERE Table_type = '" +:+ kind +:+ "'".

Definition describe_sql (tableName : string) : string := "DESCRIBE " +:+ quoteIdent tableName.

Definition foreign_keys_sql (name tableName : string) : string :=
  "SELECT COLUMN_NAME, REFERENCED_TABLE_NAME, REFERENCED_COLUMN_NAME, " +:+
  "CONSTRAINT_NAME " +:+
  "FROM INFORMATION_SCHEMA.KEY_COLUMN_USAGE " +:+
  "WHERE TABLE_SCHEMA = '" +:+ escapeLiteral name +:+ "' AND TABLE_NAME = '" +:+
  escapeLiteral tableName +:+ "' " +:+
  "AND REFERENCED_TABLE_NAME IS NOT NULL".

Definition routines_sql (name : string) : string :=
  "SELECT ROUTINE_NAME, " +:+
  "CONCAT(ROUTINE_NAME, '(', IFNULL(" +:+
  "(SELECT GROUP_CONCAT(PARAMETER_NAME, ' ', DATA_TYPE ORDER BY ORDINAL_POSITION) " +:+
  "FROM information_schema.PARAMETERS p " +:+
  "WHERE p.SPECIFIC_SCHEMA = r.ROUTINE_SCHEMA " +:+
  "AND p.SPECIFIC_NAME = r.ROUTINE_NAME " +:+
  "AND p.PARAMETER_MODE IS NOT NULL), ''), ')') AS signature, " +:+
  "ROUTINE_TYPE, " +:+
  "DTD_IDENTIFIER " +:+
  "FROM information_schema.ROUTINES r " +:+
  "WHERE ROUTINE_SCHEMA = '" +:+ escapeLiteral name +:+ "' " +:+
  "ORDER BY ROUTINE_TYPE, ROUTINE_NAME".

Definition unique_sql (tableName : string) : string :=
  "SHOW INDEX FROM " +:+ quoteIdent tableName +:+ " WHERE Non_unique = 0".

Definition indexes_sql (tableName : string) : string :=
  "SHOW INDEX FROM " +:+ quoteIdent tableName +:+ " WHERE Key_name != 'PRIMARY'".

Definition rename_sql (oldName newName : string) : string :=
  "RENAME TABLE " +:+ quoteIdent oldName +:+ " TO " +:+ quoteIdent newName.

Definition drop_table_sql (tableName : string) : string := "DROP TABLE " +:+ quoteIdent tableName.

Definition truncate_sql (tableName : string) : string := "TRUNCATE TABLE " +:+ quoteIdent tableName.

Definition drop_column_sql (tableName columnName : string) : string :=
  "ALTER TABLE " +:+ quoteIdent tableName +:+ " DROP COLUMN " +:+ quoteIdent columnName.

Definition drop_view_sql (viewName : string) : string := "DROP VIEW " +:+ quoteIdent viewName.

(** ** Rows into tables *)

(** a row of [names_sql] *)
Definition listed_name (row : row) : option string := c_str <$> mjoin (row !! 0).

(** a row of [DESCRIBE]: name, type, null, key, default, extra *)
Definition table_column (row : row) : Column :=
  mkColumn (text row 0) (text row 1) (text row 4) "" (text row 3 =? "PRI")%string
    (text row 2 =? "NO")%string false (contains "auto_increment" (text row 5)).

Definition view_column (row : row) : Column :=
  mkColumn (text row 0) (text row 1) "" "" false (text row 2 =? "NO")%string false false.

Definition foreign_key (row : row) : ForeignKey :=
  mkForeignKey (text row 3) (text row 0) (text row 1) (text row 2) "" "".

Definition routine (row : row) : Routine :=
  mkRoutine (text row 0) (text row 1)
    (if (text row 2 =? "PROCEDURE")%string then RoutineProcedure else RoutineFunction) (text row 3).

(** the columns of each unique index: [std::map<std::string, std::vector<std::string>>] *)
Definition unique_step (m : list (string * list string)) (row : row) : list (string * list string) :=
  let indexName := text row 2 in
  let columnName := text row 4 in
  if negb (sempty indexName) && negb (sempty columnName)
  then map_at indexName [] (λ cols, cols ++ [columnName]) m else m.

Definition unique_alone (column : string) (index : string * list string) : bool :=
  let '(idxName, cols) := index in
  match cols with
  | [c] => (c =? column)%string && negb (idxName =? "PRIMARY")%string
  | _ => false
  end.

Definition mark_unique (uniqueIndexCols : list (string * list string)) (c : Column) : Column :=
  mkColumn (col_name c) (col_type c) (col_defaultValue c) (col_comment c) (col_isPrimaryKey c)
    (col_isNotNull c) (existsb (unique_alone (col_name c)) uniqueIndexCols || col_isUnique c)
    (col_isAutoIncrement c).

Definition add_column (column : string) (i : Index) : Index :=
  mkIndex (idx_name i) (idx_columns i ++ [column]) (idx_isUnique i) (idx_isPrimary i) (idx_type i).

Definition nonUnique (row : row) : Z :=
  match mjoin (row !! 1) with Some v => atoi (c_str v) | None => 1%Z end.

(** one row per index column: [indexMap] *)
Definition index_step (m : list (string * Index)) (row : row) : list (string * Index) :=
  let indexName := text row 2 in
  map_at indexName (mkIndex indexName [] (nonUnique row =? 0)%Z false "") (add_column (text row 4)) m.

(** ** Reading the catalog *)

Section database.
Context (lib : Libmysql) (info : ConnectionInfo) (name : string) (fuel : nat).
Notation select := (select lib fuel).
Notation when_connected := (when_connected lib info name).
Notation status_of := (status_of lib info name fuel).

Definition full_name (tableName : string) : string :=
  ci_name info +:+ "." +:+ name +:+ "." +:+ tableName.

Definition named (tableName : string) (columns : list Column) (indexes : list Index)
    (foreignKeys : list ForeignKey) : Table :=
  mkTable tableName name "" "" (full_name tableName) columns indexes foreignKeys [] (-1)%Z.

Definition relation_names (kind : string) : MyM (list string) :=
  rows ← select (names_sql kind);
  mret (omap listed_name rows).

Definition read_table (tableName : string) : MyM Table :=
  column_rows ← select (describe_sql tableName);
  fk_rows ← select (foreign_keys_sql name tableName);
  mret (named tableName (map table_column column_rows) [] (map foreign_key fk_rows)).

Definition tables : MyM (list Table) :=
  when_connected [] (
    tableNames ← relation_names "BASE TABLE";
    result ← mapM read_table tableNames;
    mret (populateIncomingForeignKeys result)).

Definition read_view (viewName : string) : MyM Table :=
  column_rows ← select (describe_sql viewName);
  mret (named viewName (map view_column column_rows) [] []).

Definition views : MyM (list Table) :=
  when_connected [] (
    viewNames ← relation_names "VIEW";
    mapM read_view viewNames).

Definition routines : MyM (list Routine) :=
  when_connected [] (
    rows ← select (routines_sql name);
    mret (map routine rows)).

Definition describeTable (tableName : string) : MyM Table :=
  when_connected (named tableName [] [] []) (
    column_rows ← select (describe_sql tableName);
    unique_rows ← select (unique_sql tableName);
    index_rows ← select (indexes_sql tableName);
    fk_rows ← select (foreign_keys_sql name tableName);
    mret (named tableName
            (map (mark_unique (foldl unique_step [] unique_rows)) (map table_column column_rows))
            (map snd (foldl index_step [] index_rows)) (map foreign_key fk_rows))).

(** ** Reading rows *)

Definition clause (word text : string) : string := if sempty text then "" else word +:+ text.

Definition table_data_sql (table : Table) (limit offset : Z) (whereClause orderByClause : string)
    : string :=
  "SELECT * FROM " +:+ quoteIdent (tbl_name table) +:+ clause " WHERE " whereClause +:+
  clause " ORDER BY " orderByClause +:+
  " LIMIT " +:+ to_string limit +:+ " OFFSET " +:+ to_string offset.

Definition getTableData (table : Table) (limit offset : Z) (whereClause orderByClause : string)
    : MyM (list (list string)) :=
  when_connected [] (
    ok ← mysql_query lib (table_data_sql table limit offset whereClause orderByClause);
    if negb ok then mret []
    else
      res ← mysql_store_result lib;
      drainExtraResults lib fuel ;;
      mret (match res with
            | None => []
            | Some res => map (my_row (mr_fields res)) (mr_rows res)
            end)).

Definition getColumnNames (table : Table) : MyM (list string) :=
  when_connected [] (
    rows ← select (describe_sql (tbl_name table));
    mret (omap listed_name rows)).

Definition count_sql (table : Table) (whereClause : string) : string :=
  "SELECT COUNT(*) FROM " +:+ quoteIdent (tbl_name table) +:+ clause " WHERE " whereClause.

Definition getRowCount (table : Table) (whereClause : string) : MyM Z :=
  when_connected 0%Z (
    rows ← select (count_sql table whereClause);
    mret (match rows with
          | row :: _ => match mjoin (row !! 0) with Some v => atoi (c_str v) | None => 0%Z end
          | [] => 0%Z
          end)).

(** ** Statements that change tables *)

Definition column_clause (c : Column) : string :=
  quoteIdent (col_name c) +:+ " " +:+ (if sempty (col_type c) then "TEXT" else col_type c) +:+
  (if col_isAutoIncrement c then " AUTO_INCREMENT" else "") +:+
  (if col_isPrimaryKey c then " PRIMARY KEY" else "") +:+
  (if col_isNotNull c && negb (col_isPrimaryKey c) then " NOT NULL" else "") +:+
  (if col_isUnique c && negb (col_isPrimaryKey c) then " UNIQUE" else "") +:+
  clause " DEFAULT " (col_defaultValue c).

Definition foreign_key_clause (fk : ForeignKey) : string :=
  ", FOREIGN KEY (" +:+ quoteIdent (fk_sourceColumn fk) +:+ ") REFERENCES " +:+
  quoteIdent (fk_targetTable fk) +:+ "(" +:+ quoteIdent (fk_targetColumn fk) +:+ ")" +:+
  clause " ON UPDATE " (fk_onUpdate fk) +:+ clause " ON DELETE " (fk_onDelete fk).

Definition create_table_sql (table : Table) : string :=
  "CREATE TABLE " +:+ quoteIdent (tbl_name table) +:+ " (" +:+
  sjoin ", " (map column_clause (tbl_columns table)) +:+
  sconcat (map foreign_key_clause (tbl_foreignKeys table)) +:+ ")".

Definition createTable (table : Table) : MyM Status := status_of (create_table_sql table).

Definition renameTable (oldName newName : string) : MyM Status :=
  status_of (rename_sql oldName newName).

Definition dropTable (tableName : string) : MyM Status := status_of (drop_table_sql tableName).

Definition truncateTable (tableName : string) : MyM Status := status_of (truncate_sql tableName).

Definition dropColumn (tableName columnName : string) : MyM Status :=
  status_of (drop_column_sql tableName columnName).

Definition dropView (viewName : string) (isMaterialized : bool) : MyM Status :=
  status_of (drop_view_sql viewName).
End database.
