(* ===== verification/MySqlConnection.v ===== *)
(** * The MySQL backend: the connection

    [ConnectionImpl] of [src/mysql_connection.cpp]: a cache of one [MySQLDatabase] per name,
    the default database (none, when its name is empty), and the operations on whole
    databases.  Each database object has a session of its own. *)

From S2P Require Import Prelude Types Effects ConnectionInfo DdlUtils Database MySql.

(** a [MySQLDatabase] *)
Record MyDatabase := mkMyDatabase {
  md_info : ConnectionInfo;
  md_name : string;
  md_session : MySession
}.

Definition new_database (info : ConnectionInfo) (name : string) : MyDatabase :=
  mkMyDatabase info name new_session.

(** [ConnectionImpl]: its mutable members *)
Record MyConnection := mkMyConnection {
  mc_info : ConnectionInfo;
  mc_open : bool;
  mc_cache : gmap string MyDatabase
}.

Notation MyC := (Op MyConnection).

Definition new_connection (info : ConnectionInfo) : MyConnection := mkMyConnection info false ∅.

Definition set_database (name : string) (ci : ConnectionInfo) : ConnectionInfo :=
  mkConnectionInfo (ci_type ci) (ci_name ci) (ci_path ci) (ci_host ci) (ci_port ci) name
    (ci_username ci) (ci_password ci) (ci_showAllDatabases ci) (ci_sslmode ci)
    (ci_sslCACertPath ci) (ci_readOnly ci).

Definition get_info : MyC ConnectionInfo := λ c, (Some (mc_info c), c).
Definition set_cache (f : gmap string MyDatabase → gmap string MyDatabase) (c : MyConnection)
    : MyConnection := mkMyConnection (mc_info c) (mc_open c) (f (mc_cache c)).
Definition set_open (b : bool) (c : MyConnection) : MyConnection :=
  mkMyConnection (mc_info c) b (mc_cache c).
Definition set_info (info : ConnectionInfo) (c : MyConnection) : MyConnection :=
  mkMyConnection info (mc_open c) (mc_cache c).
Definition modify (f : MyConnection → MyConnection) : MyC unit := λ c, (Some tt, f c).

Definition toLower (s : string) : string := smap tolower s.

(** system schemas, whatever the case of their names *)
Definition system_schema (name : string) : bool :=
  inWords ["information_schema"; "performance_schema"; "mysql"; "sys"; "metrics_schema"]
    (toLower name).

Definition listed_database (row : list string) : option string :=
  match row with
  | name :: _ => if system_schema name then None else Some name
  | [] => None
  end.

Section connection.
Context (lib : Libmysql) (fuel : nat).

(** the cached object of a name, made on first use; the name it is cached under *)
Definition database (name : string) : MyC string := λ c,
  let n := if sempty name then ci_database (mc_info c) else name in
  (Some n,
   match mc_cache c !! n with
   | Some _ => c
   | None => set_cache (insert n (new_database (mc_info c) n)) c
   end).

(** an uncached object *)
Definition openDatabase (name : string) : MyC MyDatabase :=
  info ← get_info;
  mret (new_database info (if sempty name then ci_database info else name)).

(** an operation of the object cached under a name *)
Definition on_cached {A} (m : ConnectionInfo → string → MyM A) (n : string) : MyC A := λ c,
  match mc_cache c !! n with
  | Some d =>
      let '(r, s) := m (md_info d) (md_name d) (md_session d) in
      (r, set_cache (insert n (mkMyDatabase (md_info d) (md_name d) s)) c)
  | None => (None, c)   (* not reached: [database] has just made it *)
  end.

(** an operation of the default database's cached object *)
Definition on_default {A} (m : ConnectionInfo → string → MyM A) : MyC A :=
  n ← database "";
  on_cached m n.

Definition execute_default (sql : string) (rowLimit : Z) : MyC QueryResult :=
  on_default (λ info name, execute lib info name fuel sql rowLimit).

Definition open : MyC Status :=
  st ← on_default (openHandle lib);
  modify (set_open (fst (st : Status))) ;;
  mret st.

Definition close : MyC unit := modify (λ c, mkMyConnection (mc_info c) false ∅).

Definition isOpen : MyC bool := λ c, (Some (mc_open c), c).

Definition databases : MyC (list string) :=
  r ← execute_default "SHOW DATABASES" 10000;
  if negb (qr_success r) then mret []
  else
    match qr_statements r with
    | [] => mret []
    | s :: _ => mapM database (omap listed_database (sr_tableData s))
    end.

Definition create_sql (opts : CreateDatabaseOptions) : string :=
  "CREATE DATABASE " +:+ quoteIdent (cd_name opts) +:+
  (if sempty (cd_charset opts) then "" else " CHARACTER SET " +:+ cd_charset opts) +:+
  (if sempty (cd_collation opts) then "" else " COLLATE " +:+ cd_collation opts).

Definition createDatabase (opts : CreateDatabaseOptions) : MyC Status :=
  database "" ;;
  if sempty (cd_name opts) then mret (false, "Database name cannot be empty")
  else if negb (sempty (cd_charset opts)) && negb (isSafeSqlToken (cd_charset opts)) then
    mret (false, "Invalid charset value")
  else if negb (sempty (cd_collation opts)) && negb (isSafeSqlToken (cd_collation opts)) then
    mret (false, "Invalid collation value")
  else
    r ← execute_default (create_sql opts) 0;
    mret (toStatus r).

Definition drop_sql (name : string) : string := "DROP DATABASE " +:+ quoteIdent name.

(** through a session without a default schema *)
Definition drop_connected (name : string) (info : ConnectionInfo) : MyC Status :=
  match openMysql lib info "" 0 with
  | inl e => mret (false, "Failed to connect to system database: " +:+ e)
  | inr events =>
      let h := events ++ [MyQuery (c_str (drop_sql name))] in
      if negb (my_query_ok lib h) then mret (false, my_error lib h)
      else
        info ← get_info;
        modify (set_info (set_database "" info)) ;;
        mret (true, "")
  end.

Definition dropDatabase (name : string) : MyC Status :=
  info ← get_info;
  modify (set_cache (delete name)) ;;
  if (name =? ci_database info)%string then drop_connected name info
  else
    r ← execute_default (drop_sql name) 0;
    mret (toStatus r).

Definition renameDatabase (oldName newName : string) : MyC Status :=
  mret (false,
        "MySQL does not support direct database renaming. " +:+
        "You need to create a new database, copy all data, and drop the old one.").
End connection.
