(* ===== verification/MySqlProps.v ===== *)
(** * The MySQL backend: properties of sessions

    The protocol of the client library is kept by every operation; a batch of statements is
    reported statement by statement; literals are read back; what a session that cannot
    connect returns. *)

From S2P Require Import Prelude Types Effects ConnectionInfo SqlBuilder Lexer Quoting Database Rows MySql MySqlCatalog.

(** ** The protocol

    After a query the library wants every result stored and the next one asked for, until
    there are no more: a command sent before is refused as out of sync. *)

Inductive protocol := Ready | Unstored | Stored | OutOfSync.

Section protocol.
Context (lib : Libmysql).

(** [h] ends with the event *)
Definition protocol_step (h : list my_event) (st : protocol) (e : my_event) : protocol :=
  match e, st with
  | (MyConnect _ | MyCharset _ | MyPing), Ready => Ready
  | MyQuery _, Ready => if my_query_ok lib h then Unstored else Ready
  | MyStore, Unstored => Stored
  | MyNext, (Ready | Stored) =>
      match my_next lib h with NextOk => Unstored | _ => Ready end
  | _, _ => OutOfSync
  end.

Fixpoint protocol_from (h : list my_event) (st : protocol) (events : list my_event) : protocol :=
  match events with
  | [] => st
  | e :: events => protocol_from (h ++ [e]) (protocol_step (h ++ [e]) st e) events
  end.

Definition protocol_of (events : list my_event) : protocol := protocol_from [] Ready events.

Lemma protocol_from_app h st a b :
  protocol_from h st (a ++ b) = protocol_from (h ++ a) (protocol_from h st a) b.
Proof.
  revert h st. induction a as [|e a IH]; intros h st; simpl; [by rewrite app_nil_r|].
  by rewrite IH, <-app_assoc.
Qed.

Lemma protocol_snoc events e :
  protocol_of (events ++ [e]) = protocol_step (events ++ [e]) (protocol_of events) e.
Proof. unfold protocol_of. by rewrite protocol_from_app. Qed.

(** a triple over the state of the protocol *)
Definition keeps {A} (P : protocol → Prop) (m : MyM A) (Q : A → protocol → Prop) : Prop :=
  ∀ s, P (protocol_of (my_events s)) →
    match m s with
    | (Some x, s') => Q x (protocol_of (my_events s'))
    | (None, s') => protocol_of (my_events s') ≠ OutOfSync
    end.

Notation ready := (eq Ready).
Notation in_order m := (keeps ready m (λ _, ready)).

Lemma my_keeps_ret {A} (x : A) (P : protocol → Prop) : keeps P (mret x) (λ _, P).
Proof. by intros s H. Qed.

Lemma my_keeps_bind {A B} P (m : MyM A) (R : A → protocol → Prop) (f : A → MyM B) Q :
  keeps P m R → (∀ x, keeps (R x) (f x) Q) → keeps P (m ≫= f) Q.
Proof.
  intros Hm Hf s Hs. specialize (Hm s Hs). unfold mbind, Op_bind.
  destruct (m s) as [[x|] s']; [by apply Hf|done].
Qed.

Lemma keeps_pre {A} (P P' : protocol → Prop) (m : MyM A) Q :
  keeps P m Q → (∀ st, P' st → P st) → keeps P' m Q.
Proof. intros Hm HP s Hs. by apply Hm, HP. Qed.

Lemma keeps_never_ends {A} (P : protocol → Prop) (Q : A → protocol → Prop) :
  (∀ st, P st → st ≠ OutOfSync) → keeps P never_ends Q.
Proof. intros HP s H. by apply HP. Qed.

Lemma keeps_observe {A} P (f : list my_event → A) : keeps P (observe f) (λ _, P).
Proof. by intros s H. Qed.

Lemma keeps_query sql :
  keeps ready (mysql_real_query lib sql) (λ ok, eq (if ok then Unstored else Ready)).
Proof.
  intros s H. unfold mysql_real_query, call. cbn [my_events push_event].
  rewrite protocol_snoc, <-H. simpl. by destruct (my_query_ok _ _).
Qed.

Lemma keeps_ping : in_order (mysql_ping lib).
Proof. intros s H. unfold mysql_ping, call. cbn [my_events push_event]. by rewrite protocol_snoc, <-H. Qed.

Lemma keeps_store : keeps (eq Unstored) (mysql_store_result lib) (λ _, eq Stored).
Proof.
  intros s H. unfold mysql_store_result, call. cbn [my_events push_event].
  by rewrite protocol_snoc, <-H.
Qed.

Lemma keeps_next :
  keeps (λ st, st = Ready ∨ st = Stored) (mysql_next_result lib)
    (λ next, eq (match next with NextOk => Unstored | _ => Ready end)).
Proof.
  intros s H. unfold mysql_next_result, call. cbn [my_events push_event].
  rewrite protocol_snoc. by destruct H as [-> | ->]; simpl; destruct (my_next _ _).
Qed.

Lemma keeps_drain fuel : keeps (λ st, st = Ready ∨ st = Stored) (drain lib fuel) (λ _, ready).
Proof.
  induction fuel as [|fuel IH]; simpl.
  { apply keeps_never_ends. by intros st [-> | ->]. }
  eapply my_keeps_bind; [apply keeps_next|]. intros []; [|apply my_keeps_ret..].
  eapply my_keeps_bind; [apply keeps_store|]. intros res.
  eapply keeps_pre; [apply IH|]. intros st <-. by right.
Qed.

Lemma keeps_select fuel sql : in_order (select lib fuel sql).
Proof.
  eapply my_keeps_bind; [apply keeps_query|]. intros ok.
  eapply (my_keeps_bind _ _ (λ _ st, st = Ready ∨ st = Stored)).
  - destruct ok; [|intros s Hs; by left].
    eapply my_keeps_bind; [apply keeps_store|]. intros res s Hs. by right.
  - intros rows. eapply my_keeps_bind; [apply keeps_drain|]. intros u. apply my_keeps_ret.
Qed.

Lemma keeps_extract rowLimit :
  keeps (eq Unstored) (extractMysqlResult lib rowLimit) (λ _, eq Stored).
Proof.
  eapply my_keeps_bind; [apply keeps_store|]. intros [res|]; [apply my_keeps_ret|].
  eapply my_keeps_bind; [apply keeps_observe|]. intros count. destruct (count =? 0)%Z;
    (eapply my_keeps_bind; [apply keeps_observe|]; intros ?; apply my_keeps_ret).
Qed.

Lemma keeps_batch fuel rowLimit statements :
  keeps (eq Unstored) (batch_loop lib fuel rowLimit statements) (λ _, ready).
Proof.
  revert statements. induction fuel as [|fuel IH]; intros statements; simpl.
  { apply keeps_never_ends. by intros st <-. }
  eapply my_keeps_bind; [apply keeps_extract|]. intros r.
  eapply my_keeps_bind.
  { eapply keeps_pre; [apply keeps_next|]. intros st <-. by right. }
  intros []; [apply IH|apply my_keeps_ret|].
  eapply my_keeps_bind; [apply keeps_observe|]. intros error. apply my_keeps_ret.
Qed.

Context (info : ConnectionInfo) (name : string) (fuel : nat).

Lemma keeps_ensureConn : in_order (ensureConn lib info name).
Proof.
  intros s H. unfold ensureConn, openMysql. destruct (my_conn s); [done|].
  destruct (my_init lib); [|done]. simpl. by destruct (my_connects lib _).
Qed.

Lemma keeps_connected {A} (otherwise : A) (m : MyM A) :
  in_order m → in_order (when_connected lib info name otherwise m).
Proof.
  intros Hm. eapply my_keeps_bind; [apply keeps_ensureConn|]. by intros [e|]; [apply my_keeps_ret|].
Qed.

Lemma keeps_execute sql rowLimit : in_order (execute lib info name fuel sql rowLimit).
Proof.
  eapply my_keeps_bind; [apply keeps_ensureConn|]. intros [e|]; [apply my_keeps_ret|].
  eapply my_keeps_bind; [apply keeps_ping|]. intros alive.
  eapply my_keeps_bind; [apply keeps_query|]. intros []; simpl.
  - eapply my_keeps_bind; [apply keeps_batch|]. intros statements. apply my_keeps_ret.
  - eapply my_keeps_bind; [apply keeps_observe|]. intros e. apply my_keeps_ret.
Qed.

Lemma my_keeps_mapM {A B} (f : A → MyM B) l : (∀ x, in_order (f x)) → in_order (mapM f l).
Proof.
  intros Hf. induction l as [|x l IH]; simpl; [apply my_keeps_ret|].
  eapply my_keeps_bind; [apply Hf|]. intros y. eapply my_keeps_bind; [apply IH|].
  intros ys. apply my_keeps_ret.
Qed.
Lemma keeps_status sql : in_order (status_of lib info name fuel sql).
Proof. eapply my_keeps_bind; [apply keeps_execute|]. intros r. apply my_keeps_ret. Qed.

Lemma keeps_isConnected P : keeps P isConnected (λ _, P).
Proof. by intros s H. Qed.

Lemma keeps_session_ping : in_order (ping lib).
Proof.
  eapply my_keeps_bind; [apply keeps_isConnected|]. intros []; [apply keeps_ping|apply my_keeps_ret].
Qed.

(** selections one after the other *)
Local Ltac selections :=
  repeat first
    [ apply my_keeps_ret | apply keeps_select | apply my_keeps_mapM; intros ?
    | eapply my_keeps_bind; [|intros ?] ].

Lemma keeps_tables : in_order (tables lib info name fuel).
Proof. apply keeps_connected. unfold relation_names, read_table. selections. Qed.

Lemma keeps_views : in_order (views lib info name fuel).
Proof. apply keeps_connected. unfold relation_names, read_view. selections. Qed.

Lemma keeps_routines : in_order (routines lib info name fuel).
Proof. apply keeps_connected. selections. Qed.

Lemma keeps_describe tableName : in_order (describeTable lib info name fuel tableName).
Proof. apply keeps_connected. selections. Qed.

Lemma keeps_names table : in_order (getColumnNames lib info name fuel table).
Proof. apply keeps_connected. selections. Qed.

Lemma keeps_count table w : in_order (getRowCount lib info name fuel table w).
Proof. apply keeps_connected. selections. Qed.

Lemma keeps_data table limit offset w o :
  in_order (getTableData lib info name fuel table limit offset w o).
Proof.
  apply keeps_connected. eapply my_keeps_bind; [apply keeps_query|].
  intros []; [|apply my_keeps_ret]. eapply my_keeps_bind; [apply keeps_store|]. intros res.
  eapply my_keeps_bind; [|intros u; apply my_keeps_ret].
  eapply keeps_pre; [apply keeps_drain|]. intros st <-. by right.
Qed.
End protocol.

(** ** Any use of a handle *)

Inductive my_op :=
  | OpOpen | OpPing | OpAlive | OpTables | OpViews | OpRoutines
  | OpDescribe (tableName : string)
  | OpExecute (sql : string) (rowLimit : Z)
  | OpData (table : Table) (limit offset : Z) (whereClause orderByClause : string)
  | OpNames (table : Table)
  | OpCount (table : Table) (whereClause : string)
  | OpCreate (table : Table)
  | OpRename (oldName newName : string)
  | OpDrop (tableName : string)
  | OpTruncate (tableName : string)
  | OpDropColumn (tableName columnName : string)
  | OpDropView (viewName : string).

Definition ignore {A} (m : MyM A) : MyM unit := m ;; mret tt.

Section handle.
Context (lib : Libmysql) (info : ConnectionInfo) (name : string) (fuel : nat).

Definition run_op (op : my_op) : MyM unit :=
  match op with
  | OpOpen => ignore (openHandle lib info name)
  | OpPing => ignore (ping lib)
  | OpAlive => ignore (alive lib)
  | OpTables => ignore (tables lib info name fuel)
  | OpViews => ignore (views lib info name fuel)
  | OpRoutines => ignore (routines lib info name fuel)
  | OpDescribe t => ignore (describeTable lib info name fuel t)
  | OpExecute sql rowLimit => ignore (execute lib info name fuel sql rowLimit)
  | OpData table limit offset w o => ignore (getTableData lib info name fuel table limit offset w o)
  | OpNames table => ignore (getColumnNames lib info name fuel table)
  | OpCount table w => ignore (getRowCount lib info name fuel table w)
  | OpCreate table => ignore (createTable lib info name fuel table)
  | OpRename a b => ignore (renameTable lib info name fuel a b)
  | OpDrop t => ignore (dropTable lib info name fuel t)
  | OpTruncate t => ignore (truncateTable lib info name fuel t)
  | OpDropColumn t c => ignore (dropColumn lib info name fuel t c)
  | OpDropView v => ignore (dropView lib info name fuel v false)
  end.

Lemma keeps_ignore {A} (m : MyM A) :
  keeps lib (eq Ready) m (λ _, eq Ready) → keeps lib (eq Ready) (ignore m) (λ _, eq Ready).
Proof. intros H. eapply my_keeps_bind; [exact H|]. intros x. apply my_keeps_ret. Qed.

Lemma keeps_op op : keeps lib (eq Ready) (run_op op) (λ _, eq Ready).
Proof.
  destruct op; cbn [run_op]; apply keeps_ignore.
  - eapply my_keeps_bind; [apply keeps_ensureConn|]. intros e. apply my_keeps_ret.
  - apply keeps_session_ping.
  - eapply my_keeps_bind; [apply keeps_isConnected|].
    intros []; [apply keeps_session_ping|apply my_keeps_ret].
  - apply keeps_tables.
  - apply keeps_views.
  - apply keeps_routines.
  - apply keeps_describe.
  - apply keeps_execute.
  - apply keeps_data.
  - apply keeps_names.
  - apply keeps_count.
  - apply keeps_status.
  - apply keeps_status.
  - apply keeps_status.
  - apply keeps_status.
  - apply keeps_status.
  - apply keeps_status.
Qed.
End handle.

(** a [TINYINT(1)] that is not 1 is shown as false *)
Example tinyint_two_is_false : my_cell (mkMyField "b" MYSQL_TYPE_TINY 1) (Some "2") = BOOL_FALSE_SENTINEL.
Proof. reflexivity. Qed.

(** a certificate that is checked is also required, and a CA is given only for checking *)
Lemma tls_options info dbName io :
  let o := connect_options info dbName io in
  (mo_verify o = true → mo_enforce o = true) ∧ (is_Some (mo_sslCA o) → mo_verify o = true).
Proof.
  unfold connect_options, shouldApplySslCA. destruct (ci_sslmode info), (sempty (ci_sslCACertPath info));
    simpl; (split; [done|]); intros [? ?]; done.
Qed.

(** ** Batches *)

(** what the library has for one statement *)
Inductive statement_answer :=
  | Rows (res : MyRes)
  | Affected (count : Z)
  | Lost (error : string).

Definition answer_at (lib : Libmysql) (h : list my_event) : statement_answer :=
  let h := h ++ [MyStore] in
  match my_result lib h with
  | Some res => Rows res
  | None =>
      if (my_field_count lib h =? 0)%Z then Affected (my_affected_rows lib h)
      else Lost (my_error lib h)
  end.

(** the answers of a batch from [h] on, and the error of the statement that ended it early *)
Inductive batch (lib : Libmysql) : list my_event → list statement_answer → option string → Prop :=
  | batch_last h :
      my_next lib (h ++ [MyStore; MyNext]) = NoMore → batch lib h [answer_at lib h] None
  | batch_fails h :
      my_next lib (h ++ [MyStore; MyNext]) = NextFails →
      batch lib h [answer_at lib h] (Some (my_error lib (h ++ [MyStore; MyNext])))
  | batch_more h answers error :
      my_next lib (h ++ [MyStore; MyNext]) = NextOk →
      batch lib (h ++ [MyStore; MyNext]) answers error →
      batch lib h (answer_at lib h :: answers) error.

(** ** Connecting and sending a batch *)

Section answered.
Context (lib : Libmysql) (info : ConnectionInfo) (name : string).

(** the connection of a handle: why there is none, or the events of its session; it is opened
    where it is not *)
Inductive connection (s : MySession) : string + list my_event → Prop :=
  | connection_open : my_conn s = true → connection s (inr (my_events s))
  | connection_no_handle :
      my_conn s = false → my_init lib = false → connection s (inl "mysql_init failed")
  | connection_refused :
      my_conn s = false → my_init lib = true →
      my_connects lib [MyConnect (connect_options info name 0)] = false →
      connection s (inl ("MySQL connection failed: " +:+
                         my_error lib [MyConnect (connect_options info name 0)]))
  | connection_new :
      my_conn s = false → my_init lib = true →
      my_connects lib [MyConnect (connect_options info name 0)] = true →
      connection s (inr [MyConnect (connect_options info name 0); MyCharset "utf8mb4"]).

(** the server's answers to a batch, and the error that ended it: no connection, the batch
    refused, or a statement behind the answered ones *)
Inductive answered (sql : string) (s : MySession) : list statement_answer → option string → Prop :=
  | answered_unconnected message : connection s (inl message) → answered sql s [] (Some message)
  | answered_refused h :
      connection s (inr h) → my_query_ok lib (h ++ [MyPing; MyQuery sql]) = false →
      answered sql s [] (Some (my_error lib (h ++ [MyPing; MyQuery sql])))
  | answered_batch h answers error :
      connection s (inr h) → my_query_ok lib (h ++ [MyPing; MyQuery sql]) = true →
      batch lib (h ++ [MyPing; MyQuery sql]) answers error → answered sql s answers error.

(** what [ensureConn] comes to *)
Lemma ensureConn_connection s c :
  connection s c →
  match c with
  | inl message => ensureConn lib info name s = (Some (Some message), s)
  | inr h => ∃ s', ensureConn lib info name s = (Some None, s') ∧ my_events s' = h
  end.
Proof.
  unfold ensureConn, openMysql. intros [Hc|Hc Hi|Hc Hi Ho|Hc Hi Ho]; rewrite Hc;
    [by exists s|by rewrite Hi|rewrite Hi; simpl; by rewrite Ho..|].
  rewrite Hi. simpl. rewrite Ho. by eexists.
Qed.
End answered.

(** ** What a report tells *)

(** how a value reads in a column: a [TINYINT(1)] as a boolean, true when it begins with 1 *)
Inductive cell_shows (f : MyField) : option string → string → Prop :=
  | shows_null : cell_shows f None NULL_SENTINEL
  | shows_true v :
      mf_type f = 1%Z → mf_length f = 1%Z → cell_shows f (Some (String "1" v)) BOOL_TRUE_SENTINEL
  | shows_false v :
      mf_type f = 1%Z → mf_length f = 1%Z → (∀ r, v ≠ String "1" r) →
      cell_shows f (Some v) BOOL_FALSE_SENTINEL
  | shows_text v : ¬ (mf_type f = 1%Z ∧ mf_length f = 1%Z) → cell_shows f (Some v) v.

(** a text for each column; a column without a value reads as null *)
Definition row_tells (fields : list MyField) (row : list (option string)) (texts : list string) : Prop :=
  length texts = length fields ∧
  ∀ i f, fields !! i = Some f → ∃ text, texts !! i = Some text ∧ cell_shows f (mjoin (row !! i)) text.

Definition tells (rowLimit : Z) (a : statement_answer) (r : StatementResult) : Prop :=
  match a with
  | Rows res =>
      sr_success r = true ∧ sr_columnNames r = map mf_name (mr_fields res) ∧
      ∃ kept, first_rows rowLimit (mr_rows res) kept ∧
        Forall2 (row_tells (mr_fields res)) kept (sr_tableData r)
  | Affected count =>
      sr_success r = true ∧ sr_columnNames r = [] ∧ sr_tableData r = [] ∧
      sr_affectedRows r = if decide (count = 2 ^ 64 - 1)%Z then 0%Z else to_int count
  | Lost error =>
      sr_success r = false ∧ sr_errorMessage r = error ∧ sr_columnNames r = [] ∧ sr_tableData r = []
  end.

(** a lost answer without a message is passed over *)
Definition heard (a : statement_answer) : Prop := a ≠ Lost "".
#[export] Instance heard_dec a : Decision (heard a).
Proof. refine (match a with Lost "" => right _ | _ => left _ end); unfold heard; congruence. Defined.

Lemma my_cell_shows f v : cell_shows f v (my_cell f v).
Proof.
  destruct v as [v|]; [|constructor]. simpl. unfold isBoolCol, MYSQL_TYPE_TINY.
  destruct (Z.eqb_spec (mf_type f) 1), (Z.eqb_spec (mf_length f) 1); simpl; try (apply shows_text; tauto).
  destruct v as [|c v]; simpl; [by apply shows_false|].
  destruct (Ascii.eqb_spec c "1") as [->|]; [by apply shows_true|]. apply shows_false; congruence.
Qed.

Lemma my_row_tells fields row : row_tells fields row (my_row fields row).
Proof.
  split; [apply length_imap|]. intros i f Hf. unfold my_row. rewrite list_lookup_imap, Hf. simpl.
  eexists. split; [done|apply my_cell_shows].
Qed.

Lemma rows_result_tells rowLimit res : tells rowLimit (Rows res) (rows_result res rowLimit).
Proof.
  split_and!; [done..|]. exists (limited rowLimit (mr_rows res)). split; [apply limited_first|].
  simpl. unfold limited. generalize (if (0 <? rowLimit)%Z then take (Z.to_nat rowLimit) (mr_rows res) else mr_rows res).
  intros rows. induction rows; constructor; [apply my_row_tells|done].
Qed.

Lemma affected_tells rowLimit count : tells rowLimit (Affected count) (affected_result count).
Proof.
  unfold affected_result. simpl. case_decide as Hc; [by subst|].
  by rewrite (proj2 (Z.eqb_neq _ _) Hc).
Qed.

(** ** The reports of a batch *)

(** what a statement is reported as *)
Definition reported (rowLimit : Z) (a : statement_answer) : list StatementResult :=
  match a with
  | Rows res => [rows_result res rowLimit]
  | Affected count => [affected_result count]
  | Lost error => if sempty error then [] else [failure error]
  end.

Lemma reported_tells rowLimit answers :
  Forall2 (tells rowLimit) (filter heard answers) (answers ≫= reported rowLimit).
Proof.
  induction answers as [|a answers IH]; csimpl; [constructor|]. rewrite filter_cons.
  destruct a as [res|count|[|c e]]; simpl; (constructor || idtac); try done;
    [apply rows_result_tells|apply affected_tells].
Qed.

Definition batch_report (rowLimit : Z) (answers : list statement_answer) (error : option string)
    : list StatementResult :=
  (answers ≫= reported rowLimit) ++ match error with Some e => [failure e] | None => [] end.

Section batches.
Context (lib : Libmysql).

Definition after (events : list my_event) (s : MySession) : MySession :=
  mkMySession (my_events s ++ events) (my_conn s) (my_threadId s).

Lemma after_push e s : push_event e s = after [e] s.
Proof. done. Qed.

Lemma after_after a b s : after b (after a s) = after (a ++ b) s.
Proof. unfold after. simpl. by rewrite app_assoc. Qed.

Lemma affected_success count : sr_success (affected_result count) = true.
Proof. unfold affected_result. by destruct (negb _). Qed.

Lemma extract_step rowLimit statements s :
  ∃ r, extractMysqlResult lib rowLimit s = (Some r, after [MyStore] s) ∧
    keep_result statements r = statements ++ reported rowLimit (answer_at lib (my_events s)).
Proof.
  unfold extractMysqlResult, mysql_store_result, call, mysql_error, observe, answer_at, mbind, Op_bind.
  cbn [my_events push_event]. set (h := my_events s ++ [MyStore]).
  destruct (my_result lib h) as [res|]; [by eexists|]. cbn [my_events push_event]. fold h.
  destruct (my_field_count lib h =? 0)%Z; eexists; (split; [reflexivity|]).
  - unfold keep_result. by rewrite affected_success.
  - unfold keep_result, reported. simpl. destruct (sempty _); simpl; [by rewrite app_nil_r|done].
Qed.

Lemma batch_loop_report rowLimit fuel h answers error statements s :
  batch lib h answers error → my_events s = h → length answers <= fuel →
  ∃ s', batch_loop lib fuel rowLimit statements s =
        (Some (statements ++ batch_report rowLimit answers error), s').
Proof.
  intros Hb. revert fuel statements s.
  induction Hb as [h Hn|h Hn|h answers error Hn _ IH]; intros fuel statements s Hs Hf;
    (destruct fuel as [|fuel]; [simpl in Hf; lia|]); subst h; cbn [batch_loop];
    unfold mbind at 1, Op_bind at 1;
    destruct (extract_step rowLimit statements s) as (r & -> & ->);
    unfold mysql_next_result, call, mbind, Op_bind; cbn [my_events after push_event];
    rewrite <-(app_assoc _ [MyStore] [MyNext]); simpl ([MyStore] ++ [MyNext]); rewrite Hn.
  - eexists. unfold batch_report. simpl. by rewrite !app_nil_r.
  - eexists. unfold batch_report, mysql_error, observe. simpl. by rewrite app_nil_r, <-!app_assoc.
  - destruct (IH fuel (statements ++ reported rowLimit (answer_at lib (my_events s)))
      (push_event MyNext (after [MyStore] s))) as [s' ->].
    + unfold after, push_event. simpl. by rewrite <-app_assoc.
    + simpl in Hf. lia.
    + eexists. unfold batch_report. simpl. by rewrite <-!app_assoc.
Qed.

Lemma all_success_spec l : all_success l = true ↔ Forall (λ r, sr_success r = true) l.
Proof.
  induction l as [|r l IH]; simpl; [by split|]. rewrite Forall_cons, <-IH.
  destruct (sr_success r); simpl; naive_solver.
Qed.

Lemma reported_success rowLimit a :
  Forall (λ r, sr_success r = true) (reported rowLimit a) ↔ ∀ e, a = Lost e → e = "".
Proof.
  destruct a as [res|count|error]; simpl.
  - by split; [|repeat constructor].
  - split; [done|]. intros _. repeat constructor. apply affected_success.
  - destruct error; simpl; [by split; [intros _ e [= <-]|]|].
    rewrite Forall_singleton. simpl. split; [done|]. intros H. by specialize (H _ eq_refl).
Qed.

Lemma batch_report_success rowLimit answers error :
  Forall (λ r, sr_success r = true) (batch_report rowLimit answers error) ↔
  error = None ∧ ∀ e, Lost e ∈ answers → e = "".
Proof.
  unfold batch_report. rewrite Forall_app.
  assert (H : Forall (λ r, sr_success r = true) (answers ≫= reported rowLimit) ↔
              ∀ e, Lost e ∈ answers → e = "").
  { induction answers as [|a answers IH]; csimpl.
    - split; [|constructor]. intros _ e He. by apply elem_of_nil in He.
    - rewrite Forall_app, IH, reported_success. setoid_rewrite elem_of_cons. naive_solver. }
  rewrite H. destruct error as [e|]; [rewrite Forall_singleton|]; simpl; naive_solver.
Qed.

Context (info : ConnectionInfo) (name : string).

Lemma answered_report fuel sql rowLimit s answers error :
  answered lib info name sql s answers error → length answers <= fuel →
  ∃ r s', execute lib info name fuel sql rowLimit s = (Some r, s') ∧
    qr_statements r = batch_report rowLimit answers error.
Proof.
  intros Ha Hf. destruct Ha as [message Hc%ensureConn_connection|h Hc Hq|h answers error Hc Hq Hb];
    unfold execute, mbind at 1, Op_bind at 1.
  - rewrite Hc. by eexists _, _.
  - apply ensureConn_connection in Hc as (s1 & -> & <-).
    unfold mysql_ping, mysql_real_query, call, mbind, Op_bind, mysql_error, observe.
    cbn [my_events push_event]. rewrite <-app_assoc. cbn [app]. rewrite Hq. cbn [negb].
    eexists _, _. split; [reflexivity|]. simpl. by rewrite <-app_assoc.
  - apply ensureConn_connection in Hc as (s1 & -> & <-).
    unfold mysql_ping, mysql_real_query, call, mbind, Op_bind.
    cbn [my_events push_event]. rewrite <-app_assoc. cbn [app]. rewrite Hq. cbn [negb].
    destruct (batch_loop_report rowLimit fuel (my_events s1 ++ [MyPing; MyQuery sql]) answers error []
      (push_event (MyQuery sql) (push_event MyPing s1))) as [s' ->]; [done| |done|].
    { unfold push_event. simpl. by rewrite <-app_assoc. }
    by eexists _, s'.
Qed.
End batches.

(** C15: A batch of statements is reported statement by statement.  Once the server's answers
    end, [execute] returns (the loop ends, with as much fuel as answers): one report for each
    answer in order, the columns' names and the rows, in full or the first up to a positive limit,
    with a text for each column, or the count of changed rows, or the error of an answer that was
    lost; and last the error, if any, that ended the batch: no connection, the batch refused, or a
    later statement failing.  An answer lost without a message is passed over: it has no report,
    and does not make the batch a failure.  The batch is a success exactly when nothing else was
    lost, no error ended it and something is reported. *)
Theorem execute_batch lib info name fuel sql rowLimit s answers error :
  answered lib info name sql s answers error → length answers <= fuel →
  ∃ r s' told, execute lib info name fuel sql rowLimit s = (Some r, s') ∧
    qr_statements r = told ++ match error with Some e => [failure e] | None => [] end ∧
    Forall2 (tells rowLimit) (filter heard answers) told ∧
    (qr_success r = true ↔ told ≠ [] ∧ error = None ∧ ∀ e, Lost e ∈ answers → e = "").
Proof.
  intros Ha Hf. destruct (answered_report lib info name fuel sql rowLimit s answers error Ha Hf)
    as (r & s' & E & Hr).
  exists r, s', (answers ≫= reported rowLimit). split_and!; [done|done|apply reported_tells|].
  pose proof (batch_report_success rowLimit answers error) as Hall.
  rewrite <-all_success_spec, <-Hr in Hall. unfold batch_report in Hr. unfold qr_success.
  destruct (qr_statements r) eqn:Eq.
  - symmetry in Hr. apply app_eq_nil in Hr as [Hr _]. rewrite Hr. naive_solver.
  - rewrite Hall. destruct error; [naive_solver|]. rewrite app_nil_r in Hr. rewrite <-Hr. naive_solver.
Qed.

(** a server that applies two statements of a batch and refuses the third *)
Definition is_next (e : my_event) : bool := match e with MyNext => true | _ => false end.
Definition sample_batches : Libmysql :=
  mkLibmysql true (λ _, true) (λ _, 7%Z) (λ _, true) (λ _, true) (λ _, None) (λ _, 0%Z) (λ _, 1%Z)
    (λ h, match length (List.filter is_next h) with 1 => NextOk | _ => NextFails end)
    (λ _, "Duplicate entry").

Lemma execute_batch_witness :
  let s := mkMySession [] false 0 in
  let info := mkConnectionInfo MYSQL "" "" "" 0 "" "" "" false Disable "" false in
  ∃ r s' told, execute sample_batches info "app" 2 "a; b; c" 0 s = (Some r, s') ∧
    qr_statements r = told ++ [failure "Duplicate entry"] ∧
    Forall2 (tells 0) [Affected 1; Affected 1] told.
Proof.
  intros s info.
  pose (h := [MyConnect (connect_options info "app" 0); MyCharset "utf8mb4"]).
  destruct (execute_batch sample_batches info "app" 2 "a; b; c" 0 s
    [Affected 1; Affected 1] (Some "Duplicate entry")) as (r & s' & told & Hr & Hs & Ht & _).
  - apply (answered_batch _ _ _ _ _ h); [by apply connection_new|reflexivity|].
    exact (batch_more sample_batches (h ++ [MyPing; MyQuery "a; b; c"]) _ _ eq_refl
             (batch_fails sample_batches (h ++ [MyPing; MyQuery "a; b; c"; MyStore; MyNext]) eq_refl)).
  - simpl. lia.
  - exists r, s', told. split; [exact Hr|]. split; [exact Hs|exact Ht].
Defined.
