(* ===== verification/MySqlText.v ===== *)
(** * The MySQL backend: its statements, read back by the tokenizer

    Names and values that the backend writes into a statement stay single tokens. *)

From S2P Require Import Prelude Types ConnectionInfo SqlBuilder Lexer Keywords Quoting.
From S2P Require Import MySql MySqlCatalog MySqlConnection.

Notation mysql := (dialectFor MYSQL).

(** ** String literals *)

Lemma scan_literal v rest :
  head_is squote rest = false →
  scan_quoted squote true (escapeLiteral v +:+ String squote rest) =
  (v, strlen (escapeLiteral v) + 1, true).
Proof.
  intros Hr. induction v as [|c v IH].
  - cbn [escapeLiteral]. rewrite sapp_nil_l. cbn. destruct rest as [|c' r]; [done|].
    simpl in Hr. by rewrite Hr.
  - cbn [escapeLiteral]. rewrite sapp_assoc. destruct (c =? squote)%char eqn:E.
    { apply char_eqb_true in E as ->. rewrite slen_app, !sapp_cons, sapp_nil_l.
      cbn -[scan_quoted squote String.append escapeLiteral]. cbn [scan_quoted].
      rewrite IH. done. }
    destruct (c =? "\")%char eqn:E'.
    { apply char_eqb_true in E' as ->. rewrite slen_app, !sapp_cons, sapp_nil_l.
      cbn [scan_quoted]. rewrite IH. done. }
    rewrite slen_app, str1_app. cbn [scan_quoted]. rewrite E, E', IH. done.
Qed.

Lemma lexes_literal v : lexes mysql ("'" +:+ escapeLiteral v +:+ "'") [(TString, v)].
Proof.
  intros prev rest Hr.
  assert (Hh : head_is squote rest = false).
  { destruct rest as [|c r]; [done|]. simpl in Hr |- *. apply char_eqb_true in Hr as ->. done. }
  assert (E : ("'" +:+ escapeLiteral v +:+ "'") +:+ rest =
              String squote (escapeLiteral v +:+ "'") +:+ rest) by done.
  rewrite E. rewrite (lexemes_cons mysql prev squote (escapeLiteral v +:+ "'") rest
    (mkToken TString 0 (strlen (String squote (escapeLiteral v +:+ "'"))) true false v));
    [by eexists|done| |done].
  rewrite sapp_cons, sapp_assoc. unfold lex_token, char_at.
  cbn -[scan_quoted String.append escapeLiteral]. unfold quoted_token. cbn [sdrop].
  change ("'" +:+ rest) with (String squote rest). rewrite (scan_literal v rest Hh).
  f_equal. simpl. rewrite slen_app. simpl. lia.
Qed.

(** ** Other pieces *)

Lemma lexes_quoteIdent name : lexes mysql (quoteIdent name) [(TQuotedIdent, name)].
Proof. exact (lexes_quoted MYSQL name). Qed.

Lemma lexes_comma w : plain_word w = true → lexes mysql (w +:+ ",") [(TWord, w); (TPunct, ",")].
Proof.
  intros Hw prev rest Hr. rewrite sapp_assoc.
  destruct (lexemes_word_punct MYSQL prev w "," rest Hw) as [p Hp]; [by left| |by exists (Some p)].
  destruct rest as [|c r]; [done|]. simpl in Hr. by apply char_eqb_true in Hr as ->.
Qed.

Lemma lexes_dotted a b :
  plain_word a = true → plain_word b = true →
  lexes mysql (a +:+ "." +:+ b) [(TWord, a); (TPunct, "."); (TWord, b)].
Proof.
  intros Ha Hb prev rest Hr. rewrite !sapp_assoc.
  destruct (lexemes_word_punct MYSQL prev a "." (b +:+ rest) Ha) as [p Hp]; [set_solver| |].
  - destruct b as [|c b]; [done|]. apply andb_true_iff in Hb as [Hc _].
    by destruct (ident_start_facts c Hc) as (?&?&?&?&?&?&?&?&?&?&?).
  - change ("." +:+ b +:+ rest) with (String "." (b +:+ rest)). rewrite Hp.
    destruct (lexes_word mysql b Hb (Some p) rest Hr) as [p' ->]. by exists p'.
Qed.

Lemma lexes_zero : lexes mysql "0" [(TNumber, "")].
Proof.
  intros prev rest Hr. change ("0" +:+ rest) with (String "0" "" +:+ rest).
  rewrite (lexemes_cons mysql prev "0" "" rest (mkToken TNumber 0 1 true false "")); [by eexists|done| |done].
  rewrite sapp_cons, sapp_nil_l. destruct rest as [|c r]; [done|].
  simpl in Hr. by apply char_eqb_true in Hr as ->.
Qed.

(** ** The statements *)

Definition equal_sign : Tok * string := (TOp, "=").

Definition foreign_keys_head : list (Tok * string) :=
  [(TWord, "SELECT"); (TWord, "COLUMN_NAME"); (TPunct, ","); (TWord, "REFERENCED_TABLE_NAME");
   (TPunct, ","); (TWord, "REFERENCED_COLUMN_NAME"); (TPunct, ","); (TWord, "CONSTRAINT_NAME");
   (TWord, "FROM"); (TWord, "INFORMATION_SCHEMA"); (TPunct, "."); (TWord, "KEY_COLUMN_USAGE")].

(** pieces of a statement *)
Local Ltac pieces :=
  repeat first
    [ apply Forall2_nil_2 | apply Forall2_cons_2 | apply lexes_literal | apply lexes_quoteIdent
    | apply (lexes_equal MYSQL) | apply lexes_zero | apply lexes_dotted; reflexivity
    | apply lexes_comma; reflexivity | apply lexes_word; reflexivity ].

Definition string_literal (v : string) : string := "'" +:+ escapeLiteral v +:+ "'".

Lemma foreign_keys_pieces name tableName :
  foreign_keys_sql name tableName =
  sjoin " " ["SELECT"; "COLUMN_NAME" +:+ ","; "REFERENCED_TABLE_NAME" +:+ ",";
             "REFERENCED_COLUMN_NAME" +:+ ","; "CONSTRAINT_NAME"; "FROM";
             "INFORMATION_SCHEMA" +:+ "." +:+ "KEY_COLUMN_USAGE"; "WHERE"; "TABLE_SCHEMA"; "=";
             string_literal name; "AND"; "TABLE_NAME"; "="; string_literal tableName; "AND";
             "REFERENCED_TABLE_NAME"; "IS"; "NOT"; "NULL"].
Proof. unfold foreign_keys_sql, string_literal. cbn [sjoin]. by rewrite !sapp_assoc. Qed.

Local Ltac by_pieces :=
  etransitivity;
  [apply lexes_whole; eapply lexes_pieces; [by apply lexes_word|pieces]|reflexivity].

Lemma foreign_keys_lex name tableName :
  lexemes mysql None (foreign_keys_sql name tableName) =
  foreign_keys_head ++ words ["WHERE"; "TABLE_SCHEMA"] ++ [equal_sign; (TString, name)] ++
  words ["AND"; "TABLE_NAME"] ++ [equal_sign; (TString, tableName)] ++
  words ["AND"; "REFERENCED_TABLE_NAME"; "IS"; "NOT"; "NULL"].
Proof. rewrite foreign_keys_pieces. by_pieces. Qed.

(** The backend's own statements cannot be broken out of, whatever bytes a name holds.
    Read by the MySQL tokenizer, the statements about tables, columns, views, databases and
    indexes are their keywords and the names as identifier tokens, and the foreign-key query is
    its fixed text with the schema's and the table's names as closed string tokens: quotes and
    backslashes included, a name adds no token. *)
Lemma mysql_statements_lex (a b : string) :
  let lex := lexemes mysql None in
  let ident s := [(TQuotedIdent, s)] in
  lex (describe_sql a) = words ["DESCRIBE"] ++ ident a ∧
  lex (unique_sql a) = words ["SHOW"; "INDEX"; "FROM"] ++ ident a ++
    words ["WHERE"; "Non_unique"] ++ [equal_sign; (TNumber, "")] ∧
  lex (drop_table_sql a) = words ["DROP"; "TABLE"] ++ ident a ∧
  lex (truncate_sql a) = words ["TRUNCATE"; "TABLE"] ++ ident a ∧
  lex (rename_sql a b) = words ["RENAME"; "TABLE"] ++ ident a ++ words ["TO"] ++ ident b ∧
  lex (drop_column_sql a b) =
    words ["ALTER"; "TABLE"] ++ ident a ++ words ["DROP"; "COLUMN"] ++ ident b ∧
  lex (drop_view_sql a) = words ["DROP"; "VIEW"] ++ ident a ∧
  lex (drop_sql a) = words ["DROP"; "DATABASE"] ++ ident a ∧
  lex (foreign_keys_sql a b) =
    foreign_keys_head ++ words ["WHERE"; "TABLE_SCHEMA"] ++ [equal_sign; (TString, a)] ++
    words ["AND"; "TABLE_NAME"] ++ [equal_sign; (TString, b)] ++
    words ["AND"; "REFERENCED_TABLE_NAME"; "IS"; "NOT"; "NULL"].
Proof.
  cbn zeta. split_and!; [..|apply foreign_keys_lex].
  - change (describe_sql a) with (sjoin " " ["DESCRIBE"; quoteIdent a]). by_pieces.
  - assert (unique_sql a = sjoin " " ["SHOW"; "INDEX"; "FROM"; quoteIdent a; "WHERE"; "Non_unique"; "="; "0"]) as ->.
    { done. }
    by_pieces.
  - change (drop_table_sql a) with (sjoin " " ["DROP"; "TABLE"; quoteIdent a]). by_pieces.
  - change (truncate_sql a) with (sjoin " " ["TRUNCATE"; "TABLE"; quoteIdent a]). by_pieces.
  - change (rename_sql a b) with (sjoin " " ["RENAME"; "TABLE"; quoteIdent a; "TO"; quoteIdent b]).
    by_pieces.
  - change (drop_column_sql a b)
      with (sjoin " " ["ALTER"; "TABLE"; quoteIdent a; "DROP"; "COLUMN"; quoteIdent b]).
    by_pieces.
  - change (drop_view_sql a) with (sjoin " " ["DROP"; "VIEW"; quoteIdent a]). by_pieces.
  - change (drop_sql a) with (sjoin " " ["DROP"; "DATABASE"; quoteIdent a]). by_pieces.
Qed.
