(* ===== verification/MySqlCatalogProps.v ===== *)
(** * The MySQL backend: properties of the catalog and the connection

    What the tables are against a server whose catalog stands still, how index rows become
    indexes, what is returned when nothing answers, and what dropping a database does. *)

From S2P Require Import Prelude Types Effects ConnectionInfo DdlUtils Database MySql MySqlCatalog.
From S2P Require Import MySqlConnection MySqlProps.

(** ** Index rows *)

Definition index_name (row : list (option string)) : string := text row 2.
Definition column_name (row : list (option string)) : string := text row 4.

Definition is_unique_row (row : list (option string)) : bool := (nonUnique row =? 0)%Z.

(** the columns of an index, in the order of its rows *)
Definition index_columns (index : string) (rows : list (list (option string))) : list string :=
  map column_name (filter (λ row, index_name row = index) rows).

Lemma add_columns i rows :
  foldl (λ i row, add_column (column_name row) i) i rows =
  mkIndex (idx_name i) (idx_columns i ++ map column_name rows) (idx_isUnique i) (idx_isPrimary i)
    (idx_type i).
Proof.
  revert i. induction rows as [|row rows IH]; intros i; simpl.
  - rewrite app_nil_r. by destruct i.
  - rewrite IH. simpl. by rewrite <-app_assoc.
Qed.

Definition index_map (rows : list (list (option string))) : list (string * Index) :=
  foldl (collect_step (λ _, true) index_name
           (λ row, mkIndex (index_name row) [] (is_unique_row row) false "")
           (λ row, add_column (column_name row))) [] rows.

Lemma index_map_eq rows : foldl index_step [] rows = index_map rows.
Proof. done. Qed.

Lemma rows_under_index index rows :
  rows_under (λ _, true) index_name index rows = filter (λ row, index_name row = index) rows.
Proof. apply list_filter_iff. intros row. naive_solver. Qed.

Lemma index_map_elem rows k i :
  (k, i) ∈ index_map rows ↔
  ∃ row rest, filter (λ row, index_name row = k) rows = row :: rest ∧
    i = mkIndex k (index_columns k rows) (is_unique_row row) false "".
Proof.
  unfold index_map, index_columns. rewrite collect_elem, rows_under_index. unfold collected.
  destruct (filter _ rows) as [|row rest] eqn:E; [naive_solver|].
  assert (Hk : index_name row = k).
  { assert (Hin : row ∈ filter (λ row, index_name row = k) rows) by (rewrite E; set_solver).
    by apply list_elem_of_filter in Hin as [? _]. }
  rewrite add_columns, Hk. simpl. split.
  - intros [= <-]. by exists row, rest.
  - by intros (? & ? & [= <- <-] & ->).
Qed.

Lemma index_map_names rows : map idx_name (map snd (index_map rows)) = map fst (index_map rows).
Proof.
  rewrite map_map. assert (H : ∀ x, x ∈ index_map rows → idx_name (snd x) = fst x).
  { intros [k i] (row & rest & _ & ->)%index_map_elem. done. }
  induction (index_map rows) as [|x m IH]; [done|]. simpl. f_equal; [apply H; set_solver|].
  apply IH. intros y Hy. apply H. set_solver.
Qed.

Lemma index_map_spec rows :
  let indexes := map snd (foldl index_step [] rows) in
  StronglySorted key_before (map idx_name indexes) ∧
  (∀ k, k ∈ map idx_name indexes ↔ ∃ row, row ∈ rows ∧ index_name row = k) ∧
  ∀ i, i ∈ indexes →
    idx_columns i = index_columns (idx_name i) rows ∧
    ∃ row rest, filter (λ row, index_name row = idx_name i) rows = row :: rest ∧
      idx_isUnique i = is_unique_row row.
Proof.
  cbn zeta. rewrite index_map_eq, index_map_names. split_and!.
  - apply collect_ordered.
  - intros k. change (map fst (index_map rows)) with (fst <$> index_map rows).
    rewrite list_elem_of_fmap. split.
    + intros ([k' i] & -> & (row & rest & E & _)%index_map_elem). exists row.
      assert (Hin : row ∈ filter (λ row, index_name row = k') rows) by (rewrite E; set_solver).
      apply list_elem_of_filter in Hin. simpl. tauto.
    + intros (row & Hin & Hk). destruct (filter (λ row, index_name row = k) rows) as [|r0 rest] eqn:E.
      * assert (Hr : row ∈ filter (λ row, index_name row = k) rows) by by apply list_elem_of_filter.
        rewrite E in Hr. by apply elem_of_nil in Hr.
      * eexists (k, _). split; [done|]. apply index_map_elem. by exists r0, rest.
  - intros i ([k i'] & -> & (row & rest & E & ->)%index_map_elem)%(list_elem_of_fmap snd). simpl.
    split; [done|]. by exists row, rest.
Qed.

(** ** Unique columns *)

Definition names_column (row : list (option string)) : bool :=
  negb (sempty (index_name row)) && negb (sempty (column_name row)).

Definition unique_map (rows : list (list (option string))) : list (string * list string) :=
  foldl (collect_step names_column index_name (λ _, []) (λ row cols, cols ++ [column_name row])) [] rows.

Lemma unique_map_eq rows : foldl unique_step [] rows = unique_map rows.
Proof. done. Qed.

Lemma push_columns cols rows :
  foldl (λ cols row, cols ++ [column_name row]) cols rows = cols ++ map column_name rows.
Proof.
  revert cols. induction rows as [|row rows IH]; intros cols; simpl; [by rewrite app_nil_r|].
  by rewrite IH, <-app_assoc.
Qed.

Lemma unique_map_elem rows k cols :
  (k, cols) ∈ unique_map rows ↔
  cols ≠ [] ∧ cols = map column_name (rows_under names_column index_name k rows).
Proof.
  unfold unique_map. rewrite collect_elem. unfold collected.
  destruct (rows_under _ _ _ _) as [|row rest] eqn:E; [naive_solver|].
  rewrite push_columns. naive_solver.
Qed.

(** [col] is alone in a unique index other than the primary key *)
Definition alone_in_index (rows : list (list (option string))) (col : string) : Prop :=
  ∃ index, index ≠ "PRIMARY" ∧
    map column_name (rows_under names_column index_name index rows) = [col].

Lemma mark_unique_spec rows c :
  col_isUnique c = false →
  col_isUnique (mark_unique (foldl unique_step [] rows) c) = true ↔ alone_in_index rows (col_name c).
Proof.
  intros Hc. simpl. rewrite Hc, orb_false_r, unique_map_eq, existsb_exists. unfold alone_in_index. split.
  - intros ([k cols] & Hin%list_elem_of_In & H). apply unique_map_elem in Hin as [_ Hcols].
    unfold unique_alone in H. destruct cols as [|x [|]]; [done| |done].
    apply andb_true_iff in H as [->%String.eqb_eq Hk%negb_true_iff%String.eqb_neq]. by exists k.
  - intros (k & Hk & E). exists (k, [col_name c]). rewrite <-list_elem_of_In, unique_map_elem.
    split; [by rewrite E|]. unfold unique_alone. rewrite String.eqb_refl.
    by apply String.eqb_neq in Hk as ->.
Qed.

(** ** A catalog that stands still

    The interface of a server to the catalog operations: the answer to a query is a function of
    its text ([None]: it is refused), and no further result follows it. *)

Class CatalogServer (lib : Libmysql) (answer : string → option MyRes) : Prop := {
  cs_query h sql : my_query_ok lib (h ++ [MyQuery sql]) = bool_decide (is_Some (answer sql));
  cs_result h sql : my_result lib (h ++ [MyQuery sql; MyStore]) = answer sql;
  cs_next h sql : my_next lib (h ++ [MyQuery sql; MyStore; MyNext]) = NoMore;
  cs_next_refused h sql :
    answer sql = None → my_next lib (h ++ [MyQuery sql; MyNext]) = NoMore
}.

Section catalog.
Context (lib : Libmysql) (answer : string → option MyRes) `{!CatalogServer lib answer}.
Context (info : ConnectionInfo) (name : string) (fuel : nat) (Hfuel : 0 < fuel).

(** the rows of a query *)
Definition answered (sql : string) : list (list (option string)) :=
  match answer (c_str sql) with Some res => mr_rows res | None => [] end.

(** the operation gives [x] on an open session *)
Definition gives {A} (m : MyM A) (x : A) : Prop :=
  ∀ s, my_conn s = true → ∃ s', m s = (Some x, s') ∧ my_conn s' = true.

Lemma gives_ret {A} (x : A) : gives (mret x) x.
Proof. intros s H. by exists s. Qed.

Lemma gives_bind {A B} (m : MyM A) (f : A → MyM B) x y :
  gives m x → gives (f x) y → gives (m ≫= f) y.
Proof.
  intros Hm Hf s Hs. destruct (Hm s Hs) as (s1 & E & Hs1). destruct (Hf s1 Hs1) as (s2 & E2 & Hs2).
  exists s2. unfold mbind, Op_bind. by rewrite E.
Qed.

Lemma gives_mapM {A B} (m : A → MyM B) (f : A → B) l :
  (∀ x, gives (m x) (f x)) → gives (mapM m l) (map f l).
Proof.
  intros Hm. induction l as [|x l IH]; simpl; [apply gives_ret|].
  eapply gives_bind; [apply Hm|]. eapply gives_bind; [apply IH|]. apply gives_ret.
Qed.

Lemma drain_once s : my_next lib (my_events s ++ [MyNext]) = NoMore →
  drain lib fuel s = (Some tt, push_event MyNext s).
Proof.
  intros H. destruct fuel as [|n]; [lia|]. simpl. unfold mysql_next_result, call, mbind, Op_bind.
  by rewrite H.
Qed.

Lemma gives_select sql : gives (select lib fuel sql) (answered sql).
Proof.
  intros s Hs. unfold select, mysql_query, mysql_real_query, mysql_store_result, call, answered.
  unfold mbind, Op_bind, drainExtraResults. rewrite (cs_query (answer := answer)).
  destruct (answer (c_str sql)) as [res|] eqn:E; simpl.
  - rewrite <-app_assoc. simpl. rewrite (cs_result (answer := answer)), E.
    rewrite drain_once; [by eexists|]. simpl. rewrite <-!app_assoc. apply cs_next.
  - rewrite drain_once; [by eexists|]. simpl. rewrite <-app_assoc. by apply cs_next_refused.
Qed.

Lemma gives_connected {A} (otherwise : A) m x :
  gives m x → gives (when_connected lib info name otherwise m) x.
Proof.
  intros Hm s Hs. unfold when_connected, ensureConn, mbind, Op_bind. rewrite Hs. by apply Hm.
Qed.

Definition base_tables : list string := omap listed_name (answered (names_sql "BASE TABLE")).

Definition raw_table (tableName : string) : Table :=
  named info name tableName (map table_column (answered (describe_sql tableName))) []
    (map foreign_key (answered (foreign_keys_sql name tableName))).

Lemma gives_tables :
  gives (tables lib info name fuel) (populateIncomingForeignKeys (map raw_table base_tables)).
Proof.
  apply gives_connected. eapply gives_bind.
  { eapply gives_bind; [apply gives_select|apply gives_ret]. }
  eapply gives_bind; [|apply gives_ret]. apply gives_mapM. intros t.
  eapply gives_bind; [apply gives_select|]. eapply gives_bind; [apply gives_select|]. apply gives_ret.
Qed.

(** C16: The tables of a MySQL database are what its catalog says.  On a server whose catalog
    stands still, with distinct table names, [tables] ends and gives one table per name, in the
    server's order, each with exactly the columns [DESCRIBE] lists for it and its own foreign
    keys, in their order; its incoming keys are the keys of the listed tables that target it,
    each renamed to the table it comes from. *)
Theorem mysql_tables_spec s :
  my_conn s = true → NoDup base_tables →
  ∃ ts s', tables lib info name fuel s = (Some ts, s') ∧
    map tbl_name ts = base_tables ∧
    ∀ t, t ∈ ts →
      tbl_schema t = name ∧ tbl_fullName t = full_name info name (tbl_name t) ∧
      tbl_columns t = map table_column (answered (describe_sql (tbl_name t))) ∧
      tbl_foreignKeys t = map foreign_key (answered (foreign_keys_sql name (tbl_name t))) ∧
      ∀ fk, fk ∈ tbl_incomingForeignKeys t ↔
        ∃ source row, source ∈ base_tables ∧ row ∈ answered (foreign_keys_sql name source) ∧
          text row 1 = tbl_name t ∧
          fk = mkForeignKey (text row 3) (text row 0) source (text row 2) "" "".
Proof.
  intros Hs Hnd. destruct (gives_tables s Hs) as (s' & -> & _). eexists _, s'. split; [done|].
  assert (Hraw : map tbl_name (map raw_table base_tables) = base_tables).
  { rewrite map_map. apply map_id. }
  rewrite populate_nodup by (by rewrite Hraw). split; [rewrite map_map; exact Hraw|].
  intros t (t0 & -> & Ht)%(list_elem_of_fmap _ (map raw_table base_tables)).
  apply (list_elem_of_fmap raw_table) in Ht as (n & -> & _). simpl. split_and!; [done..|].
  intros fk. rewrite elem_of_mjoin_map. split.
  - intros (src & (m & -> & Hm)%(list_elem_of_fmap raw_table) & Hfk).
    apply elem_of_incoming_to in Hfk as (k & Hk & Hn & ->). simpl in Hk.
    apply (list_elem_of_fmap foreign_key) in Hk as (row & -> & Hrow). by exists m, row.
  - intros (m & row & Hm & Hrow & Hn & ->). exists (raw_table m).
    split; [by apply (list_elem_of_fmap_2 raw_table)|].
    apply elem_of_incoming_to. exists (foreign_key row). split_and!; [|done|done].
    simpl. by apply (list_elem_of_fmap_2 foreign_key).
Qed.

Definition described_columns (tableName : string) : list Column :=
  map (mark_unique (foldl unique_step [] (answered (unique_sql tableName))))
    (map table_column (answered (describe_sql tableName))).

Lemma gives_describe tableName :
  gives (describeTable lib info name fuel tableName)
    (named info name tableName (described_columns tableName)
       (map snd (foldl index_step [] (answered (indexes_sql tableName))))
       (map foreign_key (answered (foreign_keys_sql name tableName)))).
Proof.
  apply gives_connected. do 4 (eapply gives_bind; [apply gives_select|]). apply gives_ret.
Qed.

(** A described MySQL table.  Its columns are the rows of [DESCRIBE]; a column is marked
    unique exactly when it is the only column of a unique index that is not the primary key;
    its indexes are the index rows grouped by name, none twice, in the order of their names,
    each with all its columns in the order of its rows and unique as its first row says. *)
Lemma mysql_describe_spec s tableName :
  my_conn s = true →
  ∃ t s', describeTable lib info name fuel tableName s = (Some t, s') ∧
    tbl_name t = tableName ∧
    map col_name (tbl_columns t) = map (λ row, text row 0) (answered (describe_sql tableName)) ∧
    (∀ c, c ∈ tbl_columns t →
       col_isUnique c = true ↔ alone_in_index (answered (unique_sql tableName)) (col_name c)) ∧
    let rows := answered (indexes_sql tableName) in
    StronglySorted key_before (map idx_name (tbl_indexes t)) ∧
    (∀ k, k ∈ map idx_name (tbl_indexes t) ↔ ∃ row, row ∈ rows ∧ index_name row = k) ∧
    ∀ i, i ∈ tbl_indexes t →
      idx_columns i = index_columns (idx_name i) rows ∧
      ∃ row rest, filter (λ row, index_name row = idx_name i) rows = row :: rest ∧
        idx_isUnique i = is_unique_row row.
Proof.
  intros Hs. destruct (gives_describe tableName s Hs) as (s' & -> & _). eexists _, s'.
  split; [done|]. split; [done|]. split; [|split; [|apply index_map_spec]].
  - simpl. unfold described_columns. by rewrite !map_map.
  - intros c (c0 & -> & Hc)%(list_elem_of_fmap (mark_unique _)).
    apply (list_elem_of_fmap table_column) in Hc as (row & -> & _).
    exact (mark_unique_spec _ (table_column row) eq_refl).
Qed.
End catalog.

(** ** Errors that are not reported *)

(** the session cannot connect, or the server refuses every query *)
Definition no_answers (lib : Libmysql) (info : ConnectionInfo) (name : string) (fuel : nat)
    (s : MySession) : Prop :=
  (my_conn s = false ∧ ∃ e, openMysql lib info name 0 = inl e) ∨
  (my_conn s = true ∧ 0 < fuel ∧ CatalogServer lib (λ _, None)).

Section silent.
Context (lib : Libmysql) (info : ConnectionInfo) (name : string) (fuel : nat) (s : MySession).

Definition returns {A} (m : MyM A) (x : A) : Prop := ∃ s', m s = (Some x, s').

Lemma returns_otherwise {A} (x : A) (m : MyM A) :
  no_answers lib info name fuel s →
  (0 < fuel → CatalogServer lib (λ _, None) → gives m x) →
  returns (when_connected lib info name x m) x.
Proof.
  intros [(Hc & e & He)|(Hc & Hf & Hcs)] Hm.
  - exists s. unfold when_connected, ensureConn, mbind, Op_bind. by rewrite Hc, He.
  - specialize (Hm Hf Hcs). destruct (gives_connected lib info name x m x Hm s Hc) as (s' & E & _).
    by exists s'.
Qed.

Lemma gives_refused sql :
  0 < fuel → CatalogServer lib (λ _, None) → gives (select lib fuel sql) [].
Proof. intros Hf Hcs. by apply (gives_select lib (λ _, None)). Qed.

Lemma refused_query h sql :
  CatalogServer lib (λ _, None) → my_query_ok lib (h ++ [MyQuery sql]) = false.
Proof. intros Hcs. by rewrite (cs_query (answer := λ _, None)). Qed.

Lemma returns_data table limit offset w o :
  no_answers lib info name fuel s →
  returns (getTableData lib info name fuel table limit offset w o) [].
Proof.
  intros H. apply returns_otherwise; [done|]. intros Hf Hcs s0 Hs.
  unfold mysql_query, mysql_real_query, call, mbind, Op_bind.
  rewrite refused_query by done. by eexists.
Qed.

Lemma returns_failure sql rowLimit :
  no_answers lib info name fuel s →
  ∃ e, returns (execute lib info name fuel sql rowLimit) (one_failure e).
Proof.
  intros [(Hc & e & He)|(Hc & Hf & Hcs)]; unfold returns, execute, ensureConn, mbind, Op_bind; rewrite Hc.
  - rewrite He. by exists e, s.
  - unfold mysql_ping, mysql_real_query, call. rewrite refused_query by done. simpl.
    by eexists _, _.
Qed.

Local Ltac refused :=
  repeat (eapply gives_bind; [apply gives_refused; assumption|]); apply gives_ret.

(** A server that cannot be reached, or that refuses every query, looks like an empty
    database: the catalog and data operations of a MySQL handle return without an error, no
    table, view, routine, row or column and a count of zero, and a described table without
    columns, where [execute] reports the failure. *)
Lemma mysql_errors_silent :
  no_answers lib info name fuel s →
  returns (tables lib info name fuel) [] ∧ returns (views lib info name fuel) [] ∧
  returns (routines lib info name fuel) [] ∧
  (∀ t, returns (describeTable lib info name fuel t) (named info name t [] [] [])) ∧
  (∀ t limit offset w o, returns (getTableData lib info name fuel t limit offset w o) []) ∧
  (∀ t, returns (getColumnNames lib info name fuel t) []) ∧
  (∀ t w, returns (getRowCount lib info name fuel t w) 0%Z) ∧
  ∀ sql rowLimit, ∃ e, returns (execute lib info name fuel sql rowLimit) (one_failure e).
Proof.
  intros H. split_and!; intros; [apply returns_otherwise; [done|]; intros Hf Hcs..| | | |].
  - eapply gives_bind; [refused|]. eapply gives_bind; [apply (gives_mapM _ (λ n, named info name n [] [] []) [])|].
    + intros t. refused.
    + apply gives_ret.
  - eapply gives_bind; [refused|]. apply (gives_mapM _ (λ n, named info name n [] [] []) []).
    intros t. refused.
  - refused.
  - refused.
  - by apply returns_data.
  - apply returns_otherwise; [done|]. intros Hf Hcs. refused.
  - apply returns_otherwise; [done|]. intros Hf Hcs. refused.
  - by apply returns_failure.
Qed.
End silent.

(** ** A sample server *)

Definition answer_res (rows : list (list (option string))) : MyRes := mkMyRes [] rows.

(** two tables, [b] with a key to [a] and an index over two columns *)
Definition sample_answer (sql : string) : option MyRes :=
  answer_res <$>
  if (sql =? names_sql "BASE TABLE")%string then Some [[Some "a"]; [Some "b"]]
  else if (sql =? describe_sql "a")%string then
    Some [[Some "id"; Some "int"; Some "NO"; Some "PRI"; None; Some "auto_increment"]]
  else if (sql =? describe_sql "b")%string then
    Some [[Some "a_id"; Some "int"; Some "YES"; Some "UNI"; None; Some ""];
          [Some "n"; Some "int"; Some "YES"; Some ""; Some "0"; Some ""]]
  else if (sql =? unique_sql "b")%string then
    Some [[Some "b"; Some "0"; Some "u"; Some "1"; Some "a_id"]]
  else if (sql =? indexes_sql "b")%string then
    Some [[Some "b"; Some "0"; Some "u"; Some "1"; Some "a_id"];
          [Some "b"; Some "1"; Some "k"; Some "1"; Some "n"];
          [Some "b"; Some "1"; Some "k"; Some "2"; Some "a_id"]]
  else if (sql =? foreign_keys_sql "app" "b")%string then
    Some [[Some "a_id"; Some "a"; Some "id"; Some "fk"]]
  else None.

(** the query of the events, newest first *)
Fixpoint last_query (events : list my_event) : string :=
  match events with
  | [] => ""
  | MyQuery sql :: _ => sql
  | _ :: events => last_query events
  end.

Definition sample_server (answer : string → option MyRes) : Libmysql :=
  mkLibmysql true (λ _, true) (λ _, 7%Z) (λ _, true)
    (λ h, bool_decide (is_Some (answer (last_query (rev h))))) (λ h, answer (last_query (rev h)))
    (λ _, 0%Z) (λ _, 0%Z) (λ _, NoMore) (λ _, "refused").

#[export] Instance sample_catalog answer : CatalogServer (sample_server answer) answer.
Proof. split; intros; simpl; by rewrite ?rev_app_distr. Qed.

Definition sample_info : ConnectionInfo :=
  mkConnectionInfo MYSQL "local" "" "" 3306 "app" "" "" false Disable "" false.
Definition sample_session : MySession := mkMySession [] true 7.

Lemma mysql_tables_spec_witness :
  ∃ ts s', tables (sample_server sample_answer) sample_info "app" 1 sample_session = (Some ts, s') ∧
    map tbl_name ts = ["a"; "b"].
Proof.
  destruct (mysql_tables_spec (sample_server sample_answer) sample_answer sample_info "app" 1
              ltac:(lia) sample_session eq_refl) as (ts & s' & Ht & Hn & _).
  - vm_compute. repeat constructor; set_solver.
  - exists ts, s'. split; [exact Ht|exact Hn].
Defined.

Lemma mysql_describe_spec_witness :
  ∃ t s', describeTable (sample_server sample_answer) sample_info "app" 1 "b" sample_session =
            (Some t, s') ∧ tbl_name t = "b".
Proof.
  destruct (mysql_describe_spec (sample_server sample_answer) sample_answer sample_info "app" 1
              ltac:(lia) sample_session "b" eq_refl) as (t & s' & Ht & Hn & _).
  exists t, s'. split; [exact Ht|exact Hn].
Defined.

(** what it comes to *)
Example describe_b :
  let t := fst (describeTable (sample_server sample_answer) sample_info "app" 1 "b" sample_session) in
  option_map (λ t, (map idx_name (tbl_indexes t), map idx_columns (tbl_indexes t),
                    map col_isUnique (tbl_columns t))) t =
  Some (["k"; "u"], [["n"; "a_id"]; ["a_id"]], [true; false]).
Proof. vm_compute. reflexivity. Qed.

Lemma mysql_errors_silent_witness :
  returns sample_session (tables (sample_server (λ _, None)) sample_info "app" 1) [].
Proof.
  refine (proj1 (mysql_errors_silent (sample_server (λ _, None)) sample_info "app" 1 sample_session _)).
  right. split; [reflexivity|]. split; [lia|apply sample_catalog].
Defined.
