(* ===== verification/MySqlConnectionProps.v ===== *)
(** * The MySQL backend: properties of the connection

    Every handle of a connection keeps to the library's protocol; what dropping a database
    does to the connection; a key of several columns. *)

From S2P Require Import Prelude Types Effects ConnectionInfo DdlUtils Database MySql MySqlCatalog.
From S2P Require Import MySqlConnection MySqlProps.

(** ** Any use of a connection *)

(** an operation of the connection, or of the handle of a name *)
Inductive conn_op :=
  | ConnOpen | ConnClose | ConnDatabases
  | ConnCreate (opts : CreateDatabaseOptions)
  | ConnDrop (name : string)
  | ConnUse (name : string) (op : my_op).

Definition outcome_dropped {A} (m : MyC A) : MyC unit := m ;; mret tt.

Section connection.
Context (lib : Libmysql) (fuel : nat).

Definition use (name : string) (op : my_op) : MyC unit :=
  n ← database name;
  on_cached (λ info db, run_op lib info db fuel op) n.

Definition run_conn_op (op : conn_op) : MyC unit :=
  match op with
  | ConnOpen => outcome_dropped (open lib)
  | ConnClose => close
  | ConnDatabases => outcome_dropped (databases lib fuel)
  | ConnCreate opts => outcome_dropped (createDatabase lib fuel opts)
  | ConnDrop name => outcome_dropped (dropDatabase lib fuel name)
  | ConnUse name op => use name op
  end.

Fixpoint run_conn_ops (ops : list conn_op) : MyC unit :=
  match ops with
  | [] => mret tt
  | op :: ops => run_conn_op op ;; run_conn_ops ops
  end.

(** every cached object is cached under its own name, its session in a state of [P] *)
Definition sessions (P : protocol → Prop) (c : MyConnection) : Prop :=
  ∀ k d, mc_cache c !! k = Some d →
    md_name d = k ∧ P (protocol_of lib (my_events (md_session d))).

Definition between_commands : MyConnection → Prop := sessions (eq Ready).
Definition never_out_of_sync : MyConnection → Prop := sessions (λ st, st ≠ OutOfSync).

Lemma between_never c : between_commands c → never_out_of_sync c.
Proof. intros H k d Hk. destruct (H k d Hk) as [? <-]. done. Qed.

Definition keeps_sessions {A} (m : MyC A) : Prop :=
  ∀ c, between_commands c →
    match m c with
    | (Some _, c') => between_commands c'
    | (None, c') => never_out_of_sync c'
    end.

Lemma sessions_bind {A B} (m : MyC A) (f : A → MyC B) :
  keeps_sessions m → (∀ x, keeps_sessions (f x)) → keeps_sessions (m ≫= f).
Proof.
  intros Hm Hf c Hc. specialize (Hm c Hc). unfold mbind, Op_bind.
  destruct (m c) as [[x|] c']; [by apply Hf|done].
Qed.

Lemma sessions_ret {A} (x : A) : keeps_sessions (mret x).
Proof. by intros c H. Qed.

Lemma sessions_info : keeps_sessions get_info.
Proof. by intros c H. Qed.

Lemma sessions_modify f :
  (∀ c, between_commands c → between_commands (f c)) → keeps_sessions (modify f).
Proof. intros Hf c Hc. by apply Hf. Qed.

Lemma sessions_database name : keeps_sessions (database name).
Proof.
  intros c Hc. unfold database. destruct (mc_cache c !! _) eqn:E; [done|].
  intros k d. simpl. rewrite lookup_insert. case_decide as Hk; [|apply Hc].
  intros [= <-]. by subst.
Qed.

Lemma sessions_on_cached {A} (m : ConnectionInfo → string → MyM A) n :
  (∀ info name, keeps lib (eq Ready) (m info name) (λ _, eq Ready)) → keeps_sessions (on_cached m n).
Proof.
  intros Hm c Hc. unfold on_cached. destruct (mc_cache c !! n) as [d|] eqn:E; [|by apply between_never].
  destruct (Hc n d E) as [Hn Hd]. specialize (Hm (md_info d) (md_name d) (md_session d) Hd).
  destruct (m _ _ _) as [[x|] s']; intros k d'; simpl; rewrite lookup_insert;
    (case_decide as Hk; [intros [= <-]; subst k; by split|intros Hd'; try apply (between_never c Hc)]).
  - by apply Hc.
  - done.
Qed.

Lemma sessions_on_default {A} (m : ConnectionInfo → string → MyM A) :
  (∀ info name, keeps lib (eq Ready) (m info name) (λ _, eq Ready)) → keeps_sessions (on_default m).
Proof.
  intros Hm. apply sessions_bind; [apply sessions_database|]. intros n. by apply sessions_on_cached.
Qed.
Lemma sessions_execute sql rowLimit : keeps_sessions (execute_default lib fuel sql rowLimit).
Proof. apply sessions_on_default. intros info name. apply keeps_execute. Qed.

Lemma sessions_mapM {A B} (m : A → MyC B) l :
  (∀ x, keeps_sessions (m x)) → keeps_sessions (mapM m l).
Proof.
  intros Hm. induction l as [|x l IH]; simpl; [apply sessions_ret|].
  apply sessions_bind; [apply Hm|]. intros y. apply sessions_bind; [apply IH|].
  intros ys. apply sessions_ret.
Qed.

Lemma sessions_create opts : keeps_sessions (createDatabase lib fuel opts).
Proof.
  apply sessions_bind; [apply sessions_database|]. intros n.
  destruct (sempty _); [apply sessions_ret|]. destruct (_ && _); [apply sessions_ret|].
  destruct (_ && _); [apply sessions_ret|].
  apply sessions_bind; [apply sessions_execute|]. intros r. apply sessions_ret.
Qed.

Lemma sessions_drop name : keeps_sessions (dropDatabase lib fuel name).
Proof.
  apply sessions_bind; [apply sessions_info|]. intros info.
  apply sessions_bind.
  { apply sessions_modify. intros c Hc k d. simpl. rewrite lookup_delete. case_decide; [done|].
    apply Hc. }
  intros _. destruct (_ =? _)%string.
  - unfold drop_connected. destruct (openMysql lib info "" 0) as [e|events]; [apply sessions_ret|].
    destruct (negb _); [apply sessions_ret|].
    apply sessions_bind; [apply sessions_info|]. intros info'.
    apply sessions_bind; [by apply sessions_modify|]. intros u. apply sessions_ret.
  - apply sessions_bind; [apply sessions_execute|]. intros r. apply sessions_ret.
Qed.

Lemma sessions_op op : keeps_sessions (run_conn_op op).
Proof.
  destruct op; simpl; try (apply sessions_bind; [|intros x; apply sessions_ret]).
  - apply sessions_bind.
    { apply sessions_on_default. intros info name.
      eapply my_keeps_bind; [apply keeps_ensureConn|]. intros e. apply my_keeps_ret. }
    intros st. apply sessions_bind; [by apply sessions_modify|]. intros u. apply sessions_ret.
  - by apply sessions_modify.
  - apply sessions_bind; [apply sessions_execute|]. intros r.
    destruct (negb _); [apply sessions_ret|]. destruct (qr_statements r); [apply sessions_ret|].
    apply sessions_mapM. apply sessions_database.
  - apply sessions_create.
  - apply sessions_drop.
  - apply sessions_bind; [apply sessions_database|]. intros n. apply sessions_on_cached.
    intros info db. apply keeps_op.
Qed.

(** C14: No MySQL session is ever spoken to out of order.  Whatever is done with a connection
    and with the handles it caches, in whatever order and whatever the server answers: every
    handle stays cached under its own name, no query or ping is sent on its session before all
    results of the query before it were stored and asked for, and unless an operation is still
    reading an answer without end, no session has anything left to read. *)
Theorem connection_in_sync info ops :
  let '(r, c) := run_conn_ops ops (new_connection info) in
  never_out_of_sync c ∧ (r = Some tt → between_commands c).
Proof.
  assert (H : keeps_sessions (run_conn_ops ops)).
  { induction ops as [|op ops IH]; simpl; [apply sessions_ret|].
    apply sessions_bind; [apply sessions_op|]. intros u. exact IH. }
  assert (H0 : between_commands (new_connection info)).
  { intros k d Hk. simpl in Hk. by rewrite lookup_empty in Hk. }
  specialize (H _ H0). destruct (run_conn_ops ops _) as [[[]|] c].
  - split; [by apply between_never|done].
  - done.
Qed.
End connection.

(** ** Dropping a database *)

Lemma on_default_spec {A} (m : ConnectionInfo → string → MyM A) c :
  let '(_, c') := on_default m c in
  mc_info c' = mc_info c ∧ mc_open c' = mc_open c ∧
  ∀ k, k ≠ ci_database (mc_info c) → mc_cache c' !! k = mc_cache c !! k.
Proof.
  unfold on_default, database, on_cached, mbind, Op_bind. simpl.
  destruct (mc_cache c !! ci_database (mc_info c)) as [d|] eqn:E; simpl;
    [rewrite E|rewrite lookup_insert_eq]; destruct (m _ _ _) as [r s]; simpl;
    (split_and!; [done..|]); intros k Hk; rewrite !lookup_insert_ne by done; done.
Qed.

(** Dropping a MySQL database.  Whatever happens the connection stays as open as it was,
    the name's handle is gone from the cache, even when the server refused, and no other
    handle but the default one is touched; the default database stays what it was, except
    that after dropping it, exactly on success, there is none. *)
Lemma mysql_dropDatabase lib fuel name c :
  let '(o, c') := dropDatabase lib fuel name c in
  let default c := ci_database (mc_info c) in
  mc_open c' = mc_open c ∧ mc_cache c' !! name = None ∧
  (∀ k, k ≠ name → k ≠ default c → mc_cache c' !! k = mc_cache c !! k) ∧
  ((default c' = default c ∧ (name = default c → o ≠ Some (true, ""))) ∨
   (name = default c ∧ o = Some (true, "") ∧ default c' = "")).
Proof.
  unfold dropDatabase, get_info, modify, mbind, Op_bind. set (c1 := set_cache (delete name) c).
  assert (Hc1 : ∀ k, k ≠ name → mc_cache c1 !! k = mc_cache c !! k).
  { intros k Hk. simpl. by rewrite lookup_delete_ne. }
  assert (Hn : mc_cache c1 !! name = None) by apply lookup_delete_eq.
  destruct (String.eqb_spec name (ci_database (mc_info c))) as [->|Hne].
  - unfold drop_connected. destruct (openMysql lib (mc_info c) "" 0) as [e|events]; simpl.
    { split_and!; [done|exact Hn|intros; by apply Hc1|by left]. }
    destruct (negb _); simpl; (split_and!; [done|exact Hn|intros; by apply Hc1|]);
      [by left|by right].
  - pose proof (on_default_spec (λ info db, execute lib info db fuel (drop_sql name) 0) c1) as H.
    unfold execute_default. destruct (on_default _ c1) as [[r|] c']; destruct H as (Hi & Ho & Hk);
      simpl; rewrite Hi, Ho; (split_and!; [done|by rewrite Hk| |by left]);
      intros k Hkn Hkd; rewrite Hk by done; by apply Hc1.
Qed.

(** ** A key of several columns *)

(** each key column gets a [PRIMARY KEY] of its own, which the server refuses when there are
    two: the interface's [createTable], which this one overrides, writes one clause *)
Example composite_key_statement :
  let column name := mkColumn name "INT" "" "" true true false false in
  create_table_sql (mkTable "t" "" "" "" "" [column "a"; column "b"] [] [] [] (-1)) =
  "CREATE TABLE `t` (`a` INT PRIMARY KEY, `b` INT PRIMARY KEY)".
Proof. reflexivity. Qed.
