(* ===== verification/Sqlite.v ===== *)
(** * The SQLite backend

    [src/sqlite_connection.cpp]: scripts of statements, the catalog through [sqlite_master] and
    the table-valued pragmas, and the connection with the nodes it hands out.

    SQLite is the parameter [Sqlite].  Each call of it is an event; it answers from all events
    so far, the call included.  Handles and statements are objects ([Objects]). *)

From S2P Require Import Prelude Types Effects Objects Sharing ConnectionInfo Database Rows.

(** ** SQLite *)

(** a value: null, or its text (nothing when memory runs out) and its number *)
Inductive sq_value := SqNull | SqValue (text : option string) (number : Z).

(** [d] is a handle, [s] a statement *)
Inductive sq_event :=
  | SqOpen (d : nat) (path : string) (readOnly : bool)      (* [sqlite3_open_v2] *)
  | SqClose (d : nat)                                       (* [sqlite3_close] *)
  | SqErrmsg (d : nat)                                      (* [sqlite3_errmsg] *)
  | SqPrepare (s d : nat) (sql : string)                    (* [sqlite3_prepare_v2] *)
  | SqBind (s : nat) (value : string)                       (* [sqlite3_bind_text] *)
  | SqStep (s : nat)                                        (* [sqlite3_step] *)
  | SqChanges (d : nat)                                     (* [sqlite3_changes] *)
  | SqInterrupt (d : nat)                                   (* [sqlite3_interrupt] *)
  | SqFinalize (s : nat).                                   (* [sqlite3_finalize] *)

(** a failed open may leave a handle, which has the error's message *)
Inductive sq_opened := SqOpened | OpenFails | NoHandle.
(** a statement's columns and the text behind it; text without a statement gives none *)
Inductive sq_prepared :=
  | PrepareFails
  | NoStatement (tail : string)
  | Prepared (columns : list string) (tail : string).
Inductive sq_stepped := StepRow (values : list sq_value) | StepDone | StepFails.

Notation SqLog := (list sq_event).
Notation SqM := (Eff (World sq_event)).

Record Sqlite := mkSqlite {
  sq_open : SqLog → sq_opened;
  sq_prepare : SqLog → sq_prepared;
  sq_step : SqLog → sq_stepped;
  sq_changes : SqLog → Z;
  sq_errmsg : SqLog → string
}.

Definition value_at (row : list sq_value) (col : nat) : sq_value := default SqNull (row !! col).

Definition columnText (row : list sq_value) (col : nat) (sentinelNull : bool) : string :=
  match value_at row col with
  | SqNull => if sentinelNull then NULL_SENTINEL else ""
  | SqValue text _ => default "" text
  end.

(** [sqlite3_column_int64], [sqlite3_column_int] *)
Definition column_int64 (row : list sq_value) (col : nat) : Z :=
  match value_at row col with SqNull => 0 | SqValue _ number => number end.
Definition column_int (row : list sq_value) (col : nat) : Z := to_int (column_int64 row col).

Definition quoteIdent (ident : string) : string :=
  str1 dquote +:+ double_char dquote ident +:+ str1 dquote.

(** ** Queries *)

Section library.
Context (lib : Sqlite).

Definition errmsg (d : nat) : SqM string := call (SqErrmsg d) (sq_errmsg lib).
Definition sqlite3_step (s : nat) : SqM sq_stepped := call (SqStep s) (sq_step lib).
Definition finalize (s : nat) : SqM unit := call (SqFinalize s) (λ _, tt).
Definition close_handle (d : nat) : SqM unit := call (SqClose d) (λ _, tt).
Definition interrupt (d : nat) : SqM unit := call (SqInterrupt d) (λ _, tt).

(** a handle, or the message why there is none *)
Definition openHandle (info : ConnectionInfo) : SqM (string + nat) :=
  d ← fresh;
  opened ← call (SqOpen d (c_str (ci_path info)) (ci_readOnly info)) (sq_open lib);
  match opened with
  | SqOpened => mret (inr d)
  | OpenFails => err ← errmsg d; close_handle d ;; mret (inl err)
  | NoHandle => mret (inl "Unable to open database")
  end.

(** [sqlite3_prepare_v2]; [f] runs on a prepared statement, which is finalized behind it *)
Definition prepare {A} (d : nat) (sql : string) (fails : SqM A) (none : string → SqM A)
    (f : nat → list string → string → SqM A) : SqM A :=
  s ← fresh;
  p ← call (SqPrepare s d (c_str sql)) (sq_prepare lib);
  match p with
  | PrepareFails => fails
  | NoStatement tail => none tail
  | Prepared columns tail => finally (f s columns tail) (finalize s)
  end.

Context (fuel : nat).

(** the loop over the rows, and whether it ended at their end *)
Fixpoint step_rows {A} (n : nat) (s : nat) (cb : A → list sq_value → A) (acc : A)
    : SqM (A * bool) :=
  match n with
  | 0 => hangs
  | S n =>
      rc ← sqlite3_step s;
      match rc with
      | StepRow row => step_rows n s cb (cb acc row)
      | StepDone => mret (acc, true)
      | StepFails => mret (acc, false)
      end
  end.

(** [cb] adds a row to what is collected; stepping no statement is an error *)
Definition queryRows {A} (d : nat) (sql : string) (cb : A → list sq_value → A) (acc : A) : SqM A :=
  let throw_error := err ← errmsg d; throws err in
  prepare d sql throw_error (λ _, throw_error)
    (λ s _ _,
       r ← step_rows fuel s cb acc;
       if snd r : bool then mret (fst r) else throw_error).

Definition size_sql : string :=
  "SELECT SUM(d.pgsize) FROM sqlite_master m " +:+
  "LEFT JOIN dbstat d ON d.name = m.name " +:+
  "WHERE m.tbl_name = ? AND m.type IN ('table', 'index')".

Definition getTableSizeBytes (d : nat) (tableName : string) : SqM Z :=
  prepare d size_sql (mret (-1)%Z) (λ _, mret (-1)%Z)
    (λ s _ _,
       call (SqBind s (c_str tableName)) (λ _, tt) ;;
       rc ← sqlite3_step s;
       mret (match rc with
             | StepRow row => match value_at row 0 with SqNull => (-1)%Z | _ => column_int64 row 0 end
             | _ => (-1)%Z
             end)).

(** ** Scripts *)

Definition row_text (columns : list string) (row : list sq_value) : list string :=
  imap (λ i _, columnText row i true) columns.

(** the rows kept, and whether the last step failed *)
Fixpoint row_loop (n : nat) (s : nat) (columns : list string) (rowLimit : Z)
    (rows : list (list string)) : SqM (list (list string) * bool) :=
  match n with
  | 0 => hangs
  | S n =>
      if below_limit rowLimit (length rows) then
        rc ← sqlite3_step s;
        match rc with
        | StepRow row => row_loop n s columns rowLimit (rows ++ [row_text columns row])
        | StepDone => mret (rows, false)
        | StepFails => mret (rows, true)
        end
      else mret (rows, false)
  end.

Definition run_statement (d s : nat) (columns : list string) (rowLimit : Z) : SqM StatementResult :=
  match columns with
  | [] =>
      rc ← sqlite3_step s;
      match rc with
      | StepFails => err ← errmsg d; mret (failure err)
      | _ =>
          n ← call (SqChanges d) (sq_changes lib);
          mret (mkStatementResult true "" [] [] n "Query executed successfully")
      end
  | _ =>
      r ← row_loop fuel s columns rowLimit [];
      err ← (if snd r : bool then errmsg d else mret "");
      mret (mkStatementResult (negb (snd r)) err columns (fst r) 0 (returned (length (fst r))))
  end.

Fixpoint script_loop (n : nat) (d : nat) (rowLimit : Z) (remaining : string)
    (statements : list StatementResult) : SqM (list StatementResult) :=
  match n with
  | 0 => hangs
  | S n =>
      let remaining := lstrip isspace remaining in
      if sempty remaining then mret statements
      else
        next ← prepare d remaining
          (err ← errmsg d; mret (statements ++ [failure err], None))
          (λ tail, mret (statements, Some tail))
          (λ s columns tail,
             r ← run_statement d s columns rowLimit;
             mret (statements ++ [r], if sr_success r then Some tail else None));
        match snd next with
        | Some tail => script_loop n d rowLimit tail (fst next)
        | None => mret (fst next)
        end
  end.

Definition runMultiStatement (d : nat) (query : string) (rowLimit : Z) : SqM QueryResult :=
  statements ← script_loop fuel d rowLimit (c_str query) [];
  mret (mkQueryResult statements []).

(** ** The catalog *)

Definition table_info_sql (name : string) : string := "PRAGMA table_info(" +:+ quoteIdent name +:+ ")".
Definition foreign_keys_sql (name : string) : string :=
  "PRAGMA foreign_key_list(" +:+ quoteIdent name +:+ ")".
Definition index_list_sql (name : string) : string := "PRAGMA index_list(" +:+ quoteIdent name +:+ ")".
Definition index_info_sql (name : string) : string := "PRAGMA index_info(" +:+ quoteIdent name +:+ ")".

Definition table_column (row : list sq_value) : Column :=
  mkColumn (columnText row 1 false) (columnText row 2 false) (columnText row 4 false) ""
    (negb (column_int row 5 =? 0)%Z) (negb (column_int row 3 =? 0)%Z) false false.

Definition foreign_key (tn : string) (row : list sq_value) : ForeignKey :=
  mkForeignKey ("fk_" +:+ tn +:+ "_" +:+ columnText row 3 false) (columnText row 3 false)
    (columnText row 2 false) (columnText row 4 false) (columnText row 6 false)
    (columnText row 5 false).

Definition listed_index (row : list sq_value) : Index :=
  mkIndex (columnText row 1 false) [] (negb (column_int row 2 =? 0)%Z)
    (columnText row 3 false =? "pk")%string "BTREE".

Definition push {A} (f : list sq_value → A) (acc : list A) (row : list sq_value) : list A :=
  acc ++ [f row].

Definition add_index_column (i : Index) (row : list sq_value) : Index :=
  mkIndex (idx_name i) (idx_columns i ++ [columnText row 2 false]) (idx_isUnique i) (idx_isPrimary i)
    (idx_type i).

Definition load (d : nat) (connName tn : string) (isView : bool) : SqM Table :=
  columns ← queryRows d (table_info_sql tn) (push table_column) [];
  let table indexes foreignKeys size :=
    mkTable tn "" "" "" (connName +:+ "." +:+ tn) columns indexes foreignKeys [] size in
  if isView then mret (table [] [] (-1)%Z)
  else
    foreignKeys ← queryRows d (foreign_keys_sql tn) (push (foreign_key tn)) [];
    listed ← queryRows d (index_list_sql tn) (push listed_index) [];
    indexes ← mapM (λ i, queryRows d (index_info_sql (idx_name i)) add_index_column i) listed;
    size ← getTableSizeBytes d tn;
    mret (table indexes foreignKeys size).

Definition tables_sql : string :=
  "SELECT name FROM sqlite_master WHERE type='table' AND name NOT LIKE 'sqlite_%' " +:+
  "ORDER BY name".

Definition tables (d : nat) (connName : string) : SqM (list Table) :=
  names ← queryRows d tables_sql (push (λ row, columnText row 0 false)) [];
  result ← mapM (λ n, load d connName n false) names;
  mret (populateIncomingForeignKeys result).

Definition views_sql : string := "SELECT name, sql FROM sqlite_master WHERE type='view' ORDER BY name".

Definition views (d : nat) (connName : string) : SqM (list Table) :=
  rows ← queryRows d views_sql (push (λ row, (columnText row 0 false, columnText row 1 false))) [];
  mapM (λ row, v ← load d connName (fst row) true; mret (set_definition (view_body (snd row)) v)) rows.

Definition has_sequences_sql : string :=
  "SELECT name FROM sqlite_master WHERE type='table' AND name='sqlite_sequence'".
Definition sequences_sql : string := "SELECT name FROM sqlite_sequence ORDER BY name".

Definition sequences (d : nat) : SqM (list string) :=
  found ← queryRows d has_sequences_sql (λ _ _, true) false;
  if found : bool then queryRows d sequences_sql (push (λ row, columnText row 0 false)) []
  else mret [].

Definition describeTable (d : nat) (connName tableName : string) : SqM Table :=
  load d connName tableName false.

(** ** The connection *)

(** [SQLiteDatabaseNode] *)
Record SqNode := mkSqNode { sn_handle : nat; sn_name : string; sn_connName : string }.

#[export] Instance sqlite_backend : Backend sq_event SqNode :=
  mkBackend sn_handle (λ _, None) close_handle (λ _, mret tt).

Notation SqC := (ShM sq_event SqNode).

Definition path_separator (c : ascii) : bool := (c =? "/")%char || (c =? "\")%char.

(** what follows the last separator *)
Definition fileNameOf (p : string) : string :=
  sdrop (strlen p - span_len (λ c, negb (path_separator c)) (srev p)) p.

Context (info : ConnectionInfo).

Definition open : SqC Status :=
  handle ← get_resource;
  match handle with
  | Some _ => mret (true, "")
  | None =>
      opened ← on_world (openHandle info);
      match opened with
      | inl err => mret (false, err)
      | inr d => set_resource (Some d) ;; reset_default ;; mret (true, "")
      end
  end.

Definition close : SqC unit := reset_default ;; reset_resource.

Definition isOpen : SqC bool := handle ← get_resource; mret (bool_decide (is_Some handle)).
Definition handle : SqC (option nat) := get_resource.

Definition node_of (d : nat) : SqNode := mkSqNode d (fileNameOf (ci_path info)) (ci_name info).

Definition database : SqC (option nat) :=
  handle ← get_resource;
  match handle with
  | None => mret None
  | Some d =>
      default ← get_default;
      n ← match default with
          | Some n => mret n
          | None => n ← make_node (node_of d); set_default (Some n) ;; mret n
          end;
      n ← hand_out n;
      mret (Some n)
  end.

Definition databases : SqC (list nat) :=
  db ← database;
  mret (match db with Some n => [n] | None => [] end).

Definition openDatabase : SqC (option nat) :=
  opened ← on_world (openHandle info);
  match opened with
  | inl _ => mret None
  | inr d => n ← make_node (node_of d); n ← hand_out n; mret (Some n)
  end.
End library.
