(* ===== verification/SqliteProps.v ===== *)
(** * The SQLite backend: properties of handles

    No handle of SQLite is used after it is closed, none is left open without an owner, and
    every statement is finalized. *)

From S2P Require Import Prelude Types Effects Objects Sharing ConnectionInfo Database Sqlite.

Section objects.
Context (lib : Sqlite).

(** what a call does to handles and statements *)
Definition sq_actions (log : SqLog) (e : sq_event) : list action :=
  match e with
  | SqOpen d _ _ => match sq_open lib log with NoHandle => [] | _ => [Make d None] end
  | SqClose d => [Free d]
  | SqErrmsg d | SqChanges d | SqInterrupt d => [Use d]
  | SqPrepare s d _ =>
      Use d :: match sq_prepare lib log with Prepared _ _ => [Make s (Some d)] | _ => [] end
  | SqBind s _ | SqStep s => [Use s]
  | SqFinalize s => [Free s]
  end.

Notation Live := (Live sq_actions).

(** ** Calls on a handle that exists *)

Section handle.
Context (d : nat) (L : Alive) (Hd : is_Some (L !! d)).

Lemma use_here o L' e {A} (answer : SqLog → A) :
  is_Some (L' !! o) → (∀ log, sq_actions log e = [Use o]) → keeps (Live L') (call e answer).
Proof. intros Ho He. by eapply live_uses. Qed.

Lemma keeps_errmsg : keeps (Live L) (errmsg lib d).
Proof. by apply (use_here d). Qed.

Lemma keeps_prepare {A} sql (fails : SqM A) none f :
  keeps (Live L) fails → (∀ tail, keeps (Live L) (none tail)) →
  (∀ s columns tail, L !! s = None → keeps (Live (<[s := Some d]> L)) (f s columns tail)) →
  keeps (Live L) (prepare lib d sql fails none f).
Proof.
  intros Hfails Hnone Hf. unfold prepare.
  apply live_make with (made := λ p, match p with Prepared _ _ => true | _ => false end) (parent := Some d).
  - intros o log. simpl. unfold exists_in at 1. rewrite bool_decide_eq_true_2 by done.
    destruct (sq_prepare lib log); [done..|]. simpl. destruct (exists_in L o); [done|].
    by destruct (exists_in L d).
  - by intros p [= <-].
  - intros s [| |columns tail] Hs Hc Hp; [done..|]. intros _.
    apply live_scope; [done..|by apply Hf].
  - intros s [|tail|]; [intros _; exact Hfails|intros _; exact (Hnone tail)|done].
Qed.

Lemma keeps_here : keeps (Live L) (errmsg lib d) ∧ is_Some (L !! d).
Proof. split; [apply keeps_errmsg|done]. Qed.
End handle.

Hint Resolve keeps_errmsg : keeps.

Lemma keeps_step s L : is_Some (L !! s) → keeps (Live L) (sqlite3_step lib s).
Proof. intros Hs. by apply (use_here s). Qed.

Hint Resolve keeps_step : keeps.

Lemma keeps_step_rows {A} n s L (cb : A → list sq_value → A) acc :
  is_Some (L !! s) → keeps (Live L) (step_rows lib n s cb acc).
Proof.
  intros Hs. revert acc. induction n as [|n IH]; intros acc; cbn [step_rows]; keeping.
Qed.

Lemma keeps_row_loop n s L columns rowLimit rows :
  is_Some (L !! s) → keeps (Live L) (row_loop lib n s columns rowLimit rows).
Proof.
  intros Hs. revert rows. induction n as [|n IH]; intros rows; cbn [row_loop]; keeping.
Qed.

Hint Resolve keeps_step_rows keeps_row_loop : keeps.

(** ** Operations on a handle *)

Section operations.
Context (fuel d : nat) (L : Alive) (Hd : is_Some (L !! d)).

Lemma sq_keeps_query {A} sql (cb : A → list sq_value → A) acc :
  keeps (Live L) (queryRows lib fuel d sql cb acc).
Proof.
  unfold queryRows. apply keeps_prepare; [done|keeping..].
Qed.

Lemma keeps_size name : keeps (Live L) (getTableSizeBytes lib d name).
Proof.
  unfold getTableSizeBytes. apply keeps_prepare; [done|keeping..].
  eapply use_here; [apply made_there|done].
Qed.

Hint Resolve sq_keeps_query keeps_size : keeps.

Lemma sq_keeps_load connName tn isView : keeps (Live L) (load lib fuel d connName tn isView).
Proof. unfold load. keeping. Qed.

Hint Resolve sq_keeps_load : keeps.

Lemma sq_keeps_tables connName : keeps (Live L) (tables lib fuel d connName).
Proof. unfold tables. keeping. Qed.

Lemma sq_keeps_views connName : keeps (Live L) (views lib fuel d connName).
Proof. unfold views. keeping. Qed.

Lemma sq_keeps_sequences : keeps (Live L) (sequences lib fuel d).
Proof. unfold sequences. keeping. Qed.

Lemma keeps_statement s columns rowLimit :
  is_Some (L !! s) → keeps (Live L) (run_statement lib fuel d s columns rowLimit).
Proof.
  intros Hs. unfold run_statement. keeping; by apply (use_here d).
Qed.

End operations.

Lemma keeps_script fuel n d L rowLimit remaining statements :
  is_Some (L !! d) → keeps (Live L) (script_loop lib fuel n d rowLimit remaining statements).
Proof.
  intros Hd. revert remaining statements.
  induction n as [|n IH]; intros remaining statements; cbn [script_loop]; [apply keeps_hangs|].
  destruct (sempty _); [apply keeps_ret|]. apply keeps_bind.
  - apply keeps_prepare; [done|keeping|keeping|]. intros s columns tail Hs.
    apply keeps_bind; [|intros r; apply keeps_ret]. apply keeps_statement; auto with keeps.
  - intros [sts [tail|]]; cbn [fst snd]; [apply IH|apply keeps_ret].
Qed.

Lemma sq_keeps_run fuel d L query rowLimit :
  is_Some (L !! d) → keeps (Live L) (runMultiStatement lib fuel d query rowLimit).
Proof.
  intros Hd. apply keeps_bind; [by apply keeps_script|]. intros r. apply keeps_ret.
Qed.

(** ** The connection *)

#[export] Instance sqlite_laws : BackendLaws sq_actions.
Proof. split; [|done]. intros m r E Hr Hc. by apply live_free. Qed.

Lemma sq_keeps_close : keeps (Sound sq_actions None None) close.
Proof. apply keeps_bind; [|intros _]; [exact (keeps_reset_default sq_actions)|exact (keeps_reset_resource sq_actions)]. Qed.

(** opening makes a handle, or none and frees what a failure left *)
Lemma sq_opens info L :
  triple (Live L) (openHandle lib info)
    (λ r w, match r with inr d => L !! d = None ∧ Live (<[d := None]> L) w | inl _ => Live L w end)
    (Live L).
Proof.
  unfold openHandle.
  apply live_make with (made := λ o, match o with NoHandle => false | _ => true end) (parent := None).
  - intros o log. simpl. destruct (sq_open lib log); simpl; by destruct (exists_in L o).
  - done.
  - intros d [| |] Hd Hc _ Hm; [intros w Hw; by split| |done].
    eapply triple_bind; [apply (live_uses sq_actions (SqErrmsg d) _ _ d); [done|apply made_there]|]. intros err.
    eapply (triple_bind _ _ (λ _, Live L)); [|intros []; by intros w Hw].
    eapply triple_weaken; [apply (live_free sq_actions (SqClose d) (<[d := None]> L) d)|done| |done].
    + done.
    + apply made_there.
    + by apply has_child_fresh.
    + intros [] w. by rewrite delete_insert_id.
  - intros d [| |]; [done..|]. by intros _ w Hw.
Qed.

(** ** What a program does with a connection *)

Section program.
Context (fuel : nat) (info : ConnectionInfo).
Notation S := (Sound sq_actions None None).

Inductive sq_use :=
  | UseExecute (sql : string) (rowLimit : Z)
  | UseTables | UseViews | UseSequences
  | UseDescribe (tableName : string)
  | UseCancel.

Inductive sq_op :=
  | OpOpen | OpClose | OpDatabase | OpDatabases | OpOpenDatabase
  | OpRelease (n : nat)
  | OpUse (n : nat) (u : sq_use).

Definition ignore {St A} (m : Eff St A) : Eff St unit := m ;; mret tt.

Definition use_node (u : sq_use) (x : SqNode) : SqM unit :=
  let d := sn_handle x in
  match u with
  | UseExecute sql rowLimit => ignore (runMultiStatement lib fuel d sql rowLimit)
  | UseTables => ignore (tables lib fuel d (sn_connName x))
  | UseViews => ignore (views lib fuel d (sn_connName x))
  | UseSequences => ignore (sequences lib fuel d)
  | UseDescribe tableName => ignore (describeTable lib fuel d (sn_connName x) tableName)
  | UseCancel => interrupt d
  end.

Definition perform (op : sq_op) : ShM sq_event SqNode unit :=
  match op with
  | OpOpen => ignore (open lib info)
  | OpClose => close
  | OpDatabase => ignore (database info)
  | OpDatabases => ignore (databases info)
  | OpOpenDatabase => ignore (openDatabase lib info)
  | OpRelease n => give_back n
  | OpUse n u => through n (use_node u)
  end.

Lemma sq_keeps_ignore {St A} (P : St → Prop) (m : Eff St A) : keeps P m → keeps P (ignore m).
Proof. intros Hm. apply keeps_bind; [done|]. intros x. apply keeps_ret. Qed.

Lemma sq_keeps_use u x L : is_Some (L !! sn_handle x) → keeps (Live L) (use_node u x).
Proof.
  intros Hd. destruct u; cbn [use_node]; try apply sq_keeps_ignore.
  - by apply sq_keeps_run.
  - by apply sq_keeps_tables.
  - by apply sq_keeps_views.
  - by apply sq_keeps_sequences.
  - by apply sq_keeps_load.
  - by apply (use_here (sn_handle x)).
Qed.

Definition opened_handle (r : string + nat) : option (nat * option nat) :=
  match r with inr d => Some (d, None) | inl _ => None end.

Lemma sound_opened s :
  S s → match on_world (Node := SqNode) (openHandle lib info) s with
        | (Done x, s') => Sound sq_actions None (opened_handle x) s' ∧ sh_resource s' = sh_resource s ∧
                          sh_default s' = sh_default s
        | (Throws _, s') => S s'
        | (Hangs, _) => True
        end.
Proof.
  intros Hs. apply sound_make; [|done]. intros L _.
  eapply triple_weaken; [apply sq_opens|done| |done]. by intros [e|d] w H.
Qed.

Lemma sq_keeps_open : keeps S (open lib info).
Proof.
  intros s Hs. unfold open, get_resource, mbind, Eff_bind.
  destruct (sh_resource s) as [d|] eqn:Hr; [done|]. pose proof (sound_opened s Hs) as H.
  destruct (on_world _ s) as [[[err|d]|e|] s']; [by destruct H|destruct H as (H & Hr' & _)|done..].
  rewrite Hr in Hr'. pose proof (sound_keep sq_actions d s' Hr' H) as Hk. simpl in Hk |- *.
  pose proof (keeps_reset_default sq_actions _ Hk) as Hd. simpl in Hd.
  by destruct (reset_default _) as [[[]|e|] s2].
Qed.

Lemma sq_keeps_database : keeps S (database info).
Proof.
  intros s Hs. unfold database, get_resource, get_default, mbind, Eff_bind.
  destruct (sh_resource s) as [d|] eqn:Hr; [|done]. destruct (sh_default s) as [n|] eqn:Hd.
  - apply (sound_hand_out sq_actions None n s Hs). right. split; [done|].
    apply (so_nodes _ _ _ _ Hs). by left.
  - assert (H1 : Sound sq_actions (Some (sh_made s)) None (snd (make_node (node_of info d) s))).
    { apply (sound_make_node sq_actions (node_of info d) None s Hs). by right. }
    pose proof (sound_default sq_actions _ (snd (make_node (node_of info d) s)) Hd H1) as H2.
    apply (sound_hand_out sq_actions None (sh_made s) _ H2). right. split; [done|]. simpl.
    rewrite lookup_insert_eq. by eexists.
Qed.

Lemma sq_keeps_openDatabase : keeps S (openDatabase lib info).
Proof.
  intros s Hs. unfold openDatabase, mbind, Eff_bind. pose proof (sound_opened s Hs) as H.
  destruct (on_world _ s) as [[[err|d]|e|] s']; [by destruct H|destruct H as (H & _)|done..].
  assert (H1 : Sound sq_actions (Some (sh_made s')) None (snd (make_node (node_of info d) s'))).
  { apply (sound_make_node sq_actions (node_of info d) _ s' H). by left. }
  apply (sound_hand_out sq_actions (Some (sh_made s')) (sh_made s') _ H1). by left.
Qed.

Lemma sq_keeps_perform op : keeps S (perform op).
Proof.
  destruct op; cbn [perform]; try apply sq_keeps_ignore.
  - apply sq_keeps_open.
  - apply sq_keeps_close.
  - apply sq_keeps_database.
  - apply keeps_bind; [apply sq_keeps_database|]. intros db. apply keeps_ret.
  - apply sq_keeps_openDatabase.
  - apply (keeps_give_back sq_actions).
  - apply (keeps_through sq_actions). intros x L Hx _. by apply sq_keeps_use.
Qed.
End program.
End objects.

(** C21: SQLite's handles and statements are owned.  After any operations of a SQLite connection
    and through the nodes that callers own, errors included, no handle or statement was ever
    used after its end, ended twice, or closed with a statement open; the handles open are
    those of the connection and of the nodes that exist, no statement is left, and the nodes
    that exist are the default one and those that callers own. *)
Theorem sqlite_handles lib fuel info ops s :
  run_all (perform lib fuel info) ops new_shared = Some s →
  ∃ objects, alive (sq_actions lib) (w_log (sh_world s)) = Some objects ∧
    (∀ o p, objects !! o = Some p ↔ p = None ∧
       (sh_resource s = Some o ∨ ∃ n x, sh_nodes s !! n = Some x ∧ sn_handle x = o)) ∧
    ∀ n, is_Some (sh_nodes s !! n) ↔ sh_default s = Some n ∨ n ∈ sh_held s.
Proof.
  intros Hrun.
  assert (Hs : Sound (sq_actions lib) None None s).
  { eapply run_all_keeps; [apply sq_keeps_perform|apply sound_new|exact Hrun]. }
  destruct Hs as [(L & [HL _] & Ho) Hn _ _ _]. exists L. split; [done|]. split.
  - intros o p. rewrite Ho. unfold owned. simpl. naive_solver.
  - intros n. rewrite Hn. unfold has_owner. naive_solver.
Qed.

(** ** A sample engine

    Statements end at semicolons; each gives one row. *)

Definition sample_info : ConnectionInfo :=
  mkConnectionInfo SQLITE "local" "/data/shop.db" "" 0 "" "" "" false Disable "" false.

Definition after_statement (sql : string) : string :=
  match find_char ";" sql 0 with Some i => sdrop (S i) sql | None => "" end.

Definition sample_step (log : SqLog) : sq_stepped :=
  match reverse log with
  | SqStep _ :: SqStep _ :: _ => StepDone
  | _ => StepRow [SqValue (Some "7") 7]
  end.

Definition sample_prepare (log : SqLog) : sq_prepared :=
  match last log with
  | Some (SqPrepare _ _ sql) => Prepared ["n"] (after_statement sql)
  | _ => PrepareFails
  end.

Definition sample_sqlite : Sqlite :=
  mkSqlite (λ _, SqOpened) sample_prepare sample_step (λ _, 0%Z) (λ _, "").

Definition sample_ops : list sq_op :=
  [OpOpen; OpDatabase; OpUse 0 (UseExecute "SELECT 7" 0); OpOpenDatabase; OpClose].

Definition sample_state : Shared sq_event SqNode :=
  default new_shared (run_all (perform sample_sqlite 60 sample_info) sample_ops new_shared).

(** closed, with both nodes still held: both handles are open, and the statement is not *)
Lemma sqlite_handles_witness :
  (sh_resource sample_state, sh_default sample_state, elements (sh_held sample_state)) =
    (None, None, [1; 0]) ∧
  ∃ objects, alive (sq_actions sample_sqlite) (w_log (sh_world sample_state)) = Some objects ∧
    (∀ o p, objects !! o = Some p ↔ p = None ∧
       (sh_resource sample_state = Some o ∨
        ∃ n x, sh_nodes sample_state !! n = Some x ∧ sn_handle x = o)).
Proof.
  split; [vm_compute; reflexivity|].
  destruct (sqlite_handles sample_sqlite 60 sample_info sample_ops sample_state) as (objects & Ha & Ho & _);
    [vm_compute; reflexivity|].
  exact (ex_intro _ objects (conj Ha Ho)).
Defined.
