(* ===== verification/SqliteScript.v ===== *)
(** * The SQLite backend: properties of scripts

    A script is prepared piece by piece, in order and without a gap, until one fails; its reports
    tell what became of each statement, and it ends. *)

From S2P Require Import Prelude Types Effects Objects Database Rows Sqlite SqliteProps.

(** ** Texts without a NUL *)

Definition no_nul (s : string) : bool := sall (λ c, negb (c =? "000")%char) s.

Lemma c_str_no_nul s : no_nul (c_str s) = true.
Proof.
  unfold no_nul. induction s as [|c s IH]; [done|]. simpl. destruct (c =? "000")%char eqn:E; [done|].
  simpl. by rewrite E.
Qed.

Lemma no_nul_c_str s : no_nul s = true → c_str s = s.
Proof.
  unfold no_nul. induction s as [|c s IH]; [done|]. simpl. destruct (c =? "000")%char; [done|].
  intros H. by rewrite IH.
Qed.

Lemma no_nul_app a b : no_nul (a +:+ b) = no_nul a && no_nul b.
Proof. apply sall_app. Qed.

Section script.
Context (lib : Sqlite).

(** SQLite's documentation: the tail is what follows the first statement of the text *)
Definition tail_of (p : sq_prepared) : option string :=
  match p with
  | PrepareFails => None
  | NoStatement tail | Prepared _ tail => Some tail
  end.

Class TailFollows : Prop := tail_follows log s d sql tail :
  sql ≠ "" → tail_of (sq_prepare lib (log ++ [SqPrepare s d sql])) = Some tail →
  ∃ piece, sql = piece +:+ tail ∧ piece ≠ "".

(** ** What a run is

    The statement numbered [s] of the handle [d]; every answer is SQLite's to the calls so far. *)

Context (d : nat) (rowLimit : Z).

(** there is room for a row behind the first [n] *)
Definition room (n : nat) : Prop := (0 < rowLimit)%Z → (Z.of_nat n < rowLimit)%Z.

(** the rows that [s] gives behind the first [n]: until there is no room, or none is left
    ([true]), or a step fails ([false]) *)
Inductive fetched (s : nat) : nat → SqLog → list (list sq_value) → bool → SqLog → Prop :=
  | fetched_full n log : ¬ room n → fetched s n log [] true log
  | fetched_end n log :
      room n → sq_step lib (log ++ [SqStep s]) = StepDone → fetched s n log [] true (log ++ [SqStep s])
  | fetched_fails n log :
      room n → sq_step lib (log ++ [SqStep s]) = StepFails → fetched s n log [] false (log ++ [SqStep s])
  | fetched_row n log row rows whole log' :
      room n → sq_step lib (log ++ [SqStep s]) = StepRow row →
      fetched s (S n) (log ++ [SqStep s]) rows whole log' → fetched s n log (row :: rows) whole log'.

(** what became of a statement: the rows it changed, its rows, the rows before a step failed and
    the message, or the message of a statement that gave nothing *)
Inductive Outcome :=
  | Changed (n : Z)
  | Rows (columns : list string) (rows : list (list sq_value))
  | Broken (columns : list string) (rows : list (list sq_value)) (message : string)
  | Refused (message : string).

Definition goes_on (o : Outcome) : bool :=
  match o with Changed _ | Rows _ _ => true | Broken _ _ _ | Refused _ => false end.

(** a prepared statement with its columns *)
Inductive stepped (s : nat) : list string → SqLog → Outcome → SqLog → Prop :=
  | stepped_changes log :
      sq_step lib (log ++ [SqStep s]) ≠ StepFails →
      stepped s [] log (Changed (sq_changes lib (log ++ [SqStep s; SqChanges d])))
        (log ++ [SqStep s; SqChanges d])
  | stepped_fails log :
      sq_step lib (log ++ [SqStep s]) = StepFails →
      stepped s [] log (Refused (sq_errmsg lib (log ++ [SqStep s; SqErrmsg d])))
        (log ++ [SqStep s; SqErrmsg d])
  | stepped_rows columns log rows log' :
      columns ≠ [] → fetched s 0 log rows true log' → stepped s columns log (Rows columns rows) log'
  | stepped_breaks columns log rows log' :
      columns ≠ [] → fetched s 0 log rows false log' →
      stepped s columns log (Broken columns rows (sq_errmsg lib (log' ++ [SqErrmsg d])))
        (log' ++ [SqErrmsg d]).

(** [text] is what is left of [remaining] behind its blanks *)
Definition behind_blanks (remaining text : string) : Prop :=
  text ≠ "" ∧ ∃ blank, remaining = blank +:+ text ∧ sall isspace blank = true.

(** [tail] is left of [text] behind a first piece *)
Definition cut (text tail : string) : Prop := ∃ piece, text = piece +:+ tail ∧ piece ≠ "".

(** the statements of a text, numbered from [s] on: each is prepared from all that is left, run
    and finalized; the first one refused or failing is the last *)
Inductive scripted : nat → SqLog → string → list Outcome → SqLog → Prop :=
  | scripted_end s log remaining : sall isspace remaining = true → scripted s log remaining [] log
  | scripted_refused s log remaining text :
      behind_blanks remaining text →
      sq_prepare lib (log ++ [SqPrepare s d text]) = PrepareFails →
      scripted s log remaining [Refused (sq_errmsg lib (log ++ [SqPrepare s d text; SqErrmsg d]))]
        (log ++ [SqPrepare s d text; SqErrmsg d])
  | scripted_nothing s log remaining text tail outcomes log' :
      behind_blanks remaining text → cut text tail →
      sq_prepare lib (log ++ [SqPrepare s d text]) = NoStatement tail →
      scripted (S s) (log ++ [SqPrepare s d text]) tail outcomes log' →
      scripted s log remaining outcomes log'
  | scripted_statement s log remaining text columns tail o log1 outcomes log' :
      behind_blanks remaining text → cut text tail →
      sq_prepare lib (log ++ [SqPrepare s d text]) = Prepared columns tail →
      stepped s columns (log ++ [SqPrepare s d text]) o log1 → goes_on o = true →
      scripted (S s) (log1 ++ [SqFinalize s]) tail outcomes log' →
      scripted s log remaining (o :: outcomes) log'
  | scripted_failing s log remaining text columns tail o log1 :
      behind_blanks remaining text → cut text tail →
      sq_prepare lib (log ++ [SqPrepare s d text]) = Prepared columns tail →
      stepped s columns (log ++ [SqPrepare s d text]) o log1 → goes_on o = false →
      scripted s log remaining [o] (log1 ++ [SqFinalize s]).

(** ** What a report tells *)

(** how a value reads *)
Definition value_text (v : option sq_value) : string :=
  match v with
  | Some (SqValue (Some text) _) => text
  | Some (SqValue None _) => ""
  | _ => NULL_SENTINEL
  end.

Definition tells (o : Outcome) (r : StatementResult) : Prop :=
  match o with
  | Changed n =>
      sr_success r = true ∧ sr_errorMessage r = "" ∧ sr_affectedRows r = n ∧
      sr_columnNames r = [] ∧ sr_tableData r = []
  | Rows columns rows =>
      sr_success r = true ∧ sr_errorMessage r = "" ∧ sr_columnNames r = columns ∧
      Forall2 (row_shows value_text columns) rows (sr_tableData r)
  | Broken columns rows message =>
      sr_success r = false ∧ sr_errorMessage r = message ∧ sr_columnNames r = columns ∧
      Forall2 (row_shows value_text columns) rows (sr_tableData r)
  | Refused message =>
      sr_success r = false ∧ sr_errorMessage r = message ∧ sr_columnNames r = [] ∧ sr_tableData r = []
  end.

Lemma tells_success o r : tells o r → sr_success r = goes_on o.
Proof. by destruct o; intros (? & _). Qed.

Lemma row_text_shows columns row : row_shows value_text columns row (row_text columns row).
Proof.
  apply row_shows_imap. intros i _. unfold columnText, value_at. by destruct (row !! i) as [[|[]]|].
Qed.

(** ** One statement *)

Lemma row_loop_fetched n s columns kept w rows failed w' :
  row_loop lib n s columns rowLimit kept w = (Done (rows, failed), w') →
  w_made w' = w_made w ∧ ∃ new texts, rows = kept ++ texts ∧
    Forall2 (row_shows value_text columns) new texts ∧
    fetched s (length kept) (w_log w) new (negb failed) (w_log w').
Proof.
  revert kept w. induction n as [|n IH]; intros kept w; cbn [row_loop]; [done|].
  destruct (below_limit rowLimit (length kept)) eqn:Eb.
  2: { intros [= <- <- <-]. split; [done|]. exists [], []. rewrite app_nil_r. split_and!; [done..|].
       apply fetched_full. unfold room. rewrite <-below_limit_spec. by rewrite Eb. }
  assert (Hroom : room (length kept)) by exact (proj1 (below_limit_spec _ _) Eb).
  unfold sqlite3_step, call, mbind, Eff_bind.
  destruct (sq_step lib (w_log w ++ [SqStep s])) as [row| |] eqn:Er.
  - intros (Hm & new & texts & -> & Hs & Hf)%IH. split; [done|].
    exists (row :: new), (row_text columns row :: texts). rewrite <-app_assoc. split_and!; [done|..].
    + constructor; [apply row_text_shows|done].
    + eapply fetched_row; [exact Hroom|exact Er|]. by rewrite length_app, Nat.add_1_r in Hf.
  - intros [= <- <- <-]. split; [done|]. exists [], []. rewrite app_nil_r. split_and!; [done..|].
    by apply fetched_end.
  - intros [= <- <- <-]. split; [done|]. exists [], []. rewrite app_nil_r. split_and!; [done..|].
    by apply fetched_fails.
Qed.

Lemma statement_stepped fuel s columns w r w' :
  run_statement lib fuel d s columns rowLimit w = (Done r, w') →
  w_made w' = w_made w ∧ ∃ o, stepped s columns (w_log w) o (w_log w') ∧ tells o r.
Proof.
  unfold run_statement. destruct columns as [|c columns].
  - unfold sqlite3_step, errmsg, call, mbind, Eff_bind.
    destruct (sq_step lib (w_log w ++ [SqStep s])) eqn:Er; intros [= <- <-]; simpl;
      rewrite <-!app_assoc; (split; [done|]); eexists.
    1,2: (split; [by apply stepped_changes; rewrite Er|done]).
    split; [by apply stepped_fails|done].
  - unfold mbind at 1, Eff_bind at 1.
    destruct (row_loop _ _ _ _ _ _ _) as [[[rows failed]|e|] w1] eqn:E; [|done..].
    apply row_loop_fetched in E as (Hm & new & texts & -> & Hs & Hf). cbn [fst snd app] in *.
    destruct failed; unfold errmsg, call, mbind, Eff_bind; intros [= <- <-]; (split; [done|]); eexists.
    + split; [by eapply stepped_breaks|]. by split_and!.
    + split; [by eapply stepped_rows|]. by split_and!.
Qed.

Lemma fetched_limit s n log rows whole log' :
  fetched s n log rows whole log' → (0 < rowLimit)%Z → (Z.of_nat n <= rowLimit)%Z →
  (Z.of_nat (n + length rows) <= rowLimit)%Z.
Proof.
  induction 1 as [| | |n log row rows whole log' Hr _ _ IH]; intros Hl Hn; simpl; try lia.
  specialize (Hr Hl). lia.
Qed.

(** ** A script *)

Context `{Tails : !TailFollows}.

Lemma blank_split s : ∃ blank, s = blank +:+ lstrip isspace s ∧ sall isspace blank = true.
Proof. apply span_len_split. Qed.

(** a text without a NUL, behind its blanks *)
Lemma text_left remaining :
  no_nul remaining = true → lstrip isspace remaining ≠ "" →
  behind_blanks remaining (lstrip isspace remaining) ∧
  c_str (lstrip isspace remaining) = lstrip isspace remaining ∧
  no_nul (lstrip isspace remaining) = true ∧
  strlen (lstrip isspace remaining) <= strlen remaining.
Proof.
  intros Hn Hne. destruct (blank_split remaining) as (blank & Hs & Hb).
  rewrite Hs, no_nul_app in Hn. apply andb_true_iff in Hn as [_ Hn].
  split_and!; [split; [done|by exists blank]|by apply no_nul_c_str|done|].
  rewrite Hs at 2. rewrite slen_app. lia.
Qed.

Lemma blank_left remaining : lstrip isspace remaining = "" → sall isspace remaining = true.
Proof.
  intros E. destruct (blank_split remaining) as (blank & -> & Hb). by rewrite sall_app, Hb, E.
Qed.

(** what is left behind a statement *)
Lemma tail_left log s text tail :
  text ≠ "" → no_nul text = true → tail_of (sq_prepare lib (log ++ [SqPrepare s d text])) = Some tail →
  cut text tail ∧ no_nul tail = true ∧ strlen tail < strlen text.
Proof.
  intros Hne Hn Ht. destruct (tail_follows log s d text tail Hne Ht) as (piece & -> & Hp).
  rewrite no_nul_app in Hn. apply andb_true_iff in Hn as [_ Hn]. split_and!; [by exists piece|done|].
  rewrite slen_app. destruct piece; [done|]. simpl. lia.
Qed.

Lemma script_scripted fuel n remaining statements w r w' :
  no_nul remaining = true →
  script_loop lib fuel n d rowLimit remaining statements w = (Done r, w') →
  ∃ outcomes new, r = statements ++ new ∧ Forall2 tells outcomes new ∧
    scripted (w_made w) (w_log w) remaining outcomes (w_log w').
Proof.
  revert remaining statements w. induction n as [|n IH]; intros remaining statements w Hnul;
    cbn [script_loop]; [done|].
  destruct (sempty (lstrip isspace remaining)) eqn:Et.
  { intros [= <- <-]. exists [], []. rewrite app_nil_r. split_and!; [done..|]. apply scripted_end.
    apply blank_left. by destruct (lstrip _ _). }
  assert (Hne : lstrip isspace remaining ≠ "") by (by intros E; rewrite E in Et).
  destruct (text_left remaining Hnul Hne) as (Hb & Hcs & Hnt & _). set (text := lstrip isspace remaining) in *.
  unfold prepare, mbind, Eff_bind. simpl. rewrite Hcs.
  pose proof (tail_left (w_log w) (w_made w) text) as Htail.
  destruct (sq_prepare lib (w_log w ++ _)) as [|tail|columns tail] eqn:Ep.
  - intros [= <- <-]. simpl. eexists [_], [_]. split; [done|]. rewrite <-app_assoc.
    split; [|by apply scripted_refused]. by repeat constructor.
  - destruct (Htail tail Hne Hnt eq_refl) as (Hcut & Hn & _).
    intros (outcomes & new & -> & Ht & Hs)%IH; [|done]. exists outcomes, new. split_and!; [done..|].
    by eapply scripted_nothing.
  - destruct (Htail tail Hne Hnt eq_refl) as (Hcut & Hn & _). unfold finally, mbind, Eff_bind.
    destruct (run_statement _ _ _ _ _ _ _) as [[sr|e|] w1] eqn:Er; [|done..]. simpl.
    apply statement_stepped in Er as (Hm & o & Ho & Ht). simpl in Hm, Ho.
    rewrite (tells_success o sr Ht). destruct (goes_on o) eqn:Eg; simpl.
    + intros (outcomes & new & -> & Hts & Hs)%IH; [|done]. exists (o :: outcomes), (sr :: new).
      rewrite <-app_assoc. split_and!; [done|by constructor|]. simpl in Hs. rewrite Hm in Hs.
      by eapply scripted_statement.
    + intros [= <- <-]. exists [o], [sr]. split_and!; [done|by repeat constructor|].
      by eapply scripted_failing.
Qed.

(** ** Termination *)

(** from [log] on, the rows of [s] end within [n] steps *)
Definition rows_within (n : nat) (log : SqLog) (s : nat) : Prop :=
  ∃ k, k < n ∧ ∀ row, sq_step lib (log ++ repeat (SqStep s) (S k)) ≠ StepRow row.

(** there is a limit on the rows, or they end *)
Definition rows_end (fuel : nat) : Prop :=
  ((0 < rowLimit)%Z ∧ Z.to_nat rowLimit < fuel) ∨ ∀ log s, rows_within fuel log s.

Lemma row_loop_ends n s columns kept w :
  ((0 < rowLimit)%Z ∧ Z.to_nat rowLimit - length kept < n) ∨ rows_within n (w_log w) s →
  ∃ r w', row_loop lib n s columns rowLimit kept w = (Done r, w').
Proof.
  revert kept w. induction n as [|n IH]; intros kept w Hn; cbn [row_loop].
  { exfalso. destruct Hn as [[_ Hn]|(k & Hk & _)]; lia. }
  destruct (below_limit rowLimit (length kept)) eqn:Eb; [|by eauto].
  unfold sqlite3_step, call, mbind, Eff_bind.
  destruct (sq_step lib (w_log w ++ [SqStep s])) as [row| |] eqn:Er; [|by eauto..].
  apply IH. rewrite length_app. simpl. destruct Hn as [[Hl Hn]|(k & Hk & Hend)].
  - left. split; [done|]. apply below_limit_spec in Eb; [|done]. lia.
  - right. destruct k as [|k]; [by destruct (Hend row)|]. exists k. split; [lia|].
    intros row'. specialize (Hend row'). simpl in Hend. by rewrite <-app_assoc.
Qed.

Lemma statement_ends fuel s columns w :
  rows_end fuel → ∃ r w', run_statement lib fuel d s columns rowLimit w = (Done r, w').
Proof.
  intros Hend. unfold run_statement. destruct columns as [|c columns].
  - unfold sqlite3_step, errmsg, call, mbind, Eff_bind. destruct (sq_step _ _); eauto.
  - destruct (row_loop_ends fuel s (c :: columns) [] w) as ([rows failed] & w1 & E).
    { destruct Hend as [[? ?]|Hend]; [left; split; [done|simpl; lia]|right; apply Hend]. }
    unfold mbind at 1, Eff_bind at 1. rewrite E. simpl. destruct failed; simpl; eauto.
Qed.

Lemma script_ends fuel n remaining statements w :
  rows_end fuel → no_nul remaining = true → strlen remaining < n →
  ∃ r w', script_loop lib fuel n d rowLimit remaining statements w = (Done r, w').
Proof.
  intros Hend. revert remaining statements w.
  induction n as [|n IH]; intros remaining statements w Hnul Hn; [lia|]. cbn [script_loop].
  destruct (sempty (lstrip isspace remaining)) eqn:Et; [by eauto|].
  assert (Hne : lstrip isspace remaining ≠ "") by (by intros E; rewrite E in Et).
  destruct (text_left remaining Hnul Hne) as (_ & Hcs & Hnt & Hl). set (text := lstrip isspace remaining) in *.
  unfold prepare, mbind, Eff_bind. simpl. rewrite Hcs.
  pose proof (tail_left (w_log w) (w_made w) text) as Htail.
  destruct (sq_prepare lib _) as [|tail|columns tail] eqn:Ep; simpl; [by eauto|..];
    destruct (Htail tail Hne Hnt eq_refl) as (_ & Hnt' & Hlt).
  - apply IH; [done|lia].
  - unfold finally, mbind, Eff_bind.
    edestruct (statement_ends fuel (w_made w) columns) as (r & w' & ->); [done|].
    simpl. destruct (sr_success r); simpl; [apply IH; [done|lia]|by eauto].
Qed.

(** no report has more rows than a positive limit *)
Definition within_limit (r : StatementResult) : Prop :=
  (0 < rowLimit)%Z → (Z.of_nat (length (sr_tableData r)) <= rowLimit)%Z.

Lemma stepped_within s columns log o log' r : stepped s columns log o log' → tells o r → within_limit r.
Proof.
  intros Ho Ht Hl. assert (Hf : ∀ rows whole log', fetched s 0 log rows whole log' →
    Forall2 (row_shows value_text columns) rows (sr_tableData r) →
    (Z.of_nat (length (sr_tableData r)) <= rowLimit)%Z).
  { intros rows whole log1 Hf Hs. rewrite <-(Forall2_length _ _ _ Hs).
    apply (fetched_limit s 0 log rows whole log1); [done..|lia]. }
  destruct Ho; [destruct Ht as (_ & _ & _ & _ & ->)|destruct Ht as (_ & _ & _ & ->)
    |destruct Ht as (_ & _ & <- & Ht); eauto..]; simpl; lia.
Qed.

Lemma scripted_within s log remaining outcomes log' rs :
  scripted s log remaining outcomes log' → Forall2 tells outcomes rs → Forall within_limit rs.
Proof.
  intros Hs. revert rs. induction Hs; intros rs Ht; [by inversion Ht| |by eauto|..];
    apply Forall2_cons_inv_l in Ht as (r & rs' & Hr & Hrs & ->).
  - apply Forall2_nil_inv_l in Hrs as ->. apply Forall_singleton. intros Hl.
    destruct Hr as (_ & _ & _ & ->). simpl. lia.
  - constructor; [by eapply stepped_within|eauto].
  - apply Forall2_nil_inv_l in Hrs as ->. apply Forall_singleton. by eapply stepped_within.
Qed.
End script.

(** C22: A SQLite script runs as documented.  When a tail is what follows the statement that was
    prepared, and the rows of every statement end or there is a limit on them, [execute] ends:
    the text is prepared statement by statement, in order and without a gap, blanks apart, until
    nothing but blanks is left or one is refused or fails while its rows are fetched; every
    statement is fetched to its end, its failure or the limit, and finalized; there is one report
    for each: a success with the rows changed, or with the columns and a text for each column of
    every row SQLite gave, in order; for the statement refused or failing, a failure with
    SQLite's message and the rows before it; no report has more rows than a positive limit. *)
Theorem sqlite_execute lib fuel d query rowLimit w :
  TailFollows lib → rows_end lib rowLimit fuel → strlen (c_str query) < fuel →
  ∃ r w' outcomes, runMultiStatement lib fuel d query rowLimit w = (Done r, w') ∧
    scripted lib d rowLimit (w_made w) (w_log w) (c_str query) outcomes (w_log w') ∧
    Forall2 tells outcomes (qr_statements r) ∧ Forall (within_limit rowLimit) (qr_statements r).
Proof.
  intros Ht He Hf.
  destruct (script_ends lib d rowLimit fuel fuel (c_str query) [] w He (c_str_no_nul query) Hf)
    as (statements & w' & E).
  destruct (script_scripted lib d rowLimit fuel fuel _ _ _ _ _ (c_str_no_nul query) E)
    as (outcomes & new & -> & Hts & Hs).
  exists (mkQueryResult ([] ++ new) []), w', outcomes.
  split; [unfold runMultiStatement, mbind, Eff_bind; by rewrite E|]. split_and!; [done..|].
  by eapply scripted_within.
Qed.

(** ** A sample script *)

Lemma sample_tails : TailFollows sample_sqlite.
Proof.
  intros log s d sql tail Hne. simpl. unfold sample_prepare. rewrite last_snoc. simpl.
  intros [= <-]. unfold after_statement. destruct (find_char ";" sql 0) as [i|] eqn:E.
  - exists (stake (S i) sql). split; [by rewrite stake_sdrop|]. by destruct sql.
  - exists sql. by rewrite sapp_nil_r.
Qed.

Definition sample_world : World sq_event := mkWorld [SqOpen 0 "a.db" false] 1.
Definition sample_script : string := "SELECT 7; SELECT 8 ".

Lemma sqlite_execute_witness :
  map sr_tableData (qr_statements (match fst (runMultiStatement sample_sqlite 60 0 sample_script 5 sample_world) with
                                   | Done r => r | _ => mkQueryResult [] [] end)) = [[["7"]]; [["7"]]] ∧
  ∃ r w' outcomes, runMultiStatement sample_sqlite 60 0 sample_script 5 sample_world = (Done r, w') ∧
    scripted sample_sqlite 0 5 (w_made sample_world) (w_log sample_world) (c_str sample_script) outcomes (w_log w') ∧
    Forall2 tells outcomes (qr_statements r) ∧ Forall (within_limit 5) (qr_statements r).
Proof.
  split; [vm_compute; reflexivity|].
  refine (sqlite_execute sample_sqlite 60 0 sample_script 5 sample_world sample_tails _ _).
  - left. split; [reflexivity|]. apply Nat.ltb_lt. vm_compute. reflexivity.
  - apply Nat.ltb_lt. vm_compute. reflexivity.
Defined.
