(* ===== verification/SqliteCatalog.v ===== *)
(** * The SQLite backend: properties of the catalog

    What the tables and views are against a file whose catalog stands still. *)

From S2P Require Import Prelude Types Effects Objects Database Rows Sqlite SqliteProps.

(** The interface of SQLite to the catalog operations: every query is answered, with the rows of
    [answer], which are a function of its text, and [size] is the sum for a table. *)
Class CatalogFile (lib : Sqlite) (answer : string → list (list sq_value)) (size : string → sq_value)
    : Prop := {
  cf_prepare log s d sql :
    ∃ columns tail, sq_prepare lib (log ++ [SqPrepare s d sql]) = Prepared columns tail;
  cf_step log s d sql k :
    sq_step lib (log ++ SqPrepare s d sql :: repeat (SqStep s) (S k)) =
    match answer sql !! k with Some row => StepRow row | None => StepDone end;
  cf_size log s d name :
    sq_step lib (log ++ [SqPrepare s d size_sql; SqBind s name; SqStep s]) = StepRow [size name]
}.

Section catalog.
Context (lib : Sqlite) (answer : string → list (list sq_value)) (size : string → sq_value).
Context `{Catalog : !CatalogFile lib answer size}.
Context (fuel d : nat) (connName : string) (Hfuel : ∀ sql, length (answer sql) < fuel).

Definition rows (sql : string) : list (list sq_value) := answer (c_str sql).

(** the operation gives [x] *)
Definition gives {A} (m : SqM A) (x : A) : Prop := ∀ w, ∃ w', m w = (Done x, w').

Lemma file_gives_ret {A} (x : A) : gives (mret x) x.
Proof. intros w. by exists w. Qed.

Lemma file_gives_bind {A B} (m : SqM A) (f : A → SqM B) x y :
  gives m x → gives (f x) y → gives (m ≫= f) y.
Proof.
  intros Hm Hf w. destruct (Hm w) as (w1 & E). destruct (Hf w1) as (w2 & E2). exists w2.
  unfold mbind, Eff_bind. by rewrite E.
Qed.

Lemma file_gives_mapM {A B} (m : A → SqM B) (f : A → B) l :
  (∀ x, gives (m x) (f x)) → gives (mapM m l) (map f l).
Proof.
  intros Hm. induction l as [|x l IH]; simpl; [apply file_gives_ret|].
  eapply file_gives_bind; [apply Hm|]. eapply file_gives_bind; [apply IH|]. apply file_gives_ret.
Qed.

Lemma step_rows_gives {A} n s sql log k (cb : A → list sq_value → A) acc w :
  w_log w = log ++ SqPrepare s d sql :: repeat (SqStep s) k → length (answer sql) - k < n →
  ∃ w', step_rows lib n s cb acc w = (Done (foldl cb acc (drop k (answer sql)), true), w').
Proof.
  revert k acc w. induction n as [|n IH]; intros k acc w Hw Hn; [lia|]. cbn [step_rows].
  unfold sqlite3_step, call, mbind, Eff_bind.
  assert (Hstep : w_log w ++ [SqStep s] = log ++ SqPrepare s d sql :: repeat (SqStep s) (S k)).
  { rewrite Hw, <-app_assoc. simpl. by rewrite <-repeat_cons. }
  rewrite Hstep, cf_step. destruct (answer sql !! k) as [row|] eqn:Er.
  - destruct (IH (S k) (cb acc row) (mkWorld (log ++ SqPrepare s d sql :: repeat (SqStep s) (S k)) (w_made w)))
      as (w' & ->); [done| |].
    + apply lookup_lt_Some in Er. lia.
    + exists w'. by rewrite (drop_S _ row k Er).
  - apply lookup_ge_None in Er. rewrite drop_ge by done. by eexists.
Qed.

Lemma gives_query {A} sql (cb : A → list sq_value → A) acc :
  gives (queryRows lib fuel d sql cb acc) (foldl cb acc (rows sql)).
Proof.
  intros w. unfold queryRows, prepare, mbind, Eff_bind. simpl. set (s := w_made w).
  destruct (cf_prepare (lib := lib) (answer := answer) (size := size) (w_log w) s d (c_str sql))
    as (columns & tail & ->). unfold finally, mbind, Eff_bind.
  destruct (step_rows_gives fuel s (c_str sql) (w_log w) 0 cb acc
              (mkWorld (w_log w ++ [SqPrepare s d (c_str sql)]) (S s))) as (w' & ->); [done| |].
  - specialize (Hfuel (c_str sql)). lia.
  - rewrite drop_0. by eexists.
Qed.

Lemma foldl_push {A} (f : list sq_value → A) acc l : foldl (push f) acc l = acc ++ map f l.
Proof.
  revert acc. induction l as [|row l IH]; intros acc; simpl; [by rewrite app_nil_r|].
  rewrite IH. unfold push. by rewrite <-app_assoc.
Qed.

Lemma gives_pushed {A} sql (f : list sq_value → A) :
  gives (queryRows lib fuel d sql (push f) []) (map f (rows sql)).
Proof. rewrite <-(app_nil_l (map _ _)), <-foldl_push. apply gives_query. Qed.

(** ** Tables *)

Definition size_of (name : string) : Z :=
  match size (c_str name) with SqNull => (-1)%Z | v => column_int64 [v] 0 end.

Lemma gives_size name : gives (getTableSizeBytes lib d name) (size_of name).
Proof.
  intros w. unfold getTableSizeBytes, prepare. change (c_str size_sql) with size_sql.
  unfold fresh, call, mbind, Eff_bind. cbn [w_log w_made]. set (s := w_made w).
  destruct (cf_prepare (lib := lib) (answer := answer) (size := size) (w_log w) s d size_sql)
    as (columns & tail & ->).
  unfold finally, sqlite3_step, call, mbind, Eff_bind. simpl. rewrite <-!app_assoc. simpl.
  rewrite cf_size. unfold size_of. by destruct (size (c_str name)); eexists.
Qed.

Definition index_columns (name : string) : list string :=
  map (λ row, columnText row 2 false) (rows (index_info_sql name)).

Definition full_index (row : list sq_value) : Index :=
  mkIndex (columnText row 1 false) (index_columns (columnText row 1 false))
    (negb (column_int row 2 =? 0)%Z) (columnText row 3 false =? "pk")%string "BTREE".

Definition raw_table (isView : bool) (tn : string) : Table :=
  let columns := map table_column (rows (table_info_sql tn)) in
  let fullName := connName +:+ "." +:+ tn in
  if isView then mkTable tn "" "" "" fullName columns [] [] [] (-1)
  else mkTable tn "" "" "" fullName columns (map full_index (rows (index_list_sql tn)))
         (map (foreign_key tn) (rows (foreign_keys_sql tn))) [] (size_of tn).

Lemma fold_index_columns i l :
  foldl add_index_column i l =
  mkIndex (idx_name i) (idx_columns i ++ map (λ row, columnText row 2 false) l) (idx_isUnique i)
    (idx_isPrimary i) (idx_type i).
Proof.
  revert i. induction l as [|row l IH]; intros i; simpl; [rewrite app_nil_r; by destruct i|].
  rewrite IH. simpl. by rewrite <-app_assoc.
Qed.

Lemma gives_load isView tn : gives (load lib fuel d connName tn isView) (raw_table isView tn).
Proof.
  unfold load. eapply file_gives_bind; [apply gives_pushed|]. destruct isView; [apply file_gives_ret|].
  eapply file_gives_bind; [apply gives_pushed|]. eapply file_gives_bind; [apply gives_pushed|].
  eapply file_gives_bind; [apply file_gives_mapM; intros i; apply gives_query|].
  eapply file_gives_bind; [apply gives_size|]. unfold raw_table.
  replace (map full_index _) with
    (map (λ i, foldl add_index_column i (rows (index_info_sql (idx_name i))))
       (map listed_index (rows (index_list_sql tn)))); [apply file_gives_ret|].
  rewrite map_map. apply map_ext. intros row. by rewrite fold_index_columns.
Qed.

Definition table_names : list string := map (λ row, columnText row 0 false) (rows tables_sql).

Lemma file_gives_tables :
  gives (tables lib fuel d connName) (populateIncomingForeignKeys (map (raw_table false) table_names)).
Proof.
  eapply file_gives_bind; [apply gives_pushed|]. eapply file_gives_bind; [|apply file_gives_ret].
  apply file_gives_mapM. intros tn. apply gives_load.
Qed.

(** The tables of a SQLite file are what its catalog says.  On a file whose catalog stands
    still, with distinct table names, [tables] ends and gives one table per listed name, in
    order, with exactly the columns, foreign keys and indexes that the pragmas list for it, each
    index with the columns that [index_info] lists for its name, and the summed size; its
    incoming keys are the keys of the listed tables that target it. *)
Lemma sqlite_tables_spec w :
  NoDup table_names →
  ∃ ts w', tables lib fuel d connName w = (Done ts, w') ∧ map tbl_name ts = table_names ∧
    ∀ t, t ∈ ts →
      let own sql := rows (sql (tbl_name t)) in
      tbl_fullName t = connName +:+ "." +:+ tbl_name t ∧
      tbl_columns t = map table_column (own table_info_sql) ∧
      tbl_foreignKeys t = map (foreign_key (tbl_name t)) (own foreign_keys_sql) ∧
      tbl_indexes t = map full_index (own index_list_sql) ∧
      tbl_sizeBytes t = size_of (tbl_name t) ∧
      ∀ fk, fk ∈ tbl_incomingForeignKeys t ↔
        ∃ source row, source ∈ table_names ∧ row ∈ rows (foreign_keys_sql source) ∧
          columnText row 2 false = tbl_name t ∧ fk = incoming_of (namedTable "" source) (foreign_key source row).
Proof.
  intros Hnd. destruct (file_gives_tables w) as (w' & ->). eexists _, w'. split; [done|].
  assert (Hraw : map tbl_name (map (raw_table false) table_names) = table_names).
  { rewrite map_map. apply map_id. }
  rewrite populate_nodup by (by rewrite Hraw). split; [rewrite map_map; exact Hraw|].
  intros t (t0 & -> & Ht)%(list_elem_of_fmap _ (map (raw_table false) table_names)).
  apply (list_elem_of_fmap (raw_table false)) in Ht as (n & -> & _). simpl. split_and!; [done..|].
  intros fk. rewrite elem_of_mjoin_map. split.
  - intros (src & (m & -> & Hm)%(list_elem_of_fmap (raw_table false)) & Hfk).
    apply elem_of_incoming_to in Hfk as (k & Hk & Hn & ->). simpl in Hk.
    apply (list_elem_of_fmap (foreign_key m)) in Hk as (row & -> & Hrow). by exists m, row.
  - intros (m & row & Hm & Hrow & Hn & ->). exists (raw_table false m).
    split; [by apply (list_elem_of_fmap_2 (raw_table false))|].
    apply elem_of_incoming_to. exists (foreign_key m row). split_and!; [|done|done].
    simpl. by apply (list_elem_of_fmap_2 (foreign_key m)).
Qed.

(** ** Views *)

Lemma gives_views :
  gives (views lib fuel d connName)
    (map (λ row, set_definition (view_body (columnText row 1 false))
                   (raw_table true (columnText row 0 false))) (rows views_sql)).
Proof.
  eapply file_gives_bind; [apply gives_pushed|].
  rewrite <-(map_map (λ row, (columnText row 0 false, columnText row 1 false))
               (λ p, set_definition (view_body (snd p)) (raw_table true (fst p)))).
  apply file_gives_mapM. intros [n sql]. eapply file_gives_bind; [apply gives_load|]. apply file_gives_ret.
Qed.
End catalog.

(** ** A file that stands still *)

Section file.
Context (answer : string → list (list sq_value)) (size : string → sq_value).

(** the [n]th step of the last statement, from the log backwards *)
Fixpoint nth_step (n : nat) (back : SqLog) : sq_stepped :=
  match back with
  | SqStep _ :: back => nth_step (S n) back
  | SqPrepare _ _ sql :: _ =>
      match answer sql !! pred n with Some row => StepRow row | None => StepDone end
  | SqBind _ name :: _ => StepRow [size name]
  | _ => StepDone
  end.

Definition catalog_sqlite : Sqlite :=
  mkSqlite (λ _, SqOpened) (λ _, Prepared [] "") (λ log, nth_step 0 (reverse log)) (λ _, 0%Z) (λ _, "").

Lemma nth_step_repeat n s m back : nth_step n (repeat (SqStep s) m ++ back) = nth_step (n + m) back.
Proof.
  revert n. induction m as [|m IH]; intros n; simpl; [by rewrite Nat.add_0_r|].
  rewrite IH. by rewrite Nat.add_succ_r.
Qed.

#[export] Instance catalog_file : CatalogFile catalog_sqlite answer size.
Proof.
  split; simpl.
  - by eexists _, _.
  - intros log s d sql k. rewrite reverse_app, reverse_cons.
    assert (Hrev : ∀ m, reverse (repeat (SqStep s) m) = repeat (SqStep s) m).
    { induction m as [|m IH]; [done|]. simpl. rewrite reverse_cons, IH. by rewrite <-repeat_cons. }
    change (SqStep s :: repeat (SqStep s) k) with (repeat (SqStep s) (S k)).
    rewrite Hrev, <-app_assoc, nth_step_repeat. simpl. done.
  - intros log s d name. rewrite reverse_app. done.
Qed.
End file.

Definition text_value (s : string) : sq_value := SqValue (Some s) 0.

Definition sample_answer (sql : string) : list (list sq_value) :=
  if (sql =? tables_sql)%string then [[text_value "a"]; [text_value "b"]]
  else if (sql =? foreign_keys_sql "b")%string then
    [[SqNull; SqNull; text_value "a"; text_value "a_id"; text_value "id"; text_value "NO ACTION";
      text_value "CASCADE"]]
  else [].

Lemma sample_answer_length sql : length (sample_answer sql) < 5.
Proof. unfold sample_answer. destruct (_ =? _)%string; [simpl; lia|]. destruct (_ =? _)%string; simpl; lia. Qed.

Definition sample_file : Sqlite := catalog_sqlite sample_answer (λ _, SqValue None 4096).

Lemma sqlite_tables_spec_witness :
  ∃ ts w', tables sample_file 5 0 "local" new_world = (Done ts, w') ∧
    map tbl_name ts = ["a"; "b"] ∧ map tbl_sizeBytes ts = [4096; 4096]%Z ∧
    map (map fk_targetTable) (map tbl_incomingForeignKeys ts) = [["b"]; []].
Proof.
  assert (Hnd : NoDup (table_names sample_answer)).
  { apply NoDup_cons. split; [|apply NoDup_singleton]. intros H%list_elem_of_singleton. discriminate. }
  destruct (sqlite_tables_spec sample_file sample_answer (λ _, SqValue None 4096) 5 0 "local"
              sample_answer_length new_world Hnd) as (ts & w' & E & Hn & _).
  exists ts, w'. split; [exact E|]. split; [exact Hn|].
  assert (Hts : Done ts = fst (tables sample_file 5 0 "local" new_world)) by (rewrite E; reflexivity).
  vm_compute in Hts. injection Hts as ->. split; reflexivity.
Defined.
