(* ===== verification/DuckDb.v ===== *)
(** * The DuckDB backend

    [src/duckdb_connection.cpp]: statements, the catalog through DuckDB's table functions, the
    connection with the nodes it hands out, and the rows of a csv file that match a condition.

    DuckDB is the parameter [DuckDb].  Each call of it is an event; it answers from all events
    so far, the call included.  Databases, connections, extracted and prepared statements and
    results are objects ([Objects]).  A node's mutex makes each of its operations one step. *)

From S2P Require Import Prelude Types Effects Objects Sharing ConnectionInfo Database Rows.

(** ** DuckDB *)

(** a value: null, or its text (nothing when there is none) *)
Inductive dk_value := DkNull | DkText (text : option string).

(** what a result holds; DML results carry a count of rows *)
Record DkResult := mkDkResult {
  dr_isQuery : bool;
  dr_columns : list (option string);
  dr_rows : list (list dk_value);
  dr_changed : Z
}.

(** [d] is a database, [c] a connection, [e] extracted and [p] prepared statements, [r] a result *)
Inductive dk_event :=
  | DkOpen (d : nat) (path : string) (readOnly : bool)      (* [duckdb_open_ext] *)
  | DkClose (d : nat)                                       (* [duckdb_close] *)
  | DkConnect (c d : nat)                                   (* [duckdb_connect] *)
  | DkDisconnect (c : nat)                                  (* [duckdb_disconnect] *)
  | DkInterrupt (c : nat)                                   (* [duckdb_interrupt] *)
  | DkQuery (r c : nat) (sql : string)                      (* [duckdb_query] *)
  | DkExtract (e c : nat) (sql : string)                    (* [duckdb_extract_statements] *)
  | DkExtractError (e : nat)                                (* [duckdb_extract_statements_error] *)
  | DkPrepare (p c e i : nat)                               (* [duckdb_prepare_extracted_statement] *)
  | DkPrepareError (p : nat)                                (* [duckdb_prepare_error] *)
  | DkExecute (r p : nat)                                   (* [duckdb_execute_prepared] *)
  | DkFreeExtracted (e : nat)                               (* [duckdb_destroy_extracted] *)
  | DkFreePrepared (p : nat)                                (* [duckdb_destroy_prepare] *)
  | DkFreeResult (r : nat).                                 (* [duckdb_destroy_result] *)

Inductive dk_opened := DkOpened | DkOpenFails (message : option string).
Inductive dk_queried := DkFails (message : option string) | DkSucceeds (r : DkResult).

Notation DkLog := (list dk_event).
Notation DkM := (Eff (World dk_event)).

Record DuckDb := mkDuckDb {
  dk_open : DkLog → dk_opened;
  dk_connect : DkLog → bool;
  dk_query : DkLog → dk_queried;
  (** the statements found; nothing when not even an error is kept *)
  dk_extract : DkLog → option nat;
  dk_prepare : DkLog → bool;
  (** the message of the last failure *)
  dk_error : DkLog → option string
}.

(** ** Text *)

Definition cellText (v : dk_value) : string :=
  match v with DkNull => NULL_SENTINEL | DkText text => c_str (default "" text) end.

Definition row_text (columns : list (option string)) (row : list dk_value) : list string :=
  imap (λ i _, cellText (default DkNull (row !! i))) columns.

Definition literal (s : string) : string := "'" +:+ double_char squote s +:+ "'".
Definition quoteIdent (s : string) : string := str1 dquote +:+ double_char dquote s +:+ str1 dquote.
Definition truthy (v : string) : bool := (v =? "true")%string || (v =? "1")%string.

Definition blank (c : ascii) : bool := (c =? " ")%char.
Definition trim (s : string) : string := rstrip blank (lstrip blank s).

(** [s.size() >= 2 && s.front() == front && s.back() == back] and what is between *)
Definition inside (front back : ascii) (s : string) : option string :=
  if (2 <=? strlen s) && head_is front s && head_is back (srev s)
  then Some (substr s 1 (strlen s - 2)) else None.

(** the items of [s] from [start] on; the fuel is a step per byte *)
Fixpoint items (fuel : nat) (s : string) (start : nat) : list string :=
  match fuel with
  | 0 => []
  | S fuel =>
      if start <? strlen s then
        let stop := default (strlen s) (find_char "," s start) in
        let item := trim (substr s start (stop - start)) in
        (if sempty item then [] else [item]) ++ items fuel s (S stop)
      else []
  end.

Definition parseList (v : string) : list string :=
  let s := default v (inside "[" "]" v) in
  items (strlen s) s 0.

(** ** Statements *)

Section library.
Context (lib : DuckDb).

Definition free_result (r : nat) : DkM unit := call (DkFreeResult r) (λ _, tt).
Definition free_prepared (p : nat) : DkM unit := call (DkFreePrepared p) (λ _, tt).
Definition free_extracted (e : nat) : DkM unit := call (DkFreeExtracted e) (λ _, tt).

(** the rows of a catalog query *)
Definition rows (c : nat) (sql : string) : DkM (list (list string)) :=
  r ← fresh;
  answer ← call (DkQuery r c (c_str sql)) (dk_query lib);
  finally
    (match answer with
     | DkFails err => throws (default "query failed" err)
     | DkSucceeds res => mret (map (row_text (dr_columns res)) (dr_rows res))
     end) (free_result r).

Definition report (rowLimit : Z) (res : DkResult) : StatementResult :=
  if dr_isQuery res then
    let data := map (row_text (dr_columns res)) (limited rowLimit (dr_rows res)) in
    mkStatementResult true "" (map (default "") (dr_columns res)) data 0 (returned (length data))
  else
    mkStatementResult true "" [] [] (to_int (dr_changed res)) "Query executed successfully".

(** the [i]th statement and the [n - 1] after it *)
Fixpoint statements_from (n i : nat) (c e : nat) (rowLimit : Z) (statements : list StatementResult)
    : DkM (list StatementResult) :=
  match n with
  | 0 => mret statements
  | S n =>
      p ← fresh;
      prepared ← call (DkPrepare p c e i) (dk_prepare lib);
      if negb prepared then
        err ← call (DkPrepareError p) (dk_error lib);
        free_prepared p ;;
        mret (statements ++ [failure (default "Failed to prepare statement" err)])
      else
        r ← fresh;
        answer ← call (DkExecute r p) (dk_query lib);
        free_prepared p ;;
        match answer with
        | DkFails err =>
            free_result r ;;
            mret (statements ++ [failure (default "Query failed" err)])
        | DkSucceeds res =>
            free_result r ;;
            statements_from n (S i) c e rowLimit (statements ++ [report rowLimit res])
        end
  end.

Definition execute (c : nat) (query : string) (rowLimit : Z) : DkM QueryResult :=
  e ← fresh;
  found ← call (DkExtract e c (c_str query)) (dk_extract lib);
  match found with
  | None => mret (one_failure "Failed to parse query")
  | Some 0 =>
      err ← call (DkExtractError e) (dk_error lib);
      free_extracted e ;;
      mret (one_failure (default "Failed to parse query" err))
  | Some count =>
      statements ← statements_from count 0 c e rowLimit [];
      free_extracted e ;;
      mret (mkQueryResult statements [])
  end.

(** ** The catalog *)

Definition columns_sql (lit : string) : string := "PRAGMA table_info(" +:+ lit +:+ ")".
Definition indexes_sql (lit : string) : string :=
  "SELECT index_name, is_unique, is_primary, expressions::VARCHAR FROM duckdb_indexes() " +:+
  "WHERE schema_name = 'main' AND table_name = " +:+ lit.
Definition constraints_sql (lit : string) : string :=
  "SELECT constraint_column_names::VARCHAR, referenced_table, " +:+
  "referenced_column_names::VARCHAR FROM duckdb_constraints() " +:+
  "WHERE constraint_type = 'FOREIGN KEY' AND schema_name = 'main' " +:+
  "AND table_name = " +:+ lit.

Definition table_column (row : list string) : option Column :=
  if length row <? 6 then None
  else Some (mkColumn (cell row 1) (cell row 2)
               (if (cell row 4 =? NULL_SENTINEL)%string then "" else cell row 4) ""
               (truthy (cell row 5)) (truthy (cell row 3)) false false).

Definition unquoted (col : string) : string := default col (inside dquote dquote col).

Definition table_index (row : list string) : Index :=
  mkIndex (cell row 0) (map unquoted (parseList (cell row 3))) (truthy (cell row 1))
    (truthy (cell row 2)) "ART".

Definition table_foreign_keys (tableName : string) (row : list string) : list ForeignKey :=
  zip_with (λ src dst, mkForeignKey ("fk_" +:+ tableName +:+ "_" +:+ src) src (cell row 1) dst "" "")
    (parseList (cell row 0)) (parseList (cell row 2)).

Definition load (c : nat) (tableName : string) (isView : bool) : DkM Table :=
  let lit := literal tableName in
  column_rows ← rows c (columns_sql lit);
  let table indexes foreignKeys :=
    mkTable tableName "" "" "" tableName (omap table_column column_rows) indexes foreignKeys []
      (-1)%Z in
  if isView then mret (table [] [])
  else
    index_rows ← rows c (indexes_sql lit);
    key_rows ← rows c (constraints_sql lit);
    mret (table (map table_index index_rows) (mjoin (map (table_foreign_keys tableName) key_rows))).

Definition tables_sql : string :=
  "SELECT table_name FROM information_schema.tables " +:+
  "WHERE table_type = 'BASE TABLE' AND table_schema = 'main' " +:+
  "ORDER BY table_name".

Definition tables (c : nat) : DkM (list Table) :=
  names ← rows c tables_sql;
  result ← mapM (λ row, load c (cell row 0) false) names;
  mret (populateIncomingForeignKeys result).

Definition views_sql : string :=
  "SELECT view_name, sql FROM duckdb_views() " +:+
  "WHERE schema_name = 'main' AND NOT internal ORDER BY view_name".

Definition views (c : nat) : DkM (list Table) :=
  view_rows ← rows c views_sql;
  mapM (λ row, v ← load c (cell row 0) true; mret (set_definition (view_body (cell row 1)) v)) view_rows.

Definition sequences_sql : string :=
  "SELECT sequence_name FROM duckdb_sequences() ORDER BY sequence_name".
Definition sequences (c : nat) : DkM (list string) :=
  sequence_rows ← rows c sequences_sql;
  mret (map (λ row, cell row 0) sequence_rows).

Definition describeTable (c : nat) (tableName : string) : DkM Table := load c tableName false.

(** ** The connection *)

(** [DuckDBDatabaseNode] *)
Record DkNode := mkDkNode { dn_db : nat; dn_connection : nat; dn_name : string }.

Definition disconnect (c : nat) : DkM unit := call (DkDisconnect c) (λ _, tt).
Definition close_database (d : nat) : DkM unit := call (DkClose d) (λ _, tt).
Definition interrupt (c : nat) : DkM unit := call (DkInterrupt c) (λ _, tt).

#[export] Instance duckdb_backend : Backend dk_event DkNode :=
  mkBackend dn_db (λ x, Some (dn_connection x)) close_database disconnect.

Notation DkC := (ShM dk_event DkNode).

(** [std::filesystem::path(path).stem()] on POSIX paths *)
Definition stemOf (path : string) : string :=
  let f := path_filename path path in
  if (f =? ".")%string || (f =? "..")%string then f
  else match last_dot f 0 None with None | Some 0 => f | Some k => stake k f end.

(** a database, or the message why there is none *)
Definition open_file (path : string) (readOnly : bool) (unable : string) : DkM (string + nat) :=
  d ← fresh;
  opened ← call (DkOpen d (c_str path) readOnly) (dk_open lib);
  mret (match opened with DkOpened => inr d | DkOpenFails err => inl (default unable err) end).

Context (info : ConnectionInfo).

(** a node without an owner: what [openDatabase] makes *)
Definition new_node : DkC (option nat) :=
  db ← get_resource;
  match db with
  | None => mret None
  | Some d =>
      connection ← on_world (c ← fresh; connected ← call (DkConnect c d) (dk_connect lib);
                             mret (if connected : bool then Some c else None));
      match connection with
      | None => mret None
      | Some c => n ← make_node (mkDkNode d c (path_filename (ci_path info) (ci_path info))); mret (Some n)
      end
  end.

Definition handed_out (n : option nat) : DkC (option nat) :=
  match n with None => mret None | Some n => n ← hand_out n; mret (Some n) end.

Definition openDatabase : DkC (option nat) := n ← new_node; handed_out n.

(** [database()] for the connection's own use *)
Definition default_node : DkC (option nat) :=
  default ← get_default;
  match default with
  | Some n => mret (Some n)
  | None => n ← new_node; set_default n ;; mret n
  end.

Definition database : DkC (option nat) := n ← default_node; handed_out n.

Definition databases : DkC (list nat) :=
  db ← database;
  mret (match db with Some n => [n] | None => [] end).

Definition close : DkC unit := reset_default ;; reset_resource.

Definition isOpen : DkC bool := db ← get_resource; mret (bool_decide (is_Some db)).

Definition csv_view_sql (path : string) : string :=
  "CREATE VIEW " +:+ quoteIdent (stemOf path) +:+ " AS SELECT * FROM read_csv(" +:+ literal path +:+ ")".

(** a null pointer's method is called: nothing is said of what follows *)
Definition crashes {A} : DkC A := hangs.

Definition read_csv : DkC Status :=
  node ← default_node;
  x ← match node with Some n => get_node n | None => mret None end;
  match x with
  | None => crashes
  | Some x =>
      r ← on_world (execute (dn_connection x) (csv_view_sql (ci_path info)) 0);
      if qr_success r then mret (true, "")
      else close ;; mret (false, "Failed to read CSV: " +:+ qr_errorMessage r)
  end.

Definition open : DkC Status :=
  db ← get_resource;
  match db with
  | Some _ => mret (true, "")
  | None =>
      let csv := isCsvPath (ci_path info) in
      opened ← on_world (open_file (if csv then ":memory:" else ci_path info)
                           (ci_readOnly info && negb csv) "Unable to open database");
      match opened with
      | inl err => mret (false, err)
      | inr d => set_resource (Some d) ;; if csv then read_csv else mret (true, "")
      end
  end.

(** ** The rows of a csv file *)

Record CsvFormat := mkCsvFormat {
  cf_delimiter : string;
  cf_quote : ascii;
  cf_header : bool;
  cf_encoding : string
}.

Definition default_format : CsvFormat := mkCsvFormat "," dquote true "utf-8".

Definition csv_source (path : string) (format : CsvFormat) : string :=
  "read_csv(" +:+ literal path +:+ ", delim = " +:+ literal (cf_delimiter format) +:+ ", quote = " +:+
  literal (str1 (cf_quote format)) +:+ ", header = " +:+ (if cf_header format then "true" else "false") +:+
  ", encoding = " +:+ literal (cf_encoding format) +:+ ", null_padding = true, " +:+
  "parallel = false)".

Definition csv_rows_sql (path condition : string) (format : CsvFormat) : string :=
  "SELECT __dearsql_row FROM (SELECT row_number() OVER () - 1 AS " +:+
  "__dearsql_row, * FROM " +:+ csv_source path format +:+ ") WHERE (" +:+
  (if sempty condition then "true" else condition) +:+ ") ORDER BY 1".

(** [std::stoull(row.at(0))]; the text of the standard library's errors is its name *)
Definition row_number (row : list string) : DkM Z :=
  match head row with
  | None => throws "vector::at"
  | Some s => match stoull s with Some z => mret z | None => throws "stoull" end
  end.

Definition csvMatchingRows (path condition : string) (format : CsvFormat) : DkM (list Z) :=
  opened ← open_file ":memory:" false "Unable to open DuckDB";
  match opened with
  | inl err => throws err
  | inr d =>
      finally
        (c ← fresh;
         connected ← call (DkConnect c d) (dk_connect lib);
         if negb connected then throws "Unable to connect to DuckDB"
         else
           finally (found ← rows c (csv_rows_sql path condition format); mapM row_number found) (disconnect c))
        (close_database d)
  end.
End library.
