(* ===== verification/DuckDbProps.v ===== *)
(** * The DuckDB backend: properties of its objects

    No object of DuckDB is used after its end; results and statements are always freed, and
    connections and databases have owners. *)

From S2P Require Import Prelude Types Effects Objects Sharing ConnectionInfo Database Rows DuckDb.

Section objects.
Context (lib : DuckDb).

(** what a call does to objects *)
Definition dk_actions (log : DkLog) (e : dk_event) : list action :=
  match e with
  | DkOpen d _ _ => match dk_open lib log with DkOpened => [Make d None] | DkOpenFails _ => [] end
  | DkClose d => [Free d]
  | DkConnect c d => Use d :: if dk_connect lib log then [Make c (Some d)] else []
  | DkDisconnect c => [Free c]
  | DkInterrupt c => [Use c]
  | DkQuery r c _ => [Use c; Make r None]
  | DkExtract e c _ =>
      Use c :: match dk_extract lib log with Some _ => [Make e (Some c)] | None => [] end
  | DkExtractError e => [Use e]
  | DkPrepare p c e _ => [Use c; Use e; Make p (Some c)]
  | DkPrepareError p => [Use p]
  | DkExecute r p => [Use p; Make r None]
  | DkFreeExtracted e => [Free e]
  | DkFreePrepared p => [Free p]
  | DkFreeResult r => [Free r]
  end.

Notation Live := (Live dk_actions).

(** ** Queries *)

Section connection.
Context (c : nat) (L : Alive) (Hc : is_Some (L !! c)).

Lemma keeps_rows sql : keeps (Live L) (rows lib c sql).
Proof.
  unfold rows. apply live_make with (made := λ _, true) (parent := None); [|done| |done].
  - intros r log. acting.
  - intros r answer Hr Hch Hp _. apply live_scope; [done..|]. destruct answer; keeping.
Qed.

Hint Resolve keeps_rows : keeps.

Lemma dk_keeps_load tableName isView : keeps (Live L) (load lib c tableName isView).
Proof. unfold load. keeping. Qed.

Hint Resolve dk_keeps_load : keeps.

Lemma dk_keeps_tables : keeps (Live L) (tables lib c).
Proof. unfold tables. keeping. Qed.
Lemma dk_keeps_views : keeps (Live L) (views lib c).
Proof. unfold views. keeping. Qed.
Lemma dk_keeps_sequences : keeps (Live L) (sequences lib c).
Proof. unfold sequences. keeping. Qed.
End connection.

(** ** Statements *)

(** a result is made of a prepared statement, which is freed before it *)
Lemma live_executed {A} c e L p (f : nat → dk_queried → DkM A) Q E :
  L !! p = None → has_child p L = false → c ≠ p → is_Some (L !! e) →
  (∀ r answer, L !! r = None → has_child r L = false →
     triple (Live (<[r := None]> L)) (f r answer) Q E) →
  triple (Live (<[p := Some c]> L))
    (r ← fresh; answer ← call (DkExecute r p) (dk_query lib); free_prepared p ;; f r answer) Q E.
Proof.
  intros Hp Hch Hcp He Hf.
  apply (live_make dk_actions (λ r, DkExecute r p) (dk_query lib)
           (λ r answer, free_prepared p ;; f r answer) (λ _, true) None); [|done| |done].
  - intros r log. acting.
  - intros r answer Hr Hrc _ _. apply lookup_insert_None in Hr as [Hr Hne].
    assert (Hrc' : has_child r L = false).
    { rewrite !has_child_false in Hrc |- *. intros k Hk. apply (Hrc k).
      rewrite lookup_insert_ne; [done|]. intros ->. congruence. }
    eapply (triple_bind _ _ (λ _, Live (<[r := None]> L))); [|intros []; by apply Hf].
    rewrite insert_insert_ne by done. apply live_unmake; [done| | |congruence].
    + by rewrite lookup_insert_ne.
    + rewrite !has_child_false in Hch |- *. intros k. rewrite lookup_insert. case_decide; [done|apply Hch].
Qed.

Lemma live_statements n i c e L rowLimit statements E :
  is_Some (L !! c) → is_Some (L !! e) →
  triple (Live L) (statements_from lib n i c e rowLimit statements) (λ _, Live L) E.
Proof.
  intros Hc He. revert i statements. induction n as [|n IH]; intros i statements; cbn [statements_from].
  { by intros w Hw. }
  apply live_make with (made := λ _, true) (parent := Some c); [|by intros p [= <-]| |done].
  { intros p log. acting. }
  intros p prepared Hp Hch Hcp _. destruct prepared; cbn [negb].
  - apply (live_executed c e L p); [done..|congruence|done|]. intros r answer Hr Hrc.
    destruct answer; (eapply triple_bind; [by apply live_unmake|]); intros []; [by intros w Hw|apply IH].
  - eapply triple_bind; [apply (live_uses dk_actions (DkPrepareError p) _ _ p); [done|apply made_there]|].
    intros err. eapply triple_bind; [by apply live_unmake|]. intros []. by intros w Hw.
Qed.

Lemma dk_keeps_execute c L query rowLimit :
  is_Some (L !! c) → keeps (Live L) (execute lib c query rowLimit).
Proof.
  intros Hc. unfold execute.
  apply live_make with (made := λ found, match found with Some _ => true | None => false end) (parent := Some c);
    [|by intros p [= <-]| |].
  - intros e log. simpl. rewrite exists_true by done. destruct (dk_extract lib log); acting.
  - intros e [[|count]|] He Hch Hp Hm; [| |done].
    + eapply triple_bind; [apply (live_uses dk_actions (DkExtractError e) _ _ e); [done|apply made_there]|].
      intros err. eapply triple_bind; [by apply live_unmake|]. intros []. by intros w Hw.
    + eapply triple_bind; [apply live_statements; [by apply still_there|apply made_there]|].
      intros statements. eapply triple_bind; [by apply live_unmake|]. intros []. by intros w Hw.
  - intros e [n|]; [done|]. intros _. by intros w Hw.
Qed.

(** ** The connection *)

#[export] Instance duckdb_laws : BackendLaws dk_actions.
Proof.
  split.
  - intros m r E Hr Hc. by apply live_free.
  - intros x m c E _ Hr Hc. by apply live_free.
Qed.

(** opening makes a database or nothing *)
Lemma dk_opens path readOnly unable L E :
  triple (Live L) (open_file lib path readOnly unable)
    (λ r w, match r with inr d => L !! d = None ∧ has_child d L = false ∧ Live (<[d := None]> L) w
            | inl _ => Live L w end) E.
Proof.
  unfold open_file.
  apply live_make with (made := λ o, match o with DkOpened => true | _ => false end) (parent := None).
  - intros d log. simpl. destruct (dk_open lib log); acting.
  - done.
  - intros d [|] Hd Hc _ Hm; [|done]. intros w Hw. by split.
  - intros d [|]; [done|]. by intros _ w Hw.
Qed.

(** so does connecting to a database that exists *)
Lemma connects {A} d L (f : nat → bool → DkM A) Q E :
  is_Some (L !! d) →
  (∀ c, L !! c = None → has_child c L = false → d ≠ c → triple (Live (<[c := Some d]> L)) (f c true) Q E) →
  (∀ c, triple (Live L) (f c false) Q E) →
  triple (Live L) (c ← fresh; connected ← call (DkConnect c d) (dk_connect lib); f c connected) Q E.
Proof.
  intros Hd Ht Hf. apply live_make with (made := id) (parent := Some d).
  - intros c log. simpl. destruct (dk_connect lib log); acting.
  - by intros p [= <-].
  - intros c [|] Hc Hch Hp Hm; [|done]. apply Ht; [done..|congruence].
  - intros c [|]; [done|]. intros _. apply Hf.
Qed.

Lemma keeps_csv path condition format L : keeps (Live L) (csvMatchingRows lib path condition format).
Proof.
  unfold csvMatchingRows. eapply triple_bind; [apply dk_opens|]. intros [err|d]; [by intros w Hw|].
  intros w (Hd & Hch & Hw). revert w Hw.
  match goal with |- ∀ w, Live ?L' w → match ?m w with _ => _ end =>
    change (triple (Live L') m (λ _, Live L) (Live L)) end.
  apply live_scope; [done..|]. apply connects; [apply made_there| |by intros c w Hw].
  intros c Hc Hcc Hdc. cbn [negb]. apply live_scope; [done..|congruence|].
  apply keeps_bind; [apply keeps_rows, made_there|]. intros found. apply keeps_mapM. intros row.
  unfold row_number. keeping.
Qed.

Section program.
Context (info : ConnectionInfo).
Notation S := (Sound dk_actions None None).

Lemma sound_new_node s :
  S s → match new_node lib info s with
        | (Done (Some n), s') => Sound dk_actions (Some n) None s' ∧ sh_default s' = sh_default s
        | (Done None, s') => S s' ∧ sh_default s' = sh_default s
        | (Throws _, s') => S s'
        | (Hangs, _) => True
        end.
Proof.
  intros Hs. unfold new_node, get_resource, mbind at 1, Eff_bind at 1.
  destruct (sh_resource s) as [d|] eqn:Hr; [|done]. unfold mbind at 1, Eff_bind at 1.
  match goal with |- context [on_world ?m s] =>
    pose proof (sound_make dk_actions m
      (λ r, match r with Some c => Some (c, Some d) | None => None end) s) as Hmake end.
  specialize (Hmake ltac:(intros L HL; specialize (HL d Hr);
    apply connects; [by eexists|by intros c Hc _ _ w Hw|by intros c w Hw]) Hs).
  destruct (on_world _ s) as [[[c|]|e|] s']; [|by destruct Hmake as (H & _ & Hd)|done..].
  destruct Hmake as (H & Hr' & Hd). rewrite Hr in Hr'.
  split; [|done]. by apply (sound_make_node dk_actions _ (Some (c, Some d)) s' H).
Qed.

Lemma sound_default_node s :
  S s → match default_node lib info s with
        | (Done n, s') => S s' ∧ (∀ k, n = Some k → is_Some (sh_nodes s' !! k))
        | (Throws _, s') => S s'
        | (Hangs, _) => True
        end.
Proof.
  intros Hs. unfold default_node, get_default, mbind, Eff_bind.
  destruct (sh_default s) as [n|] eqn:Hd.
  { split; [done|]. intros k [= <-]. apply (so_nodes _ _ _ _ Hs). by left. }
  pose proof (sound_new_node s Hs) as H. rewrite Hd in H.
  destruct (new_node lib info s) as [[[n|]|e|] s']; [| |done..]; destruct H as [H Hd'].
  - pose proof (sound_default dk_actions n s' Hd' H) as H1. split; [exact H1|].
    intros k [= <-]. apply (so_nodes _ _ _ _ H1). by left.
  - split; [|done]. destruct H as [Hl Hn ? ? ?]. split; [|intros k|done..].
    + destruct Hl as (L & HL & Ho). by exists L.
    + simpl. rewrite Hn. unfold has_owner. simpl. by rewrite Hd'.
Qed.

Lemma dk_keeps_openDatabase : keeps S (openDatabase lib info).
Proof.
  intros s Hs. unfold openDatabase, mbind, Eff_bind. pose proof (sound_new_node s Hs) as H.
  destruct (new_node lib info s) as [[[n|]|e|] s']; [|by destruct H|done..]. destruct H as [H _].
  apply (sound_hand_out dk_actions (Some n) n s' H). by left.
Qed.

Lemma dk_keeps_database : keeps S (database lib info).
Proof.
  intros s Hs. unfold database, mbind, Eff_bind. pose proof (sound_default_node s Hs) as H.
  destruct (default_node lib info s) as [[[n|]|e|] s']; [|by destruct H|done..]. destruct H as [H Hn].
  apply (sound_hand_out dk_actions None n s' H). right. split; [done|]. by apply Hn.
Qed.

Lemma dk_keeps_close : keeps S close.
Proof. apply keeps_bind; [|intros _]; [exact (keeps_reset_default dk_actions)|exact (keeps_reset_resource dk_actions)]. Qed.

Lemma keeps_read_csv : keeps S (read_csv lib info).
Proof.
  intros s Hs. unfold read_csv, mbind at 1, Eff_bind at 1. pose proof (sound_default_node s Hs) as H.
  destruct (default_node lib info s) as [[n|e|] s1]; [|done..]. destruct H as [H1 Hn].
  unfold mbind at 1, Eff_bind at 1. destruct n as [n|]; [|done].
  destruct (Hn n eq_refl) as [x Hx]. unfold get_node. rewrite Hx. unfold mbind at 1, Eff_bind at 1.
  pose proof (sound_through dk_actions n x (execute lib (dn_connection x) (csv_view_sql (ci_path info)) 0)) as Ht.
  specialize (Ht ltac:(intros L _ Hc; apply dk_keeps_execute; rewrite (Hc _ eq_refl); by eexists) s1 (conj H1 Hx)).
  destruct (on_world _ s1) as [[r|e|] s2]; [|done..]. destruct (qr_success r); [done|].
  pose proof (dk_keeps_close s2 Ht) as Hc. unfold mbind, Eff_bind. by destruct (close s2) as [[[]|e|] s3].
Qed.

Lemma dk_keeps_open : keeps S (open lib info).
Proof.
  intros s Hs. unfold open, get_resource, mbind at 1, Eff_bind at 1.
  destruct (sh_resource s) as [d|] eqn:Hr; [done|]. unfold mbind at 1, Eff_bind at 1.
  match goal with |- context [on_world ?m s] =>
    pose proof (sound_make dk_actions m (λ r, match r with inr d => Some (d, None) | inl _ => None end) s) as Hmake end.
  specialize (Hmake ltac:(intros L _; eapply triple_weaken; [apply dk_opens|done|by intros [e|d] w; tauto|done]) Hs).
  destruct (on_world _ s) as [[[err|d]|e|] s']; [by destruct Hmake| |done..].
  destruct Hmake as (H & Hr' & _). rewrite Hr in Hr'. pose proof (sound_keep dk_actions d s' Hr' H) as Hk.
  unfold mbind, Eff_bind. cbn [set_resource]. destruct (isCsvPath _); [|exact Hk].
  exact (keeps_read_csv _ Hk).
Qed.

(** ** What a program does with a connection *)

Inductive dk_use :=
  | UseExecute (sql : string) (rowLimit : Z)
  | UseTables | UseViews | UseSequences
  | UseDescribe (tableName : string)
  | UseCancel.

Inductive dk_op :=
  | OpOpen | OpClose | OpDatabase | OpDatabases | OpOpenDatabase
  | OpRelease (n : nat)
  | OpUse (n : nat) (u : dk_use)
  | OpCsvRows (path condition : string) (format : CsvFormat).

Definition ignore {St A} (m : Eff St A) : Eff St unit := m ;; mret tt.

Definition use_node (u : dk_use) (x : DkNode) : DkM unit :=
  let c := dn_connection x in
  match u with
  | UseExecute sql rowLimit => ignore (execute lib c sql rowLimit)
  | UseTables => ignore (tables lib c)
  | UseViews => ignore (views lib c)
  | UseSequences => ignore (sequences lib c)
  | UseDescribe tableName => ignore (describeTable lib c tableName)
  | UseCancel => interrupt c
  end.

Definition perform (op : dk_op) : ShM dk_event DkNode unit :=
  match op with
  | OpOpen => ignore (open lib info)
  | OpClose => close
  | OpDatabase => ignore (database lib info)
  | OpDatabases => ignore (databases lib info)
  | OpOpenDatabase => ignore (openDatabase lib info)
  | OpRelease n => give_back n
  | OpUse n u => through n (use_node u)
  | OpCsvRows path condition format => on_world (ignore (csvMatchingRows lib path condition format))
  end.

Lemma dk_keeps_ignore {St A} (P : St → Prop) (m : Eff St A) : keeps P m → keeps P (ignore m).
Proof. intros Hm. apply keeps_bind; [done|]. intros x. apply keeps_ret. Qed.

Lemma dk_keeps_use u x L : is_Some (L !! dn_connection x) → keeps (Live L) (use_node u x).
Proof.
  intros Hc. destruct u; cbn [use_node]; try apply dk_keeps_ignore.
  - by apply dk_keeps_execute.
  - by apply dk_keeps_tables.
  - by apply dk_keeps_views.
  - by apply dk_keeps_sequences.
  - by apply dk_keeps_load.
  - by apply (live_uses dk_actions (DkInterrupt (dn_connection x)) _ _ (dn_connection x)).
Qed.

Lemma dk_keeps_perform op : keeps S (perform op).
Proof.
  destruct op as [ | | | | |n|n u|path condition format]; cbn [perform]; try apply dk_keeps_ignore.
  - apply dk_keeps_open.
  - apply dk_keeps_close.
  - apply dk_keeps_database.
  - apply keeps_bind; [apply dk_keeps_database|]. intros db. apply keeps_ret.
  - apply dk_keeps_openDatabase.
  - apply (keeps_give_back dk_actions).
  - apply (keeps_through dk_actions). intros x L _ Hc. apply dk_keeps_use. rewrite (Hc _ eq_refl). by eexists.
  - intros s Hs.
    pose proof (sound_make (Node := DkNode) dk_actions (ignore (csvMatchingRows lib path condition format))
      (λ _, None) s (λ L _, dk_keeps_ignore _ _ (keeps_csv path condition format L)) Hs) as H.
    destruct (on_world _ s) as [[[]|e|] s']; [by destruct H|done..].
Qed.
End program.
End objects.

(** C23: DuckDB's objects are owned and freed.  After any operations of a DuckDB connection, of
    csv files and through the nodes that callers own, errors and failed openings included, no
    object was used after its end, ended twice, or ended before one made from it; and what
    exists is exactly the databases of the connection and of the nodes, and one connection
    per node: every result and statement was freed, and a private csv database is gone. *)
Theorem duckdb_objects lib info ops s :
  run_all (perform lib info) ops new_shared = Some s →
  ∃ objects, alive (dk_actions lib) (w_log (sh_world s)) = Some objects ∧
    (∀ o, objects !! o = Some None ↔
       sh_resource s = Some o ∨ ∃ n x, sh_nodes s !! n = Some x ∧ dn_db x = o) ∧
    (∀ o d, objects !! o = Some (Some d) ↔
       ∃ n x, sh_nodes s !! n = Some x ∧ dn_connection x = o ∧ dn_db x = d) ∧
    (∀ n n' x x', sh_nodes s !! n = Some x → sh_nodes s !! n' = Some x' →
       dn_connection x = dn_connection x' → n = n') ∧
    ∀ n, is_Some (sh_nodes s !! n) ↔ sh_default s = Some n ∨ n ∈ sh_held s.
Proof.
  intros Hrun.
  assert (Hs : Sound (dk_actions lib) None None s).
  { eapply run_all_keeps; [apply dk_keeps_perform|apply sound_new|exact Hrun]. }
  destruct Hs as [(L & [HL _] & Ho) Hn Hone _ _]. exists L. split; [done|]. split_and!.
  - intros o. rewrite Ho. unfold owned. simpl. naive_solver.
  - intros o d. rewrite Ho. unfold owned. simpl. naive_solver.
  - intros n n' x x' Hx Hx' Hc. apply (Hone n n' x x' (dn_connection x)); [done..|]. simpl. by rewrite Hc.
  - intros n. rewrite Hn. unfold has_owner. naive_solver.
Qed.

(** ** A sample engine *)

Definition sample_info : ConnectionInfo :=
  mkConnectionInfo DUCKDB "local" "/data/prices.csv" "" 0 "" "" "" false Disable "" false.

Definition sample_result : DkResult := mkDkResult true [Some "n"] [[DkText (Some "7")]; [DkNull]] 0.

Definition sample_duckdb (refuses : bool) : DuckDb :=
  mkDuckDb (λ _, DkOpened) (λ _, true) (λ _, DkSucceeds sample_result)
    (λ _, if refuses then Some 0 else Some 2) (λ _, true) (λ _, Some "no").

Definition sample_ops : list dk_op :=
  [OpOpen; OpDatabase; OpUse 0 (UseExecute "SELECT 7; SELECT 8" 0); OpOpenDatabase; OpClose; OpRelease 0].

Definition sample_state (refuses : bool) : Shared dk_event DkNode :=
  default new_shared (run_all (perform (sample_duckdb refuses) sample_info) sample_ops new_shared).

(** a connection that is closed while a second node is still held: its database stays; and a
    csv file that cannot be read leaves nothing *)
Lemma duckdb_objects_witness :
  (elements (sh_held (sample_state false)), elements (sh_held (sample_state true))) = ([1], []) ∧
  (∃ objects, alive (dk_actions (sample_duckdb false)) (w_log (sh_world (sample_state false))) = Some objects ∧
    ∀ o, objects !! o = Some None ↔ sh_resource (sample_state false) = Some o ∨
      ∃ n x, sh_nodes (sample_state false) !! n = Some x ∧ dn_db x = o) ∧
  ∃ objects, alive (dk_actions (sample_duckdb true)) (w_log (sh_world (sample_state true))) = Some objects ∧
    ∀ o, objects !! o = Some None ↔ sh_resource (sample_state true) = Some o ∨
      ∃ n x, sh_nodes (sample_state true) !! n = Some x ∧ dn_db x = o.
Proof.
  split; [vm_compute; reflexivity|]. split.
  - destruct (duckdb_objects (sample_duckdb false) sample_info sample_ops (sample_state false))
      as (objects & Ha & Ho & _); [vm_compute; reflexivity|].
    exact (ex_intro _ objects (conj Ha Ho)).
  - destruct (duckdb_objects (sample_duckdb true) sample_info sample_ops (sample_state true))
      as (objects & Ha & Ho & _); [vm_compute; reflexivity|].
    exact (ex_intro _ objects (conj Ha Ho)).
Defined.
