(* ===== verification/DuckDbText.v ===== *)
(** * The DuckDB backend: properties of statements and texts

    Each report is an answer of DuckDB's, the names and paths of a statement stay what they are,
    and the items of a list are read back. *)

From S2P Require Import Prelude Types Effects Objects ConnectionInfo SqlBuilder Lexer Quoting Database.
From S2P Require Import Rows DuckDb DuckDbProps.

(** ** Statements *)

Section statements.
Context (lib : DuckDb).

(** what DuckDB answered for each statement: its error, or its result *)
Fixpoint answers (log events : DkLog) : list (string + DkResult) :=
  match events with
  | [] => []
  | e :: events =>
      let log := log ++ [e] in
      match e with
      | DkPrepareError _ => [inl (default "Failed to prepare statement" (dk_error lib log))]
      | DkExecute _ _ =>
          match dk_query lib log with
          | DkFails err => [inl (default "Query failed" err)]
          | DkSucceeds res => [inr res]
          end
      | _ => []
      end ++ answers log events
  end.

(** the statements prepared *)
Definition prepared (events : DkLog) : list nat :=
  omap (λ e, match e with DkPrepare _ _ _ i => Some i | _ => None end) events.

(** how a value reads *)
Definition value_text (v : option dk_value) : string :=
  match v with
  | Some (DkText (Some text)) => c_str text
  | Some (DkText None) => ""
  | _ => NULL_SENTINEL
  end.

(** a report tells an answer: the error; the count of changed rows; or the columns' names and the
    rows, in full or the first up to the limit *)
Definition tells (rowLimit : Z) (a : string + DkResult) (s : StatementResult) : Prop :=
  match a with
  | inl err => s = failure err
  | inr res =>
      sr_success s = true ∧ sr_errorMessage s = "" ∧
      if dr_isQuery res then
        sr_columnNames s = map (default "") (dr_columns res) ∧
        ∃ kept, first_rows rowLimit (dr_rows res) kept ∧
          Forall2 (row_shows value_text (dr_columns res)) kept (sr_tableData s)
      else
        sr_columnNames s = [] ∧ sr_tableData s = [] ∧ sr_affectedRows s = to_int (dr_changed res)
  end.

Lemma report_tells rowLimit res : tells rowLimit (inr res) (report rowLimit res).
Proof.
  unfold tells, report. destruct (dr_isQuery res); [|done]. split_and!; [done..|].
  exists (limited rowLimit (dr_rows res)). split; [apply limited_first|]. apply rows_show_map.
  intros row. apply row_shows_imap. intros i _. by destruct (row !! i) as [[|[]]|].
Qed.

Definition succeeds (a : string + DkResult) : Prop := match a with inl _ => False | inr _ => True end.

Lemma answers_app log a b : answers log (a ++ b) = answers log a ++ answers (log ++ a) b.
Proof.
  revert log. induction a as [|e a IH]; intros log; simpl; [by rewrite app_nil_r|].
  by rewrite IH, <-!app_assoc.
Qed.

Lemma prepared_app a b : prepared (a ++ b) = prepared a ++ prepared b.
Proof. apply omap_app. Qed.

(** the run of [n] statements from the [i]th on *)
Record ran (n i : nat) (log events : DkLog) (got : list (string + DkResult)) : Prop := mkRan {
  rn_answers : answers log events = got;
  rn_prepared : prepared events = seq i (length got);
  rn_bound : length got <= n;
  rn_last : ∀ k e, got !! k = Some (inl e) → S k = length got;
  rn_all : Forall succeeds got → length got = n
}.

Lemma statements_ran n i c e rowLimit statements w :
  ∃ w' events got,
    ∃ new, statements_from lib n i c e rowLimit statements w = (Done (statements ++ new), w') ∧
    Forall2 (tells rowLimit) got new ∧
    w_log w' = w_log w ++ events ∧ ran n i (w_log w) events got.
Proof.
  revert i statements w. induction n as [|n IH]; intros i statements w; cbn [statements_from].
  { eexists w, [], [], []. rewrite !app_nil_r. by split_and!. }
  unfold mbind, Eff_bind, fresh, call. simpl. set (p := w_made w). set (log := w_log w ++ [_]).
  destruct (dk_prepare lib log); cbn [negb].
  - simpl. set (r := S p). set (log1 := log ++ [_]).
    assert (Hlog1 : log1 = w_log w ++ [DkPrepare p c e i; DkExecute r p]).
    { unfold log1, log. by rewrite <-app_assoc. }
    destruct (dk_query lib log1) as [err|res] eqn:Eq; simpl.
    + eexists _, [DkPrepare p c e i; DkExecute r p; DkFreePrepared p; DkFreeResult r], [inl (default "Query failed" err)].
      eexists [_]. split; [done|]. split; [by repeat constructor|].
      split; [simpl; by rewrite Hlog1, <-!app_assoc|]. split; simpl; try lia.
      * fold log. fold log1. by rewrite Eq.
      * done.
      * intros [|k] e'; [done|]. by destruct k.
      * by intros [[] _]%Forall_cons.
    + set (w1 := mkWorld _ _).
      destruct (IH (S i) (statements ++ [report rowLimit res]) w1) as (w' & events & got & new & -> & Htells & Hl & [Ha Hp Hb Hlast Hall]).
      eexists w', (DkPrepare p c e i :: DkExecute r p :: DkFreePrepared p :: DkFreeResult r :: events), (inr res :: got).
      exists (report rowLimit res :: new). split; [by rewrite <-app_assoc|].
      split; [by constructor; [apply report_tells|]|]. split.
      { rewrite Hl. simpl. rewrite Hlog1, <-!app_assoc. done. }
      split; simpl; try lia.
      * fold log. fold log1. rewrite Eq. simpl. f_equal. rewrite <-Ha. done.
      * by rewrite Hp.
      * intros [|k] e'; [done|]. simpl. intros Hk. f_equal. by eapply Hlast.
      * intros [_ H]%Forall_cons. f_equal. auto.
  - simpl. eexists _, [DkPrepare p c e i; DkPrepareError p; DkFreePrepared p], [inl _].
    eexists [_]. split; [done|]. split; [by repeat constructor|].
    split; [simpl; unfold log; by rewrite <-!app_assoc|]. split; simpl; try lia.
    + done.
    + done.
    + intros [|k] e'; [done|]. by destruct k.
    + by intros [[] _]%Forall_cons.
Qed.
End statements.

(** C24: A DuckDB script is reported statement by statement.  [execute] always ends; where DuckDB
    finds statements they are prepared one after the other from the first on, each once, until
    one fails, and the reports tell DuckDB's answers in order: an error with its message, the
    count of a statement that changes rows, or the names of the columns and the rows, a text for
    each column, all of them or the first up to a positive limit; only the last can be a failure,
    and without one every statement was run.  Where it finds none, the one report is a failure,
    and nothing is prepared. *)
Theorem duckdb_execute lib c query rowLimit w :
  let log := w_log w ++ [DkExtract (w_made w) c (c_str query)] in
  ∃ r w' events, execute lib c query rowLimit w = (Done r, w') ∧ w_log w' = log ++ events ∧
    match dk_extract lib log with
    | Some (S n) =>
        let got := answers lib log events in
        Forall2 (tells rowLimit) got (qr_statements r) ∧ prepared events = seq 0 (length got) ∧
        length got <= S n ∧ (∀ k e, got !! k = Some (inl e) → S k = length got) ∧
        (Forall succeeds got → length got = S n)
    | _ => ∃ message, qr_statements r = [failure message] ∧ prepared events = []
    end.
Proof.
  intros log. unfold execute, mbind at 1, Eff_bind at 1, fresh, mbind at 1, Eff_bind at 1, call at 1.
  cbn [w_log w_made]. fold log. destruct (dk_extract lib log) as [[|n]|].
  - eexists _, _, [_; _]. split; [reflexivity|]. split; [simpl; by rewrite <-app_assoc|]. by eexists.
  - destruct (statements_ran lib (S n) 0 c (w_made w) rowLimit [] (mkWorld log (S (w_made w))))
      as (w' & events & got & new & E & Ht & Hl & [Ha Hp Hb Hlast Hall]).
    eexists _, _, (events ++ [DkFreeExtracted (w_made w)]). unfold mbind, Eff_bind. rewrite E.
    split; [reflexivity|]. simpl in *. split; [by rewrite Hl, app_assoc|].
    rewrite answers_app, Ha, prepared_app, Hp. simpl. rewrite !app_nil_r. by split_and!.
  - eexists _, _, []. split; [reflexivity|]. split; [by rewrite app_nil_r|]. by eexists.
Qed.

(** a server with two statements, of three rows each *)
Definition sample_rows : DuckDb :=
  mkDuckDb (λ _, DkOpened) (λ _, true)
    (λ _, DkSucceeds (mkDkResult true [Some "x"] [[DkText (Some "1")]; [DkNull]; [DkText (Some "3")]] 0))
    (λ _, Some 2) (λ _, true) (λ _, None).

Lemma duckdb_execute_witness :
  ∃ r w', execute sample_rows 0 "FROM t; FROM t" 2 new_world = (Done r, w') ∧
    map sr_tableData (qr_statements r) = [[["1"]; [NULL_SENTINEL]]; [["1"]; [NULL_SENTINEL]]].
Proof.
  destruct (duckdb_execute sample_rows 0 "FROM t; FROM t" 2 new_world) as (r & w' & events & E & _).
  exists r, w'. split; [exact E|]. vm_compute in E. injection E as <- _. reflexivity.
Defined.

(** ** Texts read back *)

Notation duckdb := (dialectFor DUCKDB).

(** DuckDB's tokenizer reads [l] off [text] when [rest] follows *)
Definition reads (text : string) (l : list (Tok * string)) (rest : string) : Prop :=
  ∀ prev, ∃ p, lexemes duckdb prev (text +:+ rest) = l ++ lexemes duckdb p rest.

Lemma dk_reads_app a la b lb rest :
  reads a la (b +:+ rest) → reads b lb rest → reads (a +:+ b) (la ++ lb) rest.
Proof.
  intros Ha Hb prev. rewrite sapp_assoc. destruct (Ha prev) as [p ->]. destruct (Hb p) as [p' ->].
  exists p'. by rewrite app_assoc.
Qed.

Lemma reads_whole text l : reads text l "" → lexemes duckdb None text = l.
Proof.
  intros H. destruct (H None) as [p Hp]. rewrite sapp_nil_r in Hp. by rewrite Hp, lexemes_nil, app_nil_r.
Qed.

Lemma reads_space rest : reads " " [] rest.
Proof. intros prev. exists (Some " "%char). apply lexemes_space. Qed.

Lemma reads_word w rest : plain_word w = true → ends_word duckdb rest = true → reads w [(TWord, w)] rest.
Proof.
  destruct w as [|c w]; [done|]. intros [Hc Hw]%andb_true_iff Hr prev.
  destruct (lexemes_word duckdb prev c w rest Hc Hw Hr) as [p ->]. by exists (Some p).
Qed.

Lemma reads_symbol c k rest :
  (c, k) ∈ [("(", TPunct); (")", TPunct); (",", TPunct); ("=", TOp); ("*", TOp)]%char →
  reads (str1 c) [(k, str1 c)] rest.
Proof.
  intros Hc prev. change (str1 c +:+ rest) with (String c "" +:+ rest).
  assert (Hone : isspace c = false ∧
    lex_token duckdb prev 0 (String c "" +:+ rest) = mkToken k 0 1 true false (str1 c)).
  { repeat (apply elem_of_cons in Hc as [[= -> ->]|Hc]); [done..|]. by apply elem_of_nil in Hc. }
  destruct Hone as [Hs Ht]. rewrite (lexemes_cons duckdb prev c "" rest _ Hs Ht eq_refl). by eexists.
Qed.

Lemma reads_ident name rest : head_is dquote rest = false → reads (quoteIdent name) [(TQuotedIdent, name)] rest.
Proof.
  intros Hr prev. destruct (lexemes_quoted DUCKDB prev name rest Hr) as [p Hp]. exists (Some p). exact Hp.
Qed.

Lemma reads_literal v rest : head_is squote rest = false → reads (literal v) [(TString, v)] rest.
Proof.
  intros Hr prev.
  assert (E : literal v +:+ rest = String squote (double_char squote v +:+ "'") +:+ rest) by done.
  rewrite E. rewrite (lexemes_cons duckdb prev squote (double_char squote v +:+ "'") rest
    (mkToken TString 0 (strlen (String squote (double_char squote v +:+ "'"))) true false v));
    [by eexists|done| |done].
  rewrite sapp_cons, sapp_assoc. unfold lex_token, char_at.
  cbn -[scan_quoted String.append double_char]. unfold quoted_token. cbn [sdrop].
  change ("'" +:+ rest) with (String squote rest). rewrite scan_quoted_escaped by (done || by left).
  f_equal. simpl. rewrite slen_app. simpl. lia.
Qed.

(** words and the spaces behind them *)
Lemma reads_words ws x l rest :
  forallb plain_word ws = true → reads x l rest → reads (spaced ws x) (words ws ++ l) rest.
Proof.
  induction ws as [|w ws IH]; [done|]. simpl. intros [Hw Hws]%andb_true_iff Hx.
  apply (dk_reads_app w [_]); [apply reads_word; [done|reflexivity]|].
  apply (dk_reads_app " " []); [apply reads_space|]. by apply IH.
Qed.

(** [name = value] *)
Lemma reads_setting name value l rest :
  plain_word name = true → reads value l rest →
  reads (name +:+ " = " +:+ value) ([(TWord, name); (TOp, "=")] ++ l) rest.
Proof.
  intros Hn Hv. apply (dk_reads_app name [_]); [apply reads_word; [done|reflexivity]|].
  change (" = " +:+ value) with (" " +:+ str1 "=" +:+ " " +:+ value).
  apply (dk_reads_app " " []); [apply reads_space|].
  apply (dk_reads_app (str1 "=") [_]); [apply reads_symbol; set_solver|].
  apply (dk_reads_app " " []); [apply reads_space|done].
Qed.

Lemma reads_next x l rest : reads x l rest → reads (", " +:+ x) ([(TPunct, ",")] ++ l) rest.
Proof.
  intros Hx. change (", " +:+ x) with (str1 "," +:+ " " +:+ x).
  apply (dk_reads_app (str1 ",") [_]); [apply reads_symbol; set_solver|].
  apply (dk_reads_app " " []); [apply reads_space|done].
Qed.

Definition setting_lexemes (name : string) (value : Tok * string) : list (Tok * string) :=
  [(TPunct, ","); (TWord, name); (TOp, "="); value].

(** the lexemes of [read_csv(...)] with the settings of a csv file *)
Definition source_lexemes (path : string) (format : CsvFormat) : list (Tok * string) :=
  [(TWord, "read_csv"); (TPunct, "("); (TString, path)] ++
  setting_lexemes "delim" (TString, cf_delimiter format) ++
  setting_lexemes "quote" (TString, str1 (cf_quote format)) ++
  setting_lexemes "header" (TWord, if cf_header format then "true" else "false") ++
  setting_lexemes "encoding" (TString, cf_encoding format) ++
  setting_lexemes "null_padding" (TWord, "true") ++
  setting_lexemes "parallel" (TWord, "false") ++ [(TPunct, ")")].

(** a setting of [source_lexemes] and what follows it *)
Lemma reads_set name value v x l rest :
  plain_word name = true → reads value [v] (x +:+ rest) → reads x l rest →
  reads (", " +:+ name +:+ " = " +:+ value +:+ x) (setting_lexemes name v ++ l) rest.
Proof.
  intros Hn Hv Hx. change (setting_lexemes name v ++ l) with ([(TPunct, ",")] ++ [(TWord, name); (TOp, "=")] ++ [v] ++ l).
  apply reads_next. apply reads_setting; [done|]. by apply dk_reads_app.
Qed.

Definition set (name value : string) (x : string) : string := ", " +:+ name +:+ " = " +:+ value +:+ x.

Lemma csv_source_settings path format :
  csv_source path format =
  "read_csv" +:+ str1 "(" +:+ literal path +:+
  set "delim" (literal (cf_delimiter format)) (set "quote" (literal (str1 (cf_quote format)))
    (set "header" (if cf_header format then "true" else "false")
      (set "encoding" (literal (cf_encoding format))
        (set "null_padding" "true" (set "parallel" "false" ")"))))).
Proof. reflexivity. Qed.

Lemma reads_source path format rest :
  reads (csv_source path format) (source_lexemes path format) rest.
Proof.
  rewrite csv_source_settings. unfold source_lexemes, set.
  apply (dk_reads_app "read_csv" [_]); [by apply reads_word|].
  apply (dk_reads_app (str1 "(") [_]); [apply reads_symbol; set_solver|].
  apply (dk_reads_app (literal path) [_]); [by apply reads_literal|].
  apply reads_set; [done|by apply reads_literal|].
  apply reads_set; [done|by apply reads_literal|].
  apply reads_set; [done|by destruct (cf_header format); apply reads_word|].
  apply reads_set; [done|by apply reads_literal|].
  apply reads_set; [done|by apply reads_word|].
  apply reads_set; [done|by apply reads_word|].
  apply (reads_symbol ")" TPunct). set_solver.
Qed.

(** The statements that DuckDB is sent about a csv file keep the file's path in its place:
    read by DuckDB's tokenizer, the view's statement is its fixed words, the file's stem as one
    identifier and its path as one string; and the source of the rows is one call of [read_csv]
    whose arguments are the path and the settings, a string each, whatever bytes they hold. *)
Lemma duckdb_csv_lex path format :
  let lex := lexemes duckdb None in
  lex (csv_view_sql path) =
    words ["CREATE"; "VIEW"] ++ [(TQuotedIdent, stemOf path)] ++ words ["AS"; "SELECT"] ++ [(TOp, "*")] ++
    words ["FROM"; "read_csv"] ++ [(TPunct, "("); (TString, path); (TPunct, ")")] ∧
  lex (csv_source path format) = source_lexemes path format.
Proof.
  cbn zeta. split; [|apply reads_whole, reads_source].
  assert (E : csv_view_sql path =
    spaced ["CREATE"; "VIEW"] (quoteIdent (stemOf path) +:+ " " +:+ spaced ["AS"; "SELECT"]
      (str1 "*" +:+ " " +:+ spaced ["FROM"] ("read_csv" +:+ str1 "(" +:+ literal path +:+ str1 ")")))).
  { reflexivity. }
  rewrite E. apply reads_whole. apply reads_words; [done|].
  apply (dk_reads_app (quoteIdent _) [_]); [by apply reads_ident|].
  apply (dk_reads_app " " []); [apply reads_space|]. apply (reads_words ["AS"; "SELECT"]); [done|].
  apply (dk_reads_app (str1 "*") [_]); [apply reads_symbol; set_solver|].
  apply (dk_reads_app " " []); [apply reads_space|].
  apply (reads_words ["FROM"] _ ((TWord, "read_csv") :: _)); [done|].
  apply (dk_reads_app "read_csv" [_]); [by apply reads_word|].
  apply (dk_reads_app (str1 "(") [_]); [apply reads_symbol; set_solver|].
  apply (dk_reads_app (literal path) [_]); [by apply reads_literal|].
  apply (reads_symbol ")" TPunct). set_solver.
Qed.

(** ** Lists *)

(** the text of a list of names that hold no comma and do not begin or end in a blank *)
Definition plain_item (s : string) : bool :=
  negb (sempty s) && sall (λ c, negb (c =? ",")%char) s &&
  negb (head_is " " s) && negb (head_is " " (srev s)).

Definition list_text (l : list string) : string := "[" +:+ sjoin ", " l +:+ "]".

Example parse_list : parseList "[a, b]" = ["a"; "b"].
Proof. reflexivity. Qed.

(** blanks are trimmed off *)
Lemma lstrip_none s : head_is " " s = false → lstrip blank s = s.
Proof. destruct s as [|c s]; [done|]. unfold lstrip, blank. simpl. by intros ->. Qed.

Lemma trim_blank x : plain_item x = true → trim x = x ∧ trim (" " +:+ x) = x.
Proof.
  unfold plain_item. rewrite !andb_true_iff, !negb_true_iff. intros [[_ Hf] Hl].
  assert (Hr : rstrip blank x = x).
  { unfold rstrip. change (sdrop (span_len blank (srev x)) (srev x)) with (lstrip blank (srev x)).
    rewrite lstrip_none by done. apply srev_involutive. }
  unfold trim. split; [by rewrite lstrip_none|].
  change (lstrip blank (" " +:+ x)) with (lstrip blank x). by rewrite lstrip_none.
Qed.

Lemma find_char_shift c pre r k :
  find_char c (pre +:+ r) (strlen pre + k) = (λ i, strlen pre + i) <$> find_char c r k.
Proof.
  unfold find_char. rewrite sdrop_app_plus. generalize (sdrop k r). intros s. revert k.
  induction s as [|x s IH]; intros k; simpl; [done|]. destruct (x =? c)%char; [done|].
  rewrite <-IH. by rewrite Nat.add_succ_r.
Qed.

Definition no_comma (s : string) : bool := sall (λ c, negb (c =? ",")%char) s.

Lemma find_comma a r : no_comma a = true → find_char "," (a +:+ String "," r) 0 = Some (strlen a).
Proof.
  unfold find_char. simpl. rewrite <-(Nat.add_0_l (strlen a)). generalize 0.
  induction a as [|c a IH]; intros k; simpl; [by rewrite Nat.add_0_r|].
  intros [Hc Ha]%andb_true_iff. apply negb_true_iff in Hc. rewrite Hc, IH by done. f_equal. lia.
Qed.

Lemma find_no_comma a : no_comma a = true → find_char "," a 0 = None.
Proof.
  unfold find_char. simpl. generalize 0. induction a as [|c a IH]; intros k; simpl; [done|].
  intros [Hc Ha]%andb_true_iff. apply negb_true_iff in Hc. by rewrite Hc, IH.
Qed.

Lemma items_shift fuel pre r k : items fuel (pre +:+ r) (strlen pre + k) = items fuel r k.
Proof.
  revert k. induction fuel as [|fuel IH]; intros k; cbn [items]; [done|].
  rewrite find_char_shift, slen_app. unfold substr. rewrite sdrop_app_plus.
  assert (Hlt : (strlen pre + k <? strlen pre + strlen r) = (k <? strlen r)).
  { destruct (Nat.ltb_spec k (strlen r)); [apply Nat.ltb_lt|apply Nat.ltb_ge]; lia. }
  rewrite Hlt. destruct (k <? strlen r); [|done].
  destruct (find_char "," r k) as [i|]; simpl.
  - rewrite <-Nat.add_succ_r, IH. by replace (strlen pre + i - (strlen pre + k)) with (i - k) by lia.
  - rewrite <-Nat.add_succ_r, IH.
    by replace (strlen pre + strlen r - (strlen pre + k)) with (strlen r - k) by lia.
Qed.

(** the first item, and the rest of the text behind its comma *)
Lemma items_step fuel a x rest :
  no_comma a = true → trim a = x → sempty x = false → a ≠ "" →
  items (S fuel) (a +:+ String "," rest) 0 = x :: items fuel rest 0.
Proof.
  intros Ha Ht Hx Hne. cbn [items]. rewrite find_comma by done. rewrite slen_app. cbn [default id].
  rewrite (proj2 (Nat.ltb_lt _ _)) by (simpl; lia). unfold substr. rewrite sdrop_0, Nat.sub_0_r, stake_app, Ht, Hx.
  simpl. f_equal. rewrite <-(items_shift fuel (a +:+ ",") rest 0), sapp_assoc, slen_app, Nat.add_0_r.
  simpl. by rewrite Nat.add_1_r.
Qed.

Lemma items_last fuel a x :
  no_comma a = true → trim a = x → sempty x = false → a ≠ "" → items (S fuel) a 0 = [x].
Proof.
  intros Ha Ht Hx Hne. cbn [items]. rewrite find_no_comma by done. cbn [default id].
  rewrite (proj2 (Nat.ltb_lt _ _)) by (destruct a; [done|simpl; lia]).
  unfold substr. rewrite sdrop_0, Nat.sub_0_r, stake_all, Ht, Hx by lia.
  destruct fuel as [|fuel]; [done|]. cbn [items]. by rewrite (proj2 (Nat.ltb_ge _ _)) by lia.
Qed.

Lemma items_join fuel lead x l :
  lead = "" ∨ lead = " " → Forall (λ s, plain_item s = true) (x :: l) → length l < fuel →
  items fuel (lead +:+ sjoin ", " (x :: l)) 0 = x :: l.
Proof.
  revert fuel lead x. induction l as [|y l IH]; intros fuel lead x Hlead [Hx Hl]%Forall_cons Hf;
    (destruct fuel as [|fuel]; [simpl in Hf; lia|]); destruct (trim_blank x Hx) as [H1 H2];
    unfold plain_item in Hx; rewrite !andb_true_iff, !negb_true_iff in Hx; destruct Hx as [[[He Hc] _] _];
    assert (Hlx : no_comma (lead +:+ x) = true ∧ trim (lead +:+ x) = x ∧ lead +:+ x ≠ "")
      by (destruct Hlead as [-> | ->]; split_and!; try done; by destruct x);
    destruct Hlx as (Hcx & Htx & Hne).
  - by apply items_last.
  - change (sjoin ", " (x :: y :: l)) with (x +:+ String "," (" " +:+ sjoin ", " (y :: l))).
    rewrite <-sapp_assoc, items_step with (x := x) by done. f_equal. apply IH; [by right|done|].
    simpl in Hf. lia.
Qed.

(** A list of names that hold no comma and do not begin or end in a blank is read back as
    written; a name that does hold one is cut in two. *)
Lemma parseList_roundtrip l :
  Forall (λ s, plain_item s = true) l → parseList (list_text l) = l.
Proof.
  intros Hl. unfold parseList. set (body := sjoin ", " l).
  assert (Hin : inside "[" "]" (list_text l) = Some body).
  { unfold inside, list_text. fold body. rewrite !slen_app. cbn [String.length].
    rewrite (proj2 (Nat.leb_le _ _)) by lia. rewrite !srev_concat. simpl.
    f_equal. unfold substr. simpl. replace (strlen body + 1 - 1) with (strlen body) by lia. by rewrite sapp_nil_l, stake_app. }
  rewrite Hin. cbn [default id]. destruct l as [|x l]; [done|]. unfold body.
  apply (items_join _ "" x l); [by left|done|].
  assert (Hlen : ∀ x l, Forall (λ s, plain_item s = true) (x :: l) → length l < strlen (sjoin ", " (x :: l))).
  { clear. intros x l. revert x. induction l as [|y l IH]; intros x [Hx Hl]%Forall_cons.
    - simpl. destruct x; [done|simpl; lia].
    - change (sjoin ", " (x :: y :: l)) with (x +:+ ", " +:+ sjoin ", " (y :: l)).
      rewrite !slen_app. specialize (IH y Hl). simpl in *. lia. }
  by apply Hlen.
Qed.

(** a quoted name with a comma is cut in two, and keys keep the quotes of a name *)
Definition quoted (name : string) : string := str1 dquote +:+ name +:+ str1 dquote.

Example quoted_names :
  idx_columns (table_index ["i"; "0"; "0"; list_text [quoted "a,b"]]) = [str1 dquote +:+ "a"; "b" +:+ str1 dquote] ∧
  map fk_sourceColumn (table_foreign_keys "t" [list_text [quoted "a b"]; "u"; "[id]"]) = [quoted "a b"].
Proof. split; reflexivity. Qed.
