(* ===== verification/Factory.v ===== *)
(** * The connection factory

    [src/factory.cpp]: the class of connection that a database type gets. *)

From S2P Require Import Prelude ConnectionInfo.

Inductive ConnectionClass :=
  | SQLiteConnection | PostgresConnection | MySQLConnection | MongoDBConnection | RedisConnection
  | MSSQLConnection | OracleConnection | CassandraConnection | DuckDBConnection.

#[export] Instance ConnectionClass_eq_dec : EqDecision ConnectionClass.
Proof. solve_decision. Defined.

Section factory.
(** [DEARSQL_HAS_DUCKDB] *)
Context (has_duckdb : bool).

(** the class of the new connection; nothing is a null pointer *)
Definition makeConnection (info : ConnectionInfo) : option ConnectionClass :=
  match ci_type info with
  | SQLITE => Some SQLiteConnection
  | POSTGRESQL | REDSHIFT | COCKROACHDB => Some PostgresConnection
  | MYSQL | MARIADB | TIDB => Some MySQLConnection
  | MONGODB => Some MongoDBConnection
  | REDIS => Some RedisConnection
  | MSSQL => Some MSSQLConnection
  | ORACLE => Some OracleConnection
  | CASSANDRA => Some CassandraConnection
  | DUCKDB => if has_duckdb then Some DuckDBConnection else None
  | S3 => None
  end.

(** The factory follows the families of [ConnectionInfo]: two types share a class exactly when
    they are equal or of one family, and only S3, and DuckDB in a build without it, have none. *)
Lemma makeConnection_families info info' :
  (makeConnection info = Some PostgresConnection ↔ isPostgresFamily (ci_type info) = true) ∧
  (makeConnection info = Some MySQLConnection ↔ isMySQLFamily (ci_type info) = true) ∧
  (makeConnection info = None ↔ ci_type info = S3 ∨ ci_type info = DUCKDB ∧ has_duckdb = false) ∧
  (is_Some (makeConnection info) → makeConnection info = makeConnection info' →
   ci_type info = ci_type info' ∨
   isPostgresFamily (ci_type info) && isPostgresFamily (ci_type info') = true ∨
   isMySQLFamily (ci_type info) && isMySQLFamily (ci_type info') = true).
Proof.
  unfold makeConnection. split_and!.
  - destruct (ci_type info), has_duckdb; cbv; split; congruence.
  - destruct (ci_type info), has_duckdb; cbv; split; congruence.
  - destruct (ci_type info), has_duckdb; split; intros H; try discriminate; try tauto;
      destruct H as [|[]]; discriminate.
  - intros [x Hx]. destruct (ci_type info), (ci_type info'), has_duckdb; cbv in Hx |- *;
      try discriminate; auto.
Qed.
End factory.
