(* ===== verification/Cassandra.v ===== *)
(** * The Cassandra backend

    [src/cassandra_connection.cpp]: the session that a connection's handles share, its current
    keyspace, the text of values, and the catalog in [system_schema].

    The driver and the cluster behind it are the parameter [Driver].  Each call of the driver is
    an event; it answers from all events so far, the call included.  Clusters, sessions, TLS
    contexts, statements, futures and results are objects ([Objects]).  An operation that holds
    the mutex is one step. *)

From S2P Require Import Prelude Types Effects Objects ConnectionInfo Database Rows Calendar Doubles.

(** ** The driver *)

Inductive cs_value :=
  | CsNull
  | CsText (s : string)                     (* [VARCHAR], [ASCII], [TEXT] *)
  | CsInt (z : Z) | CsBigint (z : Z) | CsSmallInt (z : Z) | CsTinyInt (z : Z)
  | CsBoolean (b : bool)
  | CsFloat (x : double) | CsDouble (x : double)
  | CsUuid (text : string) | CsInet (text : string)
  | CsTimestamp (millis : Z)
  | CsOther.

(** the first page of a result *)
Record CsPage := mkCsPage { pg_columns : list string; pg_rows : list (list cs_value) }.

Inductive cs_kind := Future | Statement | Result | Session | Cluster | Ssl.

(** [k] is a cluster, [l] a TLS context, [s] a session, [t] a statement, [f] a future, [r] a result *)
Inductive cs_event :=
  | CsCluster (k : nat)                             (* [cass_cluster_new] *)
  | CsContact (k : nat) (host : string) (port : Z)  (* [.._set_contact_points], [.._set_port] *)
  | CsCredentials (k : nat) (user password : string)
  | CsTimeouts (k : nat) (connect request : Z)
  | CsSsl (l : nat)                                 (* [cass_ssl_new] *)
  | CsTrust (l : nat) (pem : string)                (* [cass_ssl_add_trusted_cert_n] *)
  | CsVerify (l : nat) (peer : bool)                (* [cass_ssl_set_verify_flags] *)
  | CsUseSsl (k l : nat)                            (* [cass_cluster_set_ssl] *)
  | CsSession (s : nat)                             (* [cass_session_new] *)
  | CsConnect (f s k : nat)                         (* [cass_session_connect] *)
  | CsDisconnect (f s : nat)                        (* [cass_session_close] *)
  | CsStatement (t : nat) (cql : string)            (* [cass_statement_new] *)
  | CsPaging (t : nat) (size : Z)                   (* [cass_statement_set_paging_size] *)
  | CsExecute (f s t : nat)                         (* [cass_session_execute] *)
  | CsWait (f : nat)                                (* waiting, and the error *)
  | CsResult (r f : nat)                            (* [cass_future_get_result] *)
  | CsFree (kind : cs_kind) (o : nat).

Notation CsLog := (list cs_event).

Record Driver := mkDriver {
  (** the error's message, if there is one *)
  dr_error : CsLog → option string;
  dr_result : CsLog → CsPage;
  dr_trusts : CsLog → bool;
  (** the bytes of a file that can be read *)
  dr_file : CsLog → string → option string
}.

(** ** Text *)

Definition quoteIdent (id : string) : string := str1 dquote +:+ double_char dquote id +:+ str1 dquote.
Definition escapeLiteral (s : string) : string := double_char squote s.

Definition cassValueToString (value : cs_value) : string :=
  match value with
  | CsNull => NULL_SENTINEL
  | CsText s => s
  | CsInt z | CsBigint z | CsSmallInt z | CsTinyInt z => pretty z
  | CsBoolean b => if b then BOOL_TRUE_SENTINEL else BOOL_FALSE_SENTINEL
  | CsFloat x | CsDouble x => double_to_string x
  | CsUuid text | CsInet text => c_str text
  | CsTimestamp millis => date_time_text (gmtime (Z.quot millis 1000))
  | CsOther => "<unsupported>"
  end.

Fixpoint index_of (name : string) (columns : list string) : option nat :=
  match columns with
  | [] => None
  | c :: columns => if (c =? name)%string then Some 0 else S <$> index_of name columns
  end.

(** [cass_row_get_column_by_name] *)
Definition column_by_name (columns : list string) (row : list cs_value) (name : string) : cs_value :=
  match index_of name columns with Some i => default CsNull (row !! i) | None => CsNull end.

(** the columns read are texts *)
Definition getStringCol (columns : list string) (row : list cs_value) (name : string) : string :=
  match column_by_name columns row name with CsText s => s | _ => "" end.

(** ** The state *)

(** [DriverState] *)
Record DriverState := mkDriverState { ds_cluster : nat; ds_session : option nat; ds_ssl : option nat }.

(** a [CassandraDatabase]; its [parent_] is the connection *)
Record CassandraDatabase := mkCassandraDatabase { cdb_id : nat; cdb_name : string }.

(** the mutable members of [CassandraConnImpl], and the handles made so far *)
Record CsConnection := mkCsConnection {
  cc_world : World cs_event;
  cc_state : option DriverState;
  cc_keyspace : string;
  cc_open : bool;
  cc_cache : gmap string CassandraDatabase;
  cc_handles : nat
}.

Definition new_connection : CsConnection := mkCsConnection new_world None "" false ∅ 0.

Notation CsW := (Eff (World cs_event)).
Notation CsM := (Eff CsConnection).

Definition on_driver {A} (m : CsW A) : CsM A := λ c,
  let '(r, w) := m (cc_world c) in
  (r, mkCsConnection w (cc_state c) (cc_keyspace c) (cc_open c) (cc_cache c) (cc_handles c)).
Definition get {A} (f : CsConnection → A) : CsM A := λ c, (Done (f c), c).
Definition set_state (s : option DriverState) : CsM unit := λ c,
  (Done tt, mkCsConnection (cc_world c) s (cc_keyspace c) (cc_open c) (cc_cache c) (cc_handles c)).
Definition set_keyspace (k : string) : CsM unit := λ c,
  (Done tt, mkCsConnection (cc_world c) (cc_state c) k (cc_open c) (cc_cache c) (cc_handles c)).
Definition set_open (b : bool) : CsM unit := λ c,
  (Done tt, mkCsConnection (cc_world c) (cc_state c) (cc_keyspace c) b (cc_cache c) (cc_handles c)).
Definition set_cache (f : gmap string CassandraDatabase → gmap string CassandraDatabase) : CsM unit := λ c,
  (Done tt, mkCsConnection (cc_world c) (cc_state c) (cc_keyspace c) (cc_open c) (f (cc_cache c)) (cc_handles c)).

(** [std::make_shared<CassandraDatabase>] *)
Definition make_handle (n : string) : CsM CassandraDatabase := λ c,
  (Done (mkCassandraDatabase (cc_handles c) n),
   mkCsConnection (cc_world c) (cc_state c) (cc_keyspace c) (cc_open c) (cc_cache c) (S (cc_handles c))).

Section driver.
Context (lib : Driver).

(** a call that tells nothing *)
Definition tell (e : cs_event) : CsW unit := call e (λ _, tt).
Definition free (kind : cs_kind) (o : nat) : CsW unit := tell (CsFree kind o).

(** waiting for a future; the error's message *)
Definition wait (f : nat) : CsW (option string) := call (CsWait f) (dr_error lib).

(** ** Opening and closing *)

(** the destructor of [DriverState] *)
Definition drop_driver (st : DriverState) : CsW unit :=
  match ds_session st with
  | Some s =>
      f ← fresh;
      tell (CsDisconnect f s) ;;
      wait f ;;
      free Session s ;;
      free Future f
  | None => mret tt
  end ;;
  free Cluster (ds_cluster st) ;;
  match ds_ssl st with Some l => free Ssl l | None => mret tt end.

(** the context, and what went wrong; encryption alone where there is no authority to check *)
Definition applySslConfig (info : ConnectionInfo) (k : nat) : CsW (option nat * Status) :=
  match ci_sslmode info with
  | Disable => mret (None, (true, ""))
  | mode =>
      l ← fresh;
      tell (CsSsl l) ;;
      let use := tell (CsUseSsl k l) ;; mret (Some l, (true, "")) in
      if match mode with VerifyCA => negb (sempty (ci_sslCACertPath info)) | _ => false end then
        file ← observe (λ log, dr_file lib log (ci_sslCACertPath info));
        match file with
        | None => mret (Some l, (false, "Cannot read CA cert: " +:+ ci_sslCACertPath info))
        | Some pem =>
            trusted ← call (CsTrust l pem) (dr_trusts lib);
            if negb trusted then mret (Some l, (false, "Failed to add CA cert to SSL context"))
            else tell (CsVerify l true) ;; use
        end
      else tell (CsVerify l false) ;; use
  end.

(** a connected session, or the message why there is none *)
Definition connect (info : ConnectionInfo) : CsW (string + DriverState) :=
  k ← fresh;
  tell (CsCluster k) ;;
  tell (CsContact k (c_str (ci_host info)) (ci_port info)) ;;
  (if sempty (ci_username info) then mret tt
   else tell (CsCredentials k (c_str (ci_username info)) (c_str (ci_password info)))) ;;
  tell (CsTimeouts k 10000 30000) ;;
  ssl ← applySslConfig info k;
  if negb (fst (snd ssl)) then
    drop_driver (mkDriverState k None (fst ssl)) ;;
    mret (inl (snd (snd ssl)))
  else
    s ← fresh;
    tell (CsSession s) ;;
    f ← fresh;
    tell (CsConnect f s k) ;;
    error ← wait f;
    free Future f ;;
    let st := mkDriverState k (Some s) (fst ssl) in
    match error with
    | Some message => drop_driver st ;; mret (inl ("Cassandra connect failed: " +:+ message))
    | None => mret (inr st)
    end.

(** [state_.reset()] *)
Definition reset_state : CsM unit :=
  st ← get cc_state;
  set_state None ;;
  match st with Some st => on_driver (drop_driver st) | None => mret tt end.

Definition disconnected : CsM unit := reset_state ;; set_keyspace "" ;; set_open false.

Definition close : CsM unit := set_cache (λ _, ∅) ;; disconnected.

(** ** Statements *)

(** a statement run in a session: [f] gets the error's message, or the result and its page; the
    page size is set for a statement of the user's *)
Definition run {A} (s : nat) (cql : string) (paging : option Z) (f : string + nat * CsPage → CsW A)
    : CsW A :=
  t ← fresh;
  tell (CsStatement t (c_str cql)) ;;
  match paging with Some n => tell (CsPaging t n) | None => mret tt end ;;
  fut ← fresh;
  tell (CsExecute fut s t) ;;
  error ← wait fut;
  answer ← match error with
           | Some message => f (inl message)
           | None => r ← fresh; page ← call (CsResult r fut) (dr_result lib); f (inr (r, page))
           end;
  free Future fut ;;
  free Statement t ;;
  mret answer.

Definition session_of (st : option DriverState) : option nat := st ≫= ds_session.

Definition runCql (cql : string) : CsM (string + nat * CsPage) :=
  st ← get cc_state;
  match session_of st with
  | None => mret (inl "Not connected")
  | Some s => on_driver (run s cql None mret)
  end.

Definition row_text (columns : list string) (row : list cs_value) : list string :=
  imap (λ i _, cassValueToString (default CsNull (row !! i))) columns.

Definition page_report (rowLimit : Z) (page : CsPage) : StatementResult :=
  match pg_columns page with
  | [] => mkStatementResult true "" [] [] 0 "Query executed successfully"
  | columns =>
      let data := map (row_text columns) (limited rowLimit (pg_rows page)) in
      mkStatementResult true "" columns data 0 (returned (length data))
  end.

Definition use_cql (keyspace : string) : string := "USE " +:+ quoteIdent keyspace.

(** [USE]: the error's message, if there is one *)
Definition use_keyspace (s : nat) (keyspace : string) : CsW (option string) :=
  t ← fresh;
  tell (CsStatement t (c_str (use_cql keyspace))) ;;
  fut ← fresh;
  tell (CsExecute fut s t) ;;
  error ← wait fut;
  free Future fut ;;
  free Statement t ;;
  mret error.

(** where another keyspace was used last *)
Definition switch (s : nat) (keyspace : string) : CsM unit :=
  active ← get cc_keyspace;
  if sempty keyspace || (keyspace =? active)%string then mret tt
  else
    error ← on_driver (use_keyspace s keyspace);
    match error with None => set_keyspace keyspace | Some _ => mret tt end.

Definition execute (cql : string) (rowLimit : Z) (keyspace : string) : CsM QueryResult :=
  st ← get cc_state;
  match session_of st with
  | None => mret (one_failure "Not connected")
  | Some s =>
      switch s keyspace ;;
      on_driver (run s cql (Some (if (0 <? rowLimit)%Z then rowLimit else 1000)%Z)
        (λ answer, match answer with
                   | inl message => mret (one_failure message)
                   | inr (r, page) =>
                       free Result r ;; mret (mkQueryResult [page_report rowLimit page] [])
                   end))
  end.

(** ** The connection *)

(** the constructor *)
Definition default_port (info : ConnectionInfo) : ConnectionInfo :=
  let port := ci_port info in
  if ((port =? 0) || (port =? 5432))%Z then
    mkConnectionInfo (ci_type info) (ci_name info) (ci_path info) (ci_host info) 9042
      (ci_database info) (ci_username info) (ci_password info) (ci_showAllDatabases info)
      (ci_sslmode info) (ci_sslCACertPath info) (ci_readOnly info)
  else info.

Context (given : ConnectionInfo).
Notation info := (default_port given).

Definition open : CsM Status :=
  disconnected ;;
  connected ← on_driver (connect info);
  match connected with
  | inl message => mret (false, message)
  | inr st => set_state (Some st) ;; set_open true ;; mret (true, "")
  end.

Definition isOpen : CsM bool := get cc_open.

Definition keyspaces_cql : string := "SELECT keyspace_name FROM system_schema.keyspaces".

Definition listKeyspaces : CsM (list string) :=
  r ← execute keyspaces_cql 10000 "";
  mret (if negb (qr_success r) then []
        else match qr_statements r with s :: _ => first_cells (sr_tableData s) | [] => [] end).

Definition database (name : string) : CsM CassandraDatabase :=
  let n := if sempty name then ci_database info else name in
  cached ← get (λ c, cc_cache c !! n);
  match cached with
  | Some db => mret db
  | None =>
      db ← make_handle n;
      set_cache (insert n db) ;;
      mret db
  end.

Definition databases : CsM (list CassandraDatabase) :=
  names ← listKeyspaces;
  mapM database names.

Definition create_cql (name : string) : string :=
  "CREATE KEYSPACE IF NOT EXISTS " +:+ quoteIdent name +:+
  " WITH replication = {'class':'SimpleStrategy','replication_factor':1}".
Definition drop_cql (name : string) : string := "DROP KEYSPACE IF EXISTS " +:+ quoteIdent name.

Definition when_open (m : CsM Status) : CsM Status :=
  opened ← isOpen;
  if negb opened then mret (false, "Not connected") else m.

Definition createDatabase (opts : CreateDatabaseOptions) : CsM Status :=
  when_open (r ← execute (create_cql (cd_name opts)) 0 ""; mret (toStatus r)).

Definition dropDatabase (name : string) : CsM Status :=
  when_open (set_cache (delete name) ;;
             r ← execute (drop_cql name) 0 "";
             mret (toStatus r)).
End driver.
