(* ===== verification/CassandraCatalog.v ===== *)
(** * The Cassandra backend: the catalog

    [CassandraDatabase] of [src/cassandra_connection.cpp]: the tables, views and columns of a
    keyspace, data access and DDL. *)

From S2P Require Import Prelude Types Effects Objects ConnectionInfo Database Rows Cassandra.

(** ** Columns *)

Record Pending := mkPending { pd_col : Column; pd_kind : string; pd_position : Z }.

Definition is_key (kind : string) : bool :=
  (kind =? "partition_key")%string || (kind =? "clustering")%string.

Definition pending_column (columns : list string) (row : list cs_value) : Pending :=
  let text := getStringCol columns row in
  let key := is_key (text "kind") in
  mkPending (mkColumn (text "column_name") (text "type") "" "" key key false false) (text "kind")
    (match column_by_name columns row "position" with CsInt z => z | _ => 0 end).

Definition rank (p : Pending) : Z :=
  if (pd_kind p =? "partition_key")%string then 0
  else if (pd_kind p =? "clustering")%string then 1 else 2.

(** the comparator of the sort *)
Definition pending_before (a b : Pending) : bool :=
  if negb (rank a =? rank b)%Z then (rank a <? rank b)%Z
  else if (rank a <? 2)%Z then (pd_position a <? pd_position b)%Z
  else String.ltb (col_name (pd_col a)) (col_name (pd_col b)).

Definition sorted_columns (page : CsPage) : list Column :=
  map pd_col (stable_sort pending_before (map (pending_column (pg_columns page)) (pg_rows page))).

Section driver.
Context (lib : Driver) (name : string).

(** the rows of a catalog query, nothing when it fails; the result lives as long as [f] runs *)
Definition with_rows {A} (cql : string) (none : A) (f : CsPage → CsM A) : CsM A :=
  answer ← runCql lib cql;
  match answer with
  | inl _ => mret none
  | inr (r, page) =>
      x ← f page;
      on_driver (free Result r) ;;
      mret x
  end.

Definition columns_cql (tableName : string) : string :=
  "SELECT column_name, type, kind, position FROM system_schema.columns " +:+
  "WHERE keyspace_name = '" +:+ escapeLiteral name +:+ "' AND table_name = '" +:+
  escapeLiteral tableName +:+ "'".

Definition loadColumns (tableName : string) : CsM (list Column) :=
  with_rows (columns_cql tableName) [] (λ page, mret (sorted_columns page)).

(** ** Tables and views *)

Definition tables_cql : string :=
  "SELECT table_name FROM system_schema.tables WHERE keyspace_name = '" +:+ escapeLiteral name +:+ "'".

Definition table_of (tableName definition : string) (columns : list Column) : Table :=
  mkTable tableName name "" definition (name +:+ "." +:+ tableName) columns [] [] [] (-1).

Definition describeTable (tableName : string) : CsM Table :=
  columns ← loadColumns tableName;
  mret (table_of tableName "" columns).

Definition tables : CsM (list Table) :=
  with_rows tables_cql []
    (λ page, mapM (λ row, describeTable (getStringCol (pg_columns page) row "table_name")) (pg_rows page)).

Definition views_cql : string :=
  "SELECT view_name, base_table_name FROM system_schema.views WHERE keyspace_name = '" +:+
  escapeLiteral name +:+ "'".

Definition views : CsM (list Table) :=
  with_rows views_cql []
    (λ page,
       mapM (λ row,
               let text := getStringCol (pg_columns page) row in
               columns ← loadColumns (text "view_name");
               mret (table_of (text "view_name")
                       ("Materialized view of " +:+ text "base_table_name") columns)) (pg_rows page)).

(** ** Data *)

(** the operations on a handle; user text runs in the handle's keyspace *)
Definition execute_here (sql : string) (rowLimit : Z) : CsM QueryResult :=
  execute lib sql rowLimit name.

Definition reference (tableName : string) : string := quoteIdent name +:+ "." +:+ quoteIdent tableName.

Definition filtered (whereClause : string) : string :=
  if sempty whereClause then "" else " WHERE " +:+ whereClause +:+ " ALLOW FILTERING".

(** CQL has no offset: it is ignored *)
Definition data_cql (tableName : string) (limit : Z) (whereClause orderByClause : string) : string :=
  "SELECT * FROM " +:+ reference tableName +:+ filtered whereClause +:+
  (if sempty orderByClause then "" else " ORDER BY " +:+ orderByClause) +:+
  " LIMIT " +:+ pretty (if (0 <? limit)%Z then limit else 1000)%Z.

Definition getTableData (table : Table) (limit offset : Z) (whereClause orderByClause : string)
    : CsM (list (list string)) :=
  r ← execute lib (data_cql (tbl_name table) limit whereClause orderByClause) limit "";
  mret (match qr_statements r with s :: _ => sr_tableData s | [] => [] end).

Definition getColumnNames (table : Table) : CsM (list string) :=
  match tbl_columns table with
  | [] => columns ← loadColumns (tbl_name table); mret (map col_name columns)
  | columns => mret (map col_name columns)
  end.

Definition count_cql (tableName whereClause : string) : string :=
  "SELECT COUNT(*) FROM " +:+ reference tableName +:+ filtered whereClause.

Definition getRowCount (table : Table) (whereClause : string) : CsM Z :=
  r ← execute lib (count_cql (tbl_name table) whereClause) 1 "";
  mret (if negb (qr_success r) then 0%Z
        else match qr_statements r with
             | s :: _ => match sr_tableData s with
                         | (count :: _) :: _ => default 0%Z (stoi count)
                         | _ => 0%Z
                         end
             | [] => 0%Z
             end).

(** ** Tables made and dropped *)

Definition column_clause (c : Column) : string :=
  quoteIdent (col_name c) +:+ " " +:+ (if sempty (col_type c) then "text" else col_type c).

Definition key_clause (columns : list Column) : string :=
  match filter (λ c, col_isPrimaryKey c = true) columns with
  | [] => ""
  | keys => ", PRIMARY KEY (" +:+ sjoin ", " (map (λ c, quoteIdent (col_name c)) keys) +:+ ")"
  end.

Definition create_table_cql (table : Table) : string :=
  "CREATE TABLE " +:+ reference (tbl_name table) +:+ " (" +:+
  sjoin ", " (map column_clause (tbl_columns table)) +:+ key_clause (tbl_columns table) +:+ ")".

Definition createTable (table : Table) : CsM Status :=
  r ← execute lib (create_table_cql table) 0 "";
  mret (toStatus r).

Definition drop_table_cql (tableName : string) : string := "DROP TABLE " +:+ reference tableName.

Definition dropTable (tableName : string) : CsM Status :=
  r ← execute lib (drop_table_cql tableName) 0 "";
  mret (toStatus r).
End driver.

(** a filter comes before the order and the limit, where CQL wants it last *)
Example filter_before_limit :
  data_cql "ks" "t" 10 "a = 1" "" =
  "SELECT * FROM " +:+ reference "ks" "t" +:+ " WHERE a = 1 ALLOW FILTERING LIMIT 10".
Proof. reflexivity. Qed.
