(* ===== verification/CassandraProps.v ===== *)
(** * The Cassandra backend: properties of the driver's objects

    Every statement, future and result is freed; a cluster, a session and a TLS context live as
    long as the connection is open; none is used after its end. *)

From S2P Require Import Prelude Types Effects Objects ConnectionInfo Database Rows Cassandra.
From S2P Require Import CassandraCatalog.

(** ** What a program does *)

Inductive cs_use :=
  | UseExecute (sql : string) (rowLimit : Z)
  | UseTables | UseViews
  | UseDescribe (tableName : string)
  | UseData (table : Table) (limit offset : Z) (whereClause orderByClause : string)
  | UseColumnNames (table : Table)
  | UseRowCount (table : Table) (whereClause : string)
  | UseCreateTable (table : Table)
  | UseDropTable (tableName : string).

(** a handle keeps working through its name: it may be used at any time *)
Inductive cs_op :=
  | OpOpen | OpClose
  | OpDatabase (name : string) | OpDatabases
  | OpCreate (opts : CreateDatabaseOptions) | OpDrop (name : string)
  | OpUse (name : string) (u : cs_use).

Definition ignore {S A} (m : Eff S A) : Eff S unit := m ;; mret tt.

Definition perform_use (lib : Driver) (name : string) (u : cs_use) : CsM unit :=
  match u with
  | UseExecute sql rowLimit => ignore (execute_here lib name sql rowLimit)
  | UseTables => ignore (tables lib name)
  | UseViews => ignore (views lib name)
  | UseDescribe tableName => ignore (describeTable lib name tableName)
  | UseData table limit offset w o => ignore (getTableData lib name table limit offset w o)
  | UseColumnNames table => ignore (getColumnNames lib name table)
  | UseRowCount table w => ignore (getRowCount lib name table w)
  | UseCreateTable table => ignore (createTable lib name table)
  | UseDropTable tableName => ignore (dropTable lib name tableName)
  end.

Definition perform (lib : Driver) (info : ConnectionInfo) (op : cs_op) : CsM unit :=
  match op with
  | OpOpen => ignore (open lib info)
  | OpClose => close lib
  | OpDatabase name => ignore (database info name)
  | OpDatabases => ignore (databases lib info)
  | OpCreate opts => ignore (createDatabase lib opts)
  | OpDrop name => ignore (dropDatabase lib name)
  | OpUse name u => perform_use lib name u
  end.

(** ** Objects *)

(** what a call does to objects *)
Definition cs_actions (log : CsLog) (e : cs_event) : list action :=
  match e with
  | CsCluster o | CsSsl o | CsSession o | CsStatement o _ => [Make o None]
  | CsContact o _ _ | CsCredentials o _ _ | CsTimeouts o _ _ | CsTrust o _ | CsVerify o _
  | CsPaging o _ | CsWait o => [Use o]
  | CsUseSsl k l => [Use k; Use l]
  | CsConnect f s k => [Use s; Use k; Make f None]
  | CsDisconnect f s => [Use s; Make f None]
  | CsExecute f s t => [Use s; Use t; Make f None]
  | CsResult r f => [Use f; Make r None]
  | CsFree _ o => [Free o]
  end.

Section objects.
Context (lib : Driver).

(** exactly these objects exist *)
Definition Holding (X : gset nat) : World cs_event → Prop := Live cs_actions (gset_to_gmap None X).

(** an object in a union of given ones *)
Ltac in_set :=
  simpl; first
    [ assumption | apply elem_of_singleton; reflexivity
    | apply elem_of_union_l; in_set | apply elem_of_union_r; in_set ].

(** acting on objects that exist *)
Ltac acting :=
  simpl; repeat first [rewrite exists_in_set | rewrite bool_decide_eq_true_2 by in_set; simpl];
  repeat match goal with |- context [bool_decide ?P] => destruct (bool_decide P) end; try done.

Lemma holding_use X o e {A} (answer : CsLog → A) E :
  (∀ log, cs_actions log e = [Use o]) → o ∈ X →
  triple (Holding X) (call e answer) (λ _, Holding X) E.
Proof. intros He Ho. apply live_call; [|done]. intros log. rewrite He. acting. Qed.

Lemma holding_make {A B} (e : nat → cs_event) (answer : CsLog → A) (k : nat → A → CsW B) X Q E :
  (∀ o log, acts (gset_to_gmap None X) (cs_actions log (e o)) = act (gset_to_gmap None X) (Make o None)) →
  (∀ o x, o ∉ X → triple (Holding ({[o]} ∪ X)) (k o x) Q E) →
  triple (Holding X) (o ← fresh; x ← call (e o) answer; k o x) Q E.
Proof.
  intros He Hk. apply live_make with (made := λ _, true) (parent := None); [done|done| |done].
  intros o x Ho _ _ _. rewrite <-gset_to_gmap_union_singleton. apply Hk.
  by apply lookup_gset_to_gmap_None in Ho.
Qed.

Lemma holding_free X kind o E :
  o ∈ X → triple (Holding X) (free kind o) (λ _, Holding (X ∖ {[o]})) E.
Proof.
  intros Ho. unfold Holding. rewrite gset_to_gmap_difference_singleton.
  apply live_free; [done| |apply no_children]. by rewrite lookup_gset_to_gmap, option_guard_True.
Qed.

(** a free whose leftovers are given *)
Lemma holding_freed X Y kind o E :
  o ∈ X → X ∖ {[o]} = Y → triple (Holding X) (free kind o) (λ _, Holding Y) E.
Proof. intros Ho <-. by apply holding_free. Qed.

Lemma holding_ret {A} (x : A) X E : triple (Holding X) (mret x) (λ _, Holding X) E.
Proof. by intros w Hw. Qed.

(** then *)
Tactic Notation "next" uconstr(R) "as" simple_intropattern(x) :=
  eapply (triple_bind _ _ (λ _, Holding R)); [|intros x].

(** the set, up to equality *)
Lemma holding_eq {A} X Y (m : CsW A) Q E : X = Y → triple (Holding Y) m Q E → triple (Holding X) m Q E.
Proof. by intros ->. Qed.

Section run.
Context {A : Type} (f : string + nat * CsPage → CsW A) (kept : A → gset nat) (E : World cs_event → Prop).

(** what is done with the answer: the result is freed, or kept *)
Definition handles : Prop :=
  (∀ Y message, triple (Holding Y) (f (inl message)) (λ x w, kept x = ∅ ∧ Holding Y w) E) ∧
  (∀ Y r page, r ∉ Y →
     triple (Holding ({[r]} ∪ Y)) (f (inr (r, page))) (λ x w, kept x ⊆ {[r]} ∧ Holding (kept x ∪ Y) w) E).

Lemma holding_answer X fut error :
  handles → fut ∈ X →
  triple (Holding X)
    (match error with
     | Some message => f (inl message)
     | None => r ← fresh; page ← call (CsResult r fut) (dr_result lib); f (inr (r, page))
     end) (λ x w, kept x ## X ∧ Holding (kept x ∪ X) w) E.
Proof.
  intros [Hm Hr] Hf. destruct error as [message|].
  - eapply triple_weaken; [apply (Hm X message)|done| |done]. intros x w [-> Hw].
    split; [set_solver|]. by rewrite union_empty_l_L.
  - apply (holding_make (λ r, CsResult r fut) (dr_result lib) (λ r page, f (inr (r, page)))).
    + intros r log. acting.
    + intros r page Hrx. eapply triple_weaken; [by apply (Hr X r page)|done| |done].
      intros x w [Hk Hw]. split; [set_solver|done].
Qed.

Lemma holding_run X s cql paging :
  handles → s ∈ X →
  triple (Holding X) (run lib s cql paging f) (λ x w, kept x ## X ∧ Holding (kept x ∪ X) w) E.
Proof.
  intros Hh Hs. unfold run, tell.
  apply (holding_make (λ t, CsStatement t (c_str cql)) (λ _, tt) (λ t _, _)); [intros; acting|].
  intros t [] Ht. next ({[t]} ∪ X) as [].
  { destruct paging; [|apply holding_ret]. apply (holding_use _ t); [done|in_set]. }
  apply (holding_make (λ fut, CsExecute fut s t) (λ _, tt) (λ fut _, _)); [intros; acting|].
  intros fut [] Hfut. next ({[fut]} ∪ ({[t]} ∪ X)) as error.
  { apply (holding_use _ fut); [done|in_set]. }
  eapply triple_bind; [apply holding_answer; [done|set_solver]|]. intros result w [Hk Hw].
  revert w Hw. match goal with |- ∀ w, Holding ?Y w → match ?m w with _ => _ end =>
    change (triple (Holding Y) m (λ x w, kept x ## X ∧ Holding (kept x ∪ X) w) E) end.
  next (kept result ∪ ({[t]} ∪ X)) as []; [apply holding_freed; set_solver|].
  next (kept result ∪ X) as []; [apply holding_freed; set_solver|].
  intros w Hw. split; [set_solver|done].
Qed.
End run.

(** ** The driver's state *)

Definition of_option (o : option nat) : gset nat := match o with Some x => {[x]} | None => ∅ end.
Definition held_by (st : DriverState) : gset nat :=
  {[ds_cluster st]} ∪ of_option (ds_session st) ∪ of_option (ds_ssl st).

Definition apart (st : DriverState) : Prop :=
  (∀ s, ds_session st = Some s → s ≠ ds_cluster st ∧ ds_ssl st ≠ Some s) ∧ ds_ssl st ≠ Some (ds_cluster st).

Lemma holding_drop st E :
  apart st → triple (Holding (held_by st)) (drop_driver lib st) (λ _, Holding ∅) E.
Proof.
  intros [Hs Hl]. destruct st as [k s l]. unfold drop_driver, held_by in *. simpl in *.
  next ({[k]} ∪ of_option l) as [].
  { destruct s as [s|]; [|by eapply holding_eq; [|apply holding_ret]; set_solver].
    destruct (Hs s eq_refl) as [Hsk Hsl]. unfold tell.
    apply (holding_make (λ f, CsDisconnect f s) (λ _, tt) (λ f _, _)); [intros; acting|].
    intros f [] Hf. next ({[f]} ∪ ({[k]} ∪ of_option (Some s) ∪ of_option l)) as error.
    { apply (holding_use _ f); [done|in_set]. }
    next ({[f]} ∪ ({[k]} ∪ of_option l)) as [].
    - apply holding_freed; [set_solver|]. destruct l as [l|]; simpl in *; [|set_solver].
      assert (s ≠ l) by congruence. set_solver.
    - apply holding_freed; [set_solver|]. set_solver. }
  next (of_option l) as [].
  { apply holding_freed; [set_solver|]. destruct l as [l|]; simpl; [|set_solver].
    assert (k ≠ l) by congruence. set_solver. }
  destruct l as [l|]; simpl; [|apply holding_ret]. apply holding_freed; set_solver.
Qed.

(** ** Connecting *)

(** the TLS context that was made, if any *)
Lemma holding_ssl info k E :
  triple (Holding {[k]}) (applySslConfig lib info k)
    (λ r w, (∀ l, fst r = Some l → l ≠ k) ∧ Holding ({[k]} ∪ of_option (fst r)) w) E.
Proof.
  unfold applySslConfig.
  assert (Hwith : triple (Holding {[k]})
    (l ← fresh;
     tell (CsSsl l) ;;
     let use := tell (CsUseSsl k l) ;; mret (Some l, (true, "")) in
     if match ci_sslmode info with VerifyCA => negb (sempty (ci_sslCACertPath info)) | _ => false end then
       file ← observe (λ log, dr_file lib log (ci_sslCACertPath info));
       match file with
       | None => mret (Some l, (false, "Cannot read CA cert: " +:+ ci_sslCACertPath info))
       | Some pem =>
           trusted ← call (CsTrust l pem) (dr_trusts lib);
           if negb trusted then mret (Some l, (false, "Failed to add CA cert to SSL context"))
           else tell (CsVerify l true) ;; use
       end
     else tell (CsVerify l false) ;; use)
    (λ r w, (∀ l, fst r = Some l → l ≠ k) ∧ Holding ({[k]} ∪ of_option (fst r)) w) E).
  2: { destruct (ci_sslmode info); try exact Hwith. intros w Hw. split; [done|]. simpl.
       by rewrite union_empty_r_L. }
  apply (holding_make CsSsl (λ _, tt) (λ l _, _)); [intros; acting|]. intros l [] Hl.
  assert (Hret : ∀ status : Status, triple (Holding ({[l]} ∪ {[k]})) (mret (Some l, status))
    (λ r w, (∀ l, fst r = Some l → l ≠ k) ∧ Holding ({[k]} ∪ of_option (fst r)) w) E).
  { intros status w Hw. simpl. split; [intros ? [= <-]; set_solver|]. by rewrite (union_comm_L {[k]}). }
  assert (Huse : triple (Holding ({[l]} ∪ {[k]})) (tell (CsUseSsl k l) ;; mret (Some l, (true, "")))
    (λ r w, (∀ l, fst r = Some l → l ≠ k) ∧ Holding ({[k]} ∪ of_option (fst r)) w) E).
  { next ({[l]} ∪ {[k]} : gset nat) as []; [|apply Hret]. apply live_call; [|done]. intros log. acting. }
  cbn zeta. destruct (match ci_sslmode info with VerifyCA => _ | _ => _ end).
  - next ({[l]} ∪ {[k]} : gset nat) as file; [by intros w Hw|]. destruct file as [pem|]; [|apply Hret].
    next ({[l]} ∪ {[k]} : gset nat) as trusted; [apply (holding_use _ l); [done|in_set]|].
    destruct trusted; cbn [negb]; [|apply Hret].
    next ({[l]} ∪ {[k]} : gset nat) as []; [apply (holding_use _ l); [done|in_set]|apply Huse].
  - next ({[l]} ∪ {[k]} : gset nat) as []; [apply (holding_use _ l); [done|in_set]|apply Huse].
Qed.

Lemma holding_connect info E :
  triple (Holding ∅) (connect lib info)
    (λ r w, match r with
            | inr st => apart st ∧ is_Some (ds_session st) ∧ Holding (held_by st) w
            | inl _ => Holding ∅ w
            end) E.
Proof.
  unfold connect, tell. apply (holding_make CsCluster (λ _, tt) (λ k _, _)); [done|]. intros k [] _.
  assert (Huse : ∀ e, (∀ log, cs_actions log e = [Use k]) →
    triple (Holding ({[k]} ∪ ∅)) (tell e) (λ _, Holding ({[k]} ∪ ∅)) E).
  { intros e He. apply (holding_use _ k); [done|in_set]. }
  next ({[k]} ∪ ∅ : gset nat) as []; [by apply Huse|].
  next ({[k]} ∪ ∅ : gset nat) as []; [destruct (sempty _); [apply holding_ret|by apply Huse]|].
  next ({[k]} ∪ ∅ : gset nat) as []; [by apply Huse|]. rewrite union_empty_r_L.
  eapply triple_bind; [apply holding_ssl|]. intros [l [ok message]] w [Hl Hw]. cbn [fst snd] in *. revert w Hw.
  match goal with |- ∀ w, Holding ?Y w → match ?m w with _ => _ end =>
    change (triple (Holding Y) m (λ r w, match r with
      | inr st => apart st ∧ is_Some (ds_session st) ∧ Holding (held_by st) w
      | inl _ => Holding ∅ w end) E) end.
  destruct ok; cbn [negb].
  - apply (holding_make CsSession (λ _, tt) (λ s _, _)); [intros; acting|]. intros s [] Hs.
    apply (holding_make (λ f, CsConnect f s k) (λ _, tt) (λ f _, _)); [intros; acting|]. intros f [] Hf.
    set (st := mkDriverState k (Some s) l).
    assert (Hheld : ({[s]} ∪ ({[k]} ∪ of_option l) : gset nat) = held_by st) by (unfold held_by; simpl; set_solver).
    assert (Hap : apart st).
    { assert (Hlk : l ≠ Some k) by (intros ->; by apply (Hl k)).
      split; simpl; [intros ? [= <-]; split; [set_solver|]|done].
      intros ->. apply Hs. simpl. apply elem_of_union_r. by apply elem_of_singleton. }
    rewrite Hheld in Hf |- *. next ({[f]} ∪ held_by st) as error; [apply (holding_use _ f); [done|in_set]|].
    next (held_by st) as []; [apply holding_freed; set_solver|]. destruct error as [message'|].
    + next (∅ : gset nat) as []; [by apply holding_drop|]. by intros w Hw.
    + intros w Hw. split; [done|]. split; [by eexists|done].
  - next (∅ : gset nat) as []; [|by intros w Hw].
    apply (holding_eq _ (held_by (mkDriverState k None l))); [unfold held_by; simpl; set_solver|].
    apply holding_drop. split; simpl; [done|]. intros ->. by apply (Hl k).
Qed.

(** ** The connection *)

Definition held_state (st : option DriverState) : gset nat :=
  match st with Some st => held_by st | None => ∅ end.

(** the objects are those of the connection's state, and [X]: results being read *)
Record Sound (X : gset nat) (c : CsConnection) : Prop := mkSound {
  so_state : ∀ st, cc_state c = Some st → apart st ∧ is_Some (ds_session st);
  so_apart : X ## held_state (cc_state c);
  so_world : Holding (X ∪ held_state (cc_state c)) (cc_world c)
}.

Lemma sound_same X c w k o cache n :
  Sound X c → w = cc_world c → Sound X (mkCsConnection w (cc_state c) k o cache n).
Proof. intros [H1 H2 H3] ->. by split. Qed.

(** changes of members other than the state *)
Lemma keeps_member X (m : CsM unit) :
  (∀ c, ∃ k o cache n, m c = (Done tt, mkCsConnection (cc_world c) (cc_state c) k o cache n)) →
  always (Sound X) m.
Proof. intros Hm c Hc. destruct (Hm c) as (k & o & cache & n & ->). by apply sound_same. Qed.

Lemma keeps_keyspace X k : always (Sound X) (set_keyspace k).
Proof. apply keeps_member. intros c. by repeat eexists. Qed.
Lemma keeps_set_open X b : always (Sound X) (set_open b).
Proof. apply keeps_member. intros c. by repeat eexists. Qed.
Lemma keeps_cache X f : always (Sound X) (set_cache f).
Proof. apply keeps_member. intros c. by repeat eexists. Qed.
Lemma keeps_get {A} X (f : CsConnection → A) : always (Sound X) (get f).
Proof. by intros c Hc. Qed.

(** an operation of the driver *)
Lemma sound_driver {A} X (m : CsW A) (kept : A → gset nat) c :
  triple (Holding (X ∪ held_state (cc_state c))) m
    (λ x w, kept x ## X ∪ held_state (cc_state c) ∧
            Holding (kept x ∪ (X ∪ held_state (cc_state c))) w) (λ _, False) →
  Sound X c →
  match on_driver m c with
  | (Done x, c') => kept x ## X ∧ Sound (kept x ∪ X) c' ∧ cc_state c' = cc_state c
  | (Throws _, _) => False
  | (Hangs, _) => True
  end.
Proof.
  intros Hm [H1 H2 H3]. unfold on_driver. specialize (Hm (cc_world c) H3).
  destruct (m (cc_world c)) as [[x|e|] w]; [|done..]. destruct Hm as [Hk Hw].
  split; [set_solver|]. split; [|done]. split; [done|simpl; set_solver|].
  simpl. by rewrite <-union_assoc_L.
Qed.

Lemma sound_none X c : cc_state c = None → (Sound X c ↔ Holding X (cc_world c)).
Proof.
  intros Hn. split.
  - intros [_ _ H]. rewrite Hn in H. simpl in H. by rewrite union_empty_r_L in H.
  - intros H. split; rewrite Hn; simpl; [done|set_solver|]. by rewrite union_empty_r_L.
Qed.

Lemma sound_reset E :
  triple (Sound ∅) (reset_state lib) (λ _ c, Sound ∅ c ∧ cc_state c = None) E.
Proof.
  intros c Hc. unfold reset_state, get, set_state, mbind, Eff_bind.
  destruct (cc_state c) as [st|] eqn:Es; [|split; [by apply sound_none, (sound_none _ c)|done]].
  destruct Hc as [H1 _ H3]. rewrite Es in H3. simpl in H3. rewrite union_empty_l_L in H3.
  destruct (H1 st Es) as [Hap _]. pose proof (holding_drop st (λ _, False) Hap _ H3) as H.
  unfold on_driver. simpl. destruct (drop_driver lib st (cc_world c)) as [[[]|e|] w]; [|done..].
  split; [by apply sound_none|done].
Qed.

Lemma keeps_disconnected : always (Sound ∅) (disconnected lib).
Proof.
  unfold disconnected. apply always_bind; [|intros _].
  - eapply triple_weaken; [apply (sound_reset (λ _, False))|done|by intros [] c []|done].
  - apply always_bind; [apply keeps_keyspace|intros _; apply keeps_set_open].
Qed.

Lemma disconnected_none c x c' : disconnected lib c = (Done x, c') → cc_state c' = None.
Proof.
  unfold disconnected, reset_state, get, set_state, set_keyspace, set_open, mbind, Eff_bind, on_driver.
  destruct (cc_state c) as [st|]; simpl; [|by intros [= _ <-]].
  destruct (drop_driver lib st (cc_world c)) as [[[]|e|] w]; [|done..]. by intros [= _ <-].
Qed.

Lemma cs_keeps_open info : always (Sound ∅) (open lib info).
Proof.
  intros c Hc. unfold open, mbind at 1, Eff_bind at 1. pose proof (keeps_disconnected c Hc) as H0.
  pose proof (disconnected_none c) as Hn0.
  destruct (disconnected lib c) as [[[]|e|] c0]; [|done..]. specialize (Hn0 tt c0 eq_refl).
  apply (sound_none ∅ c0 Hn0) in H0. unfold mbind, Eff_bind, on_driver.
  pose proof (holding_connect (default_port info) (λ _, False) _ H0) as Hcon.
  destruct (connect lib (default_port info) (cc_world c0)) as [[[message|st]|e|] w]; [| |done..].
  - by apply sound_none.
  - destruct Hcon as (Hap & Hs & Hw). split; simpl; [by intros st' [= <-]|set_solver|].
    by rewrite union_empty_l_L.
Qed.

(** ** Statements *)

Lemma state_session X c s :
  Sound X c → session_of (cc_state c) = Some s → s ∈ X ∪ held_state (cc_state c).
Proof.
  intros _ Hs. unfold session_of in Hs. destruct (cc_state c) as [st|]; [|done]. simpl in *.
  unfold held_by. rewrite Hs. simpl. set_solver.
Qed.

Definition result_of (answer : string + nat * CsPage) : gset nat :=
  match answer with inl _ => ∅ | inr (r, _) => {[r]} end.

Lemma sound_runCql X cql :
  triple (Sound X) (runCql lib cql) (λ answer c, result_of answer ## X ∧ Sound (result_of answer ∪ X) c)
    (λ _, False).
Proof.
  intros c Hc. unfold runCql, get, mbind at 1, Eff_bind at 1.
  destruct (session_of (cc_state c)) as [s|] eqn:Es; [|simpl; split; [set_solver|by rewrite union_empty_l_L]].
  assert (Hrun : triple (Holding (X ∪ held_state (cc_state c))) (run lib s cql None mret)
    (λ x w, result_of x ## X ∪ held_state (cc_state c) ∧
            Holding (result_of x ∪ (X ∪ held_state (cc_state c))) w) (λ _, False)).
  { apply holding_run; [|by eapply state_session]. split.
    - intros Y message w Hw. by split.
    - intros Y r page Hr w Hw. simpl. split; [done|exact Hw]. }
  pose proof (sound_driver X _ result_of c Hrun Hc) as H.
  destruct (on_driver _ c) as [[answer|e|] c']; [|done..]. tauto.
Qed.

Lemma sound_free r X E :
  r ∉ X → triple (Sound ({[r]} ∪ X)) (on_driver (free Result r)) (λ _, Sound X) E.
Proof.
  intros Hr c [H1 H2 H3]. unfold on_driver.
  assert (Hx : r ∈ {[r]} ∪ X ∪ held_state (cc_state c)) by set_solver.
  assert (Hrest : ({[r]} ∪ X ∪ held_state (cc_state c)) ∖ {[r]} = X ∪ held_state (cc_state c)) by set_solver.
  pose proof (holding_freed _ _ Result r (λ _, False) Hx Hrest _ H3) as H.
  destruct (free Result r (cc_world c)) as [[[]|e|] w]; [|done..]. split; [done|simpl; set_solver|done].
Qed.

Lemma keeps_with_rows {A} X cql (none : A) f :
  (∀ r page, r ∉ X → always (Sound ({[r]} ∪ X)) (f page)) → always (Sound X) (with_rows lib cql none f).
Proof.
  intros Hf. unfold with_rows. eapply triple_bind; [apply sound_runCql|].
  intros [message|[r page]]; simpl.
  - intros c [_ Hc]. by rewrite union_empty_l_L in Hc.
  - intros c [Hr Hc]. assert (Hrx : r ∉ X) by set_solver. specialize (Hf r page Hrx c Hc).
    unfold mbind, Eff_bind. destruct (f page c) as [[x|e|] c']; [|done..].
    pose proof (sound_free r X (λ _, False) Hrx c' Hf) as H. by destruct (on_driver _ c') as [[[]|e|] c2].
Qed.

Lemma cs_keeps_load X name tableName : always (Sound X) (loadColumns lib name tableName).
Proof. apply keeps_with_rows. intros r page _. apply always_ret. Qed.

Hint Resolve cs_keeps_load keeps_keyspace keeps_set_open keeps_cache keeps_get : keeps.

Lemma cs_keeps_describe X name tableName : always (Sound X) (describeTable lib name tableName).
Proof. apply always_bind; [apply cs_keeps_load|]. intros columns. apply always_ret. Qed.

Hint Resolve cs_keeps_describe : keeps.

Lemma cs_keeps_tables X name : always (Sound X) (tables lib name).
Proof. unfold tables. apply keeps_with_rows. intros r page _. apply always_mapM. intros row. apply cs_keeps_describe. Qed.

Lemma cs_keeps_views X name : always (Sound X) (views lib name).
Proof.
  unfold views. apply keeps_with_rows. intros r page _. apply always_mapM. intros row.
  apply always_bind; [apply cs_keeps_load|]. intros columns. apply always_ret.
Qed.

(** a statement that keeps no result *)
Lemma cs_keeps_run {A} X (m : nat → CsW A) :
  (∀ Y s, s ∈ Y → always (Holding Y) (m s)) →
  ∀ c s, session_of (cc_state c) = Some s → Sound X c →
  match on_driver (m s) c with
  | (Done _, c') => Sound X c' ∧ cc_state c' = cc_state c
  | (Throws _, _) => False
  | (Hangs, _) => True
  end.
Proof.
  intros Hm c s Hs Hc.
  assert (Hx : s ∈ X ∪ held_state (cc_state c)) by (by eapply state_session).
  pose proof (sound_driver X (m s) (λ _, ∅) c) as H.
  destruct (on_driver (m s) c) as [[x|e|] c'].
  - destruct H as (_ & H & Hst); [|done|by rewrite union_empty_l_L in H].
    eapply triple_weaken; [by apply Hm|done| |done]. intros y w Hw. simpl.
    split; [set_solver|]. by rewrite union_empty_l_L.
  - apply H; [|done]. eapply triple_weaken; [by apply Hm|done| |done]. intros y w Hw. simpl.
    split; [set_solver|]. by rewrite union_empty_l_L.
  - done.
Qed.

Lemma holding_use_keyspace Y s keyspace : s ∈ Y → always (Holding Y) (use_keyspace lib s keyspace).
Proof.
  intros Hs. unfold use_keyspace, tell, always.
  apply (holding_make (λ t, CsStatement t (c_str (use_cql keyspace))) (λ _, tt) (λ t _, _)); [intros; acting|].
  intros t [] Ht.
  apply (holding_make (λ fut, CsExecute fut s t) (λ _, tt) (λ fut _, _)); [intros; acting|].
  intros fut [] Hfut. next ({[fut]} ∪ ({[t]} ∪ Y)) as error.
  { apply (holding_use _ fut); [done|in_set]. }
  next ({[t]} ∪ Y) as []; [apply holding_freed; set_solver|].
  next Y as []; [apply holding_freed; set_solver|apply holding_ret].
Qed.

Lemma holding_user Y s cql paging rowLimit :
  s ∈ Y → always (Holding Y) (run lib s cql paging
    (λ answer, match answer with
               | inl message => mret (one_failure message)
               | inr (r, page) => free Result r ;; mret (mkQueryResult [page_report rowLimit page] [])
               end)).
Proof.
  intros Hs. eapply triple_weaken;
    [apply (holding_run _ (λ _, ∅) (λ _, False) Y); [|exact Hs]|done| |done].
  - split.
    + intros Z message w Hw. by split.
    + intros Z r page Hr. next Z as []; [apply holding_freed; set_solver|]. intros w Hw.
      split; [set_solver|]. by rewrite union_empty_l_L.
  - intros x w [_ Hw]. by rewrite union_empty_l_L in Hw.
Qed.

Lemma cs_keeps_execute X cql rowLimit keyspace : always (Sound X) (execute lib cql rowLimit keyspace).
Proof.
  intros c Hc. unfold execute, get, mbind at 1, Eff_bind at 1.
  destruct (session_of (cc_state c)) as [s|] eqn:Es; [|done].
  assert (Hsw : match switch lib s keyspace c with
                | (Done _, c') => Sound X c' ∧ cc_state c' = cc_state c
                | (Throws _, _) => False
                | (Hangs, _) => True
                end).
  { unfold switch, get, mbind at 1, Eff_bind at 1. destruct (_ || _); [done|].
    pose proof (cs_keeps_run X (λ s, use_keyspace lib s keyspace) (λ Y s, holding_use_keyspace Y s keyspace) c s Es Hc) as H.
    unfold mbind, Eff_bind. destruct (on_driver _ c) as [[[message|]|e|] c']; [done| |done..].
    destruct H as [H Hst]. split; [|done]. by apply sound_same. }
  unfold mbind at 1, Eff_bind at 1. destruct (switch lib s keyspace c) as [[[]|e|] c1]; [|done..].
  destruct Hsw as [H1 Hst]. rewrite <-Hst in Es.
  match goal with |- context [run lib s cql ?p _] =>
    pose proof (cs_keeps_run X _ (λ Y s, holding_user Y s cql p rowLimit) c1 s Es H1) as H end.
  destruct (on_driver _ c1) as [[r|e|] c2]; [by destruct H|done..].
Qed.

Hint Resolve cs_keeps_execute cs_keeps_tables cs_keeps_views : keeps.

(** ** Every operation *)

Lemma cs_keeps_database info name : always (Sound ∅) (database info name).
Proof.
  unfold database. apply always_bind; [apply keeps_get|]. intros [db|]; [apply always_ret|].
  apply always_bind; [|intros db; apply always_bind; [apply keeps_cache|intros _; apply always_ret]].
  intros c Hc. by apply sound_same.
Qed.

Lemma cs_keeps_ignore {A} P (m : CsM A) : always P m → always P (ignore m).
Proof. intros Hm. apply always_bind; [done|]. intros x. apply always_ret. Qed.

Lemma keeps_when_open X (m : CsM Status) : always (Sound X) m → always (Sound X) (when_open m).
Proof.
  intros Hm. unfold when_open, isOpen. apply always_bind; [apply keeps_get|].
  intros [|]; [exact Hm|apply always_ret].
Qed.

(** a statement, and what its result gives *)
Lemma keeps_executed {A} X cql rowLimit keyspace (f : QueryResult → A) :
  always (Sound X) (r ← execute lib cql rowLimit keyspace; mret (f r)).
Proof. apply always_bind; [apply cs_keeps_execute|]. intros r. apply always_ret. Qed.

Lemma keeps_perform_use X name u : always (Sound X) (perform_use lib name u).
Proof.
  destruct u; cbn [perform_use]; apply cs_keeps_ignore.
  - apply cs_keeps_execute.
  - apply cs_keeps_tables.
  - apply cs_keeps_views.
  - apply cs_keeps_describe.
  - apply keeps_executed.
  - unfold getColumnNames. destruct (tbl_columns table) as [|col cols]; [|apply always_ret].
    apply always_bind; [apply cs_keeps_load|]. intros columns. apply always_ret.
  - apply keeps_executed.
  - apply keeps_executed.
  - apply keeps_executed.
Qed.

Lemma cs_keeps_perform info op : always (Sound ∅) (perform lib info op).
Proof.
  destruct op as [| |name| |opts|name|name u]; cbn [perform]; try apply cs_keeps_ignore.
  - apply cs_keeps_open.
  - unfold close. apply always_bind; [apply keeps_cache|intros _; apply keeps_disconnected].
  - apply cs_keeps_database.
  - unfold databases, listKeyspaces. apply always_bind.
    + apply always_bind; [apply cs_keeps_execute|]. intros r. apply always_ret.
    + intros names. apply always_mapM. intros name. apply cs_keeps_database.
  - unfold createDatabase. apply keeps_when_open.
    apply keeps_executed.
  - unfold dropDatabase. apply keeps_when_open. apply always_bind; [apply keeps_cache|]. intros _.
    apply keeps_executed.
  - apply keeps_perform_use.
Qed.
End objects.

(** ** Every operation ends *)

Section ends.
Context (lib : Driver).

Lemma finishes_driver {A} (m : CsW A) : finishes m → finishes (on_driver m).
Proof. intros Hm c. unfold on_driver. specialize (Hm (cc_world c)). by destruct (m (cc_world c)). Qed.

Lemma finishes_wait f : finishes (wait lib f).
Proof. by intros w. Qed.
Lemma finishes_free kind o : finishes (free kind o).
Proof. by intros w. Qed.
Lemma finishes_tell e : finishes (tell e).
Proof. by intros w. Qed.
Lemma finishes_get {A} (f : CsConnection → A) : finishes (get f).
Proof. by intros w. Qed.
Lemma finishes_members st k o f :
  finishes (set_state st) ∧ finishes (set_keyspace k) ∧ finishes (set_open o) ∧ finishes (set_cache f).
Proof. by repeat split; intros w. Qed.
Lemma finishes_handle n : finishes (make_handle n).
Proof. by intros w. Qed.

#[local] Hint Resolve finishes_driver finishes_wait finishes_free finishes_tell finishes_get finishes_handle : finishes.
#[local] Hint Extern 1 (finishes (set_state _)) => (by intros w) : finishes.
#[local] Hint Extern 1 (finishes (set_keyspace _)) => (by intros w) : finishes.
#[local] Hint Extern 1 (finishes (set_open _)) => (by intros w) : finishes.
#[local] Hint Extern 1 (finishes (set_cache _)) => (by intros w) : finishes.

Lemma finishes_drop st : finishes (drop_driver lib st).
Proof. unfold drop_driver. finishing. Qed.
#[local] Hint Resolve finishes_drop : finishes.

Lemma finishes_disconnected : finishes (disconnected lib).
Proof. unfold disconnected, reset_state. finishing. Qed.
#[local] Hint Resolve finishes_disconnected : finishes.

Lemma finishes_ssl info k : finishes (applySslConfig lib info k).
Proof. unfold applySslConfig. cbn zeta. finishing. Qed.
#[local] Hint Resolve finishes_ssl : finishes.

Lemma finishes_connect info : finishes (connect lib info).
Proof. unfold connect. cbn zeta. finishing. Qed.

Lemma finishes_run {A} s cql paging (f : string + nat * CsPage → CsW A) :
  (∀ x, finishes (f x)) → finishes (run lib s cql paging f).
Proof. intros Hf. unfold run. finishing; apply Hf. Qed.

Lemma finishes_runCql cql : finishes (runCql lib cql).
Proof. unfold runCql. finishing. apply finishes_driver, finishes_run. finishing. Qed.
#[local] Hint Resolve finishes_runCql : finishes.

Lemma finishes_execute cql rowLimit keyspace : finishes (execute lib cql rowLimit keyspace).
Proof.
  unfold execute, switch, use_keyspace. finishing.
  - apply finishes_driver. finishing.
  - apply finishes_driver, finishes_run. finishing.
Qed.
#[local] Hint Resolve finishes_execute : finishes.

Lemma finishes_with_rows {A} cql (none : A) f : (∀ page, finishes (f page)) → finishes (with_rows lib cql none f).
Proof. intros Hf. unfold with_rows. finishing. Qed.

Lemma finishes_load name tableName : finishes (loadColumns lib name tableName).
Proof. apply finishes_with_rows. finishing. Qed.
#[local] Hint Resolve finishes_load : finishes.

Lemma finishes_catalog name : finishes (tables lib name) ∧ finishes (views lib name).
Proof.
  split; unfold tables, views; apply finishes_with_rows; intros page; unfold describeTable; finishing.
Qed.

Lemma finishes_ignore {A} (m : CsM A) : finishes m → finishes (ignore m).
Proof. intros Hm. apply finishes_bind; [done|]. intros x. apply finishes_ret. Qed.

Lemma finishes_perform_use name u : finishes (perform_use lib name u).
Proof.
  destruct u; cbn [perform_use]; apply finishes_ignore;
    [| |exact (proj2 (finishes_catalog _))|..];
    [|exact (proj1 (finishes_catalog _))|..];
    unfold execute_here, describeTable, getTableData, getColumnNames, getRowCount, createTable, dropTable;
    finishing.
Qed.

Lemma finishes_perform info op : finishes (perform lib info op).
Proof.
  destruct op; cbn [perform]; try apply finishes_ignore.
  - unfold open. finishing. apply finishes_driver, finishes_connect.
  - unfold close. finishing.
  - unfold database. finishing.
  - unfold databases, listKeyspaces, database. finishing.
  - unfold createDatabase, when_open, isOpen. finishing.
  - unfold dropDatabase, when_open, isOpen. finishing.
  - apply finishes_perform_use.
Qed.
End ends.

(** C19: The Cassandra driver's objects live as long as they are needed.  Any operations of a
    connection and of its handles end, failed openings and catalogs that cannot be read
    included; then no object of the driver was used or freed after its end, and what exists is
    exactly the cluster, the connected session and the TLS context of the open connection:
    every statement, future and result was freed, and nothing is left of a closed one. *)
Theorem cassandra_objects lib info ops :
  ∃ c, run_all (perform lib info) ops new_connection = Some c ∧
  ∃ objects, alive cs_actions (w_log (cc_world c)) = Some objects ∧
    (∀ o, is_Some (objects !! o) ↔ ∃ st, cc_state c = Some st ∧
       (o = ds_cluster st ∨ ds_session st = Some o ∨ ds_ssl st = Some o)) ∧
    ∀ st, cc_state c = Some st → is_Some (ds_session st).
Proof.
  destruct (run_all_finishes (perform lib info) ops new_connection) as [c Hrun]; [apply finishes_perform|].
  exists c. split; [exact Hrun|].
  assert (Hc : Sound ∅ c).
  { eapply run_all_keeps; [intros op; apply always_keeps, cs_keeps_perform| |exact Hrun].
    apply sound_none; [done|]. apply live_new. }
  destruct Hc as [H1 _ [HL _]]. eexists. split; [exact HL|]. split; [|intros st Hst; by apply H1].
  intros o. rewrite <-elem_of_dom, dom_gset_to_gmap, union_empty_l_L. unfold held_state.
  destruct (cc_state c) as [st|]; [|set_solver]. unfold held_by. rewrite !elem_of_union, elem_of_singleton.
  assert (Hopt : ∀ x, o ∈ of_option x ↔ x = Some o) by (intros [x|]; simpl; set_solver).
  rewrite !Hopt. naive_solver.
Qed.
