(* ===== verification/CassandraColumns.v ===== *)
(** * The Cassandra backend: the order of columns

    The columns of a table are shown with the primary key first; the comparator the code gives
    to [std::stable_sort] is a strict weak order. *)

From S2P Require Import Prelude Types Database Cassandra CassandraCatalog.

(** what the comparator compares: the rank, and then the position of a key column or the name of
    another *)
Definition position_key (p : Pending) : Z := if (rank p <? 2)%Z then pd_position p else 0%Z.
Definition name_key (p : Pending) : string := if (rank p <? 2)%Z then "" else col_name (pd_col p).
Definition pending_compare : Pending → Pending → comparison :=
  lex (λ a b, (rank a ?= rank b)%Z)
    (lex (λ a b, (position_key a ?= position_key b)%Z) (λ a b, String.compare (name_key a) (name_key b))).

#[export] Instance pending_comparator : Comparator pending_compare.
Proof.
  apply lex_comparator; [exact (on_key_comparator rank Z.compare _)|].
  apply lex_comparator; [exact (on_key_comparator position_key Z.compare _)|].
  exact (on_key_comparator name_key String.compare _).
Qed.

Lemma pending_before_compare a b : pending_before a b = is_lt (pending_compare a b).
Proof.
  unfold pending_before, pending_compare, lex, position_key, name_key, String.ltb.
  destruct (Z.compare_spec (rank a) (rank b)) as [E|E|E].
  - rewrite E, Z.eqb_refl. cbn [negb]. destruct (Z.ltb_spec (rank b) 2).
    + unfold Z.ltb. by destruct (pd_position a ?= pd_position b)%Z.
    + by destruct (String.compare (col_name (pd_col a)) (col_name (pd_col b))).
  - destruct (Z.eqb_spec (rank a) (rank b)); [lia|]. simpl. by apply Z.ltb_lt.
  - destruct (Z.eqb_spec (rank a) (rank b)); [lia|]. simpl. apply Z.ltb_ge. lia.
Qed.

#[export] Instance pending_before_order : StrictWeakOrder pending_before.
Proof.
  pose proof (comparator_order pending_compare _) as [H1 H2].
  split; intros *; rewrite !pending_before_compare; [apply H1|apply H2].
Qed.

(** the order that is meant: partition key, clustering columns, the others; the columns of a key
    by their position and the others by their name *)
Definition shown_in_order (a b : Pending) : Prop :=
  (rank a < rank b)%Z ∨
  (rank a = rank b ∧
   if is_key (pd_kind a) then (pd_position a <= pd_position b)%Z
   else String.ltb (col_name (pd_col b)) (col_name (pd_col a)) = false).

Lemma rank_key p : (rank p <? 2)%Z = is_key (pd_kind p).
Proof. unfold rank, is_key. by destruct (_ =? "partition_key")%string, (_ =? "clustering")%string. Qed.

Lemma not_after_in_order a b : not_after pending_before a b → shown_in_order a b.
Proof.
  unfold not_after, pending_before, shown_in_order. destruct (Z.eqb_spec (rank b) (rank a)) as [E|E]; simpl.
  - intros H. right. split; [done|]. rewrite <-rank_key, <-E. destruct (rank b <? 2)%Z; [|done].
    by apply Z.ltb_ge.
  - intros H%Z.ltb_ge. left. lia.
Qed.

(** C20: The columns shown for a Cassandra table.  They are those of the catalog's rows, each as
    often as there: the partition key first, then the clustering columns, both in the order of
    their positions, and then the others in the order of their names.  Exactly the columns of
    the partition key and the clustering columns are shown as the primary key, and as not null. *)
Theorem cassandra_columns page :
  ∃ pending, sorted_columns page = map pd_col pending ∧
    pending ≡ₚ map (pending_column (pg_columns page)) (pg_rows page) ∧
    StronglySorted shown_in_order pending ∧
    Forall (λ p, col_isPrimaryKey (pd_col p) = is_key (pd_kind p) ∧
                 col_isNotNull (pd_col p) = is_key (pd_kind p)) pending.
Proof.
  unfold sorted_columns. set (rows := map (pending_column _) _). exists (stable_sort pending_before rows).
  split; [done|]. split; [apply stable_sort_perm|]. split.
  - pose proof (stable_sort_sorted pending_before rows) as H.
    induction H as [|p ps _ IH Hp]; constructor; [done|].
    eapply Forall_impl; [exact Hp|]. intros q. apply not_after_in_order.
  - rewrite stable_sort_perm. unfold rows. rewrite Forall_map. apply Forall_true. by intros row.
Qed.

Example sample_columns :
  map (λ c, (col_name c, col_isPrimaryKey c))
    (sorted_columns (mkCsPage ["column_name"; "type"; "kind"; "position"]
       [[CsText "b"; CsText "int"; CsText "regular"; CsInt (-1)];
        [CsText "a"; CsText "int"; CsText "static"; CsInt (-1)];
        [CsText "at"; CsText "timeuuid"; CsText "clustering"; CsInt 0];
        [CsText "year"; CsText "int"; CsText "partition_key"; CsInt 1];
        [CsText "who"; CsText "text"; CsText "partition_key"; CsInt 0]])) =
  [("who", true); ("year", true); ("at", true); ("a", false); ("b", false)].
Proof. vm_compute. reflexivity. Qed.
