(* ===== verification/OracleInstaller.v ===== *)
(** * The installer of the Oracle client

    [src/oracle_installer.cpp]: where Oracle's Instant Client is looked for, its download and
    extraction, and on Linux the [libaio] that goes with it.

    The operating system with the network is the parameter [Os].  Each call of it is an event;
    it answers from all events so far, the call included.  Paths are POSIX paths. *)

From S2P Require Import Prelude Types Effects Objects ConnectionInfo Database.

(** the macros the source is compiled under *)
Inductive Platform := LinuxX64 | LinuxArm64 | LinuxOther | MacArm64 | MacX64 | Windows | OtherPlatform.

#[export] Instance Platform_eq_dec : EqDecision Platform.
Proof. solve_decision. Defined.

Definition is_linux (p : Platform) : bool :=
  match p with LinuxX64 | LinuxArm64 | LinuxOther => true | _ => false end.
Definition is_apple (p : Platform) : bool := match p with MacArm64 | MacX64 => true | _ => false end.

Record Progress := mkProgress {
  pr_phase : string;
  pr_bytesDownloaded : Z;
  pr_bytesTotal : Z;
  pr_message : string
}.

(** what a download does: it hands over bytes, or tells how far it is *)
Inductive http_step := HttpData (data : string) | HttpProgress (current total : Z).

Inductive os_event :=
  | OsGetenv (name : string)
  | OsExists (path : string)                  (* [fs::exists] *)
  | OsList (path : string)                    (* [fs::directory_iterator] *)
  | OsCreateDirectories (path : string)
  | OsRemove (path : string)                  (* [fs::remove] *)
  | OsRemoveAll (path : string)
  | OsCopy (from to : string)                 (* [fs::copy_file], overwriting or not *)
  | OsCanonical (path : string)
  | OsOpen (path : string)                    (* an [std::ofstream] *)
  | OsWrite (path data : string)
  | OsSystem (command : string)               (* [std::system] *)
  | OsGet (url : string)                      (* the start of a download *)
  | OsResponse                                (* and its end *)
  | OsNotify (p : Progress)                   (* the host's callback *)
  | OsCancelled                               (* the host's [shouldCancel] *)
  | OsDlopen (path : string)
  | OsSetenv (name value : string)
  | OsExec (arguments : list string)          (* [execv] of the program itself *)
  | OsContext (libDir : option string).       (* [dpiContext_createWithParams] *)

Notation OsLog := (list os_event).

(** an entry of a directory: its name, and whether it is a directory *)
Record OsEntry := mkOsEntry { en_name : string; en_directory : bool }.

Record Os := mkOs {
  os_getenv : OsLog → option string;
  (** the message of an exception, or the answer *)
  os_exists : OsLog → string + bool;
  os_list : OsLog → list OsEntry;
  (** the message of an [std::error_code], if it is set *)
  os_error : OsLog → option string;
  os_canonical : OsLog → option string;
  os_opened : OsLog → bool;
  os_written : OsLog → bool;
  os_system : OsLog → Z;
  os_steps : OsLog → list http_step;
  (** the status of the response, if there is one *)
  os_status : OsLog → option Z;
  os_cancelled : OsLog → bool;
  (** the bytes of [/proc/self/cmdline] *)
  os_cmdline : OsLog → option string;
  (** whether another program takes the place of this one *)
  os_execs : OsLog → bool;
  (** the message of a context that is not created *)
  os_context : OsLog → option string
}.

(** [a / b] of paths, for a relative [b] *)
Definition join (a b : string) : string :=
  if sempty a || head_is "/" (srev a) then a +:+ b else a +:+ "/" +:+ b.

Definition kDownloadHost : string := "https://download.oracle.com".

Definition kDownloadPath (p : Platform) : string :=
  match p with
  | LinuxX64 => "/otn_software/linux/instantclient/2326100/" +:+
                "instantclient-basiclite-linux.x64-23.26.1.0.0.zip"
  | LinuxArm64 => "/otn_software/linux/instantclient/2326100/" +:+
                  "instantclient-basiclite-linux.arm64-23.26.1.0.0.zip"
  | MacArm64 => "/otn_software/mac/instantclient/233023/instantclient-basiclite-macos.arm64-23.3.0.23.09-2.dmg"
  | MacX64 => "/otn_software/mac/instantclient/1916000/" +:+
              "instantclient-basiclite-macos.x64-19.16.0.0.0dbru.dmg"
  | Windows => "/otn_software/nt/instantclient/2326100/" +:+
               "instantclient-basiclite-windows.x64-23.26.1.0.0.zip"
  | LinuxOther | OtherPlatform => ""
  end.

Definition kArchiveName (p : Platform) : string :=
  match p with
  | LinuxX64 => "instantclient-basiclite-linux.x64-23.26.1.0.0.zip"
  | LinuxArm64 => "instantclient-basiclite-linux.arm64-23.26.1.0.0.zip"
  | MacArm64 => "instantclient-basiclite-macos.arm64-23.3.0.23.09-2.dmg"
  | MacX64 => "instantclient-basiclite-macos.x64-19.16.0.0.0dbru.dmg"
  | Windows => "instantclient-basiclite-windows.x64-23.26.1.0.0.zip"
  | LinuxOther | OtherPlatform => ""
  end.

Definition kExpectedDirName (p : Platform) : string :=
  match p with
  | LinuxX64 | LinuxArm64 | Windows => "instantclient_23_26"
  | MacArm64 => "instantclient_23_3"
  | MacX64 => "instantclient_19_16"
  | LinuxOther | OtherPlatform => ""
  end.

Definition downloadUrl (p : Platform) : string :=
  if sempty (kDownloadPath p) then "" else kDownloadHost +:+ kDownloadPath p.

(** ** The state: two static strings, each behind a mutex *)

Record Installer := mkInstaller {
  in_cachedDir : string;
  in_installRoot : string;
  in_world : World os_event
}.

Notation InM := (Eff Installer).

Definition on_os {A} (m : Eff (World os_event) A) : InM A := λ s,
  let '(r, w) := m (in_world s) in (r, mkInstaller (in_cachedDir s) (in_installRoot s) w).
Definition ask {A} (e : os_event) (answer : OsLog → A) : InM A := on_os (call e answer).
Definition tell (e : os_event) : InM unit := ask e (λ _, tt).
Definition get_cachedDir : InM string := λ s, (Done (in_cachedDir s), s).
Definition set_cachedDir (d : string) : InM unit := λ s,
  (Done tt, mkInstaller d (in_installRoot s) (in_world s)).
Definition get_installRoot : InM string := λ s, (Done (in_installRoot s), s).

(** [setInstallRoot] *)
Definition setInstallRoot (dir : string) : InM unit := λ s, (Done tt, mkInstaller "" dir (in_world s)).

Section os.
Context (os : Os) (platform : Platform).

Definition exists_path (path : string) : InM bool :=
  r ← ask (OsExists path) (os_exists os);
  match r with inl e => throws e | inr b => mret b end.

Definition getenv (name : string) : InM (option string) := ask (OsGetenv name) (os_getenv os).

(** ** Where the client is *)

Definition baseDir : InM string :=
  root ← get_installRoot;
  if negb (sempty root) then mret root
  else
    home ← getenv (if decide (platform = Windows) then "USERPROFILE" else "HOME");
    mret (match home with
          | Some h => if sempty h then join "." "oracle-client" else join (join h ".dearsql") "oracle-client"
          | None => join "." "oracle-client"
          end).

Definition cache_dir (dir : string) : InM string := set_cachedDir dir ;; mret dir.

Definition is_client_dir (e : OsEntry) : bool :=
  en_directory e && starts_with "instantclient_" (en_name e).

Definition installDir : InM string :=
  cached ← get_cachedDir;
  if negb (sempty cached) then mret cached
  else
    base ← baseDir;
    let expected := join base (kExpectedDirName platform) in
    there ← exists_path expected;
    if there : bool then cache_dir expected
    else
      found ← exists_path base;
      if found : bool then
        entries ← ask (OsList base) (os_list os);
        match filter (λ e, is_client_dir e = true) entries with
        | e :: _ => cache_dir (join base (en_name e))
        | [] => mret expected
        end
      else mret expected.

Definition library_name : option string :=
  match platform with
  | LinuxX64 | LinuxArm64 | LinuxOther => Some "libclntsh.so"
  | MacArm64 | MacX64 => Some "libclntsh.dylib"
  | Windows => Some "oci.dll"
  | OtherPlatform => None
  end.

Definition isInstalled : InM bool :=
  dir ← installDir;
  there ← exists_path dir;
  if negb there then mret false
  else match library_name with Some l => exists_path (join dir l) | None => mret false end.

(** ** [libaio] *)

(** [fs::remove] and the like: the message of the [std::error_code], if it is set *)
Definition try_os (e : os_event) : InM (option string) := ask e (os_error os).

Definition hasCorrectLibaioSoname (file : string) : InM bool :=
  r ← ask (OsSystem ("objdump -p '" +:+ file +:+
                     "' 2>/dev/null | grep -q 'SONAME.*libaio\.so\.1$'")) (os_system os);
  mret (r =? 0)%Z.

(** the bytes that arrive go to the file until a write fails or [stop] says so: how many were
    written, and whether a write failed *)
Fixpoint receive (stop : InM bool) (progress : Z → Z → InM unit) (path : string)
    (steps : list http_step) (written : Z) : InM (Z * bool) :=
  match steps with
  | [] => mret (written, false)
  | HttpProgress current total :: steps => progress current total ;; receive stop progress path steps written
  | HttpData data :: steps =>
      stopped ← stop;
      if stopped : bool then mret (written, false)
      else
        ok ← ask (OsWrite path data) (os_written os);
        if negb ok then mret (written, true)
        else receive stop progress path steps (written + Z.of_nat (strlen data))
  end.

(** [cli.Get]: what was written, and the status *)
Definition download (stop : InM bool) (progress : Z → Z → InM unit) (url path : string)
    : InM (Z * bool * option Z) :=
  steps ← ask (OsGet url) (os_steps os);
  written ← receive stop progress path steps 0;
  status ← ask OsResponse (os_status os);
  mret (written, status).

Definition answered (status : option Z) : bool :=
  match status with Some s => (s =? 200)%Z | None => false end.

Definition libaio_arch : option (string * string) :=
  match platform with
  | LinuxX64 => Some ("amd64", "lib/x86_64-linux-gnu")
  | LinuxArm64 => Some ("arm64", "lib/aarch64-linux-gnu")
  | _ => None
  end.

Definition extract_libaio (destDir debFile : string) : string :=
  let from (archive tar : string) := "ar p '" +:+ debFile +:+ "' data.tar." +:+ archive +:+
    " 2>/dev/null | tar " +:+ tar +:+ " - --wildcards '*/libaio.so*' 2>/dev/null" in
  "cd '" +:+ destDir +:+ "' && (" +:+ from "zst" "--zstd -xf" +:+ " || " +:+ from "xz" "-xJf" +:+
  " || " +:+ from "gz" "-xzf" +:+ ")".

Definition downloadLibaio (dir : string) : InM bool :=
  let target := join dir "libaio.so.1" in
  match libaio_arch with
  | None => mret false
  | Some (arch, libPath) =>
      let debName := "libaio1_0.3.112-13build1_" +:+ arch +:+ ".deb" in
      let debFile := join dir debName in
      opened ← ask (OsOpen debFile) (os_opened os);
      if negb opened then mret false
      else
        got ← download (mret false) (λ _ _, mret tt)
                ("https://archive.ubuntu.com/ubuntu/pool/main/liba/libaio/" +:+ debName) debFile;
        if negb (answered (snd got)) || snd (fst got) then try_os (OsRemove debFile) ;; mret false
        else
          ret ← ask (OsSystem (extract_libaio dir debFile)) (os_system os);
          try_os (OsRemove debFile) ;;
          if negb (ret =? 0)%Z then mret false
          else
            let searchDir := join (join dir "usr") libPath in
            there ← exists_path searchDir;
            (if there : bool then
               entries ← ask (OsList searchDir) (os_list os);
               match filter (λ e, starts_with "libaio.so.1" (en_name e) = true) entries with
               | e :: _ => try_os (OsCopy (join searchDir (en_name e)) target) ;; mret tt
               | [] => mret tt
               end
             else mret tt) ;;
            try_os (OsRemoveAll (join dir "usr")) ;;
            exists_path target
  end.

Definition libaio_candidates : list string :=
  ["/usr/lib/x86_64-linux-gnu/libaio.so.1"; "/usr/lib/aarch64-linux-gnu/libaio.so.1";
   "/usr/lib64/libaio.so.1"; "/usr/lib/libaio.so.1"; "/lib/x86_64-linux-gnu/libaio.so.1";
   "/lib64/libaio.so.1"].

(** the first candidate of the right name that can be copied *)
Fixpoint copy_libaio (candidates : list string) (target : string) : InM bool :=
  match candidates with
  | [] => mret false
  | c :: candidates =>
      there ← exists_path c;
      if negb there then copy_libaio candidates target
      else
        resolved ← ask (OsCanonical c) (os_canonical os);
        match resolved with
        | None => copy_libaio candidates target
        | Some file =>
            right ← hasCorrectLibaioSoname file;
            if negb right then copy_libaio candidates target
            else
              error ← try_os (OsCopy c target);
              match error with None => mret true | Some _ => copy_libaio candidates target end
        end
  end.

Definition ensureLibaioImpl (dir : string) : InM unit :=
  let target := join dir "libaio.so.1" in
  let fetch :=
    copied ← copy_libaio libaio_candidates target;
    if copied : bool then mret tt else downloadLibaio dir ;; mret tt in
  there ← exists_path target;
  if negb there then fetch
  else
    right ← hasCorrectLibaioSoname target;
    if right : bool then mret tt else try_os (OsRemove target) ;; fetch.

Definition ensureLibaio (dir : string) : InM unit :=
  if sempty dir then mret tt else ensureLibaioImpl dir.

(** ** The installation *)

(** whether the host gave the callbacks *)
Context (onProgress shouldCancel : bool).

Definition notify (phase : string) (done total : Z) (message : string) : InM unit :=
  if onProgress then tell (OsNotify (mkProgress phase done total message)) else mret tt.

Definition cancelled : InM bool :=
  if shouldCancel then ask OsCancelled (os_cancelled os) else mret false.

Definition to_int64 (z : Z) : Z := ((z + 2 ^ 63) `mod` 2 ^ 64 - 2 ^ 63)%Z.

(** the archive's contents go to their directory; the status of the commands *)
Definition extract (archive dest installPath : string) : InM Z :=
  let unzip := "unzip -o -q '" +:+ archive +:+ "' -d '" +:+ dest +:+ "'" in
  if is_apple platform && starts_with (srev ".dmg") (srev archive) then
    let mountPoint := dest +:+ "/oracle_dmg_mount" in
    try_os (OsCreateDirectories mountPoint) ;;
    mounted ← ask (OsSystem ("hdiutil attach '" +:+ archive +:+ "' -mountpoint '" +:+ mountPoint +:+
                             "' -nobrowse -quiet")) (os_system os);
    ret ← (if (mounted =? 0)%Z then
             try_os (OsCreateDirectories installPath) ;;
             copied ← ask (OsSystem ("cp -R '" +:+ mountPoint +:+ "/.' '" +:+ installPath +:+ "'"))
                        (os_system os);
             ask (OsSystem ("hdiutil detach '" +:+ mountPoint +:+ "' -quiet")) (os_system os) ;;
             mret copied
           else mret mounted);
    try_os (OsRemoveAll mountPoint) ;;
    mret ret
  else
    ask (OsSystem (if decide (platform = Windows)
                   then "powershell -Command " +:+ str1 dquote +:+ "Expand-Archive -Force -Path '" +:+
                        archive +:+ "' -DestinationPath '" +:+ dest +:+ "'" +:+ str1 dquote
                   else unzip)) (os_system os).

Definition report_error (err : string) : InM Status :=
  notify "error" 0 0 err ;; mret (false, err).

Definition response_text (status : option Z) : string :=
  match status with Some s => pretty s | None => "no response" end.

(** the download is over: the archive is unpacked, or removed with a report *)
Definition unpack (parentDir installPath archivePath : string) (written : Z) : InM Status :=
  notify "extracting" written written "" ;;
  ret ← extract archivePath parentDir installPath;
  try_os (OsRemove archivePath) ;;
  if negb (ret =? 0)%Z then report_error "Failed to extract Oracle Instant Client archive"
  else
    set_cachedDir "" ;;
    installed ← isInstalled;
    if negb installed then
      report_error "Extraction completed but Oracle Client libraries not found in expected location"
    else
      (if is_linux platform then
         notify "installing-libaio" 0 0 "" ;; ensureLibaioImpl installPath
       else mret tt) ;;
      notify "done" 0 0 ("Installed to " +:+ installPath) ;;
      mret (true, "").

Definition fetch_client (parentDir installPath : string) : InM Status :=
  let archivePath := join parentDir (kArchiveName platform) in
  notify "downloading" 0 0 (kDownloadHost +:+ kDownloadPath platform) ;;
  opened ← ask (OsOpen archivePath) (os_opened os);
  if negb opened then report_error ("Failed to create download file: " +:+ archivePath)
  else
    got ← download cancelled (λ current total, notify "downloading" (to_int64 current) (to_int64 total) "")
            (kDownloadHost +:+ kDownloadPath platform) archivePath;
    let '(written, writeFailed, status) := got : Z * bool * option Z in
    stopped ← cancelled;
    if stopped : bool then try_os (OsRemove archivePath) ;; mret (false, "cancelled")
    else if negb (answered status) then
      try_os (OsRemove archivePath) ;; report_error ("Download failed: " +:+ response_text status)
    else if writeFailed then
      try_os (OsRemove archivePath) ;; report_error "Download failed while writing to disk"
    else unpack parentDir installPath archivePath written.

Definition install : InM Status :=
  if sempty (kDownloadPath platform) then
    mret (false, "Oracle Instant Client auto-install is not supported on this platform")
  else
    installed ← isInstalled;
    if installed : bool then
      dir ← installDir;
      notify "done" 0 0 ("Already installed at " +:+ dir) ;;
      mret (true, "")
    else
      set_cachedDir "" ;;
      parentDir ← baseDir;
      error ← try_os (OsCreateDirectories parentDir);
      match error with
      | Some message =>
          report_error ("Failed to create directory " +:+ parentDir +:+ ": " +:+ message)
      | None => fetch_client parentDir (join parentDir (kExpectedDirName platform))
      end.
End os.
