(* ===== verification/OracleClient.v ===== *)
(** * Loading the Oracle client

    The ODPI-C context of [src/oracle_connection.cpp]: it is created once for the whole process,
    after an installation where the host allows it; a failure is remembered. *)

From S2P Require Import Prelude Types Effects Objects ConnectionInfo Database OracleInstaller.

(** [ClientOptions] *)
Record ClientOptions := mkClientOptions { op_autoInstall : bool; op_reexecForLibraryPath : bool }.

(** [ContextState]; [cl_ctx] is whether there is a context *)
Record Client := mkClient {
  cl_installer : Installer;
  cl_ctx : bool;
  cl_error : string;
  cl_failed : bool;
  cl_failedInstalled : bool;
  cl_autoInstallAttempted : bool;
  cl_options : ClientOptions;
  cl_libDir : string
}.

Definition default_options : ClientOptions := mkClientOptions true true.
Definition new_client : Client :=
  mkClient (mkInstaller "" "" new_world) false "" false false false default_options "".

Notation ClM := (Eff Client).

Definition on_installer {A} (m : InM A) : ClM A := λ c,
  let '(r, i) := m (cl_installer c) in
  (r, mkClient i (cl_ctx c) (cl_error c) (cl_failed c) (cl_failedInstalled c)
        (cl_autoInstallAttempted c) (cl_options c) (cl_libDir c)).
Definition get {A} (f : Client → A) : ClM A := λ c, (Done (f c), c).
Definition set_ctx (b : bool) : ClM unit := λ c,
  (Done tt, mkClient (cl_installer c) b (cl_error c) (cl_failed c) (cl_failedInstalled c)
              (cl_autoInstallAttempted c) (cl_options c) (cl_libDir c)).
Definition set_failure (error : string) (failed installed : bool) : ClM unit := λ c,
  (Done tt, mkClient (cl_installer c) (cl_ctx c) error failed installed
              (cl_autoInstallAttempted c) (cl_options c) (cl_libDir c)).
Definition set_attempted (b : bool) : ClM unit := λ c,
  (Done tt, mkClient (cl_installer c) (cl_ctx c) (cl_error c) (cl_failed c) (cl_failedInstalled c)
              b (cl_options c) (cl_libDir c)).
Definition set_libDir (d : string) : ClM unit := λ c,
  (Done tt, mkClient (cl_installer c) (cl_ctx c) (cl_error c) (cl_failed c) (cl_failedInstalled c)
              (cl_autoInstallAttempted c) (cl_options c) d).

(** [oracle::setClientOptions] *)
Definition setClientOptions (options : ClientOptions) : ClM unit := λ c,
  (Done tt, mkClient (cl_installer c) (cl_ctx c) (cl_error c) (cl_failed c) (cl_failedInstalled c)
              (cl_autoInstallAttempted c) options (cl_libDir c)).

(** ** The library path *)

(** [dir] among the entries of [sv] from [start] on; the fuel is a step per entry *)
Fixpoint path_entry (fuel : nat) (sv dir : string) (start : nat) : bool :=
  match fuel with
  | 0 => false
  | S fuel =>
      if start <=? strlen sv then
        let stop := default (strlen sv) (find_char ":" sv start) in
        if (substr sv start (stop - start) =? dir)%string then true
        else if stop =? strlen sv then false
        else path_entry fuel sv dir (S stop)
      else false
  end.

Definition ld_contains (env : option string) (dir : string) : bool :=
  match env with
  | None => false
  | Some sv => negb (sempty sv) && path_entry (S (strlen sv)) sv dir 0
  end.

(** the texts that end in a NUL; what follows the last one is dropped *)
Fixpoint nul_ended (bytes acc : string) : list string :=
  match bytes with
  | EmptyString => []
  | String c r => if (c =? "000")%char then acc :: nul_ended r "" else nul_ended r (acc +:+ str1 c)
  end.

Section client.
Context (os : Os) (platform : Platform).

Definition ldLibraryPathContains (dir : string) : InM bool :=
  env ← getenv os "LD_LIBRARY_PATH";
  mret (ld_contains env dir).

(** another program in the place of this one: nothing of this one follows *)
Definition exec (arguments : list string) : InM bool :=
  replaced ← ask (OsExec arguments) (os_execs os);
  if replaced : bool then hangs else mret false.

Definition reexecWithLdLibraryPath (dir : string) : InM bool :=
  again ← getenv os "DEARSQL_ORACLE_LD_BOOTSTRAPPED";
  match again with
  | Some _ => mret false
  | None =>
      tell (OsSetenv "DEARSQL_ORACLE_LD_BOOTSTRAPPED" "1") ;;
      cur ← getenv os "LD_LIBRARY_PATH";
      tell (OsSetenv "LD_LIBRARY_PATH"
              (match cur with
               | Some cur => if sempty cur then dir else dir +:+ ":" +:+ cur
               | None => dir
               end)) ;;
      cmdline ← on_os (observe (os_cmdline os));
      match cmdline with
      | None => mret false
      | Some bytes =>
          match nul_ended bytes "" with
          | [] => mret false
          | arguments => exec arguments
          end
      end
  end.

(** ** The context *)

Definition not_installed_text (message : string) : string :=
  match find_str "DPI-1047" message 0 with
  | Some _ => "Oracle Instant Client is not installed."
  | None => message
  end.

(** what is done on Linux before a client in [dir] is loaded *)
Definition prepare_linux (dir : string) (reexec : bool) : InM unit :=
  ensureLibaio os platform dir ;;
  tell (OsDlopen (dir +:+ "/libaio.so.1")) ;;
  if reexec then
    inside ← ldLibraryPathContains dir;
    if negb inside then reexecWithLdLibraryPath dir ;; mret tt else mret tt
  else mret tt.

Definition create_context (installed : bool) : ClM bool :=
  (if installed then
     dir ← on_installer (installDir os platform);
     set_libDir dir ;;
     options ← get cl_options;
     if is_linux platform then on_installer (prepare_linux dir (op_reexecForLibraryPath options))
     else mret tt
   else mret tt) ;;
  dir ← get cl_libDir;
  error ← on_installer (ask (OsContext (if installed then Some dir else None)) (os_context os));
  match error with
  | Some message =>
      set_ctx false ;;
      set_failure (not_installed_text message) true installed ;;
      mret false
  | None =>
      set_ctx true ;;
      installedThen ← get cl_failedInstalled;
      set_failure "" false installedThen ;;
      mret true
  end.

(** creating the context unless nothing changed since it failed *)
Definition try_context (installed : bool) : ClM bool :=
  failed ← get cl_failed;
  failedInstalled ← get cl_failedInstalled;
  if failed && Bool.eqb failedInstalled installed then mret false else create_context installed.

Definition install_failure (err : string) : string :=
  "Oracle Instant Client auto-install failed: " +:+ (if sempty err then "unknown error" else err).

(** whether there is a context *)
Definition getDpiContext (allowInstall : bool) : ClM bool :=
  ctx ← get cl_ctx;
  if ctx : bool then mret true
  else
    installed ← on_installer (isInstalled os platform);
    options ← get cl_options;
    attempted ← get cl_autoInstallAttempted;
    if negb installed && allowInstall && op_autoInstall options && negb attempted then
      set_attempted true ;;
      status ← on_installer (install os platform false false);
      if negb (fst (status : Status)) then
        set_failure (install_failure (snd status)) true false ;;
        mret false
      else
        installed ← on_installer (isInstalled os platform);
        try_context installed
    else try_context installed.

Definition lastInitError : ClM string :=
  error ← get cl_error;
  mret (if sempty error then "Failed to initialize ODPI-C context" else error).

Definition needsClientInstall : ClM bool :=
  ctx ← getDpiContext false;
  mret (negb ctx).

Definition resetContext : ClM unit := set_attempted false ;; set_failure "" false false.
End client.
