(* ===== verification/Oracle.v ===== *)
(** * The Oracle backend: sessions and statements

    [src/oracle_connection.cpp]: the text of values, statements and their results, connect
    strings and new sessions.

    ODPI-C with the server is the parameter [Odpi].  Each call of it is an event; it answers from
    all events so far, the call included.  Sessions and statements are objects ([Objects]).  The
    context that ODPI-C needs exists wherever a session does. *)

From S2P Require Import Prelude Types Effects Objects ConnectionInfo Database Rows Doubles FormatDouble.

(** ** ODPI-C *)

Inductive od_value :=
  | OdNull
  | OdBytes (s : string)
  | OdDouble (x : double)
  | OdFloat (x : spec_float)
  | OdInt64 (z : Z) | OdUint64 (z : Z)
  | OdBoolean (b : bool)
  | OdTimestamp (year month day hour minute second : Z)
  | OdIntervalDS (days hours minutes seconds : Z)
  | OdIntervalYM (years months : Z)
  | OdOther.

(** [c] is a session, [s] a statement *)
Inductive od_event :=
  | OdCreate (c : nat) (user password connectString : string)   (* [dpiConn_create] *)
  | OdReleaseConn (c : nat)                                     (* [dpiConn_release] *)
  | OdPing (c : nat)                                            (* [dpiConn_ping] *)
  | OdBreak (c : nat)                                           (* [dpiConn_breakExecution] *)
  | OdPrepare (s c : nat) (sql : string)                        (* [dpiConn_prepareStmt] *)
  | OdInfo (s : nat)                                            (* [dpiStmt_getInfo] *)
  | OdExecute (s : nat) (commit : bool)                         (* [dpiStmt_execute] *)
  | OdColumn (s i : nat)                                        (* [dpiStmt_getQueryInfo] *)
  | OdDefine (s i : nat)                                        (* [dpiStmt_defineValue] *)
  | OdFetch (s : nat)                                           (* [dpiStmt_fetch] *)
  | OdRowCount (s : nat)                                        (* [dpiStmt_getRowCount] *)
  | OdRelease (s : nat)                                         (* [dpiStmt_release] *)
  | OdError.                                                    (* [dpiContext_getError] *)

(** a row with the values that are read off it, no row, or an error *)
Inductive od_fetched := FetchRow (values : list od_value) | FetchNone | FetchFails.

Notation OdLog := (list od_event).
Notation OdM := (Eff (World od_event)).

Record Odpi := mkOdpi {
  od_create : OdLog → bool;
  od_ping : OdLog → bool;
  od_prepare : OdLog → bool;
  od_isQuery : OdLog → bool;
  (** the number of columns, unless it fails *)
  od_execute : OdLog → option nat;
  (** a column's name, and whether it is a CLOB *)
  od_column : OdLog → string * bool;
  od_fetch : OdLog → od_fetched;
  od_rowCount : OdLog → Z;
  od_error : OdLog → string;
  (** [fs::is_regular_file] *)
  od_isFile : OdLog → string → bool
}.

(** ** Text *)

Definition escapeLiteral (s : string) : string := double_char squote s.
Definition quoteIdent (id : string) : string := str1 dquote +:+ double_char dquote id +:+ str1 dquote.

(** [{:0wd}] *)
Definition zero_padded (w : nat) (z : Z) : string :=
  if (z <? 0)%Z then "-" +:+ pad_left (w - 1) (pretty (- z)%Z) else pad_left w (pretty z).

Definition clock (hour minute second : Z) : string :=
  zero_padded 2 hour +:+ ":" +:+ zero_padded 2 minute +:+ ":" +:+ zero_padded 2 second.

Definition dataToString (value : od_value) : string :=
  match value with
  | OdNull => NULL_SENTINEL
  | OdBytes s => s
  | OdDouble x => format_double x
  | OdFloat x => format_float x
  | OdInt64 z | OdUint64 z => pretty z
  | OdBoolean b => if b then BOOL_TRUE_SENTINEL else BOOL_FALSE_SENTINEL
  | OdTimestamp y mo d h mi s =>
      zero_padded 4 y +:+ "-" +:+ zero_padded 2 mo +:+ "-" +:+ zero_padded 2 d +:+ " " +:+ clock h mi s
  | OdIntervalDS d h mi s => pretty d +:+ " " +:+ clock h mi s
  | OdIntervalYM y mo => pretty y +:+ "-" +:+ pretty mo
  | OdOther => "<unsupported>"
  end.

Definition row_text (columns : list string) (row : list od_value) : list string :=
  imap (λ i _, dataToString (default OdNull (row !! i))) columns.

Definition rows_message (rowLimit : Z) (n : nat) : string :=
  returned n +:+
  (if (0 <? rowLimit)%Z && (rowLimit <=? Z.of_nat n)%Z then " (limited to " +:+ pretty rowLimit +:+ ")" else "").

Definition affected_message (n : Z) : string :=
  if (0 <? n)%Z then pretty n +:+ " row(s) affected" else "Query executed successfully".

(** [columns]' types: precision and scale, or a length *)
Definition columnType (dataType dataLen prec scale : string) : string :=
  if negb (isNullSentinel prec) then
    if negb (isNullSentinel scale) && negb (scale =? "0")%string
    then dataType +:+ "(" +:+ prec +:+ "," +:+ scale +:+ ")"
    else dataType +:+ "(" +:+ prec +:+ ")"
  else if inWords ["VARCHAR2"; "CHAR"; "NVARCHAR2"; "RAW"] dataType
  then dataType +:+ "(" +:+ dataLen +:+ ")"
  else dataType.

Definition firstColumn (rows : list (list string)) : list string :=
  filter (λ c, isNullSentinel c = false) (first_cells rows).

(** ** Statements *)

Section library.
Context (lib : Odpi) (fuel : nat).

Definition dpiErrText : OdM string := call OdError (od_error lib).
Definition release_statement (s : nat) : OdM unit := call (OdRelease s) (λ _, tt).
Definition release_session (c : nat) : OdM unit := call (OdReleaseConn c) (λ _, tt).

(** a CLOB is read as text *)
Definition column (s i : nat) : OdM string :=
  q ← call (OdColumn s i) (od_column lib);
  (if snd (q : string * bool) then call (OdDefine s i) (λ _, tt) else mret tt) ;;
  mret (fst q).

(** a fetch that fails ends the rows like one that finds none *)
Fixpoint fetch_loop (n : nat) (s : nat) (columns : list string) (rowLimit : Z)
    (rows : list (list string)) : OdM (list (list string)) :=
  match n with
  | 0 => hangs
  | S n =>
      if below_limit rowLimit (length rows) then
        r ← call (OdFetch s) (od_fetch lib);
        match r with
        | FetchRow row => fetch_loop n s columns rowLimit (rows ++ [row_text columns row])
        | FetchNone | FetchFails => mret rows
        end
      else mret rows
  end.

Definition report (s : nat) (columns : nat) (rowLimit : Z) : OdM StatementResult :=
  if columns =? 0 then
    n ← call (OdRowCount s) (od_rowCount lib);
    mret (mkStatementResult true "" [] [] (to_int n) (affected_message n))
  else
    names ← mapM (column s) (seq 1 columns);
    rows ← fetch_loop fuel s names rowLimit [];
    mret (mkStatementResult true "" names rows 0 (rows_message rowLimit (length rows))).

Definition runQuery (c : nat) (query : string) (rowLimit : Z) : OdM QueryResult :=
  s ← fresh;
  prepared ← call (OdPrepare s c query) (od_prepare lib);
  if negb prepared then
    err ← dpiErrText;
    mret (one_failure err)
  else
    finally
      (isQuery ← call (OdInfo s) (od_isQuery lib);
       columns ← call (OdExecute s (negb isQuery)) (od_execute lib);
       match columns with
       | None => err ← dpiErrText; mret (one_failure err)
       | Some columns => r ← report s columns rowLimit; mret (mkQueryResult [r] [])
       end) (release_statement s).

(** the rows of a catalog query *)
Definition queryRows (c : nat) (sql : string) : OdM (list (list string)) :=
  r ← runQuery c sql 0;
  if negb (qr_success r) then throws (qr_errorMessage r)
  else mret (match qr_statements r with s :: _ => sr_tableData s | [] => [] end).

(** ** Sessions *)

(** [path.parent_path()] *)
Definition parent_path (path : string) : string :=
  let name := span_len (λ c, negb (c =? "/")%char) (srev path) in
  let dir := stake (strlen path - name) path in
  let short := rstrip (λ c, (c =? "/")%char) dir in
  if sempty short then dir else short.

Definition walletLocation (path : string) : OdM string :=
  if sempty path then mret ""
  else
    file ← observe (λ log, od_isFile lib log path);
    mret (if (file : bool) && negb (sempty (parent_path path)) then parent_path path else path).

Definition address (info : ConnectionInfo) : string :=
  ci_host info +:+ ":" +:+ pretty (ci_port info) +:+ "/" +:+ ci_database info.

Definition buildConnectString (info : ConnectionInfo) : OdM string :=
  match ci_sslmode info with
  | Require_ => mret ("tcps://" +:+ address info +:+ "?ssl_server_dn_match=off")
  | VerifyCA | VerifyFull =>
      location ← walletLocation (ci_sslCACertPath info);
      if sempty location then
        throws "Oracle TLS verify mode requires a wallet path or wallet file location"
      else
        mret ("tcps://" +:+ address info +:+ "?wallet_location=" +:+ str1 dquote +:+ location +:+
              str1 dquote)
  | _ => mret (address info)
  end.

(** a new session *)
Definition createConn (info : ConnectionInfo) : OdM nat :=
  connStr ← buildConnectString info;
  c ← fresh;
  created ← call (OdCreate c (ci_username info) (ci_password info) connStr) (od_create lib);
  if negb created then
    err ← dpiErrText;
    throws ("Oracle connection failed: " +:+ err)
  else mret c.
End library.
