(* ===== verification/OracleCatalog.v ===== *)
(** * The Oracle backend: the catalog

    [OracleDatabase] of [src/oracle_connection.cpp]: the catalog queries of a schema and what
    their rows become.  [owner] and [filter] are escaped; the queries are the source's texts. *)

From S2P Require Import Prelude Types Effects ConnectionInfo Database Rows Oracle.

(** ** The queries *)

Definition columns_sql (owner filter : string) : string :=
  "SELECT TABLE_NAME, COLUMN_NAME, DATA_TYPE, NULLABLE, DATA_LENGTH, " +:+
  "DATA_PRECISION, DATA_SCALE, IDENTITY_COLUMN FROM ALL_TAB_COLUMNS " +:+
  "WHERE OWNER = '" +:+ owner +:+ "'" +:+ filter +:+ " ORDER BY TABLE_NAME, COLUMN_ID".

Definition primary_keys_sql (owner filter : string) : string :=
  "SELECT ac.TABLE_NAME, acc.COLUMN_NAME FROM ALL_CONS_COLUMNS acc " +:+
  "JOIN ALL_CONSTRAINTS ac ON acc.CONSTRAINT_NAME = ac.CONSTRAINT_NAME " +:+
  "AND acc.OWNER = ac.OWNER " +:+
  "WHERE ac.CONSTRAINT_TYPE = 'P' AND ac.OWNER = '" +:+ owner +:+ "'" +:+ filter.

Definition foreign_keys_sql (owner filter : string) : string :=
  "SELECT ac.TABLE_NAME, ac.CONSTRAINT_NAME, acc.COLUMN_NAME, " +:+
  "rc.TABLE_NAME, rcc.COLUMN_NAME " +:+
  "FROM ALL_CONSTRAINTS ac " +:+
  "JOIN ALL_CONS_COLUMNS acc ON ac.CONSTRAINT_NAME = acc.CONSTRAINT_NAME " +:+
  "AND ac.OWNER = acc.OWNER " +:+
  "JOIN ALL_CONSTRAINTS rc ON ac.R_CONSTRAINT_NAME = rc.CONSTRAINT_NAME " +:+
  "AND ac.R_OWNER = rc.OWNER " +:+
  "JOIN ALL_CONS_COLUMNS rcc ON rc.CONSTRAINT_NAME = rcc.CONSTRAINT_NAME " +:+
  "AND rc.OWNER = rcc.OWNER AND acc.POSITION = rcc.POSITION " +:+
  "WHERE ac.CONSTRAINT_TYPE = 'R' AND ac.OWNER = '" +:+ owner +:+ "'" +:+ filter +:+ " " +:+
  "ORDER BY ac.TABLE_NAME, ac.CONSTRAINT_NAME, acc.POSITION".

Definition indexes_sql (owner filter : string) : string :=
  "SELECT i.TABLE_NAME, i.INDEX_NAME, i.UNIQUENESS, ic.COLUMN_NAME " +:+
  "FROM ALL_INDEXES i " +:+
  "JOIN ALL_IND_COLUMNS ic ON i.INDEX_NAME = ic.INDEX_NAME " +:+
  "AND i.OWNER = ic.INDEX_OWNER " +:+
  "LEFT JOIN ALL_CONSTRAINTS c ON i.INDEX_NAME = c.INDEX_NAME " +:+
  "AND i.OWNER = c.OWNER " +:+
  "WHERE i.OWNER = '" +:+ owner +:+ "'" +:+ filter +:+ " " +:+
  "AND (c.CONSTRAINT_TYPE IS NULL OR c.CONSTRAINT_TYPE != 'P') " +:+
  "ORDER BY i.TABLE_NAME, i.INDEX_NAME, ic.COLUMN_POSITION".

Definition tables_sql (owner : string) : string :=
  "SELECT TABLE_NAME FROM ALL_TABLES WHERE OWNER = '" +:+ owner +:+ "' ORDER BY TABLE_NAME".
Definition views_sql (owner : string) : string :=
  "SELECT VIEW_NAME FROM ALL_VIEWS WHERE OWNER = '" +:+ owner +:+ "' ORDER BY VIEW_NAME".
Definition view_filter (owner : string) : string :=
  " AND TABLE_NAME IN (SELECT VIEW_NAME FROM ALL_VIEWS " +:+ "WHERE OWNER = '" +:+ owner +:+ "')".
Definition sequences_sql (owner : string) : string :=
  "SELECT SEQUENCE_NAME FROM ALL_SEQUENCES " +:+
  "WHERE SEQUENCE_OWNER = '" +:+ owner +:+ "' ORDER BY SEQUENCE_NAME".

Definition routines_sql (owner : string) : string :=
  "SELECT o.OBJECT_NAME, " +:+
  "o.OBJECT_NAME || '(' || NVL(" +:+
  "(SELECT LISTAGG(a.ARGUMENT_NAME || ' ' || a.DATA_TYPE, ', ') " +:+
  "WITHIN GROUP (ORDER BY a.POSITION) FROM ALL_ARGUMENTS a " +:+
  "WHERE a.OWNER = o.OWNER AND a.OBJECT_NAME = o.OBJECT_NAME AND a.POSITION > 0), '') " +:+
  "|| ')' AS signature, o.OBJECT_TYPE, " +:+
  "NVL((SELECT a.DATA_TYPE FROM ALL_ARGUMENTS a " +:+
  "WHERE a.OWNER = o.OWNER AND a.OBJECT_NAME = o.OBJECT_NAME AND a.POSITION = 0), '') " +:+
  "AS return_type " +:+
  "FROM ALL_OBJECTS o WHERE o.OWNER = '" +:+ owner +:+ "' " +:+
  "AND o.OBJECT_TYPE IN ('FUNCTION', 'PROCEDURE') " +:+
  "ORDER BY o.OBJECT_TYPE, o.OBJECT_NAME".

(** the rows of one table, in a query whose table is [column]; of all tables for no name *)
Definition table_filter (column tableName : string) : string :=
  if sempty tableName then "" else " AND " +:+ column +:+ " = '" +:+ escapeLiteral tableName +:+ "'".

(** ** Rows into tables *)

Definition table_column (row : list string) : Column :=
  mkColumn (cell row 1) (columnType (cell row 2) (cell row 4) (cell row 5) (cell row 6)) "" ""
    false (equals "N" (cell row 3)) false (equals "YES" (cell row 7)).

Definition table_foreign_key (row : list string) : ForeignKey :=
  mkForeignKey (cell row 1) (cell row 2) (cell row 3) (cell row 4) "" "".

(** the indexes of a table are kept in the order of their names *)
Definition add_index_row (row : list string) (i : Index) : Index :=
  mkIndex (cell row 1) (idx_columns i ++ [cell row 3]) (equals "UNIQUE" (cell row 2)) (idx_isPrimary i)
    (idx_type i).

Definition group_index (byTable : gmap string (list (string * Index))) (row : list string)
    : gmap string (list (string * Index)) :=
  if length row <? 4 then byTable
  else <[cell row 0 := map_at (cell row 1) (mkIndex "" [] false false "") (add_index_row row)
                         (default [] (byTable !! cell row 0))]> byTable.

Definition grouped_indexes (rows : list (list string)) : gmap string (list Index) :=
  map snd <$> foldl group_index ∅ rows.

Definition mark_primary (keys : list string) (c : Column) : Column :=
  mkColumn (col_name c) (col_type c) (col_defaultValue c) (col_comment c) (inWords keys (col_name c))
    (col_isNotNull c) (col_isUnique c) (col_isAutoIncrement c).

Definition keyed (pks : gmap string (list string)) (tn : string) (columns : list Column) : list Column :=
  match pks !! tn with Some keys => map (mark_primary keys) columns | None => columns end.

(** the names of a schema are distinct: nothing is moved from twice *)
Definition table_of (connName schema : string) (cols : gmap string (list Column))
    (pks : gmap string (list string)) (fks : gmap string (list ForeignKey))
    (idx : gmap string (list Index)) (tn : string) : Table :=
  mkTable tn schema "" "" (connName +:+ "." +:+ schema +:+ "." +:+ tn)
    (keyed pks tn (default [] (cols !! tn))) (default [] (idx !! tn)) (default [] (fks !! tn)) [] (-1)%Z.

Definition routine_of_row (row : list string) : option Routine :=
  if length row <? 4 then None
  else Some (mkRoutine (cell row 0) (cell row 1)
               (if equals "FUNCTION" (cell row 2) then RoutineFunction else RoutineProcedure)
               (if isNullSentinel (cell row 3) then "" else cell row 3)).

(** ** The catalog of a schema *)

Section schema.
Context {S : Type} (query : string → Eff S (list (list string))) (connName schema : string).

Definition owner : string := escapeLiteral schema.

Definition columns (filter : string) : Eff S (gmap string (list Column)) :=
  rows ← query (columns_sql owner filter);
  mret (group_rows 8 table_column rows).

Definition primaryKeys (tableName : string) : Eff S (gmap string (list string)) :=
  rows ← query (primary_keys_sql owner (table_filter "ac.TABLE_NAME" tableName));
  mret (group_rows 2 (λ row, cell row 1) rows).

Definition foreignKeys (tableName : string) : Eff S (gmap string (list ForeignKey)) :=
  rows ← query (foreign_keys_sql owner (table_filter "ac.TABLE_NAME" tableName));
  mret (group_rows 5 table_foreign_key rows).

Definition indexes (tableName : string) : Eff S (gmap string (list Index)) :=
  rows ← query (indexes_sql owner (table_filter "i.TABLE_NAME" tableName));
  mret (grouped_indexes rows).

Definition tables : Eff S (list Table) :=
  rows ← query (tables_sql owner);
  match firstColumn rows with
  | [] => mret []
  | names =>
      cols ← columns "";
      pks ← primaryKeys "";
      fks ← foreignKeys "";
      idx ← indexes "";
      mret (populateIncomingForeignKeys (map (table_of connName schema cols pks fks idx) names))
  end.

Definition views : Eff S (list Table) :=
  rows ← query (views_sql owner);
  match firstColumn rows with
  | [] => mret []
  | names =>
      cols ← columns (view_filter owner);
      mret (map (table_of connName schema cols ∅ ∅ ∅) names)
  end.

Definition sequences : Eff S (list string) :=
  rows ← query (sequences_sql owner);
  mret (firstColumn rows).

Definition routines : Eff S (list Routine) :=
  rows ← query (routines_sql owner);
  mret (omap routine_of_row rows).

Definition describeTable (tableName : string) : Eff S Table :=
  cols ← columns (" AND TABLE_NAME = '" +:+ escapeLiteral tableName +:+ "'");
  pks ← primaryKeys tableName;
  fks ← foreignKeys tableName;
  idx ← indexes tableName;
  mret (table_of connName schema cols pks fks idx tableName).
End schema.
