(* ===== verification/OracleConnection.v ===== *)
(** * The Oracle backend: the connection and its handles

    [ConnectionImpl] and the sessions of [OracleDatabase], of [src/oracle_connection.cpp].  A
    handle is a number; its owners are the connection's cache and the callers, and it dies,
    releasing its session, with the last of them.  An operation that holds a mutex is one step. *)

From S2P Require Import Prelude Types Effects Objects ConnectionInfo DdlUtils Database Rows SqlBuilder.
From S2P Require Import OracleInstaller OracleClient Oracle OracleCatalog.

(** [OracleDatabase] *)
Record OraHandle := mkOraHandle { oh_info : ConnectionInfo; oh_schema : string; oh_conn : option nat }.

(** [ConnectionImpl], the process's client, and the handles: those that exist, and those that
    callers own *)
Record OraConnection := mkOraConnection {
  oc_client : Client;
  oc_info : ConnectionInfo;
  oc_conn : option nat;
  oc_default : string;
  oc_cache : gmap string nat;
  oc_handles : gmap nat OraHandle;
  oc_held : gset nat;
  oc_made : nat;
  oc_world : World od_event
}.

Notation OraM := (Eff OraConnection).

Definition set_database (name : string) (ci : ConnectionInfo) : ConnectionInfo :=
  mkConnectionInfo (ci_type ci) (ci_name ci) (ci_path ci) (ci_host ci) (ci_port ci) name
    (ci_username ci) (ci_password ci) (ci_showAllDatabases ci) (ci_sslmode ci)
    (ci_sslCACertPath ci) (ci_readOnly ci).

(** the constructor: prefer and allow mean plain TCP *)
Definition plain_modes (ci : ConnectionInfo) : ConnectionInfo :=
  match ci_sslmode ci with
  | Prefer | Allow =>
      mkConnectionInfo (ci_type ci) (ci_name ci) (ci_path ci) (ci_host ci) (ci_port ci) (ci_database ci)
        (ci_username ci) (ci_password ci) (ci_showAllDatabases ci) Disable (ci_sslCACertPath ci)
        (ci_readOnly ci)
  | _ => ci
  end.

Definition new_connection (client : Client) (info : ConnectionInfo) : OraConnection :=
  mkOraConnection client (plain_modes info) None "" ∅ ∅ ∅ 0 new_world.

Definition get {A} (f : OraConnection → A) : OraM A := λ s, (Done (f s), s).
Definition on_client {A} (m : ClM A) : OraM A := λ s,
  let '(r, c) := m (oc_client s) in
  (r, mkOraConnection c (oc_info s) (oc_conn s) (oc_default s) (oc_cache s) (oc_handles s) (oc_held s)
        (oc_made s) (oc_world s)).
Definition on_odpi {A} (m : OdM A) : OraM A := λ s,
  let '(r, w) := m (oc_world s) in
  (r, mkOraConnection (oc_client s) (oc_info s) (oc_conn s) (oc_default s) (oc_cache s) (oc_handles s)
        (oc_held s) (oc_made s) w).
Definition set_info (i : ConnectionInfo) : OraM unit := λ s,
  (Done tt, mkOraConnection (oc_client s) i (oc_conn s) (oc_default s) (oc_cache s) (oc_handles s)
              (oc_held s) (oc_made s) (oc_world s)).
Definition set_conn (c : option nat) : OraM unit := λ s,
  (Done tt, mkOraConnection (oc_client s) (oc_info s) c (oc_default s) (oc_cache s) (oc_handles s)
              (oc_held s) (oc_made s) (oc_world s)).
Definition set_default (d : string) : OraM unit := λ s,
  (Done tt, mkOraConnection (oc_client s) (oc_info s) (oc_conn s) d (oc_cache s) (oc_handles s)
              (oc_held s) (oc_made s) (oc_world s)).
Definition set_cache (f : gmap string nat → gmap string nat) : OraM unit := λ s,
  (Done tt, mkOraConnection (oc_client s) (oc_info s) (oc_conn s) (oc_default s) (f (oc_cache s))
              (oc_handles s) (oc_held s) (oc_made s) (oc_world s)).
Definition set_held (f : gset nat → gset nat) : OraM unit := λ s,
  (Done tt, mkOraConnection (oc_client s) (oc_info s) (oc_conn s) (oc_default s) (oc_cache s)
              (oc_handles s) (f (oc_held s)) (oc_made s) (oc_world s)).
Definition set_handle (h : nat) (x : option OraHandle) : OraM unit := λ s,
  (Done tt, mkOraConnection (oc_client s) (oc_info s) (oc_conn s) (oc_default s) (oc_cache s)
              (partial_alter (λ _, x) h (oc_handles s)) (oc_held s) (oc_made s) (oc_world s)).

(** [std::make_shared<OracleDatabase>(ctx_, info_, schema)]; it has no owner yet *)
Definition make_handle (schema : string) : OraM nat := λ s,
  (Done (oc_made s),
   mkOraConnection (oc_client s) (oc_info s) (oc_conn s) (oc_default s) (oc_cache s)
     (<[oc_made s := mkOraHandle (oc_info s) schema None]> (oc_handles s)) (oc_held s)
     (S (oc_made s)) (oc_world s)).

(** the handle is returned to a caller *)
Definition hand_out (h : nat) : OraM nat := set_held (λ held, {[h]} ∪ held) ;; mret h.

Definition has_owner (s : OraConnection) (h : nat) : bool :=
  existsb (λ x, snd x =? h) (map_to_list (oc_cache s)) || bool_decide (h ∈ oc_held s).

(** an owner of the handle is gone; the last one takes it along *)
Definition drop_handle (h : nat) : OraM unit :=
  owned ← get (λ s, has_owner s h);
  if owned : bool then mret tt
  else
    x ← get (λ s, oc_handles s !! h);
    match x with
    | None => mret tt
    | Some x =>
        match oh_conn x with Some c => on_odpi (release_session c) | None => mret tt end ;;
        set_handle h None
    end.

Section backend.
Context (lib : Odpi) (os : Os) (platform : Platform) (fuel : nat).

(** ** A handle's session *)

Definition schema_sql (schema : string) : string := "ALTER SESSION SET CURRENT_SCHEMA = " +:+ quoteIdent schema.

(** a session that works in the schema *)
Definition open_session (info : ConnectionInfo) (schema : string) : OdM nat :=
  c ← createConn lib info;
  if negb (schema =? toUpper (ci_username info))%string then
    r ← runQuery lib fuel c (schema_sql schema) 0;
    if negb (qr_success r) then release_session c ;; throws (qr_errorMessage r)
    else mret c
  else mret c.

(** the session of a handle, opened on first use *)
Definition ensureConn (h : nat) : OraM nat :=
  x ← get (λ s, oc_handles s !! h);
  match x with
  | None => hangs    (* the handle is gone; the callers never ask *)
  | Some x =>
      match oh_conn x with
      | Some c => mret c
      | None =>
          c ← on_odpi (open_session (oh_info x) (oh_schema x));
          set_handle h (Some (mkOraHandle (oh_info x) (oh_schema x) (Some c))) ;;
          mret c
      end
  end.

Definition query (h : nat) (sql : string) : OraM (list (list string)) :=
  c ← ensureConn h;
  on_odpi (queryRows lib fuel c sql).

Definition execute (h : nat) (sql : string) (rowLimit : Z) : OraM QueryResult :=
  catch (c ← ensureConn h; on_odpi (runQuery lib fuel c sql rowLimit)) (λ e, mret (one_failure e)).

Definition alive (h : nat) : OraM bool :=
  c ← get (λ s, oc_handles s !! h ≫= oh_conn);
  match c with None => mret true | Some c => on_odpi (call (OdPing c) (od_ping lib)) end.

Definition cancel (h : nat) : OraM unit :=
  c ← get (λ s, oc_handles s !! h ≫= oh_conn);
  match c with None => mret tt | Some c => on_odpi (call (OdBreak c) (λ _, tt)) end.

(** the owner that the builder's default needs *)
Definition with_owner (schema : string) (table : Table) : Table :=
  if sempty (tbl_schema table) then
    mkTable (tbl_name table) schema (tbl_comment table) (tbl_definition table) (tbl_fullName table)
      (tbl_columns table) (tbl_indexes table) (tbl_foreignKeys table) (tbl_incomingForeignKeys table)
      (tbl_sizeBytes table)
  else table.

Definition failure_text (r : QueryResult) : string :=
  if sempty (qr_errorMessage r) then "query failed" else qr_errorMessage r.

(** with [IDatabase]'s default behind it *)
Definition getColumnNames (h : nat) (schema : string) (table : Table) : OraM (list string) :=
  r ← execute h (columnNames (createSQLBuilder ORACLE) (with_owner schema table)) 0;
  match qr_statements r with
  | s :: _ => if qr_success r then mret (first_cells (sr_tableData s)) else throws (failure_text r)
  | [] => throws (failure_text r)
  end.

(** ** The connection *)

Definition candidates : list string := ["FREEPDB1"; "XEPDB1"; "XE"; "ORCL"; "FREE"].

(** the usual services, until one takes a session *)
Fixpoint probe (services : list string) : OraM unit :=
  match services with
  | [] => mret tt
  | service :: services =>
      info ← get oc_info;
      found ← catch (c ← on_odpi (createConn lib (set_database service info));
                     on_odpi (release_session c) ;;
                     mret true) (λ _, mret false);
      if found : bool then set_info (set_database service info) else probe services
  end.

Definition no_service_text : string :=
  "Could not find a valid Oracle service. Try specifying the service " +:+ "name.".

Definition log_in : OraM Status :=
  info ← get oc_info;
  (if sempty (ci_database info) then probe candidates else mret tt) ;;
  info ← get oc_info;
  if sempty (ci_database info) then mret (false, no_service_text)
  else
    c ← on_odpi (createConn lib info);
    set_conn (Some c) ;;
    set_default (toUpper (ci_username info)) ;;
    mret (true, "").

Definition open : OraM Status :=
  conn ← get oc_conn;
  match conn with
  | Some _ => mret (true, "")
  | None =>
      ctx ← on_client (getDpiContext os platform true);
      if negb ctx then
        err ← on_client lastInitError;
        mret (false, err)
      else catch log_in (λ e, mret (false, e))
  end.

Definition close : OraM unit :=
  cached ← get (λ s, map snd (map_to_list (oc_cache s)));
  set_cache (λ _, ∅) ;;
  mapM drop_handle cached ;;
  conn ← get oc_conn;
  match conn with
  | Some c => on_odpi (release_session c) ;; set_conn None
  | None => mret tt
  end.

Definition isOpen : OraM bool := get (λ s, bool_decide (is_Some (oc_conn s))).

Definition schema_or_default (name : string) : OraM string :=
  d ← get oc_default;
  mret (if sempty name then d else name).

Definition database (name : string) : OraM (option nat) :=
  opened ← isOpen;
  if negb opened then mret None
  else
    n ← schema_or_default name;
    cached ← get (λ s, oc_cache s !! n);
    h ← match cached with
        | Some h => mret h
        | None => h ← make_handle n; set_cache (insert n h) ;; mret h
        end;
    h ← hand_out h;
    mret (Some h).

Definition openDatabase (name : string) : OraM (option nat) :=
  opened ← isOpen;
  if negb opened then mret None
  else
    n ← schema_or_default name;
    h ← make_handle n;
    h ← hand_out h;
    mret (Some h).

Definition owners_sql : string :=
  "SELECT DISTINCT OWNER FROM ALL_OBJECTS " +:+
  "WHERE OBJECT_TYPE IN ('TABLE','VIEW','SEQUENCE','PROCEDURE','FUNCTION','PACKAGE') " +:+
  "AND OWNER NOT IN ('SYS','SYSTEM','DBSNMP','OUTLN','MDSYS','ORDSYS','ORDDATA'," +:+
  "'CTXSYS','XDB','WMSYS','APPQOSSYS','DBSFWUSER','REMOTE_SCHEDULER_AGENT'," +:+
  "'GSMADMIN_INTERNAL','OJVMSYS','LBACSYS','GGSYS') " +:+
  "ORDER BY OWNER".

Definition databases : OraM (list (option nat)) :=
  conn ← get oc_conn;
  match conn with
  | None => throws "Not connected to Oracle"
  | Some c =>
      rows ← on_odpi (queryRows lib fuel c owners_sql);
      mapM database (firstColumn rows)
  end.

Definition create_user_sql (name : string) : string :=
  "CREATE USER " +:+ quoteIdent name +:+ " IDENTIFIED BY " +:+ quoteIdent name.
Definition grant_sql (name : string) : string := "GRANT CONNECT, RESOURCE TO " +:+ quoteIdent name.
Definition drop_user_sql (name : string) : string := "DROP USER " +:+ quoteIdent name +:+ " CASCADE".

Definition createDatabase (opts : CreateDatabaseOptions) : OraM Status :=
  if sempty (cd_name opts) then mret (false, "Schema name cannot be empty")
  else
    conn ← get oc_conn;
    match conn with
    | None => mret (false, "Not connected to Oracle")
    | Some c =>
        r ← on_odpi (runQuery lib fuel c (create_user_sql (cd_name opts)) 0);
        if negb (qr_success r) then mret (false, qr_errorMessage r)
        else
          on_odpi (runQuery lib fuel c (grant_sql (cd_name opts)) 0) ;;
          mret (true, "")
    end.

(** the cache's share of a handle goes away *)
Definition forget (name : string) : OraM unit :=
  cached ← get (λ s, oc_cache s !! name);
  set_cache (delete name) ;;
  match cached with Some h => drop_handle h | None => mret tt end.

Definition dropDatabase (name : string) : OraM Status :=
  forget name ;;
  conn ← get oc_conn;
  match conn with
  | None => mret (false, "Not connected to Oracle")
  | Some c =>
      r ← on_odpi (runQuery lib fuel c (drop_user_sql name) 0);
      mret (toStatus r)
  end.

(** a caller's last pointer to a handle goes away *)
Definition release (h : nat) : OraM unit := set_held (λ held, held ∖ {[h]}) ;; drop_handle h.
End backend.
