(* ===== verification/OracleProps.v ===== *)
(** * The Oracle backend: properties of sessions

    No session of the server is used after it is released, none is left open without an owner,
    and every statement is released. *)

From S2P Require Import Prelude Types Effects Objects ConnectionInfo Database Rows Oracle OracleCatalog.
From S2P Require Import OracleInstaller OracleClient OracleConnection.

Section objects.
Context (lib : Odpi).

(** what a call does to sessions and statements *)
Definition od_actions (log : OdLog) (e : od_event) : list action :=
  match e with
  | OdCreate c _ _ _ => if od_create lib log then [Make c None] else []
  | OdReleaseConn c => [Free c]
  | OdPing c | OdBreak c => [Use c]
  | OdPrepare s c _ => Use c :: if od_prepare lib log then [Make s (Some c)] else []
  | OdInfo s | OdExecute s _ | OdColumn s _ | OdDefine s _ | OdFetch s | OdRowCount s => [Use s]
  | OdRelease s => [Free s]
  | OdError => []
  end.

Notation Live := (Live od_actions).

(** ** Statements *)

Lemma od_use o L e {A} (answer : OdLog → A) E :
  is_Some (L !! o) → (∀ log, od_actions log e = [Use o]) →
  triple (Live L) (call e answer) (λ _, Live L) E.
Proof. intros Ho He. by eapply live_uses. Qed.

Lemma od_keeps_error L : always (Live L) (dpiErrText lib).
Proof. by apply live_call. Qed.

Lemma od_keeps_column L s i : is_Some (L !! s) → always (Live L) (column lib s i).
Proof.
  intros Hs. unfold column. apply always_bind; [by eapply od_use|]. intros [name clob]. apply always_bind.
  - destruct clob; [by eapply od_use|apply always_ret].
  - intros _. apply always_ret.
Qed.

Lemma od_keeps_fetch L n s columns rowLimit rows :
  is_Some (L !! s) → always (Live L) (fetch_loop lib n s columns rowLimit rows).
Proof.
  intros Hs. revert rows. induction n as [|n IH]; intros rows; cbn [fetch_loop]; [by intros w Hw|].
  destruct (below_limit _ _); [|apply always_ret]. apply always_bind; [by eapply od_use|].
  intros [row| |]; [apply IH|apply always_ret..].
Qed.

Context (fuel : nat).

Lemma od_keeps_report L s columns rowLimit :
  is_Some (L !! s) → always (Live L) (report lib fuel s columns rowLimit).
Proof.
  intros Hs. unfold report. destruct (columns =? 0).
  - apply always_bind; [by eapply od_use|]. intros n. apply always_ret.
  - apply always_bind; [apply always_mapM; intros i; by apply od_keeps_column|]. intros names.
    apply always_bind; [by apply od_keeps_fetch|]. intros rows. apply always_ret.
Qed.

(** a statement lives as long as its run *)
Lemma od_keeps_run L c sql rowLimit :
  is_Some (L !! c) → always (Live L) (runQuery lib fuel c sql rowLimit).
Proof.
  intros Hc. unfold runQuery.
  apply live_make with (made := λ b : bool, b) (parent := Some c).
  - intros s log. simpl. rewrite (exists_true _ _ Hc). by destruct (od_prepare lib log); acting.
  - by intros p [= <-].
  - intros s prepared Hs Hch Hp ->. cbn [negb].
    assert (Hin : is_Some (<[s := Some c]> L !! s)) by apply made_there.
    eapply (triple_finally _ _ (λ _, Live (<[s := Some c]> L)) (λ _, False)); [| |by intros w []].
    + apply always_bind; [by eapply od_use|]. intros isQuery.
      apply always_bind; [by eapply od_use|]. intros [columns|].
      * apply always_bind; [by apply od_keeps_report|]. intros r. apply always_ret.
      * apply always_bind; [apply od_keeps_error|]. intros err. apply always_ret.
    + intros r. by apply live_unmake.
  - intros s prepared ->. cbn [negb]. apply always_bind; [apply od_keeps_error|]. intros err. apply always_ret.
Qed.

Lemma od_keeps_rows L c sql : is_Some (L !! c) → keeps (Live L) (queryRows lib fuel c sql).
Proof.
  intros Hc. unfold queryRows. apply keeps_bind; [by apply always_keeps, od_keeps_run|]. intros r.
  destruct (qr_success r); [apply keeps_ret|apply keeps_throws].
Qed.

(** ** Sessions *)

(** a set of sessions exists, and nothing else *)
Definition Sessions (X : gset nat) : World od_event → Prop := Live (gset_to_gmap None X).

Lemma sessions_exists (X : gset nat) o : o ∈ X → is_Some (gset_to_gmap (None : option nat) X !! o).
Proof. intros Ho. rewrite <-elem_of_dom. by rewrite dom_gset_to_gmap. Qed.

Lemma sessions_string info X :
  triple (Sessions X) (buildConnectString lib info) (λ _, Sessions X) (Sessions X).
Proof.
  unfold buildConnectString, walletLocation. destruct (ci_sslmode info); try (intros ??; done).
  all: apply keeps_bind; [destruct (sempty (ci_sslCACertPath info)); [apply keeps_ret|]; by intros ??|].
  all: intros location; destruct (sempty location); [apply keeps_throws|apply keeps_ret].
Qed.

Lemma ora_sessions_create info X :
  triple (Sessions X) (createConn lib info) (λ c w, c ∉ X ∧ Sessions ({[c]} ∪ X) w) (Sessions X).
Proof.
  unfold createConn. eapply triple_bind; [apply sessions_string|]. intros str.
  apply live_make with (made := λ b : bool, b) (parent := None); [|done|..].
  - intros c log. simpl. destruct (od_create lib log); acting.
  - intros c created Hc _ _ -> w Hw. split; [by apply lookup_gset_to_gmap_None in Hc|].
    unfold Sessions. by rewrite gset_to_gmap_union_singleton.
  - intros c created ->. cbn [negb].
    eapply triple_bind; [eapply triple_weaken; [apply od_keeps_error|done|intros x w Hw; exact Hw|by intros w []]|].
    intros err w Hw. exact Hw.
Qed.

Lemma sessions_free X c E :
  c ∉ X → triple (Sessions ({[c]} ∪ X)) (release_session c) (λ _, Sessions X) E.
Proof.
  intros Hc. unfold Sessions. rewrite gset_to_gmap_union_singleton.
  assert (Hn : gset_to_gmap (None : option nat) X !! c = None) by by apply lookup_gset_to_gmap_None.
  apply live_unmake; [done|done|apply no_children|done].
Qed.

Lemma sessions_open info schema X :
  triple (Sessions X) (open_session lib fuel info schema)
    (λ c w, c ∉ X ∧ Sessions ({[c]} ∪ X) w) (Sessions X).
Proof.
  unfold open_session. eapply triple_bind; [apply ora_sessions_create|]. intros c w [Hc Hw]. revert w Hw.
  match goal with |- ∀ w, Sessions ?Y w → match ?m w with _ => _ end =>
    change (triple (Sessions Y) m (λ c w, c ∉ X ∧ Sessions ({[c]} ∪ X) w) (Sessions X)) end.
  assert (Hin : is_Some (gset_to_gmap (None : option nat) ({[c]} ∪ X) !! c)).
  { apply sessions_exists. set_solver. }
  destruct (schema =? _)%string; cbn [negb]; [by intros w Hw|].
  eapply triple_bind; [eapply triple_weaken; [by apply od_keeps_run|done|intros x w Hw; exact Hw|by intros w []]|].
  intros r. simpl. destruct (qr_success r); cbn [negb]; [by intros w Hw|].
  eapply (triple_bind _ _ (λ _, Sessions X)); [by apply sessions_free|]. intros [] w Hw. exact Hw.
Qed.
(** ** Owners *)

(** the owner of a session is the connection or a handle *)
Definition owner_of (s : OraConnection) (a : option nat) (o : nat) : Prop :=
  match a with
  | None => oc_conn s = Some o
  | Some h => ∃ x, oc_handles s !! h = Some x ∧ oh_conn x = Some o
  end.

(** a handle's owners are the cache and the callers; [pend] are shares under way *)
Definition has_share (pend : list nat) (s : OraConnection) (h : nat) : Prop :=
  (∃ n, oc_cache s !! n = Some h) ∨ h ∈ oc_held s ∨ h ∈ pend.

(** the sessions are those with an owner, and [spare] *)
Record Kept (spare : option nat) (pend : list nat) (s : OraConnection) : Prop := mkKept {
  ke_sessions : ∃ X, Sessions X (oc_world s) ∧ ∀ o, o ∈ X ↔ spare = Some o ∨ ∃ a, owner_of s a o;
  ke_one : ∀ o a b, owner_of s a o → owner_of s b o → a = b;
  ke_spare : ∀ o a, spare = Some o → ¬ owner_of s a o;
  ke_handles : ∀ h, is_Some (oc_handles s !! h) → has_share pend s h;
  ke_alive : ∀ h, has_share [] s h → is_Some (oc_handles s !! h);
  ke_made : ∀ h, is_Some (oc_handles s !! h) → h < oc_made s
}.

Lemma kept_new client info : Kept None [] (new_connection client info).
Proof.
  assert (Hno : ∀ a o, ¬ owner_of (new_connection client info) a o).
  { intros [h|] o; simpl; [|done]. intros (x & Hx & _). by rewrite lookup_empty in Hx. }
  split; simpl.
  - exists ∅. split; [apply live_new|]. intros o. split; [set_solver|]. intros [[=]|[a Ha]]. by apply Hno in Ha.
  - intros o a b Ha. by apply Hno in Ha.
  - done.
  - intros h. rewrite lookup_empty. by intros [].
  - intros h. unfold has_share. simpl. setoid_rewrite lookup_empty. set_solver.
  - intros h. rewrite lookup_empty. by intros [].
Qed.

(** members that own no session and no handle *)
Lemma ora_kept_same spare pend s client info default made :
  Kept spare pend s → oc_made s <= made →
  Kept spare pend (mkOraConnection client info (oc_conn s) default (oc_cache s) (oc_handles s) (oc_held s)
                     made (oc_world s)).
Proof. intros [H1 H2 H3 H4 H5 H6] Hm. split; [done..|]. intros h Hh. specialize (H6 h Hh). simpl. lia. Qed.

(** an operation of the library, which may make a session *)
Lemma kept_odpi {A} (m : OdM A) (made : A → option nat) pend s :
  (∀ X, (∀ a o, owner_of s a o → o ∈ X) →
        triple (Sessions X) m
          (λ x w, match made x with Some c => c ∉ X ∧ Sessions ({[c]} ∪ X) w | None => Sessions X w end)
          (Sessions X)) →
  Kept None pend s →
  match on_odpi m s with
  | (Done x, s') => Kept (made x) pend s' ∧
                    ∃ w, s' = mkOraConnection (oc_client s) (oc_info s) (oc_conn s) (oc_default s)
                                (oc_cache s) (oc_handles s) (oc_held s) (oc_made s) w
  | (Throws _, s') => Kept None pend s'
  | (Hangs, _) => True
  end.
Proof.
  intros Hm [(X & HX & Ho) H2 H3 H4 H5 H6]. unfold on_odpi.
  assert (Hin : ∀ a o, owner_of s a o → o ∈ X) by (intros a o Ha; apply Ho; right; by exists a).
  specialize (Hm X Hin (oc_world s) HX).
  destruct (m (oc_world s)) as [[x|e|] w]; [| |done].
  - split; [|by eexists]. destruct (made x) as [c|]; [|split; [by exists X|done..]].
    destruct Hm as [Hc Hw]. split; [|done| |done..].
    + exists ({[c]} ∪ X). split; [done|]. intros o. rewrite elem_of_union, elem_of_singleton, Ho.
      split; [intros [->|[[=]|H]]; [by left|by right]|intros [[= ->]|H]; [by left|by right; right]].
    + intros o a [= <-] Ha. apply Hc. by apply (Hin a).
  - split; [by exists X|done..].
Qed.

(** one that makes none *)
Lemma kept_use {A} (m : OdM A) pend :
  (∀ X, keeps (Sessions X) m) → keeps (Kept None pend) (on_odpi m).
Proof.
  intros Hm s Hs. pose proof (kept_odpi m (λ _, None) pend s (λ X _, Hm X) Hs) as H.
  destruct (on_odpi m s) as [[x|e|] s']; [by destruct H|done..].
Qed.

(** through a session that has an owner *)
Lemma kept_owned {A} (m : OdM A) a c pend s :
  owner_of s a c → (∀ X, c ∈ X → keeps (Sessions X) m) → Kept None pend s →
  match on_odpi m s with
  | (Done _, s') | (Throws _, s') => Kept None pend s'
  | (Hangs, _) => True
  end.
Proof.
  intros Ha Hm Hs.
  pose proof (kept_odpi m (λ _, None) pend s (λ X HX, Hm X (HX a c Ha)) Hs) as H.
  destruct (on_odpi m s) as [[x|e|] s']; [by destruct H|done..].
Qed.

(** ** Shares of handles *)

(** the last owner of a session gives it back *)
Lemma kept_released c s (s' : World od_event → OraConnection) a pend pend' :
  Kept None pend s → owner_of s a c →
  (∀ w, oc_world (s' w) = w ∧ ∀ b o, owner_of (s' w) b o ↔ owner_of s b o ∧ b ≠ a) →
  (∀ w h, is_Some (oc_handles (s' w) !! h) → has_share pend' (s' w) h ∧ h < oc_made (s' w)) →
  (∀ w h, has_share [] (s' w) h → is_Some (oc_handles (s' w) !! h)) →
  match release_session c (oc_world s) with
  | (Done _, w) => Kept None pend' (s' w)
  | (Throws _, _) => False
  | (Hangs, _) => True
  end.
Proof.
  intros [(X & HX & Ho) H2 _ _ _ _] Ha Hs' Hh Hm.
  assert (Hc : c ∈ X) by (apply Ho; right; by exists a).
  assert (Hw : Sessions ({[c]} ∪ X ∖ {[c]}) (oc_world s)).
  { replace ({[c]} ∪ X ∖ {[c]}) with X; [done|]. apply set_eq. intros o. destruct (decide (o = c)); set_solver. }
  pose proof (sessions_free (X ∖ {[c]}) c (λ _, False) ltac:(set_solver) _ Hw) as H.
  destruct (release_session c (oc_world s)) as [[[]|e|] w]; [|done..].
  destruct (Hs' w) as [Ew Eo]. split; [| | |by apply Hh|by apply Hm|by apply Hh].
  - exists (X ∖ {[c]}). rewrite Ew. split; [done|]. intros o. rewrite elem_of_difference, elem_of_singleton, Ho.
    split.
    + intros [[[=]|[b Hb]] Hne]. right. exists b. apply Eo. split; [done|]. intros ->. apply Hne.
      destruct a as [h|]; simpl in *; [|congruence]. destruct Ha as (x & ? & ?), Hb as (y & ? & ?). congruence.
    + intros [[=]|[b [Hb Hne]%Eo]]. split; [right; by exists b|]. intros ->. apply Hne. by apply (H2 c).
  - intros o b b' [Hb _]%Eo [Hb' _]%Eo. by apply (H2 o).
  - done.
Qed.

Lemma has_owner_true s h : has_owner s h = true ↔ has_share [] s h.
Proof.
  unfold has_owner, has_share. rewrite orb_true_iff, bool_decide_eq_true, existsb_exists. split.
  - intros [([n k] & Hin%list_elem_of_In%elem_of_map_to_list & Hk%Nat.eqb_eq)|H]; [|tauto].
    simpl in Hk. subst. left. by exists n.
  - intros [[n Hn]|[H|H]]; [left|by right|set_solver]. exists (n, h).
    split; [by apply list_elem_of_In, elem_of_map_to_list|]. by apply Nat.eqb_eq.
Qed.

(** a handle that nobody owns is gone *)
Lemma kept_gone h x pend s w :
  Kept None (h :: pend) s → oc_handles s !! h = Some x → ¬ has_share [] s h →
  let s' := mkOraConnection (oc_client s) (oc_info s) (oc_conn s) (oc_default s) (oc_cache s)
              (partial_alter (λ _, None) h (oc_handles s)) (oc_held s) (oc_made s) w in
  (∀ b o, owner_of s' b o ↔ owner_of s b o ∧ b ≠ Some h) ∧
  (∀ k, is_Some (oc_handles s' !! k) → has_share pend s' k ∧ k < oc_made s') ∧
  (∀ k, has_share [] s' k → is_Some (oc_handles s' !! k)).
Proof.
  intros Hs Hx Hno. change (partial_alter (λ _, None) h (oc_handles s)) with (delete h (oc_handles s)).
  cbn zeta. split_and!.
  - intros [k|] o; simpl; [|naive_solver]. setoid_rewrite lookup_delete_Some. naive_solver.
  - intros k. simpl. rewrite lookup_delete_is_Some. intros [Hne Hk].
    split; [|by apply (ke_made _ _ _ Hs)]. destruct (ke_handles _ _ _ Hs k Hk) as [H|[H|H]]; [by left|by right; left|].
    right. right. apply elem_of_cons in H as [->|H]; done.
  - intros k Hk. simpl. rewrite lookup_delete_is_Some. change (has_share [] s k) in Hk.
    split; [intros ->; by apply Hno|by apply (ke_alive _ _ _ Hs)].
Qed.

Lemma ora_kept_drop h pend E :
  triple (Kept None (h :: pend)) (drop_handle h) (λ _, Kept None pend) E.
Proof.
  intros s Hs. unfold drop_handle, get, mbind, Eff_bind.
  destruct (has_owner s h) eqn:Eown; [|destruct (oc_handles s !! h) as [x|] eqn:Hx].
  - apply has_owner_true in Eown. destruct Hs as [H1 H2 H3 H4 H5 H6]. split; [done..| |done|done].
    intros k Hk. destruct (H4 k Hk) as [H|[H|H]]; [by left|by right; left|].
    apply elem_of_cons in H as [->|H]; [|by right; right].
    destruct Eown as [H|[H|H]]; [by left|by right; left|set_solver].
  - assert (Hno : ¬ has_share [] s h) by (by rewrite <-has_owner_true, Eown).
    destruct (oh_conn x) as [c|] eqn:Hc.
    + pose proof (kept_released c s (λ w, mkOraConnection (oc_client s) (oc_info s) (oc_conn s) (oc_default s)
        (oc_cache s) (partial_alter (λ _, None) h (oc_handles s)) (oc_held s) (oc_made s) w) (Some h) (h :: pend) pend Hs) as H.
      unfold on_odpi. destruct (release_session c (oc_world s)) as [[[]|e|] w] eqn:E1; [|done..].
      apply H; [by exists x|..]; intros w'; destruct (kept_gone h x pend s w' Hs Hx Hno) as (Ho & Hh & Hal).
      * by split.
      * exact Hh.
      * exact Hal.
    + destruct (kept_gone h x pend s (oc_world s) Hs Hx Hno) as (Ho & Hh & Ha). unfold set_handle.
      assert (Hsame : ∀ b o, owner_of s b o → b ≠ Some h).
      { intros b o Hb ->. destruct Hb as (y & Hy & Hyc). congruence. }
      destruct Hs as [(X & HX & HXo) H2 H3 H4 H5 H6]. split; [|..|by apply Ha|by apply Hh].
      * exists X. split; [done|]. intros o. rewrite HXo. split; (intros [[=]|[b Hb]]; right; exists b).
        -- apply Ho. split; [done|by eapply Hsame].
        -- by apply Ho in Hb as [Hb _].
      * intros o a b [Ha' _]%Ho [Hb _]%Ho. by apply (H2 o).
      * done.
      * intros k Hk. by apply Hh.
  - destruct Hs as [H1 H2 H3 H4 H5 H6]. split; [done..| |done|done].
    intros k Hk. destruct (H4 k Hk) as [H|[H|H]]; [by left|by right; left|].
    apply elem_of_cons in H as [->|H]; [|by right; right]. rewrite Hx in Hk. by destruct Hk.
Qed.

Lemma kept_drops hs pend E :
  triple (Kept None (hs ++ pend)) (mapM drop_handle hs) (λ _, Kept None pend) E.
Proof.
  induction hs as [|h hs IH]; [by intros s Hs|]. cbn [mapM]. eapply triple_bind; [apply (ora_kept_drop h (hs ++ pend))|].
  intros u. eapply triple_bind; [apply IH|]. intros us s Hs. exact Hs.
Qed.
(** ** A new session *)

Lemma ora_kept_create info pend s :
  Kept None pend s →
  match on_odpi (createConn lib info) s with
  | (Done c, s') => Kept (Some c) pend s' ∧
                    ∃ w, s' = mkOraConnection (oc_client s) (oc_info s) (oc_conn s) (oc_default s)
                                (oc_cache s) (oc_handles s) (oc_held s) (oc_made s) w
  | (Throws _, s') => Kept None pend s' ∧ oc_conn s' = oc_conn s ∧ oc_handles s' = oc_handles s
  | (Hangs, _) => True
  end.
Proof.
  intros Hs. pose proof (kept_odpi (createConn lib info) Some pend s (λ X _, ora_sessions_create info X) Hs) as H.
  revert H. unfold on_odpi. destruct (createConn lib info (oc_world s)) as [[c|e|] w]; [done| |done].
  intros H. by split.
Qed.

Lemma kept_unmake c pend E :
  triple (Kept (Some c) pend) (on_odpi (release_session c)) (λ _, Kept None pend) E.
Proof.
  intros s [(X & HX & Ho) H2 H3 H4 H5 H6]. unfold on_odpi.
  assert (Hc : c ∈ X) by (apply Ho; by left).
  assert (Hw : Sessions ({[c]} ∪ X ∖ {[c]}) (oc_world s)).
  { replace ({[c]} ∪ X ∖ {[c]}) with X; [done|]. apply set_eq. intros o. destruct (decide (o = c)); set_solver. }
  pose proof (sessions_free (X ∖ {[c]}) c (λ _, False) ltac:(set_solver) _ Hw) as H.
  destruct (release_session c (oc_world s)) as [[[]|e|] w]; [|done..].
  split; [|done|done|done..]. exists (X ∖ {[c]}). split; [done|]. intros o.
  rewrite elem_of_difference, elem_of_singleton, Ho. split.
  - intros [[[= ->]|H'] Hne]; [done|by right].
  - intros [[=]|[a Ha]]. split; [right; by exists a|]. intros ->. by apply (H3 c a).
Qed.

(** the session becomes the connection's *)
Lemma kept_login c pend s :
  Kept (Some c) pend s → oc_conn s = None → Kept None pend (snd (set_conn (Some c) s)).
Proof.
  intros [(X & HX & Ho) H2 H3 H4 H5 H6] Hn. simpl.
  assert (Hown : ∀ a o, owner_of (snd (set_conn (Some c) s)) a o ↔ owner_of s a o ∨ (a = None ∧ o = c)).
  { intros [h|] o; simpl; [naive_solver|]. rewrite Hn. naive_solver. }
  split; [| |done..].
  - exists X. split; [done|]. intros o. rewrite Ho. split.
    + intros [[= ->]|[a Ha]]; right; [exists None|exists a]; apply Hown; tauto.
    + intros [[=]|[a [Ha|[_ ->]]%Hown]]; [right; by exists a|by left].
  - intros o a b [Ha|[-> ->]]%Hown [Hb|[-> Hoc]]%Hown; [by apply (H2 o)| | |done].
    + subst. by apply H3 in Ha.
    + by apply H3 in Hb.
Qed.

(** or a handle's *)
Lemma kept_store c h x pend s :
  Kept (Some c) pend s → oc_handles s !! h = Some x → oh_conn x = None →
  Kept None pend (snd (set_handle h (Some (mkOraHandle (oh_info x) (oh_schema x) (Some c))) s)).
Proof.
  intros [(X & HX & Ho) H2 H3 H4 H5 H6] Hx Hc.
  set (s' := snd _).
  assert (Hin : ∀ k, is_Some (oc_handles s' !! k) ↔ is_Some (oc_handles s !! k)).
  { intros k. simpl. change (partial_alter _ h (oc_handles s)) with
      (<[h := mkOraHandle (oh_info x) (oh_schema x) (Some c)]> (oc_handles s)).
    rewrite lookup_insert_is_Some. destruct (decide (h = k)) as [->|]; [rewrite Hx|]; naive_solver. }
  assert (Hown : ∀ a o, owner_of s' a o ↔ owner_of s a o ∨ (a = Some h ∧ o = c)).
  { intros [k|] o; simpl; [|naive_solver]. change (partial_alter _ h (oc_handles s)) with
      (<[h := mkOraHandle (oh_info x) (oh_schema x) (Some c)]> (oc_handles s)).
    setoid_rewrite lookup_insert_Some. split.
    - intros (y & [[<- <-]|[Hne Hy]] & Hyo); [right; simpl in Hyo; naive_solver|]. left. by exists y.
    - intros [(y & Hy & Hyo)|[[= ->] ->]]; [|by eauto].
      destruct (decide (h = k)) as [->|Hne]; [congruence|]. exists y. split; [by right|done]. }
  split; [| |done|..].
  - exists X. split; [done|]. intros o. rewrite Ho. split.
    + intros [[= ->]|[a Ha]]; right; [exists (Some h)|exists a]; apply Hown; tauto.
    + intros [[=]|[a [Ha|[_ ->]]%Hown]]; [right; by exists a|by left].
  - intros o a b [Ha|[-> ->]]%Hown [Hb|[-> Hoc]]%Hown; [by apply (H2 o)| | |done].
    + subst. by apply H3 in Ha.
    + by apply H3 in Hb.
  - intros k Hk%Hin. by apply H4.
  - intros k Hk. apply Hin. by apply H5.
  - intros k Hk%Hin. by apply H6.
Qed.

(** ** The operations of a handle *)

(** between the operations of a handle that exists *)
Definition At (h : nat) (s : OraConnection) : Prop := Kept None [] s ∧ is_Some (oc_handles s !! h).

Lemma at_odpi {A} (m : OdM A) a c h s :
  owner_of s a c → (∀ X, c ∈ X → keeps (Sessions X) m) → At h s →
  match on_odpi m s with
  | (Done _, s') | (Throws _, s') => At h s'
  | (Hangs, _) => True
  end.
Proof.
  intros Ha Hm [Hs Hh]. pose proof (kept_owned m a c [] s Ha Hm Hs) as H. revert H. unfold on_odpi.
  destruct (m (oc_world s)) as [[x|e|] w]; [..|done]; by split.
Qed.

Lemma at_ensure h :
  triple (At h) (ensureConn lib fuel h) (λ c s, At h s ∧ owner_of s (Some h) c) (At h).
Proof.
  intros s [Hs Hh]. unfold ensureConn, get, mbind at 1, Eff_bind at 1.
  destruct (oc_handles s !! h) as [x|] eqn:Hx; [|done].
  destruct (oh_conn x) as [c|] eqn:Hc; [by split; [split; [done|by eexists]|exists x]|].
  pose proof (kept_odpi (open_session lib fuel (oh_info x) (oh_schema x)) Some [] s
                (λ X _, sessions_open _ _ X) Hs) as H.
  revert H. unfold mbind, Eff_bind, on_odpi. destruct (open_session _ _ _ _ _) as [[c|e|] w]; [| |done].
  - intros [H _]. split.
    + split; [by eapply (kept_store c h x)|]. simpl. rewrite lookup_partial_alter. rewrite decide_True by done.
      by eexists.
    + simpl. eexists. rewrite lookup_partial_alter, decide_True by done. by split.
  - intros H. split; [done|]. simpl. by rewrite Hx.
Qed.

Lemma at_query h sql : keeps (At h) (query lib fuel h sql).
Proof.
  unfold query. eapply triple_bind; [apply at_ensure|]. intros c s [Hs Hc].
  apply (at_odpi _ (Some h) c h s Hc); [|done]. intros X HX. by apply od_keeps_rows, sessions_exists.
Qed.

Lemma at_execute h sql rowLimit : always (At h) (execute lib fuel h sql rowLimit).
Proof.
  unfold execute. apply (triple_catch _ _ _ (At h)); [|intros e; by intros s Hs].
  eapply triple_bind; [apply at_ensure|]. intros c s [Hs Hc].
  apply (at_odpi _ (Some h) c h s Hc); [|done]. intros X HX. by apply always_keeps, od_keeps_run, sessions_exists.
Qed.

(** a call on the session that a handle has *)
Lemma at_session {A} h (x : A) (m : nat → OdM A) :
  (∀ c X, c ∈ X → keeps (Sessions X) (m c)) →
  keeps (At h) (c ← get (λ s, oc_handles s !! h ≫= oh_conn);
                match c with None => mret x | Some c => on_odpi (m c) end).
Proof.
  intros Hm s Hs. unfold get, mbind at 1, Eff_bind. destruct (oc_handles s !! h) as [y|] eqn:Hy; [|done].
  cbn [mbind option_bind]. destruct (oh_conn y) as [c|] eqn:Hc; [|done].
  apply (at_odpi _ (Some h) c h s); [by exists y|by apply Hm|done].
Qed.
End objects.

(** ** The catalog of a handle *)

Section catalog.
Context {S : Type} (P : S → Prop) (query : string → Eff S (list (list string))).
(** the catalog only asks *)
Hypothesis Hquery : ∀ sql, starts_with "SELECT " sql = true → keeps P (query sql).

Lemma od_keeps_groups {A} sql (f : list (list string) → A) :
  starts_with "SELECT " sql = true → keeps P (rows ← query sql; mret (f rows)).
Proof. intros Hs. apply keeps_bind; [by apply Hquery|]. intros rows. apply keeps_ret. Qed.

Lemma od_keeps_tables connName schema : keeps P (tables query connName schema).
Proof.
  unfold tables. apply keeps_bind; [by apply Hquery|]. intros rows. destruct (firstColumn rows); [apply keeps_ret|].
  do 4 (apply keeps_bind; [by apply od_keeps_groups|intros ?]). apply keeps_ret.
Qed.

Lemma od_keeps_views connName schema : keeps P (views query connName schema).
Proof.
  unfold views. apply keeps_bind; [by apply Hquery|]. intros rows. destruct (firstColumn rows); [apply keeps_ret|].
  apply keeps_bind; [by apply od_keeps_groups|intros ?]. apply keeps_ret.
Qed.

Lemma od_keeps_describe connName schema tableName : keeps P (describeTable query connName schema tableName).
Proof. unfold describeTable. do 4 (apply keeps_bind; [by apply od_keeps_groups|intros ?]). apply keeps_ret. Qed.
End catalog.
