(* ===== verification/OracleConnectionProps.v ===== *)
(** * The Oracle backend: properties of the connection

    Who owns which session, over all operations of a connection and of its handles. *)

From S2P Require Import Prelude Types Effects Objects ConnectionInfo Database SqlBuilder Oracle OracleCatalog.
From S2P Require Import OracleInstaller OracleClient OracleConnection OracleProps.

(** ** What a program does *)

Inductive ora_use :=
  | UseExecute (sql : string) (rowLimit : Z)
  | UseTables | UseViews | UseSequences | UseRoutines
  | UseDescribe (tableName : string)
  | UseColumnNames (table : Table)
  | UseAlive | UseCancel.

Inductive ora_op :=
  | OpOpen | OpClose
  | OpDatabase (name : string) | OpOpenDatabase (name : string) | OpDatabases
  | OpCreate (opts : CreateDatabaseOptions) | OpDrop (name : string)
  | OpUse (h : nat) (u : ora_use)
  | OpRelease (h : nat).

Definition ignore {S A} (m : Eff S A) : Eff S unit := m ;; mret tt.

Section program.
Context (lib : Odpi) (os : Os) (platform : Platform) (fuel : nat).

Definition perform_use (h : nat) (x : OraHandle) (u : ora_use) : OraM unit :=
  let ask := query lib fuel h in
  let connName := ci_name (oh_info x) in
  let schema := oh_schema x in
  match u with
  | UseExecute sql rowLimit => ignore (execute lib fuel h sql rowLimit)
  | UseTables => ignore (tables ask connName schema)
  | UseViews => ignore (views ask connName schema)
  | UseSequences => ignore (sequences ask schema)
  | UseRoutines => ignore (routines ask schema)
  | UseDescribe tableName => ignore (describeTable ask connName schema tableName)
  | UseColumnNames table => ignore (getColumnNames lib fuel h schema table)
  | UseAlive => ignore (OracleConnection.alive lib h)
  | UseCancel => cancel h
  end.

(** callers use and release the handles that they own *)
Definition held_only (h : nat) (m : OraHandle → OraM unit) : OraM unit := λ s,
  if decide (h ∈ oc_held s) then
    match oc_handles s !! h with Some x => m x s | None => (Done tt, s) end
  else (Done tt, s).

Definition perform (op : ora_op) : OraM unit :=
  match op with
  | OpOpen => ignore (open lib os platform)
  | OpClose => close
  | OpDatabase name => ignore (database name)
  | OpOpenDatabase name => ignore (openDatabase name)
  | OpDatabases => ignore (databases lib fuel)
  | OpCreate opts => ignore (createDatabase lib fuel opts)
  | OpDrop name => ignore (dropDatabase lib fuel name)
  | OpUse h u => held_only h (λ x, perform_use h x u)
  | OpRelease h => held_only h (λ _, release h)
  end.

(** ** Between the operations *)

Notation Free := (Kept lib None []).

Lemma ora_keeps_ignore {S A} (P : S → Prop) (m : Eff S A) : keeps P m → keeps P (ignore m).
Proof. intros Hm. apply keeps_bind; [done|]. intros x. apply keeps_ret. Qed.

Lemma at_use h x u : keeps (At lib h) (perform_use h x u).
Proof.
  assert (Hq : ∀ sql, starts_with "SELECT " sql = true → keeps (At lib h) (query lib fuel h sql)) by (intros sql _; apply at_query).
  destruct u; cbn [perform_use]; try apply ora_keeps_ignore.
  - apply always_keeps, at_execute.
  - by apply od_keeps_tables.
  - by apply od_keeps_views.
  - unfold sequences. by apply od_keeps_groups.
  - unfold routines. by apply od_keeps_groups.
  - by apply od_keeps_describe.
  - unfold getColumnNames. apply keeps_bind; [apply always_keeps, at_execute|]. intros r.
    destruct (qr_statements r); [apply keeps_throws|]. destruct (qr_success r); [apply keeps_ret|apply keeps_throws].
  - unfold OracleConnection.alive. apply at_session. intros c X Hc.
    apply live_use. intros log. simpl. rewrite (exists_true _ c); [done|by apply sessions_exists].
  - unfold cancel. apply at_session. intros c X Hc.
    apply live_use. intros log. simpl. rewrite (exists_true _ c); [done|by apply sessions_exists].
Qed.

(** a client's operation concerns no session *)
Lemma ora_keeps_client {A} spare pend (m : ClM A) : keeps (Kept lib spare pend) (on_client m).
Proof.
  intros s Hs. unfold on_client. destruct (m (oc_client s)) as [[x|e|] c]; [..|done]; by apply ora_kept_same.
Qed.

Lemma ora_keeps_info spare pend i : keeps (Kept lib spare pend) (set_info i).
Proof. intros s Hs. by apply ora_kept_same. Qed.

Lemma ora_keeps_default spare pend d : keeps (Kept lib spare pend) (set_default d).
Proof. intros s Hs. by apply ora_kept_same. Qed.

Lemma ora_keeps_get {A} (P : OraConnection → Prop) (f : OraConnection → A) : keeps P (get f).
Proof. by intros s Hs. Qed.

(** ** Logging in *)

(** nobody is logged in *)
Definition Out (s : OraConnection) : Prop := Free s ∧ oc_conn s = None.

Lemma out_probe services : always Out (probe lib services).
Proof.
  induction services as [|service services IH]; [by intros s Hs|]. cbn [probe].
  intros s [Hs Hn]. unfold get, mbind at 1, Eff_bind at 1.
  pose proof (ora_kept_create lib (set_database service (oc_info s)) [] s Hs) as H.
  unfold mbind, Eff_bind, catch. destruct (on_odpi (createConn lib _) s) as [[c|e|] s1]; [| |done].
  - destruct H as [H [w ->]].
    pose proof (kept_unmake lib c [] (λ _, False) _ H) as H'. revert H'. unfold on_odpi.
    destruct (release_session c _) as [[[]|e|] w']; [|done..].
    intros H'. split; [|done]. by apply (ora_kept_same lib None []  _ _ _ _ _ H').
  - destruct H as (H & Hc & _). apply IH. split; [done|]. by rewrite Hc.
Qed.

Lemma kept_log_in : triple Out (log_in lib) (λ _, Free) Free.
Proof.
  unfold log_in. apply (triple_bind _ _ (λ _, Out)); [by intros s Hs|]. intros info.
  apply (triple_bind _ _ (λ _, Out)).
  { destruct (sempty (ci_database info)); [|by intros s Hs].
    eapply triple_weaken; [apply out_probe|done|done|by intros s []]. }
  intros _. apply (triple_bind _ _ (λ _, Out)); [by intros s Hs|]. intros info'.
  destruct (sempty (ci_database info')); [by intros s []|].
  intros s [Hs Hn]. pose proof (ora_kept_create lib info' [] s Hs) as H. unfold mbind, Eff_bind.
  destruct (on_odpi (createConn lib info') s) as [[c|e|] s1]; [|by destruct H|done].
  destruct H as [H [w ->]]. apply ora_kept_same; [|done]. exact (kept_login lib c [] _ H Hn).
Qed.

Lemma ora_keeps_open : keeps Free (open lib os platform).
Proof.
  unfold open. intros s Hs. unfold get, mbind at 1, Eff_bind at 1. destruct (oc_conn s) as [c|] eqn:Hn; [done|].
  assert (Hout : keeps Out (on_client (getDpiContext os platform true))).
  { intros s' [Hs' Hn']. pose proof (ora_keeps_client None [] (getDpiContext os platform true) s' Hs') as H.
    revert H. unfold on_client. destruct (getDpiContext os platform true (oc_client s')) as [[x|e|] c]; [..|done]; by split. }
  assert (H : triple Out (ctx ← on_client (getDpiContext os platform true);
                          if negb ctx then err ← on_client lastInitError; mret (false, err)
                          else catch (log_in lib) (λ e, mret (false, e))) (λ _, Free) Free).
  { eapply triple_bind; [eapply triple_weaken; [exact Hout|done|done|by intros s' []]|]. intros ctx. simpl.
    destruct ctx; cbn [negb].
    - apply (triple_catch _ _ _ Free); [apply kept_log_in|]. intros e. apply keeps_ret.
    - eapply triple_bind; [eapply triple_weaken; [apply (ora_keeps_client None [])|by intros s' []|done|done]|].
      intros err. apply keeps_ret. }
  by apply H.
Qed.

(** ** Handing out handles *)

Lemma kept_hand_out pend h s :
  Kept lib None pend s → is_Some (oc_handles s !! h) → (∀ k, k ∈ pend → k = h) →
  Free (snd (hand_out h s)).
Proof.
  intros [H1 H2 H3 H4 H5 H6] Hh Hp. split; [done..| | |done].
  - intros k Hk. simpl. destruct (H4 k Hk) as [H|[H|H]]; [by left|right; left; set_solver|].
    right. left. apply Hp in H as ->. set_solver.
  - intros k [H|[H|H]]; [apply H5; by left| |set_solver]. simpl in H.
    apply elem_of_union in H as [->%elem_of_singleton|H]; [done|]. apply H5. by right; left.
Qed.

Lemma kept_make_handle schema s :
  Free s → ∃ s', make_handle schema s = (Done (oc_made s), s') ∧
    Kept lib None [oc_made s] s' ∧ is_Some (oc_handles s' !! oc_made s) ∧ oc_cache s' = oc_cache s.
Proof.
  intros [(X & HX & Ho) H2 H3 H4 H5 H6]. eexists. split; [reflexivity|].
  set (h := oc_made s). set (x := mkOraHandle (oc_info s) schema None).
  assert (Hnew : oc_handles s !! h = None).
  { apply eq_None_not_Some. intros H%H6. unfold h in H. lia. }
  split; [|split; [simpl; rewrite lookup_insert_eq; by eexists|done]].
  assert (Hown : ∀ a o, owner_of (mkOraConnection (oc_client s) (oc_info s) (oc_conn s) (oc_default s) (oc_cache s)
                    (<[h := x]> (oc_handles s)) (oc_held s) (S h) (oc_world s)) a o ↔ owner_of s a o).
  { intros [k|] o; simpl; [|done]. setoid_rewrite lookup_insert_Some. split.
    - intros (y & [[<- <-]|[Hne Hy]] & Hyo); [done|]. by exists y.
    - intros (y & Hy & Hyo). exists y. split; [|done]. right. split; [congruence|done]. }
  split; simpl.
  - exists X. split; [done|]. intros o. rewrite Ho. by setoid_rewrite Hown.
  - intros o a b Ha%Hown Hb%Hown. by apply (H2 o).
  - done.
  - intros k. rewrite lookup_insert_is_Some. intros [<-|[_ Hk]]; [right; right; set_solver|].
    destruct (H4 k Hk) as [H|[H|H]]; [by left|by right; left|set_solver].
  - intros k Hk. rewrite lookup_insert_is_Some. destruct (decide (h = k)) as [|Hne]; [by left|right].
    split; [done|]. by apply H5.
  - intros k. rewrite lookup_insert_is_Some. intros [<-|[_ Hk%H6]]; [unfold h|]; lia.
Qed.

Lemma ora_keeps_openDatabase name : keeps Free (openDatabase name).
Proof.
  unfold openDatabase, isOpen, schema_or_default. apply keeps_bind; [apply ora_keeps_get|].
  intros opened. destruct opened; cbn [negb]; [|apply keeps_ret].
  apply keeps_bind; [apply keeps_bind; [apply ora_keeps_get|intros d; apply keeps_ret]|]. intros n s Hs.
  destruct (kept_make_handle n s Hs) as (s' & E & Hk & Hh & _). unfold mbind at 1, Eff_bind at 1. rewrite E.
  pose proof (kept_hand_out _ _ _ Hk Hh) as H. apply H. set_solver.
Qed.

Lemma kept_cached n h s :
  Kept lib None [h] s → is_Some (oc_handles s !! h) → oc_cache s !! n = None →
  Free (snd (set_cache (insert n h) s)).
Proof.
  intros [H1 H2 H3 H4 H5 H6] Hh Hn. split; [done..| | |done].
  - intros k Hk. destruct (H4 k Hk) as [[m Hm]|[H|H]]; [|by right; left|].
    + left. exists m. simpl. rewrite lookup_insert_ne; [done|]. congruence.
    + left. exists n. simpl. rewrite lookup_insert_eq. set_solver.
  - intros k [[m Hm]|[H|H]]; [|by apply H5; right; left|set_solver]. simpl in Hm.
    apply lookup_insert_Some in Hm as [[_ <-]|[_ Hm]]; [done|]. apply H5. left. by exists m.
Qed.

Lemma ora_keeps_database name : keeps Free (database name).
Proof.
  unfold database, isOpen, schema_or_default. apply keeps_bind; [apply ora_keeps_get|].
  intros opened. destruct opened; cbn [negb]; [|apply keeps_ret].
  apply keeps_bind; [apply keeps_bind; [apply ora_keeps_get|intros d; apply keeps_ret]|]. intros n s Hs.
  unfold get, mbind at 1, Eff_bind at 1. destruct (oc_cache s !! n) as [h|] eqn:Hn.
  - assert (Hh : is_Some (oc_handles s !! h)) by (apply (ke_alive _ _ _ _ Hs); left; by exists n).
    pose proof (kept_hand_out [] h s Hs Hh) as H. apply H. set_solver.
  - destruct (kept_make_handle n s Hs) as (s' & E & Hk & Hh & Hc). unfold mbind, Eff_bind. rewrite E.
    rewrite <-Hc in Hn. pose proof (kept_cached n _ s' Hk Hh Hn) as Hf.
    pose proof (kept_hand_out [] (oc_made s) _ Hf Hh) as H. apply H. set_solver.
Qed.
(** ** Taking handles back *)

(** shares that were the cache's or a caller's are under way *)
Lemma kept_pending pend s cache held :
  Free s →
  (∀ n h, cache !! n = Some h → oc_cache s !! n = Some h) → held ⊆ oc_held s →
  (∀ n h, oc_cache s !! n = Some h → cache !! n = Some h ∨ h ∈ pend) →
  (∀ h, h ∈ oc_held s → h ∈ held ∨ h ∈ pend) →
  Kept lib None pend
    (mkOraConnection (oc_client s) (oc_info s) (oc_conn s) (oc_default s) cache (oc_handles s) held
       (oc_made s) (oc_world s)).
Proof.
  intros [H1 H2 H3 H4 H5 H6] Hc Hh Hc' Hh'. split; [done..| | |done].
  - intros k Hk. destruct (H4 k Hk) as [[n Hn]|[H|H]]; [| |set_solver].
    + destruct (Hc' n k Hn) as [H|H]; [left; by exists n|by right; right].
    + destruct (Hh' k H) as [H'|H']; [by right; left|by right; right].
  - intros k [[n Hn]|[H|H]]; [|apply H5; right; left; by apply Hh|set_solver].
    apply H5. left. exists n. by apply Hc.
Qed.

Lemma ora_keeps_logout : keeps Free
  (conn ← get oc_conn;
   match conn with Some c => on_odpi (release_session c) ;; set_conn None | None => mret tt end).
Proof.
  intros s Hs. unfold get, mbind at 1, Eff_bind at 1. destruct (oc_conn s) as [c|] eqn:Hn; [|done].
  pose proof (kept_released lib c s (λ w, mkOraConnection (oc_client s) (oc_info s) None (oc_default s)
    (oc_cache s) (oc_handles s) (oc_held s) (oc_made s) w) None [] [] Hs Hn) as H.
  unfold mbind, Eff_bind, on_odpi. destruct (release_session c (oc_world s)) as [[[]|e|] w] eqn:E; [|by destruct H..].
  destruct Hs as [H1 H2 H3 H4 H5 H6]. apply H; intros w'.
  - split; [done|]. intros [k|] o; simpl; naive_solver.
  - intros k Hk. split; [by apply H4|by apply H6].
  - intros k Hk. by apply H5.
Qed.

Lemma ora_keeps_close : keeps Free close.
Proof.
  intros s Hs. set (hs := map snd (map_to_list (oc_cache s))).
  set (s1 := mkOraConnection (oc_client s) (oc_info s) (oc_conn s) (oc_default s) ∅ (oc_handles s)
               (oc_held s) (oc_made s) (oc_world s)).
  assert (H1 : Kept lib None (hs ++ []) s1).
  { rewrite app_nil_r. apply kept_pending; [done|by intros n h|done| |by left]. intros n h Hn. right. unfold hs.
    apply (list_elem_of_fmap_2' snd _ (n, h)); [by apply elem_of_map_to_list|done]. }
  assert (H : triple (Kept lib None (hs ++ []))
    (mapM drop_handle hs ;; conn ← get oc_conn;
     match conn with Some c => on_odpi (release_session c) ;; set_conn None | None => mret tt end)
    (λ _, Free) Free); [|by apply (H s1)].
  eapply triple_bind; [apply kept_drops|]. intros u. apply ora_keeps_logout.
Qed.

Lemma ora_keeps_forget name : keeps Free (forget name).
Proof.
  intros s Hs. unfold forget, get, mbind, Eff_bind, set_cache. destruct (oc_cache s !! name) as [h|] eqn:Hn.
  - apply ora_kept_drop with (E := Free). apply kept_pending; [done| |done| |by left].
    + intros n k. by intros [_ ?]%lookup_delete_Some.
    + intros n k Hk. destruct (decide (n = name)) as [->|Hne]; [right; set_solver|left].
      by rewrite lookup_delete_ne.
  - apply kept_pending; [done| |done| |by left].
    + intros n k. by intros [_ ?]%lookup_delete_Some.
    + intros n k Hk. left. rewrite lookup_delete_ne; [done|]. congruence.
Qed.

Lemma ora_keeps_release h : keeps Free (release h).
Proof.
  intros s Hs. unfold release, set_held, mbind, Eff_bind.
  apply ora_kept_drop with (E := Free). apply kept_pending; [done|done|set_solver|by left|].
  intros k Hk. destruct (decide (k = h)); set_solver.
Qed.

(** a statement of the connection's own session *)
Lemma ora_keeps_own c sql : keeps (λ s, Free s ∧ oc_conn s = Some c) (on_odpi (runQuery lib fuel c sql 0)).
Proof.
  intros s [Hs Hn].
  pose proof (kept_owned lib (runQuery lib fuel c sql 0) None c [] s Hn
    (λ X HX, always_keeps _ _ (od_keeps_run lib fuel _ c sql 0 (sessions_exists X c HX))) Hs) as H.
  revert H. unfold on_odpi. destruct (runQuery lib fuel c sql 0 (oc_world s)) as [[r|e|] w]; [..|done]; by split.
Qed.

Lemma ora_keeps_conn {A} (none : OraM A) (some : nat → OraM A) :
  keeps Free none → (∀ c, keeps (λ s, Free s ∧ oc_conn s = Some c) (some c)) →
  keeps Free (conn ← get oc_conn; match conn with None => none | Some c => some c end).
Proof.
  intros Hnone Hsome s Hs. unfold get, mbind, Eff_bind. destruct (oc_conn s) as [c|] eqn:Hn; [|by apply Hnone].
  pose proof (Hsome c s (conj Hs Hn)) as H. destruct (some c s) as [[x|e|] s']; [..|done]; by destruct H.
Qed.

Lemma ora_keeps_create opts : keeps Free (createDatabase lib fuel opts).
Proof.
  unfold createDatabase. destruct (sempty (cd_name opts)); [apply keeps_ret|].
  apply ora_keeps_conn; [apply keeps_ret|]. intros c. apply keeps_bind; [apply ora_keeps_own|]. intros r.
  destruct (qr_success r); cbn [negb]; [|apply keeps_ret].
  apply keeps_bind; [apply ora_keeps_own|]. intros u. apply keeps_ret.
Qed.

Lemma ora_keeps_drop name : keeps Free (dropDatabase lib fuel name).
Proof.
  unfold dropDatabase. apply keeps_bind; [apply ora_keeps_forget|]. intros _.
  apply ora_keeps_conn; [apply keeps_ret|]. intros c. apply keeps_bind; [apply ora_keeps_own|]. intros r.
  apply keeps_ret.
Qed.

Lemma ora_keeps_databases : keeps Free (databases lib fuel).
Proof.
  intros s Hs. unfold databases, get, mbind at 1, Eff_bind at 1. destruct (oc_conn s) as [c|] eqn:Hn; [|done].
  pose proof (kept_owned lib (queryRows lib fuel c owners_sql) None c [] s Hn
    (λ X HX, od_keeps_rows lib fuel _ c owners_sql (sessions_exists X c HX)) Hs) as H.
  unfold mbind, Eff_bind. destruct (on_odpi (queryRows _ _ _ _) s) as [[rows|e|] s1]; [|done..].
  apply (keeps_mapM Free database); [|done]. intros name. apply ora_keeps_database.
Qed.

Lemma ora_keeps_held h (m : OraHandle → OraM unit) :
  (∀ x s, Free s → oc_handles s !! h = Some x → match m x s with
     | (Done _, s') | (Throws _, s') => Free s' | (Hangs, _) => True end) →
  keeps Free (held_only h m).
Proof.
  intros Hm s Hs. unfold held_only. case_decide; [|done]. destruct (oc_handles s !! h) as [x|] eqn:Hx; [|done].
  by apply Hm.
Qed.

Lemma ora_keeps_perform op : keeps Free (perform op).
Proof.
  destruct op; cbn [perform]; try apply ora_keeps_ignore.
  - apply ora_keeps_open.
  - apply ora_keeps_close.
  - apply ora_keeps_database.
  - apply ora_keeps_openDatabase.
  - apply ora_keeps_databases.
  - apply ora_keeps_create.
  - apply ora_keeps_drop.
  - apply ora_keeps_held. intros x s Hs Hx.
    pose proof (at_use h x u s ltac:(split; [done|by eexists])) as H.
    destruct (perform_use h x u s) as [[y|e|] s']; [..|done]; by destruct H.
  - apply ora_keeps_held. intros x s Hs _. by apply ora_keeps_release.
Qed.
End program.

(** C25: Oracle sessions have one owner each.  After any operations of a connection and of the
    handles it gives out, logins and switches of schema that fail included, no session or
    statement was used after its release or released twice, no session was released with a
    statement of its own left; the sessions that exist are the connection's and those of the
    handles that exist, one each and none shared, no statement is left, and the handles that
    exist are those that the cache or a caller owns. *)
Theorem oracle_sessions lib os platform fuel client info ops s :
  run_all (perform lib os platform fuel) ops (new_connection client info) = Some s →
  ∃ objects, Objects.alive (od_actions lib) (w_log (oc_world s)) = Some objects ∧
    (∀ o p, objects !! o = Some p ↔ p = None ∧ ∃ a, owner_of s a o) ∧
    (∀ o a b, owner_of s a o → owner_of s b o → a = b) ∧
    ∀ h, is_Some (oc_handles s !! h) ↔ (∃ n, oc_cache s !! n = Some h) ∨ h ∈ oc_held s.
Proof.
  intros Hrun.
  assert (Hs : Kept lib None [] s).
  { eapply run_all_keeps; [intros op; apply ora_keeps_perform|apply kept_new|exact Hrun]. }
  destruct Hs as [(X & [HL _] & Ho) H2 _ H4 H5 _]. eexists. split; [exact HL|]. split_and!.
  - intros o p. rewrite lookup_gset_to_gmap_Some, Ho. split; [|naive_solver].
    intros [[[=]|H] <-]. by split.
  - exact H2.
  - intros h. split.
    + intros Hh. destruct (H4 h Hh) as [H|[H|H]]; [by left|by right|set_solver].
    + intros [H|H]; apply H5; [by left|by right; left].
Qed.

(** ** A sample server

    Each query has one column and one row; a switch of the schema may be refused. *)

Definition last_text (log : OdLog) : string :=
  foldl (λ t e, match e with OdPrepare _ _ sql => sql | _ => t end) "" log.

Definition sample_odpi (refuses : bool) : Odpi :=
  mkOdpi (λ _, true) (λ _, true) (λ _, true) (λ log, starts_with "SELECT" (last_text log))
    (λ log, if starts_with "SELECT" (last_text log) then Some 1
            else if refuses && starts_with "ALTER" (last_text log) then None else Some 0)
    (λ _, ("N", false))
    (λ log, match reverse log with
            | OdFetch _ :: OdFetch _ :: _ => FetchNone
            | _ => FetchRow [OdBytes "EMP"]
            end)
    (λ _, 0%Z) (λ _, "ORA-01435: user does not exist") (λ _ _, false).

Definition sample_os : Os :=
  mkOs (λ _, Some "/home/ann") (λ _, inr true) (λ _, []) (λ _, None) (λ _, None) (λ _, true) (λ _, true)
    (λ _, 0%Z) (λ _, []) (λ _, Some 200%Z) (λ _, false) (λ _, None) (λ _, false) (λ _, None).

Definition sample_info : ConnectionInfo :=
  mkConnectionInfo ORACLE "payroll" "" "db.local" 1521 "XE" "ann" "secret" false Disable "" false.

Definition sample_ops : list ora_op :=
  [OpOpen; OpDatabase "HR"; OpUse 0 (UseExecute "SELECT 1 FROM DUAL" 0); OpOpenDatabase "";
   OpUse 1 (UseExecute "SELECT 2 FROM DUAL" 5); OpClose; OpRelease 1].

Definition sample_state (refuses : bool) : OraConnection :=
  default (new_connection new_client sample_info)
    (run_all (perform (sample_odpi refuses) sample_os MacX64 60) sample_ops
       (new_connection new_client sample_info)).

(** the handle that is still held keeps its session behind [close]; one whose switch of the schema
    was refused has none *)
Lemma oracle_sessions_witness :
  (oc_conn (sample_state false), oh_conn <$> oc_handles (sample_state false) !! 0,
   oh_conn <$> oc_handles (sample_state true) !! 0, oc_handles (sample_state false) !! 1) =
  (None, Some (Some 1), Some None, None) ∧
  ∃ objects, Objects.alive (od_actions (sample_odpi true)) (w_log (oc_world (sample_state true))) = Some objects ∧
    ∀ o p, objects !! o = Some p ↔ p = None ∧ ∃ a, owner_of (sample_state true) a o.
Proof.
  split; [vm_compute; reflexivity|].
  destruct (oracle_sessions (sample_odpi true) sample_os MacX64 60 new_client sample_info sample_ops (sample_state true))
    as (objects & Ha & Ho & _); [vm_compute; reflexivity|].
  exact (ex_intro _ objects (conj Ha Ho)).
Defined.
