(* ===== verification/OracleResults.v ===== *)
(** * The Oracle backend: properties of results

    What [runQuery] sends and reports. *)

From S2P Require Import Prelude Types Effects Objects Database Rows Oracle.

Section results.
Context (lib : Odpi).

(** ** The rows of a statement *)

(** the rows that the fetches among [events] give, behind [log] *)
Fixpoint given (log events : OdLog) : list (list od_value) :=
  match events with
  | [] => []
  | e :: events =>
      match e with
      | OdFetch _ => match od_fetch lib (log ++ [e]) with FetchRow row => [row] | _ => [] end
      | _ => []
      end ++ given (log ++ [e]) events
  end.

(** from [log] on, the rows of [s] end within [n] fetches *)
Definition rows_within (n : nat) (log : OdLog) (s : nat) : Prop :=
  ∃ k, k < n ∧ ∀ row, od_fetch lib (log ++ repeat (OdFetch s) (S k)) ≠ FetchRow row.

(** there is a limit on the rows, or they end *)
Definition rows_end (rowLimit : Z) (fuel : nat) : Prop :=
  ((0 < rowLimit)%Z ∧ Z.to_nat rowLimit < fuel) ∨ ∀ log s, rows_within fuel log s.

(** the fetches end by themselves or at the limit *)
Lemma fetch_ends n s columns rowLimit kept w :
  ((0 < rowLimit)%Z ∧ Z.to_nat rowLimit - length kept < n) ∨ rows_within n (w_log w) s →
  ((0 < rowLimit)%Z → (Z.of_nat (length kept) <= rowLimit)%Z) →
  ∃ k new, fetch_loop lib n s columns rowLimit kept w =
      (Done (kept ++ map (row_text columns) new), mkWorld (w_log w ++ repeat (OdFetch s) k) (w_made w)) ∧
    new = given (w_log w) (repeat (OdFetch s) k) ∧
    ((0 < rowLimit)%Z → (Z.of_nat (length kept + length new) <= rowLimit)%Z) ∧
    (((0 < rowLimit)%Z ∧ Z.of_nat (length kept + length new) = rowLimit) ∨
     (k = S (length new) ∧ ∀ row, od_fetch lib (w_log w ++ repeat (OdFetch s) k) ≠ FetchRow row)).
Proof.
  revert kept w. induction n as [|n IH]; intros kept w Hn Hl; cbn [fetch_loop].
  { exfalso. destruct Hn as [[_ Hn]|(k & Hk & _)]; lia. }
  destruct (below_limit rowLimit (length kept)) eqn:Eb.
  - rewrite below_limit_spec in Eb. unfold call, mbind, Eff_bind.
    destruct (od_fetch lib (w_log w ++ [OdFetch s])) as [row| |] eqn:Er.
    2-3: exists 1, []; simpl; rewrite app_nil_r, Er; split_and!; [done|done|intros; specialize (Hl ltac:(done)); lia|];
      right; split; [done|]; by intros row.
    destruct (IH (kept ++ [row_text columns row]) (mkWorld (w_log w ++ [OdFetch s]) (w_made w)))
      as (k & new & E & Hg & Hb & Hend).
    + rewrite length_app. simpl. destruct Hn as [[? ?]|(k & Hk & Hnone)]; [left; split; [done|lia]|right].
      destruct k as [|k]; [by destruct (Hnone row)|]. exists k. split; [lia|]. intros row'.
      specialize (Hnone row'). simpl in Hnone. by rewrite <-app_assoc.
    + intros Hpos. rewrite length_app. simpl. specialize (Eb Hpos). lia.
    + exists (S k), (row :: new). simpl in *. rewrite E, Er, <-!app_assoc. rewrite length_app in Hb, Hend. simpl in *.
      split_and!; [done|by rewrite Hg|intros Hpos; specialize (Hb Hpos); lia|].
      destruct Hend as [[? ?]|[-> Hnone]]; [left; split; [done|lia]|right]. split; [done|].
      intros row'. specialize (Hnone row'). simpl in Hnone. by rewrite <-app_assoc in Hnone.
  - exists 0, []. simpl. rewrite !app_nil_r. destruct w as [log made]. split_and!; [done|done|intros Hpos|left].
    + specialize (Hl Hpos). lia.
    + apply not_true_iff_false in Eb. rewrite below_limit_spec in Eb.
      destruct (decide (0 < rowLimit)%Z) as [Hpos|]; [|tauto]. specialize (Hl Hpos). lia.
Qed.
(** ** The columns of a statement *)

(** their names, and the log when they are read *)
Fixpoint read_columns (log : OdLog) (s : nat) (positions : list nat) : list string * OdLog :=
  match positions with
  | [] => ([], log)
  | i :: positions =>
      let described := log ++ [OdColumn s i] in
      let '(name, clob) := od_column lib described in
      let '(names, log') := read_columns (if clob then described ++ [OdDefine s i] else described) s positions in
      (name :: names, log')
  end.

Lemma column_read s i w :
  column lib s i w =
  let described := w_log w ++ [OdColumn s i] in
  (Done (fst (od_column lib described)),
   mkWorld (if snd (od_column lib described) then described ++ [OdDefine s i] else described) (w_made w)).
Proof.
  unfold column, call, mbind, Eff_bind. cbn zeta.
  by destruct (od_column lib (w_log w ++ [OdColumn s i])) as [name [|]].
Qed.

Lemma columns_read s positions w :
  mapM (column lib s) positions w =
  (Done (fst (read_columns (w_log w) s positions)),
   mkWorld (snd (read_columns (w_log w) s positions)) (w_made w)).
Proof.
  revert w. induction positions as [|i positions IH]; intros w; [by destruct w|].
  change (mapM (column lib s) (i :: positions))
    with (x ← column lib s i; k ← mapM (column lib s) positions; mret (x :: k)).
  unfold mbind at 1, Eff_bind at 1. rewrite column_read. cbn zeta iota beta.
  unfold mbind, Eff_bind. rewrite IH. cbn [read_columns w_log w_made].
  destruct (od_column lib (w_log w ++ [OdColumn s i])) as [name clob]. cbn [fst snd].
  by destruct (read_columns _ s positions).
Qed.

Lemma read_columns_length log s positions :
  length (fst (read_columns log s positions)) = length positions.
Proof.
  revert log. induction positions as [|i positions IH]; intros log; simpl; [done|].
  destruct (od_column lib _) as [name clob].
  specialize (IH (if clob then (log ++ [OdColumn s i]) ++ [OdDefine s i] else log ++ [OdColumn s i])).
  destruct (read_columns _ s positions). simpl in *. by rewrite IH.
Qed.

Lemma report_rows fuel s n rowLimit log made :
  report lib fuel s (S n) rowLimit (mkWorld log made) =
  let names := fst (read_columns log s (seq 1 (S n))) in
  (rows ← fetch_loop lib fuel s names rowLimit [];
   mret (mkStatementResult true "" names rows 0 (rows_message rowLimit (length rows))))
    (mkWorld (snd (read_columns log s (seq 1 (S n)))) made).
Proof. unfold report. cbn [Nat.eqb]. unfold mbind at 1, Eff_bind at 1. by rewrite columns_read. Qed.
End results.

(** C27: Running an Oracle statement.  A statement whose rows end, or that has a limit, is run to
    its end: it is prepared once, executed once, with a commit exactly when it is no query, and
    released; a failure to prepare or to execute is the one report, with the error's message.
    Without columns the report has the rows affected; with columns it has their names, in order,
    and exactly the rows that the fetches gave, in order, a cell per column, never more than the
    limit; the fetches stop at the limit or with the first that gives no row. *)
Theorem oracle_execute lib fuel c sql rowLimit w :
  rows_end lib rowLimit fuel →
  let s := w_made w in
  let prep := w_log w ++ [OdPrepare s c sql] in
  let ran := prep ++ [OdInfo s; OdExecute s (negb (od_isQuery lib (prep ++ [OdInfo s])))] in
  ∃ r log, runQuery lib fuel c sql rowLimit w = (Done r, mkWorld log (S s)) ∧
    if negb (od_prepare lib prep) then
      r = one_failure (od_error lib (prep ++ [OdError])) ∧ log = prep ++ [OdError]
    else
      match od_execute lib ran with
      | None => r = one_failure (od_error lib (ran ++ [OdError])) ∧ log = ran ++ [OdError; OdRelease s]
      | Some 0 =>
          let n := od_rowCount lib (ran ++ [OdRowCount s]) in
          r = mkQueryResult [mkStatementResult true "" [] [] (to_int n) (affected_message n)] [] ∧
          log = ran ++ [OdRowCount s; OdRelease s]
      | Some columns =>
          let names := fst (read_columns lib ran s (seq 1 columns)) in
          let described := snd (read_columns lib ran s (seq 1 columns)) in
          ∃ k rows, rows = given lib described (repeat (OdFetch s) k) ∧
            r = mkQueryResult [mkStatementResult true "" names (map (row_text names) rows) 0
                                 (rows_message rowLimit (length rows))] [] ∧
            log = described ++ repeat (OdFetch s) k ++ [OdRelease s] ∧
            length names = columns ∧ ((0 < rowLimit)%Z → (Z.of_nat (length rows) <= rowLimit)%Z) ∧
            (((0 < rowLimit)%Z ∧ Z.of_nat (length rows) = rowLimit) ∨
             ∀ row, od_fetch lib (described ++ repeat (OdFetch s) k) ≠ FetchRow row)
      end.
Proof.
  intros He. cbn zeta.
  unfold runQuery, dpiErrText, finally, release_statement, fresh, call, mbind, Eff_bind. cbn [w_log w_made].
  set (s := w_made w). set (prep := w_log w ++ [OdPrepare s c sql]).
  destruct (od_prepare lib prep); cbn [negb].
  2: eexists _, _; split; [reflexivity|]; split; reflexivity.
  cbn [w_log w_made].
  replace ((prep ++ [OdInfo s]) ++ [OdExecute s (negb (od_isQuery lib (prep ++ [OdInfo s])))])
    with (prep ++ [OdInfo s; OdExecute s (negb (od_isQuery lib (prep ++ [OdInfo s])))]) by (by rewrite <-app_assoc).
  set (ran := prep ++ [OdInfo s; _]).
  destruct (od_execute lib ran) as [[|n]|].
  - eexists _, _. split; [reflexivity|]. split; [done|]. simpl. by rewrite <-app_assoc.
  - rewrite report_rows. cbn zeta. set (r := read_columns lib ran s (seq 1 (S n))).
    unfold mbind, Eff_bind.
    destruct (fetch_ends lib fuel s (fst r) rowLimit [] (mkWorld (snd r) (S s))) as (k & rows & E & Hg & Hb & Hend).
    + destruct He as [[? ?]|He]; [left; split; [done|simpl; lia]|right; apply He].
    + simpl. lia.
    + rewrite E. cbn [w_log w_made app]. eexists _, _. split; [reflexivity|]. exists k, rows.
      split_and!; [exact Hg|by rewrite length_map|symmetry; apply app_assoc| |exact Hb|].
      * unfold r. by rewrite read_columns_length, length_seq.
      * destruct Hend as [H|[_ H]]; [by left|by right].
  - eexists _, _. split; [reflexivity|]. split; [done|]. simpl. by rewrite <-app_assoc.
Qed.

(** ** A sample statement *)

Definition sample_fetch (log : OdLog) : od_fetched :=
  match reverse log with
  | OdFetch _ :: OdFetch _ :: OdFetch _ :: _ => FetchFails
  | _ => FetchRow [OdInt64 7; OdTimestamp 2024 2 9 8 30 5]
  end.

Definition sample_query : Odpi :=
  mkOdpi (λ _, true) (λ _, true) (λ _, true) (λ _, true) (λ _, Some 2)
    (λ log, match last log with Some (OdColumn _ 1) => ("ID", false) | _ => ("AT", true) end)
    sample_fetch (λ _, 0%Z) (λ _, "ORA-03113") (λ _ _, false).

Lemma sample_limited : rows_end sample_query 2 10.
Proof. left. split; [lia|]. vm_compute. lia. Qed.

(** two rows of a query with a limit of two *)
Lemma oracle_execute_witness :
  (map sr_tableData (match fst (runQuery sample_query 10 0 "SELECT * FROM T" 2 new_world) with
                     | Done r => qr_statements r | _ => [] end)) =
    [[["7"; "2024-02-09 08:30:05"]; ["7"; "2024-02-09 08:30:05"]]] ∧
  ∃ r log, runQuery sample_query 10 0 "SELECT * FROM T" 2 new_world = (Done r, mkWorld log 1).
Proof.
  split; [vm_compute; reflexivity|].
  destruct (oracle_execute sample_query 10 0 "SELECT * FROM T" 2 new_world sample_limited) as (r & log & E & _).
  exact (ex_intro _ r (ex_intro _ log E)).
Defined.
