(* ===== verification/OracleInstallProps.v ===== *)
(** * The installer of the Oracle client: properties

    What an installation leaves behind, however it ends. *)

From S2P Require Import Prelude Types Effects Objects ConnectionInfo Database OracleInstaller.

(** what a run amounts to: the files it opened and did not remove, the downloads of the client,
    whether it saw the client's library, and the last answer of the host to [shouldCancel] *)
Record Trace := mkTrace {
  tr_files : gset string;
  tr_downloads : nat;
  tr_library : bool;
  tr_stop : bool
}.

Definition no_trace : Trace := mkTrace ∅ 0 false false.

Section traces.
Context (os : Os) (platform : Platform).

(** a path of the client's library *)
Definition library_path (path : string) : bool :=
  match library_name platform with Some l => starts_with (srev l) (srev path) | None => false end.

Definition trace_step (log : OsLog) (e : os_event) (t : Trace) : Trace :=
  let '(mkTrace files downloads library stop) := t in
  match e with
  | OsOpen p => mkTrace (if os_opened os log then {[p]} ∪ files else files) downloads library stop
  | OsRemove p => mkTrace (files ∖ {[p]}) downloads library stop
  | OsGet url => mkTrace files (if (url =? downloadUrl platform)%string then S downloads else downloads) library stop
  | OsExists p =>
      mkTrace files downloads
        (library || library_path p && match os_exists os log with inr b => b | inl _ => false end) stop
  | OsCancelled => mkTrace files downloads library (os_cancelled os log)
  | _ => t
  end.

(** the trace of the events after [log] *)
Definition trace (log events : OsLog) : Trace := replay_from trace_step log events no_trace.

Context (log0 : OsLog).

(** since [log0]: at most these files are left, at most [n] downloads were made, the library was
    seen if [seen], and the host did not ask to stop if [going] *)
Definition Traced (files : gset string) (n : nat) (seen going : Prop) (i : Installer) : Prop :=
  ∃ events, w_log (in_world i) = log0 ++ events ∧
    let t := trace log0 events in
    tr_files t ⊆ files ∧ tr_downloads t ≤ n ∧ (seen → tr_library t = true) ∧ (going → tr_stop t = false).

Lemma traced_ask {A} e (answer : OsLog → A) X n seen going X' n' (seen' going' : A → Prop) E :
  (∀ log t, tr_files t ⊆ X → tr_downloads t ≤ n → (seen → tr_library t = true) →
     (going → tr_stop t = false) →
     let x := answer (log ++ [e]) in
     let t' := trace_step (log ++ [e]) e t in
     tr_files t' ⊆ X' x ∧ tr_downloads t' ≤ n' ∧ (seen' x → tr_library t' = true) ∧
     (going' x → tr_stop t' = false)) →
  triple (Traced X n seen going) (ask e answer) (λ x, Traced (X' x) n' (seen' x) (going' x)) E.
Proof.
  intros Hstep i (events & Hl & Hx & Hn & Hs & Hg).
  unfold ask, on_os, call. exists (events ++ [e]). cbn [in_world w_log]. rewrite Hl. split; [by rewrite <-app_assoc|].
  unfold trace. rewrite replay_snoc, app_assoc. by apply Hstep.
Qed.

(** a call that the trace does not tell *)
Definition untold (e : os_event) : bool :=
  match e with OsOpen _ | OsRemove _ | OsGet _ | OsExists _ | OsCancelled => false | _ => true end.

Lemma traced_untold {A} e (answer : OsLog → A) X n seen going :
  untold e = true → always (Traced X n seen going) (ask e answer).
Proof. intros He. apply (traced_ask _ _ _ _ _ _ (λ _, X)). intros log [] ????. by destruct e. Qed.

Lemma traced_exists path X n seen going :
  keeps (Traced X n seen going) (exists_path os path).
Proof.
  unfold exists_path. apply keeps_bind; [|by intros [e|b]; [apply keeps_throws|apply keeps_ret]].
  apply (traced_ask _ _ _ _ _ _ (λ _, X)). intros log [files d l s]; simpl. intros ?? Hl ?. split_and!; [done..| |done].
  intros Hs. by rewrite (Hl Hs).
Qed.

(** a file that is removed *)
Lemma traced_remove p X n seen going E :
  triple (Traced ({[p]} ∪ X) n seen going) (try_os os (OsRemove p)) (λ _, Traced X n seen going) E.
Proof.
  unfold try_os. apply (traced_ask _ _ _ _ _ _ (λ _, X)). intros log [files d l s]; simpl. intros ????. split_and!; [set_solver|done..].
Qed.

Lemma traced_removed p X n seen going : keeps (Traced X n seen going) (try_os os (OsRemove p)).
Proof.
  unfold try_os. apply (traced_ask _ _ _ _ _ _ (λ _, X)). intros log [files d l s]; simpl. intros ????. split_and!; [set_solver|done..].
Qed.

Lemma traced_try e X n seen going :
  untold e = true → always (Traced X n seen going) (try_os os e).
Proof. apply traced_untold. Qed.

Lemma traced_cached d X n seen going : keeps (Traced X n seen going) (set_cachedDir d).
Proof. by intros i Hi. Qed.
Lemma traced_get_cached X n seen going : keeps (Traced X n seen going) get_cachedDir.
Proof. by intros i Hi. Qed.
Lemma traced_get_root X n seen going : keeps (Traced X n seen going) get_installRoot.
Proof. by intros i Hi. Qed.
End traces.

#[export] Hint Resolve traced_exists traced_removed traced_cached traced_get_cached traced_get_root : keeps.
#[export] Hint Extern 1 (keeps (Traced _ _ _ _ _ _ _) (ask _ _)) => apply always_keeps, traced_untold; reflexivity : keeps.
#[export] Hint Extern 1 (always (Traced _ _ _ _ _ _ _) (ask _ _)) => apply traced_untold; reflexivity : keeps.
#[export] Hint Extern 1 (keeps (Traced _ _ _ _ _ _ _) (try_os _ _)) => apply always_keeps, traced_try; reflexivity : keeps.
#[export] Hint Extern 1 (always (Traced _ _ _ _ _ _ _) (try_os _ _)) => apply traced_try; reflexivity : keeps.
#[export] Hint Extern 1 (keeps (Traced _ _ _ _ _ _ _) (tell _)) => apply always_keeps, traced_untold; reflexivity : keeps.
#[export] Hint Extern 1 (always (Traced _ _ _ _ _ _ _) (tell _)) => apply traced_untold; reflexivity : keeps.

Section operations.
Context (os : Os) (platform : Platform) (log0 : OsLog).

Notation T := (Traced os platform log0).

(** ** Where the client is *)

Lemma traced_installDir X n seen going : keeps (T X n seen going) (installDir os platform).
Proof. unfold installDir, baseDir, getenv, cache_dir. keeping. Qed.

Lemma traced_baseDir X n seen going : keeps (T X n seen going) (baseDir os platform).
Proof. unfold baseDir, getenv. keeping. Qed.

(** an installed client was seen *)
Lemma traced_installed X n seen going :
  triple (T X n seen going) (isInstalled os platform)
    (λ b, T X n (seen ∨ b = true) going) (T X n seen going).
Proof.
  assert (Hno : ∀ i, T X n seen going i → T X n (seen ∨ false = true) going i).
  { intros i (events & Hl & Hx & Hn & Hs & Hg). exists events. do 3 (split; [done|]). split; [|done].
    intros [H|[=]]. by apply Hs. }
  unfold isInstalled. eapply triple_bind; [apply traced_installDir|]. intros dir.
  eapply triple_bind; [apply traced_exists|]. intros []; cbn [negb]; [|intros i Hi; by apply Hno].
  destruct (library_name platform) as [l|] eqn:El; [|intros i Hi; by apply Hno].
  unfold exists_path. eapply (triple_bind _ _ (λ r, T X n (seen ∨ r = inr true) going)).
  - apply (traced_ask _ _ _ _ _ _ _ _ _ (λ _, X)). intros log [files d lib s]; simpl. intros Hx Hn Hs Hg.
    assert (Hp : library_path platform (join dir l) = true).
    { unfold library_path. rewrite El. unfold join. destruct (_ || _); rewrite !srev_concat, ?sapp_assoc; apply starts_with_app. }
    split_and!; [done..| |done]. rewrite Hp. destruct lib; [done|].
    intros [Hs'|E]; [by specialize (Hs Hs')|by rewrite E].
  - intros [e|b] i (events & Hl & Hx & Hn & Hs & Hg); exists events; do 3 (split; [done|]);
      (split; [|done]); [intros H; apply Hs; by left|].
    intros [H|H]; apply Hs; [by left|by right; rewrite H].
Qed.

(** what holds of the trace holds in a weaker form *)
Lemma traced_weaken X X' n n' (seen seen' going going' : Prop) i :
  T X n seen going i → X ⊆ X' → n <= n' → (seen' → seen) → (going' → going) → T X' n' seen' going' i.
Proof.
  intros (events & Hl & Hx & Hn & Hs & Hg) HX Hn' Hs' Hg'. exists events.
  split; [done|]. split; [set_solver|]. split; [lia|]. split; auto.
Qed.

(** in a weaker form, by weaker members *)
Ltac weakening :=
  let i := fresh "i" in let Hi := fresh "Hi" in
  intros i Hi; eapply traced_weaken; [exact Hi|set_solver|lia|naive_solver|naive_solver].

(** ** Downloads *)

(** the bytes of a download concern nothing but its file *)
Lemma receive_always P (stop : InM bool) progress path steps written :
  always P stop → (∀ current total, always P (progress current total)) →
  (∀ data, always P (ask (OsWrite path data) (os_written os))) →
  always P (receive os stop progress path steps written).
Proof.
  intros Hstop Hprogress Hwrite. revert written. induction steps as [|[data|current total] steps IH]; intros written;
    cbn [receive]; [apply always_ret| |].
  - apply always_bind; [done|]. intros [|]; [apply always_ret|]. apply always_bind; [apply Hwrite|].
    intros [|]; cbn [negb]; [apply IH|apply always_ret].
  - apply always_bind; [apply Hprogress|]. intros _. apply IH.
Qed.

Lemma traced_download X n n' seen going (stop : InM bool) progress url path :
  n + (if (url =? downloadUrl platform)%string then 1 else 0) <= n' →
  always (T X n' seen going) stop → (∀ current total, always (T X n' seen going) (progress current total)) →
  triple (T X n seen going) (download os stop progress url path) (λ _, T X n' seen going) (λ _, False).
Proof.
  intros Hn Hstop Hprogress. unfold download. apply (triple_bind _ _ (λ _, T X n' seen going)).
  - apply (traced_ask _ _ _ _ _ _ _ _ _ (λ _, X) n' (λ _, seen) (λ _, going)). intros log [files d l s]; simpl. intros ????.
    split_and!; [done| |done..]. destruct (_ =? _)%string; lia.
  - intros steps. change (always (T X n' seen going) (written ← receive os stop progress path steps 0;
      status ← ask OsResponse (os_status os); mret (written, status))).
    apply always_bind; [apply receive_always; [done..|]; intros data; by apply traced_untold|]. intros written.
    apply always_bind; [by apply traced_untold|]. intros status. apply always_ret.
Qed.

(** ** [libaio] *)

Lemma traced_soname file X n seen going : keeps (T X n seen going) (hasCorrectLibaioSoname os file).
Proof. unfold hasCorrectLibaioSoname. keeping. Qed.

Lemma traced_copy candidates target X n seen going :
  keeps (T X n seen going) (copy_libaio os candidates target).
Proof.
  induction candidates as [|c candidates IH]; cbn [copy_libaio]; [apply keeps_ret|].
  apply keeps_bind; [apply traced_exists|]. intros [|]; cbn [negb]; [|done].
  apply keeps_bind; [by apply always_keeps, traced_untold|]. intros [file|]; [|done].
  apply keeps_bind; [apply traced_soname|]. intros [|]; cbn [negb]; [|done].
  apply keeps_bind; [by apply always_keeps, traced_try|]. intros [e|]; [done|apply keeps_ret].
Qed.

(** a file that was opened, or not *)
Lemma traced_open file X n seen going E :
  triple (T X n seen going) (ask (OsOpen file) (os_opened os))
    (λ b, T (if b : bool then {[file]} ∪ X else X) n seen going) E.
Proof.
  apply (traced_ask _ _ _ _ _ _ _ _ _ (λ b : bool, if b then {[file]} ∪ X else X) n (λ _, seen) (λ _, going)).
  intros log [files d l s]; simpl. intros ????.
  destruct (os_opened os (log ++ [OsOpen file])); split_and!; try done. set_solver.
Qed.

(** the package is no download of the client, and is removed *)
Lemma traced_download_libaio dir X n seen going : keeps (T X n seen going) (downloadLibaio os platform dir).
Proof.
  unfold downloadLibaio. destruct (libaio_arch platform) as [[arch libPath]|]; [|apply keeps_ret].
  set (name := "libaio1_0.3.112-13build1_" +:+ arch +:+ ".deb"). set (file := join dir name).
  eapply triple_bind; [apply traced_open|]. intros [|]; cbn [negb]; [|apply keeps_ret].
  apply (triple_bind _ _ (λ _, T ({[file]} ∪ X) n seen going)).
  { eapply triple_weaken; [apply (traced_download ({[file]} ∪ X) n n seen going)|done|done|by intros i []];
      [|apply always_ret|intros ??; apply always_ret]. destruct (_ =? _)%string eqn:E; [|lia]. exfalso. revert E. by destruct platform. }
  intros got. destruct (_ || _).
  - apply (triple_bind _ _ (λ _, T X n seen going)); [apply traced_remove|]. intros _. apply keeps_ret.
  - apply (triple_bind _ _ (λ _, T ({[file]} ∪ X) n seen going)).
    { eapply triple_weaken; [by apply traced_untold|done|done|by intros i []]. }
    intros ret. apply (triple_bind _ _ (λ _, T X n seen going)); [apply traced_remove|]. intros _. as_keeps. keeping.
Qed.

Lemma traced_ensure dir X n seen going : keeps (T X n seen going) (ensureLibaioImpl os platform dir).
Proof.
  unfold ensureLibaioImpl. cbn zeta.
  assert (Hf : keeps (T X n seen going)
    (copied ← copy_libaio os libaio_candidates (join dir "libaio.so.1");
     if copied : bool then mret tt else downloadLibaio os platform dir ;; mret tt)).
  { apply keeps_bind; [apply traced_copy|]. intros [|]; [apply keeps_ret|].
    apply keeps_bind; [apply traced_download_libaio|]. keeping. }
  apply keeps_bind; [apply traced_exists|]. intros [|]; cbn [negb]; [|done].
  apply keeps_bind; [apply traced_soname|]. intros [|]; [apply keeps_ret|].
  apply keeps_bind; [apply traced_removed|]. by intros _.
Qed.

(** ** The installation *)

Context (onProgress shouldCancel : bool).

Lemma traced_notify phase d t m X n seen going :
  always (T X n seen going) (notify onProgress phase d t m).
Proof. unfold notify. destruct onProgress; [by apply traced_untold|apply always_ret]. Qed.

(** a host that cannot ask never did *)
Notation quiet := (shouldCancel = false).

Lemma traced_poll X n seen E :
  triple (T X n seen quiet) (cancelled os shouldCancel) (λ b, T X n seen (b = false)) E.
Proof.
  unfold cancelled. destruct shouldCancel; [|by intros i Hi].
  apply (traced_ask _ _ _ _ _ _ _ _ _ (λ _, X) n (λ _, seen) (λ b, b = false)).
  by intros log [files d l s]; simpl.
Qed.

Lemma traced_polls X n seen : always (T X n seen quiet) (cancelled os shouldCancel).
Proof.
  intros i Hi. pose proof (traced_poll X n seen (λ _, False) i Hi) as H. unfold cancelled in *.
  destruct shouldCancel; [|done]. destruct (ask OsCancelled _ i) as [[b|e|] i']; [|done..].
  by eapply traced_weaken; [exact H|done|done|done|intros [=]].
Qed.

Lemma traced_extract archive dest path X n seen going :
  always (T X n seen going) (extract os platform archive dest path).
Proof. unfold extract. cbn zeta. keeping. Qed.

(** what the installer returns: nothing is left, a success saw the library and has no text, and a
    host that asked to stop at last hears so *)
Definition Returned (st : Status) (i : Installer) : Prop :=
  T ∅ 1 (fst st = true) (st ≠ (false, "cancelled")) i ∧ (fst st = true ↔ snd st = "").

Definition Thrown (i : Installer) : Prop := T ∅ 1 False True i.

Lemma traced_report_error err n seen :
  n <= 1 → err ≠ "" → triple (T ∅ n seen True) (report_error onProgress err) Returned Thrown.
Proof.
  intros Hn He. unfold report_error. apply (triple_bind _ _ (λ _, T ∅ n seen True)).
  { eapply triple_weaken; [apply traced_notify|done|done|by intros i []]. }
  intros _ i Hi. split; [revert i Hi; weakening|]. by split; intros ?.
Qed.

Lemma traced_done n (text : string) :
  n <= 1 → triple (T ∅ n True True) (notify onProgress "done" 0 0 text ;; mret (true, "")) Returned Thrown.
Proof.
  intros Hn. apply (triple_bind _ _ (λ _, T ∅ n True True)).
  { eapply triple_weaken; [apply traced_notify|done|done|by intros i []]. }
  intros _ i Hi. split; [revert i Hi; weakening|done].
Qed.

(** an archive is removed before the report *)
Lemma traced_removed_error p err seen :
  err ≠ "" →
  triple (T ({[p]} ∪ ∅) 1 seen True) (try_os os (OsRemove p) ;; report_error onProgress err) Returned Thrown.
Proof.
  intros He. apply (triple_bind _ _ (λ _, T ∅ 1 seen True)); [apply traced_remove|]. intros _.
  apply traced_report_error; [lia|done].
Qed.

Lemma traced_unpack dir path archive written :
  triple (T ({[archive]} ∪ ∅) 1 False True) (unpack os platform onProgress dir path archive written)
    Returned Thrown.
Proof.
  unfold unpack. apply (triple_bind _ _ (λ _, T ({[archive]} ∪ ∅) 1 False True)).
  { eapply triple_weaken; [apply traced_notify|done|done|by intros i []]. }
  intros _. apply (triple_bind _ _ (λ _, T ({[archive]} ∪ ∅) 1 False True)).
  { eapply triple_weaken; [apply traced_extract|done|done|by intros i []]. }
  intros ret. destruct (ret =? 0)%Z; cbn [negb].
  2: { apply (triple_bind _ _ (λ _, T ∅ 1 False True)); [apply traced_remove|]. intros _. apply traced_report_error; [lia|done]. }
  apply (triple_bind _ _ (λ _, T ∅ 1 False True)); [apply traced_remove|]. intros _.
  apply (triple_bind _ _ (λ _, T ∅ 1 False True)); [apply traced_cached|]. intros _.
  eapply triple_bind; [apply traced_installed|]. intros [|]; cbn [negb].
  - apply (triple_bind _ _ (λ _, T ∅ 1 True True)); [|intros _; apply traced_done; lia].
    apply (triple_weaken (T ∅ 1 True True) _ _ (λ _, T ∅ 1 True True) _ (T ∅ 1 True True)); [|weakening|done|].
    + as_keeps. destruct (is_linux platform); [|apply keeps_ret].
      apply keeps_bind; [apply always_keeps, traced_notify|]. intros _. apply traced_ensure.
    + weakening.
  - apply traced_report_error; [lia|done].
Qed.

Lemma traced_fetch dir path :
  kDownloadPath platform ≠ "" →
  triple (T ∅ 0 False True) (fetch_client os platform onProgress shouldCancel dir path) Returned Thrown.
Proof.
  intros Hp. unfold fetch_client. set (archive := join dir (kArchiveName platform)).
  set (url := kDownloadHost +:+ kDownloadPath platform).
  apply (triple_bind _ _ (λ _, T ∅ 0 False True)).
  { eapply triple_weaken; [apply traced_notify|done|done|by intros i []]. }
  intros _. eapply triple_bind; [apply traced_open|]. intros [|]; cbn [negb].
  2: { apply traced_report_error; [lia|done]. }
  apply (triple_bind _ _ (λ _, T ({[archive]} ∪ ∅) 1 False quiet)).
  { eapply triple_weaken; [apply (traced_download ({[archive]} ∪ ∅) 0 1 False quiet)| | |by intros i []].
    - destruct (_ =? _)%string; lia.
    - apply traced_polls.
    - intros ??. apply traced_notify.
    - weakening.
    - done. }
  intros [[written failed] status].
  eapply triple_bind; [apply traced_poll|]. intros [|]; cbn zeta iota beta.
  - apply (triple_bind _ _ (λ _, T ∅ 1 False (true = false))); [apply traced_remove|]. intros _ i Hi.
    split; [|by split]. revert i Hi. weakening.
  - assert (Hin : ∀ i, T ({[archive]} ∪ ∅) 1 False (false = false) i → T ({[archive]} ∪ ∅) 1 False True i).
    { weakening. }
    destruct (answered status); cbn [negb].
    + destruct failed; (eapply triple_weaken; [|exact Hin|done|done]);
        [by apply traced_removed_error|apply traced_unpack].
    + eapply triple_weaken; [|exact Hin|done|done]. by apply traced_removed_error.
Qed.

Lemma traced_install :
  triple (T ∅ 0 False True) (install os platform onProgress shouldCancel) Returned Thrown.
Proof.
  unfold install. destruct (sempty (kDownloadPath platform)) eqn:Ep.
  { intros i Hi. split; [revert i Hi; weakening|done]. }
  assert (Hth : ∀ i, T ∅ 0 False True i → Thrown i) by (weakening).
  eapply triple_bind; [eapply triple_weaken; [apply (traced_installed ∅ 0 False True)|done|done|exact Hth]|]. intros [|].
  - apply (triple_bind _ _ (λ _, T ∅ 0 True True)).
    + apply (triple_weaken (T ∅ 0 True True) _ _ (λ _, T ∅ 0 True True) _ (T ∅ 0 True True)); [apply traced_installDir| |done|].
      * weakening.
      * weakening.
    + intros dir. apply traced_done. lia.
  - apply (triple_weaken (T ∅ 0 False True) _ _ Returned _ Thrown); [|weakening|done|done].
    apply (triple_bind _ _ (λ _, T ∅ 0 False True)); [by intros i Hi|]. intros _.
    apply (triple_bind _ _ (λ _, T ∅ 0 False True)).
    { eapply triple_weaken; [apply (traced_baseDir ∅ 0 False True)|done|done|exact Hth]. }
    intros dir. apply (triple_bind _ _ (λ _, T ∅ 0 False True)).
    { eapply triple_weaken; [by apply (traced_try os platform log0 _ ∅ 0 False True)|done|done|by intros i []]. }
    intros [message|]; [apply traced_report_error; [lia|done]|]. apply traced_fetch. intros E. by rewrite E in Ep.
Qed.

(** a client that is there is not downloaded again *)
Lemma traced_again i :
  fst (isInstalled os platform i) = Done true → T ∅ 0 False True i →
  match install os platform onProgress shouldCancel i with
  | (Done _, i') | (Throws _, i') => T ∅ 0 False True i'
  | (Hangs, _) => True
  end.
Proof.
  intros Hi Ht. unfold install. destruct (sempty (kDownloadPath platform)); [done|].
  pose proof (traced_installed ∅ 0 False True i Ht) as H. unfold mbind at 1, Eff_bind at 1.
  destruct (isInstalled os platform i) as [r i1]. simpl in Hi. subst r.
  match goal with |- match ?m i1 with _ => _ end => assert (Hk : keeps (T ∅ 0 (False ∨ true = true) True) m) end.
  { apply keeps_bind; [apply traced_installDir|]. intros dir.
    apply keeps_bind; [apply always_keeps, traced_notify|]. intros _. apply keeps_ret. }
  specialize (Hk i1 H). revert Hk.
  match goal with |- match ?m i1 with _ => _ end → _ => destruct (m i1) as [[x|e|] i2]; [..|done] end;
    revert i2; weakening.
Qed.
End operations.

(** ** The installation ends *)

Lemma finishes_on_os {A} (m : Eff (World os_event) A) : finishes m → finishes (on_os m).
Proof. intros Hm i. specialize (Hm (in_world i)). unfold on_os. by destruct (m (in_world i)). Qed.
Lemma finishes_ask {A} e (answer : OsLog → A) : finishes (ask e answer).
Proof. by intros i. Qed.
Lemma finishes_cached d : finishes (set_cachedDir d).
Proof. by intros i. Qed.
Lemma finishes_get_cached : finishes get_cachedDir.
Proof. by intros i. Qed.
Lemma finishes_get_root : finishes get_installRoot.
Proof. by intros i. Qed.
#[export] Hint Resolve finishes_ask finishes_cached finishes_get_cached finishes_get_root : finishes.
#[export] Hint Unfold tell try_os getenv : finishes.

Section ends.
Context (os : Os) (platform : Platform) (onProgress shouldCancel : bool).

Lemma finishes_exists path : finishes (exists_path os path).
Proof. unfold exists_path. finishing. Qed.
Hint Resolve finishes_exists : finishes.

Lemma finishes_installDir : finishes (installDir os platform).
Proof. unfold installDir, baseDir, getenv, cache_dir. finishing. Qed.
Hint Resolve finishes_installDir : finishes.

Lemma finishes_isInstalled : finishes (isInstalled os platform).
Proof. unfold isInstalled. finishing. Qed.
Hint Resolve finishes_isInstalled : finishes.

Lemma finishes_notify phase d t m : finishes (notify onProgress phase d t m).
Proof. unfold notify, tell. finishing. Qed.
Lemma finishes_cancelled : finishes (cancelled os shouldCancel).
Proof. unfold cancelled. finishing. Qed.
Hint Resolve finishes_notify finishes_cancelled : finishes.

Lemma finishes_download stop progress url path :
  finishes stop → (∀ current total, finishes (progress current total)) →
  finishes (download os stop progress url path).
Proof.
  intros Hs Hp. unfold download. apply finishes_bind; [apply finishes_ask|]. intros steps.
  apply finishes_bind; [|finishing]. generalize 0%Z as written.
  induction steps as [|[data|current total] steps IH]; intros written; cbn [receive]; finishing; apply IH.
Qed.

Lemma finishes_copy candidates target : finishes (copy_libaio os candidates target).
Proof.
  induction candidates as [|c candidates IH]; cbn [copy_libaio]; unfold hasCorrectLibaioSoname, try_os; finishing.
Qed.

Lemma finishes_ensure dir : finishes (ensureLibaioImpl os platform dir).
Proof.
  assert (Hd : finishes (downloadLibaio os platform dir)).
  { unfold downloadLibaio. cbn zeta. destruct (libaio_arch platform) as [[arch libPath]|]; [|finishing].
    apply finishes_bind; [finishing|]. intros [|]; cbn [negb]; [|finishing].
    apply finishes_bind; [apply finishes_download; finishing|]. unfold try_os. finishing. }
  unfold ensureLibaioImpl, hasCorrectLibaioSoname, try_os. cbn zeta.
  pose proof (finishes_copy libaio_candidates (join dir "libaio.so.1")). finishing.
Qed.
Hint Resolve finishes_ensure : finishes.

Lemma finishes_install : finishes (install os platform onProgress shouldCancel).
Proof.
  assert (Hu : ∀ dir path archive written, finishes (unpack os platform onProgress dir path archive written)).
  { intros dir path archive written. unfold unpack, extract, report_error, try_os. cbn zeta. finishing. }
  assert (Hf : ∀ dir path, finishes (fetch_client os platform onProgress shouldCancel dir path)).
  { intros dir path. unfold fetch_client, report_error, try_os. cbn zeta.
    apply finishes_bind; [finishing|]. intros _. apply finishes_bind; [finishing|]. intros [|]; cbn [negb]; [|finishing].
    apply finishes_bind; [apply finishes_download; finishing|]. intros [[written failed] status]. finishing. }
  unfold install, baseDir, getenv, report_error, try_os. finishing.
Qed.
End ends.

(** C29: What an installation of the Oracle client leaves behind.  It ends, whatever the network,
    the disk and the tools answer.  Every file that it opened, the archive and the package of
    [libaio], it removed, also when it throws; it downloads the client at most once, and not at
    all when the client is there.  Its text is empty exactly for a success, and a success has
    seen the client's library; when the host's last answer was to stop, it reports
    that it was cancelled. *)
Theorem oracle_install os platform onProgress shouldCancel i :
  let '(r, i') := install os platform onProgress shouldCancel i in
  ∃ events, w_log (in_world i') = w_log (in_world i) ++ events ∧
    let t := trace os platform (w_log (in_world i)) events in
    tr_files t = ∅ ∧ tr_downloads t ≤ 1 ∧
    (fst (isInstalled os platform i) = Done true → tr_downloads t = 0) ∧
    match r with
    | Done (ok, text) =>
        (ok = true ↔ text = "") ∧ (ok = true → tr_library t = true) ∧
        (tr_stop t = true → (ok, text) = (false, "cancelled"))
    | Throws _ => tr_stop t = false
    | Hangs => False
    end.
Proof.
  set (log := w_log (in_world i)).
  assert (H0 : Traced os platform log ∅ 0 False True i) by (exists []; split; [by rewrite app_nil_r|done]).
  pose proof (traced_install os platform log onProgress shouldCancel i H0) as H.
  pose proof (λ Hi, traced_again os platform log onProgress shouldCancel i Hi H0) as Ha.
  pose proof (finishes_install os platform onProgress shouldCancel i) as Hf.
  destruct (install os platform onProgress shouldCancel i) as [[[ok text]|e|] i']; [..|done]; simpl in *.
  - destruct H as [(events & Hl & Hx & Hn & Hs & Hg) Hok]. exists events. split_and!; [done|set_solver|done| |done|done|].
    + intros Hi. destruct (Ha Hi) as (events' & Hl' & _ & Hn' & _). rewrite Hl in Hl'.
      apply app_inv_head in Hl' as <-. simpl in Hn'. lia.
    + intros Hstop. destruct (decide ((ok, text) = (false, "cancelled"))) as [|Hne]; [done|].
      specialize (Hg Hne). congruence.
  - destruct H as (events & Hl & Hx & Hn & Hs & Hg). exists events. split_and!; [done|set_solver|done| |by apply Hg].
    intros Hi. destruct (Ha Hi) as (events' & Hl' & _ & Hn' & _). rewrite Hl in Hl'.
    apply app_inv_head in Hl' as <-. simpl in Hn'. lia.
Qed.

(** ** A sample installation

    Nothing is there until the archive is unpacked. *)

Definition unpacked (log : OsLog) : bool :=
  existsb (λ e, match e with OsSystem c => starts_with "unzip" c | _ => false end) log.

Definition sample_net (stops : bool) : Os :=
  mkOs (λ _, Some "/home/ann") (λ log, inr (unpacked log)) (λ _, []) (λ _, None) (λ _, None) (λ _, true)
    (λ _, true) (λ _, 0%Z) (λ _, [HttpProgress 0 2; HttpData "PK"; HttpProgress 2 2]) (λ _, Some 200%Z)
    (λ _, stops) (λ _, None) (λ _, false) (λ _, None).

Definition no_client : Installer := mkInstaller "" "" new_world.

Lemma oracle_install_witness :
  fst (install (sample_net false) LinuxX64 true true no_client) = Done (true, "") ∧
  fst (install (sample_net true) LinuxX64 true true no_client) = Done (false, "cancelled") ∧
  ∃ events,
    w_log (in_world (snd (install (sample_net true) LinuxX64 true true no_client))) = events ∧
    tr_files (trace (sample_net true) LinuxX64 [] events) = ∅.
Proof.
  split; [vm_compute; reflexivity|]. split; [vm_compute; reflexivity|].
  pose proof (oracle_install (sample_net true) LinuxX64 true true no_client) as H.
  destruct (install (sample_net true) LinuxX64 true true no_client) as [r i'].
  destruct H as (events & Hl & Hf & _). exists events. split; [exact Hl|exact Hf].
Defined.
