(* ===== verification/OracleClientProps.v ===== *)
(** * Loading the Oracle client: properties

    How often, in the life of a process, the client is installed, the process is replaced and a
    context is created. *)

From S2P Require Import Prelude Types Effects Objects ConnectionInfo Database.
From S2P Require Import OracleInstaller OracleClient OracleInstallProps.

(** ** What the installer's calls leave as it was *)

Section stable.
Context (os : Os) (platform : Platform) (P : OsLog → Prop) (get_ok : string → bool).

(** the installer's calls, with downloads from these addresses *)
Definition installer_call (e : os_event) : bool :=
  match e with
  | OsGet url => get_ok url
  | OsContext _ | OsExec _ | OsSetenv _ _ => false
  | _ => true
  end.

Context (stable : ∀ log e, installer_call e = true → P log → P (log ++ [e])).
Context (libaio_ok : ∀ name, get_ok ("https://archive.ubuntu.com/ubuntu/pool/main/liba/libaio/" +:+ name) = true).

Definition Log (i : Installer) : Prop := P (w_log (in_world i)).

Lemma log_ask {A} e (answer : OsLog → A) : installer_call e = true → always Log (ask e answer).
Proof. intros He i Hi. by apply stable. Qed.

Local Hint Extern 1 (keeps Log (ask _ _)) => apply always_keeps, log_ask; reflexivity : keeps.
Local Hint Extern 1 (keeps Log (try_os _ _)) => apply always_keeps, log_ask; reflexivity : keeps.
Local Hint Extern 1 (keeps Log (tell _)) => apply always_keeps, log_ask; reflexivity : keeps.

Lemma log_cached d : keeps Log (set_cachedDir d).
Proof. by intros i Hi. Qed.
Lemma log_get_cached : keeps Log get_cachedDir.
Proof. by intros i Hi. Qed.
Lemma log_get_root : keeps Log get_installRoot.
Proof. by intros i Hi. Qed.
Local Hint Resolve log_cached log_get_cached log_get_root : keeps.

Lemma log_exists path : keeps Log (exists_path os path).
Proof. unfold exists_path. keeping. Qed.
Local Hint Resolve log_exists : keeps.

Lemma log_installDir : keeps Log (installDir os platform).
Proof. unfold installDir, baseDir, getenv, cache_dir. keeping. Qed.
Local Hint Resolve log_installDir : keeps.

Lemma log_isInstalled : keeps Log (isInstalled os platform).
Proof. unfold isInstalled. keeping. Qed.
Local Hint Resolve log_isInstalled : keeps.

Lemma log_download stop progress url path :
  get_ok url = true → keeps Log stop → (∀ current total, keeps Log (progress current total)) →
  keeps Log (download os stop progress url path).
Proof.
  intros Hu Hs Hp. unfold download. apply keeps_bind; [by apply always_keeps, log_ask|]. intros steps.
  apply keeps_bind; [|keeping]. generalize 0%Z as written.
  induction steps as [|[data|current total] steps IH]; intros written; cbn [receive]; keeping; apply IH.
Qed.

Lemma log_copy candidates target : keeps Log (copy_libaio os candidates target).
Proof.
  induction candidates as [|c candidates IH]; cbn [copy_libaio]; unfold hasCorrectLibaioSoname; keeping.
Qed.

Lemma log_ensure dir : keeps Log (ensureLibaioImpl os platform dir).
Proof.
  assert (Hd : keeps Log (downloadLibaio os platform dir)).
  { unfold downloadLibaio. cbn zeta. destruct (libaio_arch platform) as [[arch libPath]|]; [|keeping].
    apply keeps_bind; [keeping|]. intros [|]; cbn [negb]; [|keeping].
    apply keeps_bind; [by apply log_download; [|apply keeps_ret|intros ??; apply keeps_ret]|]. keeping. }
  unfold ensureLibaioImpl, hasCorrectLibaioSoname. cbn zeta.
  pose proof (log_copy libaio_candidates (join dir "libaio.so.1")). keeping.
Qed.
Local Hint Resolve log_ensure : keeps.

Lemma log_install onProgress shouldCancel :
  get_ok (kDownloadHost +:+ kDownloadPath platform) = true →
  keeps Log (install os platform onProgress shouldCancel).
Proof.
  intros Hu.
  assert (Hn : ∀ phase d t m, keeps Log (notify onProgress phase d t m)) by (unfold notify; keeping).
  assert (Hc : keeps Log (cancelled os shouldCancel)) by (unfold cancelled; keeping).
  assert (Hun : ∀ dir path archive written, keeps Log (unpack os platform onProgress dir path archive written)).
  { intros dir path archive written. unfold unpack, extract, report_error. cbn zeta. keeping. }
  assert (Hf : ∀ dir path, keeps Log (fetch_client os platform onProgress shouldCancel dir path)).
  { intros dir path. unfold fetch_client, report_error. cbn zeta.
    apply keeps_bind; [done|]. intros _. apply keeps_bind; [keeping|]. intros [|]; cbn [negb]; [|keeping].
    apply keeps_bind; [by apply log_download|]. intros [[written failed] status]. keeping. }
  unfold install, baseDir, getenv, report_error. keeping.
Qed.
End stable.

(** ** What the process did *)

(** the contexts it tried to create, and whether it succeeded *)
Definition contexts (os : Os) (log : OsLog) : list bool :=
  replay_from (λ log e cs, match e with
                           | OsContext _ => cs ++ [bool_decide (os_context os log = None)]
                           | _ => cs
                           end) [] log [].

Definition is_download (platform : Platform) (e : os_event) : bool :=
  match e with OsGet url => (url =? downloadUrl platform)%string | _ => false end.
Definition downloads (platform : Platform) (log : OsLog) : nat :=
  length (filter (λ e, is_download platform e = true) log).

Definition is_exec (e : os_event) : bool := match e with OsExec _ => true | _ => false end.
Definition execs (log : OsLog) : nat := length (filter (λ e, is_exec e = true) log).

(** the environment: what the process started with, and what it set since *)
Definition environment (initial : string → option string) (log : OsLog) (name : string) : option string :=
  foldl (λ v e, match e with OsSetenv n x => if (n =? name)%string then Some x else v | _ => v end)
    (initial name) log.

(** [getenv] gives what [setenv] set *)
Class Environment (os : Os) (initial : string → option string) :=
  getenv_set log name : os_getenv os (log ++ [OsGetenv name]) = environment initial log name.

Lemma contexts_snoc os log e :
  contexts os (log ++ [e]) =
  match e with
  | OsContext _ => contexts os log ++ [bool_decide (os_context os (log ++ [e]) = None)]
  | _ => contexts os log
  end.
Proof. unfold contexts. by rewrite replay_snoc. Qed.

Lemma downloads_app platform log log' :
  downloads platform (log ++ log') = downloads platform log + downloads platform log'.
Proof. unfold downloads. by rewrite filter_app, length_app. Qed.

Lemma downloads_snoc platform log e :
  downloads platform (log ++ [e]) = downloads platform log + (if is_download platform e then 1 else 0).
Proof.
  rewrite downloads_app. unfold downloads at 2. rewrite filter_cons, filter_nil.
  by destruct (is_download platform e).
Qed.

Lemma execs_snoc log e : execs (log ++ [e]) = execs log + (if is_exec e then 1 else 0).
Proof.
  unfold execs. rewrite filter_app, length_app, filter_cons, filter_nil. by destruct (is_exec e).
Qed.

Lemma environment_snoc initial log e name :
  environment initial (log ++ [e]) name =
  match e with
  | OsSetenv n x => if (n =? name)%string then Some x else environment initial log name
  | _ => environment initial log name
  end.
Proof. unfold environment. by rewrite foldl_app. Qed.

Lemma trace_downloads os platform log events :
  tr_downloads (trace os platform log events) = downloads platform events.
Proof.
  induction events as [|e events IH] using rev_ind; [done|]. unfold trace in *. rewrite replay_snoc, downloads_snoc, <-IH.
  destruct (replay_from _ log events no_trace) as [files d l s]. destruct e; simpl; try lia. destruct (_ =? _)%string; lia.
Qed.

Lemma contexts_installer os log e :
  installer_call (λ _, true) e = true → contexts os (log ++ [e]) = contexts os log.
Proof. intros He. rewrite contexts_snoc. by destruct e. Qed.

(** ** Replacing the process *)

Definition guard : string := "DEARSQL_ORACLE_LD_BOOTSTRAPPED".

Section replaced.
Context (os : Os) (initial : string → option string).

Definition is_set (v : option string) : nat := match v with Some _ => 1 | None => 0 end.

(** the process was replaced only when it had set the variable that forbids it *)
Definition Guarded (log : OsLog) : Prop :=
  execs log + is_set (initial guard) ≤ is_set (environment initial log guard).

Lemma guarded_calm log e :
  match e with OsExec _ | OsSetenv _ _ => False | _ => True end → Guarded log → Guarded (log ++ [e]).
Proof. unfold Guarded. rewrite execs_snoc, environment_snoc. destruct e; simpl; try done; lia. Qed.

(** it set the variable and was not replaced yet *)
Definition Armed (log : OsLog) : Prop :=
  execs log + is_set (initial guard) = 0 ∧ is_set (environment initial log guard) = 1.

Lemma armed_snoc log e : is_exec e = false → Armed log → Armed (log ++ [e]).
Proof.
  unfold Armed. rewrite execs_snoc, environment_snoc. intros ->. destruct e; try (intros []; lia).
  destruct (name =? guard)%string; simpl; intros []; lia.
Qed.
End replaced.

Section client.
Context (os : Os) (platform : Platform) (initial : string → option string) `{!Environment os initial}.

(** the contexts so far, a bound of the downloads, and [g] *)
Definition Did (cs : list bool) (d : nat) (g : OsLog → Prop) (log : OsLog) : Prop :=
  contexts os log = cs ∧ downloads platform log ≤ d ∧ g log.

Notation L P := (λ i, P (w_log (in_world i))).

Lemma ask_spec {A} P e (answer : OsLog → A) (Q : A → OsLog → Prop) E :
  (∀ log, P log → Q (answer (log ++ [e])) (log ++ [e])) →
  triple (L P) (ask e answer) (λ x, L (Q x)) E.
Proof. intros H i Hi. by apply H. Qed.

Lemma did_calm cs d log e :
  installer_call (λ url, negb (url =? downloadUrl platform)%string) e = true →
  Did cs d (Guarded initial) log → Did cs d (Guarded initial) (log ++ [e]).
Proof.
  intros He (Hc & Hd & Hg). split_and!.
  - rewrite contexts_installer; [done|by destruct e].
  - rewrite downloads_snoc. destruct e; simpl in *; try lia. destruct (_ =? _)%string; [done|lia].
  - apply guarded_calm; [by destruct e|done].
Qed.

Lemma libaio_elsewhere name :
  negb ("https://archive.ubuntu.com/ubuntu/pool/main/liba/libaio/" +:+ name =? downloadUrl platform)%string = true.
Proof. by destruct platform. Qed.

Lemma did_isInstalled cs d : keeps (L (Did cs d (Guarded initial))) (isInstalled os platform).
Proof. eapply log_isInstalled, did_calm. Qed.

Lemma did_installDir cs d : keeps (L (Did cs d (Guarded initial))) (installDir os platform).
Proof. eapply log_installDir, did_calm. Qed.

(** an installation downloads once at most *)
Lemma did_install onProgress shouldCancel cs d :
  triple (L (Did cs d (Guarded initial))) (install os platform onProgress shouldCancel)
    (λ _, L (Did cs (S d) (Guarded initial))) (L (Did cs (S d) (Guarded initial))).
Proof.
  intros i (Hc & Hd & Hg). set (log := w_log (in_world i)).
  assert (H0 : Traced os platform log ∅ 0 False True i) by (exists []; split; [by rewrite app_nil_r|done]).
  pose proof (traced_install os platform log onProgress shouldCancel i H0) as Ht.
  pose proof (log_install os platform (λ log, contexts os log = cs ∧ Guarded initial log) (λ _, true)) as Hl.
  specialize (Hl ltac:(intros l e He [? ?]; split; [by rewrite contexts_installer|apply guarded_calm; [by destruct e|done]])
                 ltac:(done) onProgress shouldCancel ltac:(done) i (conj Hc Hg)).
  assert (Hsum : ∀ X seen going i', Traced os platform log X 1 seen going i' →
                   downloads platform (w_log (in_world i')) ≤ S d).
  { intros X seen going i' (events & Hl' & _ & Hn & _). rewrite trace_downloads in Hn.
    rewrite Hl', downloads_app. unfold log in *. lia. }
  destruct (install os platform onProgress shouldCancel i) as [[st|e|] i']; [| |done].
  - destruct Ht as [Ht _], Hl as [Hc' Hg']. split_and!; [done|by eapply Hsum|done].
  - destruct Hl as [Hc' Hg']. split_and!; [done|by eapply Hsum|done].
Qed.

(** the process may be replaced, once in its life *)
Lemma did_reexec cs d dir : keeps (L (Did cs d (Guarded initial))) (reexecWithLdLibraryPath os dir).
Proof.
  unfold reexecWithLdLibraryPath, getenv.
  apply (triple_bind _ _ (λ again, L (Did cs d (λ log, Guarded initial log ∧
           again = environment initial log guard)))).
  { apply (ask_spec _ _ _ (λ again, Did cs d (λ log, Guarded initial log ∧ again = environment initial log guard))).
    intros log Hl. destruct (did_calm cs d log (OsGetenv guard) eq_refl Hl) as (Hc & Hd & Hg).
    split_and!; [done..|]. rewrite getenv_set, environment_snoc. done. }
  intros [again|]; [by intros i (? & ? & ? & _)|].
  assert (Harm : ∀ e log, installer_call (λ url, negb (url =? downloadUrl platform)%string) e = true →
    Did cs d (Armed initial) log → Did cs d (Armed initial) (log ++ [e])).
  { intros e log He (Hc & Hd & Hg). split_and!.
    - rewrite contexts_installer; [done|by destruct e].
    - rewrite downloads_snoc. destruct e; simpl in *; try lia. destruct (_ =? _)%string; [done|lia].
    - apply armed_snoc; [by destruct e|done]. }
  assert (Hset : ∀ name x log, Did cs d (Armed initial) log → Did cs d (Armed initial) (log ++ [OsSetenv name x])).
  { intros name x log (Hc & Hd & Hg). split_and!; [by rewrite contexts_snoc|by rewrite downloads_snoc, Nat.add_0_r|].
    by apply armed_snoc. }
  assert (Hdone : ∀ i, L (Did cs d (Armed initial)) i → L (Did cs d (Guarded initial)) i).
  { intros i (Hc & Hd & Hx & Hy). split_and!; [done..|]. unfold Guarded. lia. }
  apply (triple_bind _ _ (λ _, L (Did cs d (Armed initial)))).
  { unfold tell. apply (ask_spec _ _ _ (λ _, Did cs d (Armed initial))). intros log (Hc & Hd & Hg & Ha).
    split_and!; [by rewrite contexts_snoc|by rewrite downloads_snoc, Nat.add_0_r|].
    unfold Guarded in Hg. rewrite <-Ha in Hg. simpl in Hg. split; [rewrite execs_snoc; simpl; lia|].
    by rewrite environment_snoc. }
  intros _. apply (triple_bind _ _ (λ _, L (Did cs d (Armed initial)))).
  { apply (ask_spec _ _ _ (λ _, Did cs d (Armed initial))). intros log Hl. by apply Harm. }
  intros cur. apply (triple_bind _ _ (λ _, L (Did cs d (Armed initial)))).
  { unfold tell. apply (ask_spec _ _ _ (λ _, Did cs d (Armed initial))). intros log Hl. by apply Hset. }
  intros _. apply (triple_bind _ _ (λ _, L (Did cs d (Armed initial)))); [by intros i Hi|].
  intros [bytes|]; [|intros i Hi; by apply Hdone]. destruct (nul_ended bytes "") as [|a args]; [intros i Hi; by apply Hdone|].
  unfold exec. apply (triple_bind _ _ (λ _, L (Did cs d (Guarded initial)))).
  - apply (ask_spec _ _ _ (λ _, Did cs d (Guarded initial))). intros log (Hc & Hd & Hx & Hy).
    split_and!; [by rewrite contexts_snoc|by rewrite downloads_snoc, Nat.add_0_r|].
    unfold Guarded. rewrite execs_snoc, environment_snoc. simpl. lia.
  - intros [|]; [apply triple_hangs|apply keeps_ret].
Qed.

Lemma did_libaio cs d dir : keeps (L (Did cs d (Guarded initial))) (ensureLibaio os platform dir).
Proof.
  unfold ensureLibaio. destruct (sempty dir); [apply keeps_ret|].
  eapply log_ensure; [apply did_calm|apply libaio_elsewhere].
Qed.

Lemma did_prepare cs d dir reexec :
  keeps (L (Did cs d (Guarded initial))) (prepare_linux os platform dir reexec).
Proof.
  unfold prepare_linux, ldLibraryPathContains, getenv.
  assert (Hask : ∀ A e (answer : OsLog → A), installer_call (λ url, negb (url =? downloadUrl platform)%string) e = true →
    keeps (L (Did cs d (Guarded initial))) (ask e answer)).
  { intros A e answer He. apply (ask_spec _ _ _ (λ _, Did cs d (Guarded initial))). intros log. by apply did_calm. }
  apply keeps_bind; [apply did_libaio|].
  intros _. apply keeps_bind; [by apply Hask|]. intros _. destruct reexec; [|apply keeps_ret].
  apply keeps_bind; [apply keeps_bind; [by apply Hask|intros env; apply keeps_ret]|].
  intros [|]; cbn [negb]; [apply keeps_ret|]. apply keeps_bind; [apply did_reexec|]. intros _. apply keeps_ret.
Qed.

(** ** The process's context *)

Definition client_log (c : Client) : OsLog := w_log (in_world (cl_installer c)).

(** all contexts so far failed, but the one that there is, which has no error *)
Record Loaded (attempted : bool) (d : nat) (c : Client) : Prop := mkLoaded {
  lo_did : ∃ n, Did (replicate n false ++ if cl_ctx c then [true] else []) d (Guarded initial) (client_log c);
  lo_attempted : cl_autoInstallAttempted c = attempted;
  lo_error : cl_ctx c = true → cl_failed c = false ∧ cl_error c = ""
}.

(** there is none yet *)
Definition Unloaded (attempted : bool) (d : nat) (c : Client) : Prop :=
  Loaded attempted d c ∧ cl_ctx c = false.

Lemma unloaded_installer {A} (m : InM A) attempted d d' :
  (∀ cs, triple (L (Did cs d (Guarded initial))) m (λ _, L (Did cs d' (Guarded initial)))
           (L (Did cs d' (Guarded initial)))) →
  triple (Unloaded attempted d) (on_installer m) (λ _, Unloaded attempted d') (Unloaded attempted d').
Proof.
  intros Hm c [[[n Hd] Ha He] Hc]. specialize (Hm _ (cl_installer c) Hd). unfold on_installer.
  destruct (m (cl_installer c)) as [[x|e|] i]; [| |done];
    (split; [split; [by exists n|done|done]|done]).
Qed.

Lemma unloaded_calm {A} e (answer : OsLog → A) attempted d :
  installer_call (λ url, negb (url =? downloadUrl platform)%string) e = true →
  keeps (Unloaded attempted d) (on_installer (ask e answer)).
Proof.
  intros He. apply unloaded_installer. intros cs.
  apply (ask_spec _ _ _ (λ _, Did cs d (Guarded initial))). intros log. by apply did_calm.
Qed.

Lemma unloaded_libDir dir attempted d : keeps (Unloaded attempted d) (set_libDir dir).
Proof. by intros c [[Hd Ha He] Hc]. Qed.

Lemma unloaded_get {A} (f : Client → A) attempted d : keeps (Unloaded attempted d) (get f).
Proof. by intros c Hc. Qed.

Lemma unloaded_failure error failed installed attempted d :
  keeps (Unloaded attempted d) (set_failure error failed installed).
Proof. intros c [[Hd Ha He] Hc]. split; [|done]. split; [done|done|]. simpl. by rewrite Hc. Qed.

(** whether there is a context is what is returned *)
Definition Answered (attempted : bool) (d : nat) (b : bool) (c : Client) : Prop :=
  Loaded attempted d c ∧ cl_ctx c = b.

Lemma loaded_create installed attempted d :
  triple (Unloaded attempted d) (create_context os platform installed)
    (Answered attempted d) (Unloaded attempted d).
Proof.
  unfold create_context. apply (triple_bind _ _ (λ _, Unloaded attempted d)).
  { destruct installed; [|apply keeps_ret]. as_keeps.
    apply keeps_bind; [apply unloaded_installer; intros cs; apply did_installDir|]. intros dir.
    apply keeps_bind; [apply unloaded_libDir|]. intros _. apply keeps_bind; [apply unloaded_get|]. intros options.
    destruct (is_linux platform); [|apply keeps_ret]. apply unloaded_installer. intros cs. apply did_prepare. }
  intros _. apply (triple_bind _ _ (λ _, Unloaded attempted d)); [apply unloaded_get|]. intros dir.
  intros c [[[n (Hc & Hd & Hg)] Ha He] Hn]. rewrite Hn, app_nil_r in Hc.
  set (e := OsContext (if installed then Some dir else None)). set (log := client_log c ++ [e]).
  assert (Hlog : ∀ b, bool_decide (os_context os log = None) = b →
            Did (replicate n false ++ [b]) d (Guarded initial) log).
  { intros b Hb. split_and!; [unfold log, e; rewrite contexts_snoc; fold e; fold log; by rewrite Hc, Hb| |].
    - unfold log, e. by rewrite downloads_snoc, Nat.add_0_r.
    - by apply guarded_calm. }
  unfold mbind, Eff_bind, on_installer, ask, on_os, call. cbn [in_world w_log w_made].
  change (w_log (in_world (cl_installer c)) ++ [e]) with log.
  destruct (os_context os log) as [message|] eqn:Em; simpl.
  - split; [|done]. split; [exists (S n)|done|done]. rewrite app_nil_r, replicate_S_end. by apply Hlog.
  - split; [|done]. split; [exists n|done|done]. by apply Hlog.
Qed.

Lemma loaded_try installed attempted d :
  triple (Unloaded attempted d) (try_context os platform installed)
    (Answered attempted d) (Unloaded attempted d).
Proof.
  unfold try_context. apply (triple_bind _ _ (λ _, Unloaded attempted d)); [apply unloaded_get|]. intros failed.
  apply (triple_bind _ _ (λ _, Unloaded attempted d)); [apply unloaded_get|]. intros failedInstalled.
  destruct (failed && Bool.eqb failedInstalled installed); [by intros c Hc|apply loaded_create].
Qed.

(** after [k] resets there were at most as many downloads, and one more since an attempt *)
Definition Life (k : nat) (c : Client) : Prop :=
  ∃ attempted : bool, Loaded attempted ((if attempted then 1 else 0) + k) c.

Lemma unloaded_life (attempted : bool) k c :
  Unloaded attempted ((if attempted then 1 else 0) + k) c → Life k c.
Proof. intros [Hc _]. by exists attempted. Qed.

Lemma life_try (attempted : bool) k installed :
  triple (Unloaded attempted ((if attempted then 1 else 0) + k)) (try_context os platform installed)
    (λ b c, Life k c ∧ cl_ctx c = b) (Life k).
Proof.
  eapply triple_weaken; [apply loaded_try|done| |apply unloaded_life].
  intros b c [Hc Hb]. split; [by exists attempted|done].
Qed.

Lemma unloaded_isInstalled attempted d :
  keeps (Unloaded attempted d) (on_installer (isInstalled os platform)).
Proof. apply unloaded_installer. intros cs. apply did_isInstalled. Qed.

Lemma life_install k :
  triple (Unloaded false k)
    (set_attempted true ;;
     status ← on_installer (install os platform false false);
     if negb (fst (status : Status)) then
       set_failure (install_failure (snd status)) true false ;;
       mret false
     else
       installed ← on_installer (isInstalled os platform);
       try_context os platform installed)
    (λ b c, Life k c ∧ cl_ctx c = b) (Life k).
Proof.
  apply (triple_bind _ _ (λ _, Unloaded true k)); [by intros c [[Hd Ha He] Hc]|]. intros _.
  apply (triple_bind _ _ (λ _, Unloaded true (S k))).
  { eapply triple_weaken; [apply unloaded_installer; intros cs; apply did_install|done|done|].
    intros c Hc. by apply (unloaded_life true). }
  intros [ok text]. destruct ok; cbn [fst negb].
  - apply (triple_bind _ _ (λ _, Unloaded true (S k))); [|intros installed; apply (life_try true)].
    eapply triple_weaken; [apply unloaded_isInstalled|done|done|]. intros c Hc. by apply (unloaded_life true).
  - apply (triple_bind _ _ (λ _, Unloaded true (S k))).
    + eapply triple_weaken; [apply unloaded_failure|done|done|]. intros c Hc. by apply (unloaded_life true).
    + intros _ c Hc. split; [by apply (unloaded_life true)|apply Hc].
Qed.

Lemma life_context allow k :
  triple (Life k) (getDpiContext os platform allow) (λ b c, Life k c ∧ cl_ctx c = b) (Life k).
Proof.
  intros c [attempted Hl]. unfold getDpiContext, mbind at 1, Eff_bind at 1, get at 1.
  destruct (cl_ctx c) eqn:Hc; [by split; [exists attempted|]|].
  unfold mbind at 1, Eff_bind at 1.
  pose proof (unloaded_isInstalled attempted _ c (conj Hl Hc)) as H.
  destruct (on_installer (isInstalled os platform) c) as [[installed|e|] c1]; [|by apply (unloaded_life attempted)|done].
  unfold mbind at 1, Eff_bind at 1, get at 1. unfold mbind at 1, Eff_bind at 1, get at 1.
  assert (Ha : cl_autoInstallAttempted c1 = attempted) by apply H. rewrite Ha.
  destruct (_ && _) eqn:Ego; [|by apply (life_try attempted)].
  destruct attempted; [by rewrite andb_false_r in Ego|]. by apply (life_install k).
Qed.
End client.

(** ** The operations of a host *)

Inductive client_op :=
  | OpOptions (options : ClientOptions)     (* [setClientOptions] *)
  | OpRoot (dir : string)                   (* [setInstallRoot] *)
  | OpContext (allowInstall : bool)         (* [getDpiContext]: with [true] it is a connect *)
  | OpNeeds                                 (* [needsClientInstall] *)
  | OpReset                                 (* [resetContext] *)
  | OpInstall (onProgress shouldCancel : bool)  (* [install], with or without the callbacks *)
  | OpLibaio (dir : string).                (* [ensureLibaio] *)

Definition perform (os : Os) (platform : Platform) (op : client_op) : ClM unit :=
  match op with
  | OpOptions options => setClientOptions options
  | OpRoot dir => on_installer (setInstallRoot dir)
  | OpContext allowInstall => getDpiContext os platform allowInstall ;; mret tt
  | OpNeeds => needsClientInstall os platform ;; mret tt
  | OpReset => resetContext
  | OpInstall onProgress shouldCancel => on_installer (install os platform onProgress shouldCancel) ;; mret tt
  | OpLibaio dir => on_installer (ensureLibaio os platform dir)
  end.

(** the operations after which the client may be downloaded once more *)
Definition resets (op : client_op) : nat := match op with OpReset | OpInstall _ _ => 1 | _ => 0 end.

Section life.
Context (os : Os) (platform : Platform) (initial : string → option string) `{!Environment os initial}.

Lemma life_perform op k :
  triple (Life os platform initial k) (perform os platform op)
    (λ _, Life os platform initial (resets op + k)) (Life os platform initial (resets op + k)).
Proof.
  assert (Hget : ∀ allow, keeps (Life os platform initial k) (getDpiContext os platform allow)).
  { intros allow. eapply triple_weaken; [by apply life_context|done| |done]. by intros b c []. }
  assert (Hin : ∀ A (m : InM A) (k' : nat),
    (∀ cs d, triple (λ i, Did os platform cs d (Guarded initial) (w_log (in_world i))) m
       (λ _ i, Did os platform cs (k' + d) (Guarded initial) (w_log (in_world i)))
       (λ i, Did os platform cs (k' + d) (Guarded initial) (w_log (in_world i)))) →
    triple (Life os platform initial k) (on_installer m) (λ _, Life os platform initial (k' + k))
      (Life os platform initial (k' + k))).
  { intros A m k' Hm c [attempted [[n Hd] Ha He]]. specialize (Hm _ _ _ Hd).
    replace (k' + ((if attempted then 1 else 0) + k)) with ((if attempted then 1 else 0) + (k' + k)) in Hm by lia.
    unfold on_installer. destruct (m (cl_installer c)) as [[x|e|] i]; [| |done];
      (exists attempted; split; [by exists n|done|done]). }
  destruct op; cbn [perform resets Nat.add]; try as_keeps.
  - intros c [attempted [Hd Ha He]]. by exists attempted.
  - intros c [attempted [Hd Ha He]]. by exists attempted.
  - apply keeps_bind; [apply Hget|]. intros b. apply keeps_ret.
  - unfold needsClientInstall. apply keeps_bind; [|intros b; apply keeps_ret].
    apply keeps_bind; [apply Hget|]. intros b. apply keeps_ret.
  - intros c [attempted [(n & Hc & Hd & Hg) Ha He]]. exists false. split; [|done|].
    + exists n. split_and!; [done| |done]. eapply Nat.le_trans; [exact Hd|]. destruct attempted; simpl; lia.
    + done.
  - eapply triple_bind; [|intros b; apply keeps_ret]. apply (Hin _ _ 1). intros cs d. apply did_install.
  - apply (Hin _ _ 0). intros cs d. apply did_libaio.
Qed.

Lemma life_new : Life os platform initial 0 new_client.
Proof.
  exists false. split; [|done|done]. exists 0. split_and!; [done|apply Nat.le_0_l|]. apply Nat.le_refl.
Qed.
End life.

(** ** A failure is remembered *)

(** what [getDpiContext] saw last: whether the client is there *)
Definition last_seen (os : Os) (platform : Platform) (allowInstall : bool) (c : Client) : option bool :=
  match isInstalled os platform (cl_installer c) with
  | (Done installed, i) =>
      if negb installed && allowInstall && op_autoInstall (cl_options c) && negb (cl_autoInstallAttempted c) then
        match install os platform false false i with
        | (Done (true, _), i) => match isInstalled os platform i with (Done b, _) => Some b | _ => None end
        | (Done (false, _), _) => Some false
        | _ => None
        end
      else Some installed
  | _ => None
  end.

(** there is no context, and it is on record that it failed while the client was there, or not *)
Definition failed_seeing (b : bool) (c : Client) : Prop :=
  cl_ctx c = false ∧ cl_failed c = true ∧ cl_failedInstalled c = b.

Section remembered.
Context (os : Os) (platform : Platform).

Lemma any_triple {A} (m : ClM A) : triple (λ _, True) m (λ _ _, True) (λ _, True).
Proof. intros c _. by destruct (m c) as [[]]. Qed.

Lemma create_failed installed :
  triple (λ _, True) (create_context os platform installed)
    (λ b c, b = false → failed_seeing installed c) (λ _, True).
Proof.
  unfold create_context. eapply triple_bind; [apply any_triple|]. intros ?.
  eapply triple_bind; [apply any_triple|]. intros dir. eapply triple_bind; [apply any_triple|].
  intros [message|] c _; [done|]. by simpl.
Qed.

Lemma try_failed installed c c' :
  cl_ctx c = false → try_context os platform installed c = (Done false, c') → failed_seeing installed c'.
Proof.
  intros Hc. unfold try_context, mbind, Eff_bind, get. destruct (cl_failed c && _) eqn:E.
  - intros [= <-]. apply andb_true_iff in E as [? E%Bool.eqb_prop]. done.
  - intros H. pose proof (create_failed installed c I) as Hf. rewrite H in Hf. by apply Hf.
Qed.

Lemma context_failed allowInstall c c' :
  getDpiContext os platform allowInstall c = (Done false, c') →
  ∃ b, last_seen os platform allowInstall c = Some b ∧ failed_seeing b c'.
Proof.
  unfold getDpiContext, last_seen, mbind, Eff_bind, get, on_installer. destruct (cl_ctx c) eqn:Hc; [done|].
  destruct (isInstalled os platform (cl_installer c)) as [[installed|e|] i]; [|done..]. simpl.
  destruct (_ && _ && _ && _) eqn:E.
  - simpl. destruct (install os platform false false i) as [[[ok text]|e|] i2]; [|done..]. simpl.
    destruct ok; simpl; [|intros [= <-]; by exists false].
    destruct (isInstalled os platform i2) as [[b|e|] i3]; [|done..]. simpl.
    intros H%try_failed; [|done]. by exists b.
  - intros H%try_failed; [|done]. by exists installed.
Qed.

(** asking again is refused without trying, while the client is there, or not, as it was *)
Lemma context_remembered b c :
  failed_seeing b c → fst (isInstalled os platform (cl_installer c)) = Done b →
  let '(r, c') := getDpiContext os platform false c in
  r = Done false ∧ contexts os (client_log c') = contexts os (client_log c) ∧ cl_error c' = cl_error c.
Proof.
  intros (Hc & Hf & <-) Hi. unfold getDpiContext, mbind, Eff_bind, get. rewrite Hc. unfold on_installer.
  pose proof (log_isInstalled os platform (λ log, contexts os log = contexts os (client_log c)) (λ _, true)
    ltac:(intros log e He Hl; cbv beta in *; by rewrite contexts_installer) (cl_installer c) eq_refl) as Hl.
  destruct (isInstalled os platform (cl_installer c)) as [r i]. simpl in Hi. subst r. simpl.
  rewrite andb_false_r. simpl. unfold try_context, mbind, Eff_bind, get. simpl.
  by rewrite Hf, Bool.eqb_reflx.
Qed.
End remembered.


(** ** A sample process

    The client is installed at the first connect, and loads when its library path is set. *)

Definition sample_env (log : OsLog) : option string :=
  match last log with
  | Some (OsGetenv name) => environment (λ n, if (n =? "HOME")%string then Some "/home/ann" else None) log name
  | _ => None
  end.

Definition sample_process : Os :=
  mkOs sample_env (λ log, inr (unpacked log)) (λ _, []) (λ _, None) (λ _, None) (λ _, true)
    (λ _, true) (λ _, 0%Z) (λ _, [HttpData "PK"]) (λ _, Some 200%Z)
    (λ _, false) (λ _, Some ("dearsql" +:+ str1 "000"%char)) (λ _, false)
    (λ log, if 2 <? length (filter (λ e, match e with OsContext _ => true | _ => false end = true) log)
            then None else Some "DPI-1047: cannot locate a library").

#[export] Instance sample_environment :
  Environment sample_process (λ n, if (n =? "HOME")%string then Some "/home/ann" else None).
Proof.
  intros log name. simpl. unfold sample_env. by rewrite last_snoc, environment_snoc.
Qed.

Definition sample_life : list client_op :=
  [OpNeeds; OpContext true; OpContext true; OpReset; OpInstall true false; OpContext true].
Definition sample_client : Client :=
  default new_client (run_all (perform sample_process LinuxX64) sample_life new_client).

