(* ===== verification/OracleSchema.v ===== *)
(** * The Oracle backend: the schema that a session works in

    Which schema the server resolves names in, on each session, as the log of the calls tells;
    the session of a handle works in the handle's. *)

From S2P Require Import Prelude Types Effects Objects ConnectionInfo DdlUtils Database Rows SqlBuilder.
From S2P Require Import Oracle OracleCatalog OracleInstaller OracleClient OracleConnection OracleProps OracleConnectionProps.

(** texts that the backend itself sends and that switch nothing *)
Definition plain_text (sql : string) : bool :=
  existsb (λ p, starts_with p sql) ["SELECT "; "CREATE USER "; "GRANT "; "DROP USER "].

(** the schema that a statement switches its session to, as the server reads it *)
Class SchemaSwitch (switches : string → option string) := {
  switch_alter name : switches (schema_sql name) = Some name;
  switch_none sql : plain_text sql = true → switches sql = None
}.

(** ** The server *)

(** the text of each statement with its session, and the current schema of each session *)
Record Server := mkServer { sv_text : gmap nat (nat * string); sv_schema : gmap nat string }.

Section server.
Context (lib : Odpi) (switches : string → option string).

(** a session starts in the schema of its user *)
Definition serve (log : OdLog) (e : od_event) (s : Server) : Server :=
  match e with
  | OdCreate c user _ _ =>
      if od_create lib log then mkServer (sv_text s) (<[c := toUpper user]> (sv_schema s)) else s
  | OdPrepare st c sql =>
      if od_prepare lib log then mkServer (<[st := (c, sql)]> (sv_text s)) (sv_schema s) else s
  | OdExecute st _ =>
      match od_execute lib log, sv_text s !! st with
      | Some _, Some (c, sql) =>
          match switches sql with
          | Some n => mkServer (sv_text s) (<[c := n]> (sv_schema s))
          | None => s
          end
      | _, _ => s
      end
  | _ => s
  end.

Definition server (log : OdLog) : Server := replay_from serve [] log (mkServer ∅ ∅).
Definition current_schema (log : OdLog) (c : nat) : option string := sv_schema (server log) !! c.

Lemma server_snoc log e : server (log ++ [e]) = serve (log ++ [e]) e (server log).
Proof. unfold server. by rewrite replay_snoc. Qed.

(** these sessions work in these schemas *)
Definition Working (X : gmap nat string) (w : World od_event) : Prop :=
  X ⊆ sv_schema (server (w_log w)) ∧ ∀ c, is_Some (X !! c) → c < w_made w.

Lemma working_weaken X Y w : Y ⊆ X → Working X w → Working Y w.
Proof.
  intros HY [HX Hm]. split; [by etrans|]. intros c [n Hc]. apply Hm. exists n. by eapply lookup_weaken.
Qed.

(** a call that neither opens a session nor runs a statement *)
Definition idle (e : od_event) : bool :=
  match e with OdCreate _ _ _ _ | OdPrepare _ _ _ | OdExecute _ _ => false | _ => true end.

Lemma server_idle log e : idle e = true → server (log ++ [e]) = server log.
Proof. intros He. rewrite server_snoc. by destruct e. Qed.

(** besides, the statement [st] has its text *)
Definition Prepared (st c : nat) (sql : string) (X : gmap nat string) (w : World od_event) : Prop :=
  Working X w ∧ sv_text (server (w_log w)) !! st = Some (c, sql).

Lemma working_idle {A} e (answer : OdLog → A) X : idle e = true → always (Working X) (call e answer).
Proof. intros He w [HX Hm]. split; [|done]. simpl. by rewrite server_idle. Qed.

Lemma prepared_idle {A} e (answer : OdLog → A) st c sql X :
  idle e = true → always (Prepared st c sql X) (call e answer).
Proof. intros He w [[HX Hm] Ht]. unfold Prepared, Working. simpl. by rewrite server_idle. Qed.

(** ** Statements *)

Context (fuel : nat).

Lemma working_column X s i : always (Working X) (column lib s i).
Proof.
  unfold column. apply always_bind; [by apply working_idle|]. intros [name clob]. apply always_bind.
  - destruct clob; [by apply working_idle|apply always_ret].
  - intros _. apply always_ret.
Qed.

Lemma working_report X s columns rowLimit : always (Working X) (report lib fuel s columns rowLimit).
Proof.
  unfold report. destruct (columns =? 0).
  - apply always_bind; [by apply working_idle|]. intros n. apply always_ret.
  - apply always_bind; [apply always_mapM; intros i; apply working_column|]. intros names.
    apply always_bind; [|intros rows; apply always_ret]. generalize (@nil (list string)) as rows.
    generalize fuel. intros n. induction n as [|n IH]; intros rows; cbn [fetch_loop]; [by intros w Hw|].
    destruct (below_limit _ _); [|apply always_ret]. apply always_bind; [by apply working_idle|].
    intros [row| |]; [apply IH|apply always_ret..].
Qed.

(** the sessions behind a statement that succeeded *)
Definition moved (X : gmap nat string) (c : nat) (sql : string) : gmap nat string :=
  match switches sql with Some n => <[c := n]> X | None => X end.

Lemma prepared_execute st c sql X commit :
  is_Some (X !! c) ∨ switches sql = None →
  triple (Prepared st c sql X) (call (OdExecute st commit) (od_execute lib))
    (λ r, Working (match r with Some _ => moved X c sql | None => X end)) (λ _, False).
Proof.
  intros Hc w [[HX Hm] Ht]. unfold Working. simpl. rewrite server_snoc. simpl.
  destruct (od_execute lib _) as [columns|]; [|done]. rewrite Ht. unfold moved.
  destruct (switches sql) as [n|]; [|done]. simpl. split; [by apply insert_mono|].
  intros c' [<-|[_ H]]%lookup_insert_is_Some; [|by apply Hm]. destruct Hc as [H|[=]]. by apply Hm.
Qed.

Lemma ora_report_success s columns rowLimit w r w' :
  report lib fuel s columns rowLimit w = (Done r, w') → sr_success r = true.
Proof.
  unfold report, mbind, Eff_bind. destruct (columns =? 0); [by intros [= <- _]|].
  destruct (mapM (column lib s) (seq 1 columns) w) as [[names|e|] w1]; [|done..]. by destruct (fetch_loop _ _ _ _ _ _ w1) as [[rows|e|] w2]; [intros [= <- _]|..].
Qed.

Lemma working_run X c sql rowLimit :
  is_Some (X !! c) ∨ switches sql = None →
  triple (Working X) (runQuery lib fuel c sql rowLimit)
    (λ r, Working (if qr_success r then moved X c sql else X)) (λ _, False).
Proof.
  intros Hc. unfold runQuery. apply (triple_bind _ _ (λ _, Working X)).
  { intros w [HX Hm]. split; [done|]. intros c' H%Hm. simpl. lia. }
  intros s. apply (triple_bind _ _ (λ b : bool, if b then Prepared s c sql X else Working X)).
  { intros w [HX Hm]. simpl. destruct (od_prepare lib _) eqn:E; unfold Prepared, Working; simpl; rewrite server_snoc; simpl; rewrite E.
    - split; [done|]. simpl. by rewrite lookup_insert_eq.
    - done. }
  intros [|]; cbn [negb].
  - eapply (triple_finally _ _ (λ r, Working (if qr_success r then moved X c sql else X)) (λ _, False)); [| |by intros w []].
    + apply (triple_bind _ _ (λ _, Prepared s c sql X)); [by apply prepared_idle|]. intros isQuery.
      eapply triple_bind; [by apply prepared_execute|]. intros [columns|].
      * intros w Hw. pose proof (working_report (moved X c sql) s columns rowLimit w Hw) as H.
        unfold mbind, Eff_bind. destruct (report lib fuel s columns rowLimit w) as [[r|e|] w'] eqn:E; [|done..].
        apply ora_report_success in E. simpl. unfold qr_success. simpl. by rewrite E.
      * apply (triple_bind _ _ (λ _, Working X)); [by apply working_idle|]. intros err. by intros w Hw.
    + intros r. by apply working_idle.
  - apply (triple_bind _ _ (λ _, Working X)); [by apply working_idle|]. intros err. by intros w Hw.
Qed.

(** a text that switches nothing *)
Lemma working_plain X c sql rowLimit :
  switches sql = None → always (Working X) (runQuery lib fuel c sql rowLimit).
Proof.
  intros Hs. eapply triple_weaken; [apply working_run; by right|done| |done].
  intros r w. unfold moved. rewrite Hs. by destruct (qr_success r).
Qed.
End server.

(** ** Sessions *)

Section sessions.
Context (lib : Odpi) (switches : string → option string) `{!SchemaSwitch switches} (fuel : nat).

Notation W := (Working lib switches).

Lemma working_create info X :
  triple (W X) (createConn lib info)
    (λ c w, X !! c = None ∧ W (<[c := toUpper (ci_username info)]> X) w) (W X).
Proof.
  unfold createConn. apply (triple_bind _ _ (λ _, W X)).
  { unfold buildConnectString, walletLocation. destruct (ci_sslmode info); try (intros ??; done).
    all: apply keeps_bind; [destruct (sempty (ci_sslCACertPath info)); [apply keeps_ret|]; by intros ??|].
    all: intros location; destruct (sempty location); [apply keeps_throws|apply keeps_ret]. }
  intros str w [HX Hm]. unfold mbind, Eff_bind, fresh, call. cbn [w_log w_made].
  set (c := w_made w). set (log := w_log w ++ [_]).
  assert (Hnew : X !! c = None) by (apply eq_None_not_Some; intros H%Hm; unfold c in H; lia).
  destruct (od_create lib log) eqn:E; cbn [negb].
  - split; [done|]. split.
    + simpl. unfold log. rewrite server_snoc. simpl. fold log. rewrite E. simpl. by apply insert_mono.
    + simpl. intros c' [<-|[_ H%Hm]]%lookup_insert_is_Some; unfold c in *; lia.
  - simpl. split; [|intros c' H%Hm; simpl; unfold c; lia]. simpl. rewrite server_idle by done.
    unfold log. rewrite server_snoc. simpl. fold log. by rewrite E.
Qed.

Lemma working_release X c : always (W X) (release_session c).
Proof. by apply working_idle. Qed.

(** the session of a handle works in its schema, switched or as it starts *)
Lemma working_open info schema X :
  triple (W X) (open_session lib fuel info schema)
    (λ c w, X !! c = None ∧ W (<[c := schema]> X) w) (W X).
Proof.
  unfold open_session. eapply triple_bind; [apply working_create|]. intros c w [Hc Hw]. revert w Hw.
  assert (Hsub : ∀ n : string, X ⊆ <[c := n]> X) by (intros n; by apply insert_subseteq).
  match goal with |- ∀ w, W ?Y w → match ?m w with _ => _ end =>
    change (triple (W Y) m (λ c w, X !! c = None ∧ W (<[c := schema]> X) w) (W X)) end.
  destruct (schema =? _)%string eqn:E; cbn [negb].
  { apply String.eqb_eq in E as <-. by intros w Hw. }
  eapply triple_bind.
  { eapply triple_weaken; [apply working_run; left; rewrite lookup_insert_eq; by eexists|done|done|by intros w []]. }
  intros r. simpl. destruct (qr_success r); cbn [negb].
  - intros w Hw. split; [done|]. revert Hw. unfold moved. rewrite switch_alter. by rewrite insert_insert_eq.
  - apply (triple_bind _ _ (λ _, W X)); [|intros []; apply triple_throws].
    eapply triple_weaken; [apply working_release|done| |by intros w []].
    intros x w Hw. eapply working_weaken; [apply Hsub|exact Hw].
Qed.

(** ** The handles *)

(** every handle that has a session works in its schema *)
Definition InSchema (s : OraConnection) : Prop :=
  ∃ X, W X (oc_world s) ∧ ∀ h x c, oc_handles s !! h = Some x → oh_conn x = Some c → X !! c = Some (oh_schema x).

Lemma in_odpi {A} (m : OdM A) : (∀ X, keeps (W X) m) → keeps InSchema (on_odpi m).
Proof.
  intros Hm s (X & HX & Hh). specialize (Hm X (oc_world s) HX). unfold on_odpi.
  destruct (m (oc_world s)) as [[x|e|] w]; [by exists X..|done].
Qed.

Lemma in_create info : keeps InSchema (on_odpi (createConn lib info)).
Proof.
  apply in_odpi. intros X. eapply triple_weaken; [apply working_create|done| |done].
  intros c w [Hc Hw]. eapply working_weaken; [|exact Hw]. by apply insert_subseteq.
Qed.

Lemma in_plain c sql rowLimit :
  switches sql = None → keeps InSchema (on_odpi (runQuery lib fuel c sql rowLimit)).
Proof. intros Hs. apply in_odpi. intros X. by apply always_keeps, working_plain. Qed.

Lemma in_rows c sql : starts_with "SELECT " sql = true → keeps InSchema (on_odpi (queryRows lib fuel c sql)).
Proof.
  intros Hs. apply in_odpi. intros X. unfold queryRows. apply keeps_bind.
  - apply always_keeps, working_plain. apply switch_none. unfold plain_text. simpl. by rewrite Hs.
  - intros r. destruct (qr_success r); [apply keeps_ret|apply keeps_throws].
Qed.

Lemma in_release c : keeps InSchema (on_odpi (release_session c)).
Proof. apply in_odpi. intros X. apply always_keeps, working_release. Qed.

(** the session that a handle's next statement runs in *)
Lemma in_ensure h :
  triple InSchema (ensureConn lib fuel h)
    (λ c s, InSchema s ∧ ∃ x, oc_handles s !! h = Some x ∧ oh_conn x = Some c ∧
                              current_schema lib switches (w_log (oc_world s)) c = Some (oh_schema x)) InSchema.
Proof.
  intros s (X & HX & Hh). unfold ensureConn, get, mbind, Eff_bind.
  destruct (oc_handles s !! h) as [x|] eqn:Hx; [|done]. destruct (oh_conn x) as [c|] eqn:Hc.
  - split; [by exists X|]. exists x. split_and!; [done..|]. eapply lookup_weaken; [by eapply Hh|apply HX].
  - unfold on_odpi. pose proof (working_open (oh_info x) (oh_schema x) X (oc_world s) HX) as H.
    destruct (open_session _ _ _ _ _) as [[c|e|] w]; [|by exists X|done]. destruct H as [Hn Hw].
    set (y := mkOraHandle (oh_info x) (oh_schema x) (Some c)). split.
    + exists (<[c := oh_schema x]> X). split; [done|]. intros k z d. simpl.
      rewrite lookup_partial_alter. case_decide as E; [intros [= <-] [= <-]; simpl; by rewrite lookup_insert_eq|].
      intros Hz Hd. assert (c ≠ d) by (intros ->; rewrite (Hh k z d Hz Hd) in Hn; done).
      rewrite lookup_insert_ne by done. by eapply Hh.
    + exists y. simpl. rewrite lookup_partial_alter, decide_True by done. split_and!; [done..|].
      eapply lookup_weaken; [apply lookup_insert_eq|apply Hw].
Qed.

Lemma in_query h sql : starts_with "SELECT " sql = true → keeps InSchema (query lib fuel h sql).
Proof.
  intros Hs. unfold query. eapply triple_bind; [apply in_ensure|]. intros c s [HS _]. by apply in_rows.
Qed.

Lemma in_execute h sql rowLimit : switches sql = None → keeps InSchema (execute lib fuel h sql rowLimit).
Proof.
  intros Hs. unfold execute. apply (triple_catch _ _ _ InSchema); [|intros e; apply keeps_ret].
  eapply triple_bind; [apply in_ensure|]. intros c s [HS _]. by apply in_plain.
Qed.

(** a state whose handles and server are the same *)
Lemma in_same s s' :
  oc_world s' = oc_world s → oc_handles s' = oc_handles s → InSchema s → InSchema s'.
Proof. intros Hw Hh (X & HX & HhX). exists X. by rewrite Hw, Hh. Qed.

(** or that has lost handles, or gained one without a session *)
Lemma in_handle h x s :
  (∀ y, x = Some y → oh_conn y = None) →
  InSchema s → InSchema (snd (set_handle h x s)).
Proof.
  intros Hx (X & HX & HhX). exists X. split; [done|]. intros k y c. simpl. rewrite lookup_partial_alter.
  case_decide; [|by apply HhX]. intros Hy Hc. apply Hx in Hy. congruence.
Qed.

Lemma in_drop_handle h : keeps InSchema (drop_handle h).
Proof.
  unfold drop_handle. apply keeps_bind; [by intros s Hs|]. intros [|]; [apply keeps_ret|].
  apply keeps_bind; [by intros s Hs|]. intros [x|]; [|apply keeps_ret]. apply keeps_bind.
  - destruct (oh_conn x); [apply in_release|apply keeps_ret].
  - intros _ s Hs. by apply in_handle.
Qed.

(** ** The operations *)

Context (os : Os) (platform : Platform).

(** what a caller types does not switch the schema *)
Definition stays (op : ora_op) : Prop :=
  match op with OpUse _ (UseExecute sql _) => switches sql = None | _ => True end.

Lemma in_get {A} (f : OraConnection → A) : keeps InSchema (OracleConnection.get f).
Proof. by intros s Hs. Qed.

Lemma in_client {A} (m : ClM A) : keeps InSchema (on_client m).
Proof.
  intros s Hs. unfold on_client. destruct (m (oc_client s)) as [[x|e|] c]; [..|done]; by eapply in_same.
Qed.

Lemma in_cache f : keeps InSchema (set_cache f).
Proof. intros s Hs. by eapply in_same. Qed.

Lemma in_hand_out h : keeps InSchema (OracleConnection.hand_out h).
Proof. intros s Hs. by eapply in_same. Qed.

Lemma in_make_handle schema : keeps InSchema (OracleConnection.make_handle schema).
Proof.
  intros s (X & HX & HhX). exists X. split; [done|]. intros k x c. simpl.
  intros [[_ <-]|[_ Hk]]%lookup_insert_Some; [done|]. by eapply HhX.
Qed.

Lemma in_database name : keeps InSchema (database name).
Proof.
  unfold database, isOpen, schema_or_default. apply keeps_bind; [apply in_get|]. intros [|]; cbn [negb]; [|apply keeps_ret].
  apply keeps_bind; [apply keeps_bind; [apply in_get|intros d; apply keeps_ret]|]. intros n.
  apply keeps_bind; [apply in_get|]. intros cached. apply keeps_bind.
  - destruct cached; [apply keeps_ret|]. apply keeps_bind; [apply in_make_handle|]. intros h.
    apply keeps_bind; [apply in_cache|]. intros _. apply keeps_ret.
  - intros h. apply keeps_bind; [apply in_hand_out|]. intros h'. apply keeps_ret.
Qed.

Lemma in_openDatabase name : keeps InSchema (openDatabase name).
Proof.
  unfold openDatabase, isOpen, schema_or_default. apply keeps_bind; [apply in_get|].
  intros [|]; cbn [negb]; [|apply keeps_ret].
  apply keeps_bind; [apply keeps_bind; [apply in_get|intros d; apply keeps_ret]|]. intros n.
  apply keeps_bind; [apply in_make_handle|]. intros h.
  apply keeps_bind; [apply in_hand_out|]. intros h'. apply keeps_ret.
Qed.

Lemma in_probe services : keeps InSchema (probe lib services).
Proof.
  induction services as [|service services IH]; [apply keeps_ret|]. cbn [probe].
  apply keeps_bind; [apply in_get|]. intros info. apply keeps_bind.
  - apply (triple_catch _ _ _ InSchema); [|intros e; apply keeps_ret]. as_keeps.
    apply keeps_bind; [apply in_create|]. intros c. apply keeps_bind; [apply in_release|]. intros _. apply keeps_ret.
  - intros [|]; [|done]. intros s Hs. by eapply in_same.
Qed.

Lemma in_open : keeps InSchema (OracleConnection.open lib os platform).
Proof.
  unfold OracleConnection.open, log_in. apply keeps_bind; [apply in_get|]. intros [c|]; [apply keeps_ret|].
  apply keeps_bind; [apply in_client|]. intros [|]; cbn [negb].
  2: { apply keeps_bind; [apply in_client|]. intros err. apply keeps_ret. }
  apply (triple_catch _ _ _ InSchema); [|intros e; apply keeps_ret]. as_keeps.
  apply keeps_bind; [apply in_get|]. intros info. apply keeps_bind.
  { destruct (sempty (ci_database info)); [apply in_probe|apply keeps_ret]. }
  intros _. apply keeps_bind; [apply in_get|]. intros info'. destruct (sempty (ci_database info')); [apply keeps_ret|].
  apply keeps_bind; [apply in_create|]. intros c. apply keeps_bind; [intros s Hs; by eapply in_same|]. intros _.
  apply keeps_bind; [intros s Hs; by eapply in_same|]. intros _. apply keeps_ret.
Qed.

Lemma in_close : keeps InSchema OracleConnection.close.
Proof.
  unfold OracleConnection.close. apply keeps_bind; [apply in_get|]. intros cached.
  apply keeps_bind; [apply in_cache|]. intros _. apply keeps_bind; [apply keeps_mapM; intros h; apply in_drop_handle|].
  intros _. apply keeps_bind; [apply in_get|]. intros [c|]; [|apply keeps_ret].
  apply keeps_bind; [apply in_release|]. intros _ s Hs. by eapply in_same.
Qed.

Lemma in_fixed c sql : plain_text sql = true → keeps InSchema (on_odpi (runQuery lib fuel c sql 0)).
Proof. intros Hs. apply in_plain. by apply switch_none. Qed.

Lemma in_createDatabase opts : keeps InSchema (OracleConnection.createDatabase lib fuel opts).
Proof.
  unfold OracleConnection.createDatabase. destruct (sempty (cd_name opts)); [apply keeps_ret|].
  apply keeps_bind; [apply in_get|]. intros [c|]; [|apply keeps_ret].
  apply keeps_bind; [by apply in_fixed|]. intros r. destruct (qr_success r); cbn [negb]; [|apply keeps_ret].
  apply keeps_bind; [by apply in_fixed|]. intros u. apply keeps_ret.
Qed.

Lemma in_dropDatabase name : keeps InSchema (OracleConnection.dropDatabase lib fuel name).
Proof.
  unfold OracleConnection.dropDatabase, forget. apply keeps_bind.
  - apply keeps_bind; [apply in_get|]. intros cached. apply keeps_bind; [apply in_cache|]. intros _.
    destruct cached; [apply in_drop_handle|apply keeps_ret].
  - intros _. apply keeps_bind; [apply in_get|]. intros [c|]; [|apply keeps_ret].
    apply keeps_bind; [by apply in_fixed|]. intros r. apply keeps_ret.
Qed.

Lemma in_databases : keeps InSchema (OracleConnection.databases lib fuel).
Proof.
  unfold OracleConnection.databases. apply keeps_bind; [apply in_get|]. intros [c|]; [|apply keeps_throws].
  apply keeps_bind; [by apply in_rows|]. intros rows. apply keeps_mapM. intros name. apply in_database.
Qed.

Lemma in_session {A} h (x : A) (m : nat → OdM A) :
  (∀ c X, keeps (W X) (m c)) →
  keeps InSchema (c ← OracleConnection.get (λ s, oc_handles s !! h ≫= oh_conn);
                  match c with None => mret x | Some c => on_odpi (m c) end).
Proof. intros Hm. apply keeps_bind; [apply in_get|]. intros [c|]; [by apply in_odpi|apply keeps_ret]. Qed.

Lemma in_use h x u : stays (OpUse h u) → keeps InSchema (perform_use lib fuel h x u).
Proof.
  intros Hs.
  assert (Hq : ∀ sql, starts_with "SELECT " sql = true → keeps InSchema (query lib fuel h sql)) by apply in_query.
  destruct u; cbn [perform_use]; try apply ora_keeps_ignore.
  - by apply in_execute.
  - by apply od_keeps_tables.
  - by apply od_keeps_views.
  - unfold sequences. by apply od_keeps_groups.
  - unfold routines. by apply od_keeps_groups.
  - by apply od_keeps_describe.
  - unfold getColumnNames. apply keeps_bind; [apply in_execute; by apply switch_none|]. intros r.
    destruct (qr_statements r); [apply keeps_throws|]. destruct (qr_success r); [apply keeps_ret|apply keeps_throws].
  - unfold OracleConnection.alive. apply in_session. intros c X. by apply always_keeps, working_idle.
  - unfold OracleConnection.cancel. apply in_session. intros c X. by apply always_keeps, working_idle.
Qed.

Lemma in_held h (m : OraHandle → OraM unit) : (∀ x, keeps InSchema (m x)) → keeps InSchema (held_only h m).
Proof.
  intros Hm s Hs. unfold held_only. case_decide; [|done]. destruct (oc_handles s !! h) as [x|]; [by apply Hm|done].
Qed.

Lemma in_perform op : stays op → keeps InSchema (perform lib os platform fuel op).
Proof.
  intros Hs. destruct op; cbn [perform]; try apply ora_keeps_ignore.
  - apply in_open.
  - apply in_close.
  - apply in_database.
  - apply in_openDatabase.
  - apply in_databases.
  - apply in_createDatabase.
  - apply in_dropDatabase.
  - apply in_held. intros x. by apply in_use.
  - apply in_held. intros x. unfold release. apply keeps_bind; [intros s Hs'; by eapply in_same|].
    intros _. apply in_drop_handle.
Qed.

Lemma in_new client info : InSchema (new_connection client info).
Proof.
  exists ∅. split.
  - split; [apply map_empty_subseteq|]. intros c. rewrite lookup_empty. by intros [].
  - intros h x c. simpl. by rewrite lookup_empty.
Qed.
End sessions.

(** C26: A handle's statements run in its schema.  After any operations of an Oracle connection
    and of its handles, every handle that has a session works in its own schema on the server,
    and so does the session that its next statement or catalog query is given, be it new or not,
    as long as no statement that a caller types switches the schema. *)
Theorem oracle_current_schema lib os platform fuel client info switches `{!SchemaSwitch switches} ops s :
  Forall (stays switches) ops →
  run_all (perform lib os platform fuel) ops (new_connection client info) = Some s →
  (∀ h x c, oc_handles s !! h = Some x → oh_conn x = Some c →
     current_schema lib switches (w_log (oc_world s)) c = Some (oh_schema x)) ∧
  ∀ h, match ensureConn lib fuel h s with
       | (Done c, s') =>
           ∃ x, oc_handles s' !! h = Some x ∧ oh_conn x = Some c ∧
             current_schema lib switches (w_log (oc_world s')) c = Some (oh_schema x)
       | _ => True
       end.
Proof.
  intros Hops Hrun.
  assert (Hs : InSchema lib switches s).
  { eapply (run_all_keeps_of (stays switches)); [|exact Hops|apply in_new|exact Hrun].
    intros op Hop. by apply in_perform. }
  split.
  - destruct Hs as (X & [HX _] & Hh). intros h x c Hx Hc. eapply lookup_weaken; [by eapply Hh|done].
  - intros h. pose proof (in_ensure lib switches fuel h s Hs) as H.
    destruct (ensureConn lib fuel h s) as [[c|e|] s']; [by destruct H|done..].
Qed.

(** ** A concrete reading of the statements *)

Definition alter_prefix : string := "ALTER SESSION SET CURRENT_SCHEMA = ".

Definition sample_switches (sql : string) : option string :=
  if starts_with alter_prefix sql
  then Some (undouble dquote (sdrop (S (strlen alter_prefix)) sql)) else None.

#[export] Instance sample_switch : SchemaSwitch sample_switches.
Proof.
  split.
  - intros name. unfold sample_switches, schema_sql. rewrite starts_with_app. f_equal.
    exact (undouble_double dquote name).
  - intros sql. unfold plain_text, sample_switches. destruct sql as [|c sql]; [done|].
    destruct (starts_with alter_prefix (String c sql)) eqn:E; [|done].
    apply starts_with_split in E. simpl in E. injection E as -> _. done.
Qed.

(** the handle that the sample operations leave works in its schema *)
Lemma oracle_current_schema_witness :
  map (λ x, (oh_schema (snd x), oh_conn (snd x) ≫=
              current_schema (sample_odpi false) sample_switches (w_log (oc_world (sample_state false)))))
    (map_to_list (oc_handles (sample_state false))) = [("HR", Some "HR")] ∧
  ∀ h x c, oc_handles (sample_state false) !! h = Some x → oh_conn x = Some c →
    current_schema (sample_odpi false) sample_switches (w_log (oc_world (sample_state false))) c = Some (oh_schema x).
Proof.
  split; [vm_compute; reflexivity|].
  destruct (oracle_current_schema (sample_odpi false) sample_os MacX64 60 new_client sample_info sample_switches
              sample_ops (sample_state false)) as [H _]; [repeat constructor|vm_compute; reflexivity|exact H].
Defined.
