(* ===== verification/Results.v ===== *)
(** * What every SQL backend promises of its results

    A host draws the grid of a result cell by cell.  [Reports] is the contract that lets it: each
    row has a cell for each column, and a positive limit on the rows is kept.  The SQL backends
    are its instances; [IDatabase]'s default operations are proved against the contract. *)

From S2P Require Import Prelude Types Effects Objects ConnectionInfo Postgres PostgresProps Rows SqlBuilder Database MySql Mssql Sqlite DuckDb Cassandra Oracle OracleConnection.

(** ** The contract *)

(** a cell for each column *)
Definition rectangular (s : StatementResult) : Prop :=
  Forall (λ row, length row = length (sr_columnNames s)) (sr_tableData s).

Definition within (rowLimit : Z) (s : StatementResult) : Prop :=
  (0 < rowLimit → Z.of_nat (length (sr_tableData s)) <= rowLimit)%Z.

Definition fine (rowLimit : Z) (s : StatementResult) : Prop := rectangular s ∧ within rowLimit s.

Definition all_fine (rowLimit : Z) (r : QueryResult) : Prop := Forall (fine rowLimit) (qr_statements r).

(** what a host is promised; the limit of what did not fail *)
Definition well_formed (rowLimit : Z) (r : QueryResult) : Prop :=
  Forall rectangular (qr_statements r) ∧
  (qr_success r = true → Forall (within rowLimit) (qr_statements r)).

Lemma fine_well_formed rowLimit r : all_fine rowLimit r → well_formed rowLimit r.
Proof. intros Hr. by split; [|intros _]; (eapply Forall_impl; [exact Hr|]; intros s []). Qed.

(** [execute]'s result, where there is one *)
Class Reports {S : Type} (execute : string → Z → S → option QueryResult) : Prop :=
  reports sql rowLimit s r : execute sql rowLimit s = Some r → well_formed rowLimit r.

Definition result_of {S A} (m : Eff S A) (s : S) : option A :=
  match m s with (Done x, _) => Some x | _ => None end.
Definition result_of_op {S A} (m : Op S A) (s : S) : option A := fst (m s).

(** ** Results of operations *)

Section yields.
Context {S : Type}.

(** whatever is returned has [Q] *)
Definition yields {A} (m : Eff S A) (Q : A → Prop) : Prop := ∀ s x, result_of m s = Some x → Q x.

Lemma yields_any {A} (m : Eff S A) : yields m (λ _, True).
Proof. done. Qed.

Lemma yields_ret {A} (x : A) (Q : A → Prop) : Q x → yields (mret x) Q.
Proof. by intros Hx s y [= <-]. Qed.

Lemma yields_bind {A B} (m : Eff S A) (f : A → Eff S B) (R : A → Prop) Q :
  yields m R → (∀ x, R x → yields (f x) Q) → yields (m ≫= f) Q.
Proof.
  intros Hm Hf s y. specialize (Hm s). unfold result_of, mbind, Eff_bind in *.
  destruct (m s) as [[x|e|] s']; [|done..]. apply (Hf x); by apply Hm.
Qed.

(** binds of values that do not matter *)
Lemma yields_then {A B} (m : Eff S A) (f : A → Eff S B) Q :
  (∀ x, yields (f x) Q) → yields (m ≫= f) Q.
Proof. intros Hf. apply (yields_bind m f (λ _, True)); [apply yields_any|auto]. Qed.

Lemma yields_catch {A} (m : Eff S A) (handler : string → Eff S A) Q :
  yields m Q → (∀ e, yields (handler e) Q) → yields (catch m handler) Q.
Proof.
  intros Hm Hh s x. specialize (Hm s x). unfold result_of, catch in *.
  destruct (m s) as [[y|e|] s']; [done|by apply Hh|done].
Qed.

Lemma yields_finally {A} (m : Eff S A) cleanup Q : yields m Q → yields (finally m cleanup) Q.
Proof.
  intros Hm s x. specialize (Hm s). unfold result_of, finally, mbind, Eff_bind in *.
  destruct (m s) as [[y|e|] s']; [| |done]; destruct (cleanup s') as [[[]|e'|] s2]; try done.
  intros [= <-]. by apply Hm.
Qed.

Lemma yields_hangs {A} (Q : A → Prop) : yields hangs Q.
Proof. done. Qed.
Lemma yields_throws {A} e (Q : A → Prop) : yields (throws e) Q.
Proof. done. Qed.
End yields.

Lemma yields_reports {S} (m : string → Z → Eff S QueryResult) :
  (∀ sql rowLimit, yields (m sql rowLimit) (all_fine rowLimit)) →
  Reports (λ sql rowLimit, result_of (m sql rowLimit)).
Proof. intros Hm sql rowLimit s r Hr. eapply fine_well_formed, Hm, Hr. Qed.

(** ** Statements *)

(** without rows *)
Lemma fine_empty rowLimit ok err names n message : fine rowLimit (mkStatementResult ok err names [] n message).
Proof. split; [constructor|]. unfold within. simpl. lia. Qed.

(** rows that are written cell by cell for the columns *)
Lemma rectangular_imap {A} (text : list A → nat → string → string) ok err names (rows : list (list A)) n message :
  rectangular (mkStatementResult ok err names (map (λ row, imap (text row) names) rows) n message).
Proof.
  apply Forall_map, Forall_forall. intros row _. simpl. by rewrite length_imap.
Qed.

Lemma fine_one rowLimit message : all_fine rowLimit (one_failure message).
Proof. apply Forall_singleton, fine_empty. Qed.

Lemma within_limited {A} rowLimit (rows : list A) :
  (0 < rowLimit → Z.of_nat (length (limited rowLimit rows)) <= rowLimit)%Z.
Proof.
  intros Hpos. unfold limited. rewrite (proj2 (Z.ltb_lt _ _) Hpos), length_take. lia.
Qed.

(** loops that add rows below a limit *)
Definition rows_fine (columns : list string) (rowLimit : Z) (rows : list (list string)) : Prop :=
  Forall (λ row, length row = length columns) rows ∧
  (0 < rowLimit → Z.of_nat (length rows) <= rowLimit)%Z.

Lemma rows_fine_nil columns rowLimit : rows_fine columns rowLimit [].
Proof. split; [constructor|simpl; lia]. Qed.

Lemma rows_fine_snoc columns rowLimit rows row :
  rows_fine columns rowLimit rows → length row = length columns →
  (0 < rowLimit → Z.of_nat (length rows) < rowLimit)%Z → rows_fine columns rowLimit (rows ++ [row]).
Proof.
  intros [Hr _] Hrow Hl. split; [by apply Forall_app_2; [|apply Forall_singleton]|].
  rewrite length_app. simpl. intros Hpos. specialize (Hl Hpos). lia.
Qed.

Lemma rows_fine_statement columns rowLimit rows ok err n message :
  rows_fine columns rowLimit rows → fine rowLimit (mkStatementResult ok err columns rows n message).
Proof. done. Qed.

(** ** Oracle *)

Section oracle.
Context (lib : Odpi) (fuel : nat).

Lemma oracle_rows n s columns rowLimit rows :
  rows_fine columns rowLimit rows → yields (fetch_loop lib n s columns rowLimit rows) (rows_fine columns rowLimit).
Proof.
  revert rows. induction n as [|n IH]; intros rows Hr; cbn [fetch_loop]; [apply yields_hangs|].
  destruct (below_limit rowLimit (length rows)) eqn:E; [|by apply yields_ret].
  rewrite below_limit_spec in E. apply yields_then. intros [row| |]; [|by apply yields_ret..].
  apply IH. apply rows_fine_snoc; [done|by apply length_imap|done].
Qed.

#[export] Instance oracle_reports h : Reports (λ sql rowLimit, result_of (OracleConnection.execute lib fuel h sql rowLimit)).
Proof.
  apply (yields_reports (λ sql rowLimit, OracleConnection.execute lib fuel h sql rowLimit)). intros sql rowLimit.
  unfold OracleConnection.execute. apply yields_catch; [|intros e; apply yields_ret, fine_one]. apply yields_then. intros c.
  assert (H : yields (Oracle.runQuery lib fuel c sql rowLimit) (all_fine rowLimit)).
  { unfold Oracle.runQuery. apply yields_then. intros st. apply yields_then. intros [|]; cbn [negb].
    - apply yields_finally, yields_then. intros isQuery. apply yields_then. intros [columns|].
      + eapply (yields_bind _ _ (fine rowLimit)); [|intros x Hx; by apply yields_ret, Forall_singleton].
        unfold Oracle.report. destruct (columns =? 0); [apply yields_then; intros n; apply yields_ret, fine_empty|].
        apply yields_then. intros names. eapply yields_bind; [apply oracle_rows, rows_fine_nil|].
        intros rows Hrows. by apply yields_ret.
      + apply yields_then. intros err. apply yields_ret, fine_one.
    - apply yields_then. intros err. apply yields_ret, fine_one. }
  intros s x. unfold result_of, on_odpi. specialize (H (oc_world s)). unfold result_of in H.
  destruct (Oracle.runQuery _ _ _ _ _ _) as [[y|e|] w]; [apply H|done..].
Qed.
End oracle.

(** ** SQLite *)

Section sqlite.
Context (lib : Sqlite) (fuel : nat).

Lemma sqlite_rows n s columns rowLimit rows :
  rows_fine columns rowLimit rows →
  yields (Sqlite.row_loop lib n s columns rowLimit rows) (λ r, rows_fine columns rowLimit (fst r)).
Proof.
  revert rows. induction n as [|n IH]; intros rows Hr; cbn [Sqlite.row_loop]; [apply yields_hangs|].
  destruct (below_limit rowLimit (length rows)) eqn:E; [|by apply yields_ret].
  rewrite below_limit_spec in E. apply yields_then. intros [row| |]; [|by apply yields_ret..].
  apply IH. apply rows_fine_snoc; [done|by apply length_imap|done].
Qed.

Lemma sqlite_prepare {A} d sql fails none f (Q : A → Prop) :
  yields fails Q → (∀ tail, yields (none tail) Q) → (∀ s columns tail, yields (f s columns tail) Q) →
  yields (Sqlite.prepare lib d sql fails none f) Q.
Proof.
  intros Hf Hn Hp. unfold Sqlite.prepare. apply yields_then. intros s. apply yields_then.
  intros [|tail|columns tail]; [done|done|]. by apply yields_finally.
Qed.

Lemma sqlite_statement d s columns rowLimit : yields (run_statement lib fuel d s columns rowLimit) (fine rowLimit).
Proof.
  unfold run_statement. destruct columns as [|c columns].
  - apply yields_then. intros [row| |]; apply yields_then; intros x; apply yields_ret, fine_empty.
  - eapply yields_bind; [apply sqlite_rows, rows_fine_nil|]. intros [rows failed] Hr.
    apply yields_then. intros err. by apply yields_ret.
Qed.

#[export] Instance sqlite_reports d : Reports (λ sql rowLimit, result_of (runMultiStatement lib fuel d sql rowLimit)).
Proof.
  apply (yields_reports (λ sql rowLimit, runMultiStatement lib fuel d sql rowLimit)). intros sql rowLimit.
  unfold runMultiStatement. apply (yields_bind _ _ (Forall (fine rowLimit))); [|intros l Hl; by apply yields_ret].
  generalize (c_str sql) as text, (@nil StatementResult) as statements, (Forall_nil_2 (fine rowLimit)).
  generalize fuel at 2 as n. intros n.
  induction n as [|n IH]; intros text statements Hs; cbn [script_loop]; [apply yields_hangs|].
  destruct (sempty _); [by apply yields_ret|].
  apply (yields_bind _ _ (λ next, Forall (fine rowLimit) (fst next))).
  - apply sqlite_prepare; [apply yields_then|..].
    + intros err. apply yields_ret, Forall_app_2; [done|]. apply Forall_singleton, fine_empty.
    + intros tail. by apply yields_ret.
    + intros st columns tail. eapply yields_bind; [apply sqlite_statement|]. intros x Hx.
      apply yields_ret, Forall_app_2; [done|]. by apply Forall_singleton.
  - intros [l [tail|]] Hl; [by apply IH|by apply yields_ret].
Qed.
End sqlite.

(** ** DuckDB and Cassandra *)

Section duckdb.
Context (lib : DuckDb).

Lemma duckdb_report rowLimit res : fine rowLimit (DuckDb.report rowLimit res).
Proof.
  unfold DuckDb.report. destruct (dr_isQuery res); [|apply fine_empty]. split.
  - apply Forall_map, Forall_forall. intros row _. unfold DuckDb.row_text. simpl. by rewrite length_imap, length_map.
  - unfold within. simpl. rewrite length_map. apply within_limited.
Qed.

#[export] Instance duckdb_reports c : Reports (λ sql rowLimit, result_of (DuckDb.execute lib c sql rowLimit)).
Proof.
  apply (yields_reports (λ sql rowLimit, DuckDb.execute lib c sql rowLimit)). intros sql rowLimit.
  assert (Hloop : ∀ n i e statements, Forall (fine rowLimit) statements →
            yields (statements_from lib n i c e rowLimit statements) (Forall (fine rowLimit))).
  { induction n as [|n IH]; intros i e statements Hs; cbn [statements_from]; [by apply yields_ret|].
    apply yields_then. intros p. apply yields_then. intros [|]; cbn [negb].
    - apply yields_then. intros r. apply yields_then. intros answer. apply yields_then. intros _.
      destruct answer as [err|res].
      + apply yields_then. intros _. apply yields_ret, Forall_app_2; [done|]. apply Forall_singleton, fine_empty.
      + apply yields_then. intros _. apply IH, Forall_app_2; [done|]. apply Forall_singleton, duckdb_report.
    - do 2 (apply yields_then; intros ?). apply yields_ret, Forall_app_2; [done|]. apply Forall_singleton, fine_empty. }
  unfold DuckDb.execute. apply yields_then. intros e. apply yields_then. intros [[|n]|]; [| |apply yields_ret, fine_one].
  - do 2 (apply yields_then; intros ?). apply yields_ret, fine_one.
  - eapply yields_bind; [by apply Hloop|]. intros statements Hs. apply yields_then. intros _. by apply yields_ret.
Qed.
End duckdb.

Section cassandra.
Context (lib : Driver).

Lemma cassandra_report rowLimit page : fine rowLimit (page_report rowLimit page).
Proof.
  unfold page_report. destruct (pg_columns page) as [|c columns]; [apply fine_empty|]. split.
  - apply Forall_map, Forall_forall. intros row _. unfold Cassandra.row_text. simpl. by rewrite length_imap.
  - unfold within. cbn [sr_tableData]. rewrite length_map. apply within_limited.
Qed.

Lemma yields_on_driver {A} (m : CsW A) Q : yields m Q → yields (on_driver m) Q.
Proof.
  intros Hm s x. specialize (Hm (cc_world s)). unfold result_of, on_driver in *.
  destruct (m (cc_world s)) as [[y|e|] w]; [apply Hm|done..].
Qed.

#[export] Instance cassandra_reports keyspace :
  Reports (λ sql rowLimit, result_of (Cassandra.execute lib sql rowLimit keyspace)).
Proof.
  apply (yields_reports (λ sql rowLimit, Cassandra.execute lib sql rowLimit keyspace)). intros sql rowLimit.
  unfold Cassandra.execute. apply yields_then. intros st. destruct (session_of st) as [c|]; [|apply yields_ret, fine_one].
  apply yields_then. intros _. apply yields_on_driver. unfold Cassandra.run.
  do 5 (apply yields_then; intros ?). apply yields_then. intros error.
  apply (yields_bind _ _ (all_fine rowLimit)).
  - destruct error as [message|]; [apply yields_ret, fine_one|].
    do 2 (apply yields_then; intros ?). apply yields_then. intros _. apply yields_ret, Forall_singleton, cassandra_report.
  - intros answer Ha. do 2 (apply yields_then; intros ?). by apply yields_ret.
Qed.
End cassandra.

(** ** SQL Server *)

Section mssql.
Context (lib : Dblib) (fuel : nat).

Lemma mssql_rows n h p columns rowLimit rows limited :
  rows_fine columns rowLimit rows →
  yields (Mssql.row_loop lib n h p columns rowLimit rows limited) (λ r, rows_fine columns rowLimit (fst r)).
Proof.
  revert rows limited. induction n as [|n IH]; intros rows limited Hr; cbn [Mssql.row_loop]; [apply yields_hangs|].
  apply yields_then. intros [|]; [by apply yields_ret|]. apply yields_then. intros [values| |]; [|by apply yields_ret..].
  destruct (Z.leb_spec rowLimit (Z.of_nat (length rows))); [by apply IH|]. apply IH, rows_fine_snoc; [done|by apply length_imap|done].
Qed.

Lemma mssql_count rowLimit n : fine rowLimit (count_result n).
Proof. unfold count_result. destruct (0 <=? n)%Z; apply fine_empty. Qed.

Lemma mssql_results n h p rowLimit statements :
  Forall (fine rowLimit) statements →
  yields (results_loop lib fuel n h p rowLimit statements) (Forall (fine rowLimit)).
Proof.
  revert statements. induction n as [|n IH]; intros statements Hs; cbn [results_loop]; [apply yields_hangs|].
  apply yields_then. intros [| |]; [|apply yields_then; intros e|by apply yields_ret].
  - apply (yields_bind _ _ (fine rowLimit)).
    + unfold extractDbLibResult. apply yields_then. intros [|c columns].
      * apply yields_then. intros affected. apply yields_ret, mssql_count.
      * eapply yields_bind; [apply mssql_rows, rows_fine_nil|]. intros [rows limited] Hr. by apply yields_ret.
    + intros r Hr. apply yields_then. intros [|].
      * apply yields_then. intros _. apply yields_ret, Forall_app_2; [done|]. apply Forall_singleton, fine_empty.
      * apply IH, Forall_app_2; [done|]. by apply Forall_singleton.
  - apply yields_ret, Forall_app_2; [done|]. apply Forall_singleton, fine_empty.
Qed.

#[export] Instance mssql_reports db : Reports (λ sql rowLimit, result_of (Mssql.execute lib fuel db sql rowLimit)).
Proof.
  apply (yields_reports (λ sql rowLimit, Mssql.execute lib fuel db sql rowLimit)). intros sql rowLimit.
  unfold Mssql.execute.
  apply (yields_bind _ _ (all_fine rowLimit)); [|intros x Hx; apply yields_then; intros _; by apply yields_ret].
  apply yields_catch; [|intros e; apply yields_ret, fine_one]. apply yields_then. intros p.
  unfold executeQueryOnProcess. do 2 (apply yields_then; intros _). apply yields_then. intros sent.
  apply (yields_bind _ _ (Forall (fine (Mssql.row_limit rowLimit)))).
  - destruct sent; cbn [negb]; [by apply mssql_results|]. apply yields_then. intros e. apply yields_then. intros _.
    apply yields_ret, Forall_singleton, fine_empty.
  - intros statements Hs. apply yields_then. intros messages. apply yields_then. intros _. apply yields_ret.
    unfold all_fine. simpl. eapply Forall_impl; [exact Hs|]. intros x [Hx Hw]. split; [done|]. intros Hpos.
    unfold within, Mssql.row_limit in Hw. rewrite (proj2 (Z.ltb_lt _ _) Hpos) in Hw. by apply Hw.
Qed.
End mssql.

(** ** MySQL *)

Section mysql.
Context (lib : Libmysql).

Definition yields_op {S A} (m : Op S A) (Q : A → Prop) : Prop := ∀ s x, result_of_op m s = Some x → Q x.

Lemma yields_op_ret {S A} (x : A) (Q : A → Prop) : Q x → yields_op (S := S) (mret x) Q.
Proof. by intros Hx s y [= <-]. Qed.

Lemma yields_op_bind {S A B} (m : Op S A) (f : A → Op S B) (R : A → Prop) Q :
  yields_op m R → (∀ x, R x → yields_op (f x) Q) → yields_op (m ≫= f) Q.
Proof.
  intros Hm Hf s y. specialize (Hm s). unfold result_of_op, mbind, Op_bind in *.
  destruct (m s) as [[x|] s']; [|done]. apply (Hf x); by apply Hm.
Qed.

Lemma yields_op_then {S A B} (m : Op S A) (f : A → Op S B) Q :
  (∀ x, yields_op (f x) Q) → yields_op (m ≫= f) Q.
Proof. intros Hf. by apply (yields_op_bind m f (λ _, True)). Qed.

Lemma mysql_rows_result res rowLimit : fine rowLimit (MySql.rows_result res rowLimit).
Proof.
  unfold MySql.rows_result. split.
  - apply Forall_map, Forall_forall. intros row _. unfold my_row. simpl. by rewrite length_imap, length_map.
  - unfold within. cbn [sr_tableData]. rewrite length_map. apply within_limited.
Qed.

Lemma mysql_extract rowLimit : yields_op (extractMysqlResult lib rowLimit) (fine rowLimit).
Proof.
  unfold extractMysqlResult. apply yields_op_then. intros [res|]; [apply yields_op_ret, mysql_rows_result|].
  apply yields_op_then. intros count. destruct (count =? 0)%Z; apply yields_op_then; intros x; apply yields_op_ret.
  - unfold affected_result. destruct (negb _); apply fine_empty.
  - apply fine_empty.
Qed.

#[export] Instance mysql_reports info name fuel :
  Reports (λ sql rowLimit, result_of_op (MySql.execute lib info name fuel sql rowLimit)).
Proof.
  intros sql rowLimit s r Hr. apply fine_well_formed. revert s r Hr.
  change (yields_op (MySql.execute lib info name fuel sql rowLimit) (all_fine rowLimit)).
  assert (Hloop : ∀ n statements, Forall (fine rowLimit) statements →
            yields_op (batch_loop lib n rowLimit statements) (Forall (fine rowLimit))).
  { induction n as [|n IH]; intros statements Hs; cbn [batch_loop]; [done|].
    eapply yields_op_bind; [apply mysql_extract|]. intros x Hx.
    assert (Hk : Forall (fine rowLimit) (keep_result statements x)).
    { unfold keep_result. destruct (_ || _); [|done]. apply Forall_app_2; [done|by apply Forall_singleton]. }
    apply yields_op_then. intros [| |]; [by apply IH|by apply yields_op_ret|]. apply yields_op_then. intros e.
    apply yields_op_ret, Forall_app_2; [done|]. apply Forall_singleton, fine_empty. }
  unfold MySql.execute. apply yields_op_then. intros [e|]; [apply yields_op_ret, fine_one|].
  apply yields_op_then. intros _. apply yields_op_then. intros [|]; cbn [negb].
  - eapply yields_op_bind; [by apply Hloop|]. intros statements Hs. by apply yields_op_ret.
  - apply yields_op_then. intros e. apply yields_op_ret, fine_one.
Qed.
End mysql.

(** ** PostgreSQL *)

(** the chunks of one row set have the same columns *)
Class ChunksAlike (lib : Libpq) : Prop :=
  chunks_alike events sql capped got cancelled prev res :
    pq_next lib events sql capped got cancelled = Some res → last got = Some prev →
    pg_status prev = PGRES_TUPLES_CHUNK →
    pg_status res = PGRES_TUPLES_CHUNK ∨ pg_status res = PGRES_TUPLES_OK →
    pg_fields res = pg_fields prev.

Section postgres.
Context (lib : Libpq) `{!ChunksAlike lib} (info : ConnectionInfo) (dbName : string) (fuel : nat).

(** rows that were taken for these columns *)
Definition taken (rowLimit : Z) (fields : list (string * Z)) (s : StatementResult) : Prop :=
  sr_columnNames s = map fst fields ∧ fine rowLimit s.

Lemma taken_append rowLimit fields res s :
  pg_fields res = fields → taken rowLimit fields s ∨ s = no_result →
  taken rowLimit fields (appendPgRows res s rowLimit).
Proof.
  intros Hf Hs.
  assert (Hn : sr_columnNames (appendPgRows res s rowLimit) = map fst fields).
  { unfold appendPgRows. cbn [Postgres.set_rows sr_columnNames]. rewrite Hf.
    destruct Hs as [[-> _]| ->]; [by destruct (map fst fields)|done]. }
  split; [done|]. split.
  - unfold rectangular. rewrite Hn. unfold appendPgRows. cbn [Postgres.set_rows sr_tableData].
    apply Forall_app_2.
    + destruct Hs as [[Hc [Hr _]]| ->]; [|constructor]. unfold rectangular in Hr. by rewrite Hc in Hr.
    + apply Forall_map, Forall_forall. intros row _. unfold pg_row. by rewrite length_imap, length_map, Hf.
  - intros Hpos. apply PostgresProps.limited_append; [done|]. destruct Hs as [[_ [_ Hw]]| ->]; [by apply Hw|].
    by apply limited_none.
Qed.

Lemma fine_message rowLimit s total lim stopped :
  fine rowLimit s → fine rowLimit (setRowsMessage s total lim stopped).
Proof. done. Qed.

Lemma fine_extract rowLimit res : fine rowLimit (extractPgResult res rowLimit).
Proof.
  unfold extractPgResult. destruct (pg_status res); try apply fine_empty.
  - destruct (sempty _); apply fine_empty.
  - apply fine_message. by eapply (taken_append rowLimit (pg_fields res)); [|right].
Qed.

(** the variables of the loop: a row set under way has the columns of its last chunk *)
Definition StreamFine (rowLimit : Z) (st : Stream) : Prop :=
  Forall (fine rowLimit) (st_statements st) ∧
  if st_streaming st then
    ∃ prev, last (st_got st) = Some prev ∧ pg_status prev = PGRES_TUPLES_CHUNK ∧
            taken rowLimit (pg_fields prev) (st_rows st)
  else st_rows st = no_result.

Lemma stream_fine_step rowLimit stoppable st res :
  (∀ prev, last (st_got st) = Some prev → pg_status prev = PGRES_TUPLES_CHUNK →
     pg_status res = PGRES_TUPLES_CHUNK ∨ pg_status res = PGRES_TUPLES_OK → pg_fields res = pg_fields prev) →
  StreamFine rowLimit st → StreamFine rowLimit (stream_step rowLimit stoppable st res).
Proof.
  destruct st as [got rows streaming seen stopped statements]. intros Halike [Hs Hr]. simpl in *.
  assert (Hsnoc : ∀ x, fine rowLimit x → Forall (fine rowLimit) (statements ++ [x])).
  { intros x Hx. apply Forall_app_2; [done|by apply Forall_singleton]. }
  unfold stream_step. destruct (bool_decide (pg_status res = PGRES_TUPLES_CHUNK)) eqn:Ec; cbn [orb].
  - apply bool_decide_eq_true in Ec. split; [done|]. exists res. simpl. rewrite last_snoc. split_and!; [done..|].
    apply taken_append; [done|]. destruct streaming; [|by right]. left.
    destruct Hr as (prev & Hl & Hp & Ht). rewrite (Halike prev Hl Hp) by by left. done.
  - destruct streaming; cbn [andb]; [|].
    + destruct Hr as (prev & Hl & Hp & Ht).
      destruct (bool_decide (pg_status res = PGRES_TUPLES_OK)) eqn:Eo.
      * apply bool_decide_eq_true in Eo. split; [|done]. apply Hsnoc, fine_message.
        eapply (taken_append rowLimit (pg_fields prev)); [|by left]. apply (Halike prev Hl Hp). by right.
      * destruct (bool_decide (is_Some stopped)); (split; [|done]); apply Hsnoc;
          [apply fine_message, Ht|apply fine_extract].
    + split; [|done]. simpl. destruct (_ || _); [|done]. apply Hsnoc, fine_extract.
Qed.

Lemma stream_fine rowLimit stoppable events sql capped n st st' :
  StreamFine rowLimit st →
  stream_loop rowLimit stoppable n (pq_next lib events sql capped) st = Some st' → StreamFine rowLimit st'.
Proof.
  revert st. induction n as [|n IH]; intros st Hst; cbn [stream_loop]; [done|].
  destruct (pq_next lib events sql capped (st_got st) (st_stopped st)) as [res|] eqn:E; [|by intros [= <-]].
  apply IH, stream_fine_step; [|done]. intros prev. by apply (chunks_alike _ _ _ _ _ _ _ E).
Qed.

Lemma postgres_run sql rowLimit timed : yields (Postgres.run lib info dbName fuel sql rowLimit timed) (all_fine rowLimit).
Proof.
  unfold Postgres.run. apply yields_then. intros [e|]; [apply yields_ret, fine_one|]. apply yields_then. intros _ s r.
  unfold result_of, Postgres.query, answer. destruct (pq_send _ _ _) as [err|].
  { intros [= <-]. apply Forall_singleton, fine_empty. }
  destruct (stream_loop _ _ _ _ _) as [st|] eqn:E; [|done]. intros [= <-].
  apply stream_fine in E as [Hs _]; [done|]. split; [constructor|done].
Qed.

#[export] Instance postgres_reports schema :
  Reports (λ sql rowLimit, result_of (executeIn lib info dbName fuel schema sql rowLimit)).
Proof.
  intros sql rowLimit s r Hr. revert s r Hr.
  change (yields (executeIn lib info dbName fuel schema sql rowLimit) (well_formed rowLimit)).
  unfold executeIn. apply (yields_bind _ _ (λ set, ∀ failed, set = Some failed → well_formed rowLimit failed)).
  - unfold switch_path. apply yields_then. intros path. destruct (schema =? path)%string; [by apply yields_ret|].
    eapply yields_bind; [apply postgres_run|]. intros set Hset. destruct (qr_success set) eqn:E.
    + apply yields_then. intros _. by apply yields_ret.
    + apply yields_ret. intros failed [= <-]. split; [|by rewrite E].
      eapply Forall_impl; [exact Hset|]. by intros x [].
  - intros [failed|] Hf; [by apply yields_ret, Hf|].
    eapply yields_bind; [apply postgres_run|]. intros x Hx. apply yields_then. intros _.
    by apply yields_ret, fine_well_formed.
Qed.
End postgres.

(** ** The client of the contract *)

(** [getTableData] hands on a grid *)
Lemma table_data_grid db table limit offset whereClause orderByClause log rows log' :
  Reports (λ sql rowLimit log, Some (db_answer db log sql rowLimit)) →
  Database.getTableData db table limit offset whereClause orderByClause log = (inr rows, log') →
  ∃ width, Forall (λ row, length row = width) rows.
Proof.
  intros Hdb. unfold Database.getTableData, mbind, M_bind, Database.execute, firstOrThrow.
  set (sql := SqlBuilder.selectAll _ _ _ _ _ _). pose proof (Hdb sql 0%Z log _ eq_refl) as [Hr _].
  destruct (qr_statements (db_answer db log sql 0)) as [|s l]; [done|].
  destruct (qr_success _); [|done]. intros [= <- _]. apply Forall_cons in Hr as [Hr _]. by eexists.
Qed.

(** C30: Every SQL backend keeps the contract of results.  Whatever the client library, the
    driver or the server answers, each report of [execute] of PostgreSQL, MySQL, SQL Server,
    SQLite, DuckDB, Cassandra and Oracle has in each row exactly one cell per column, and what
    succeeded has no more rows than a positive limit; for PostgreSQL the chunks of one row set
    have the same columns.  Behind any backend that keeps it, the rows that [IDatabase]'s
    [getTableData] returns are all of one width. *)
Theorem results_well_formed :
  (∀ (lib : Libpq) `{!ChunksAlike lib} info name fuel schema,
     Reports (λ sql rowLimit, result_of (executeIn lib info name fuel schema sql rowLimit))) ∧
  (∀ (lib : Libmysql) info name fuel,
     Reports (λ sql rowLimit, result_of_op (MySql.execute lib info name fuel sql rowLimit))) ∧
  (∀ (lib : Dblib) fuel db, Reports (λ sql rowLimit, result_of (Mssql.execute lib fuel db sql rowLimit))) ∧
  (∀ (lib : Sqlite) fuel d, Reports (λ sql rowLimit, result_of (runMultiStatement lib fuel d sql rowLimit))) ∧
  (∀ (lib : DuckDb) c, Reports (λ sql rowLimit, result_of (DuckDb.execute lib c sql rowLimit))) ∧
  (∀ (lib : Driver) keyspace, Reports (λ sql rowLimit, result_of (Cassandra.execute lib sql rowLimit keyspace))) ∧
  (∀ (lib : Odpi) fuel h, Reports (λ sql rowLimit, result_of (OracleConnection.execute lib fuel h sql rowLimit))) ∧
  ∀ db table limit offset whereClause orderByClause log rows log',
    Reports (λ sql rowLimit log, Some (db_answer db log sql rowLimit)) →
    Database.getTableData db table limit offset whereClause orderByClause log = (inr rows, log') →
    ∃ width, Forall (λ row, length row = width) rows.
Proof.
  split_and!; [apply _..|]. intros db table limit offset whereClause orderByClause log rows log'.
  apply table_data_grid.
Qed.

(** ** Sample backends

    A PostgreSQL server that answers everything with a row set in two chunks. *)

Definition sample_next (got : list PGresult) : option PGresult :=
  match last got with
  | None => Some (mkPGresult PGRES_TUPLES_CHUNK PostgresProps.sample_fields (take 2 PostgresProps.sample_rows) "" "")
  | Some prev =>
      if bool_decide (pg_status prev = PGRES_TUPLES_CHUNK)
      then Some (mkPGresult PGRES_TUPLES_OK (pg_fields prev) (drop 2 PostgresProps.sample_rows) "" "") else None
  end.

Definition sample_pg : Libpq :=
  mkLibpq (λ _ _, None) (λ _, false) (λ _ _, None) (λ _ _ _ got _, sample_next got).

#[export] Instance sample_chunks_alike : ChunksAlike sample_pg.
Proof.
  intros events sql capped got cancelled prev res Hres Hlast Hprev _. simpl in Hres. unfold sample_next in Hres.
  rewrite Hlast, bool_decide_eq_true_2 in Hres by done. by injection Hres as <-.
Qed.

Definition sample_info : ConnectionInfo :=
  mkConnectionInfo POSTGRESQL "main" "" "localhost" 5432 "app" "ann" "" false Disable "" false.

Definition sample_execute (rowLimit : Z) : option QueryResult :=
  result_of (executeIn sample_pg sample_info "app" 9 "" "TABLE t" rowLimit) (mkSession [] false "").

Lemma results_well_formed_witness :
  (map (λ s, (sr_columnNames s, sr_tableData s)) ∘ qr_statements <$> sample_execute 2) =
    Some [(["id"; "ok"], [["1"; BOOL_TRUE_SENTINEL]; ["2"; NULL_SENTINEL]])] ∧
  ∀ r, sample_execute 2 = Some r → well_formed 2 r.
Proof.
  split; [vm_compute; reflexivity|].
  intros r Hr. destruct results_well_formed as [H _].
  exact (H sample_pg sample_chunks_alike sample_info "app" 9 "" "TABLE t" 2%Z (mkSession [] false "") r Hr).
Defined.
